(* ===== verification/_CoqProject ===== *)
-Q . S2P
Prelude.v
Status.v
Requests.v
World.v
Queue.v
Registry.v
Resources.v
Eviction.v
Backends.v
Manager.v
Router.v
Batch.v
Scheduler.v
Admission.v
Worker.v
WorkerProofs.v
Guarantee.v
WorkerDrain.v
Runtime.v
RuntimeProofs.v
Programs.v
Progress.v
Machine.v
MachineLogic.v
MachineRuns.v
MachineThreads.v
MachineProofs.v
Shutdown.v
Joins.v
Reports.v
WorkloadScheduler.v
WorkloadProofs.v
WorkloadPolicy.v
WorkloadFifo.v
Llama.v
LlamaProofs.v
LlamaFeed.v
LlamaLibrary.v
Handler.v
Session.v
SessionProofs.v
Service.v
Answered.v
StreamCodec.v
Server.v
Options.v
OptionsProofs.v
Main.v
