(* ===== verification/Prelude.v ===== *)
(** * A verification of the adaptive inference runtime

    The program is a C++ server for model inference. An HTTP front end turns
    bodies into requests; a runtime admits them to a scheduler; a routing thread
    hands them to workers; each worker forms batches of one model, makes the
    model resident within its memory budget, and runs the batch on a backend.
    This library models those parts, in the order in which they call each
    other, and proves what each promises to the next.

    ** Files and what they model

    Shared vocabulary:
    - [Prelude]: 64-bit arithmetic with its wrap-around ([u64], [+!], [-!]),
      lists, stable sorting ([std_sort]), the traversal order of hash maps as a
      parameter ([HashOrder]: theorems hold for every order);
    - [Status] ([status.hpp], [model.hpp]): error codes, results, model
      descriptions;
    - [World]: threads. A computation runs in a heap of shared requests, with a
      clock, a state shared with other threads and a schedule of what they do;
      before every critical section the other threads may run. [triple] are
      Hoare triples stable under that interference.

    Components, each a module named after its class:
    - [Requests] ([request.cpp]): the state machine of a request, its result,
      deadline and observers;
    - [Queue] ([bounded_queue.hpp]): the bounded queue, with its blocking calls;
    - [Registry] ([model_registry.cpp]), [Resources] ([resource_manager.cpp]),
      [Eviction] ([eviction_policy.cpp]): the models, the memory budget of a
      worker and the order in which models are evicted;
    - [Backends] ([backend.hpp], [synthetic_backend.cpp]): the class
      [IModelBackend] with its laws, and the synthetic backend;
    - [Manager] ([model_manager.cpp]): residency of the models of a worker;
    - [Router] ([router.cpp]): the class [IWorkerRouter] and three routers;
    - [Batch] ([batch_builder.cpp]): batches of one model;
    - [Scheduler] ([scheduler.cpp]): the class [IRequestScheduler] with its laws,
      and the FIFO scheduler; [WorkloadScheduler]
      ([workload_aware_scheduler.cpp]): the workload-aware one;
    - [Admission] ([admission_controller.cpp]): from received to queued;
    - [Worker] ([worker.cpp]): the lane, the execution of a batch, the loop of
      the worker's thread;
    - [Runtime] ([runtime.cpp]): submission, routing, stopping, snapshots;
    - [Guarantee]: what the operations of a thread do to the state and the
      requests of the others;
    - [Programs], [Progress], [Machine], [MachineRuns]: the runtime with its
      callers, its routing thread and the threads of its workers. [Programs]
      takes every operation of [Runtime] and [Worker] apart into its critical
      sections; a step of [Machine] is one critical section of one thread, so
      the threads are interleaved wherever the code lets go of a lock;
    - [Joins] ([threading.hpp]): the machine with the waits of [JoinThread]: a
      thread that moved the handles of others out of their places goes on when
      those have ended;
    - [Llama] ([llama/llama_cpp_backend.cpp] and its configuration): the backend
      over llama.cpp, which is the class [LlamaApi]; [LlamaLibrary]
      ([llama/llama_backend_runtime.cpp]): when the library is initialised and
      freed;
    - [Handler] ([serving/request_handler.cpp]): bodies, responses, events and
      the GET endpoints, over a JSON library ([JsonLib]);
    - [Session] ([serving/http_session.cpp]): the handlers of one connection,
      each a function of the session's state that returns the calls it makes,
      and [step], which delivers their completions in any order;
    - [Server] ([serving/http_server.cpp]): accepting and stopping, over the
      connections of [Session];
    - [Service]: a connection of [Session] beside the runtime of [Machine];
      [Answered]: the reports of the runtime reach it;
    - [Options] ([apps/runtime-server/main.cpp]): the command line and the
      construction of the runtime; [Main]: the process, which is [main] with the
      server of [Server] and the runtime of [Joins].

    ** What the theorems show

    - The system ([MachineLogic], [MachineThreads], [MachineProofs],
      [Shutdown], [Joins]): in every reachable state every submitted request is
      terminal, in a queue, or in the hands of a thread that is in the middle of
      its turn; no exception leaves a thread; when [stop] has returned the
      threads have ended and every submitted request is terminal; and [stop]
      returns: no infinite run, and it waits only for threads that can go on.
      The initial states are those a constructed and started runtime is in
      ([MachineRuns.start_initial], [MachineRuns.new_no_work]). Observers are
      told the truth, and told of the end ([Reports]); the answer of a
      connection is the outcome of its request in the runtime ([Service]), and
      it is sent once the request has ended and the reports were handed on
      ([Answered]).
    - Requests: the first terminal transition wins and is never undone; state
      and result agree; every observer hears of the end once.
    - Queues, registry, memory: the queue is a bounded FIFO whose waiters are
      released by closing it; the registry holds what was added; reservations
      are exact and within the budget.
    - Residency ([Manager], [Eviction]): the accounting invariant of
      [ensure_resident] on every branch, that making room terminates, and that a
      model that fits is never refused for lack of room.
    - Routing and batching ([Router], [Batch]): what each router selects; a
      batch is a contiguous run of one model and nothing popped is lost.
    - Scheduling ([Scheduler], [WorkloadProofs], [WorkloadPolicy],
      [WorkloadFifo]): arrival order for the FIFO scheduler; for the
      workload-aware one, that nothing live is lost, the policy it refines, a
      bound on how often a request is passed over, and that on one model it
      answers like the FIFO scheduler.
    - Workers and runtime ([WorkerProofs], [WorkerDrain], [Admission],
      [RuntimeProofs]): for every backend and every schedule of the other
      threads, a batch ends with every request terminal, a closed worker drains
      its lane, admission and submission resolve, and routing never drops a
      request.
    - Llama backend ([LlamaProofs], [LlamaFeed]): it satisfies the backend
      interface; a batch returns one result per request, without reading out of
      bounds; every sequence is fed its own prompt at consecutive positions.
    - Serving ([Handler], [SessionProofs], [StreamCodec], [Server]): which bodies
      are accepted and what responses report; what a connection sends, with no
      two writes in flight; a client that decodes the stream reads the events;
      who keeps a session alive; stopping the server accounts for every request.
    - Start and end ([OptionsProofs], [Main]): the command line accepts exactly
      the valid options, and from accepted options the runtime is built; [main]
      gets to its end once the server has stopped, returns 0, and leaves no
      thread, no session and no submitted request that is not terminal.

    ** Fuel, bounds and parameters

    Loops that are not structural take fuel, and out of fuel they answer
    [Blocked] (or [OutOfFuel]), never a result. The theorems about them give a
    bound that suffices: the size of the map for the eviction loop, the number
    of queued requests and one more for the selection of the workload-aware
    scheduler, the pending requests and those the schedule will push for the
    loop of a worker, the prompt and output lengths for the llama backend. In
    [Machine] loops have no fuel: a thread goes round as often as it has to, and
    [Shutdown] proves that it stops.
    Integers that can wrap are written with [u64], [i64], [u32] or [i32].
    Code outside the repository is a parameter: llama.cpp ([LlamaApi], with
    [LlamaLaws]), the JSON library ([JsonLib], with [JsonLaws] and [JsonText]),
    the traversal order of hash maps ([HashOrder]), sockets and timers (the
    actions and completions of [Session]), addresses and listening
    ([Main.serve_setup]).

    ** Not modelled

    - Inside a critical section nothing is interleaved, and reads and writes of
      atomics are critical sections of their own. [Machine], [Joins] and [Main]
      are the runtime with the FIFO scheduler: with the workload-aware one the
      routing thread may end early ([dead_backlog_stops_routing]), and the
      theorems about whole runs do not hold.
    - Memory ownership, except where behaviour depends on it: a session lives
      while an operation or a posted update owns it ([Session.alive]), the llama
      library while a backend or [main] holds it ([LlamaLibrary]).
    - [ensure_resident] runs as one step under the manager's mutex, as in the
      code; exceptions thrown by observers are swallowed as in the code and so
      leave no trace; the clock does not overflow.
    - What is written to the standard streams. In [Main] a handler of the server
      and the call of [submit] it makes are steps of the same thread, but which
      handler makes which call is in [Service], for one connection. *)

From stdpp Require Export prelude gmap strings sorting.
From Stdlib Require Export ZArith Lia.
From Stdlib Require Import OrderedTypeEx.

#[global] Open Scope Z_scope.
#[global] Set Default Goal Selector "!".

(** ** Machine integers

    [std::size_t] and [std::uint64_t] are 64-bit unsigned: a value is a [Z]
    and every arithmetic operation is reduced modulo [2^64]. *)

Definition two64 : Z := 18446744073709551616.
Definition u64_max : Z := 18446744073709551615.

Definition u64 (z : Z) : Z := z mod two64.

Declare Scope u64_scope.
Delimit Scope u64_scope with u64.
Notation "x +! y" := (u64 (x + y)) (at level 50, left associativity) : u64_scope.
Notation "x -! y" := (u64 (x - y)) (at level 50, left associativity) : u64_scope.
#[global] Open Scope u64_scope.

Definition is_u64 (z : Z) : Prop := 0 <= z < two64.

Lemma two64_pos : 0 < two64.
Proof. reflexivity. Qed.

Lemma u64_small z : is_u64 z -> u64 z = z.
Proof. intros H. apply Z.mod_small, H. Qed.

Lemma u64_range z : is_u64 (u64 z).
Proof. apply Z.mod_pos_bound, two64_pos. Qed.

Lemma u64_idemp z : u64 (u64 z) = u64 z.
Proof. apply u64_small, u64_range. Qed.

Lemma u64_sub_small a b : 0 <= b -> b <= a -> is_u64 a -> a -! b = a - b.
Proof. intros ?? [??]. apply u64_small. split; lia. Qed.

Lemma u64_add_small a b : 0 <= a -> 0 <= b -> a + b < two64 -> a +! b = a + b.
Proof. intros. apply u64_small. split; lia. Qed.

(** A decrement of a zero counter wraps to the largest value. *)
Lemma u64_sub_wrap b : 0 < b -> b < two64 -> 0 -! b = two64 - b.
Proof.
  intros. unfold u64. replace (0 - b) with ((two64 - b) + (-1) * two64) by lia.
  rewrite Z_mod_plus_full. apply Z.mod_small. lia.
Qed.

Create HintDb arith_u64.
#[export] Hint Resolve u64_range u64_small two64_pos : arith_u64.

(** ** The development's tactics *)

(** Splits every boolean comparison on [Z] that a goal branches on. *)
Ltac zcases :=
  repeat match goal with
  | |- context [Z.eqb ?a ?b] => destruct (Z.eqb_spec a b)
  | |- context [Z.ltb ?a ?b] => destruct (Z.ltb_spec a b)
  | |- context [Z.leb ?a ?b] => destruct (Z.leb_spec a b)
  | H : context [Z.eqb ?a ?b] |- _ => destruct (Z.eqb_spec a b)
  | H : context [Z.ltb ?a ?b] |- _ => destruct (Z.ltb_spec a b)
  | H : context [Z.leb ?a ?b] |- _ => destruct (Z.leb_spec a b)
  end; simpl in *.

(** Splits the boolean connectives of hypotheses into propositions. *)
Ltac bool_hyps :=
  repeat match goal with
  | H : _ && _ = true |- _ => apply andb_true_iff in H as [??]
  | H : _ || _ = false |- _ => apply orb_false_iff in H as [??]
  | H : negb _ = true |- _ => apply negb_true_iff in H
  | H : negb _ = false |- _ => apply negb_false_iff in H
  | H : bool_decide _ = true |- _ => apply bool_decide_eq_true in H
  | H : bool_decide _ = false |- _ => apply bool_decide_eq_false in H
  end.

(** ** [std::string] comparison: [operator<] compares bytes as unsigned
    values, lexicographically. *)

Definition str_ltb (a b : string) : bool := String.ltb a b.

Lemma str_ltb_lt a b : str_ltb a b = true <-> String_as_OT.lt a b.
Proof.
  unfold str_ltb, String.ltb. rewrite <- String_as_OT.cmp_lt.
  unfold String_as_OT.cmp. by destruct (String.compare a b).
Qed.

Lemma str_ltb_irrefl a : str_ltb a a = false.
Proof.
  apply not_true_iff_false. rewrite str_ltb_lt.
  intros H. by apply (String_as_OT.lt_not_eq _ _ H).
Qed.

Lemma str_ltb_trans a b c :
  str_ltb a b = true -> str_ltb b c = true -> str_ltb a c = true.
Proof. rewrite !str_ltb_lt. apply String_as_OT.lt_trans. Qed.

Lemma str_ltb_total a b : str_ltb a b = false -> str_ltb b a = false -> a = b.
Proof.
  unfold str_ltb, String.ltb. rewrite (String.compare_antisym b a).
  destruct (String.compare a b) eqn:E; simpl; try done.
  intros _ _. by apply String.compare_eq_iff.
Qed.

(** ** Strict weak orders: the precondition of [std::sort] and of
    [std::binary_search] on their comparator. *)

Class StrictWeak {A} (lt : A -> A -> bool) : Prop := {
  sw_irrefl a : lt a a = false;
  sw_trans a b c : lt a b = true -> lt b c = true -> lt a c = true;
  sw_ntrans a b c : lt a b = false -> lt b c = false -> lt a c = false
}.

Section strict_weak.
Context {A : Type} (lt : A -> A -> bool) `{!StrictWeak lt}.

Lemma sw_asym a b : lt a b = true -> lt b a = false.
Proof.
  intros Hab. apply not_true_iff_false. intros Hba.
  pose proof (sw_trans a b a Hab Hba). by rewrite sw_irrefl in *.
Qed.

(** The non-strict order [std::sort] establishes between an element and
    every later one. *)
Definition le_of (a b : A) : Prop := lt b a = false.

#[global] Instance le_of_dec : RelDecision le_of.
Proof. intros a b. unfold le_of. apply _. Defined.

#[global] Instance le_of_trans : Transitive le_of.
Proof. intros a b c Hab Hbc. unfold le_of in *. by eapply sw_ntrans. Qed.

#[global] Instance le_of_total : Total le_of.
Proof.
  intros a b. unfold le_of. destruct (lt b a) eqn:E; [|by left].
  right. by apply sw_asym.
Qed.
End strict_weak.

Section lexicographic.
Context {A : Type}.

(** Compare by an integer key first, by [rest] on equal keys. *)
Definition lex_z (key : A -> Z) (rest : A -> A -> bool) (a b : A) : bool :=
  if negb (key a =? key b) then key a <? key b else rest a b.

#[global] Instance lex_z_strict_weak key rest :
  StrictWeak rest -> StrictWeak (lex_z key rest).
Proof.
  intros Hr. split; unfold lex_z.
  - intros a. rewrite Z.eqb_refl. apply sw_irrefl.
  - intros a b c. zcases; try (lia || done). apply sw_trans.
  - intros a b c. zcases; try (lia || done). apply sw_ntrans.
Qed.

Lemma lex_z_incomparable key rest a b :
  lex_z key rest a b = false -> lex_z key rest b a = false ->
  rest a b = false /\ rest b a = false.
Proof. unfold lex_z. rewrite (Z.eqb_sym (key b)). zcases; lia || done. Qed.

Lemma lex_z_false key rest a b :
  lex_z key rest b a = false -> key a < key b \/ (key a = key b /\ rest b a = false).
Proof. unfold lex_z. zcases; intros; try done; (left; lia) || (right; split; [lia|done]). Qed.

Definition by_string (key : A -> string) (a b : A) : bool :=
  str_ltb (key a) (key b).

#[global] Instance by_string_strict_weak key : StrictWeak (by_string key).
Proof.
  split; unfold by_string.
  - intros a. apply str_ltb_irrefl.
  - intros a b c. apply str_ltb_trans.
  - intros a b c Hab Hbc. apply not_true_iff_false. intros Hac.
    destruct (str_ltb (key b) (key a)) eqn:Hba.
    + pose proof (str_ltb_trans _ _ _ Hba Hac). congruence.
    + rewrite (str_ltb_total _ _ Hab Hba) in Hac. congruence.
Qed.

Definition by_z (key : A -> Z) (a b : A) : bool := key a <? key b.

#[global] Instance by_z_strict_weak key : StrictWeak (by_z key).
Proof. split; unfold by_z; intros; zcases; lia || done. Qed.
End lexicographic.

(** ** [std::sort]

    The library promises a permutation of the input in which no element
    compares less than an earlier one. [merge_sort] is one such function;
    [std_sort_unique] shows that on distinct keys there is no other. *)

Definition std_sort {A} (lt : A -> A -> bool) (l : list A) : list A :=
  merge_sort (le_of lt) l.

Definition sorted_by {A} (lt : A -> A -> bool) (l : list A) : Prop :=
  StronglySorted (le_of lt) l.

Section std_sort.
Context {A : Type} (lt : A -> A -> bool) `{!StrictWeak lt}.

Lemma std_sort_perm l : std_sort lt l ≡ₚ l.
Proof. apply merge_sort_Permutation. Qed.

Lemma std_sort_sorted l : sorted_by lt (std_sort lt l).
Proof. apply (StronglySorted_merge_sort _). Qed.

Lemma std_sort_unique l k :
  (forall a b, a ∈ l -> b ∈ l -> lt a b = false -> lt b a = false -> a = b) ->
  sorted_by lt k -> k ≡ₚ l -> k = std_sort lt l.
Proof.
  intros Huniq Hk Hp.
  apply (StronglySorted_unique_strong (le_of lt)); try done.
  - intros a b. rewrite std_sort_perm, Hp. unfold le_of. intros. by apply Huniq.
  - apply std_sort_sorted.
  - by rewrite Hp, std_sort_perm.
Qed.

Lemma std_sort_perm_eq l k :
  (forall a b, a ∈ l -> b ∈ l -> lt a b = false -> lt b a = false -> a = b) ->
  k ≡ₚ l -> std_sort lt k = std_sort lt l.
Proof.
  intros Hu Hp. apply std_sort_unique; [done|apply std_sort_sorted|].
  by rewrite std_sort_perm.
Qed.

Lemma std_sort_elem x l : x ∈ std_sort lt l <-> x ∈ l.
Proof. by rewrite std_sort_perm. Qed.

Lemma std_sort_nil_inv l : std_sort lt l = [] -> l = [].
Proof. intros H. apply Permutation_nil. by rewrite <- H, std_sort_perm. Qed.

Lemma std_sort_head x k l :
  std_sort lt l = x :: k -> x ∈ l /\ forall y, y ∈ l -> lt y x = false.
Proof.
  intros H. pose proof (std_sort_sorted l) as Hs. rewrite H in Hs.
  inversion Hs as [|?? _ Hall]; subst.
  assert (Hp : x :: k ≡ₚ l) by (by rewrite <- H, std_sort_perm).
  split; [rewrite <- Hp; left|]. intros y. rewrite <- Hp, elem_of_cons.
  intros [->|Hy]; [apply sw_irrefl|]. by eapply Forall_forall in Hall.
Qed.
End std_sort.

Lemma StronglySorted_weaken {A} (R S : relation A) l :
  (forall a b, R a b -> S a b) -> StronglySorted R l -> StronglySorted S l.
Proof.
  intros H. induction 1 as [|x l _ IH Hall]; constructor; [done|].
  eapply Forall_impl; [exact Hall|]. auto.
Qed.

(** ** Selection of a least element by one pass *)

Definition select_min {A} (lt : A -> A -> bool) (l : list A) (best : option A) : option A :=
  fold_left (fun best x =>
    match best with
    | None => Some x
    | Some y => if lt x y then Some x else Some y
    end) l best.

Section select_min.
Context {A : Type} (lt : A -> A -> bool) `{!StrictWeak lt}.

Lemma select_min_Some l y :
  exists z, select_min lt l (Some y) = Some z /\ (z = y \/ z ∈ l) /\
            forall x, x = y \/ x ∈ l -> lt x z = false.
Proof.
  revert y. induction l as [|x l IH]; intros y; simpl.
  - exists y. split; [done|]. split; [by left|]. intros x [->|?%elem_of_nil]; [apply sw_irrefl|done].
  - destruct (lt x y) eqn:E.
    + destruct (IH x) as (z & -> & Hz & Hmin). exists z. split; [done|]. split; [set_solver|].
      intros x' [-> | [->|?]%elem_of_cons]; [|auto..].
      apply sw_ntrans with x; [by apply sw_asym|auto].
    + destruct (IH y) as (z & -> & Hz & Hmin). exists z. split; [done|]. split; [set_solver|].
      intros x' [-> | [->|?]%elem_of_cons]; [auto| |auto].
      apply sw_ntrans with y; auto.
Qed.

Lemma select_min_spec l :
  match select_min lt l None with
  | None => l = []
  | Some z => z ∈ l /\ forall x, x ∈ l -> lt x z = false
  end.
Proof.
  destruct l as [|x l]; simpl; [done|].
  destruct (select_min_Some l x) as (z & -> & Hz & Hmin). set_solver.
Qed.
End select_min.

Create HintDb airt.
#[export] Hint Resolve sw_irrefl sw_trans std_sort_sorted : airt.

(** ** [std::unordered_map] iteration

    The order in which the entries of a hash map are visited is not
    specified. It is a parameter: any permutation of the entries, which may
    differ from one traversal ([epoch]) to the next. *)

Class HashOrder := {
  hash_list {V} (epoch : nat) (m : gmap string V) : list (string * V);
  hash_list_perm {V} epoch (m : gmap string V) : hash_list epoch m ≡ₚ map_to_list m
}.

(** The traversal order used by the witnesses. *)
Definition gmap_order : HashOrder :=
  {| hash_list V _ m := map_to_list m; hash_list_perm V _ m := Permutation_refl _ |}.

Lemma elem_of_hash_list `{HashOrder} {V} e (m : gmap string V) k v :
  (k, v) ∈ hash_list e m <-> m !! k = Some v.
Proof. by rewrite hash_list_perm, elem_of_map_to_list. Qed.

Lemma NoDup_hash_list `{HashOrder} {V} e (m : gmap string V) : NoDup (hash_list e m).*1.
Proof. rewrite hash_list_perm. apply NoDup_fst_map_to_list. Qed.

(** ** Sums over lists and maps *)

Definition sum_by {A} (f : A -> Z) (l : list A) : Z :=
  foldr (fun x acc => f x + acc) 0 l.

Lemma sum_by_perm {A} (f : A -> Z) l k : l ≡ₚ k -> sum_by f l = sum_by f k.
Proof. induction 1; simpl; lia. Qed.

Lemma sum_by_nonneg {A} (f : A -> Z) l :
  (forall x, x ∈ l -> 0 <= f x) -> 0 <= sum_by f l.
Proof.
  induction l as [|x l IH]; simpl; [lia|]. intros H.
  assert (0 <= f x) by (apply H; left).
  assert (0 <= sum_by f l) by (apply IH; intros; apply H; by right). lia.
Qed.

Lemma sum_by_app {A} (f : A -> Z) l k : sum_by f (l ++ k) = sum_by f l + sum_by f k.
Proof. induction l; simpl; lia. Qed.

Definition msum {V} (f : V -> Z) (m : gmap string V) : Z :=
  sum_by (fun kv => f kv.2) (map_to_list m).

Section msum.
Context {V : Type} (f : V -> Z).
Implicit Types m : gmap string V.

Lemma msum_empty : msum f ∅ = 0.
Proof. unfold msum. by rewrite map_to_list_empty. Qed.

Lemma msum_insert_fresh m k v : m !! k = None -> msum f (<[k:=v]> m) = f v + msum f m.
Proof.
  intros H. unfold msum.
  by rewrite (sum_by_perm _ _ _ (map_to_list_insert m k v H)).
Qed.

Lemma msum_delete m k v : m !! k = Some v -> msum f m = f v + msum f (delete k m).
Proof.
  intros H. rewrite <- (insert_delete_id m k v H) at 1.
  by rewrite msum_insert_fresh by apply lookup_delete_eq.
Qed.

Lemma msum_insert m k v :
  msum f (<[k:=v]> m) = msum f m + f v - from_option f 0 (m !! k).
Proof.
  destruct (m !! k) as [w|] eqn:E; simpl.
  - rewrite (msum_delete m k w E), <- insert_delete_eq.
    rewrite msum_insert_fresh by apply lookup_delete_eq. lia.
  - rewrite msum_insert_fresh by done. lia.
Qed.

Lemma msum_nonneg m : (forall k v, m !! k = Some v -> 0 <= f v) -> 0 <= msum f m.
Proof.
  intros H. apply sum_by_nonneg. intros [k v] Hin%elem_of_map_to_list. by eapply H.
Qed.

Lemma msum_lookup_le m k v :
  (forall k v, m !! k = Some v -> 0 <= f v) -> m !! k = Some v -> f v <= msum f m.
Proof.
  intros Hn Hk. rewrite (msum_delete m k v Hk).
  assert (0 <= msum f (delete k m)); [|lia].
  apply msum_nonneg. intros k' v' [_ ?]%lookup_delete_Some. eauto.
Qed.
End msum.
