(* ===== verification/Status.v ===== *)
(** * Status values, model descriptions and the results of inference

    [include/airuntime/status.hpp] and [include/airuntime/model.hpp]: the error
    codes, the [Status] every fallible operation returns, the result of one
    inference, and the description of a model. *)

From S2P Require Import Prelude.

Inductive ErrorCode :=
  | ENone
  | InvalidStateTransition
  | QueueFull
  | QueueClosed
  | ModelNotFound
  | ModelLoadFailed
  | InferenceFailed
  | RuntimeStopped
  | InternalError
  | InsufficientMemory
  | NoFeasibleWorker
  | ECancelled
  | ETimedOut
  | ContextLengthExceeded.

#[export] Instance ErrorCode_eq_dec : EqDecision ErrorCode.
Proof. solve_decision. Defined.

Record Status := mkStatus { code : ErrorCode; message : string }.

#[export] Instance Status_eq_dec : EqDecision Status.
Proof. solve_decision. Defined.

Module Status.
Definition ok (s : Status) : bool := bool_decide (code s = ENone).
Definition success : Status := mkStatus ENone "".
Definition error (c : ErrorCode) (m : string) : Status := mkStatus c m.
End Status.

Record InferenceOutput := mkOutput { text : string; output_tokens : Z }.

#[export] Instance InferenceOutput_eq_dec : EqDecision InferenceOutput.
Proof. solve_decision. Defined.

Record InferenceResult := mkResult { status : Status; output : option InferenceOutput }.

#[export] Instance InferenceResult_eq_dec : EqDecision InferenceResult.
Proof. solve_decision. Defined.

Module InferenceResult.
Definition success (o : InferenceOutput) : InferenceResult :=
  mkResult Status.success (Some o).
Definition failure (s : Status) : InferenceResult := mkResult s None.
Definition ok (r : InferenceResult) : bool := Status.ok (status r).
End InferenceResult.

(** [model.hpp]: the registered description of a model and the residency
    states of a model on a worker. *)

Record ModelSpec := mkSpec {
  spec_model_id : string;
  spec_memory_bytes : Z;
  spec_load_cost : Z
}.

#[export] Instance ModelSpec_eq_dec : EqDecision ModelSpec.
Proof. solve_decision. Defined.

Inductive ModelState := Unloaded | Loading | Resident | Evicting | MFailed.

#[export] Instance ModelState_eq_dec : EqDecision ModelState.
Proof. solve_decision. Defined.

Lemma ok_success : Status.ok Status.success = true.
Proof. reflexivity. Qed.

Lemma ok_error c m : Status.ok (Status.error c m) = bool_decide (c = ENone).
Proof. reflexivity. Qed.

#[export] Hint Resolve ok_success : airt.
