(* ===== verification/Requests.v ===== *)
(** * The request lifecycle

    [include/airuntime/request.hpp] and [src/request.cpp]. An
    [InferenceRequest] is a lock-protected state machine shared by the HTTP
    session, the scheduler, the routing thread and a worker. Every member
    function is one critical section (two for [try_timeout_if_expired]); here
    it is a function on the request record that also returns the notifications
    the code hands to the registered observers after the lock is released. *)

From S2P Require Import Prelude Status.

Inductive RequestState :=
  | Received | Queued | Running
  | Completed | Rejected | Failed | Cancelled | TimedOut.

#[export] Instance RequestState_eq_dec : EqDecision RequestState.
Proof. solve_decision. Defined.

(** A point of [std::chrono::steady_clock], in nanoseconds. *)
Definition time_point : Set := Z.

Record RequestSnapshot := mkSnapshot {
  snap_request_id : string;
  snap_model_id : string;
  snap_state : RequestState;
  snap_result : option InferenceResult
}.

(** A registered callback is known by its identity; invoking it is recorded
    as a notification. An exception it throws is swallowed by the caller. *)
Definition RequestObserver : Set := nat.
Definition notification : Type := RequestObserver * RequestSnapshot.

Module InferenceRequest.

Record t := mk {
  request_id_ : string;
  model_id_ : string;
  prompt_ : string;
  max_output_tokens_ : Z;
  state_ : RequestState;
  result_ : option InferenceResult;
  deadline_ : option time_point;
  observers_ : list RequestObserver
}.

Definition new (request_id model_id prompt : string) (max_output_tokens : Z) : t :=
  mk request_id model_id prompt max_output_tokens Received None None [].

Definition with_state (s : RequestState) (r : t) : t :=
  mk (request_id_ r) (model_id_ r) (prompt_ r) (max_output_tokens_ r)
     s (result_ r) (deadline_ r) (observers_ r).
Definition with_result (x : option InferenceResult) (r : t) : t :=
  mk (request_id_ r) (model_id_ r) (prompt_ r) (max_output_tokens_ r)
     (state_ r) x (deadline_ r) (observers_ r).
Definition with_observers (os : list RequestObserver) (r : t) : t :=
  mk (request_id_ r) (model_id_ r) (prompt_ r) (max_output_tokens_ r)
     (state_ r) (result_ r) (deadline_ r) os.

Definition is_terminal_state (s : RequestState) : bool :=
  match s with
  | Completed | Rejected | Failed | Cancelled | TimedOut => true
  | Received | Queued | Running => false
  end.

Definition is_valid_transition (from to : RequestState) : bool :=
  if is_terminal_state from then false else
  match from with
  | Received =>
      bool_decide (to = Queued) || bool_decide (to = Rejected) ||
      bool_decide (to = Cancelled) || bool_decide (to = TimedOut)
  | Queued =>
      bool_decide (to = Running) || bool_decide (to = Rejected) ||
      bool_decide (to = Cancelled) || bool_decide (to = TimedOut)
  | Running =>
      bool_decide (to = Completed) || bool_decide (to = Failed) ||
      bool_decide (to = Cancelled) || bool_decide (to = TimedOut)
  | Completed | Rejected | Failed | Cancelled | TimedOut => false
  end.

Definition is_terminal (r : t) : bool := is_terminal_state (state_ r).

Definition snapshot (r : t) : RequestSnapshot :=
  mkSnapshot (request_id_ r) (model_id_ r) (state_ r) (result_ r).

Definition set_deadline (d : option time_point) (r : t) : t :=
  mk (request_id_ r) (model_id_ r) (prompt_ r) (max_output_tokens_ r)
     (state_ r) (result_ r) d (observers_ r).

Definition is_expired (now : time_point) (r : t) : bool :=
  match deadline_ r with Some d => d <=? now | None => false end.

Definition invoke_observers (callbacks : list RequestObserver) (snap : RequestSnapshot)
  : list notification :=
  map (fun o => (o, snap)) callbacks.

Definition add_observer (observer : option RequestObserver) (r : t)
  : t * list notification :=
  match observer with
  | None => (r, [])
  | Some o =>
      if is_terminal_state (state_ r)
      then (r, invoke_observers [o] (snapshot r))
      else (with_observers (observers_ r ++ [o]) r, [])
  end.

Definition try_transition_to_locked (next : RequestState) (r : t) : bool * t :=
  if negb (is_valid_transition (state_ r) next) then (false, r)
  else (true, with_state next r).

Definition notify_observers_locked (r : t) : t * list notification :=
  match observers_ r with
  | [] => (r, [])
  | _ =>
      let snap := snapshot r in
      if is_terminal_state (state_ r)
      then (with_observers [] r, invoke_observers (observers_ r) snap)
      else (r, invoke_observers (observers_ r) snap)
  end.

Definition transition_to (next : RequestState) (r : t)
  : Status * (t * list notification) :=
  match try_transition_to_locked next r with
  | (false, r) =>
      (Status.error InvalidStateTransition "invalid request state transition", (r, []))
  | (true, r) => (Status.success, notify_observers_locked r)
  end.

(** The common body of the five [try_*] functions: move to a terminal state,
    store the result, hand the snapshot to the observers and drop them. *)
Definition finish (next : RequestState) (res : InferenceResult) (r : t)
  : bool * (t * list notification) :=
  match try_transition_to_locked next r with
  | (false, r) => (false, (r, []))
  | (true, r) =>
      let r := with_result (Some res) r in
      let snap := snapshot r in
      (true, (with_observers [] r, invoke_observers (observers_ r) snap))
  end.

Definition try_complete (result_in : InferenceResult) (r : t) :=
  finish Completed result_in r.
Definition try_fail (error : Status) (r : t) :=
  finish Failed (InferenceResult.failure error) r.
Definition try_reject (error : Status) (r : t) :=
  finish Rejected (InferenceResult.failure error) r.
Definition try_cancel (r : t) :=
  finish Cancelled
    (InferenceResult.failure (Status.error ECancelled "request cancelled")) r.
Definition try_timeout (r : t) :=
  finish TimedOut
    (InferenceResult.failure (Status.error ETimedOut "request timed out")) r.

(** First critical section of [try_timeout_if_expired]. *)
Definition expired_and_live (now : time_point) (r : t) : bool :=
  if is_terminal_state (state_ r) then false
  else match deadline_ r with
       | None => false
       | Some d => if now <? d then false else true
       end.

Definition try_timeout_if_expired (now : time_point) (r : t)
  : bool * (t * list notification) :=
  if expired_and_live now r then try_timeout r else (false, (r, [])).

(** The legacy helpers: the outcome of a [try_*] call as a [Status]. *)
Definition legacy_status (done : bool) : Status :=
  if done then Status.success
  else Status.error InvalidStateTransition "request already terminal".

Definition complete (result_in : InferenceResult) (r : t) : Status * (t * list notification) :=
  let '(done, out) := try_complete result_in r in (legacy_status done, out).
Definition fail (error : Status) (r : t) : Status * (t * list notification) :=
  let '(done, out) := try_fail error r in (legacy_status done, out).
Definition reject (error : Status) (r : t) : Status * (t * list notification) :=
  let '(done, out) := try_reject error r in (legacy_status done, out).

(** The mutating operations any thread holding the request may call. *)
Inductive op :=
  | OpSetDeadline (d : option time_point)
  | OpAddObserver (o : option RequestObserver)
  | OpTransition (next : RequestState)
  | OpComplete (res : InferenceResult)
  | OpFail (e : Status)
  | OpReject (e : Status)
  | OpCancel
  | OpTimeout
  | OpTimeoutIfExpired (now : time_point).

Definition apply_op (o : op) (r : t) : t * list notification :=
  match o with
  | OpSetDeadline d => (set_deadline d r, [])
  | OpAddObserver ob => add_observer ob r
  | OpTransition next => (transition_to next r).2
  | OpComplete res => (try_complete res r).2
  | OpFail e => (try_fail e r).2
  | OpReject e => (try_reject e r).2
  | OpCancel => (try_cancel r).2
  | OpTimeout => (try_timeout r).2
  | OpTimeoutIfExpired now => (try_timeout_if_expired now r).2
  end.

(** A sequence of operations, with the notifications in the order sent. *)
Fixpoint run_ops (os : list op) (r : t) : t * list notification :=
  match os with
  | [] => (r, [])
  | o :: os =>
      let '(r1, n1) := apply_op o r in
      let '(r2, n2) := run_ops os r1 in (r2, n1 ++ n2)
  end.
End InferenceRequest.

Import InferenceRequest.

(** ** How a request evolves

    [evolves r r'] relates a request to any later version of itself: its
    identity is fixed, its state only climbs [Received < Queued < Running <
    terminal], and once terminal its state and result are frozen. *)

Definition rank (s : RequestState) : nat :=
  match s with Received => 0 | Queued => 1 | Running => 2 | _ => 3 end.

Record evolves (r r' : t) : Prop := {
  ev_request_id : request_id_ r' = request_id_ r;
  ev_model_id : model_id_ r' = model_id_ r;
  ev_prompt : prompt_ r' = prompt_ r;
  ev_tokens : max_output_tokens_ r' = max_output_tokens_ r;
  ev_state : state_ r' = state_ r \/ (rank (state_ r) < rank (state_ r'))%nat;
  ev_frozen : is_terminal r = true -> state_ r' = state_ r /\ result_ r' = result_ r
}.

#[export] Instance evolves_preorder : PreOrder evolves.
Proof.
  split; [by intros r; split; auto|].
  intros a b c [? ? ? ? Hs Hf] [? ? ? ? Hs' Hf']. split; try congruence.
  - destruct Hs as [E|?], Hs' as [E'|?]; rewrite ?E', ?E in *; auto. right. lia.
  - intros Ht. destruct (Hf Ht) as [E1 E2].
    assert (is_terminal b = true) as Hb by (unfold is_terminal in *; by rewrite E1).
    destruct (Hf' Hb). split; congruence.
Qed.

Lemma valid_transition_rank s s' :
  is_valid_transition s s' = true -> is_terminal_state s = false /\ (rank s < rank s')%nat.
Proof. destruct s, s'; vm_compute; split; done || lia. Qed.

Lemma terminal_no_transition s s' : is_terminal_state s = true -> is_valid_transition s s' = false.
Proof. unfold is_valid_transition. by intros ->. Qed.

Lemma terminal_rank s : is_terminal_state s = true <-> rank s = 3%nat.
Proof. by destruct s. Qed.

#[export] Hint Resolve terminal_no_transition : airt.

(** The effect of [finish], by cases on whether the transition is allowed. *)
Lemma finish_spec next res r :
  finish next res r =
    if is_valid_transition (state_ r) next
    then (true, (with_observers [] (with_result (Some res) (with_state next r)),
                 invoke_observers (observers_ r)
                   (snapshot (with_result (Some res) (with_state next r)))))
    else (false, (r, [])).
Proof.
  unfold finish, try_transition_to_locked.
  by destruct (is_valid_transition (state_ r) next).
Qed.

Lemma transition_to_spec next r :
  transition_to next r =
    if is_valid_transition (state_ r) next
    then (Status.success,
          (if is_terminal_state next then with_observers [] (with_state next r)
           else with_state next r,
           invoke_observers (observers_ r) (snapshot (with_state next r))))
    else (Status.error InvalidStateTransition "invalid request state transition", (r, [])).
Proof.
  unfold transition_to, try_transition_to_locked, notify_observers_locked.
  destruct (is_valid_transition (state_ r) next); simpl; [|done].
  destruct r as [? ? ? ? ? ? ? [|o os]]; simpl; [|by destruct (is_terminal_state next)].
  by destruct (is_terminal_state next).
Qed.

Lemma evolves_transition next r r' :
  is_valid_transition (state_ r) next = true ->
  request_id_ r' = request_id_ r -> model_id_ r' = model_id_ r ->
  prompt_ r' = prompt_ r -> max_output_tokens_ r' = max_output_tokens_ r ->
  state_ r' = next -> evolves r r'.
Proof.
  intros Hv ? ? ? ? ?. destruct (valid_transition_rank _ _ Hv).
  split; try done; [right; congruence|]. unfold is_terminal. congruence.
Qed.

Lemma finish_evolves next res r : evolves r (finish next res r).2.1.
Proof.
  rewrite finish_spec. destruct (is_valid_transition (state_ r) next) eqn:E; [|done].
  by apply (evolves_transition next).
Qed.

Lemma transition_evolves next r : evolves r (transition_to next r).2.1.
Proof.
  rewrite transition_to_spec. destruct (is_valid_transition (state_ r) next) eqn:E; [|done].
  simpl. destruct (is_terminal_state next); by apply (evolves_transition next).
Qed.

Lemma apply_op_evolves o r : evolves r (apply_op o r).1.
Proof.
  destruct o as [d|ob|next|res|e|e| | |now]; simpl;
    try apply finish_evolves; try apply transition_evolves.
  - by split; auto.
  - destruct ob as [o|]; simpl; [|done].
    destruct (is_terminal_state (state_ r)); simpl; [done|]. by split; auto.
  - unfold try_timeout_if_expired. destruct (expired_and_live now r); [|done].
    apply finish_evolves.
Qed.

Lemma run_ops_cons o os r :
  run_ops (o :: os) r =
    ((run_ops os (apply_op o r).1).1,
     (apply_op o r).2 ++ (run_ops os (apply_op o r).1).2).
Proof. simpl. destruct (apply_op o r) as [r1 n1]. simpl. by destruct (run_ops os r1). Qed.

Lemma run_ops_app os1 os2 r :
  run_ops (os1 ++ os2) r =
    ((run_ops os2 (run_ops os1 r).1).1,
     (run_ops os1 r).2 ++ (run_ops os2 (run_ops os1 r).1).2).
Proof.
  revert r. induction os1 as [|o os1 IH]; intros r.
  - simpl. by destruct (run_ops os2 r).
  - change ((o :: os1) ++ os2) with (o :: os1 ++ os2).
    rewrite !run_ops_cons, IH. simpl. by rewrite app_assoc.
Qed.

Lemma run_ops_evolves os r : evolves r (run_ops os r).1.
Proof.
  revert r. induction os as [|o os IH]; intros r; [done|].
  rewrite run_ops_cons. simpl. etrans; [apply apply_op_evolves|apply IH].
Qed.

(** ** Terminal states *)

(** Does the operation bring a live request into a terminal state? *)
Definition op_terminates (o : op) (r : t) : bool :=
  negb (is_terminal r) && is_terminal (apply_op o r).1.

Fixpoint wins (os : list op) (r : t) : nat :=
  match os with
  | [] => 0
  | o :: os => ((if op_terminates o r then 1 else 0) + wins os (apply_op o r).1)%nat
  end.

Lemma evolves_terminal r r' : evolves r r' -> is_terminal r = true -> is_terminal r' = true.
Proof. intros Hev Ht. unfold is_terminal. by rewrite (proj1 (ev_frozen _ _ Hev Ht)). Qed.

#[export] Hint Resolve evolves_terminal apply_op_evolves run_ops_evolves : airt.

Lemma wins_spec os r :
  wins os r = if is_terminal r then 0%nat
              else if is_terminal (run_ops os r).1 then 1%nat else 0%nat.
Proof.
  revert r. induction os as [|o os IH]; intros r.
  - simpl. by destruct (is_terminal r).
  - rewrite run_ops_cons. simpl. rewrite IH. unfold op_terminates.
    destruct (is_terminal r) eqn:Hr; simpl.
    + by rewrite (evolves_terminal _ _ (apply_op_evolves o r) Hr).
    + destruct (is_terminal (apply_op o r).1) eqn:H1; [|done].
      by rewrite (evolves_terminal _ _ (run_ops_evolves os _) H1).
Qed.

(** C9: First terminal wins. Whatever operations the threads sharing a request
    perform and in whatever order, at most one of them brings it into a
    terminal state, exactly one when it ends terminal; and from the moment it
    is terminal, no later operation changes its state or its result. *)
Theorem first_terminal_wins r os1 os2 :
  (wins (os1 ++ os2) r <= 1)%nat /\
  (is_terminal r = false ->
   (wins (os1 ++ os2) r = 1%nat <-> is_terminal (run_ops (os1 ++ os2) r).1 = true)) /\
  (is_terminal (run_ops os1 r).1 = true ->
   state_ (run_ops (os1 ++ os2) r).1 = state_ (run_ops os1 r).1 /\
   result_ (run_ops (os1 ++ os2) r).1 = result_ (run_ops os1 r).1).
Proof.
  rewrite wins_spec. repeat split.
  - destruct (is_terminal r); [lia|]. destruct (is_terminal _); lia.
  - rewrite H. by destruct (is_terminal (run_ops (os1 ++ os2) r).1).
  - rewrite H. by intros ->.
  - rewrite run_ops_app. by apply (ev_frozen _ _ (run_ops_evolves os2 _)).
  - rewrite run_ops_app. by apply (ev_frozen _ _ (run_ops_evolves os2 _)).
Qed.

Lemma first_terminal_wins_witness :
  let r := (run_ops [OpTransition Queued] (new "r" "m" "p" 1)).1 in
  is_terminal r = false /\
  (wins ([OpTimeout] ++ [OpCancel]) r = 1%nat <->
   is_terminal (run_ops ([OpTimeout] ++ [OpCancel]) r).1 = true) /\
  state_ (run_ops ([OpTimeout] ++ [OpCancel]) r).1 = TimedOut.
Proof.
  intros r. split; [reflexivity|].
  destruct (first_terminal_wins r [OpTimeout] [OpCancel]) as (_ & H1 & H2).
  split; [by apply H1|]. by destruct (H2 eq_refl) as [-> _].
Defined.

(** Which terminal transition is possible when. A live request can always
    be cancelled and timed out; it can be completed or failed only while
    running, rejected only before it runs; and the deadline check times it out
    exactly when it is live and its deadline has passed. *)
Theorem try_outcomes r res e now :
  (try_cancel r).1 = negb (is_terminal r) /\
  (try_timeout r).1 = negb (is_terminal r) /\
  (try_complete res r).1 = bool_decide (state_ r = Running) /\
  (try_fail e r).1 = bool_decide (state_ r = Running) /\
  (try_reject e r).1 = bool_decide (state_ r = Received) || bool_decide (state_ r = Queued) /\
  (try_timeout_if_expired now r).1 = negb (is_terminal r) && is_expired now r.
Proof.
  unfold try_cancel, try_timeout, try_complete, try_fail, try_reject,
    try_timeout_if_expired, expired_and_live, is_expired, is_terminal.
  unfold try_timeout. rewrite !finish_spec.
  destruct (state_ r); simpl; repeat split; try done;
    destruct (deadline_ r) as [d|]; try done; simpl; zcases; lia || done.
Qed.

(** ** Results *)

(** The transitions the callers request directly: only [Queued] (admission)
    and [Running] (worker); terminal states go through the [try_*] functions. *)
Definition caller_op (o : op) : Prop :=
  match o with OpTransition s => s = Queued \/ s = Running | _ => True end.

(** The result that belongs to a state. *)
Definition result_matches (r : t) : Prop :=
  match state_ r with
  | Received | Queued | Running => result_ r = None
  | Completed => exists res, result_ r = Some res
  | Rejected | Failed => exists e, result_ r = Some (InferenceResult.failure e)
  | Cancelled =>
      result_ r = Some (InferenceResult.failure (Status.error ECancelled "request cancelled"))
  | TimedOut =>
      result_ r = Some (InferenceResult.failure (Status.error ETimedOut "request timed out"))
  end.

Lemma finish_result_matches next res r :
  result_matches r ->
  (forall r', state_ r' = next -> result_ r' = Some res -> result_matches r') ->
  result_matches (finish next res r).2.1.
Proof.
  intros Hr Hn. rewrite finish_spec.
  destruct (is_valid_transition (state_ r) next); [|done]. by apply Hn.
Qed.

Lemma apply_op_result_matches o r :
  caller_op o -> result_matches r -> result_matches (apply_op o r).1.
Proof.
  intros Hc Hr. destruct o as [d|ob|next|res|e|e| | |now]; simpl.
  - done.
  - destruct ob as [o|]; simpl; [|done]. by destruct (is_terminal_state (state_ r)).
  - rewrite transition_to_spec.
    destruct (is_valid_transition (state_ r) next) eqn:E; [|done].
    apply valid_transition_rank in E as [E _].
    unfold result_matches in *. destruct Hc as [-> | ->]; simpl; by destruct (state_ r).
  - apply finish_result_matches; [done|]. unfold result_matches. intros ? -> ->. eauto.
  - apply finish_result_matches; [done|]. unfold result_matches. intros ? -> ->. eauto.
  - apply finish_result_matches; [done|]. unfold result_matches. intros ? -> ->. eauto.
  - apply finish_result_matches; [done|]. unfold result_matches. by intros ? -> ->.
  - apply finish_result_matches; [done|]. unfold result_matches. by intros ? -> ->.
  - unfold try_timeout_if_expired. destruct (expired_and_live now r); [|done].
    apply finish_result_matches; [done|]. unfold result_matches. by intros ? -> ->.
Qed.

Lemma run_ops_result_matches os r :
  Forall caller_op os -> result_matches r -> result_matches (run_ops os r).1.
Proof.
  intros Hos. revert r. induction Hos as [|o os Ho _ IH]; intros r Hr; [done|].
  rewrite run_ops_cons. simpl. by apply IH, apply_op_result_matches.
Qed.

(** C34: State and result agree. After any sequence of operations on a new
    request, in which direct transitions only queue or start it, a result is
    present exactly when the request is terminal, and it is the one its state
    calls for: cancelled and timed-out requests carry their own error code. *)
Theorem result_iff_terminal id model prompt tokens os :
  Forall caller_op os ->
  let r := (run_ops os (new id model prompt tokens)).1 in
  result_matches r /\ (is_terminal r = true <-> is_Some (result_ r)).
Proof.
  intros Hos r. assert (Hm : result_matches r) by (by apply run_ops_result_matches).
  split; [done|]. unfold result_matches, is_terminal in *.
  destruct (state_ r); simpl; split; try done; try (by destruct 1; congruence);
    intros _; destruct Hm; eauto; congruence.
Qed.

Lemma result_iff_terminal_witness :
  let os := [OpTransition Queued; OpTransition Running; OpCancel; OpTimeout] in
  Forall caller_op os /\
  (is_terminal (run_ops os (new "r" "m" "p" 1)).1 = true <->
   is_Some (result_ (run_ops os (new "r" "m" "p" 1)).1)).
Proof.
  intros os. assert (H : Forall caller_op os) by (repeat constructor; simpl; auto).
  split; [exact H|]. exact (proj2 (result_iff_terminal "r" "m" "p" 1 os H)).
Defined.

(** ** Observers *)

Definition count_obs (o : RequestObserver) (os : list RequestObserver) : nat :=
  length (filter (fun x => x = o) os).

Definition is_terminal_note (o : RequestObserver) (n : notification) : Prop :=
  n.1 = o /\ is_terminal_state (snap_state n.2) = true.

#[export] Instance is_terminal_note_dec o n : Decision (is_terminal_note o n).
Proof. unfold is_terminal_note. apply _. Defined.

Definition terminal_notes (o : RequestObserver) (ns : list notification) : nat :=
  length (filter (is_terminal_note o) ns).

Fixpoint registrations (o : RequestObserver) (os : list op) : nat :=
  match os with
  | [] => 0
  | OpAddObserver (Some o') :: os => ((if decide (o' = o) then 1 else 0) + registrations o os)%nat
  | _ :: os => registrations o os
  end.

Lemma terminal_notes_app o n1 n2 :
  terminal_notes o (n1 ++ n2) = (terminal_notes o n1 + terminal_notes o n2)%nat.
Proof. unfold terminal_notes. by rewrite filter_app, length_app. Qed.

Lemma terminal_notes_invoke o os snap :
  terminal_notes o (invoke_observers os snap) =
    if is_terminal_state (snap_state snap) then count_obs o os else 0%nat.
Proof.
  unfold terminal_notes, count_obs, invoke_observers.
  induction os as [|x os IH]; simpl; [by destruct (is_terminal_state _)|].
  rewrite !filter_cons.
  destruct (decide (is_terminal_note o (x, snap))) as [[Hx Ht]|Hn]; simpl in *.
  - rewrite IH, Ht. by rewrite decide_True.
  - rewrite IH. destruct (is_terminal_state (snap_state snap)) eqn:E; [|done].
    rewrite decide_False; [done|]. intros ->. by apply Hn.
Qed.

Lemma apply_op_count o0 o r :
  (terminal_notes o (apply_op o0 r).2 + count_obs o (observers_ (apply_op o0 r).1) =
   count_obs o (observers_ r) + registrations o [o0])%nat.
Proof.
  assert (Hfin : forall next res, is_terminal_state next = true ->
    (terminal_notes o (finish next res r).2.2 + count_obs o (observers_ (finish next res r).2.1)
     = count_obs o (observers_ r))%nat).
  { intros next res Hn. rewrite finish_spec.
    destruct (is_valid_transition (state_ r) next); simpl; [|done].
    rewrite terminal_notes_invoke. simpl. rewrite Hn. by unfold count_obs at 2. }
  destruct o0 as [d|ob|next|res|e|e| | |now]; simpl; rewrite ?Nat.add_0_r;
    try (by apply Hfin); try done.
  - destruct ob as [o'|]; simpl; [|by rewrite Nat.add_0_r].
    destruct (is_terminal_state (state_ r)) eqn:E; simpl.
    + change [(o', snapshot r)] with (invoke_observers [o'] (snapshot r)).
      rewrite terminal_notes_invoke. simpl. rewrite E.
      unfold count_obs. rewrite filter_cons. destruct (decide (o' = o)); simpl; lia.
    + unfold count_obs. rewrite filter_app, length_app, filter_cons.
      destruct (decide (o' = o)); simpl; lia.
  - rewrite transition_to_spec. destruct (is_valid_transition (state_ r) next); simpl; [|done].
    rewrite terminal_notes_invoke. simpl. by destruct (is_terminal_state next).
  - unfold try_timeout_if_expired. destruct (expired_and_live now r); [|done].
    by apply Hfin.
Qed.

Lemma registrations_cons o o0 os :
  registrations o (o0 :: os) = (registrations o [o0] + registrations o os)%nat.
Proof. destruct o0 as [d|[o'|]| | | | | | |]; simpl; try destruct (decide (o' = o)); lia. Qed.

Lemma run_ops_count os o r :
  (terminal_notes o (run_ops os r).2 + count_obs o (observers_ (run_ops os r).1) =
   count_obs o (observers_ r) + registrations o os)%nat.
Proof.
  revert r. induction os as [|o0 os IH]; intros r; [simpl; by rewrite Nat.add_0_r|].
  rewrite run_ops_cons, registrations_cons. cbn [fst snd]. rewrite terminal_notes_app.
  specialize (IH (apply_op o0 r).1). pose proof (apply_op_count o0 o r). lia.
Qed.

(** Every notification carries the snapshot of the request right after the
    operation that sent it. *)
Lemma apply_op_notes o r n : n ∈ (apply_op o r).2 -> n.2 = snapshot (apply_op o r).1.
Proof.
  assert (Hinv : forall os (snap : RequestSnapshot), n ∈ invoke_observers os snap -> n.2 = snap).
  { intros os snap (x & -> & _)%list_elem_of_fmap. done. }
  assert (Hfin : forall next res,
    n ∈ (finish next res r).2.2 -> n.2 = snapshot (finish next res r).2.1).
  { intros next res. rewrite finish_spec.
    destruct (is_valid_transition (state_ r) next); simpl; [apply Hinv|by intros ?%elem_of_nil]. }
  destruct o as [d|ob|next|res|e|e| | |now]; simpl; try apply Hfin.
  - by intros ?%elem_of_nil.
  - destruct ob as [o'|]; simpl; [|by intros ?%elem_of_nil].
    destruct (is_terminal_state (state_ r)); simpl; [|by intros ?%elem_of_nil].
    by intros ->%list_elem_of_singleton.
  - rewrite transition_to_spec. destruct (is_valid_transition (state_ r) next); simpl.
    + intros ->%Hinv. by destruct (is_terminal_state next).
    + by intros ?%elem_of_nil.
  - unfold try_timeout_if_expired. destruct (expired_and_live now r); [apply Hfin|].
    by intros ?%elem_of_nil.
Qed.

Lemma evolves_snapshot r r' : evolves r r' -> is_terminal r = true -> snapshot r' = snapshot r.
Proof.
  intros Hev Ht. destruct (ev_frozen _ _ Hev Ht) as [Hs Hres]. unfold snapshot.
  by rewrite (ev_request_id _ _ Hev), (ev_model_id _ _ Hev), Hs, Hres.
Qed.

Lemma run_ops_notes os r n :
  n ∈ (run_ops os r).2 -> is_terminal_state (snap_state n.2) = true ->
  n.2 = snapshot (run_ops os r).1.
Proof.
  revert r. induction os as [|o os IH]; intros r; [by intros ?%elem_of_nil|].
  rewrite run_ops_cons. simpl. intros [Hn|Hn]%elem_of_app Ht; [|by apply IH].
  apply apply_op_notes in Hn. rewrite Hn in *. symmetry.
  apply evolves_snapshot; [apply run_ops_evolves|done].
Qed.

Lemma run_ops_terminal_observers os r :
  (is_terminal r = true -> observers_ r = []) ->
  is_terminal (run_ops os r).1 = true -> observers_ (run_ops os r).1 = [].
Proof.
  revert r. induction os as [|o os IH]; intros r Hr; [done|].
  rewrite run_ops_cons. simpl. apply IH. clear IH.
  assert (Hfin : forall next res, is_terminal (finish next res r).2.1 = true ->
                 observers_ (finish next res r).2.1 = []).
  { intros next res. rewrite finish_spec. by destruct (is_valid_transition (state_ r) next). }
  destruct o as [d|ob|next|res|e|e| | |now]; simpl; try apply Hfin; try done.
  - destruct ob as [o'|]; simpl; [|done].
    destruct (is_terminal_state (state_ r)) eqn:E; simpl; [done|].
    unfold is_terminal. simpl. congruence.
  - rewrite transition_to_spec. destruct (is_valid_transition (state_ r) next); simpl; [|done].
    unfold is_terminal. destruct (is_terminal_state next) eqn:E; simpl; [done|congruence].
  - unfold try_timeout_if_expired. destruct (expired_and_live now r); [apply Hfin|done].
Qed.

(** C33: Observers hear of the end exactly once. For any sequence of operations
    on a new request that ends terminal, every registration of an observer,
    early or after the end, results in exactly one terminal notification, and
    all of them carry the final state and result. While the request is live
    none has been sent. *)
Theorem observers_notified_once id model prompt tokens os o :
  let r := (run_ops os (new id model prompt tokens)).1 in
  let sent := (run_ops os (new id model prompt tokens)).2 in
  (terminal_notes o sent + count_obs o (observers_ r) = registrations o os)%nat /\
  (is_terminal r = true -> terminal_notes o sent = registrations o os) /\
  (forall n, n ∈ sent -> is_terminal_state (snap_state n.2) = true -> n.2 = snapshot r).
Proof.
  intros r sent.
  assert (Hc := run_ops_count os o (new id model prompt tokens)).
  fold sent in Hc. fold r in Hc. simpl in Hc. change (count_obs o []) with 0%nat in Hc.
  repeat split.
  - lia.
  - intros Ht. unfold r in *. rewrite (run_ops_terminal_observers os) in Hc by done.
    change (count_obs o []) with 0%nat in Hc. lia.
  - intros n. apply run_ops_notes.
Qed.

Lemma observers_notified_once_witness :
  let os := [OpAddObserver (Some 7%nat); OpTransition Queued; OpCancel;
             OpAddObserver (Some 8%nat)] in
  terminal_notes 7%nat (run_ops os (new "r" "m" "p" 1)).2 = 1%nat /\
  terminal_notes 8%nat (run_ops os (new "r" "m" "p" 1)).2 = 1%nat.
Proof.
  intros os. split.
  - exact (proj1 (proj2 (observers_notified_once "r" "m" "p" 1 os 7%nat)) eq_refl).
  - exact (proj1 (proj2 (observers_notified_once "r" "m" "p" 1 os 8%nat)) eq_refl).
Defined.
