(* ===== verification/World.v ===== *)
(** * Threads, time and shared requests

    The components of the runtime run on several threads that share requests
    through [std::shared_ptr], read [steady_clock::now()], and may be
    interrupted between any two critical sections. This file is the small
    effect monad in which those components are written down:

    - a [World] holds the heap of live requests, the clock, the notifications
      delivered to observers, the state [X] shared with the other threads, and
      the schedule of what the other threads will do;
    - every lock-protected access first lets the other threads run one batch
      of the schedule ([interfere]), so a theorem about every schedule is a
      theorem about every interleaving of critical sections;
    - waiting on a condition variable consumes the schedule until the
      condition holds; a thread whose schedule is exhausted is [Blocked];
    - C++ exceptions are the [Throw] outcome.

    [world_le] is the guarantee every operation gives and every batch of
    interference respects: requests only evolve, the clock does not run
    backwards, notifications are never taken back. [Mono] is the class of
    computations that give it, and [triple] the Hoare triples built on it. *)

From S2P Require Import Prelude Status Requests.
Import InferenceRequest.

Definition loc : Set := positive.
(** [RequestPtr]: a shared pointer, null or to a request of the heap. *)
Notation RequestPtr := (option loc).

Inductive exn := StdException (what : string) | UnknownException.

Inductive outcome (A : Type) :=
  | Ret (a : A)
  | Throw (e : exn)
  | Blocked.
Arguments Ret {A} _.
Arguments Throw {A} _.
Arguments Blocked {A}.

(** What other threads may do to the shared state. *)
Class Shared (X : Type) := {
  act : Type;
  act_step : act -> X -> X
}.

Section world.
Context {X : Type} `{SX : !Shared X}.

Inductive env_act :=
  | EnvRequest (l : loc) (o : op)
  | EnvTick (d : N)
  | EnvShared (a : act).

Record World := mkWorld {
  heap : gmap loc t;
  clock : time_point;
  log : list (loc * notification);
  shared : X;
  env : list (list env_act)
}.

Definition set_heap (h : gmap loc t) (w : World) : World :=
  mkWorld h (clock w) (log w) (shared w) (env w).
Definition set_log (g : list (loc * notification)) (w : World) : World :=
  mkWorld (heap w) (clock w) g (shared w) (env w).
Definition set_shared (x : X) (w : World) : World :=
  mkWorld (heap w) (clock w) (log w) x (env w).
Definition set_env (bs : list (list env_act)) (w : World) : World :=
  mkWorld (heap w) (clock w) (log w) (shared w) bs.

Definition step_env (a : env_act) (w : World) : World :=
  match a with
  | EnvRequest l o =>
      match heap w !! l with
      | Some r =>
          let '(r', ns) := apply_op o r in
          set_log (log w ++ map (pair l) ns) (set_heap (<[l := r']> (heap w)) w)
      | None => w
      end
  | EnvTick d => mkWorld (heap w) (clock w + Z.of_N d) (log w) (shared w) (env w)
  | EnvShared a => set_shared (act_step a (shared w)) w
  end.

Definition run_batch (b : list env_act) (w : World) : World :=
  fold_left (fun w a => step_env a w) b w.

(** ** Computations *)

Definition M (A : Type) : Type := World -> outcome A * World.

#[global] Instance M_ret : MRet M := fun A a w => (Ret a, w).
#[global] Instance M_bind : MBind M := fun A B k m w =>
  match m w with
  | (Ret a, w) => k a w
  | (Throw e, w) => (Throw e, w)
  | (Blocked, w) => (Blocked, w)
  end.

Definition throw {A} (e : exn) : M A := fun w => (Throw e, w).

(** [try { m } catch (e) { h(e) }] *)
Definition try_catch {A} (m : M A) (h : exn -> M A) : M A := fun w =>
  match m w with
  | (Throw e, w) => h e w
  | out => out
  end.

(** The other threads run the next batch of the schedule. *)
Definition interfere (w : World) : World :=
  match env w with
  | [] => w
  | b :: bs => run_batch b (set_env bs w)
  end.

(** [std::chrono::steady_clock::now()] *)
Definition now : M time_point :=
  fun w => let w := interfere w in (Ret (clock w), w).

(** A critical section on the shared state. *)
Definition atomically {A} (f : X -> A * X) : M A :=
  fun w =>
    let w := interfere w in
    let '(a, x) := f (shared w) in (Ret a, set_shared x w).

Definition reading {A} (f : X -> A) : M A := atomically (fun x => (f x, x)).
Definition updating (f : X -> X) : M unit := atomically (fun x => (tt, f x)).

(** A critical section on a request. A pointer that is not in the heap
    cannot arise from a [shared_ptr]; it is reported as an exception. *)
Definition on_request {A} (f : t -> A * (t * list notification)) (l : loc)
  : M (A * list notification) :=
  fun w =>
    let w := interfere w in
    match heap w !! l with
    | None => (Throw (StdException "dangling request"), w)
    | Some r =>
        let '(a, (r', ns)) := f r in
        (Ret (a, ns), set_heap (<[l := r']> (heap w)) w)
    end.

(** Observers run after the lock is released: other threads may get in
    between the state change and the delivery. *)
Definition deliver (l : loc) (ns : list notification) : M unit :=
  fun w =>
    let w := interfere w in (Ret tt, set_log (log w ++ map (pair l) ns) w).

Definition mutate {A} (f : t -> A * (t * list notification)) (l : loc) : M A :=
  out ← on_request f l;
  _ ← deliver l out.2;
  mret out.1.

Definition inspect {A} (f : t -> A) (l : loc) : M A :=
  out ← on_request (fun r => (f r, (r, []))) l; mret out.1.

(** ** The request operations as the components call them *)

Definition req_state : loc -> M RequestState := inspect state_.
Definition req_is_terminal : loc -> M bool := inspect is_terminal.
Definition req_model_id : loc -> M string := inspect model_id_.
Definition req_deadline : loc -> M (option time_point) := inspect deadline_.
Definition req_request_id : loc -> M string := inspect request_id_.
Definition req_prompt : loc -> M string := inspect prompt_.
Definition req_max_output_tokens : loc -> M Z := inspect max_output_tokens_.
Definition req_result : loc -> M (option InferenceResult) := inspect result_.
Definition req_snapshot : loc -> M RequestSnapshot := inspect snapshot.
Definition req_transition_to (next : RequestState) : loc -> M Status :=
  mutate (transition_to next).
Definition req_try_complete (res : InferenceResult) : loc -> M bool :=
  mutate (try_complete res).
Definition req_try_fail (e : Status) : loc -> M bool := mutate (try_fail e).
Definition req_try_reject (e : Status) : loc -> M bool := mutate (try_reject e).
Definition req_try_cancel : loc -> M bool := mutate try_cancel.
Definition req_try_timeout : loc -> M bool := mutate try_timeout.

(** Two critical sections: the request may change in between. *)
Definition req_try_timeout_if_expired (at_ : time_point) (l : loc) : M bool :=
  expired ← inspect (expired_and_live at_) l;
  if (expired : bool) then req_try_timeout l else mret false.

(** [is_dead_request], the same helper in the worker and in both
    schedulers. *)
Definition is_dead_request (p : RequestPtr) : M bool :=
  match p with
  | None => mret true
  | Some l =>
      terminal ← req_is_terminal l;
      if (terminal : bool) then mret true else
      tp ← now;
      _ ← req_try_timeout_if_expired tp l;
      req_is_terminal l
  end.

(** ** Loops *)

Fixpoint for_each {A} (f : A -> M unit) (l : list A) : M unit :=
  match l with
  | [] => mret tt
  | x :: l => _ ← f x; for_each f l
  end.

(** A loop whose body may return from the enclosing function. *)
Fixpoint for_until {A R} (f : A -> M (option R)) (l : list A) : M (option R) :=
  match l with
  | [] => mret None
  | x :: l =>
      out ← f x;
      match out with Some r => mret (Some r) | None => for_until f l end
  end.

(** The elements for which the body answers [true], in order. *)
Fixpoint filterM {A} (f : A -> M bool) (l : list A) : M (list A) :=
  match l with
  | [] => mret []
  | x :: l =>
      keep ← f x;
      rest ← filterM f l;
      mret (if (keep : bool) then x :: rest else rest)
  end.

(** ** Waiting on a condition variable *)

Fixpoint wait_env (cond : X -> bool) (bs : list (list env_act)) (w : World)
  : bool * World :=
  if cond (shared w) then (true, set_env bs w)
  else match bs with
       | [] => (false, set_env [] w)
       | b :: bs => wait_env cond bs (run_batch b w)
       end.

(** [cv.wait(lock, cond)] followed by the rest of the critical section:
    the lock is not released in between. *)
Definition wait_then {A} (cond : X -> bool) (f : X -> A * X) : M A :=
  fun w =>
    let w := interfere w in
    match wait_env cond (env w) w with
    | (true, w) => let '(a, x) := f (shared w) in (Ret a, set_shared x w)
    | (false, w) => (Blocked, w)
    end.

Inductive wait_status := Ready | Timeout | Asleep.

Fixpoint timed_wait_env (cond : X -> bool) (deadline : time_point)
    (bs : list (list env_act)) (w : World) : wait_status * World :=
  if cond (shared w) then (Ready, set_env bs w)
  else match bs with
       | [] => (if deadline <=? clock w then Timeout else Asleep, set_env [] w)
       | b :: bs =>
           let w := run_batch b w in
           if deadline <=? clock w then (Timeout, set_env bs w)
           else timed_wait_env cond deadline bs w
       end.

(** [while (!cond) if (cv.wait_until(lock, deadline) == timeout) ...]
    followed by the rest of the critical section, which is told whether the
    loop ended because the condition holds ([true]) or on a timeout. *)
Definition timed_wait_then {A} (cond : X -> bool) (deadline : time_point)
    (f : bool -> X -> A * X) : M A :=
  fun w =>
    let w := interfere w in
    match timed_wait_env cond deadline (env w) w with
    | (Ready, w) => let '(a, x) := f true (shared w) in (Ret a, set_shared x w)
    | (Timeout, w) => let '(a, x) := f false (shared w) in (Ret a, set_shared x w)
    | (Asleep, w) => (Blocked, w)
    end.

(** ** Waiting for a request

    [wait_for_terminal] sleeps on the request's condition variable. With a
    timeout the predicate is evaluated once more when it has passed. *)

Definition ended (l : loc) (w : World) : bool :=
  match heap w !! l with Some r => is_terminal r | None => false end.

Definition passed (deadline : option time_point) (w : World) : bool :=
  match deadline with Some d => d <=? clock w | None => false end.

Fixpoint await_env (l : loc) (deadline : option time_point) (bs : list (list env_act)) (w : World)
  : wait_status * World :=
  if ended l w then (Ready, set_env bs w)
  else match bs with
       | [] => (if passed deadline w then Timeout else Asleep, set_env [] w)
       | b :: bs =>
           let w := run_batch b w in
           if passed deadline w then (if ended l w then Ready else Timeout, set_env bs w)
           else await_env l deadline bs w
       end.

(** [timeout] in milliseconds; the clock counts nanoseconds. *)
Definition req_wait_for_terminal (timeout : option Z) (l : loc) : M bool :=
  fun w =>
    let w := interfere w in
    match heap w !! l with
    | None => (Throw (StdException "dangling request"), w)
    | Some _ =>
        let deadline := (fun ms => clock w + 1000000 * ms) <$> timeout in
        match await_env l deadline (env w) w with
        | (Ready, w) => (Ret true, w)
        | (Timeout, w) => (Ret false, w)
        | (Asleep, w) => (Blocked, w)
        end
    end.
End world.

Arguments World X {SX} : rename.
Arguments env_act X {SX} : rename.
Arguments M X {SX} A : rename.

(** ** The guarantee *)

Definition heap_le (h h' : gmap loc t) : Prop :=
  forall l r, h !! l = Some r -> exists r', h' !! l = Some r' /\ evolves r r'.

#[export] Instance heap_le_preorder : PreOrder heap_le.
Proof.
  split.
  - intros h l r Hr. by exists r.
  - intros h1 h2 h3 H12 H23 l r Hr.
    destruct (H12 l r Hr) as (r2 & Hr2 & E2). destruct (H23 l r2 Hr2) as (r3 & Hr3 & E3).
    exists r3. split; [done|]. by etrans.
Qed.

Lemma heap_le_insert h l r r' :
  h !! l = Some r -> evolves r r' -> heap_le h (<[l := r']> h).
Proof.
  intros Hl Hev k s Hk. destruct (decide (l = k)) as [->|Hne].
  - rewrite lookup_insert_eq. simplify_eq. eauto.
  - rewrite lookup_insert_ne by done. by exists s.
Qed.

Section guarantee.
Context {X : Type} `{SX : !Shared X}.
Implicit Types w : World X.

Record world_le (w w' : World X) : Prop := {
  wl_heap : heap_le (heap w) (heap w');
  wl_clock : clock w <= clock w';
  wl_log : log w `prefix_of` log w'
}.

#[global] Instance world_le_preorder : PreOrder world_le.
Proof.
  split.
  - intros w. split; [done|lia|done].
  - intros w1 w2 w3 [H1 H2 H3] [H4 H5 H6]. split; [by etrans|lia|by etrans].
Qed.

Lemma step_env_le a w : world_le w (step_env a w).
Proof.
  destruct a as [l o|d|a]; simpl.
  - destruct (heap w !! l) as [r|] eqn:Hl; [|done].
    pose proof (apply_op_evolves o r) as Hev. destruct (apply_op o r) as [r' ns].
    split; simpl; [by eapply heap_le_insert|lia|by apply prefix_app_r].
  - split; simpl; [done|lia|done].
  - split; simpl; [done|lia|done].
Qed.

Lemma run_batch_le b w : world_le w (run_batch b w).
Proof.
  unfold run_batch. revert w. induction b as [|a b IH]; intros w; simpl; [done|].
  etrans; [apply step_env_le|apply IH].
Qed.

Lemma set_env_le bs w : world_le w (set_env bs w).
Proof. by split; simpl. Qed.

Lemma interfere_le w : world_le w (interfere w).
Proof.
  unfold interfere. destruct (env w) as [|b bs]; [done|].
  etrans; [apply set_env_le|apply run_batch_le].
Qed.

Lemma wait_env_le cond bs w : world_le w (wait_env cond bs w).2.
Proof.
  revert w. induction bs as [|b bs IH]; intros w; simpl;
    destruct (cond (shared w)); simpl; try apply set_env_le.
  etrans; [apply run_batch_le|apply IH].
Qed.

Lemma timed_wait_env_le cond dl bs w : world_le w (timed_wait_env cond dl bs w).2.
Proof.
  revert w. induction bs as [|b bs IH]; intros w; simpl;
    destruct (cond (shared w)); simpl; try apply set_env_le.
  destruct (dl <=? clock (run_batch b w)); simpl.
  - etrans; [apply run_batch_le|apply set_env_le].
  - etrans; [apply run_batch_le|apply IH].
Qed.

(** A computation that only lets requests evolve. *)
Class Mono {A} (m : M X A) : Prop := mono w : world_le w (m w).2.

(** A request operation that respects [evolves]. *)
Class Evolving {A} (f : t -> A * (t * list notification)) : Prop :=
  evolving r : evolves r (f r).2.1.

#[global] Instance mono_ret {A} (a : A) : Mono (mret a).
Proof. by intros w. Qed.

#[global] Instance mono_bind {A B} (m : M X A) (k : A -> M X B) :
  Mono m -> (forall a, Mono (k a)) -> Mono (m ≫= k).
Proof.
  intros Hm Hk w. unfold mbind, M_bind. specialize (Hm w).
  destruct (m w) as [[a|e|] w']; simpl in *; try done. etrans; [done|apply Hk].
Qed.

#[global] Instance mono_throw {A} e : Mono (throw (A := A) e).
Proof. by intros w. Qed.

#[global] Instance mono_try_catch {A} (m : M X A) h :
  Mono m -> (forall e, Mono (h e)) -> Mono (try_catch m h).
Proof.
  intros Hm Hh w. unfold try_catch. specialize (Hm w).
  destruct (m w) as [[a|e|] w']; simpl in *; try done. etrans; [done|apply Hh].
Qed.

#[global] Instance mono_now : Mono now.
Proof. intros w. apply interfere_le. Qed.

#[global] Instance mono_atomically {A} (f : X -> A * X) : Mono (atomically f).
Proof.
  intros w. unfold atomically. etrans; [apply interfere_le|].
  destruct (f (shared (interfere w))) as [a x]. by split; simpl.
Qed.

#[global] Instance mono_reading {A} (f : X -> A) : Mono (reading f).
Proof. apply mono_atomically. Qed.

#[global] Instance mono_updating (f : X -> X) : Mono (updating f).
Proof. apply mono_atomically. Qed.

#[global] Instance mono_on_request {A} (f : t -> A * (t * list notification)) l :
  Evolving f -> Mono (on_request f l).
Proof.
  intros Hf w. unfold on_request. etrans; [apply interfere_le|].
  destruct (heap (interfere w) !! l) as [r|] eqn:Hl; [|done].
  specialize (Hf r). destruct (f r) as [a [r' ns]]. simpl in *.
  split; simpl; [by eapply heap_le_insert|lia|done].
Qed.

#[global] Instance mono_deliver l ns : Mono (deliver l ns).
Proof.
  intros w. unfold deliver. etrans; [apply interfere_le|].
  split; simpl; [done|lia|by apply prefix_app_r].
Qed.

#[global] Instance mono_mutate {A} (f : t -> A * (t * list notification)) l :
  Evolving f -> Mono (mutate f l).
Proof. intros. unfold mutate. apply _. Qed.

#[global] Instance mono_inspect {A} (f : t -> A) l : Mono (inspect f l).
Proof.
  unfold inspect. apply mono_bind; [|apply _]. apply mono_on_request. by intros r.
Qed.

#[global] Instance evolving_transition next : Evolving (transition_to next).
Proof. intros r. apply transition_evolves. Qed.
#[global] Instance evolving_complete res : Evolving (try_complete res).
Proof. intros r. apply finish_evolves. Qed.
#[global] Instance evolving_fail e : Evolving (try_fail e).
Proof. intros r. apply finish_evolves. Qed.
#[global] Instance evolving_reject e : Evolving (try_reject e).
Proof. intros r. apply finish_evolves. Qed.
#[global] Instance evolving_cancel : Evolving try_cancel.
Proof. intros r. apply finish_evolves. Qed.
#[global] Instance evolving_timeout : Evolving try_timeout.
Proof. intros r. apply finish_evolves. Qed.

#[global] Instance mono_is_dead p : Mono (is_dead_request p).
Proof.
  destruct p as [l|]; simpl; [|apply _]. unfold req_is_terminal, req_try_timeout_if_expired.
  apply mono_bind; [apply _|]. intros []; [apply _|].
  apply mono_bind; [apply _|]. intros tp.
  apply mono_bind; [|intros; apply _].
  apply mono_bind; [apply _|]. intros []; apply _.
Qed.

#[global] Instance mono_for_each {A} (f : A -> M X unit) l :
  (forall a, Mono (f a)) -> Mono (for_each f l).
Proof. intros Hf. induction l; simpl; apply _. Qed.

#[global] Instance mono_for_until {A R} (f : A -> M X (option R)) l :
  (forall a, Mono (f a)) -> Mono (for_until f l).
Proof.
  intros Hf. induction l; simpl; [apply _|].
  apply mono_bind; [apply _|]. intros []; apply _.
Qed.

#[global] Instance mono_filterM {A} (f : A -> M X bool) l :
  (forall a, Mono (f a)) -> Mono (filterM f l).
Proof. intros Hf. induction l; simpl; apply _. Qed.

Lemma set_shared_le x w : world_le w (set_shared x w).
Proof. by split; simpl. Qed.

#[global] Instance mono_wait_then {A} cond (f : X -> A * X) : Mono (wait_then cond f).
Proof.
  intros w. unfold wait_then. etrans; [apply interfere_le|].
  set (w1 := interfere w). pose proof (wait_env_le cond (env w1) w1) as H.
  destruct (wait_env cond (env w1) w1) as [[] w2]; simpl in *; [|done].
  etrans; [done|]. destruct (f (shared w2)). apply set_shared_le.
Qed.

#[global] Instance mono_timed_wait_then {A} cond dl (f : bool -> X -> A * X) :
  Mono (timed_wait_then cond dl f).
Proof.
  intros w. unfold timed_wait_then. etrans; [apply interfere_le|].
  set (w1 := interfere w). pose proof (timed_wait_env_le cond dl (env w1) w1) as H.
  destruct (timed_wait_env cond dl (env w1) w1) as [[] w2]; simpl in *; [..|done].
  - etrans; [done|]. destruct (f true (shared w2)). apply set_shared_le.
  - etrans; [done|]. destruct (f false (shared w2)). apply set_shared_le.
Qed.

(** What is known when a wait ends. *)
Lemma wait_env_true cond bs w w' : wait_env cond bs w = (true, w') -> cond (shared w') = true.
Proof.
  revert w. induction bs as [|b bs IH]; intros w; simpl;
    destruct (cond (shared w)) eqn:E; try done; [by intros [= <-]..|]. apply IH.
Qed.

Lemma wait_env_false cond bs w w' :
  wait_env cond bs w = (false, w') -> env w' = [] /\ cond (shared w') = false.
Proof.
  revert w. induction bs as [|b bs IH]; intros w; simpl;
    destruct (cond (shared w)) eqn:E; try done; [by intros [= <-]|]. apply IH.
Qed.

Lemma timed_wait_env_ready cond dl bs w w' :
  timed_wait_env cond dl bs w = (Ready, w') -> cond (shared w') = true.
Proof.
  revert w. induction bs as [|b bs IH]; intros w; simpl;
    destruct (cond (shared w)) eqn:E; try (by intros [= <-]).
  - by destruct (dl <=? clock w).
  - destruct (dl <=? clock (run_batch b w)); [done|]. apply IH.
Qed.

Lemma timed_wait_env_timeout cond dl bs w w' :
  timed_wait_env cond dl bs w = (Timeout, w') -> dl <= clock w'.
Proof.
  revert w. induction bs as [|b bs IH]; intros w; simpl;
    destruct (cond (shared w)) eqn:E; try done.
  - destruct (Z.leb_spec dl (clock w)); [|done]. by intros [= <-].
  - destruct (Z.leb_spec dl (clock (run_batch b w))); [by intros [= <-]|]. apply IH.
Qed.

Lemma wait_env_now cond bs w : cond (shared w) = true -> wait_env cond bs w = (true, set_env bs w).
Proof. intros H. destruct bs; simpl; by rewrite H. Qed.

Lemma timed_wait_env_now cond dl bs w :
  cond (shared w) = true -> timed_wait_env cond dl bs w = (Ready, set_env bs w).
Proof. intros H. destruct bs; simpl; by rewrite H. Qed.

(** A property of the shared state that every action keeps survives a batch. *)
Definition shared_stable (P : X -> Prop) : Prop :=
  forall a x, P x -> P (act_step a x).

Lemma run_batch_shared P b w :
  shared_stable P -> P (shared w) -> P (shared (run_batch b w)).
Proof.
  intros HP. unfold run_batch. revert w. induction b as [|a b IH]; intros w Hw; simpl; [done|].
  apply IH. destruct a as [l o|d|a]; simpl; [|done|by apply HP].
  destruct (heap w !! l) as [r|]; [|done]. by destruct (apply_op o r).
Qed.

Lemma interfere_shared P w : shared_stable P -> P (shared w) -> P (shared (interfere w)).
Proof.
  intros HP Hw. unfold interfere. destruct (env w) as [|b bs]; [done|].
  by apply (run_batch_shared P).
Qed.

Lemma wait_env_shared P cond bs w :
  shared_stable P -> P (shared w) -> P (shared (wait_env cond bs w).2).
Proof.
  intros HP. revert w. induction bs as [|b bs IH]; intros w Hw; simpl;
    destruct (cond (shared w)); simpl; try done. by apply IH, (run_batch_shared P).
Qed.

Lemma timed_wait_env_shared P cond dl bs w :
  shared_stable P -> P (shared w) -> P (shared (timed_wait_env cond dl bs w).2).
Proof.
  intros HP. revert w. induction bs as [|b bs IH]; intros w Hw; simpl;
    destruct (cond (shared w)); simpl; try done.
  assert (P (shared (run_batch b w))) by (by apply (run_batch_shared P)).
  destruct (dl <=? clock (run_batch b w)); simpl; [done|]. by apply IH.
Qed.
End guarantee.

(** Instance search goes through the branches of a computation. *)
#[export] Hint Extern 4 (Mono (match ?x with _ => _ end)) => destruct x : typeclass_instances.

(** ** Hoare triples

    [triple P m Q E]: from a world satisfying [P], whatever the schedule, [m]
    returns with [Q], throws with [E], or stays blocked. *)

Section triples.
Context {X : Type} `{SX : !Shared X}.
Implicit Types (w : World X) (P R : World X -> Prop).

Definition triple {A} P (m : M X A) (Q : A -> World X -> Prop) (E : exn -> World X -> Prop) :=
  forall w, P w ->
    match m w with
    | (Ret a, w') => Q a w'
    | (Throw e, w') => E e w'
    | (Blocked, _) => True
    end.

Definition no_throw : exn -> World X -> Prop := fun _ _ => False.

(** Assertions that survive interference. *)
Class Upward P : Prop := upward w w' : world_le w w' -> P w -> P w'.

(** [l] points to a request satisfying [S]. *)
Definition req_at (S : t -> Prop) (l : loc) (w : World X) : Prop :=
  exists r, heap w !! l = Some r /\ S r.

Class Closed (S : t -> Prop) : Prop := closed r r' : evolves r r' -> S r -> S r'.

#[global] Instance req_at_upward S l : Closed S -> Upward (req_at S l).
Proof.
  intros HS w w' Hle (r & Hr & Hs). destruct (wl_heap _ _ Hle l r Hr) as (r' & Hr' & Hev).
  exists r'. split; [done|]. by eapply HS.
Qed.

#[global] Instance upward_and P R : Upward P -> Upward R -> Upward (fun w => P w /\ R w).
Proof. intros HP HR w w' Hle [??]. split; [by eapply HP|by eapply HR]. Qed.

#[global] Instance upward_forall {I} (P : I -> World X -> Prop) :
  (forall i, Upward (P i)) -> Upward (fun w => forall i, P i w).
Proof. intros HP w w' Hle H i. by eapply HP. Qed.

#[global] Instance upward_impl (C : Prop) P : Upward P -> Upward (fun w => C -> P w).
Proof. intros HP w w' Hle H c. by eapply HP; [|apply H]. Qed.

#[global] Instance upward_pure (C : Prop) : Upward (fun _ => C).
Proof. by intros ????. Qed.

Lemma triple_ret {A} P (a : A) (Q : A -> World X -> Prop) E :
  (forall w, P w -> Q a w) -> triple P (mret a) Q E.
Proof. intros H w HP. by apply H. Qed.

Lemma triple_bind {A B} P (m : M X A) Q' (k : A -> M X B) Q E :
  triple P m Q' E -> (forall a, triple (Q' a) (k a) Q E) -> triple P (m ≫= k) Q E.
Proof.
  intros Hm Hk w HP. unfold mbind, M_bind. specialize (Hm w HP).
  destruct (m w) as [[a|e|] w']; try done. by apply Hk.
Qed.

Lemma bind_ret_inv {A B} (m : M X A) (k : A -> M X B) b w w' :
  (m ≫= k) w = (Ret b, w') -> exists a w1, m w = (Ret a, w1) /\ k a w1 = (Ret b, w').
Proof. unfold mbind, M_bind. destruct (m w) as [[a|e|] w1]; [by exists a, w1|done|done]. Qed.

Lemma bind_run {A B} (m : M X A) (k : A -> M X B) a w w' :
  m w = (Ret a, w') -> (m ≫= k) w = k a w'.
Proof. unfold mbind, M_bind. by intros ->. Qed.

Lemma triple_conseq {A} P P' (m : M X A) (Q Q' : A -> World X -> Prop) (E E' : exn -> World X -> Prop) :
  triple P' m Q' E' -> (forall w, P w -> P' w) ->
  (forall a w, Q' a w -> Q a w) -> (forall e w, E' e w -> E e w) -> triple P m Q E.
Proof.
  intros Hm HP HQ HE w Hw. specialize (Hm w (HP w Hw)).
  destruct (m w) as [[a|e|] w']; auto.
Qed.

Lemma triple_frame {A} P R (m : M X A) Q E :
  Upward R -> Mono m -> triple P m Q E ->
  triple (fun w => P w /\ R w) m (fun a w => Q a w /\ R w) (fun e w => E e w /\ R w).
Proof.
  intros HR Hmono Hm w [HP Hw]. specialize (Hm w HP). specialize (Hmono w).
  destruct (m w) as [[a|e|] w']; simpl in *; [split; eauto|split; eauto|done].
Qed.

(** The same for a computation that does not throw. *)
Lemma triple_frame_safe {A} P R (m : M X A) Q E :
  Upward R -> Mono m -> triple P m Q no_throw ->
  triple (fun w => P w /\ R w) m (fun a w => Q a w /\ R w) E.
Proof.
  intros HR Hmono Hm. eapply triple_conseq; [by apply (triple_frame P R m Q no_throw)|done..|].
  by intros e w [[] _].
Qed.

Lemma triple_framed {A} P (m : M X A) Q (Hm : triple P m Q no_throw) R
    {HR : Upward R} {Hmono : Mono m} E :
  triple (fun w => P w /\ R w) m (fun a w => Q a w /\ R w) E.
Proof. by apply triple_frame_safe. Qed.

Lemma triple_try_catch {A} P (m : M X A) h Q E E' :
  triple P m Q E' -> (forall e, triple (E' e) (h e) Q E) -> triple P (try_catch m h) Q E.
Proof.
  intros Hm Hh w HP. unfold try_catch. specialize (Hm w HP).
  destruct (m w) as [[a|e|] w']; try done. by apply Hh.
Qed.

(** A computation that is [Mono] keeps every upward assertion. *)
Lemma triple_mono {A} P (m : M X A) :
  Upward P -> Mono m -> triple P m (fun _ => P) (fun _ => P).
Proof.
  intros HP Hm w Hw. specialize (Hm w).
  destruct (m w) as [[a|e|] w']; simpl in *; eauto.
Qed.

Lemma triple_atomically {A} P (f : X -> A * X) Q E :
  (forall w, P w -> P (interfere w)) ->
  (forall w, P w -> Q (f (shared w)).1 (set_shared (f (shared w)).2 w)) ->
  triple P (atomically f) Q E.
Proof.
  intros Hi H w HP. unfold atomically. pose proof (H _ (Hi w HP)) as HQ.
  by destruct (f (shared (interfere w))).
Qed.

Lemma triple_on_request {A} S (f : t -> A * (t * list notification)) Q l E :
  Closed S ->
  (forall r, S r -> Q (f r).1 (f r).2.1) ->
  triple (req_at S l) (on_request f l) (fun out => req_at (Q out.1) l) E.
Proof.
  intros HS Hf w Hw. unfold on_request.
  apply (req_at_upward S l HS _ _ (interfere_le w)) in Hw.
  destruct Hw as (r & -> & Hr). specialize (Hf r Hr). destruct (f r) as [a [r' ns]].
  exists r'. simpl. by rewrite lookup_insert_eq.
Qed.

Lemma triple_deliver P l ns E : Upward P -> triple P (deliver l ns) (fun _ => P) E.
Proof. intros HP w Hw. exact (HP _ _ (mono_deliver l ns w) Hw). Qed.

Lemma triple_now P E : Upward P -> triple P now (fun _ => P) E.
Proof. intros HP w Hw. exact (HP _ _ (interfere_le w) Hw). Qed.

Lemma triple_pre {A} P P' (m : M X A) Q E :
  (forall w, P w -> P' w) -> triple P' m Q E -> triple P m Q E.
Proof. intros HP Hm. by eapply triple_conseq; eauto. Qed.

(** A pure fact in the precondition. *)
Lemma triple_pull {A} (C : Prop) P (m : M X A) Q E :
  (C -> triple P m Q E) -> triple (fun w => C /\ P w) m Q E.
Proof. intros H w [HC HP]. by apply H. Qed.

Lemma triple_pull_exists {A I} (P : I -> World X -> Prop) (m : M X A) Q E :
  (forall i, triple (P i) m Q E) -> triple (fun w => exists i, P i w) m Q E.
Proof. intros H w [i HP]. by apply (H i). Qed.

Lemma triple_post {A} P (m : M X A) (Q Q' : A -> World X -> Prop) E :
  (forall a w, Q' a w -> Q a w) -> triple P m Q' E -> triple P m Q E.
Proof. intros HQ Hm. by eapply triple_conseq; eauto. Qed.

Lemma req_at_mono (S T : t -> Prop) l w : (forall r, S r -> T r) -> req_at S l w -> req_at T l w.
Proof. intros H (r & Hr & Hs). exists r. auto. Qed.

Lemma triple_mutate {A} S (f : t -> A * (t * list notification)) Q l E :
  Closed S -> (forall a, Closed (Q a)) ->
  (forall r, S r -> Q (f r).1 (f r).2.1) ->
  triple (req_at S l) (mutate f l) (fun a => req_at (Q a) l) E.
Proof.
  intros HS HQ Hf. eapply triple_bind; [by eapply triple_on_request|].
  intros [a ns]. simpl. eapply triple_bind; [apply triple_deliver; apply _|].
  intros []. by apply triple_ret.
Qed.

Lemma triple_inspect {A} S (f : t -> A) Q l E :
  Closed S -> (forall r, S r -> Q (f r) r) ->
  triple (req_at S l) (inspect f l) (fun a => req_at (Q a) l) E.
Proof.
  intros HS Hf. eapply triple_bind; [by apply (triple_on_request S _ Q)|].
  intros [a ns]. by apply triple_ret.
Qed.

(** Loops keep an invariant of what is already processed. *)
Lemma triple_for_each {A} (f : A -> M X unit) (I : list A -> World X -> Prop) l E :
  (forall done x, x ∈ l -> triple (I done) (f x) (fun _ => I (done ++ [x])) E) ->
  triple (I []) (for_each f l) (fun _ => I l) E.
Proof.
  intros Hf. cut (forall k done, k ⊆ l ->
    triple (I done) (for_each f k) (fun _ => I (done ++ k)) E).
  { intros H. by apply (H l []). }
  induction k as [|x k IH]; intros done Hk; simpl.
  - rewrite app_nil_r. by apply triple_ret.
  - eapply triple_bind; [apply Hf; set_solver|]. intros [].
    replace (done ++ x :: k) with ((done ++ [x]) ++ k) by (by rewrite <- app_assoc).
    apply IH. set_solver.
Qed.
End triples.

(** ** Stable assertions

    An assertion about requests and shared state together is [Stable] when
    the other threads keep it and when changes to requests keep it; it is
    then kept by every [Quiet] computation, one that does not itself write
    the shared state. *)

Section stable.
Context {X : Type} `{SX : !Shared X}.
Implicit Types (w : World X) (P R : World X -> Prop).

Class Stable P : Prop := {
  stable_req w w' :
    world_le w w' -> shared w' = shared w -> env w' = env w -> P w -> P w';
  stable_env w : P w -> P (interfere w)
}.

#[global] Instance upward_stable P : Upward P -> Stable P.
Proof.
  intros HP. split; [by eauto|]. intros w. apply HP, interfere_le.
Qed.

#[global] Instance stable_and P R : Stable P -> Stable R -> Stable (fun w => P w /\ R w).
Proof.
  intros HP HR. split.
  - intros w w' ??? [??]. split; by eapply stable_req.
  - intros w [??]. split; by apply stable_env.
Qed.

Lemma run_batch_env b w : env (run_batch b w) = env w.
Proof.
  unfold run_batch. revert w. induction b as [|a b IH]; intros w; simpl; [done|].
  rewrite IH. destruct a as [l o|d|a]; simpl; [|done..].
  destruct (heap w !! l) as [r|]; [|done]. by destruct (apply_op o r).
Qed.

Lemma run_batch_set_env b bs w : run_batch b (set_env bs w) = set_env bs (run_batch b w).
Proof.
  unfold run_batch. revert w. induction b as [|a b IH]; intros w; simpl; [done|].
  rewrite <- IH. f_equal. destruct a as [l o|d|a]; simpl; [|done..].
  destruct (heap w !! l) as [r|]; [|done]. by destruct (apply_op o r).
Qed.

Lemma set_env_id w : set_env (env w) w = w.
Proof. by destruct w. Qed.

Lemma set_env_set_env bs bs' w : set_env bs (set_env bs' w) = set_env bs w.
Proof. done. Qed.

(** Waiting is a sequence of interferences. *)
Lemma wait_env_kept P cond w :
  (forall w, P w -> P (interfere w)) -> P w -> P (wait_env cond (env w) w).2.
Proof.
  intros HP. cut (forall bs w, P (set_env bs w) -> P (wait_env cond bs w).2).
  { intros H Hw. apply H. by rewrite set_env_id. }
  clear w. induction bs as [|b bs IH]; intros w Hw; simpl; destruct (cond (shared w)); try done.
  apply IH. rewrite <- run_batch_set_env. by apply HP in Hw.
Qed.

Lemma timed_wait_env_kept P cond dl w :
  (forall w, P w -> P (interfere w)) -> P w -> P (timed_wait_env cond dl (env w) w).2.
Proof.
  intros HP. cut (forall bs w, P (set_env bs w) -> P (timed_wait_env cond dl bs w).2).
  { intros H Hw. apply H. by rewrite set_env_id. }
  clear w. induction bs as [|b bs IH]; intros w Hw; simpl; destruct (cond (shared w)); try done.
  apply HP in Hw. change (P (run_batch b (set_env bs w))) in Hw.
  rewrite run_batch_set_env in Hw. destruct (dl <=? _); [done|]. by apply IH.
Qed.

Class Quiet {A} (m : M X A) : Prop := quiet P w : Stable P -> P w -> P (m w).2.

#[global] Instance quiet_ret {A} (a : A) : Quiet (mret a).
Proof. by intros P w. Qed.

#[global] Instance quiet_bind {A B} (m : M X A) (k : A -> M X B) :
  Quiet m -> (forall a, Quiet (k a)) -> Quiet (m ≫= k).
Proof.
  intros Hm Hk P w HP Hw. unfold mbind, M_bind. specialize (Hm P w HP Hw).
  destruct (m w) as [[a|e|] w']; simpl in *; try done. by apply Hk.
Qed.

#[global] Instance quiet_throw {A} e : Quiet (throw (A := A) e).
Proof. by intros P w. Qed.

#[global] Instance quiet_now : Quiet now.
Proof. intros P w HP. apply stable_env. Qed.

#[global] Instance quiet_reading {A} (f : X -> A) : Quiet (reading f).
Proof. intros P w HP Hw. apply (stable_env w) in Hw. simpl. by destruct (interfere w). Qed.

#[global] Instance quiet_on_request {A} (f : t -> A * (t * list notification)) l :
  Evolving f -> Quiet (on_request f l).
Proof.
  intros Hf P w HP Hw. apply (stable_env w) in Hw. unfold on_request.
  destruct (heap (interfere w) !! l) as [r|] eqn:Hl; [|done].
  specialize (Hf r). destruct (f r) as [a [r' ns]]. simpl in *.
  apply (stable_req (interfere w)); [|done..]. split; simpl; [by eapply heap_le_insert|lia|done].
Qed.

#[global] Instance quiet_deliver l ns : Quiet (deliver l ns).
Proof.
  intros P w HP Hw. apply (stable_env w) in Hw. simpl.
  apply (stable_req (interfere w)); [|done..]. split; simpl; [done|lia|by apply prefix_app_r].
Qed.

#[global] Instance quiet_mutate {A} (f : t -> A * (t * list notification)) l :
  Evolving f -> Quiet (mutate f l).
Proof. intros. unfold mutate. apply _. Qed.

#[global] Instance quiet_inspect {A} (f : t -> A) l : Quiet (inspect f l).
Proof.
  unfold inspect. apply quiet_bind; [|apply _]. apply quiet_on_request. by intros r.
Qed.

#[global] Instance quiet_try_catch {A} (m : M X A) h :
  Quiet m -> (forall e, Quiet (h e)) -> Quiet (try_catch m h).
Proof.
  intros Hm Hh P w HP Hw. unfold try_catch. specialize (Hm P w HP Hw).
  destruct (m w) as [[a|e|] w']; simpl in *; try done. by apply Hh.
Qed.

#[global] Instance quiet_for_each {A} (f : A -> M X unit) l :
  (forall a, Quiet (f a)) -> Quiet (for_each f l).
Proof. intros Hf. induction l; simpl; apply _. Qed.

#[global] Instance quiet_filterM {A} (f : A -> M X bool) l :
  (forall a, Quiet (f a)) -> Quiet (filterM f l).
Proof. intros Hf. induction l; simpl; apply _. Qed.

#[global] Instance quiet_is_dead p : Quiet (is_dead_request p).
Proof.
  destruct p as [l|]; simpl; [|apply _]. unfold req_is_terminal, req_try_timeout_if_expired.
  apply quiet_bind; [apply _|]. intros []; [apply _|].
  apply quiet_bind; [apply _|]. intros tp.
  apply quiet_bind; [|intros; apply _].
  apply quiet_bind; [apply _|]. intros []; apply _.
Qed.

Lemma triple_quiet {A} P (m : M X A) : Stable P -> Quiet m -> triple P m (fun _ => P) (fun _ => P).
Proof.
  intros HP Hm w Hw. specialize (Hm P w HP Hw). by destruct (m w) as [[a|e|] w'].
Qed.

Lemma triple_quiet_safe {A} P (m : M X A) :
  Stable P -> Quiet m -> triple (fun _ => True) m (fun _ _ => True) no_throw ->
  triple P m (fun _ => P) no_throw.
Proof.
  intros HP Hm Ht w Hw. specialize (Hm P w HP Hw). specialize (Ht w I).
  by destruct (m w) as [[a|e|] w'].
Qed.

Lemma triple_frame_stable {A} P R (m : M X A) Q E :
  Stable R -> Quiet m -> triple P m Q E ->
  triple (fun w => P w /\ R w) m (fun a w => Q a w /\ R w) (fun e w => E e w /\ R w).
Proof.
  intros HR Hq Hm w [HP Hw]. specialize (Hm w HP). specialize (Hq R w HR Hw).
  by destruct (m w) as [[a|e|] w'].
Qed.

Lemma triple_frame_stable_safe {A} P R (m : M X A) Q E :
  Stable R -> Quiet m -> triple P m Q no_throw ->
  triple (fun w => P w /\ R w) m (fun a w => Q a w /\ R w) E.
Proof.
  intros HR Hq Hm. eapply triple_conseq; [by apply (triple_frame_stable P R m Q no_throw)|done..|].
  by intros e w [[] _].
Qed.

(** A critical section on the shared state. *)
Lemma triple_atomically_stable {A} P (f : X -> A * X) Q E :
  Stable P ->
  (forall w, P w -> Q (f (shared w)).1 (set_shared (f (shared w)).2 w)) ->
  triple P (atomically f) Q E.
Proof. intros HP. apply triple_atomically. intros w. apply stable_env. Qed.

Lemma triple_wait_kept {A} P cond (f : X -> A * X) Q E :
  (forall w, P w -> P (interfere w)) ->
  (forall w, P w -> cond (shared w) = true ->
     Q (f (shared w)).1 (set_shared (f (shared w)).2 w)) ->
  triple P (wait_then cond f) Q E.
Proof.
  intros HP H w Hw. unfold wait_then. apply HP in Hw.
  apply (wait_env_kept P cond) in Hw; [|done]. set (w1 := interfere w) in *.
  destruct (wait_env cond (env w1) w1) as [[] w2] eqn:E1; [|done].
  apply wait_env_true in E1. specialize (H w2 Hw E1). by destruct (f (shared w2)).
Qed.

Lemma triple_wait_then {A} P cond (f : X -> A * X) Q E :
  Stable P ->
  (forall w, P w -> cond (shared w) = true ->
     Q (f (shared w)).1 (set_shared (f (shared w)).2 w)) ->
  triple P (wait_then cond f) Q E.
Proof. intros HP. apply triple_wait_kept. apply stable_env. Qed.

Lemma triple_timed_wait_then {A} P cond dl (f : bool -> X -> A * X) Q E :
  Stable P ->
  (forall b w, P w -> Q (f b (shared w)).1 (set_shared (f b (shared w)).2 w)) ->
  triple P (timed_wait_then cond dl f) Q E.
Proof.
  intros HP H w Hw. unfold timed_wait_then. apply (stable_env w) in Hw.
  apply (timed_wait_env_kept P cond dl) in Hw; [|apply stable_env]. set (w1 := interfere w) in *.
  destruct (timed_wait_env cond dl (env w1) w1) as [[| |] w2] eqn:E1; [..|done].
  - specialize (H true w2 Hw). by destruct (f true (shared w2)).
  - specialize (H false w2 Hw). by destruct (f false (shared w2)).
Qed.

(** What the remaining schedule may do to the shared state satisfies [A]. *)
Definition env_ok (A : act -> World X -> Prop) w : Prop :=
  forall b a, b ∈ env w -> EnvShared a ∈ b -> A a w.

(** An assertion kept by changes to requests and by the actions the schedule
    contains is stable together with the condition on the schedule. *)
Lemma stable_guarded (A : act -> World X -> Prop) P :
  (forall a, Upward (A a)) ->
  (forall w w', world_le w w' -> shared w' = shared w -> P w -> P w') ->
  (forall a w, A a w -> P w -> P (set_shared (act_step a (shared w)) w)) ->
  Stable (fun w => P w /\ env_ok A w).
Proof.
  intros HA Hle Hact. split.
  - intros w w' Hw Hs He [HP Henv]. split; [by eapply Hle|].
    intros b a Hb Ha. rewrite He in Hb. by eapply HA, Henv.
  - intros w [HP Henv]. unfold interfere. destruct (env w) as [|b bs] eqn:He; [done|].
    assert (Hbs : env_ok A (set_env bs w)).
    { intros b' a Hb' Ha. eapply HA; [apply set_env_le|]. apply (Henv b'); [|done].
      rewrite He. by right. }
    assert (Hb : forall a, EnvShared a ∈ b -> A a (set_env bs w)).
    { intros a Ha. eapply HA; [apply set_env_le|]. apply (Henv b); [|done]. rewrite He. left. }
    apply (Hle w (set_env bs w)) in HP; [|apply set_env_le|done].
    revert HP Hbs Hb. generalize (set_env bs w). clear w He Henv. unfold run_batch.
    induction b as [|a b IH]; intros w HP Hbs Hb; simpl; [done|].
    pose proof (step_env_le a w) as Hst. apply IH.
    + destruct a as [l o|d|a]; [|by eapply Hle|by apply Hact; [apply Hb; left|]].
      eapply Hle; [exact Hst| |exact HP]. simpl.
      destruct (heap w !! l) as [r|]; [|done]. by destruct (apply_op o r).
    + intros b' a' Hb' Ha'. eapply HA; [exact Hst|]. eapply Hbs; [|exact Ha'].
      pose proof (run_batch_env [a] w) as Henv. simpl in Henv. by rewrite Henv in Hb'.
    + intros a' Ha'. eapply HA; [exact Hst|]. apply Hb. by right.
Qed.

(** The same when every action keeps it. *)
Lemma stable_acts P :
  (forall w w', world_le w w' -> shared w' = shared w -> P w -> P w') ->
  (forall a w, P w -> P (set_shared (act_step a (shared w)) w)) -> Stable P.
Proof.
  intros Hle Hact.
  assert (HS : Stable (fun w => P w /\ env_ok (fun _ _ => True) w)).
  { apply stable_guarded; [apply _|exact Hle|]. intros a w _. apply Hact. }
  split; [by intros w w' ? ? _; apply Hle|].
  intros w Hw. apply (stable_env (P := fun w => P w /\ env_ok (fun _ _ => True) w)). by split.
Qed.

(** ** A bound on the work left

    [potential mu]: what is already there, by the measure [mu] on the shared
    state, and the actions on the shared state the schedule still holds. *)
Fixpoint count_shared (b : list (env_act X)) : nat :=
  match b with
  | [] => 0
  | EnvShared _ :: b => S (count_shared b)
  | _ :: b => count_shared b
  end.

Definition potential (mu : X -> nat) w : nat := (mu (shared w) + count_shared (concat (env w)))%nat.

Lemma count_shared_app b b' : count_shared (b ++ b') = (count_shared b + count_shared b')%nat.
Proof. induction b as [|[l o|d|a] b IH]; simpl; lia. Qed.

Lemma stable_potential mu n :
  (forall a x, (mu (act_step a x) <= S (mu x))%nat) ->
  Stable (fun w => (potential mu w <= n)%nat).
Proof.
  intros Hmu. split; unfold potential; [by intros w w' _ -> ->|].
  intros w Hw. unfold interfere. destruct (env w) as [|b bs] eqn:He; [by rewrite He|].
  simpl in Hw. rewrite count_shared_app in Hw. rewrite run_batch_env. simpl.
  cut (forall b w, (mu (shared (run_batch b w)) <= mu (shared w) + count_shared b)%nat).
  { intros H. specialize (H b (set_env bs w)). simpl in H. lia. }
  clear -Hmu. unfold run_batch. induction b as [|a b IH]; intros w; simpl; [lia|].
  etrans; [apply IH|]. destruct a as [l o|d|a]; simpl; [|lia|specialize (Hmu a (shared w)); lia].
  destruct (heap w !! l) as [r|]; [|lia]. destruct (apply_op o r). simpl. lia.
Qed.

(** An assertion about the shared state alone. *)
Lemma stable_shared (Q : X -> Prop) : shared_stable Q -> Stable (fun w => Q (shared w)).
Proof.
  intros HQ. split; [by intros w w' _ ->|]. intros w. by apply interfere_shared.
Qed.

(** [m] keeps [P] whatever its outcome. *)
Definition Keeps {A} P (m : M X A) : Prop := forall w, P w -> P (m w).2.
(** [m] does not wait when [P] holds. *)
Definition ReturnsWhen {A} P (m : M X A) : Prop := forall w, P w -> (m w).1 <> Blocked.

Lemma keeps_quiet {A} P (m : M X A) : Stable P -> Quiet m -> Keeps P m.
Proof. intros HP Hm w. by apply Hm. Qed.

Lemma keeps_bind {A B} P (m : M X A) (k : A -> M X B) :
  Keeps P m -> (forall a, Keeps P (k a)) -> Keeps P (m ≫= k).
Proof.
  intros Hm Hk w Hw. unfold mbind, M_bind. specialize (Hm w Hw).
  destruct (m w) as [[a|e|] w']; simpl in *; try done. by apply Hk.
Qed.

Lemma keeps_ret {A} P (a : A) : Keeps P (mret a).
Proof. by intros w. Qed.

Lemma returns_bind {A B} P (m : M X A) (k : A -> M X B) :
  ReturnsWhen P m -> Keeps P m -> (forall a, ReturnsWhen P (k a)) -> ReturnsWhen P (m ≫= k).
Proof.
  intros Hr Hm Hk w Hw. unfold mbind, M_bind. specialize (Hr w Hw). specialize (Hm w Hw).
  destruct (m w) as [[a|e|] w']; simpl in *; try done. by apply Hk.
Qed.

Lemma triple_keeps {A} P R (m : M X A) Q E :
  Keeps R m -> triple P m Q E ->
  triple (fun w => P w /\ R w) m (fun a w => Q a w /\ R w) (fun e w => E e w /\ R w).
Proof.
  intros Hk Hm w [HP Hw]. specialize (Hm w HP). specialize (Hk w Hw).
  by destruct (m w) as [[a|e|] w'].
Qed.

Lemma triple_keeps_safe {A} P R (m : M X A) Q E :
  Keeps R m -> triple P m Q no_throw ->
  triple (fun w => P w /\ R w) m (fun a w => Q a w /\ R w) E.
Proof.
  intros Hk Hm. eapply triple_conseq; [by apply (triple_keeps P R m Q no_throw)|done..|].
  by intros e w [[] _].
Qed.

(** ** Computations that do not wait *)

Class NonBlocking {A} (m : M X A) : Prop := non_blocking w : (m w).1 <> Blocked.

#[global] Instance nb_ret {A} (a : A) : NonBlocking (mret a).
Proof. by intros w. Qed.
#[global] Instance nb_throw {A} e : NonBlocking (throw (A := A) e).
Proof. by intros w. Qed.
#[global] Instance nb_now : NonBlocking now.
Proof. by intros w. Qed.
#[global] Instance nb_atomically {A} (f : X -> A * X) : NonBlocking (atomically f).
Proof. intros w. unfold atomically. by destruct (f (shared (interfere w))). Qed.
#[global] Instance nb_reading {A} (f : X -> A) : NonBlocking (reading f).
Proof. apply nb_atomically. Qed.
#[global] Instance nb_updating (f : X -> X) : NonBlocking (updating f).
Proof. apply nb_atomically. Qed.
#[global] Instance nb_on_request {A} (f : t -> A * (t * list notification)) l :
  NonBlocking (on_request f l).
Proof.
  intros w. unfold on_request. destruct (heap (interfere w) !! l) as [r|]; [|done].
  by destruct (f r) as [a [r' ns]].
Qed.
#[global] Instance nb_deliver l ns : NonBlocking (deliver l ns).
Proof. by intros w. Qed.

#[global] Instance nb_bind {A B} (m : M X A) (k : A -> M X B) :
  NonBlocking m -> (forall a, NonBlocking (k a)) -> NonBlocking (m ≫= k).
Proof.
  intros Hm Hk w. unfold mbind, M_bind. specialize (Hm w).
  destruct (m w) as [[a|e|] w']; simpl in *; [apply Hk|done|done].
Qed.

#[global] Instance nb_try_catch {A} (m : M X A) h :
  NonBlocking m -> (forall e, NonBlocking (h e)) -> NonBlocking (try_catch m h).
Proof.
  intros Hm Hh w. unfold try_catch. specialize (Hm w).
  destruct (m w) as [[a|e|] w']; simpl in *; [done|apply Hh|done].
Qed.

#[global] Instance nb_mutate {A} (f : t -> A * (t * list notification)) l :
  NonBlocking (mutate f l).
Proof. unfold mutate. apply _. Qed.
#[global] Instance nb_inspect {A} (f : t -> A) l : NonBlocking (inspect f l).
Proof. unfold inspect. apply _. Qed.
#[global] Instance nb_for_each {A} (f : A -> M X unit) l :
  (forall a, NonBlocking (f a)) -> NonBlocking (for_each f l).
Proof. intros Hf. induction l; simpl; apply _. Qed.
#[global] Instance nb_filterM {A} (f : A -> M X bool) l :
  (forall a, NonBlocking (f a)) -> NonBlocking (filterM f l).
Proof. intros Hf. induction l; simpl; apply _. Qed.

#[global] Instance nb_is_dead p : NonBlocking (is_dead_request p).
Proof.
  destruct p as [l|]; simpl; [|apply _]. unfold req_is_terminal, req_try_timeout_if_expired.
  apply nb_bind; [apply _|]. intros []; [apply _|].
  apply nb_bind; [apply _|]. intros tp.
  apply nb_bind; [|intros; apply _].
  apply nb_bind; [apply _|]. intros []; apply _.
Qed.

Lemma returns_nb {A} P (m : M X A) : NonBlocking m -> ReturnsWhen P m.
Proof. intros Hm w _. apply Hm. Qed.

(** A triple that cannot throw, of a computation that cannot block, is a
    total correctness statement. *)
Lemma triple_total {A} P (m : M X A) Q w :
  NonBlocking m -> triple P m Q no_throw -> P w -> exists a w', m w = (Ret a, w') /\ Q a w'.
Proof.
  intros Hnb Hm HP. specialize (Hnb w). specialize (Hm w HP).
  destruct (m w) as [[a|e|] w']; simpl in *; [by exists a, w'|done|done].
Qed.
End stable.

#[export] Hint Extern 4 (NonBlocking (match ?x with _ => _ end)) => destruct x : typeclass_instances.
#[export] Hint Extern 4 (Quiet (match ?x with _ => _ end)) => destruct x : typeclass_instances.

(** ** Facts about live and terminal requests *)

Definition terminal_req (r : t) : Prop := is_terminal r = true.
(** Past the [Received] state. *)
Definition admitted (r : t) : Prop := state_ r <> Received.
(** Running or terminal. *)
Definition started (r : t) : Prop := (2 <= rank (state_ r))%nat.
Definition any_req (r : t) : Prop := True.

#[export] Instance terminal_closed : Closed terminal_req.
Proof. intros r r'. apply evolves_terminal. Qed.

#[export] Instance started_closed : Closed started.
Proof. intros r r' Hev Hr. unfold started in *. destruct (ev_state _ _ Hev) as [->|]; lia. Qed.

#[export] Instance admitted_closed : Closed admitted.
Proof.
  intros r r' Hev Hr. unfold admitted in *. intros Hr'.
  destruct (ev_state _ _ Hev) as [Heq|Hlt]; [congruence|]. rewrite Hr' in Hlt. simpl in Hlt. lia.
Qed.

#[export] Instance any_closed : Closed any_req.
Proof. by intros ???. Qed.

#[export] Instance model_closed m : Closed (fun r => model_id_ r = m).
Proof. intros r r' Hev <-. apply (ev_model_id _ _ Hev). Qed.

#[export] Instance closed_and S T : Closed S -> Closed T -> Closed (fun r => S r /\ T r).
Proof. intros HS HT r r' Hev [??]. split; [by eapply HS|by eapply HT]. Qed.

#[export] Instance closed_pure (C : Prop) : Closed (fun _ => C).
Proof. by intros ????. Qed.

#[export] Instance closed_impl (C : Prop) S : Closed S -> Closed (fun r => C -> S r).
Proof. intros HS r r' Hev H c. eapply HS; eauto. Qed.

Lemma terminal_started r : terminal_req r -> started r.
Proof. unfold terminal_req, is_terminal, started. rewrite terminal_rank. lia. Qed.

Section dead.
Context {X : Type} `{SX : !Shared X}.

(** [is_dead_request] answers [true] only for a terminal request, and it
    keeps whatever was known of the request. *)
Lemma triple_is_dead S l E :
  Closed S ->
  triple (X := X) (req_at S l) (is_dead_request (Some l))
    (fun b => req_at (fun r => S r /\ (b = true -> terminal_req r)) l) E.
Proof.
  intros HS. unfold is_dead_request, req_is_terminal, req_try_timeout_if_expired.
  eapply triple_bind.
  { apply (triple_inspect S _ (fun b r => S r /\ (b = true -> terminal_req r))); [done|].
    intros r Hr. split; [done|]. by intros Hb. }
  intros [|]; [by apply triple_ret|].
  eapply triple_bind with (Q' := fun _ => req_at S l).
  { eapply triple_pre; [|apply triple_now; apply _]. intros w. apply req_at_mono. tauto. }
  intros tp. eapply triple_bind with (Q' := fun _ => req_at S l).
  { eapply triple_bind with (Q' := fun _ => req_at S l).
    - by apply (triple_inspect S _ (fun _ => S)).
    - intros [|]; [|by apply triple_ret].
      apply (triple_mutate S _ (fun _ => S)); [done|done|].
      intros r Hr. eapply HS; [apply finish_evolves|done]. }
  intros _. apply (triple_inspect S _ (fun b r => S r /\ (b = true -> terminal_req r))); [done|].
  intros r Hr. split; [done|]. by intros Hb.
Qed.

Lemma inspect_result {A} (f : t -> A) l a (w w' : World X) :
  inspect f l w = (Ret a, w') -> req_at (fun r => f r = a) l w'.
Proof.
  unfold inspect, on_request, mbind, M_bind. intros H.
  destruct (heap (interfere w) !! l) as [r|]; [|done]. injection H as <- <-.
  exists r. simpl. by rewrite lookup_insert_eq.
Qed.

Lemma inspect_valid {A} (f : t -> A) l a (w w' : World X) :
  inspect f l w = (Ret a, w') -> req_at any_req l w'.
Proof. intros H%inspect_result. by eapply req_at_mono. Qed.

(** What is known when a wait for a request ends. *)
Lemma await_env_spec l dl bs (w : World X) :
  match await_env l dl bs w with
  | (Ready, w') => ended l w' = true
  | (Timeout, w') => passed dl w' = true /\ ended l w' = false
  | (Asleep, w') => env w' = [] /\ ended l w' = false
  end.
Proof.
  revert w. induction bs as [|b bs IH]; intros w; simpl; (destruct (ended l w) eqn:He; [done|]).
  - by destruct (passed dl w) eqn:Hp.
  - destruct (passed dl (run_batch b w)) eqn:Hp; [|apply IH]. by destruct (ended l (run_batch b w)) eqn:He'.
Qed.

Lemma await_env_le l dl bs (w : World X) : world_le w (await_env l dl bs w).2.
Proof.
  revert w. induction bs as [|b bs IH]; intros w; simpl; destruct (ended l w); simpl; try apply set_env_le.
  destruct (passed dl _); simpl.
  - etrans; [apply run_batch_le|apply set_env_le].
  - etrans; [apply run_batch_le|apply IH].
Qed.

(** [wait_for_terminal] answers [true] only for a terminal request, [false]
    only for one that is still live when the timeout has passed, and sleeps
    on only while the request is live. *)
Theorem wait_for_terminal_spec timeout l (w : World X) :
  req_at any_req l w ->
  match req_wait_for_terminal timeout l w with
  | (Ret true, w') => req_at terminal_req l w'
  | (Ret false, w') => ended l w' = false /\
      exists ms, timeout = Some ms /\ clock w + 1000000 * ms <= clock w'
  | (Throw _, _) => False
  | (Blocked, w') => ended l w' = false /\ env w' = []
  end.
Proof.
  intros Hw. pose proof (interfere_le w) as Hle. apply (upward _ _ Hle) in Hw as (r & Hr & _).
  unfold req_wait_for_terminal. rewrite Hr.
  set (dl := (fun ms => clock (interfere w) + 1000000 * ms) <$> timeout).
  pose proof (await_env_spec l dl (env (interfere w)) (interfere w)) as H.
  destruct (await_env l dl _ _) as [[| |] w'].
  - unfold ended in H. destruct (heap w' !! l) as [r'|] eqn:Hr'; [|done]. by exists r'.
  - destruct H as [Hp He]. split; [done|]. destruct timeout as [ms|]; [|done]. exists ms. split; [done|].
    unfold passed, dl in Hp. simpl in Hp. apply Z.leb_le in Hp. pose proof (wl_clock _ _ Hle). lia.
  - by destruct H.
Qed.

(** It answers only for a pointer of the heap. *)

Lemma is_dead_valid l d (w w' : World X) :
  is_dead_request (Some l) w = (Ret d, w') -> req_at any_req l w'.
Proof.
  unfold is_dead_request. intros (b & w1 & Hi & Hk)%bind_ret_inv.
  apply inspect_valid in Hi. destruct b; [by injection Hk as _ <-|].
  apply bind_ret_inv in Hk as (tp & w2 & _ & Hk).
  apply bind_ret_inv in Hk as (b & w3 & _ & Hk). by apply inspect_valid in Hk.
Qed.

Lemma is_dead_true l (w w' : World X) :
  is_dead_request (Some l) w = (Ret true, w') -> req_at terminal_req l w'.
Proof.
  unfold is_dead_request. intros (b & w1 & Hi & Hk)%bind_ret_inv.
  apply inspect_result in Hi. destruct b; [by injection Hk as <-|].
  apply bind_ret_inv in Hk as (tp & w2 & _ & Hk).
  apply bind_ret_inv in Hk as (b & w3 & _ & Hk). by apply inspect_result in Hk.
Qed.
End dead.

(** ** A component inside a larger shared state *)

Record lens (X Y : Type) := mkLens {
  view : X -> Y;
  over : (Y -> Y) -> X -> X;
  view_over f x : view (over f x) = f (view x)
}.
Arguments view {X Y} _ _.
Arguments over {X Y} _ _ _.

Definition lens_id {X} : lens X X :=
  mkLens X X (fun x => x) (fun f x => f x) (fun f x => eq_refl).

(** Run a critical section of the component inside the whole. *)
Definition focus {X Y A} (L : lens X Y) (f : Y -> A * Y) (x : X) : A * X :=
  ((f (view L x)).1, over L (fun y => (f y).2) x).

(** Lenses compose. *)
Definition lens_comp {X Y Z'} (L : lens X Y) (K : lens Y Z') : lens X Z' :=
  mkLens X Z' (fun x => view K (view L x)) (fun f => over L (over K f))
    (fun f x => eq_trans (f_equal (view K) (view_over _ _ L (over K f) x)) (view_over _ _ K f (view L x))).

(** ** Total correctness: [m] returns, with [Q] *)

Section total.
Context {X : Type} `{SX : !Shared X}.
Implicit Types (w : World X) (P : World X -> Prop).

Definition ttriple {A} P (m : M X A) (Q : A -> World X -> Prop) : Prop :=
  forall w, P w -> exists a w', m w = (Ret a, w') /\ Q a w'.

Lemma ttriple_ret {A} P (a : A) (Q : A -> World X -> Prop) :
  (forall w, P w -> Q a w) -> ttriple P (mret a) Q.
Proof. intros H w HP. exists a, w. split; [done|]. by apply H. Qed.

Lemma ttriple_bind {A B} P (m : M X A) Q' (k : A -> M X B) Q :
  ttriple P m Q' -> (forall a, ttriple (Q' a) (k a) Q) -> ttriple P (m ≫= k) Q.
Proof.
  intros Hm Hk w HP. destruct (Hm w HP) as (a & w1 & Hm1 & H1).
  destruct (Hk a w1 H1) as (b & w2 & Hk2 & H2). exists b, w2. split; [|done].
  unfold mbind, M_bind. by rewrite Hm1.
Qed.

Lemma ttriple_conseq {A} P P' (m : M X A) (Q Q' : A -> World X -> Prop) :
  ttriple P' m Q' -> (forall w, P w -> P' w) -> (forall a w, Q' a w -> Q a w) -> ttriple P m Q.
Proof.
  intros Hm HP HQ w Hw. destruct (Hm w (HP w Hw)) as (a & w' & ? & ?). exists a, w'. auto.
Qed.

Lemma ttriple_pre {A} P P' (m : M X A) Q :
  (forall w, P w -> P' w) -> ttriple P' m Q -> ttriple P m Q.
Proof. intros HP Hm w Hw. by apply Hm, HP. Qed.

Lemma ttriple_of {A} P (m : M X A) Q : NonBlocking m -> triple P m Q no_throw -> ttriple P m Q.
Proof. intros Hnb Hm w. by apply triple_total. Qed.

Lemma ttriple_frame {A} P R (m : M X A) Q :
  Upward R -> Mono m -> ttriple P m Q ->
  ttriple (fun w => P w /\ R w) m (fun a w => Q a w /\ R w).
Proof.
  intros HR Hmono Hm w [HP Hw]. destruct (Hm w HP) as (a & w' & Hrun & HQ). exists a, w'.
  split; [done|]. split; [done|]. specialize (Hmono w). rewrite Hrun in Hmono. by eapply HR.
Qed.

Lemma ttriple_pull {A} (C : Prop) P (m : M X A) Q :
  (C -> ttriple P m Q) -> ttriple (fun w => C /\ P w) m Q.
Proof. intros H w [HC HP]. by apply H. Qed.

Lemma ttriple_know {A} (C : Prop) P (m : M X A) Q :
  (forall w, P w -> C) -> (C -> ttriple P m Q) -> ttriple P m Q.
Proof. intros HC H w Hw. apply H; eauto. Qed.

Lemma ttriple_exists {A I} (P : I -> World X -> Prop) (m : M X A) Q :
  (forall i, ttriple (P i) m Q) -> ttriple (fun w => exists i, P i w) m Q.
Proof. intros H w [i HP]. by apply (H i). Qed.
End total.

(** ** Running alone: an empty schedule *)

Section solo.
Context {X : Type} `{SX : !Shared X}.
Implicit Types w : World X.

Definition solo w : Prop := env w = [].

Lemma interfere_solo w : solo w -> interfere w = w.
Proof. unfold solo, interfere. by intros ->. Qed.

Lemma atomically_solo {A} (f : X -> A * X) w :
  solo w -> atomically f w = (Ret (f (shared w)).1, set_shared (f (shared w)).2 w).
Proof. intros Hw. unfold atomically. rewrite interfere_solo by done. by destruct (f (shared w)). Qed.

Lemma reading_solo {A} (f : X -> A) w : solo w -> reading f w = (Ret (f (shared w)), w).
Proof. intros Hw. unfold reading. rewrite atomically_solo by done. by destruct w. Qed.

Lemma now_solo w : solo w -> now w = (Ret (clock w), w).
Proof. intros Hw. unfold now. by rewrite interfere_solo. Qed.

Lemma inspect_solo {A} (f : t -> A) l r w :
  solo w -> heap w !! l = Some r -> inspect f l w = (Ret (f r), w).
Proof.
  intros Hw Hr. unfold inspect, on_request, mbind, M_bind. rewrite interfere_solo by done.
  rewrite Hr. simpl. unfold set_heap. rewrite insert_id by done. by destruct w.
Qed.

(** [r] is live and its deadline, if any, lies ahead. *)
Definition fresh_req (tp : time_point) (r : t) : Prop :=
  is_terminal r = false /\ expired_and_live tp r = false.

Lemma timeout_solo l r w :
  solo w -> heap w !! l = Some r -> fresh_req (clock w) r ->
  req_try_timeout_if_expired (clock w) l w = (Ret false, w).
Proof.
  intros Hw Hr [_ He]. unfold req_try_timeout_if_expired, mbind, M_bind.
  rewrite (inspect_solo _ l r) by done. by rewrite He.
Qed.

Lemma is_dead_solo l r w :
  solo w -> heap w !! l = Some r -> fresh_req (clock w) r ->
  is_dead_request (Some l) w = (Ret false, w).
Proof.
  intros Hw Hr Hf. unfold is_dead_request, req_is_terminal, mbind, M_bind.
  rewrite (inspect_solo _ l r) by done. destruct Hf as [Ht He]. rewrite Ht.
  rewrite now_solo by done. rewrite (timeout_solo l r) by done.
  rewrite (inspect_solo _ l r) by done. by rewrite Ht.
Qed.
End solo.
