(* ===== verification/Queue.v ===== *)
(** * The bounded queue

    [include/airuntime/bounded_queue.hpp]: the lock-protected FIFO between the
    admission path, the routing thread and a worker. The non-blocking
    operations and the critical sections of the blocking ones are functions on
    the queue record; the blocking operations are computations of [World] that
    wait on the queue inside the shared state. *)

From S2P Require Import Prelude Status Requests World.

Module BoundedQueue.
Section queue.
Context {T : Type}.

Record t := mk { capacity_ : Z; queue_ : list T; closed_ : bool }.

(** The constructor throws on a zero capacity. *)
Definition new (capacity : Z) : exn + t :=
  if capacity =? 0
  then inl (StdException "BoundedQueue capacity must be positive")
  else inr (mk capacity [] false).

Definition size (q : t) : Z := Z.of_nat (length (queue_ q)).
Definition capacity (q : t) : Z := capacity_ q.
Definition closed (q : t) : bool := closed_ q.
Definition full (q : t) : bool := capacity_ q <=? size q.
Definition empty (q : t) : bool := bool_decide (queue_ q = []).

Definition push_back (v : T) (q : t) : t := mk (capacity_ q) (queue_ q ++ [v]) (closed_ q).

Definition try_push (v : T) (q : t) : Status * t :=
  if closed_ q then (Status.error QueueClosed "queue is closed", q)
  else if full q then (Status.error QueueFull "queue is full", q)
  else (Status.success, push_back v q).

(** [wait_push]: what it waits for, and the rest of its critical section. *)
Definition push_ready (q : t) : bool := negb (full q) || closed_ q.
Definition wait_push_body (v : T) (q : t) : Status * t :=
  if closed_ q then (Status.error QueueClosed "queue is closed", q)
  else (Status.success, push_back v q).

(** The rest of [wait_push_until] after its loop; [in_time] is false when
    the loop returned on a timeout. *)
Definition wait_push_until_body (v : T) (in_time : bool) (q : t) : Status * t :=
  if negb in_time then (Status.error ETimedOut "queue push deadline exceeded", q)
  else if closed_ q then (Status.error QueueClosed "queue is closed", q)
  else if full q then (Status.error ETimedOut "queue push deadline exceeded", q)
  else (Status.success, push_back v q).

Definition pop_ready (q : t) : bool := negb (empty q) || closed_ q.

(** The common end of [wait_pop] and [wait_pop_until]. *)
Definition pop_body (q : t) : option T * t :=
  match queue_ q with
  | [] => (None, q)
  | v :: vs => (Some v, mk (capacity_ q) vs (closed_ q))
  end.

Definition close (q : t) : t := mk (capacity_ q) (queue_ q) true.

(** The blocking operations on a queue inside the shared state [X]. *)
Section blocking.
Context {X : Type} `{SX : !Shared X} (L : lens X t).

Definition wait_push (v : T) : M X Status :=
  wait_then (fun x => push_ready (view L x)) (focus L (wait_push_body v)).

Definition wait_push_until (v : T) (deadline : time_point) : M X Status :=
  timed_wait_then (fun x => push_ready (view L x)) deadline
    (fun in_time => focus L (wait_push_until_body v in_time)).

Definition wait_pop : M X (option T) :=
  wait_then (fun x => pop_ready (view L x)) (focus L pop_body).

Definition wait_pop_until (deadline : time_point) : M X (option T) :=
  timed_wait_then (fun x => pop_ready (view L x)) deadline
    (fun _ => focus L pop_body).
End blocking.
End queue.
Arguments t : clear implicits.

(** What the other threads may do to a queue of their own. *)
Inductive queue_act (T : Type) := QPush (v : T) | QPop | QClose.
Arguments QPush {T} _.
Arguments QPop {T}.
Arguments QClose {T}.

Definition queue_step {T} (a : queue_act T) (q : t T) : t T :=
  match a with
  | QPush v => (try_push v q).2
  | QPop => (pop_body q).2
  | QClose => close q
  end.

#[export] Instance queue_shared T : Shared (t T) :=
  {| act := queue_act T; act_step := queue_step |}.
End BoundedQueue.

Import BoundedQueue.

(** ** Histories

    Whatever mixture of operations the threads perform, the queue sees a
    sequence of critical sections. [history] runs such a sequence and records
    the values accepted and the values handed out. *)

Section history.
Context {T : Type}.
Implicit Types q : BoundedQueue.t T.

Inductive event :=
  | EvTryPush (v : T)
  | EvWaitPush (v : T)
  | EvWaitPushUntil (v : T) (in_time : bool)
  | EvPop
  | EvClose.

(** A blocking push proceeds only when its wait has ended. *)
Definition enabled (e : event) q : bool :=
  match e with
  | EvWaitPush _ => push_ready q
  | EvWaitPushUntil _ in_time => negb in_time || push_ready q
  | _ => true
  end.

Definition ev_step (e : event) q : list T * list T * BoundedQueue.t T :=
  let pushed '(s, q') v := (if Status.ok s then [v] else [], [], q') in
  match e with
  | EvTryPush v => pushed (try_push v q) v
  | EvWaitPush v => pushed (wait_push_body v q) v
  | EvWaitPushUntil v b => pushed (wait_push_until_body v b q) v
  | EvPop => let '(o, q') := pop_body q in ([], option_list o, q')
  | EvClose => ([], [], close q)
  end.

(** All runs: values accepted, values handed out, final queue. *)
Inductive history q : list event -> list T -> list T -> BoundedQueue.t T -> Prop :=
  | hist_nil : history q [] [] [] q
  | hist_step es ins outs q1 e i o q2 :
      history q es ins outs q1 -> enabled e q1 = true -> ev_step e q1 = (i, o, q2) ->
      history q (es ++ [e]) (ins ++ i) (outs ++ o) q2.

Definition queue_wf q : Prop := 0 < capacity_ q /\ size q <= capacity_ q.

(** One critical section: order, bound, capacity and closing. *)
Lemma ev_step_spec e q i o q' :
  queue_wf q -> enabled e q = true -> ev_step e q = (i, o, q') ->
  queue_wf q' /\ capacity_ q' = capacity_ q /\ o ++ queue_ q' = queue_ q ++ i /\
  (closed_ q = true -> closed_ q' = true /\ i = []) /\
  (e = EvClose -> closed_ q' = true).
Proof.
  intros [Hc Hs] Hen. unfold queue_wf, size in *.
  assert (Hpush : forall v, full q = false ->
    Z.of_nat (length (queue_ q ++ [v])) <= capacity_ q).
  { intros v Hf. unfold full, size in Hf. rewrite length_app. simpl. zcases; try done. lia. }
  destruct e as [v|v|v b| |]; simpl in *; unfold try_push, wait_push_body,
    wait_push_until_body, push_ready, pop_body in *.
  - destruct (closed_ q) eqn:Hcl; [|destruct (full q) eqn:Hf]; intros [= <- <- <-];
      simpl; rewrite ?app_nil_r; repeat split; auto; congruence.
  - destruct (closed_ q) eqn:Hcl; [|rewrite orb_false_r in Hen; apply negb_true_iff in Hen];
      intros [= <- <- <-]; simpl; rewrite ?app_nil_r; repeat split; auto; congruence.
  - destruct b; simpl in *; [destruct (closed_ q) eqn:Hcl; [|destruct (full q) eqn:Hf]|];
      intros [= <- <- <-]; simpl; rewrite ?app_nil_r; repeat split; auto; congruence.
  - destruct (queue_ q) as [|v vs] eqn:Hq; intros [= <- <- <-]; simpl in *;
      rewrite ?app_nil_r, ?Hq; repeat split; auto; try lia; congruence.
  - intros [= <- <- <-]. simpl. rewrite app_nil_r. by repeat split.
Qed.

Lemma history_spec q es ins outs q' :
  queue_wf q -> queue_ q = [] -> history q es ins outs q' ->
  queue_wf q' /\ capacity_ q' = capacity_ q /\ outs ++ queue_ q' = ins.
Proof.
  intros Hwf Hq. induction 1 as [|es ins outs q1 e i o q2 _ IH Hen Hst].
  - by rewrite Hq.
  - destruct IH as (Hwf1 & Hc1 & Heq1).
    destruct (ev_step_spec e q1 i o q2 Hwf1 Hen Hst) as (Hwf2 & Hc2 & Heq2 & _).
    repeat split; [apply Hwf2|apply Hwf2|congruence|].
    rewrite <- app_assoc, Heq2, app_assoc. by rewrite Heq1.
Qed.
End history.

(** C15: The queue is a bounded FIFO. For a queue built with a positive
    capacity and every interleaving of try-push, blocking and timed push, pop
    and close by any number of threads: what has been handed out followed by
    what is still queued is exactly what was accepted, in the order it was
    accepted, and the queue never holds more than its capacity. *)
Theorem queue_bounded_fifo {T} capacity (q q' : BoundedQueue.t T) es ins outs :
  0 < capacity -> BoundedQueue.new capacity = inr q -> history q es ins outs q' ->
  outs ++ queue_ q' = ins /\ size q' <= capacity.
Proof.
  intros Hc Hnew Hh. unfold BoundedQueue.new in Hnew.
  destruct (Z.eqb_spec capacity 0); [lia|]. injection Hnew as <-.
  assert (queue_wf (mk capacity ([] : list T) false)) as Hwf
    by (split; simpl; unfold size; simpl; lia).
  destruct (history_spec _ es ins outs q' Hwf eq_refl Hh) as ([_ Hs] & Hcap & Heq).
  split; [done|]. by rewrite Hcap in Hs.
Qed.

Lemma queue_bounded_fifo_witness :
  let q : BoundedQueue.t Z := mk 1 [] false in
  let q' : BoundedQueue.t Z := mk 1 [] true in
  history q [EvTryPush 7; EvTryPush 8; EvPop; EvClose; EvWaitPush 9] [7] [7] q' /\
  ([7] ++ queue_ q' = [7] /\ size q' <= 1).
Proof.
  intros q q'.
  assert (H : history q [EvTryPush 7; EvTryPush 8; EvPop; EvClose; EvWaitPush 9] [7] [7] q').
  { apply (hist_step q [EvTryPush 7; EvTryPush 8; EvPop; EvClose] [7] [7] q' (EvWaitPush 9) [] [] q');
      [|reflexivity..].
    apply (hist_step q [EvTryPush 7; EvTryPush 8; EvPop] [7] [7] q EvClose [] [] q'); [|reflexivity..].
    apply (hist_step q [EvTryPush 7; EvTryPush 8] [7] [] (mk 1 [7] false) EvPop [] [7] q);
      [|reflexivity..].
    apply (hist_step q [EvTryPush 7] [7] [] (mk 1 [7] false) (EvTryPush 8) [] [] (mk 1 [7] false));
      [|reflexivity..].
    apply (hist_step q [] [] [] q (EvTryPush 7) [7] [] (mk 1 [7] false)); [|reflexivity..].
    constructor. }
  split; [exact H|].
  eapply (queue_bounded_fifo 1 q q'); [lia|reflexivity|exact H].
Defined.

(** ** What the blocking operations report *)

Section reports.
Context {T X : Type} `{SX : !Shared X} (L : lens X (BoundedQueue.t T)).
Implicit Types w : World X.

Lemma wait_then_ret {A} cond (f : X -> A * X) w a w' :
  wait_then cond f w = (Ret a, w') ->
  exists w0, cond (shared w0) = true /\ a = (f (shared w0)).1 /\
             shared w' = (f (shared w0)).2 /\ clock w' = clock w0.
Proof.
  unfold wait_then. set (w1 := interfere w).
  destruct (wait_env cond (env w1) w1) as [[] w2] eqn:E; [|done].
  destruct (f (shared w2)) as [b x] eqn:Ef. intros [= <- <-].
  exists w2. rewrite Ef. split; [by eapply wait_env_true|done].
Qed.

Lemma timed_wait_then_ret {A} cond dl (f : bool -> X -> A * X) w a w' :
  timed_wait_then cond dl f w = (Ret a, w') ->
  exists w0 b, (if (b : bool) then cond (shared w0) = true else dl <= clock w0) /\
               a = (f b (shared w0)).1 /\ shared w' = (f b (shared w0)).2 /\
               clock w' = clock w0.
Proof.
  unfold timed_wait_then. set (w1 := interfere w).
  destruct (timed_wait_env cond dl (env w1) w1) as [[| |] w2] eqn:E; [..|done].
  - destruct (f true (shared w2)) as [b x] eqn:Ef. intros [= <- <-].
    exists w2, true. rewrite Ef. split; [by eapply timed_wait_env_ready|done].
  - destruct (f false (shared w2)) as [b x] eqn:Ef. intros [= <- <-].
    exists w2, false. rewrite Ef. split; [by eapply timed_wait_env_timeout|done].
Qed.

Lemma pop_ready_empty (q : BoundedQueue.t T) :
  pop_ready q = true -> queue_ q = [] -> closed_ q = true.
Proof. unfold pop_ready, empty. intros H Hq. by rewrite bool_decide_true in H. Qed.

Lemma pop_body_none (q : BoundedQueue.t T) : (pop_body q).1 = None -> queue_ q = [] /\ (pop_body q).2 = q.
Proof. unfold pop_body. by destruct (queue_ q). Qed.

(** What a blocking call reports is true when it returns, for every
    schedule of the other threads. [wait_pop] answers [nullopt] only on a
    closed and empty queue; [wait_pop_until] only on an empty queue that is
    closed or whose deadline has passed; a timed push answers [TimedOut]
    only after its deadline and [QueueClosed] only on a closed queue. *)
Theorem blocking_calls_report v dl w w' (s : Status) :
  (wait_pop L w = (Ret None, w') ->
     queue_ (view L (shared w')) = [] /\ closed_ (view L (shared w')) = true) /\
  (wait_pop_until L dl w = (Ret None, w') ->
     queue_ (view L (shared w')) = [] /\
     (closed_ (view L (shared w')) = true \/ dl <= clock w')) /\
  (wait_push_until L v dl w = (Ret s, w') ->
     (code s = ETimedOut -> dl <= clock w') /\
     (code s = QueueClosed -> closed_ (view L (shared w')) = true) /\
     (Status.ok s = true -> last (queue_ (view L (shared w'))) = Some v)).
Proof.
  split; [|split].
  - intros (w0 & Hc & Ha & -> & _)%wait_then_ret. simpl in *. rewrite view_over.
    symmetry in Ha. destruct (pop_body_none _ Ha) as [Hq ->]. split; [done|].
    by apply pop_ready_empty.
  - intros (w0 & b & Hb & Ha & -> & ->)%timed_wait_then_ret. simpl in *. rewrite view_over.
    symmetry in Ha. destruct (pop_body_none _ Ha) as [Hq ->]. split; [done|].
    destruct b; [left; by apply pop_ready_empty|by right].
  - intros (w0 & b & Hb & -> & -> & ->)%timed_wait_then_ret. simpl. rewrite view_over.
    unfold wait_push_until_body, push_ready in *. destruct b; simpl; [|done].
    destruct (closed_ (view L (shared w0))) eqn:Hcl; simpl; [done|].
    rewrite orb_false_r in Hb. apply negb_true_iff in Hb. rewrite Hb. simpl.
    repeat split; try done. intros _. apply last_snoc.
Qed.
End reports.

Definition closing_world : World (BoundedQueue.t Z) :=
  mkWorld ∅ 0 [] (mk 2 [] false) [[EnvTick 5]; [EnvTick 5; EnvShared QClose]].

Lemma blocking_calls_report_witness :
  let w' := (wait_pop lens_id closing_world).2 in
  wait_pop lens_id closing_world = (Ret None, w') /\
  queue_ (shared w') = [] /\ closed_ (shared w') = true.
Proof.
  intros w'. assert (H : wait_pop lens_id closing_world = (Ret None, w')) by reflexivity.
  split; [exact H|].
  exact (proj1 (blocking_calls_report lens_id 0 0 closing_world w' Status.success) H).
Defined.

(** ** Shutdown *)

Lemma closed_stable T : shared_stable (fun q : BoundedQueue.t T => closed_ q = true).
Proof.
  intros a q Hq. destruct a as [v| |]; simpl; [|by destruct q as [? [|]]|done].
  unfold try_push. by rewrite Hq.
Qed.

(** Closing releases every waiter and lets consumers drain. On a closed
    queue, whatever the other threads go on doing, a blocked push returns
    [QueueClosed] without enqueuing, and a pop returns at once: the oldest
    queued value while there is one, [nullopt] once the queue is empty. *)
Theorem close_releases_waiters {T} (v : T) dl (w : World (BoundedQueue.t T)) :
  closed_ (shared w) = true ->
  let w1 := interfere w in
  wait_push lens_id v w = (Ret (Status.error QueueClosed "queue is closed"), w1) /\
  wait_push_until lens_id v dl w = (Ret (Status.error QueueClosed "queue is closed"), w1) /\
  wait_pop lens_id w = (Ret (head (queue_ (shared w1))), set_shared (pop_body (shared w1)).2 w1) /\
  wait_pop_until lens_id dl w =
    (Ret (head (queue_ (shared w1))), set_shared (pop_body (shared w1)).2 w1).
Proof.
  intros Hcl w1.
  assert (Hcl1 : closed_ (shared w1) = true)
    by exact (interfere_shared (fun q => closed_ q = true) w (closed_stable T) Hcl).
  assert (Hpush : push_ready (shared w1) = true)
    by (unfold push_ready; by rewrite Hcl1, orb_true_r).
  assert (Hpop : pop_ready (shared w1) = true)
    by (unfold pop_ready; by rewrite Hcl1, orb_true_r).
  assert (Hw1 : forall x, set_shared x (set_env (env w1) w1) = set_shared x w1) by done.
  unfold wait_push, wait_push_until, wait_pop, wait_pop_until, wait_then, timed_wait_then.
  fold w1. rewrite !wait_env_now, !timed_wait_env_now by done. simpl.
  unfold wait_push_body, wait_push_until_body, pop_body. rewrite Hcl1. simpl.
  repeat split; [by destruct w1..| |]; destruct (queue_ (shared w1)) eqn:Hq; done.
Qed.

Lemma close_releases_waiters_witness :
  let w : World (BoundedQueue.t Z) := mkWorld ∅ 0 [] (mk 1 [4] true) [[EnvShared (QPush 5)]] in
  closed_ (shared w) = true /\ (wait_pop lens_id w).1 = Ret (Some 4).
Proof.
  intros w. split; [reflexivity|].
  destruct (close_releases_waiters 0 0 w eq_refl) as (_ & _ & -> & _). reflexivity.
Defined.
