(* ===== verification/Registry.v ===== *)
(** * The model registry

    [include/airuntime/model_registry.hpp] and [src/model_registry.cpp]: the
    builder that validates model descriptions and the immutable registry the
    runtime and every worker read. *)

From S2P Require Import Prelude Status.

Record ModelRegistry := mkRegistry { models_ : gmap string ModelSpec }.

Module Builder.

(** [ModelRegistry::Builder::add] on the builder's map. *)
Definition add (spec : ModelSpec) (b : gmap string ModelSpec) : Status * gmap string ModelSpec :=
  if bool_decide (spec_model_id spec = EmptyString)
  then (Status.error InternalError "empty model_id", b)
  else if spec_memory_bytes spec =? 0
  then (Status.error InternalError "estimated_memory_bytes must be > 0", b)
  else if spec_load_cost spec =? 0
  then (Status.error InternalError "estimated_load_cost must be > 0", b)
  else match b !! spec_model_id spec with
       | Some _ => (Status.error InternalError "duplicate model_id", b)
       | None => (Status.success, <[spec_model_id spec := spec]> b)
       end.

(** [ModelRegistry::Builder::build]: the status and the registry, null on
    failure. *)
Definition build (b : gmap string ModelSpec) : Status * option ModelRegistry :=
  if bool_decide (b = ∅)
  then (Status.error InternalError "empty model registry", None)
  else (Status.success, Some (mkRegistry b)).

End Builder.

Module Registry.

(** [ModelRegistry::find]: the status and the value written to [out]; [None]
    when [out] is left alone. *)
Definition find (model_id : string) (r : ModelRegistry) : Status * option ModelSpec :=
  match models_ r !! model_id with
  | None => (Status.error ModelNotFound "model not found in registry", None)
  | Some spec => (Status.success, Some spec)
  end.

Definition contains (model_id : string) (r : ModelRegistry) : bool :=
  bool_decide (is_Some (models_ r !! model_id)).

Definition size (r : ModelRegistry) : Z := Z.of_nat (base.size (models_ r)).

(** The comparator of [models()]. *)
Definition spec_lt : ModelSpec -> ModelSpec -> bool := by_string spec_model_id.

(** [ModelRegistry::models]: all descriptions, sorted by identifier. *)
Definition models `{HashOrder} (epoch : nat) (r : ModelRegistry) : list ModelSpec :=
  std_sort spec_lt ((hash_list epoch (models_ r)).*2).

End Registry.

(** ** What the builder accepts *)

Definition spec_valid (s : ModelSpec) : bool :=
  negb (bool_decide (spec_model_id s = EmptyString)) &&
  negb (spec_memory_bytes s =? 0) && negb (spec_load_cost s =? 0).

Definition add_all (specs : list ModelSpec) : gmap string ModelSpec :=
  fold_left (fun b s => (Builder.add s b).2) specs ∅.

(** The reference: the first valid description with that identifier. *)
Definition first_valid (id : string) (specs : list ModelSpec) : option ModelSpec :=
  List.find (fun s => spec_valid s && bool_decide (spec_model_id s = id)) specs.

Lemma add_lookup s b id :
  (Builder.add s b).2 !! id =
    match b !! id with
    | Some s' => Some s'
    | None => if spec_valid s && bool_decide (spec_model_id s = id) then Some s else None
    end.
Proof.
  unfold Builder.add, spec_valid.
  destruct (bool_decide (spec_model_id s = EmptyString)); simpl; [by destruct (b !! id)|].
  destruct (spec_memory_bytes s =? 0); simpl; [by destruct (b !! id)|].
  destruct (spec_load_cost s =? 0); simpl; [by destruct (b !! id)|].
  case_bool_decide as Hid.
  - subst id. destruct (b !! spec_model_id s) eqn:E; simpl; [done|].
    apply lookup_insert_eq.
  - destruct (b !! spec_model_id s) eqn:E; simpl; [by destruct (b !! id)|].
    rewrite lookup_insert_ne by done. by destruct (b !! id).
Qed.

Lemma fold_add_lookup specs b id :
  fold_left (fun b s => (Builder.add s b).2) specs b !! id =
    match b !! id with Some s => Some s | None => first_valid id specs end.
Proof.
  revert b. induction specs as [|s specs IH]; intros b; simpl; [by destruct (b !! id)|].
  rewrite IH, add_lookup. destruct (b !! id); [done|].
  unfold first_valid at 2. simpl. by destruct (spec_valid s && _).
Qed.

Lemma add_all_lookup specs id : add_all specs !! id = first_valid id specs.
Proof. unfold add_all. by rewrite fold_add_lookup, lookup_empty. Qed.

Lemma first_valid_spec id specs s :
  first_valid id specs = Some s -> s ∈ specs /\ spec_valid s = true /\ spec_model_id s = id.
Proof.
  intros [Hin H]%List.find_some. bool_hyps. split; [by apply list_elem_of_In|done].
Qed.

(** A registry is well formed: keys and identifiers agree and every
    description is valid. *)
Definition registry_wf (r : ModelRegistry) : Prop :=
  forall id s, models_ r !! id = Some s -> spec_model_id s = id /\ spec_valid s = true.

Lemma add_all_wf specs : registry_wf (mkRegistry (add_all specs)).
Proof.
  intros id s. simpl. rewrite add_all_lookup. intros (_ & Hv & Hid)%first_valid_spec. auto.
Qed.

Lemma build_some b r : (Builder.build b).2 = Some r -> r = mkRegistry b.
Proof. unfold Builder.build. case_bool_decide; [done|]. by intros [= <-]. Qed.

Section models.
Context `{HashOrder}.

Lemma models_elem e r s :
  s ∈ Registry.models e r <-> exists id, models_ r !! id = Some s.
Proof.
  unfold Registry.models. rewrite std_sort_elem, list_elem_of_fmap. split.
  - intros ([id s'] & -> & Hin). exists id. by apply elem_of_hash_list in Hin.
  - intros [id Hs]. exists (id, s). split; [done|]. by apply elem_of_hash_list.
Qed.

Lemma models_wf_keys r : registry_wf r ->
  (spec_model_id <$> (map_to_list (models_ r)).*2) = (map_to_list (models_ r)).*1.
Proof.
  intros Hwf. rewrite <- list_fmap_compose. apply list_fmap_ext. intros i [id s] Hin. simpl.
  apply (Hwf id s). apply elem_of_map_to_list. by eapply list_elem_of_lookup_2.
Qed.

(** The registry is exactly what was added. For any sequence of
    descriptions given to the builder, [find] returns the first valid one with
    that identifier (later duplicates and invalid ones are refused) and
    [ModelNotFound] otherwise; [models()] lists each of them once, sorted by
    identifier, independently of the hash map's traversal order. *)
Theorem registry_contents specs r e e' :
  (Builder.build (add_all specs)).2 = Some r ->
  (forall id, Registry.find id r =
     match first_valid id specs with
     | Some s => (Status.success, Some s)
     | None => (Status.error ModelNotFound "model not found in registry", None)
     end) /\
  (forall s, s ∈ Registry.models e r <-> first_valid (spec_model_id s) specs = Some s) /\
  sorted_by Registry.spec_lt (Registry.models e r) /\
  NoDup (spec_model_id <$> Registry.models e r) /\
  Registry.models e r = Registry.models e' r.
Proof.
  intros ->%build_some. pose proof (add_all_wf specs) as Hwf.
  assert (Hnd : NoDup (spec_model_id <$> (map_to_list (add_all specs)).*2)).
  { pose proof (models_wf_keys _ Hwf) as Hk. simpl in Hk. rewrite Hk.
    apply NoDup_fst_map_to_list. }
  repeat split.
  - intros id. unfold Registry.find. simpl. rewrite add_all_lookup.
    by destruct (first_valid id specs).
  - rewrite models_elem. intros [id Hs]. destruct (Hwf id s Hs) as [<- _].
    simpl in Hs. by rewrite add_all_lookup in Hs.
  - intros Hs. apply models_elem. exists (spec_model_id s). simpl. by rewrite add_all_lookup.
  - apply std_sort_sorted, _.
  - unfold Registry.models. by rewrite std_sort_perm, hash_list_perm.
  - apply std_sort_perm_eq; [apply _| |by rewrite !hash_list_perm].
    intros a b Ha Hb Hab Hba. rewrite hash_list_perm in Ha, Hb.
    pose proof (str_ltb_total _ _ Hab Hba) as Heq.
    apply list_elem_of_lookup in Ha as [i Hi], Hb as [j Hj]. simpl in Hi, Hj.
    enough (i = j) by congruence. eapply (NoDup_lookup _ i j); [apply Hnd| |].
    + by rewrite list_lookup_fmap, Hi.
    + rewrite list_lookup_fmap, Hj. simpl. by rewrite Heq.
Qed.
End models.

Definition example_specs : list ModelSpec :=
  [mkSpec "b" 6 20; mkSpec "a" 5 10; mkSpec "b" 1 1; mkSpec "" 1 1].

Lemma registry_contents_witness :
  (Builder.build (add_all example_specs)).2 = Some (mkRegistry (add_all example_specs)) /\
  Registry.find "b" (mkRegistry (add_all example_specs)) =
    (Status.success, Some (mkSpec "b" 6 20)).
Proof.
  assert (H : (Builder.build (add_all example_specs)).2
              = Some (mkRegistry (add_all example_specs))) by reflexivity.
  split; [exact H|].
  rewrite (proj1 (@registry_contents gmap_order _ _ 0%nat 0%nat H)). reflexivity.
Defined.
