(* ===== verification/Resources.v ===== *)
(** * Memory accounting

    [include/airuntime/resource_manager.hpp] and [src/resource_manager.cpp]:
    a budget and the bytes reserved against it, in 64-bit arithmetic. *)

From S2P Require Import Prelude Status.

Module ResourceManager.

Record t := mk { budget_ : Z; used_ : Z }.

Definition new (memory_budget_bytes : Z) : t := mk memory_budget_bytes 0.

Definition budget (r : t) : Z := budget_ r.
Definition used (r : t) : Z := used_ r.
Definition available (r : t) : Z := budget_ r -! used_ r.

Definition can_reserve (bytes : Z) (r : t) : bool := bytes <=? budget_ r -! used_ r.

Definition reserve (bytes : Z) (r : t) : Status * t :=
  if (budget_ r -! used_ r) <? bytes
  then (Status.error InsufficientMemory "cannot reserve memory", r)
  else (Status.success, mk (budget_ r) (used_ r +! bytes)).

Definition release (bytes : Z) (r : t) : Status * t :=
  if used_ r <? bytes
  then (Status.error InternalError "over-release of memory", r)
  else (Status.success, mk (budget_ r) (used_ r -! bytes)).

End ResourceManager.

Import ResourceManager.

Definition resources_wf (r : ResourceManager.t) : Prop :=
  is_u64 (budget_ r) /\ 0 <= used_ r <= budget_ r.

Section resources.
Context (r : ResourceManager.t) (Hwf : resources_wf r).

Lemma available_exact : budget_ r -! used_ r = budget_ r - used_ r.
Proof. destruct Hwf as [? [??]]. by apply u64_sub_small. Qed.

Lemma reserve_spec bytes : 0 <= bytes ->
  reserve bytes r =
    if bytes <=? budget_ r - used_ r then (Status.success, mk (budget_ r) (used_ r + bytes))
    else (Status.error InsufficientMemory "cannot reserve memory", r).
Proof.
  intros Hb. unfold reserve. rewrite available_exact. destruct Hwf as [[??] [??]].
  zcases; try lia; [done|]. by rewrite u64_add_small by lia.
Qed.

Lemma release_spec bytes : 0 <= bytes ->
  release bytes r =
    if bytes <=? used_ r then (Status.success, mk (budget_ r) (used_ r - bytes))
    else (Status.error InternalError "over-release of memory", r).
Proof.
  intros Hb. unfold release. destruct Hwf as [[??] [??]].
  zcases; try lia; [done|]. rewrite u64_sub_small; [done|lia..|split; lia].
Qed.

Lemma can_reserve_spec bytes : can_reserve bytes r = (bytes <=? budget_ r - used_ r).
Proof. unfold can_reserve. by rewrite available_exact. Qed.
End resources.

(** ** Sequences of reservations *)

Inductive resource_op := Reserve (bytes : Z) | Release (bytes : Z).

Definition op_bytes (o : resource_op) : Z := match o with Reserve b | Release b => b end.

Definition resource_step (o : resource_op) (r : ResourceManager.t) : Status * ResourceManager.t :=
  match o with Reserve b => reserve b r | Release b => release b r end.

(** The net number of bytes granted by the successful calls of a sequence. *)
Fixpoint granted (os : list resource_op) (r : ResourceManager.t) : Z * ResourceManager.t :=
  match os with
  | [] => (0, r)
  | o :: os =>
      let '(s, r1) := resource_step o r in
      let '(g, r2) := granted os r1 in
      ((if Status.ok s then match o with Reserve b => b | Release b => - b end else 0) + g, r2)
  end.

Lemma resource_step_wf o r :
  resources_wf r -> 0 <= op_bytes o ->
  let '(s, r1) := resource_step o r in
  resources_wf r1 /\ budget_ r1 = budget_ r /\
  used_ r1 = used_ r + (if Status.ok s then match o with Reserve b => b | Release b => - b end else 0).
Proof.
  intros Hwf Hb. destruct o as [b|b]; simpl in *.
  - rewrite reserve_spec by done. destruct (Z.leb_spec b (budget_ r - used_ r)); simpl.
    + destruct Hwf as [? [??]]. unfold resources_wf. simpl. repeat split; try apply H0; lia.
    + split; [done|]. split; [done|lia].
  - rewrite release_spec by done. destruct (Z.leb_spec b (used_ r)); simpl.
    + destruct Hwf as [? [??]]. unfold resources_wf. simpl. repeat split; try apply H0; lia.
    + split; [done|]. split; [done|lia].
Qed.

(** Reservations stay within the budget and are exact. For any sequence of
    reserve and release calls on a manager with a 64-bit budget, the bytes in
    use are the bytes granted minus the bytes returned by the calls that
    succeeded, they never exceed the budget, and no 64-bit subtraction or
    addition wraps; a reservation succeeds exactly when [can_reserve] says so. *)
Theorem reservations_exact budget os r g bytes :
  is_u64 budget -> Forall (fun o => 0 <= op_bytes o) os -> 0 <= bytes ->
  granted os (ResourceManager.new budget) = (g, r) ->
  budget_ r = budget /\ used_ r = g /\ 0 <= used_ r <= budget /\
  available r = budget - used_ r /\
  (Status.ok (reserve bytes r).1 = true <-> can_reserve bytes r = true).
Proof.
  intros Hb Hos Hbytes Hg.
  assert (Hgen : forall os r0 g r, Forall (fun o => 0 <= op_bytes o) os -> resources_wf r0 ->
    granted os r0 = (g, r) ->
    resources_wf r /\ budget_ r = budget_ r0 /\ used_ r = used_ r0 + g).
  { clear. induction os as [|o os IH]; intros r0 g r Hos Hwf; simpl.
    - intros [= <- <-]. split; [done|]. split; [done|lia].
    - inversion Hos as [|?? Ho Hos']; subst.
      pose proof (resource_step_wf o r0 Hwf Ho) as Hstep.
      destruct (resource_step o r0) as [s r1]. destruct Hstep as (Hwf1 & Hb1 & Hu1).
      destruct (granted os r1) as [g' r2] eqn:Hg'. intros [= <- <-].
      destruct (IH r1 g' r2 Hos' Hwf1 Hg') as (Hwf2 & Hb2 & Hu2).
      split; [done|]. split; [congruence|]. lia. }
  assert (resources_wf (ResourceManager.new budget)) as Hwf0.
  { split; simpl; [done|]. destruct Hb. lia. }
  destruct (Hgen os _ g r Hos Hwf0 Hg) as (Hwf & Hbud & Hused). simpl in *.
  assert (Hav := available_exact r Hwf).
  unfold available. rewrite can_reserve_spec, reserve_spec, Hav by done.
  destruct Hwf as [_ ?]. rewrite Hbud in *. repeat split; try lia.
  - destruct (bytes <=? budget - used_ r); simpl; done.
  - by intros ->.
Qed.

Lemma reservations_exact_witness :
  let os := [Reserve 6; Reserve 5; Release 2; Release 9] in
  granted os (ResourceManager.new 10) = (4, mk 10 4) /\
  used_ (mk 10 4) = 4 /\ available (mk 10 4) = 10 - 4.
Proof.
  intros os. assert (H : granted os (ResourceManager.new 10) = (4, mk 10 4)) by reflexivity.
  destruct (reservations_exact 10 os (mk 10 4) 4 7) as (_ & Hu & _ & Ha & _).
  - vm_compute. split; [discriminate|reflexivity].
  - repeat constructor; vm_compute; discriminate.
  - vm_compute. discriminate.
  - exact H.
  - split; [exact H|]. split; [exact Hu|exact Ha].
Defined.
