(* ===== verification/Eviction.v ===== *)
(** * Eviction policies

    [include/airuntime/eviction_policy.hpp] and [src/eviction_policy.cpp]: the
    policies that order the resident models of a worker for eviction. *)

From S2P Require Import Prelude Status.

Record EvictionCandidate := mkCandidate {
  c_model_id : string;
  c_memory_bytes : Z;
  c_last_used : Z;
  c_load_cost : Z;
  c_use_count : Z
}.

(** [IEvictionPolicy::order_victims]. *)
Definition IEvictionPolicy : Type := list EvictionCandidate -> list EvictionCandidate.

(** The comparator of [LruEvictionPolicy]. *)
Definition lru_lt (a b : EvictionCandidate) : bool :=
  if negb (c_last_used a =? c_last_used b) then c_last_used a <? c_last_used b
  else str_ltb (c_model_id a) (c_model_id b).

Definition LruEvictionPolicy : IEvictionPolicy := std_sort lru_lt.

(** The comparator of [CostAwareEvictionPolicy]. *)
Definition cost_aware_lt (a b : EvictionCandidate) : bool :=
  if negb (c_load_cost a =? c_load_cost b) then c_load_cost a <? c_load_cost b
  else if negb (c_use_count a =? c_use_count b) then c_use_count a <? c_use_count b
  else if negb (c_memory_bytes a =? c_memory_bytes b) then c_memory_bytes b <? c_memory_bytes a
  else if negb (c_last_used a =? c_last_used b) then c_last_used a <? c_last_used b
  else str_ltb (c_model_id a) (c_model_id b).

Definition CostAwareEvictionPolicy : IEvictionPolicy := std_sort cost_aware_lt.

(** What the model manager relies on: a policy picks among the candidates, and
    it picks someone whenever there is one. *)
Class PolicyLaws (p : IEvictionPolicy) : Prop := {
  policy_sound cs c : c ∈ p cs -> c ∈ cs;
  policy_complete cs : p cs = [] -> cs = []
}.

#[export] Instance lru_lt_strict_weak : StrictWeak lru_lt.
Proof. change (StrictWeak (lex_z c_last_used (by_string c_model_id))). apply _. Qed.

Lemma cost_aware_lt_lex a b :
  cost_aware_lt a b =
  lex_z c_load_cost (lex_z c_use_count (lex_z (fun c => - c_memory_bytes c)
    (lex_z c_last_used (by_string c_model_id)))) a b.
Proof.
  unfold cost_aware_lt, lex_z. destruct (negb (c_load_cost a =? c_load_cost b)); [done|].
  destruct (negb (c_use_count a =? c_use_count b)); [done|].
  zcases; try lia; done.
Qed.

#[export] Instance cost_aware_lt_strict_weak : StrictWeak cost_aware_lt.
Proof.
  split; intros a; [|intros b c..]; rewrite !cost_aware_lt_lex;
    [apply sw_irrefl|apply sw_trans|apply sw_ntrans].
Qed.

Section sorting_policies.
Context (lt : EvictionCandidate -> EvictionCandidate -> bool) `{!StrictWeak lt}.

Lemma sort_policy_laws : PolicyLaws (std_sort lt).
Proof.
  split; [|apply (std_sort_nil_inv lt)]. intros cs c Hc. by apply std_sort_elem in Hc.
Qed.
End sorting_policies.

#[export] Instance lru_laws : PolicyLaws LruEvictionPolicy := sort_policy_laws _.
#[export] Instance cost_aware_laws : PolicyLaws CostAwareEvictionPolicy := sort_policy_laws _.

(** Candidates that come from one map have distinct identifiers. *)
Definition distinct_ids (cs : list EvictionCandidate) : Prop := NoDup (c_model_id <$> cs).

Lemma distinct_ids_eq cs a b :
  distinct_ids cs -> a ∈ cs -> b ∈ cs -> c_model_id a = c_model_id b -> a = b.
Proof.
  intros Hnd [i Hi]%list_elem_of_lookup [j Hj]%list_elem_of_lookup Heq.
  enough (i = j) by congruence. eapply (NoDup_lookup _ i j); [exact Hnd| |].
  - by rewrite list_lookup_fmap, Hi.
  - rewrite list_lookup_fmap, Hj. simpl. by rewrite Heq.
Qed.

Lemma lru_lt_incomparable a b :
  lru_lt a b = false -> lru_lt b a = false -> c_model_id a = c_model_id b.
Proof.
  change lru_lt with (lex_z c_last_used (by_string c_model_id)).
  intros Hab Hba. destruct (lex_z_incomparable _ _ _ _ Hab Hba). by apply str_ltb_total.
Qed.

Lemma cost_aware_lt_incomparable a b :
  cost_aware_lt a b = false -> cost_aware_lt b a = false -> c_model_id a = c_model_id b.
Proof.
  rewrite !cost_aware_lt_lex.
  do 4 (intros Hab Hba; destruct (lex_z_incomparable _ _ _ _ Hab Hba) as [H1 H2];
        revert H1 H2; clear Hab Hba).
  apply str_ltb_total.
Qed.

(** [b] is to be evicted no earlier than [a], by the documented criteria. *)
Definition lru_before (a b : EvictionCandidate) : Prop :=
  c_last_used a < c_last_used b \/
  (c_last_used a = c_last_used b /\ str_ltb (c_model_id b) (c_model_id a) = false).

Definition cost_before (a b : EvictionCandidate) : Prop :=
  c_load_cost a < c_load_cost b \/ (c_load_cost a = c_load_cost b /\
  (c_use_count a < c_use_count b \/ (c_use_count a = c_use_count b /\
  (c_memory_bytes b < c_memory_bytes a \/ (c_memory_bytes a = c_memory_bytes b /\
  lru_before a b))))).

Lemma lru_before_lt a b : lru_lt b a = false -> lru_before a b.
Proof. exact (lex_z_false c_last_used (by_string c_model_id) a b). Qed.

Lemma cost_before_lt a b : cost_aware_lt b a = false -> cost_before a b.
Proof.
  rewrite cost_aware_lt_lex. intros H. unfold cost_before.
  apply lex_z_false in H as [?|[? H]]; [by left|right; split; [done|]].
  apply lex_z_false in H as [?|[? H]]; [by left|right; split; [done|]].
  apply lex_z_false in H as [?|[? H]]; [left; lia|right; split; [lia|]].
  by apply lru_before_lt.
Qed.

(** The LRU policy. Whatever order the hash map yields the candidates in,
    the victims are all candidates, ordered by time of last use and then by
    identifier; the comparator is the strict weak order [std::sort] requires,
    and the result depends only on the set of candidates. *)
Theorem lru_orders_by_recency cs cs' :
  distinct_ids cs -> cs' ≡ₚ cs ->
  LruEvictionPolicy cs ≡ₚ cs /\
  StronglySorted lru_before (LruEvictionPolicy cs) /\
  LruEvictionPolicy cs' = LruEvictionPolicy cs.
Proof.
  intros Hnd Hp. split; [apply std_sort_perm|split].
  - eapply StronglySorted_weaken; [|apply (std_sort_sorted lru_lt)].
    intros a b Hab. by apply lru_before_lt.
  - apply std_sort_perm_eq; [apply _| |done].
    intros a b Ha Hb Hab Hba. by eapply distinct_ids_eq; [| | |apply lru_lt_incomparable].
Qed.

Definition two_candidates : list EvictionCandidate :=
  [mkCandidate "b" 5 9 1 1; mkCandidate "a" 7 3 4 2].

Lemma lru_orders_by_recency_witness :
  distinct_ids two_candidates /\ reverse two_candidates ≡ₚ two_candidates /\
  LruEvictionPolicy (reverse two_candidates) = LruEvictionPolicy two_candidates.
Proof.
  assert (H1 : distinct_ids two_candidates) by (apply (bool_decide_unpack _); vm_compute; exact I).
  assert (H2 : reverse two_candidates ≡ₚ two_candidates) by apply reverse_Permutation.
  split; [exact H1|]. split; [exact H2|]. apply (lru_orders_by_recency _ _ H1 H2).
Defined.

(** The cost-aware policy. Victims are ordered by load cost, then use
    count, then larger memory first, then time of last use, then identifier;
    the comparator is a strict weak order and the result depends only on the
    set of candidates. *)
Theorem cost_aware_orders_by_cost cs cs' :
  distinct_ids cs -> cs' ≡ₚ cs ->
  CostAwareEvictionPolicy cs ≡ₚ cs /\
  StronglySorted cost_before (CostAwareEvictionPolicy cs) /\
  CostAwareEvictionPolicy cs' = CostAwareEvictionPolicy cs.
Proof.
  intros Hnd Hp. split; [apply std_sort_perm|split].
  - eapply StronglySorted_weaken; [|apply (std_sort_sorted cost_aware_lt)].
    intros a b Hab. by apply cost_before_lt.
  - apply std_sort_perm_eq; [apply _| |done].
    intros a b Ha Hb Hab Hba. by eapply distinct_ids_eq; [| | |apply cost_aware_lt_incomparable].
Qed.

Lemma cost_aware_orders_by_cost_witness :
  distinct_ids two_candidates /\ reverse two_candidates ≡ₚ two_candidates /\
  CostAwareEvictionPolicy (reverse two_candidates) = CostAwareEvictionPolicy two_candidates.
Proof.
  assert (H1 : distinct_ids two_candidates) by (apply (bool_decide_unpack _); vm_compute; exact I).
  assert (H2 : reverse two_candidates ≡ₚ two_candidates) by apply reverse_Permutation.
  split; [exact H1|]. split; [exact H2|]. apply (cost_aware_orders_by_cost _ _ H1 H2).
Defined.
