(* ===== verification/Backends.v ===== *)
(** * Model backends

    [include/airuntime/backend.hpp]: the interface a worker and its model
    manager see, as a class of operations with the laws they rely on; and
    [src/synthetic_backend.cpp], the deterministic backend, which implements
    it. A backend call may also throw, which is the left of its result. *)

From S2P Require Import Prelude Status Requests World.
Import InferenceRequest.

(** A batch is an ordered list of request pointers; backends read only the
    constant fields of a request. *)
Definition batch_view : Type := list (option InferenceRequest.t).

Class IModelBackend (B : Type) := {
  load : ModelSpec -> B -> (exn + Status) * B;
  unload : string -> B -> (exn + Status) * B;
  is_loaded : string -> B -> bool;
  infer_batch : batch_view -> B -> (exn + list InferenceResult) * B
}.

(** What the callers rely on. *)
Class BackendLaws (B : Type) `{IModelBackend B} : Prop := {
  load_ok spec b s b' :
    load spec b = (inr s, b') -> Status.ok s = true -> is_loaded (spec_model_id spec) b' = true;
  load_frame spec b out b' id :
    load spec b = (out, b') -> id <> spec_model_id spec -> is_loaded id b' = is_loaded id b;
  unload_ok id b s b' :
    unload id b = (inr s, b') -> Status.ok s = true -> is_loaded id b' = false;
  unload_failed id b s b' :
    unload id b = (inr s, b') -> Status.ok s = false -> is_loaded id b' = is_loaded id b;
  unload_frame id b out b' id' :
    unload id b = (out, b') -> id' <> id -> is_loaded id' b' = is_loaded id' b;
  infer_frame reqs b out b' id :
    infer_batch reqs b = (out, b') -> is_loaded id b' = is_loaded id b;
  infer_cardinality reqs b rs b' :
    infer_batch reqs b = (inr rs, b') -> length rs = length reqs
}.

(** ** The synthetic backend *)

(** Microseconds are a signed 64-bit count. *)
Definition i64 (z : Z) : Z := (z + 9223372036854775808) mod two64 - 9223372036854775808.

Lemma i64_small z : - 9223372036854775808 <= z < 9223372036854775808 -> i64 z = z.
Proof. intros H. unfold i64, two64. rewrite Z.mod_small by lia. lia. Qed.

Module SyntheticModelBackend.

Record SyntheticModelConfig := mkConfig {
  load_latency : Z;
  prefill_latency : Z;
  per_token_latency : Z;
  fail_load : bool;
  fail_infer : bool
}.

Record SyntheticBackendMetrics := mkMetrics {
  load_count : Z;
  inference_count : Z;
  batch_inference_count : Z;
  last_batch_size : Z;
  last_simulated_load_cost : Z;
  total_simulated_load_cost : Z;
  last_simulated_inference_cost : Z;
  total_simulated_inference_cost : Z;
  last_simulated_batch_cost : Z;
  total_simulated_batch_cost : Z
}.

Record ModelEntry := mkEntry { config : SyntheticModelConfig; entry_state : ModelState }.

Record t := mk { models_ : gmap string ModelEntry; metrics_ : SyntheticBackendMetrics }.

Definition new : t := mk ∅ (mkMetrics 0 0 0 0 0 0 0 0 0 0).

Definition register_model (model_id : string) (c : SyntheticModelConfig) (b : t) : t :=
  mk (<[model_id := mkEntry c Unloaded]> (models_ b)) (metrics_ b).

Definition set_state (model_id : string) (e : ModelEntry) (s : ModelState) (b : t) : t :=
  mk (<[model_id := mkEntry (config e) s]> (models_ b)) (metrics_ b).

(** The metrics after a load attempt of latency [c]. *)
Definition count_load (c : Z) (m : SyntheticBackendMetrics) : SyntheticBackendMetrics :=
  mkMetrics (load_count m +! 1) (inference_count m) (batch_inference_count m) (last_batch_size m)
    c (i64 (total_simulated_load_cost m + c)) (last_simulated_inference_cost m)
    (total_simulated_inference_cost m) (last_simulated_batch_cost m)
    (total_simulated_batch_cost m).

Definition load (model : ModelSpec) (b : t) : Status * t :=
  match models_ b !! spec_model_id model with
  | None => (Status.error ModelNotFound "model profile not registered", b)
  | Some entry =>
      if bool_decide (entry_state entry = Resident) then (Status.success, b) else
      let b := mk (models_ b) (count_load (load_latency (config entry)) (metrics_ b)) in
      if fail_load (config entry)
      then (Status.error ModelLoadFailed "synthetic load failure",
            set_state (spec_model_id model) entry MFailed b)
      else (Status.success, set_state (spec_model_id model) entry Resident b)
  end.

Definition unload (model_id : string) (b : t) : Status * t :=
  match models_ b !! model_id with
  | None => (Status.error ModelNotFound "model profile not registered", b)
  | Some entry =>
      (Status.success,
       if bool_decide (entry_state entry = Resident) then set_state model_id entry Unloaded b
       else if bool_decide (entry_state entry = MFailed) then set_state model_id entry Unloaded b
       else b)
  end.

Definition model_state (model_id : string) (b : t) : ModelState :=
  match models_ b !! model_id with None => Unloaded | Some e => entry_state e end.

Definition is_loaded (model_id : string) (b : t) : bool :=
  match models_ b !! model_id with
  | None => false
  | Some e => bool_decide (entry_state e = Resident)
  end.

(** The same failure for every member of the batch. *)
Definition fail_all (reqs : batch_view) (c : ErrorCode) (msg : string) : list InferenceResult :=
  map (fun _ => InferenceResult.failure (Status.error c msg)) reqs.

(** The loop over the batch: [None] on a null or foreign member, otherwise
    the sum of the requested tokens, a [size_t]. *)
Fixpoint total_tokens (model_id : string) (reqs : batch_view) (acc : Z) : option Z :=
  match reqs with
  | [] => Some acc
  | None :: _ => None
  | Some r :: reqs =>
      if bool_decide (model_id_ r = model_id)
      then total_tokens model_id reqs (acc +! max_output_tokens_ r) else None
  end.

(** [prefill + per_token * total_tokens]: the product with a [size_t] and the
    sum are unsigned, the cost is converted back to signed microseconds. *)
Definition batch_cost (c : SyntheticModelConfig) (total : Z) : Z :=
  i64 (u64 (prefill_latency c + u64 (per_token_latency c * total))).

Definition count_batch (cost n : Z) (m : SyntheticBackendMetrics) : SyntheticBackendMetrics :=
  mkMetrics (load_count m) (inference_count m +! n) (batch_inference_count m +! 1) n
    (last_simulated_load_cost m) (total_simulated_load_cost m)
    cost (i64 (total_simulated_inference_cost m + cost))
    cost (i64 (total_simulated_batch_cost m + cost)).

Definition infer_one (c : SyntheticModelConfig) (r : option InferenceRequest.t) : InferenceResult :=
  if fail_infer c
  then InferenceResult.failure (Status.error InferenceFailed "synthetic inference failure")
  else match r with
       | Some r => InferenceResult.success
                     (mkOutput ("synthetic:" +:+ request_id_ r) (max_output_tokens_ r))
       | None => InferenceResult.failure (Status.error InternalError "null request in batch")
       end.

Definition infer_batch (reqs : batch_view) (b : t) : list InferenceResult * t :=
  match reqs with
  | [] => ([], b)
  | None :: _ => (fail_all reqs InternalError "null request in batch", b)
  | Some first :: _ =>
      match models_ b !! model_id_ first with
      | None => (fail_all reqs ModelNotFound "model profile not registered", b)
      | Some entry =>
          if negb (bool_decide (entry_state entry = Resident))
          then (fail_all reqs InferenceFailed "model is not resident", b)
          else match total_tokens (model_id_ first) reqs 0 with
          | None => (fail_all reqs InternalError "incompatible batch member", b)
          | Some total =>
              let cost := batch_cost (config entry) total in
              (map (infer_one (config entry)) reqs,
               mk (models_ b) (count_batch cost (Z.of_nat (length reqs)) (metrics_ b)))
          end
      end
  end.

Definition infer (r : InferenceRequest.t) (b : t) : InferenceResult * t :=
  let '(results, b') := infer_batch [Some r] b in
  match results with
  | [x] => (x, b')
  | _ => (InferenceResult.failure
            (Status.error InternalError "synthetic infer_batch cardinality error"), b')
  end.

End SyntheticModelBackend.

Module Synthetic := SyntheticModelBackend.

#[export] Instance synthetic_backend : IModelBackend Synthetic.t := {|
  load spec b := let '(s, b') := Synthetic.load spec b in (inr s, b');
  unload id b := let '(s, b') := Synthetic.unload id b in (inr s, b');
  is_loaded := Synthetic.is_loaded;
  infer_batch reqs b := let '(rs, b') := Synthetic.infer_batch reqs b in (inr rs, b')
|}.

(** ** Its laws *)

Lemma set_state_loaded id e s b id' :
  Synthetic.is_loaded id' (Synthetic.set_state id e s b) =
    if decide (id = id') then bool_decide (s = Resident) else Synthetic.is_loaded id' b.
Proof.
  unfold Synthetic.is_loaded. simpl. rewrite lookup_insert. by destruct (decide (id = id')).
Qed.

Lemma synthetic_infer_models reqs b :
  Synthetic.models_ (Synthetic.infer_batch reqs b).2 = Synthetic.models_ b.
Proof. unfold Synthetic.infer_batch. repeat (case_match; try done). Qed.

Lemma synthetic_cardinality reqs b :
  length (Synthetic.infer_batch reqs b).1 = length reqs.
Proof.
  unfold Synthetic.infer_batch, Synthetic.fail_all.
  repeat (case_match; simpl; try done); by rewrite ?length_map.
Qed.

#[export] Instance synthetic_laws : BackendLaws Synthetic.t.
Proof.
  split; simpl.
  - intros spec b s b'. unfold Synthetic.load.
    destruct (Synthetic.models_ b !! spec_model_id spec) as [e|] eqn:E; [|by intros [= <- <-]].
    case_bool_decide as Hr.
    { intros [= <- <-] _. unfold Synthetic.is_loaded. rewrite E. by apply bool_decide_true. }
    destruct (Synthetic.fail_load _); intros [= <- <-]; [done|]. intros _.
    rewrite set_state_loaded. by rewrite decide_True.
  - intros spec b out b' id. unfold Synthetic.load.
    destruct (Synthetic.models_ b !! spec_model_id spec) as [e|] eqn:E; [|by intros [= <- <-]].
    case_bool_decide; [by intros [= <- <-]|].
    destruct (Synthetic.fail_load _); intros [= <- <-] Hne;
      rewrite set_state_loaded, decide_False by done; done.
  - intros id b s b'. unfold Synthetic.unload.
    destruct (Synthetic.models_ b !! id) as [e|] eqn:E; [|by intros [= <- <-]].
    intros [= <- <-] _.
    case_bool_decide as H1; [|case_bool_decide as H2];
      rewrite ?set_state_loaded, ?decide_True by done; try done.
    unfold Synthetic.is_loaded. rewrite E. by apply bool_decide_false.
  - intros id b s b'. unfold Synthetic.unload.
    destruct (Synthetic.models_ b !! id); by intros [= <- <-].
  - intros id b out b' id'. unfold Synthetic.unload.
    destruct (Synthetic.models_ b !! id) as [e|] eqn:E; [|by intros [= <- <-]].
    intros [= <- <-] Hne. case_bool_decide; [|case_bool_decide]; [| |done];
      rewrite set_state_loaded, decide_False by done; done.
  - intros reqs b out b' id. pose proof (synthetic_infer_models reqs b) as Hm.
    destruct (Synthetic.infer_batch reqs b) as [rs b1]. intros [= <- <-]. simpl in Hm.
    unfold Synthetic.is_loaded. by rewrite Hm.
  - intros reqs b rs b'. pose proof (synthetic_cardinality reqs b) as Hc.
    destruct (Synthetic.infer_batch reqs b) as [rs1 b1]. by intros [= <- <-].
Qed.

Lemma total_tokens_exact m (rs : list InferenceRequest.t) acc :
  Forall (fun r => model_id_ r = m /\ 0 <= max_output_tokens_ r) rs -> 0 <= acc ->
  acc + sum_by max_output_tokens_ rs < two64 ->
  Synthetic.total_tokens m (Some <$> rs) acc = Some (acc + sum_by max_output_tokens_ rs).
Proof.
  intros Hrs. revert acc. induction Hrs as [|r rs [Hm Ht] Hrs IH]; intros acc Hacc Hlt; simpl in *.
  - by rewrite Z.add_0_r.
  - rewrite bool_decide_true by done.
    assert (0 <= sum_by max_output_tokens_ rs).
    { apply sum_by_nonneg. intros x Hx. by eapply Forall_forall in Hrs as [_ ?]. }
    rewrite u64_add_small by lia. rewrite IH by lia. f_equal. lia.
Qed.

Lemma batch_cost_exact c total :
  0 <= Synthetic.prefill_latency c -> 0 <= Synthetic.per_token_latency c -> 0 <= total ->
  Synthetic.prefill_latency c + Synthetic.per_token_latency c * total < 9223372036854775808 ->
  Synthetic.batch_cost c total =
    Synthetic.prefill_latency c + Synthetic.per_token_latency c * total.
Proof.
  intros Hp Hq Ht Hlt. unfold Synthetic.batch_cost.
  assert (0 <= Synthetic.per_token_latency c * total) by nia.
  rewrite (u64_small (_ * _)) by (unfold is_u64, two64; lia).
  rewrite u64_small by (unfold is_u64, two64; lia). apply i64_small. lia.
Qed.

(** The result the synthetic backend owes one request. *)
Definition synthetic_result (c : Synthetic.SyntheticModelConfig) (r : InferenceRequest.t)
  : InferenceResult :=
  if Synthetic.fail_infer c
  then InferenceResult.failure (Status.error InferenceFailed "synthetic inference failure")
  else InferenceResult.success
         (mkOutput ("synthetic:" +:+ request_id_ r) (max_output_tokens_ r)).

Lemma fail_all_not_ok reqs c msg x :
  c <> ENone -> x ∈ Synthetic.fail_all reqs c msg -> InferenceResult.ok x = false.
Proof.
  intros Hc (o & -> & _)%list_elem_of_fmap. by apply bool_decide_false.
Qed.

Lemma total_tokens_uniform m reqs acc total :
  Synthetic.total_tokens m reqs acc = Some total ->
  Forall (fun o => exists r, o = Some r /\ model_id_ r = m) reqs.
Proof.
  revert acc. induction reqs as [|[r|] reqs IH]; intros acc; simpl; [by constructor| |done].
  case_bool_decide; [|done]. intros Ht. constructor; eauto.
Qed.

Lemma synthetic_success_uniform reqs b x :
  x ∈ (Synthetic.infer_batch reqs b).1 -> InferenceResult.ok x = true ->
  exists m c, Forall (fun o => exists r, o = Some r /\ model_id_ r = m) reqs /\
              Synthetic.models_ b !! m = Some (Synthetic.mkEntry c Resident).
Proof.
  intros Hx Hok. unfold Synthetic.infer_batch in Hx.
  assert (Hno : forall c msg, c <> ENone -> x ∉ Synthetic.fail_all reqs c msg).
  { intros c msg Hc Hin%fail_all_not_ok; congruence. }
  destruct reqs as [|[r|] reqs]; [by apply elem_of_nil in Hx| |by apply Hno in Hx].
  destruct (Synthetic.models_ b !! model_id_ r) as [[c st]|] eqn:E; [|by apply Hno in Hx].
  simpl in Hx. case_bool_decide as Hst; simpl in Hx; [|by apply Hno in Hx].
  rewrite bool_decide_true in Hx by done.
  destruct (Synthetic.total_tokens (model_id_ r) reqs (0 +! max_output_tokens_ r)) as [total|] eqn:Ht;
    [|by apply Hno in Hx].
  subst st. exists (model_id_ r), c. split; [|done].
  constructor; [eauto|]. by eapply total_tokens_uniform.
Qed.

(** Synthetic batches. Every batch yields one result per member, and a
    success only if all members are requests for one resident model. Such a
    batch yields the result owed to each request, in order; it is charged one
    prefill plus the per-token cost of all requested tokens (when that fits a
    signed 64-bit count), and counts as one batch of that many inferences. *)
Theorem synthetic_infer_batch_spec b :
  (forall reqs, length (Synthetic.infer_batch reqs b).1 = length reqs) /\
  (forall reqs x, x ∈ (Synthetic.infer_batch reqs b).1 -> InferenceResult.ok x = true ->
     exists m c, Forall (fun o => exists r, o = Some r /\ model_id_ r = m) reqs /\
                 Synthetic.models_ b !! m = Some (Synthetic.mkEntry c Resident)) /\
  (forall m c (rs : list InferenceRequest.t),
     rs <> [] -> Forall (fun r => model_id_ r = m /\ 0 <= max_output_tokens_ r) rs ->
     Synthetic.models_ b !! m = Some (Synthetic.mkEntry c Resident) ->
     0 <= Synthetic.prefill_latency c -> 0 <= Synthetic.per_token_latency c ->
     let total := sum_by max_output_tokens_ rs in
     total < two64 ->
     Synthetic.prefill_latency c + Synthetic.per_token_latency c * total
       < 9223372036854775808 ->
     let '(results, b') := Synthetic.infer_batch (Some <$> rs) b in
     results = synthetic_result c <$> rs /\
     Synthetic.last_simulated_batch_cost (Synthetic.metrics_ b') =
       Synthetic.prefill_latency c + Synthetic.per_token_latency c * total /\
     Synthetic.last_batch_size (Synthetic.metrics_ b') = Z.of_nat (length rs) /\
     Synthetic.models_ b' = Synthetic.models_ b).
Proof.
  split; [intros; apply synthetic_cardinality|]. split; [intros; by eapply synthetic_success_uniform|].
  intros m c rs Hne Hrs Hm Hp Hq total Htot Hcost. destruct rs as [|r0 rs0]; [done|].
  assert (Hr0 : model_id_ r0 = m) by (by inversion Hrs as [|?? [??]]).
  assert (0 <= total).
  { apply sum_by_nonneg. intros x Hx. by eapply Forall_forall in Hrs as [_ ?]. }
  unfold Synthetic.infer_batch. cbn [fmap list_fmap]. rewrite Hr0, Hm. simpl negb.
  change (Some r0 :: (Some <$> rs0)) with (Some <$> (r0 :: rs0)).
  rewrite (total_tokens_exact m (r0 :: rs0) 0) by (done || lia).
  repeat split.
  - simpl. f_equal. by rewrite <- list_fmap_compose.
  - cbn [Synthetic.metrics_ Synthetic.count_batch Synthetic.last_simulated_batch_cost].
    rewrite Z.add_0_l. by apply batch_cost_exact.
  - cbn -[Z.of_nat fmap list_fmap]. by rewrite length_fmap.
Qed.

Definition two_requests : list InferenceRequest.t := [new "x" "m" "p" 3; new "y" "m" "q" 4].

Definition resident_backend : Synthetic.t :=
  (Synthetic.load (mkSpec "m" 1 1)
     (Synthetic.register_model "m" (Synthetic.mkConfig 10 5 1 false false) Synthetic.new)).2.

Lemma synthetic_infer_batch_spec_witness :
  Synthetic.models_ resident_backend !! "m" =
    Some (Synthetic.mkEntry (Synthetic.mkConfig 10 5 1 false false) Resident) /\
  (Synthetic.infer_batch (Some <$> two_requests) resident_backend).1 =
    [InferenceResult.success (mkOutput "synthetic:x" 3);
     InferenceResult.success (mkOutput "synthetic:y" 4)].
Proof.
  assert (H : Synthetic.models_ resident_backend !! "m" =
    Some (Synthetic.mkEntry (Synthetic.mkConfig 10 5 1 false false) Resident)) by reflexivity.
  split; [exact H|].
  pose proof (proj2 (proj2 (synthetic_infer_batch_spec resident_backend)) "m"
    (Synthetic.mkConfig 10 5 1 false false) two_requests) as T.
  destruct (Synthetic.infer_batch (Some <$> two_requests) resident_backend) as [results b'].
  simpl. destruct T as [-> _]; [discriminate| |exact H|..|reflexivity].
  all: vm_compute; try reflexivity; try discriminate.
  repeat constructor; vm_compute; discriminate.
Defined.
