(* ===== verification/Manager.v ===== *)
(** * The model manager

    [include/airuntime/model_manager.hpp] and [src/model_manager.cpp]: which
    models are resident on a worker, within its memory budget, with eviction.
    Only the worker's own thread calls the mutating operations, so they are
    state-passing functions; other threads only read under the lock. A backend
    call may throw, and the exception leaves the function where the code
    leaves it: that is the left of a result. *)

From S2P Require Import Prelude Status Requests World Registry Resources Eviction Backends.

Module ModelManager.

Record ResidencyMetrics := mkResidency {
  residency_hits : Z;
  residency_misses : Z;
  loads : Z;
  unloads : Z;
  evictions : Z;
  reloads : Z
}.

Record Entry := mkEntry {
  entry_state : ModelState;
  entry_memory : Z;
  last_used : Z;
  use_count_ : Z;
  previously_loaded : bool
}.

(** The entry [entries_[id]] default-constructs. *)
Definition default_entry : Entry := mkEntry Unloaded 0 0 0 false.

Definition entry_with_state (s : ModelState) (e : Entry) : Entry :=
  mkEntry s (entry_memory e) (last_used e) (use_count_ e) (previously_loaded e).

Section manager.
Context {B : Type}.

Record t := mk {
  registry_ : ModelRegistry;
  backend_ : B;
  resources_ : ResourceManager.t;
  eviction_policy_ : IEvictionPolicy;
  entries_ : gmap string Entry;
  touch_counter_ : Z;
  metrics_ : ResidencyMetrics
}.

(** The constructor throws on a null registry or policy. *)
Definition new (registry : option ModelRegistry) (backend : B) (memory_budget_bytes : Z)
    (policy : option IEvictionPolicy) : exn + t :=
  match registry, policy with
  | None, _ => inl (StdException "ModelManager requires a ModelRegistry")
  | _, None => inl (StdException "ModelManager requires an eviction policy")
  | Some r, Some p =>
      inr (mk r backend (ResourceManager.new memory_budget_bytes) p ∅ 0 (mkResidency 0 0 0 0 0 0))
  end.

Definition set_backend (b : B) (s : t) : t :=
  mk (registry_ s) b (resources_ s) (eviction_policy_ s) (entries_ s) (touch_counter_ s) (metrics_ s).
Definition set_resources (r : ResourceManager.t) (s : t) : t :=
  mk (registry_ s) (backend_ s) r (eviction_policy_ s) (entries_ s) (touch_counter_ s) (metrics_ s).
Definition set_entry (id : string) (e : Entry) (s : t) : t :=
  mk (registry_ s) (backend_ s) (resources_ s) (eviction_policy_ s) (<[id := e]> (entries_ s))
     (touch_counter_ s) (metrics_ s).
Definition set_touch (c : Z) (s : t) : t :=
  mk (registry_ s) (backend_ s) (resources_ s) (eviction_policy_ s) (entries_ s) c (metrics_ s).
Definition set_metrics (m : ResidencyMetrics) (s : t) : t :=
  mk (registry_ s) (backend_ s) (resources_ s) (eviction_policy_ s) (entries_ s) (touch_counter_ s) m.

Definition memory_budget_bytes (s : t) : Z := ResourceManager.budget (resources_ s).
Definition memory_used_bytes (s : t) : Z := ResourceManager.used (resources_ s).

Definition model_state (model_id : string) (s : t) : ModelState :=
  match entries_ s !! model_id with None => Unloaded | Some e => entry_state e end.

Definition use_count (model_id : string) (s : t) : Z :=
  match entries_ s !! model_id with None => 0 | Some e => use_count_ e end.

Definition is_resident (e : Entry) : bool := bool_decide (entry_state e = Resident).

Definition resident_model_ids `{HashOrder} (epoch : nat) (s : t) : list string :=
  std_sort str_ltb (filter (fun kv => is_resident kv.2) (hash_list epoch (entries_ s))).*1.

(** The eviction candidate of a resident entry; its load cost comes from the
    registry, 1 when the model is not registered. *)
Definition candidate_of (reg : ModelRegistry) (id : string) (e : Entry) : EvictionCandidate :=
  let cost := match Registry.find id reg with
              | (st, Some spec) => if Status.ok st then spec_load_cost spec else 1
              | (_, None) => 1
              end in
  mkCandidate id (entry_memory e) (last_used e) cost (use_count_ e).

Definition candidates `{HashOrder} (epoch : nat) (s : t) : list EvictionCandidate :=
  (fun kv => candidate_of (registry_ s) kv.1 kv.2)
    <$> filter (fun kv => is_resident kv.2) (hash_list epoch (entries_ s)).

Context `{IModelBackend B}.

Definition count_eviction (m : ResidencyMetrics) : ResidencyMetrics :=
  mkResidency (residency_hits m) (residency_misses m) (loads m)
    (unloads m +! 1) (evictions m +! 1) (reloads m).

Definition evict_one (victim : EvictionCandidate) (s : t) : (exn + Status) * t :=
  let id := c_model_id victim in
  let not_resident := (inr (Status.error InternalError "eviction candidate not resident"), s) in
  match entries_ s !! id with
  | None => not_resident
  | Some e =>
      if negb (is_resident e) then not_resident else
      let s := set_entry id (entry_with_state Evicting e) s in
      let '(out, b) := unload id (backend_ s) in
      let s := set_backend b s in
      match out with
      | inl ex => (inl ex, s)
      | inr unload_status =>
          match entries_ s !! id with
          | None => (inr (Status.error InternalError "missing entry after eviction"), s)
          | Some e =>
              if negb (Status.ok unload_status)
              then (inr unload_status, set_entry id (entry_with_state Resident e) s)
              else
                let s := set_entry id (entry_with_state Unloaded e) s in
                let '(release_status, r) :=
                  ResourceManager.release (c_memory_bytes victim) (resources_ s) in
                let s := set_resources r s in
                if negb (Status.ok release_status) then (inr release_status, s)
                else (inr Status.success, set_metrics (count_eviction (metrics_ s)) s)
          end
      end
  end.

(** The [while] loop of [free_memory_for]; [None] when the fuel runs out. *)
Fixpoint free_loop `{HashOrder} (fuel : nat) (epoch : nat) (needed_bytes : Z) (s : t)
  : option ((exn + Status) * t) :=
  if ResourceManager.can_reserve needed_bytes (resources_ s) then Some (inr Status.success, s)
  else match fuel with
  | O => None
  | S fuel =>
      match candidates epoch s with
      | [] => Some (inr (Status.error InsufficientMemory "no eviction candidates"), s)
      | cs =>
          match eviction_policy_ s cs with
          | [] => Some (inr (Status.error InsufficientMemory
                               "eviction policy returned no victims"), s)
          | victim :: _ =>
              match evict_one victim s with
              | (inl ex, s) => Some (inl ex, s)
              | (inr st, s) =>
                  if negb (Status.ok st) then Some (inr st, s)
                  else free_loop fuel (S epoch) needed_bytes s
              end
          end
      end
  end.

Definition resident_count (s : t) : nat := size (filter (fun kv => is_resident kv.2) (entries_ s)).

(** One round per resident model, and a last one that finds no candidate, is
    enough ([free_memory_terminates]). *)
Definition free_memory_for `{HashOrder} (epoch : nat) (needed_bytes : Z) (s : t)
  : (exn + Status) * t :=
  match free_loop (S (resident_count s)) epoch needed_bytes s with
  | Some out => out
  | None => (inl UnknownException, s)
  end.

Definition count_hit (m : ResidencyMetrics) : ResidencyMetrics :=
  mkResidency (residency_hits m +! 1) (residency_misses m) (loads m) (unloads m)
    (evictions m) (reloads m).
Definition count_miss (m : ResidencyMetrics) : ResidencyMetrics :=
  mkResidency (residency_hits m) (residency_misses m +! 1) (loads m) (unloads m)
    (evictions m) (reloads m).
Definition count_load (reload : bool) (m : ResidencyMetrics) : ResidencyMetrics :=
  mkResidency (residency_hits m) (residency_misses m) (loads m +! 1) (unloads m)
    (evictions m) (if reload then reloads m +! 1 else reloads m).

(** The end of [ensure_resident], once memory has been made available. *)
Definition load_model (id : string) (spec : ModelSpec) (s : t) : (exn + Status) * t :=
  let e := default default_entry (entries_ s !! id) in
  let reload := previously_loaded e in
  let s := set_entry id e s in
  let '(reserve_status, r) := ResourceManager.reserve (spec_memory_bytes spec) (resources_ s) in
  let s := set_resources r s in
  if negb (Status.ok reserve_status) then (inr reserve_status, s) else
  let s := set_entry id (mkEntry Loading (spec_memory_bytes spec) (last_used e)
                                 (use_count_ e) (previously_loaded e)) s in
  let '(out, b) := load spec (backend_ s) in
  let s := set_backend b s in
  match out with
  | inl ex => (inl ex, s)
  | inr load_status =>
      let e := default default_entry (entries_ s !! id) in
      if negb (Status.ok load_status) then
        let '(_, r) := ResourceManager.release (spec_memory_bytes spec) (resources_ s) in
        (inr load_status, set_entry id (entry_with_state MFailed e) (set_resources r s))
      else
        let touch := touch_counter_ s +! 1 in
        let e := mkEntry Resident (entry_memory e) touch (use_count_ e +! 1) true in
        (inr Status.success,
         set_metrics (count_load reload (metrics_ s)) (set_touch touch (set_entry id e s)))
  end.

(** [ensure_resident] after a miss. *)
Definition ensure_miss `{HashOrder} (epoch : nat) (id : string) (s : t) : (exn + Status) * t :=
  let s := set_metrics (count_miss (metrics_ s)) s in
  match Registry.find id (registry_ s) with
  | (find_status, None) => (inr find_status, s)
  | (find_status, Some spec) =>
      if negb (Status.ok find_status) then (inr find_status, s)
      else if ResourceManager.budget (resources_ s) <? spec_memory_bytes spec
      then (inr (Status.error InsufficientMemory "model larger than worker memory budget"), s)
      else match free_memory_for epoch (spec_memory_bytes spec) s with
           | (inl ex, s) => (inl ex, s)
           | (inr free_status, s) =>
               if negb (Status.ok free_status) then (inr free_status, s)
               else load_model id spec s
           end
  end.

Definition ensure_resident `{HashOrder} (epoch : nat) (id : string) (s : t) : (exn + Status) * t :=
  match entries_ s !! id with
  | Some e =>
      if is_resident e then
        let touch := touch_counter_ s +! 1 in
        let e := mkEntry Resident (entry_memory e) touch (use_count_ e +! 1)
                         (previously_loaded e) in
        (inr Status.success,
         set_metrics (count_hit (metrics_ s)) (set_touch touch (set_entry id e s)))
      else ensure_miss epoch id s
  | None => ensure_miss epoch id s
  end.

End manager.
Arguments t : clear implicits.
End ModelManager.

Import ModelManager.

(** ** The residency invariant *)

(** The bytes reserved on behalf of an entry. *)
Definition entry_bytes (e : Entry) : Z :=
  match entry_state e with
  | Loading | Resident | Evicting => entry_memory e
  | Unloaded | MFailed => 0
  end.

(** Between calls no entry is in transit. *)
Definition at_rest (e : Entry) : Prop :=
  entry_state e = Unloaded \/ entry_state e = Resident \/ entry_state e = MFailed.

Section invariant.
Context {B : Type} `{IModelBackend B}.

(** Residency is what the accounting, the registry and the backend say. *)
Record manager_wf (s : ModelManager.t B) : Prop := {
  wf_resources : resources_wf (resources_ s);
  wf_used : ResourceManager.used_ (resources_ s) = msum entry_bytes (entries_ s);
  wf_touch : 0 <= touch_counter_ s;
  wf_entries id e : entries_ s !! id = Some e ->
    at_rest e /\ 0 <= entry_memory e /\ 0 <= last_used e <= touch_counter_ s;
  wf_resident id e : entries_ s !! id = Some e -> entry_state e = Resident ->
    is_loaded id (backend_ s) = true /\
    exists spec, models_ (registry_ s) !! id = Some spec /\
                 entry_memory e = spec_memory_bytes spec
}.

(** Registered sizes and costs are unsigned 64-bit numbers. *)
Definition registry_u64 (r : ModelRegistry) : Prop :=
  forall id spec, models_ r !! id = Some spec ->
    spec_model_id spec = id /\ is_u64 (spec_memory_bytes spec).

Lemma entry_bytes_nonneg s id e :
  manager_wf s -> entries_ s !! id = Some e -> 0 <= entry_bytes e.
Proof.
  intros Hwf He. destruct (wf_entries s Hwf id e He) as (_ & ? & _).
  unfold entry_bytes. destruct (entry_state e); lia.
Qed.

Lemma resident_bytes_le_used s id e :
  manager_wf s -> entries_ s !! id = Some e -> entry_bytes e <= ResourceManager.used_ (resources_ s).
Proof.
  intros Hwf He. rewrite (wf_used s Hwf). apply (msum_lookup_le entry_bytes _ id e); [|done].
  intros. by eapply entry_bytes_nonneg.
Qed.

Lemma with_state_self e : entry_with_state (entry_state e) e = e.
Proof. by destruct e. Qed.

(** ** One eviction *)

(** The manager after [id] has been evicted. *)
Definition evicted (id : string) (e : Entry) (b : B) (s : ModelManager.t B) : ModelManager.t B :=
  mk (registry_ s) b
     (ResourceManager.mk (ResourceManager.budget_ (resources_ s))
        (ResourceManager.used_ (resources_ s) - entry_memory e))
     (eviction_policy_ s) (<[id := entry_with_state Unloaded e]> (entries_ s))
     (touch_counter_ s) (count_eviction (metrics_ s)).

Lemma evict_one_spec s victim e :
  manager_wf s -> entries_ s !! c_model_id victim = Some e -> entry_state e = Resident ->
  c_memory_bytes victim = entry_memory e ->
  let '(out, b) := unload (c_model_id victim) (backend_ s) in
  evict_one victim s =
    match out with
    | inl ex => (inl ex, set_backend b (set_entry (c_model_id victim) (entry_with_state Evicting e) s))
    | inr st => if Status.ok st then (inr Status.success, evicted (c_model_id victim) e b s)
                else (inr st, set_backend b s)
    end.
Proof.
  intros Hwf He Hres Hmem. unfold evict_one. rewrite He. unfold is_resident.
  rewrite bool_decide_true by done. simpl negb. cbn [backend_ set_entry].
  destruct (unload (c_model_id victim) (backend_ s)) as [[ex|st] b]; [done|].
  cbn -[ResourceManager.release]. rewrite lookup_insert_eq.
  destruct (Status.ok st); cbn -[ResourceManager.release].
  - destruct (wf_entries s Hwf _ _ He) as (_ & Hm & _).
    pose proof (resident_bytes_le_used s _ _ Hwf He) as Hle.
    unfold entry_bytes in Hle. rewrite Hres in Hle.
    rewrite release_spec by (apply Hwf || lia). rewrite Hmem.
    destruct (Z.leb_spec (entry_memory e) (ResourceManager.used_ (resources_ s))); [|lia].
    simpl. unfold evicted, set_metrics, set_resources, set_entry, set_backend. simpl.
    by rewrite insert_insert_eq.
  - unfold set_entry, set_backend. simpl. rewrite insert_insert_eq.
    replace (entry_with_state Resident (entry_with_state Evicting e)) with e
      by (destruct e; simpl in *; by rewrite Hres).
    by rewrite insert_id.
Qed.

Context `{!BackendLaws B}.

Lemma manager_wf_backend s b :
  manager_wf s ->
  (forall id e, entries_ s !! id = Some e -> entry_state e = Resident -> is_loaded id b = true) ->
  manager_wf (set_backend b s).
Proof.
  intros [H1 H2 H3 H4 H5] Hb. split; simpl; try done.
  intros id e He Hr. destruct (H5 id e He Hr) as [_ ?]. eauto.
Qed.

Lemma evicted_wf s id e b st :
  manager_wf s -> entries_ s !! id = Some e -> entry_state e = Resident ->
  unload id (backend_ s) = (inr st, b) -> manager_wf (evicted id e b s).
Proof.
  intros Hwf He Hr Hu. pose proof (resident_bytes_le_used s id e Hwf He) as Hle.
  destruct (wf_entries s Hwf id e He) as (_ & Hm & Ht).
  unfold entry_bytes in Hle. rewrite Hr in Hle. destruct (wf_resources s Hwf) as [Hb [Hu0 Hu1]].
  split; simpl.
  - split; simpl; [done|lia].
  - assert (Hbytes : entry_bytes e = entry_memory e) by (unfold entry_bytes; by rewrite Hr).
    rewrite msum_insert, He, (wf_used s Hwf). cbn [from_option].
    change (entry_bytes (entry_with_state Unloaded e)) with 0. lia.
  - apply (wf_touch s Hwf).
  - intros id' e' [[<- <-]|[Hne He']]%lookup_insert_Some.
    + simpl. split; [by left|]. simpl. lia.
    + by apply (wf_entries s Hwf id').
  - intros id' e' [[<- <-]|[Hne He']]%lookup_insert_Some Hr'; [done|].
    destruct (wf_resident s Hwf id' e' He' Hr') as [Hl Hs]. split; [|done].
    by rewrite (unload_frame _ _ _ _ _ Hu).
Qed.

Lemma unload_failed_wf s id b st :
  manager_wf s -> unload id (backend_ s) = (inr st, b) -> Status.ok st = false ->
  manager_wf (set_backend b s).
Proof.
  intros Hwf Hu Hst. apply manager_wf_backend; [done|]. intros id' e' He' Hr'.
  destruct (wf_resident s Hwf id' e' He' Hr') as [Hl _].
  destruct (decide (id' = id)) as [->|Hne].
  - by rewrite (unload_failed _ _ _ _ Hu Hst).
  - by rewrite (unload_frame _ _ _ _ _ Hu).
Qed.
End invariant.

(** ** Making room *)

Section freeing.
Context {B : Type} `{IModelBackend B} `{HashOrder}.
Implicit Types s : ModelManager.t B.

Lemma candidates_elem ep s c :
  c ∈ candidates ep s <->
  exists id e, entries_ s !! id = Some e /\ entry_state e = Resident /\
               c = candidate_of (registry_ s) id e.
Proof.
  unfold candidates. rewrite list_elem_of_fmap. split.
  - intros ([id e] & -> & [Hr Hin]%list_elem_of_filter). apply elem_of_hash_list in Hin.
    exists id, e. repeat split; try done. by apply bool_decide_unpack in Hr.
  - intros (id & e & He & Hr & ->). exists (id, e). split; [done|].
    apply list_elem_of_filter. split; [by apply bool_decide_pack|by apply elem_of_hash_list].
Qed.

Lemma candidates_distinct ep s : distinct_ids (candidates ep s).
Proof.
  unfold distinct_ids, candidates. rewrite <- list_fmap_compose.
  change (c_model_id ∘ (fun kv => candidate_of (registry_ s) kv.1 kv.2)) with (@fst string Entry).
  eapply sublist_NoDup; [apply (NoDup_hash_list ep (entries_ s))|].
  apply fmap_sublist, sublist_filter.
Qed.

Lemma resident_filter_insert (m : gmap string Entry) id e st :
  st <> Resident ->
  filter (fun kv => is_resident kv.2) (<[id := entry_with_state st e]> m) =
  delete id (filter (fun kv => is_resident kv.2) m).
Proof.
  intros Hst. rewrite <- map_filter_delete. apply map_filter_insert_False.
  simpl. unfold is_resident. simpl. rewrite bool_decide_false by done. tauto.
Qed.

Lemma evict_one_decreases victim s st s' :
  evict_one victim s = (inr st, s') -> Status.ok st = true ->
  (resident_count s' < resident_count s)%nat.
Proof.
  unfold evict_one. destruct (entries_ s !! c_model_id victim) as [e|] eqn:He;
    [|by intros [= <- <-]].
  destruct (is_resident e) eqn:Hr; simpl negb; [|by intros [= <- <-]].
  cbn [backend_ set_entry]. destruct (unload _ (backend_ s)) as [[ex|us] b]; [done|].
  cbn -[ResourceManager.release]. rewrite lookup_insert_eq.
  destruct (Status.ok us) eqn:Hus; cbn -[ResourceManager.release];
    [|intros [= <- <-]; congruence].
  destruct (ResourceManager.release _ _) as [rs r].
  destruct (Status.ok rs) eqn:Hrs; simpl; intros [= <- <-]; [|congruence]. intros _.
  unfold resident_count. simpl. rewrite insert_insert_eq.
  change (entry_with_state Unloaded (entry_with_state Evicting e))
    with (entry_with_state Unloaded e).
  rewrite resident_filter_insert by done.
  assert (filter (fun kv => is_resident kv.2) (entries_ s) !! c_model_id victim = Some e) as Hf.
  { apply map_lookup_filter_Some. split; [done|]. simpl. by rewrite Hr. }
  rewrite (map_size_delete_Some _ _ (ex_intro _ e Hf)).
  assert (size (filter (fun kv => is_resident kv.2) (entries_ s)) <> 0)%nat; [|lia].
  rewrite map_size_non_empty_iff. intros Hem. by rewrite Hem in Hf.
Qed.

(** With more fuel than resident models the loop ends, and more fuel changes
    nothing. *)
Lemma free_loop_enough fuel ep needed s :
  (resident_count s < fuel)%nat ->
  exists out, forall fuel', (fuel <= fuel')%nat -> free_loop fuel' ep needed s = Some out.
Proof.
  revert ep s. induction fuel as [|fuel IH]; intros ep s Hf; [lia|].
  assert (Hdone : forall out,
    (forall k, (fuel <= k)%nat -> free_loop (S k) ep needed s = Some out) ->
    exists out, forall fuel', (S fuel <= fuel')%nat -> free_loop fuel' ep needed s = Some out).
  { intros out Hk. exists out. intros [|k] ?; [lia|]. apply Hk. lia. }
  simpl in Hdone.
  destruct (ResourceManager.can_reserve needed (resources_ s)); [by eapply Hdone|].
  destruct (candidates ep s) as [|c cs]; [by eapply Hdone|].
  destruct (eviction_policy_ s (c :: cs)) as [|v vs]; [by eapply Hdone|].
  destruct (evict_one v s) as [[ex|st] s1] eqn:Hev; [by eapply Hdone|].
  destruct (Status.ok st) eqn:Hst; simpl in Hdone; [|by eapply Hdone].
  pose proof (evict_one_decreases v s st s1 Hev Hst).
  destruct (IH (S ep) s1) as [out Hout]; [lia|]. by apply (Hdone out).
Qed.

Context `{!BackendLaws B}.

(** What making room may change: residents may have been unloaded. *)
Record freed s s' : Prop := {
  fr_registry : registry_ s' = registry_ s;
  fr_policy : eviction_policy_ s' = eviction_policy_ s;
  fr_budget : ResourceManager.budget_ (resources_ s') = ResourceManager.budget_ (resources_ s);
  fr_touch : touch_counter_ s' = touch_counter_ s;
  fr_entries id : entries_ s' !! id = entries_ s !! id \/
    exists e, entries_ s !! id = Some e /\ entry_state e = Resident /\
              entries_ s' !! id = Some (entry_with_state Unloaded e)
}.

Lemma freed_refl s : freed s s.
Proof. split; auto. Qed.

Lemma freed_evicted id e b s :
  entries_ s !! id = Some e -> entry_state e = Resident -> freed s (evicted id e b s).
Proof.
  intros He Hr. split; simpl; try done. intros id'.
  destruct (decide (id = id')) as [<-|Hne].
  - right. exists e. by rewrite lookup_insert_eq.
  - left. by rewrite lookup_insert_ne.
Qed.

Lemma freed_trans s1 s2 s3 : freed s1 s2 -> freed s2 s3 -> freed s1 s3.
Proof.
  intros [A1 A2 A3 A4 A5] [B1 B2 B3 B4 B5]. split; try congruence. intros id.
  destruct (B5 id) as [->|(e & He & Hr & ->)]; [apply A5|].
  destruct (A5 id) as [Heq|(e' & He' & Hr' & Heq)].
  - right. exists e. rewrite <- Heq. auto.
  - rewrite Heq in He. injection He as <-. done.
Qed.

Lemma freed_backend s b : freed s (set_backend b s).
Proof. split; auto. Qed.

(** A victim chosen by a lawful policy is a resident entry. *)
Lemma victim_resident ep s v vs :
  PolicyLaws (eviction_policy_ s) -> eviction_policy_ s (candidates ep s) = v :: vs ->
  exists e, entries_ s !! c_model_id v = Some e /\ entry_state e = Resident /\
            c_memory_bytes v = entry_memory e.
Proof.
  intros Hp Hv. assert (v ∈ candidates ep s) as Hin by (apply policy_sound; rewrite Hv; left).
  apply candidates_elem in Hin as (id & e & He & Hr & ->). eauto.
Qed.

Lemma free_loop_spec fuel ep needed s out s' :
  manager_wf s -> PolicyLaws (eviction_policy_ s) ->
  free_loop fuel ep needed s = Some (inr out, s') ->
  manager_wf s' /\ freed s s' /\
  (Status.ok out = true -> ResourceManager.can_reserve needed (resources_ s') = true).
Proof.
  revert ep s. induction fuel as [|fuel IH]; intros ep s Hwf Hp; simpl;
    destruct (ResourceManager.can_reserve needed (resources_ s)) eqn:Hc;
    try done; try (by intros [= <- <-]; auto using freed_refl).
  assert (Hstop : forall st, Status.ok st = false ->
    Some ((inr st : exn + Status), s) = Some (inr out, s') -> manager_wf s' /\ freed s s' /\
    (Status.ok out = true -> ResourceManager.can_reserve needed (resources_ s') = true)).
  { intros st Hst [= <- <-]. split; [done|]. split; [apply freed_refl|congruence]. }
  destruct (candidates ep s) as [|c cs] eqn:Hcs; [by apply Hstop|].
  destruct (eviction_policy_ s (c :: cs)) as [|v vs] eqn:Hv; [by apply Hstop|].
  rewrite <- Hcs in Hv. destruct (victim_resident ep s v vs Hp Hv) as (e & He & Hr & Hm).
  pose proof (evict_one_spec s v e Hwf He Hr Hm) as Hspec.
  destruct (unload (c_model_id v) (backend_ s)) as [[ex|st] b] eqn:Hu; rewrite Hspec; [done|].
  destruct (Status.ok st) eqn:Hst; simpl negb; cbv iota.
  - intros Hloop. apply IH in Hloop as (Hwf' & Hfr & Hres); [|by eapply evicted_wf|done].
    split; [done|]. split; [|done]. eapply freed_trans; [by apply freed_evicted|done].
  - rewrite Hst. simpl. intros [= <- <-]. split; [by eapply unload_failed_wf|].
    split; [apply freed_backend|congruence].
Qed.

Lemma free_memory_spec ep needed s out s' :
  manager_wf s -> PolicyLaws (eviction_policy_ s) ->
  free_memory_for ep needed s = (inr out, s') ->
  manager_wf s' /\ freed s s' /\
  (Status.ok out = true -> ResourceManager.can_reserve needed (resources_ s') = true).
Proof.
  intros Hwf Hp. unfold free_memory_for.
  destruct (free_loop _ ep needed s) as [o|] eqn:Hl; [|done]. intros ->. by eapply free_loop_spec.
Qed.

(** Making room terminates. Whatever the eviction policy, the backend and
    the amount asked for, the eviction loop ends after at most one round per
    resident model: running it with more fuel than residents yields a result,
    and the same one for any larger fuel. *)
Theorem free_memory_terminates ep needed s :
  exists out, (forall fuel, (S (resident_count s) <= fuel)%nat ->
                 free_loop fuel ep needed s = Some out) /\
              free_memory_for ep needed s = out.
Proof.
  destruct (free_loop_enough (S (resident_count s)) ep needed s) as [out Hout]; [lia|].
  exists out. split; [done|]. unfold free_memory_for. by rewrite Hout by lia.
Qed.
End freeing.

(** ** Loading and [ensure_resident] *)

Section residency.
Context {B : Type} `{IModelBackend B} `{!BackendLaws B} `{HashOrder}.
Implicit Types s : ModelManager.t B.

(** Other entries are as before, or were resident and have been unloaded. *)
Definition others_kept (id : string) s s' : Prop :=
  forall id', id' <> id ->
    entries_ s' !! id' = entries_ s !! id' \/
    exists e, entries_ s !! id' = Some e /\ entry_state e = Resident /\
              entries_ s' !! id' = Some (entry_with_state Unloaded e).

Lemma at_rest_bytes e : at_rest e -> entry_state e <> Resident -> entry_bytes e = 0.
Proof. unfold entry_bytes. by intros [-> | [-> | ->]] ?. Qed.

(** Replacing the entry of [id] and moving its reservation keeps the
    invariant. *)
Lemma set_entry_wf s id e b used touch m :
  manager_wf s ->
  (forall id' e', id' <> id -> entries_ s !! id' = Some e' -> entry_state e' = Resident ->
     is_loaded id' b = true) ->
  at_rest e -> 0 <= entry_memory e -> 0 <= last_used e <= touch -> touch_counter_ s <= touch ->
  0 <= used <= ResourceManager.budget_ (resources_ s) ->
  used = ResourceManager.used_ (resources_ s) + entry_bytes e
         - from_option entry_bytes 0 (entries_ s !! id) ->
  (entry_state e = Resident ->
   is_loaded id b = true /\
   exists spec, models_ (registry_ s) !! id = Some spec /\ entry_memory e = spec_memory_bytes spec) ->
  manager_wf (mk (registry_ s) b (ResourceManager.mk (ResourceManager.budget_ (resources_ s)) used)
                 (eviction_policy_ s) (<[id := e]> (entries_ s)) touch m).
Proof.
  intros Hwf Hb Hrest Hmem Hlast Htouch Hused Heq Hres.
  destruct (wf_resources s Hwf) as [Hbud _]. split; simpl.
  - by split.
  - rewrite msum_insert, <- (wf_used s Hwf). done.
  - pose proof (wf_touch s Hwf). lia.
  - intros id' e' [[<- <-]|[Hne He']]%lookup_insert_Some; [done|].
    destruct (wf_entries s Hwf id' e' He') as (? & ? & ?). repeat split; try done; lia.
  - intros id' e' [[<- <-]|[Hne He']]%lookup_insert_Some Hr; [by apply Hres|].
    destruct (wf_resident s Hwf id' e' He' Hr) as [_ ?]. eauto.
Qed.

(** The whole of [load_model], once the reservation is known to fit. *)
Lemma load_model_spec s id spec :
  manager_wf s -> models_ (registry_ s) !! id = Some spec -> is_u64 (spec_memory_bytes spec) ->
  spec_model_id spec = id ->
  ResourceManager.can_reserve (spec_memory_bytes spec) (resources_ s) = true ->
  model_state id s <> Resident -> touch_counter_ s + 1 < two64 ->
  let e := default default_entry (entries_ s !! id) in
  let loading := mkEntry Loading (spec_memory_bytes spec) (last_used e) (use_count_ e)
                         (previously_loaded e) in
  let reserved := ResourceManager.mk (ResourceManager.budget_ (resources_ s))
                    (ResourceManager.used_ (resources_ s) + spec_memory_bytes spec) in
  let '(out, b) := load spec (backend_ s) in
  load_model id spec s =
    match out with
    | inl ex => (inl ex, set_backend b (set_resources reserved (set_entry id loading s)))
    | inr st =>
        if Status.ok st then
          (inr Status.success,
           mk (registry_ s) b reserved (eviction_policy_ s)
              (<[id := mkEntry Resident (spec_memory_bytes spec) (touch_counter_ s + 1)
                               (use_count_ e +! 1) true]> (entries_ s))
              (touch_counter_ s + 1) (count_load (previously_loaded e) (metrics_ s)))
        else
          (inr st, mk (registry_ s) b (resources_ s) (eviction_policy_ s)
                      (<[id := entry_with_state MFailed loading]> (entries_ s))
                      (touch_counter_ s) (metrics_ s))
    end.
Proof.
  intros Hwf Hspec [Hm0 Hm1] Hid Hcan Hst Ht e loading reserved. unfold load_model.
  fold e. cbn [resources_ set_entry].
  pose proof (wf_resources s Hwf) as Hres. rewrite can_reserve_spec in Hcan by done.
  rewrite reserve_spec, Hcan by done. cbn -[ResourceManager.release].
  destruct (load spec (backend_ s)) as [[ex|st] b]; cbn -[ResourceManager.release].
  { unfold set_backend, set_resources, set_entry. simpl. by rewrite insert_insert_eq. }
  rewrite lookup_insert_eq. simpl default. destruct (Status.ok st); cbn -[ResourceManager.release].
  - unfold set_metrics, set_touch, set_entry, set_backend, set_resources.
    simpl. pose proof (wf_touch s Hwf). by rewrite !insert_insert_eq, u64_add_small by lia.
  - destruct Hres as [Hbud Hused]. apply Z.leb_le in Hcan.
    rewrite release_spec by (done || (split; simpl; [done|lia])). simpl.
    destruct (Z.leb_spec (spec_memory_bytes spec)
                (ResourceManager.used_ (resources_ s) + spec_memory_bytes spec)); [|lia].
    unfold set_entry, set_resources. simpl. rewrite !insert_insert_eq.
    replace (ResourceManager.mk (ResourceManager.budget_ (resources_ s))
      (ResourceManager.used_ (resources_ s) + spec_memory_bytes spec - spec_memory_bytes spec))
      with (resources_ s); [done|].
    destruct (resources_ s) as [bud used]. simpl. f_equal. lia.
Qed.

Lemma load_model_wf s id spec st s' :
  manager_wf s -> models_ (registry_ s) !! id = Some spec -> is_u64 (spec_memory_bytes spec) ->
  spec_model_id spec = id ->
  ResourceManager.can_reserve (spec_memory_bytes spec) (resources_ s) = true ->
  model_state id s <> Resident -> touch_counter_ s + 1 < two64 ->
  load_model id spec s = (inr st, s') -> manager_wf s'.
Proof.
  intros Hwf Hspec Hu64 Hid Hcan Hst Ht.
  pose proof (load_model_spec s id spec Hwf Hspec Hu64 Hid Hcan Hst Ht) as Hl.
  assert (Hbytes : from_option entry_bytes 0 (entries_ s !! id) = 0).
  { unfold model_state in Hst. destruct (entries_ s !! id) as [e|] eqn:He; [|done]. simpl.
    apply at_rest_bytes; [apply (wf_entries s Hwf id e He)|done]. }
  assert (Hlast : 0 <= last_used (default default_entry (entries_ s !! id)) <= touch_counter_ s).
  { pose proof (wf_touch s Hwf). destruct (entries_ s !! id) as [e|] eqn:He; simpl; [|lia].
    apply (wf_entries s Hwf id e He). }
  destruct (wf_resources s Hwf) as [Hbud Hused]. rewrite can_reserve_spec in Hcan by done.
  apply Z.leb_le in Hcan. destruct Hu64 as [Hm0 Hm1].
  destruct (load spec (backend_ s)) as [[ex|st'] b] eqn:Hload; rewrite Hl; [done|].
  assert (Hframe : forall id' e', id' <> id -> entries_ s !! id' = Some e' ->
    entry_state e' = Resident -> is_loaded id' b = true).
  { intros id' e' Hne He' Hr'. rewrite (load_frame _ _ _ _ _ Hload) by congruence.
    by apply (wf_resident s Hwf id' e'). }
  destruct (Status.ok st') eqn:Hok; intros [= <- <-].
  - apply set_entry_wf; try done; simpl; try lia; [by right; left| |].
    + rewrite Hbytes. unfold entry_bytes. simpl. lia.
    + intros _. split; [|eauto]. rewrite <- Hid. by eapply load_ok.
  - destruct (resources_ s) as [bud used] eqn:Er. simpl in *.
    replace (ResourceManager.mk bud used)
      with (ResourceManager.mk (ResourceManager.budget_ (resources_ s)) used) by (by rewrite Er).
    apply set_entry_wf; try done; simpl; rewrite ?Er; simpl; try lia; [by right; right|].
    rewrite Hbytes. unfold entry_bytes. simpl. lia.
Qed.

Lemma set_metrics_wf s m : manager_wf s -> manager_wf (set_metrics m s).
Proof. by intros [H1 H2 H3 H4 H5]; split. Qed.

Definition hit_entry (e : Entry) (touch : Z) : Entry :=
  mkEntry Resident (entry_memory e) touch (use_count_ e +! 1) (previously_loaded e).

Lemma ensure_hit ep id s e :
  entries_ s !! id = Some e -> entry_state e = Resident ->
  0 <= touch_counter_ s -> touch_counter_ s + 1 < two64 ->
  ensure_resident ep id s =
    (inr Status.success,
     mk (registry_ s) (backend_ s) (resources_ s) (eviction_policy_ s)
        (<[id := hit_entry e (touch_counter_ s + 1)]> (entries_ s))
        (touch_counter_ s + 1) (count_hit (metrics_ s))).
Proof.
  intros He Hr H0' Ht. unfold ensure_resident, is_resident. rewrite He.
  rewrite bool_decide_true by done. rewrite u64_add_small by lia. done.
Qed.

Lemma ensure_not_resident ep id s :
  model_state id s <> Resident -> ensure_resident ep id s = ensure_miss ep id s.
Proof.
  unfold model_state, ensure_resident, is_resident. destruct (entries_ s !! id) as [e|]; [|done].
  intros Hr. by rewrite bool_decide_false.
Qed.

Lemma hit_wf s id e m :
  manager_wf s -> entries_ s !! id = Some e -> entry_state e = Resident ->
  touch_counter_ s + 1 < two64 ->
  manager_wf (mk (registry_ s) (backend_ s) (resources_ s) (eviction_policy_ s)
        (<[id := hit_entry e (touch_counter_ s + 1)]> (entries_ s)) (touch_counter_ s + 1) m).
Proof.
  intros Hwf He Hr Ht. pose proof (wf_touch s Hwf).
  destruct (wf_entries s Hwf id e He) as (_ & Hm & _).
  destruct (wf_resources s Hwf) as [_ Hused].
  destruct (resources_ s) as [bud used] eqn:Er. simpl in *.
  replace (ResourceManager.mk bud used)
    with (ResourceManager.mk (ResourceManager.budget_ (resources_ s)) used) by (by rewrite Er).
  apply set_entry_wf; try done; simpl; rewrite ?Er; simpl; try lia.
  - intros id' e' _ He' Hr'. by apply (wf_resident s Hwf id' e').
  - by right; left.
  - rewrite He. simpl. unfold entry_bytes. rewrite Hr. simpl. lia.
  - intros _. by apply (wf_resident s Hwf id e).
Qed.

Lemma freed_not_resident s s' id :
  freed s s' -> model_state id s <> Resident -> model_state id s' <> Resident.
Proof.
  intros Hfr. unfold model_state. destruct (fr_entries _ _ Hfr id) as [->|(e & He & Hr & ->)]; done.
Qed.

(** What a miss leads to: an early answer with nothing but the miss counted,
    a failed eviction, or the load in a manager with room for the model. *)
Inductive miss_case (ep : nat) (id : string) (s : ModelManager.t B)
    (out : (exn + Status) * ModelManager.t B) : Prop :=
  | miss_unknown :
      models_ (registry_ s) !! id = None ->
      out = (inr (Status.error ModelNotFound "model not found in registry"),
             set_metrics (count_miss (metrics_ s)) s) -> miss_case ep id s out
  | miss_too_large spec :
      models_ (registry_ s) !! id = Some spec ->
      ResourceManager.budget_ (resources_ s) < spec_memory_bytes spec ->
      out = (inr (Status.error InsufficientMemory "model larger than worker memory budget"),
             set_metrics (count_miss (metrics_ s)) s) -> miss_case ep id s out
  | miss_free_failed spec s1 r :
      models_ (registry_ s) !! id = Some spec ->
      spec_memory_bytes spec <= ResourceManager.budget_ (resources_ s) ->
      free_memory_for ep (spec_memory_bytes spec) (set_metrics (count_miss (metrics_ s)) s) = (r, s1) ->
      match r with inl _ => True | inr st => Status.ok st = false end ->
      out = (r, s1) -> miss_case ep id s out
  | miss_load spec s1 st :
      models_ (registry_ s) !! id = Some spec ->
      spec_memory_bytes spec <= ResourceManager.budget_ (resources_ s) ->
      free_memory_for ep (spec_memory_bytes spec) (set_metrics (count_miss (metrics_ s)) s)
        = (inr st, s1) -> Status.ok st = true ->
      out = load_model id spec s1 -> miss_case ep id s out.

Lemma ensure_miss_cases ep id s : miss_case ep id s (ensure_miss ep id s).
Proof.
  unfold ensure_miss, Registry.find. cbn [registry_ set_metrics resources_].
  destruct (models_ (registry_ s) !! id) as [spec|] eqn:Hs; [|by apply miss_unknown].
  cbn [Status.ok]. change (Status.ok Status.success) with true. cbn [negb].
  unfold ResourceManager.budget.
  destruct (Z.ltb_spec (ResourceManager.budget_ (resources_ s)) (spec_memory_bytes spec));
    [by eapply miss_too_large|].
  destruct (free_memory_for _ _ _) as [[ex|st] s1] eqn:Hf; [by eapply miss_free_failed|].
  destruct (Status.ok st) eqn:Hok; [by eapply miss_load|].
  by eapply miss_free_failed.
Qed.

Lemma ensure_resident_keeps ep id s st s' :
  manager_wf s -> PolicyLaws (eviction_policy_ s) -> registry_u64 (registry_ s) ->
  touch_counter_ s + 1 < two64 ->
  ensure_resident ep id s = (inr st, s') ->
  manager_wf s' /\ memory_budget_bytes s' = memory_budget_bytes s /\ registry_ s' = registry_ s.
Proof.
  intros Hwf Hp Hreg Ht Hrun.
  destruct (decide (model_state id s = Resident)) as [Hres|Hres].
  - unfold model_state in Hres. destruct (entries_ s !! id) as [e|] eqn:He; [|done].
    rewrite (ensure_hit ep id s e) in Hrun by (done || apply (wf_touch s Hwf)).
    injection Hrun as <- <-. split; [by apply hit_wf|done].
  - rewrite ensure_not_resident in Hrun by done.
    assert (Hwf0 := set_metrics_wf s (count_miss (metrics_ s)) Hwf).
    destruct (ensure_miss_cases ep id s) as
      [_ Heq|spec _ _ Heq|spec s1 r Hs _ Hf Hr Heq|spec s1 st1 Hs Hle Hf Hok Heq];
      rewrite Heq in Hrun; [by injection Hrun as <- <-..| |].
    + injection Hrun as -> <-. destruct (free_memory_spec _ _ _ _ _ Hwf0 Hp Hf) as (? & Hfr & _).
      split; [done|]. split; [apply (fr_budget _ _ Hfr)|apply (fr_registry _ _ Hfr)].
    + destruct (free_memory_spec _ _ _ _ _ Hwf0 Hp Hf) as (Hwf1 & Hfr & Hcan).
      destruct (Hreg id spec Hs) as [Hid Hu].
      pose proof (fr_registry _ _ Hfr) as Hfreg. pose proof (fr_touch _ _ Hfr) as Hft.
      pose proof (fr_budget _ _ Hfr) as Hfb. simpl in Hfreg, Hft, Hfb.
      pose proof (freed_not_resident _ _ id Hfr Hres) as Hres1.
      assert (Hs1 : models_ (registry_ s1) !! id = Some spec) by (by rewrite Hfreg).
      rewrite <- Hft in Ht.
      split; [by eapply (load_model_wf s1 id spec st s'); eauto|].
      pose proof (load_model_spec s1 id spec Hwf1 Hs1 Hu Hid (Hcan Hok) Hres1 Ht) as Hl.
      destruct (load spec (backend_ s1)) as [[ex|st'] b]; rewrite Hl in Hrun; [done|].
      destruct (Status.ok st'); injection Hrun as <- <-; simpl; unfold memory_budget_bytes;
        simpl; unfold ResourceManager.budget; simpl; by rewrite Hfb, Hfreg.
Qed.

(** C12: Residency stays within the budget and consistent. If the manager's
    invariant holds (the bytes in use are the bytes of the resident models and
    at most the budget; resident models are registered, with their registered
    size, and loaded in the backend; no entry is in transit), it holds again
    after every call of [ensure_resident] that returns, whatever its status;
    the budget, registry and policy are unchanged. *)
Theorem ensure_resident_invariant ep id s st s' :
  manager_wf s -> PolicyLaws (eviction_policy_ s) -> registry_u64 (registry_ s) ->
  touch_counter_ s + 1 < two64 ->
  ensure_resident ep id s = (inr st, s') ->
  manager_wf s' /\ memory_used_bytes s' <= memory_budget_bytes s' /\
  memory_budget_bytes s' = memory_budget_bytes s /\ registry_ s' = registry_ s.
Proof.
  intros Hwf Hp Hreg Ht Hrun.
  destruct (ensure_resident_keeps ep id s st s' Hwf Hp Hreg Ht Hrun) as (Hwf' & Hb & Hr).
  split; [done|]. split; [|done]. by destruct (wf_resources s' Hwf') as [_ [_ ?]].
Qed.

Lemma freed_same_entry s s' id :
  freed s s' -> model_state id s <> Resident -> entries_ s' !! id = entries_ s !! id.
Proof.
  intros Hfr Hr. destruct (fr_entries _ _ Hfr id) as [->|(e & He & Hre & _)]; [done|].
  unfold model_state in Hr. by rewrite He in Hr.
Qed.

(** The entry of [id] is resident, loaded, and the most recently used. *)
Definition freshly_used (id : string) s s' : Prop :=
  is_loaded id (backend_ s') = true /\ use_count id s' = use_count id s +! 1 /\
  exists e, entries_ s' !! id = Some e /\ entry_state e = Resident /\
    forall id2 e2, id2 <> id -> entries_ s' !! id2 = Some e2 -> last_used e2 < last_used e.

Lemma freshly_used_intro id e b r m s s0 :
  manager_wf s0 -> is_loaded id b = true -> entry_state e = Resident ->
  use_count_ e = use_count id s +! 1 -> last_used e = touch_counter_ s0 + 1 ->
  freshly_used id s (mk (registry_ s0) b r (eviction_policy_ s0) (<[id := e]> (entries_ s0))
                        (touch_counter_ s0 + 1) m).
Proof.
  intros Hwf Hl Hr Hu Ht. split; [done|]. split.
  - unfold use_count at 1. simpl. by rewrite lookup_insert_eq.
  - exists e. simpl. split; [by rewrite lookup_insert_eq|]. split; [done|].
    intros id2 e2 Hne. rewrite lookup_insert_ne by done. intros He2.
    destruct (wf_entries s0 Hwf id2 e2 He2) as (_ & _ & ?). lia.
Qed.


(** ** A model that fits is never refused for memory *)

(** The backend gives up a model it has loaded. *)
Definition unloads_loaded : Prop :=
  forall id b, is_loaded id b = true -> exists b', unload id b = (inr Status.success, b').

Lemma no_residents_no_use ep s :
  manager_wf s -> candidates ep s = [] -> ResourceManager.used_ (resources_ s) = 0.
Proof.
  intros Hwf Hc. rewrite (wf_used s Hwf). unfold msum.
  assert (Hall : forall kv, kv ∈ map_to_list (entries_ s) -> entry_bytes kv.2 = 0).
  { intros [id e] He%elem_of_map_to_list. simpl.
    apply at_rest_bytes; [by apply (wf_entries s Hwf id)|]. intros Hr.
    assert (candidate_of (registry_ s) id e ∈ candidates ep s) as Hin
      by (apply candidates_elem; eauto).
    rewrite Hc in Hin. by apply elem_of_nil in Hin. }
  induction (map_to_list (entries_ s)) as [|kv l IH]; simpl; [done|].
  rewrite Hall by left. rewrite IH; [lia|]. intros. apply Hall. by right.
Qed.

Lemma free_loop_succeeds fuel ep needed s :
  unloads_loaded -> manager_wf s -> PolicyLaws (eviction_policy_ s) ->
  needed <= ResourceManager.budget_ (resources_ s) -> (resident_count s < fuel)%nat ->
  exists s', free_loop fuel ep needed s = Some (inr Status.success, s').
Proof.
  intros Hun. revert ep s. induction fuel as [|fuel IH]; intros ep s Hwf Hp Hle Hf; [lia|]. simpl.
  destruct (ResourceManager.can_reserve needed (resources_ s)) eqn:Hc; [eauto|].
  destruct (candidates ep s) as [|c cs] eqn:Hcs.
  { exfalso. rewrite can_reserve_spec, (no_residents_no_use ep s Hwf Hcs) in Hc by apply Hwf.
    apply Z.leb_gt in Hc. lia. }
  destruct (eviction_policy_ s (c :: cs)) as [|v vs] eqn:Hv.
  { apply policy_complete in Hv. done. }
  rewrite <- Hcs in Hv. destruct (victim_resident ep s v vs Hp Hv) as (e & He & Hr & Hm).
  destruct (wf_resident s Hwf _ _ He Hr) as [Hl _].
  destruct (Hun _ _ Hl) as [b Hu].
  pose proof (evict_one_spec s v e Hwf He Hr Hm) as Hspec. rewrite Hu in Hspec. simpl in Hspec.
  rewrite Hspec. simpl. apply IH; [by eapply evicted_wf|done|done|].
  pose proof (evict_one_decreases v s _ _ Hspec eq_refl). lia.
Qed.

(** C21: A registered model that fits the budget is never refused for lack of
    memory. If the backend gives up loaded models when asked, then whatever is
    resident, [ensure_resident] frees enough memory and its outcome is the
    outcome of the backend's [load]. *)
Theorem ensure_resident_makes_room ep id s spec :
  unloads_loaded -> manager_wf s -> PolicyLaws (eviction_policy_ s) ->
  registry_u64 (registry_ s) -> touch_counter_ s + 1 < two64 ->
  models_ (registry_ s) !! id = Some spec -> spec_memory_bytes spec <= memory_budget_bytes s ->
  model_state id s <> Resident ->
  exists b, (ensure_resident ep id s).1 =
    match (load spec b).1 with
    | inl ex => inl ex
    | inr st => inr (if Status.ok st then Status.success else st)
    end.
Proof.
  intros Hun Hwf Hp Hreg Ht Hs Hle Hres. rewrite ensure_not_resident by done.
  assert (Hwf0 := set_metrics_wf s (count_miss (metrics_ s)) Hwf).
  set (s0 := set_metrics (count_miss (metrics_ s)) s) in *.
  destruct (free_loop_succeeds (S (resident_count s0)) ep (spec_memory_bytes spec) s0)
    as [s1 Hf]; [done..|lia|].
  assert (Hfree : free_memory_for ep (spec_memory_bytes spec) s0 = (inr Status.success, s1))
    by (unfold free_memory_for; by rewrite Hf).
  destruct (ensure_miss_cases ep id s) as
    [Hn _|spec' Hs' Hlt _|spec' s1' r Hs' _ Hf' Hr' _|spec' s1' st1 Hs' _ Hf' Hok Heq].
  - congruence.
  - unfold memory_budget_bytes, ResourceManager.budget in Hle. simplify_eq. lia.
  - simplify_eq. fold s0 in Hf'. rewrite Hfree in Hf'. by simplify_eq.
  - simplify_eq. fold s0 in Hf'. rewrite Hfree in Hf'. simplify_eq. rewrite Heq.
    destruct (free_memory_spec _ _ _ _ _ Hwf0 Hp Hfree) as (Hwf1 & Hfr & Hcan).
    destruct (Hreg id spec Hs) as [Hid Hu].
    pose proof (fr_registry _ _ Hfr) as Hfreg. pose proof (fr_touch _ _ Hfr) as Hft.
    simpl in Hfreg, Hft. pose proof (freed_not_resident _ _ id Hfr Hres) as Hres1.
    assert (Hs1 : models_ (registry_ s1') !! id = Some spec) by (by rewrite Hfreg).
    rewrite <- Hft in Ht. exists (backend_ s1').
    pose proof (load_model_spec s1' id spec Hwf1 Hs1 Hu Hid (Hcan eq_refl) Hres1 Ht) as Hl.
    destruct (load spec (backend_ s1')) as [[ex|st'] b]; rewrite Hl; simpl; [done|].
    by destruct (Status.ok st').
Qed.

(** An exception from the backend's [load] leaks the reservation. The
    bytes reserved for the model stay in use, and its entry is left [Loading],
    a state that is not an eviction candidate, so making room cannot give them
    back. *)
Theorem load_exception_leaks ep id s spec ex s' :
  manager_wf s -> PolicyLaws (eviction_policy_ s) -> registry_u64 (registry_ s) ->
  touch_counter_ s + 1 < two64 ->
  models_ (registry_ s) !! id = Some spec -> model_state id s <> Resident ->
  spec_memory_bytes spec <= memory_budget_bytes s ->
  ResourceManager.can_reserve (spec_memory_bytes spec) (resources_ s) = true ->
  (load spec (backend_ s)).1 = inl ex ->
  ensure_resident ep id s = (inl ex, s') ->
  memory_used_bytes s' = memory_used_bytes s + spec_memory_bytes spec /\
  model_state id s' = Loading /\
  forall ep', id ∉ c_model_id <$> candidates ep' s'.
Proof.
  intros Hwf Hp Hreg Ht Hs Hres Hle Hcan Hex Hrun. rewrite ensure_not_resident in Hrun by done.
  assert (Hwf0 := set_metrics_wf s (count_miss (metrics_ s)) Hwf).
  set (s0 := set_metrics (count_miss (metrics_ s)) s) in *.
  assert (Hfree : free_memory_for ep (spec_memory_bytes spec) s0 = (inr Status.success, s0)).
  { unfold free_memory_for. simpl. by rewrite Hcan. }
  destruct (Hreg id spec Hs) as [Hid Hu].
  pose proof (load_model_spec s0 id spec Hwf0 Hs Hu Hid Hcan Hres Ht) as Hl.
  change (backend_ s0) with (backend_ s) in Hl.
  destruct (load spec (backend_ s)) as [r b]. simpl in Hex. subst r.
  destruct (ensure_miss_cases ep id s) as
    [Hn _|spec' Hs' Hlt _|spec' s1' r Hs' _ Hf' Hr' _|spec' s1' st1 Hs' _ Hf' Hok Heq].
  - congruence.
  - unfold memory_budget_bytes, ResourceManager.budget in Hle. simplify_eq. lia.
  - simplify_eq. fold s0 in Hf'. rewrite Hfree in Hf'. by simplify_eq.
  - simplify_eq. fold s0 in Hf'. rewrite Hfree in Hf'. simplify_eq. rewrite Heq, Hl in Hrun.
    injection Hrun as <-. split; [done|]. unfold model_state. simpl. rewrite lookup_insert_eq.
    split; [done|]. intros ep' (c & Hc & Hin)%list_elem_of_fmap.
    apply candidates_elem in Hin as (id' & e' & He' & Hr' & Hcand). subst c. simpl in Hc, He'.
    rewrite <- Hc, lookup_insert_eq in He'. by simplify_eq.
Qed.
End residency.

(** ** The invariant holds initially, and the instances used as examples *)

Lemma new_manager_wf {B} `{IModelBackend B} reg (b : B) budget p s :
  is_u64 budget -> ModelManager.new (Some reg) b budget (Some p) = inr s -> manager_wf s.
Proof.
  intros Hb [= <-]. split; simpl; try done; try lia.
  split; simpl; [done|]. destruct Hb. lia.
Qed.

Lemma add_all_u64 specs :
  Forall (fun sp => is_u64 (spec_memory_bytes sp)) specs ->
  registry_u64 (mkRegistry (add_all specs)).
Proof.
  intros Hs id spec. simpl. rewrite add_all_lookup. intros (Hin & _ & Hid)%first_valid_spec.
  split; [done|]. by eapply Forall_forall in Hs.
Qed.

Lemma synthetic_unloads_loaded : unloads_loaded (B := Synthetic.t).
Proof.
  intros id b. simpl. unfold Synthetic.is_loaded, Synthetic.unload.
  destruct (Synthetic.models_ b !! id); [|done]. eauto.
Qed.

Definition demo_specs : list ModelSpec := [mkSpec "a" 6 20; mkSpec "b" 5 10].
Definition demo_registry : ModelRegistry := mkRegistry (add_all demo_specs).
Definition demo_backend : Synthetic.t :=
  let c := Synthetic.mkConfig 10 5 1 false false in
  Synthetic.register_model "b" c (Synthetic.register_model "a" c Synthetic.new).
Definition demo_manager : ModelManager.t Synthetic.t :=
  mk demo_registry demo_backend (ResourceManager.new 10) LruEvictionPolicy ∅ 0
     (mkResidency 0 0 0 0 0 0).

Lemma demo_manager_wf : manager_wf demo_manager.
Proof.
  apply (new_manager_wf demo_registry demo_backend 10 LruEvictionPolicy); [|done].
  by split.
Qed.

Lemma demo_registry_u64 : registry_u64 demo_registry.
Proof. apply add_all_u64. repeat constructor; by vm_compute. Qed.

(** After loading [a]. *)
Definition demo_manager_a : ModelManager.t Synthetic.t :=
  (@ensure_resident _ _ gmap_order 0 "a" demo_manager).2.

Lemma ensure_resident_invariant_witness :
  @ensure_resident _ _ gmap_order 0 "a" demo_manager = (inr Status.success, demo_manager_a) /\
  manager_wf demo_manager_a /\ memory_used_bytes demo_manager_a <= memory_budget_bytes demo_manager_a.
Proof.
  assert (H : @ensure_resident _ _ gmap_order 0 "a" demo_manager
              = (inr Status.success, demo_manager_a))
    by (apply injective_projections; [vm_compute|]; reflexivity).
  split; [exact H|].
  destruct (@ensure_resident_invariant _ _ _ gmap_order 0 "a" demo_manager Status.success
    demo_manager_a demo_manager_wf lru_laws demo_registry_u64 eq_refl H) as (H1 & H2 & _).
  split; [exact H1|exact H2].
Defined.


(** Loading [b] while [a] is resident forces an eviction. *)
Lemma demo_manager_a_wf : manager_wf demo_manager_a.
Proof.
  refine (proj1 (@ensure_resident_keeps _ _ _ gmap_order 0 "a" demo_manager Status.success
    demo_manager_a demo_manager_wf lru_laws demo_registry_u64 eq_refl _)).
  apply injective_projections; [vm_compute|]; reflexivity.
Qed.

Lemma ensure_resident_makes_room_witness :
  model_state "b" demo_manager_a <> Resident /\ memory_used_bytes demo_manager_a = 6 /\
  exists b, (@ensure_resident _ _ gmap_order 0 "b" demo_manager_a).1 =
    match (load (mkSpec "b" 5 10) b).1 with
    | inl ex => inl ex
    | inr st => inr (if Status.ok st then Status.success else st)
    end.
Proof.
  split; [vm_compute; discriminate|]. split; [vm_compute; reflexivity|].
  apply (@ensure_resident_makes_room _ _ _ gmap_order 0 "b" demo_manager_a (mkSpec "b" 5 10)).
  - exact synthetic_unloads_loaded.
  - exact demo_manager_a_wf.
  - exact lru_laws.
  - exact demo_registry_u64.
  - vm_compute. reflexivity.
  - vm_compute. reflexivity.
  - vm_compute. discriminate.
  - vm_compute. discriminate.
Defined.

(** A backend whose [load] always throws. *)
#[export] Instance throwing_backend : IModelBackend unit := {|
  load _ b := (inl (StdException "bad alloc"), b);
  unload _ b := (inr Status.success, b);
  is_loaded _ _ := false;
  infer_batch reqs b :=
    (inr (map (fun _ => InferenceResult.failure
                          (Status.error InferenceFailed "model is not loaded")) reqs), b)
|}.

#[export] Instance throwing_laws : BackendLaws unit.
Proof. split; simpl; try done. intros ???? [= <- <-]. by rewrite length_map. Qed.

Definition throwing_manager : ModelManager.t unit :=
  mk demo_registry tt (ResourceManager.new 10) LruEvictionPolicy ∅ 0 (mkResidency 0 0 0 0 0 0).

Lemma load_exception_leaks_witness :
  let s' := (@ensure_resident _ _ gmap_order 0 "a" throwing_manager).2 in
  @ensure_resident _ _ gmap_order 0 "a" throwing_manager = (inl (StdException "bad alloc"), s') /\
  memory_used_bytes s' = memory_used_bytes throwing_manager + 6.
Proof.
  intros s'.
  assert (H : @ensure_resident _ _ gmap_order 0 "a" throwing_manager
              = (inl (StdException "bad alloc"), s'))
    by (apply injective_projections; [vm_compute|]; reflexivity).
  split; [exact H|].
  apply (@load_exception_leaks _ _ gmap_order 0 "a" throwing_manager (mkSpec "a" 6 20)
           (StdException "bad alloc") s').
  - apply (new_manager_wf demo_registry tt 10 LruEvictionPolicy); [by split|reflexivity].
  - exact lru_laws.
  - exact demo_registry_u64.
  - vm_compute. reflexivity.
  - vm_compute. reflexivity.
  - vm_compute. discriminate.
  - vm_compute. discriminate.
  - vm_compute. reflexivity.
  - reflexivity.
  - exact H.
Defined.
