(* ===== verification/Router.v ===== *)
(** * Worker routing

    [include/airuntime/router.hpp], [include/airuntime/worker_snapshot.hpp] and
    [src/router.cpp]: the three policies that choose a worker for a model from
    snapshots of all workers. *)

From S2P Require Import Prelude Status.

Definition WorkerId : Set := Z.

Record WorkerSnapshot := mkWorkerSnapshot {
  worker_id : WorkerId;
  queue_depth : Z;
  queue_capacity : Z;
  active_count : Z;
  accepting : bool;
  memory_budget_bytes : Z;
  memory_used_bytes : Z;
  resident_model_ids : list string
}.

Record RoutingResult := mkRouting { routing_status : Status; routed_to : option WorkerId }.

Module RoutingResult.

Definition success (id : WorkerId) : RoutingResult := mkRouting Status.success (Some id).
Definition failure (s : Status) : RoutingResult := mkRouting s None.
Definition ok (r : RoutingResult) : bool :=
  Status.ok (routing_status r) && bool_decide (is_Some (routed_to r)).

End RoutingResult.

Definition is_m2_feasible (model : ModelSpec) (w : WorkerSnapshot) : bool :=
  accepting w && (spec_memory_bytes model <=? memory_budget_bytes w).

Definition no_workers : RoutingResult :=
  RoutingResult.failure (Status.error NoFeasibleWorker "no workers available").
Definition no_feasible : RoutingResult :=
  RoutingResult.failure (Status.error NoFeasibleWorker "no feasible worker for model").

(** [queue_depth + active_count], a [size_t]. *)
Definition load_of (w : WorkerSnapshot) : Z := queue_depth w +! active_count w.

Module RoundRobinRouter.

Record t := mk { next_index_ : Z }.

(** The scan from [offset] on, [k] iterations left. *)
Fixpoint scan (model : ModelSpec) (workers : list WorkerSnapshot) (next n offset : Z) (k : nat)
  : option (Z * WorkerSnapshot) :=
  match k with
  | O => None
  | S k =>
      let index := (next +! offset) mod n in
      match workers !! Z.to_nat index with
      | None => None
      | Some w =>
          if is_m2_feasible model w then Some (index, w)
          else scan model workers next n (offset + 1) k
      end
  end.

Definition select (model : ModelSpec) (workers : list WorkerSnapshot) (r : t)
  : RoutingResult * t :=
  match workers with
  | [] => (no_workers, r)
  | _ =>
      let n := Z.of_nat (length workers) in
      let next := if n <=? next_index_ r then 0 else next_index_ r in
      match scan model workers next n 0 (length workers) with
      | Some (index, w) => (RoutingResult.success (worker_id w), mk ((index +! 1) mod n))
      | None => (no_feasible, mk next)
      end
  end.

End RoundRobinRouter.

Module LeastLoadedRouter.

(** The loop: best identifier and best load so far. *)
Definition consider (model : ModelSpec) (best : option WorkerId * Z) (w : WorkerSnapshot)
  : option WorkerId * Z :=
  if negb (is_m2_feasible model w) then best else
  let '(best_id, best_load) := best in
  let load := load_of w in
  let better := match best_id with
                | None => true
                | Some id => (load <? best_load) || ((load =? best_load) && (worker_id w <? id))
                end in
  if better then (Some (worker_id w), load) else best.

Definition select (model : ModelSpec) (workers : list WorkerSnapshot) : RoutingResult :=
  match workers with
  | [] => no_workers
  | _ =>
      match (fold_left (consider model) workers (None, u64_max)).1 with
      | None => no_feasible
      | Some id => RoutingResult.success id
      end
  end.

End LeastLoadedRouter.

(** ** [std::binary_search], by halving as [std::lower_bound] does *)

Fixpoint lower_bound (fuel : nat) (l : list string) (first len : nat) (v : string) : nat :=
  match fuel with
  | O => first
  | S fuel =>
      if (len =? 0)%nat then first else
      let half := (len / 2)%nat in
      let mid := (first + half)%nat in
      match l !! mid with
      | None => first
      | Some x =>
          if str_ltb x v then lower_bound fuel l (S mid) (len - half - 1) v
          else lower_bound fuel l first half v
      end
  end.

Definition binary_search (l : list string) (v : string) : bool :=
  let i := lower_bound (S (length l)) l 0 (length l) v in
  match l !! i with None => false | Some x => negb (str_ltb v x) end.

Module ResidencyAwareRouter.

Record Metrics := mkMetrics {
  resident_selections : Z;
  no_eviction_load_selections : Z;
  eviction_required_selections : Z
}.

(** 0: the model is resident; 1: it fits the free memory; 2: neither. *)
Definition residency_tier (model : ModelSpec) (w : WorkerSnapshot) : Z :=
  if binary_search (resident_model_ids w) (spec_model_id model) then 0 else
  let free_bytes := if memory_used_bytes w <=? memory_budget_bytes w
                    then memory_budget_bytes w -! memory_used_bytes w else 0 in
  if spec_memory_bytes model <=? free_bytes then 1 else 2.

Definition consider (model : ModelSpec) (best : option WorkerId * Z * Z) (w : WorkerSnapshot)
  : option WorkerId * Z * Z :=
  if negb (is_m2_feasible model w) then best else
  let '(best_id, best_tier, best_load) := best in
  let tier := residency_tier model w in
  let load := load_of w in
  let better := match best_id with
                | None => true
                | Some id => (tier <? best_tier) || ((tier =? best_tier) && (load <? best_load)) ||
                    ((tier =? best_tier) && (load =? best_load) && (worker_id w <? id))
                end in
  if better then (Some (worker_id w), tier, load) else best.

Definition count_selection (tier : Z) (m : Metrics) : Metrics :=
  if tier =? 0
  then mkMetrics (resident_selections m +! 1) (no_eviction_load_selections m)
                 (eviction_required_selections m)
  else if tier =? 1
  then mkMetrics (resident_selections m) (no_eviction_load_selections m +! 1)
                 (eviction_required_selections m)
  else mkMetrics (resident_selections m) (no_eviction_load_selections m)
                 (eviction_required_selections m +! 1).

Definition select (model : ModelSpec) (workers : list WorkerSnapshot) (m : Metrics)
  : RoutingResult * Metrics :=
  match workers with
  | [] => (no_workers, m)
  | _ =>
      match fold_left (consider model) workers (None, 3, u64_max) with
      | (None, _, _) => (no_feasible, m)
      | (Some id, best_tier, _) => (RoutingResult.success id, count_selection best_tier m)
      end
  end.

End ResidencyAwareRouter.

(** ** The router interface

    [IWorkerRouter]: the routing thread relies on an answer being a feasible
    worker, and on a refusal meaning that there is none. *)

Class IWorkerRouter (R : Type) := {
  select : ModelSpec -> list WorkerSnapshot -> R -> RoutingResult * R
}.

Definition routes_to (model : ModelSpec) (workers : list WorkerSnapshot) (r : RoutingResult)
    (w : WorkerSnapshot) : Prop :=
  r = RoutingResult.success (worker_id w) /\ w ∈ workers /\ is_m2_feasible model w = true.

Definition refuses (model : ModelSpec) (workers : list WorkerSnapshot) (r : RoutingResult) : Prop :=
  code (routing_status r) = NoFeasibleWorker /\ routed_to r = None /\
  forall w, w ∈ workers -> is_m2_feasible model w = false.

(** [router_inv] is what the router keeps of its own state; the number of
    workers is far below the range of [size_t]. *)
Class RouterLaws (R : Type) `{IWorkerRouter R} := {
  router_inv : R -> Prop;
  select_keeps model workers r :
    2 * Z.of_nat (length workers) < two64 ->
    router_inv r -> router_inv (select model workers r).2;
  select_lawful model workers r :
    2 * Z.of_nat (length workers) < two64 -> router_inv r ->
    (exists w, routes_to model workers (select model workers r).1 w) \/
    refuses model workers (select model workers r).1
}.

#[export] Instance round_robin : IWorkerRouter RoundRobinRouter.t :=
  {| select := RoundRobinRouter.select |}.
#[export] Instance least_loaded : IWorkerRouter unit :=
  {| select model workers r := (LeastLoadedRouter.select model workers, r) |}.
#[export] Instance residency_aware : IWorkerRouter ResidencyAwareRouter.Metrics :=
  {| select := ResidencyAwareRouter.select |}.

(** ** Binary search *)

#[export] Instance str_ltb_strict_weak : StrictWeak str_ltb :=
  by_string_strict_weak (fun s : string => s).

Lemma sorted_lookup {A} (lt : A -> A -> bool) (l : list A) i j x y :
  sorted_by lt l -> (i < j)%nat -> l !! i = Some x -> l !! j = Some y -> lt y x = false.
Proof.
  intros Hs. revert i j. induction Hs as [|a l Hs IH Hall]; intros i j Hij Hi Hj; [done|].
  destruct j as [|j]; [lia|]. destruct i as [|i]; simpl in *.
  - injection Hi as ->. rewrite Forall_forall in Hall. apply Hall.
    by eapply list_elem_of_lookup_2.
  - apply (IH i j); [lia|done|done].
Qed.

Lemma lower_bound_spec fuel l first len v :
  sorted_by str_ltb l -> (len < fuel)%nat -> (first + len <= length l)%nat ->
  (forall i x, (i < first)%nat -> l !! i = Some x -> str_ltb x v = true) ->
  (forall i x, (first + len <= i)%nat -> l !! i = Some x -> str_ltb x v = false) ->
  let r := lower_bound fuel l first len v in
  (forall i x, (i < r)%nat -> l !! i = Some x -> str_ltb x v = true) /\
  (forall i x, (r <= i)%nat -> l !! i = Some x -> str_ltb x v = false).
Proof.
  intros Hs. revert first len. induction fuel as [|fuel IH]; intros first len Hf Hle Hlo Hhi; [lia|].
  cbn [lower_bound]. destruct (Nat.eqb_spec len 0) as [->|Hlen].
  { split; [done|]. intros i x Hi. apply Hhi. lia. }
  assert (Hhalf : (len / 2 < len)%nat) by (apply Nat.div_lt; lia).
  destruct (l !! (first + len / 2)%nat) as [m|] eqn:Hm.
  2:{ apply lookup_ge_None_1 in Hm. lia. }
  destruct (str_ltb m v) eqn:Hmv; apply IH; try lia.
  - intros i x Hi Hx. destruct (decide (i = first + len / 2)%nat) as [->|Hne]; [congruence|].
    destruct (str_ltb x v) eqn:E; [done|].
    assert (str_ltb m x = false) as Hmx
      by (eapply (sorted_lookup str_ltb l i (first + len / 2)%nat); [done|lia|done..]).
    pose proof (sw_ntrans (lt := str_ltb) m x v Hmx E). congruence.
  - intros i x Hi. apply Hhi. lia.
  - done.
  - intros i x Hi Hx. destruct (decide (i = first + len / 2)%nat) as [->|Hne]; [congruence|].
    assert (str_ltb x m = false) as Hxm
      by (eapply (sorted_lookup str_ltb l (first + len / 2)%nat i); [done|lia|done..]).
    by eapply sw_ntrans.
Qed.

(** On a sorted list the halving search is membership. *)
Lemma binary_search_correct l v :
  sorted_by str_ltb l -> binary_search l v = bool_decide (v ∈ l).
Proof.
  intros Hs. unfold binary_search.
  destruct (lower_bound_spec (S (length l)) l 0 (length l) v Hs) as [Hlo Hhi]; try lia.
  { intros i x Hi Hx. apply lookup_lt_Some in Hx. lia. }
  set (r := lower_bound _ _ _ _ _) in *. symmetry. destruct (l !! r) as [x|] eqn:Hx.
  - destruct (str_ltb v x) eqn:Hvx; simpl.
    + apply bool_decide_false. intros [i Hi]%list_elem_of_lookup.
      destruct (decide (i < r)%nat) as [Hlt|Hge].
      { pose proof (Hlo i v Hlt Hi). by rewrite str_ltb_irrefl in *. }
      destruct (decide (i = r)) as [->|Hne].
      { rewrite Hi in Hx. injection Hx as ->. by rewrite str_ltb_irrefl in *. }
      assert (str_ltb v x = false); [|congruence].
      eapply (sorted_lookup str_ltb l r i); [done|lia|done..].
    + apply bool_decide_true. rewrite (str_ltb_total v x Hvx); [|by apply (Hhi r x)].
      by eapply list_elem_of_lookup_2.
  - apply bool_decide_false. intros [i Hi]%list_elem_of_lookup.
    assert (i < r)%nat as Hlt.
    { apply lookup_ge_None_1 in Hx. apply lookup_lt_Some in Hi. lia. }
    pose proof (Hlo i v Hlt Hi). by rewrite str_ltb_irrefl in *.
Qed.

(** ** Minimum-based policies *)

(** Lower load first, then lower identifier. *)
Definition by_load : WorkerSnapshot -> WorkerSnapshot -> bool := lex_z load_of (by_z worker_id).
(** Lower residency tier first, then [by_load]. *)
Definition by_tier (model : ModelSpec) : WorkerSnapshot -> WorkerSnapshot -> bool :=
  lex_z (ResidencyAwareRouter.residency_tier model) by_load.

#[export] Instance by_load_strict_weak : StrictWeak by_load.
Proof. apply _. Qed.
#[export] Instance by_tier_strict_weak model : StrictWeak (by_tier model).
Proof. apply _. Qed.

Lemma fold_select_min {A} model (lt : WorkerSnapshot -> WorkerSnapshot -> bool)
    (proj : option WorkerSnapshot -> A) (step : A -> WorkerSnapshot -> A) workers :
  (forall best w, is_m2_feasible model w = false -> step (proj best) w = proj best) ->
  (forall w, is_m2_feasible model w = true -> step (proj None) w = proj (Some w)) ->
  (forall y w, is_m2_feasible model w = true ->
     step (proj (Some y)) w = proj (if lt w y then Some w else Some y)) ->
  fold_left step workers (proj None) =
    proj (select_min lt (filter (fun w => is_m2_feasible model w) workers) None).
Proof.
  intros Hskip Hnone Hsome. generalize (@None WorkerSnapshot) as best.
  induction workers as [|w workers IH]; intros best; [done|].
  rewrite filter_cons. simpl. destruct (is_m2_feasible model w) eqn:Hf.
  - rewrite decide_True by done. simpl. rewrite <- IH. f_equal.
    destruct best; [by apply Hsome|by apply Hnone].
  - rewrite decide_False by (simpl; tauto). rewrite Hskip by done. apply IH.
Qed.

Lemma least_loaded_fold model workers :
  (fold_left (LeastLoadedRouter.consider model) workers (None, u64_max)).1 =
  worker_id <$> select_min by_load (filter (fun w => is_m2_feasible model w) workers) None.
Proof.
  set (proj := fun best : option WorkerSnapshot =>
    (worker_id <$> best, from_option load_of u64_max best)).
  change (None, u64_max) with (proj None).
  rewrite (fold_select_min model by_load proj); [done|..]; unfold LeastLoadedRouter.consider.
  - intros best w ->. done.
  - intros w ->. done.
  - intros y w ->. simpl. unfold by_load, lex_z, by_z. zcases; lia || done.
Qed.

Lemma residency_fold model workers :
  fold_left (ResidencyAwareRouter.consider model) workers (None, 3, u64_max) =
  let best := select_min (by_tier model) (filter (fun w => is_m2_feasible model w) workers) None in
  (worker_id <$> best, from_option (ResidencyAwareRouter.residency_tier model) 3 best,
   from_option load_of u64_max best).
Proof.
  set (proj := fun best : option WorkerSnapshot =>
    (worker_id <$> best, from_option (ResidencyAwareRouter.residency_tier model) 3 best,
     from_option load_of u64_max best)).
  change (None, 3, u64_max) with (proj None).
  rewrite (fold_select_min model (by_tier model) proj); [done|..];
    unfold ResidencyAwareRouter.consider.
  - intros best w ->. done.
  - intros w ->. done.
  - intros y w ->. simpl. unfold by_tier, by_load, lex_z, by_z.
    destruct (Z.ltb_spec (ResidencyAwareRouter.residency_tier model w)
                         (ResidencyAwareRouter.residency_tier model y)),
      (Z.eqb_spec (ResidencyAwareRouter.residency_tier model w)
                  (ResidencyAwareRouter.residency_tier model y)); simpl; try (lia || done).
    zcases; lia || done.
Qed.

(** The least element of the feasible workers, or none. *)
Lemma select_min_feasible lt model workers :
  StrictWeak lt ->
  match select_min lt (filter (fun w => is_m2_feasible model w) workers) None with
  | None => forall w, w ∈ workers -> is_m2_feasible model w = false
  | Some z => z ∈ workers /\ is_m2_feasible model z = true /\
              forall w, w ∈ workers -> is_m2_feasible model w = true -> lt w z = false
  end.
Proof.
  intros Hlt. pose proof (select_min_spec lt (filter (fun w => is_m2_feasible model w) workers)) as H.
  destruct (select_min lt _ None) as [z|].
  - destruct H as [[Hf Hz]%list_elem_of_filter Hmin]. split; [done|].
    split; [by apply Is_true_true|]. intros w Hw Hfw. apply Hmin, list_elem_of_filter.
    by rewrite Hfw.
  - intros w Hw. apply not_true_iff_false. intros Hfw.
    assert (w ∈ filter (fun w => is_m2_feasible model w) workers) as Hin
      by (apply list_elem_of_filter; by rewrite Hfw).
    rewrite H in Hin. by apply elem_of_nil in Hin.
Qed.

Lemma no_workers_refuses model : refuses model [] no_workers.
Proof. split; [done|]. split; [done|]. by intros w ?%elem_of_nil. Qed.

Lemma by_load_false w z :
  by_load w z = false ->
  load_of z < load_of w \/ (load_of z = load_of w /\ worker_id z <= worker_id w).
Proof.
  intros [?|[? H]]%lex_z_false; [by left|right]. split; [done|]. unfold by_z in H. lia.
Qed.

(** C38: Least-loaded routing. The router answers a feasible worker whenever
    there is one, and of the feasible workers the one with the least queued
    plus active requests, the lowest identifier among equals; it refuses with
    [NoFeasibleWorker] exactly when no worker accepts work and has the budget. *)
Theorem least_loaded_optimal model workers :
  (exists z, routes_to model workers (LeastLoadedRouter.select model workers) z /\
     forall w, w ∈ workers -> is_m2_feasible model w = true ->
       load_of z < load_of w \/ (load_of z = load_of w /\ worker_id z <= worker_id w)) \/
  refuses model workers (LeastLoadedRouter.select model workers).
Proof.
  destruct workers as [|w0 ws]; [right; apply no_workers_refuses|].
  unfold LeastLoadedRouter.select. rewrite least_loaded_fold.
  pose proof (select_min_feasible by_load model (w0 :: ws) _) as H.
  destruct (select_min by_load _ None) as [z|]; simpl.
  - left. exists z. destruct H as (Hz & Hf & Hmin). split; [done|].
    intros w Hw Hfw. apply by_load_false. by apply Hmin.
  - by right.
Qed.

Lemma by_tier_false model w z :
  by_tier model w z = false ->
  let tier := ResidencyAwareRouter.residency_tier model in
  tier z < tier w \/ (tier z = tier w /\
    (load_of z < load_of w \/ (load_of z = load_of w /\ worker_id z <= worker_id w))).
Proof.
  intros [?|[? H]]%lex_z_false; [by left|right]. split; [done|]. by apply by_load_false.
Qed.

Lemma residency_tier_zero model w :
  sorted_by str_ltb (resident_model_ids w) ->
  ResidencyAwareRouter.residency_tier model w = 0 <-> spec_model_id model ∈ resident_model_ids w.
Proof.
  intros Hs. unfold ResidencyAwareRouter.residency_tier. rewrite binary_search_correct by done.
  case_bool_decide; [done|]. by destruct (_ <=? _).
Qed.

(** C39: Residency-aware routing. The router answers a feasible worker
    whenever there is one, preferring a worker on which the model is resident
    (for the sorted identifier lists snapshots carry, tier 0 is exactly
    membership), then one with enough free memory, then one that must evict;
    within a tier the least loaded and then the lowest identifier. The chosen
    tier, and only it, is counted; a refusal counts nothing. *)
Theorem residency_aware_optimal model workers m :
  let tier := ResidencyAwareRouter.residency_tier model in
  let '(res, m') := ResidencyAwareRouter.select model workers m in
  ((exists z, routes_to model workers res z /\
      (forall w, w ∈ workers -> is_m2_feasible model w = true ->
         tier z < tier w \/ (tier z = tier w /\
           (load_of z < load_of w \/ (load_of z = load_of w /\ worker_id z <= worker_id w)))) /\
      m' = ResidencyAwareRouter.count_selection (tier z) m) \/
   (refuses model workers res /\ m' = m)) /\
  (forall w, sorted_by str_ltb (resident_model_ids w) ->
     tier w = 0 <-> spec_model_id model ∈ resident_model_ids w).
Proof.
  intros tier. destruct (ResidencyAwareRouter.select model workers m) as [res m'] eqn:Hsel.
  split; [|intros w; apply residency_tier_zero].
  destruct workers as [|w0 ws]; [injection Hsel as <- <-; right; split; [apply no_workers_refuses|done]|].
  unfold ResidencyAwareRouter.select in Hsel. rewrite residency_fold in Hsel.
  pose proof (select_min_feasible (by_tier model) model (w0 :: ws) _) as H.
  destruct (select_min (by_tier model) _ None) as [z|]; simpl in Hsel; injection Hsel as <- <-.
  - left. exists z. destruct H as (Hz & Hf & Hmin). split; [done|]. split; [|done].
    intros w Hw Hfw. apply by_tier_false. by apply Hmin.
  - by right.
Qed.

(** ** Round robin *)

Lemma rr_select_nonempty model workers r :
  workers <> [] ->
  RoundRobinRouter.select model workers r =
    let n := Z.of_nat (length workers) in
    let next := if n <=? RoundRobinRouter.next_index_ r then 0 else RoundRobinRouter.next_index_ r in
    match RoundRobinRouter.scan model workers next n 0 (length workers) with
    | Some (index, w) =>
        (RoutingResult.success (worker_id w), RoundRobinRouter.mk ((index +! 1) mod n))
    | None => (no_feasible, RoundRobinRouter.mk next)
    end.
Proof. by destruct workers. Qed.

Section round_robin.
Context (model : ModelSpec) (workers : list WorkerSnapshot).
Let n : Z := Z.of_nat (length workers).
Context (Hn : 0 < n) (Hsmall : 2 * n < two64).

(** The worker [k] places after [start], cyclically. *)
Definition cyclic (start k : Z) : option WorkerSnapshot := workers !! Z.to_nat ((start + k) mod n).

Lemma cyclic_some start k : exists w, cyclic start k = Some w.
Proof.
  unfold cyclic. apply lookup_lt_is_Some_2.
  pose proof (Z.mod_pos_bound (start + k) n Hn). unfold n in *. lia.
Qed.

Lemma scan_spec next offset k :
  0 <= next < n -> 0 <= offset -> offset + Z.of_nat k <= n ->
  match RoundRobinRouter.scan model workers next n offset k with
  | Some (index, w) => exists j, offset <= j < offset + Z.of_nat k /\
      index = (next + j) mod n /\ cyclic next j = Some w /\ is_m2_feasible model w = true /\
      forall i w', offset <= i < j -> cyclic next i = Some w' -> is_m2_feasible model w' = false
  | None => forall i w', offset <= i < offset + Z.of_nat k -> cyclic next i = Some w' ->
      is_m2_feasible model w' = false
  end.
Proof.
  revert offset. induction k as [|k IH]; intros offset Hnext Hoff Hk; [simpl; lia|].
  cbn [RoundRobinRouter.scan]. rewrite u64_add_small by lia.
  destruct (cyclic_some next offset) as [w Hw]. unfold cyclic in Hw. rewrite Hw.
  destruct (is_m2_feasible model w) eqn:Hf.
  { exists offset. repeat split; try done; try lia. }
  specialize (IH (offset + 1) Hnext ltac:(lia) ltac:(lia)).
  assert (Hhere : forall i w', offset <= i -> i < offset + 1 -> cyclic next i = Some w' ->
    is_m2_feasible model w' = false).
  { intros i w' ? ? Hc. replace i with offset in Hc by lia. unfold cyclic in Hc. congruence. }
  destruct (RoundRobinRouter.scan _ _ _ _ _ k) as [[index w1]|].
  - destruct IH as (j & Hj & Hidx & Hc & Hf1 & Hbefore). exists j. repeat split; try done; try lia.
    intros i w' Hi Hc'. destruct (decide (i < offset + 1)); [eapply Hhere; eauto; lia|].
    eapply Hbefore; [|done]. lia.
  - intros i w' Hi Hc'. destruct (decide (i < offset + 1)); [eapply Hhere; eauto; lia|].
    eapply IH; [|done]. lia.
Qed.

Lemma all_cyclic start w : 0 <= start < n -> w ∈ workers -> exists k, 0 <= k < n /\ cyclic start k = Some w.
Proof.
  intros Hs [i Hi]%list_elem_of_lookup. pose proof (lookup_lt_Some _ _ _ Hi) as Hlt.
  exists ((Z.of_nat i - start) mod n). split; [apply Z.mod_pos_bound; lia|].
  unfold cyclic. rewrite Zplus_mod_idemp_r. replace (start + (Z.of_nat i - start)) with (Z.of_nat i) by lia.
  rewrite Z.mod_small by (unfold n; lia). by rewrite Nat2Z.id.
Qed.

(** Where the next scan starts. *)
Definition rr_start (r : RoundRobinRouter.t) : Z :=
  if n <=? RoundRobinRouter.next_index_ r then 0 else RoundRobinRouter.next_index_ r.

Lemma rr_select_spec r :
  0 <= RoundRobinRouter.next_index_ r ->
  (exists k w, 0 <= k < n /\ cyclic (rr_start r) k = Some w /\
     routes_to model workers (RoundRobinRouter.select model workers r).1 w /\
     (forall i w', 0 <= i < k -> cyclic (rr_start r) i = Some w' -> is_m2_feasible model w' = false) /\
     RoundRobinRouter.next_index_ (RoundRobinRouter.select model workers r).2
       = (rr_start r + k + 1) mod n) \/
  (refuses model workers (RoundRobinRouter.select model workers r).1 /\
   RoundRobinRouter.next_index_ (RoundRobinRouter.select model workers r).2 = rr_start r).
Proof.
  intros Hr. assert (Hst : 0 <= rr_start r < n) by (unfold rr_start; zcases; lia).
  rewrite rr_select_nonempty by (intros E; apply (f_equal length) in E; unfold n in Hn; simpl in *; lia).
  cbv zeta. fold n.
  change (if n <=? RoundRobinRouter.next_index_ r then 0 else RoundRobinRouter.next_index_ r)
    with (rr_start r).
  pose proof (scan_spec (rr_start r) 0 (length workers) Hst ltac:(lia) ltac:(unfold n; lia)) as Hscan.
  destruct (RoundRobinRouter.scan _ _ _ _ _ _) as [[index w]|]; simpl.
  - destruct Hscan as (j & Hj & -> & Hc & Hf & Hbefore). left. exists j, w.
    repeat split; try done; try (unfold n; lia).
    + by eapply list_elem_of_lookup_2.
    + pose proof (Z.mod_pos_bound (rr_start r + j) n Hn).
      rewrite u64_add_small by (unfold n in *; lia). apply Zplus_mod_idemp_l.
  - right. split; [|done]. split; [done|]. split; [done|]. intros w Hw.
    destruct (all_cyclic (rr_start r) w Hst Hw) as (k & Hk & Hc).
    eapply Hscan; [|done]. unfold n in *. lia.
Qed.
End round_robin.

(** ** The three routers meet the interface *)

Lemma rr_lawful model workers r :
  2 * Z.of_nat (length workers) < two64 -> 0 <= RoundRobinRouter.next_index_ r ->
  0 <= RoundRobinRouter.next_index_ (RoundRobinRouter.select model workers r).2 /\
  ((exists w, routes_to model workers (RoundRobinRouter.select model workers r).1 w) \/
   refuses model workers (RoundRobinRouter.select model workers r).1).
Proof.
  intros Hsmall Hr. destruct workers as [|w0 ws]; [split; [done|right; apply no_workers_refuses]|].
  assert (Hn : 0 < Z.of_nat (length (w0 :: ws))) by (simpl; lia).
  destruct (rr_select_spec model _ Hn Hsmall r Hr) as [(k & w & Hk & _ & Hto & _ & ->)|[Href ->]].
  - split; [apply Z.mod_pos_bound, Hn|left; by exists w].
  - split; [|by right]. unfold rr_start. zcases; lia.
Qed.

#[export] Program Instance round_robin_laws : RouterLaws RoundRobinRouter.t :=
  {| router_inv r := 0 <= RoundRobinRouter.next_index_ r |}.
Next Obligation. intros model workers r Hs Hr. by apply rr_lawful. Qed.
Next Obligation. intros model workers r Hs Hr. by apply rr_lawful. Qed.

(** Feasible workers only: a choice by any order. *)
Lemma least_loaded_lawful model workers :
  (exists w, routes_to model workers (LeastLoadedRouter.select model workers) w) \/
  refuses model workers (LeastLoadedRouter.select model workers).
Proof.
  destruct workers as [|w0 ws]; [right; apply no_workers_refuses|].
  unfold LeastLoadedRouter.select. rewrite least_loaded_fold.
  pose proof (select_min_feasible by_load model (w0 :: ws) _) as H.
  destruct (select_min by_load _ None) as [z|]; simpl; [left|by right].
  exists z. by destruct H as (Hz & Hf & _).
Qed.

#[export] Program Instance least_loaded_laws : RouterLaws unit := {| router_inv _ := True |}.
Next Obligation. done. Qed.
Next Obligation. intros. apply least_loaded_lawful. Qed.

Lemma residency_aware_lawful model workers m :
  (exists w, routes_to model workers (ResidencyAwareRouter.select model workers m).1 w) \/
  refuses model workers (ResidencyAwareRouter.select model workers m).1.
Proof.
  destruct workers as [|w0 ws]; [right; apply no_workers_refuses|].
  unfold ResidencyAwareRouter.select. rewrite residency_fold.
  pose proof (select_min_feasible (by_tier model) model (w0 :: ws) _) as H.
  destruct (select_min (by_tier model) _ None) as [z|]; simpl; [left|by right].
  exists z. by destruct H as (Hz & Hf & _).
Qed.

#[export] Program Instance residency_aware_laws : RouterLaws ResidencyAwareRouter.Metrics :=
  {| router_inv _ := True |}.
Next Obligation. done. Qed.
Next Obligation. intros. apply residency_aware_lawful. Qed.

(** Repeated selection over unchanging snapshots. *)
Fixpoint rr_run (model : ModelSpec) (workers : list WorkerSnapshot) (k : nat)
    (r : RoundRobinRouter.t) : list RoutingResult * RoundRobinRouter.t :=
  match k with
  | O => ([], r)
  | S k =>
      let '(res, r) := RoundRobinRouter.select model workers r in
      let '(rest, r) := rr_run model workers k r in (res :: rest, r)
  end.

Lemma rr_select_all_feasible model workers r :
  let n := Z.of_nat (length workers) in
  0 < n -> 2 * n < two64 -> 0 <= RoundRobinRouter.next_index_ r < n ->
  (forall w, w ∈ workers -> is_m2_feasible model w = true) ->
  exists w, workers !! Z.to_nat (RoundRobinRouter.next_index_ r) = Some w /\
    (RoundRobinRouter.select model workers r).1 = RoutingResult.success (worker_id w) /\
    RoundRobinRouter.next_index_ (RoundRobinRouter.select model workers r).2
      = (RoundRobinRouter.next_index_ r + 1) mod n.
Proof.
  intros n Hn Hsmall Hr Hall.
  assert (Hst : rr_start workers r = RoundRobinRouter.next_index_ r)
    by (unfold rr_start; fold n; zcases; lia).
  destruct (rr_select_spec model workers Hn Hsmall r ltac:(lia))
    as [(k & w & Hk & Hc & (Hto & _ & _) & Hbefore & Hnext)|[(_ & _ & Hno) _]].
  - assert (k = 0) as ->.
    { destruct (decide (k = 0)) as [|Hk0]; [done|].
      destruct (cyclic_some workers Hn (rr_start workers r) 0) as [w' Hw'].
      specialize (Hbefore 0 w' ltac:(lia) Hw'). rewrite Hall in Hbefore; [done|].
      by eapply list_elem_of_lookup_2. }
    exists w. rewrite Hst in *. unfold cyclic in Hc. fold n in Hc, Hnext.
    rewrite Z.add_0_r, Z.mod_small in Hc by lia. rewrite Hnext. split; [done|]. split; [done|].
    f_equal. lia.
  - destruct workers as [|w0 ws]; [simpl in *; lia|].
    specialize (Hno w0 ltac:(by left)). rewrite Hall in Hno; [done|by left].
Qed.

(** Round robin is fair. While every worker is feasible, [n] successive
    selections starting at index [next] send one request to each of the [n]
    workers in cyclic order, and the router is back where it started after a
    whole round. *)
Theorem round_robin_cycles model workers r k :
  let n := Z.of_nat (length workers) in
  0 < n -> 2 * n < two64 -> 0 <= RoundRobinRouter.next_index_ r < n ->
  (forall w, w ∈ workers -> is_m2_feasible model w = true) ->
  let '(results, r') := rr_run model workers k r in
  (forall i, (i < k)%nat -> exists w,
     workers !! Z.to_nat ((RoundRobinRouter.next_index_ r + Z.of_nat i) mod n) = Some w /\
     results !! i = Some (RoutingResult.success (worker_id w))) /\
  RoundRobinRouter.next_index_ r' = (RoundRobinRouter.next_index_ r + Z.of_nat k) mod n.
Proof.
  intros n Hn Hsmall Hr Hall. revert r Hr. induction k as [|k IH]; intros r Hr; simpl.
  { split; [lia|]. rewrite Z.add_0_r, Z.mod_small by lia. done. }
  destruct (rr_select_all_feasible model workers r Hn Hsmall Hr Hall) as (w & Hw & Hres & Hnext).
  destruct (RoundRobinRouter.select model workers r) as [res r1]. simpl in Hres, Hnext. fold n in Hnext.
  specialize (IH r1). rewrite Hnext in IH. specialize (IH (Z.mod_pos_bound _ n Hn)).
  destruct (rr_run model workers k r1) as [results r'].
  assert (Hsh : forall i, ((RoundRobinRouter.next_index_ r + 1) mod n + Z.of_nat i) mod n
    = (RoundRobinRouter.next_index_ r + Z.of_nat (S i)) mod n).
  { intros i. rewrite Zplus_mod_idemp_l. f_equal. lia. }
  destruct IH as [IHi IHn]. rewrite Hsh in IHn. split; [|done].
  intros [|i] Hi.
  - exists w. rewrite Z.add_0_r, Z.mod_small by lia. by rewrite Hres.
  - destruct (IHi i ltac:(lia)) as (w' & Hw' & Hr'). rewrite Hsh in Hw'. by exists w'.
Qed.

Definition demo_worker (id : WorkerId) : WorkerSnapshot :=
  mkWorkerSnapshot id 0 4 0 true 100 0 [].

Lemma round_robin_cycles_witness :
  let spec := mkSpec "m" 50 1 in
  let '(results, r') := rr_run spec [demo_worker 1; demo_worker 2] 3 (RoundRobinRouter.mk 1) in
  (forall i, (i < 3)%nat -> exists w,
     [demo_worker 1; demo_worker 2] !! Z.to_nat ((1 + Z.of_nat i) mod 2) = Some w /\
     results !! i = Some (RoutingResult.success (worker_id w))) /\
  RoundRobinRouter.next_index_ r' = (1 + Z.of_nat 3) mod 2.
Proof.
  apply (round_robin_cycles (mkSpec "m" 50 1) [demo_worker 1; demo_worker 2]
           (RoundRobinRouter.mk 1) 3); [reflexivity..|simpl; lia|].
  intros w [->|[->|[]%elem_of_nil]%elem_of_cons]%elem_of_cons; reflexivity.
Defined.
