(* ===== verification/Batch.v ===== *)
(** * Batch formation

    [include/airuntime/batch_builder.hpp] and [src/batch_builder.cpp]: one
    contiguous same-model batch, grown from a first request by a [pop_until]
    callback until the batch is full, the callback gives up, or a request of
    another model arrives. The two callbacks are arguments, as in the code;
    the reads of requests and of the clock are those of [World]. *)

From S2P Require Import Prelude Status Requests World.
Import InferenceRequest.

(** [max_batch_wait] is in microseconds; time points are in nanoseconds. *)
Record BatchBuilderConfig := mkBatchConfig { max_batch_size : Z; max_batch_wait : Z }.

Record FormedBatch := mkFormed { requests : list RequestPtr; deferred : option RequestPtr }.

Module BatchBuilder.

Record t := mk { config_ : BatchBuilderConfig }.

Definition new (config : BatchBuilderConfig) : exn + t :=
  if max_batch_size config <? 1
  then inl (StdException "BatchBuilder max_batch_size must be >= 1")
  else if max_batch_wait config <? 0
  then inl (StdException "BatchBuilder max_batch_wait must be >= 0")
  else inr (mk config).

Definition config (b : t) : BatchBuilderConfig := config_ b.

Section form.
Context {X : Type} `{SX : !Shared X}.

(** The loop of [earliest_deadline]. *)
Fixpoint earliest_from (earliest : option time_point) (rs : list RequestPtr)
  : M X (option time_point) :=
  match rs with
  | [] => mret earliest
  | None :: rs => earliest_from earliest rs
  | Some l :: rs =>
      dl ← req_deadline l;
      match dl with
      | None => earliest_from earliest rs
      | Some d =>
          let sooner := match earliest with None => true | Some e => d <? e end in
          earliest_from (if (sooner : bool) then Some d else earliest) rs
      end
  end.

Definition earliest_deadline (rs : list RequestPtr) : M X (option time_point) :=
  earliest_from None rs.

Definition compute_deadline (b : t) (allow_wait : bool) (rs : list RequestPtr) : M X time_point :=
  start ← now;
  let wait_deadline := start + 1000 * max_batch_wait (config_ b) in
  request_deadline ← earliest_deadline rs;
  if negb allow_wait then now else
  match request_deadline with
  | None => mret wait_deadline
  | Some d => mret (Z.min wait_deadline d)
  end.

(** Dereferencing a null pointer is undefined behaviour; it is reported as an
    exception so that a theorem can exclude it. *)
Definition deref (p : RequestPtr) : M X loc :=
  match p with Some l => mret l | None => throw (StdException "null dereference") end.

(** The [while] loop; every turn that does not leave it grows the batch, so
    [max_batch_size] turns are enough ([form_loop_fuel]). *)
Fixpoint form_loop (fuel : nat) (b : t) (pop_until : time_point -> M X (option RequestPtr))
    (allow_wait : bool) (on_extra_request : option (RequestPtr -> M X bool))
    (model_id : string) (rs : list RequestPtr) : M X FormedBatch :=
  match fuel with
  | O => mret (mkFormed rs None)
  | S fuel =>
      if negb (Z.of_nat (length rs) <? max_batch_size (config_ b))
      then mret (mkFormed rs None)
      else
        deadline ← compute_deadline b allow_wait rs;
        next ← pop_until deadline;
        match next with
        | None => mret (mkFormed rs None)
        | Some p =>
            keep ← match on_extra_request with None => mret true | Some f => f p end;
            if negb (keep : bool) then mret (mkFormed rs (Some p)) else
            l ← deref p;
            id ← req_model_id l;
            if negb (bool_decide (id = model_id)) then mret (mkFormed rs (Some p))
            else form_loop fuel b pop_until allow_wait on_extra_request model_id (rs ++ [p])
        end
  end.

Definition form (b : t) (first : RequestPtr) (pop_until : time_point -> M X (option RequestPtr))
    (allow_wait : bool) (on_extra_request : option (RequestPtr -> M X bool)) : M X FormedBatch :=
  match first with
  | None => mret (mkFormed [] None)
  | Some l =>
      model_id ← req_model_id l;
      form_loop (Z.to_nat (max_batch_size (config_ b))) b pop_until allow_wait
        on_extra_request model_id [first]
  end.
End form.
End BatchBuilder.

Import BatchBuilder.

Section batch_lemmas.
Context {X : Type} `{SX : !Shared X}.
Implicit Types (pop : time_point -> M X (option RequestPtr)) (f : option (RequestPtr -> M X bool)).

#[global] Instance mono_earliest e rs : Mono (X := X) (earliest_from e rs).
Proof.
  revert e. induction rs as [|[l|] rs IH]; intros e; simpl; [apply _| |apply IH].
  unfold req_deadline. apply mono_bind; [apply _|]. intros [d|]; apply IH.
Qed.

#[global] Instance quiet_earliest e rs : Quiet (X := X) (earliest_from e rs).
Proof.
  revert e. induction rs as [|[l|] rs IH]; intros e; simpl; [apply _| |apply IH].
  unfold req_deadline. apply quiet_bind; [apply _|]. intros [d|]; apply IH.
Qed.

#[global] Instance mono_compute_deadline b aw rs : Mono (X := X) (compute_deadline b aw rs).
Proof. unfold compute_deadline, earliest_deadline. apply _. Qed.

#[global] Instance quiet_compute_deadline b aw rs : Quiet (X := X) (compute_deadline b aw rs).
Proof. unfold compute_deadline, earliest_deadline. apply _. Qed.

#[global] Instance mono_form_loop fuel b pop aw f m rs :
  (forall d, Mono (pop d)) -> (forall g p, f = Some g -> Mono (g p)) ->
  Mono (form_loop fuel b pop aw f m rs).
Proof.
  intros Hp Hf. revert rs. induction fuel as [|fuel IH]; intros rs; simpl; [apply _|].
  destruct (negb _); [apply _|]. apply mono_bind; [apply _|]. intros d.
  apply mono_bind; [apply Hp|]. intros [p|]; [|apply _].
  apply mono_bind; [destruct f as [g|]; [by eapply Hf|apply _]|]. intros [|]; simpl; [|apply _].
  unfold req_model_id. apply mono_bind; [destruct p; apply _|]. intros l.
  apply mono_bind; [apply _|]. intros id. destruct (negb _); [apply _|apply IH].
Qed.

(** Fuel beyond the room left in the batch changes nothing. *)
Lemma form_loop_fuel b pop aw f m n k rs w :
  max_batch_size (config_ b) - Z.of_nat (length rs) <= Z.of_nat n ->
  form_loop (n + k) b pop aw f m rs w = form_loop n b pop aw f m rs w.
Proof.
  revert rs w. induction n as [|n IH]; intros rs w Hn; simpl.
  { destruct k as [|k]; simpl; [done|]. by destruct (Z.ltb_spec (Z.of_nat (length rs))
      (max_batch_size (config_ b))); [lia|]. }
  destruct (negb _); [done|]. unfold mbind, M_bind.
  destruct (compute_deadline b aw rs w) as [[d|e|] w1]; [|done..].
  destruct (pop d w1) as [[[p|]|e|] w2]; [|done..].
  destruct (match f with Some g => g p | None => mret true end w2) as [[[|]|e|] w3]; try done.
  cbn [negb].
  destruct (deref p w3) as [[l|e|] w4]; [|done..].
  destruct (req_model_id l w4) as [[id|e|] w5]; [|done..]. simpl.
  destruct (negb _); [done|]. apply IH. rewrite length_app. simpl. lia.
Qed.

(** ** What a formed batch is *)

(** [p] points to a request of model [m]. *)
Definition has_model (m : string) (w : World X) (p : RequestPtr) : Prop :=
  exists l, p = Some l /\ req_at (fun r => model_id_ r = m) l w.

(** [p] points to a request of another model. *)
Definition other_model (m : string) (w : World X) (p : RequestPtr) : Prop :=
  exists m', m' <> m /\ has_model m' w p.

#[global] Instance has_model_upward m p : Upward (fun w => has_model m w p).
Proof. intros w w' Hle (l & -> & Hl). exists l. split; [done|]. by eapply upward. Qed.

#[global] Instance all_models_upward m rs : Upward (fun w => Forall (has_model m w) rs).
Proof.
  intros w w' Hle H. eapply Forall_impl; [exact H|]. intros p. by apply (has_model_upward m p).
Qed.

Lemma triple_earliest m e rs E :
  triple (X := X) (fun w => Forall (has_model m w) rs) (earliest_from e rs)
    (fun _ _ => True) E.
Proof.
  revert e. induction rs as [|p rs IH]; intros e; simpl; [by apply triple_ret|].
  destruct p as [l|]; [|eapply triple_pre; [|apply IH]; intros w [_ ?]%Forall_cons; done].
  eapply (triple_bind _ _ (fun _ w => req_at any_req l w /\ Forall (has_model m w) rs)).
  - apply (triple_pre _ (fun w => req_at any_req l w /\ Forall (has_model m w) rs)).
    { intros w [(l' & [= <-] & Hl) Hrs]%Forall_cons. split; [|done]. by eapply req_at_mono. }
    apply (triple_frame_safe (req_at any_req l) _ _ (fun _ => req_at any_req l));
      [apply _|unfold req_deadline; apply _|by apply (triple_inspect _ _ (fun _ => any_req))].
  - intros [d|]; (eapply triple_pre; [|apply IH]); intros w [_ ?]; done.
Qed.

Lemma triple_compute_deadline m b aw rs E :
  triple (X := X) (fun w => Forall (has_model m w) rs) (compute_deadline b aw rs)
    (fun _ _ => True) E.
Proof.
  unfold compute_deadline. eapply triple_bind; [apply triple_now, _|]. intros start. simpl.
  eapply triple_bind; [apply triple_earliest|]. intros rd.
  destruct (negb aw); [apply triple_now, _|]. destruct rd; by apply triple_ret.
Qed.

(** Reading the model of a request that is there. *)
Lemma triple_read_model l E :
  triple (X := X) (req_at any_req l) (req_model_id l)
    (fun id w => has_model id w (Some l)) E.
Proof.
  apply (triple_post _ _ _ (fun id => req_at (fun r => model_id_ r = id) l)).
  { intros id w Hl. by exists l. }
  by apply (triple_inspect any_req _ (fun id r => model_id_ r = id)).
Qed.

(** The loop against its callbacks. [I ps]: the requests [ps] have been
    popped; [F ps]: and the last pop gave up; [V p]: what a pop promises of
    [p]; [D p]: what a refusal by [on_extra_request] says of [p]. *)
Section loop.
Context (b : BatchBuilder.t) (pop : time_point -> M X (option RequestPtr)) (aw : bool)
  (f : option (RequestPtr -> M X bool)) (m : string)
  (I F : list RequestPtr -> World X -> Prop) (V D : RequestPtr -> World X -> Prop)
  (E : exn -> World X -> Prop).

Definition keep_of (p : RequestPtr) : M X bool :=
  match f with None => mret true | Some g => g p end.

Context `{!forall ps, Stable (I ps)} `{!forall d, Mono (pop d)} `{!forall p, Mono (keep_of p)}
  (Hpop : forall ps d, triple (I ps) (pop d)
     (fun o w => match o with None => F ps w | Some p => I (ps ++ [p]) w /\ V p w end) no_throw)
  (Hkeep : forall ps p, triple (fun w => I ps w /\ V p w) (keep_of p)
     (fun k w => I ps w /\
        (if (k : bool) then exists l, p = Some l /\ req_at any_req l w else D p w)) no_throw).

(** What the loop returns, having started with [rs]. *)
Definition formed_from (ps rs : list RequestPtr) (fb : FormedBatch) (w : World X) : Prop :=
  exists extras, requests fb = rs ++ extras /\ Forall (has_model m w) (rs ++ extras) /\
    Z.of_nat (length (rs ++ extras)) <= Z.max (Z.of_nat (length rs)) (max_batch_size (config_ b)) /\
    match deferred fb with
    | None => I (ps ++ extras) w \/ F (ps ++ extras) w
    | Some p => I (ps ++ extras ++ [p]) w /\ (D p w \/ other_model m w p)
    end.

Lemma formed_now ps rs o w :
  Forall (has_model m w) rs ->
  match o with
  | None => I ps w \/ F ps w
  | Some p => I (ps ++ [p]) w /\ (D p w \/ other_model m w p)
  end -> formed_from ps rs (mkFormed rs o) w.
Proof.
  intros Hrs Ho. exists []. rewrite !app_nil_r. simpl. split; [done|]. split; [done|].
  split; [lia|]. destruct o; by rewrite ?app_nil_r.
Qed.

Lemma formed_grow ps rs p fb w :
  Z.of_nat (length rs) < max_batch_size (config_ b) ->
  formed_from (ps ++ [p]) (rs ++ [p]) fb w -> formed_from ps rs fb w.
Proof.
  intros Hlt (extras & Hreq & Hall & Hlen & Hdef). exists (p :: extras).
  destruct (deferred fb); rewrite <- !app_assoc in *; simpl in *; (split; [done|]);
    (split; [done|]); (split; [|done]); rewrite !length_app in *; simpl in *; lia.
Qed.

Lemma triple_form_loop fuel ps rs :
  triple (fun w => I ps w /\ Forall (has_model m w) rs)
    (form_loop fuel b pop aw f m rs) (formed_from ps rs) E.
Proof.
  revert ps rs. induction fuel as [|fuel IH]; intros ps rs; simpl.
  { apply triple_ret. intros w [HI Hrs]. apply formed_now; auto. }
  destruct (Z.ltb_spec (Z.of_nat (length rs)) (max_batch_size (config_ b))) as [Hlt|Hge]; simpl.
  2:{ apply triple_ret. intros w [HI Hrs]. apply formed_now; auto. }
  eapply (triple_bind _ _ (fun _ w => I ps w /\ Forall (has_model m w) rs)).
  { eapply triple_conseq;
      [apply (triple_frame_stable_safe (fun w => Forall (has_model m w) rs)
         (fun w => I ps w /\ Forall (has_model m w) rs) _ (fun _ _ => True) E);
       [apply _|apply _|apply triple_compute_deadline]
      |by intros w []|by intros a w [_ ?]|done]. }
  intros d.
  eapply triple_bind; [apply (triple_frame_safe (I ps)); [apply _|apply _|apply Hpop]|].
  intros [p|]; [|apply triple_ret; intros w [HF Hrs]; apply formed_now; auto].
  eapply triple_bind;
    [apply (triple_frame_safe (fun w => I (ps ++ [p]) w /\ V p w)); [apply _|apply _|apply Hkeep]|].
  intros [|]; simpl.
  2:{ apply triple_ret. intros w [[HI HD] Hrs]. apply formed_now; auto. }
  destruct p as [l|]; [|by intros w [[_ (l & ? & _)] _]].
  eapply triple_bind; [by apply (triple_ret _ l (fun l' w => l' = l /\
    (req_at any_req l w /\ (I (ps ++ [Some l]) w /\ Forall (has_model m w) rs))));
    intros w [[HI (l' & [= <-] & Hl)] Hrs]|].
  intros l'. apply triple_pull. intros ->.
  eapply triple_bind.
  { apply (triple_frame_stable_safe (req_at any_req l)); [apply _..|apply triple_read_model]. }
  intros id. case_bool_decide as Hid; simpl.
  - eapply triple_conseq; [apply (IH (ps ++ [Some l]) (rs ++ [Some l]))|..|done].
    + intros w (Hm & HI & Hrs). subst. split; [done|]. apply Forall_app. auto.
    + intros fb w. by apply formed_grow.
  - apply triple_ret. intros w (Hm & HI & Hrs). apply formed_now; [done|]. split; [done|].
    right. by exists id.
Qed.
End loop.
End batch_lemmas.

(** ** Nothing is lost or duplicated

    The callback as an arbitrary sequence of answers: the shared state holds
    the answers still to come, [None] for a pop that gave up. *)

Definition answers : Type := list (option RequestPtr).

#[export] Instance answers_shared : Shared answers :=
  {| act := Empty_set; act_step a := match a with end |}.

Definition pop_answer (d : time_point) : M answers (option RequestPtr) :=
  atomically (fun s => match s with [] => (None, []) | a :: s => (a, s) end).

(** The worker's [on_extra_request], without its counter. *)
Definition live_only (p : RequestPtr) : M answers bool :=
  dead ← is_dead_request p; mret (negb dead).

(** Null, or pointing to a request that satisfies [S]. *)
Definition ptr_at {X} `{!Shared X} (S : InferenceRequest.t -> Prop) (p : RequestPtr)
    (w : World X) : Prop :=
  forall l, p = Some l -> req_at S l w.

#[export] Instance ptr_at_upward {X} `{!Shared X} S p : Closed S -> Upward (X := X) (ptr_at S p).
Proof. intros HS. unfold ptr_at. apply _. Qed.

Notation dead_ptr := (ptr_at terminal_req).
Notation valid_ptr := (ptr_at any_req).

(** [is_dead_request] on a pointer that is null or valid. *)
Lemma triple_dead_check {X} `{!Shared X} S p :
  Closed S ->
  triple (X := X) (ptr_at S p) (is_dead_request p)
    (fun d w => if (d : bool) then dead_ptr p w else exists l, p = Some l /\ req_at S l w)
    no_throw.
Proof.
  intros HS. destruct p as [l|]; [|by apply triple_ret].
  eapply triple_conseq; [apply (triple_is_dead S l)|..|done]; [apply _|by intros w; eauto|].
  intros [|] w Hl; [|exists l; split; [done|]; eapply req_at_mono; [|exact Hl]; by intros r []].
  intros l' [= <-]. eapply req_at_mono; [|exact Hl]. intros r [_ H]. by apply H.
Qed.

#[export] Instance nb_earliest {X} `{!Shared X} e rs : NonBlocking (X := X) (earliest_from e rs).
Proof.
  revert e. induction rs as [|[l|] rs IH]; intros e; simpl; [apply _| |apply IH].
  unfold req_deadline. apply nb_bind; [apply _|]. intros [d|]; apply IH.
Qed.

#[export] Instance nb_form_loop {X} `{!Shared X} fuel b pop aw f m rs :
  (forall d, NonBlocking (pop d)) -> (forall p, NonBlocking (keep_of f p)) ->
  NonBlocking (X := X) (form_loop fuel b pop aw f m rs).
Proof.
  intros Hp Hf. revert rs. induction fuel as [|fuel IH]; intros rs; simpl; [apply _|].
  destruct (negb _); [apply _|].
  apply nb_bind; [unfold compute_deadline, earliest_deadline; apply _|]. intros d.
  apply nb_bind; [apply Hp|]. intros [p|]; [|apply _].
  apply nb_bind; [apply Hf|]. intros [|]; simpl; [|apply _].
  unfold req_model_id. apply nb_bind; [destruct p; apply _|]. intros l.
  apply nb_bind; [apply _|]. intros id. destruct (negb _); [apply _|apply IH].
Qed.

Section answers.
Context (s : answers).

(** [ps] have been popped, the rest is still to come. *)
Definition popped (ps : list RequestPtr) (w : World answers) : Prop :=
  map Some ps ++ shared w = s /\ forall p, Some p ∈ s -> valid_ptr p w.
Definition gave_up (ps : list RequestPtr) (w : World answers) : Prop :=
  map Some ps ++ None :: shared w = s \/ map Some ps ++ shared w = s.

#[export] Instance popped_stable ps : Stable (popped ps).
Proof.
  unfold popped. apply stable_and; [|apply _].
  apply (stable_shared (fun x => map Some ps ++ x = s)). by intros [].
Qed.

Lemma triple_pop_answer ps d :
  triple (popped ps) (pop_answer d)
    (fun o w => match o with None => gave_up ps w | Some p => popped (ps ++ [p]) w /\ valid_ptr p w end)
    no_throw.
Proof.
  apply triple_atomically_stable; [apply _|]. intros w [Hs Hv]. unfold popped, gave_up.
  destruct (shared w) as [|[p|] rest] eqn:Hsh; simpl; [by right|..|by left].
  rewrite map_app, <- app_assoc. simpl. repeat split; [done|exact Hv|].
  apply Hv. rewrite <- Hs. set_solver.
Qed.

Lemma triple_live_only ps p :
  triple (fun w => popped ps w /\ valid_ptr p w) (live_only p)
    (fun k w => popped ps w /\
       (if (k : bool) then exists l, p = Some l /\ req_at any_req l w else dead_ptr p w)) no_throw.
Proof.
  unfold live_only. eapply triple_bind.
  - apply (triple_pre _ (fun w => valid_ptr p w /\ popped ps w)); [by intros w []|].
    apply (triple_frame_stable_safe (valid_ptr p)); [apply _..|by apply triple_dead_check; apply _].
  - intros [|]; apply triple_ret; intros w []; by split.
Qed.
End answers.

Lemma triple_form_answers cfg s l m aw :
  triple (fun w => req_at (fun r => model_id_ r = m) l w /\ popped s [] w)
    (form (mk cfg) (Some l) pop_answer aw (Some live_only))
    (formed_from (mk cfg) m (popped s) (gave_up s) dead_ptr [] [Some l]) no_throw.
Proof.
  unfold form. eapply triple_bind.
  - apply (triple_frame_stable_safe (req_at (fun r => model_id_ r = m) l)); [apply _..|].
    apply (triple_inspect _ _ (fun id r => id = m /\ model_id_ r = m)); [apply _|]. by intros r' ->.
  - intros id. eapply triple_pre with (P' := fun w => id = m /\
      (popped s [] w /\ Forall (has_model m w) [Some l])).
    { intros w [(r' & Hr' & -> & Hm) Hp]. repeat split; [apply Hp..|].
      repeat constructor. exists l. split; [done|]. by exists r'. }
    apply triple_pull. intros ->.
    apply (triple_form_loop _ _ _ _ _ _ _ valid_ptr); [apply _|apply _| |apply triple_pop_answer|
      apply triple_live_only].
    intros p. unfold keep_of, live_only. apply _.
Qed.

#[export] Instance nb_form_answers b p aw : NonBlocking (form b p pop_answer aw (Some live_only)).
Proof.
  unfold form, req_model_id. destruct p; [|apply _]. apply nb_bind; [apply _|]. intros id.
  apply nb_form_loop; unfold keep_of, live_only, pop_answer; apply _.
Qed.

(** C36: A batch is a partition of what was popped. For every sequence of
    answers of the callback, every schedule of the other threads and every
    configuration the constructor accepts, [form] returns; the batch is the
    first request followed by the popped requests, in order, all of the first
    request's model and at most [max_batch_size] of them; the only other
    request taken, if any, is the deferred one, which is of another model or
    no longer live; nothing else was consumed. *)
Theorem form_partitions cfg b l r aw (w : World answers) :
  BatchBuilder.new cfg = inr b -> heap w !! l = Some r ->
  (forall p, Some p ∈ shared w -> valid_ptr p w) ->
  exists fb w' extras,
    form b (Some l) pop_answer aw (Some live_only) w = (Ret fb, w') /\
    requests fb = Some l :: extras /\
    Z.of_nat (length (requests fb)) <= max_batch_size cfg /\
    Forall (has_model (model_id_ r) w') (requests fb) /\
    match deferred fb with
    | Some p => shared w = map Some extras ++ Some p :: shared w' /\
        (dead_ptr p w' \/ other_model (model_id_ r) w' p)
    | None => shared w = map Some extras ++ shared w' \/
              shared w = map Some extras ++ None :: shared w'
    end.
Proof.
  intros Hb Hl Hv. set (m := model_id_ r).
  assert (1 <= max_batch_size cfg /\ b = mk cfg) as Hcfg.
  { unfold BatchBuilder.new in Hb. zcases; simplify_eq. by split. }
  destruct Hcfg as [Hmax ->].
  destruct (triple_total _ _ _ w (nb_form_answers (mk cfg) (Some l) aw)
    (triple_form_answers cfg (shared w) l m aw))
    as (fb & w' & Hrun & extras & Hreq & Hall & Hlen & Hdef).
  { split; [by exists r|]. by split. }
  exists fb, w', extras. rewrite Hreq. split; [done|]. split; [done|].
  split; [simpl in *; lia|]. split; [done|].
  destruct (deferred fb) as [p|]; simpl in Hdef.
  - destruct Hdef as [[Hs _] HD]. split; [|done]. rewrite <- Hs, map_app, <- app_assoc. done.
  - destruct Hdef as [[Hs _]|[Hs|Hs]]; auto.
Qed.

(** Three answers: a request of the same model, one of another, one more. *)
Definition demo_request (id model : string) : InferenceRequest.t :=
  InferenceRequest.new id model "p" 8.

Definition demo_batch_world : World answers :=
  mkWorld ({[1%positive := demo_request "a" "m"; 2%positive := demo_request "b" "m";
             3%positive := demo_request "c" "n"]} : gmap loc InferenceRequest.t) 0 []
    [Some (Some 2%positive); Some (Some 3%positive); Some (Some 2%positive)] [].

Lemma form_partitions_witness :
  exists fb w' extras,
    form (mk (mkBatchConfig 4 10)) (Some 1%positive) pop_answer true (Some live_only) demo_batch_world
      = (Ret fb, w') /\
    requests fb = Some 1%positive :: extras /\
    Z.of_nat (length (requests fb)) <= 4 /\
    Forall (has_model "m" w') (requests fb) /\
    match deferred fb with
    | Some p => shared demo_batch_world = map Some extras ++ Some p :: shared w' /\
        (dead_ptr p w' \/ other_model "m" w' p)
    | None => shared demo_batch_world = map Some extras ++ shared w' \/
              shared demo_batch_world = map Some extras ++ None :: shared w'
    end.
Proof.
  apply (form_partitions (mkBatchConfig 4 10) (mk (mkBatchConfig 4 10)) 1%positive
           (demo_request "a" "m") true demo_batch_world); [reflexivity|reflexivity|].
  intros p Hp. repeat (apply elem_of_cons in Hp as [[= ->]|Hp]);
    [intros l [= <-]; eexists; split; [reflexivity|done]..|by apply elem_of_nil in Hp].
Defined.
