(* ===== verification/Scheduler.v ===== *)
(** * The scheduler interface and the FIFO scheduler

    [include/airuntime/scheduler.hpp] and [src/scheduler.cpp]. The interface is
    a class over the shared state; [SchedulerLaws] is what admission and the
    routing thread rely on. [FifoScheduler] is a bounded queue whose [next]
    skips requests that are no longer live. *)

From S2P Require Import Prelude Status Requests World Queue Batch.
Import InferenceRequest BoundedQueue.

Class IRequestScheduler (X : Type) `{!Shared X} := {
  sched_enqueue : RequestPtr -> M X Status;
  sched_next : M X (option RequestPtr);
  sched_close : M X unit;
  sched_size : M X Z;
  sched_capacity : M X Z
}.

(** What an attempt to enqueue may report. *)
Definition enqueue_report (st : Status) : Prop :=
  code st = ENone \/ code st = QueueFull \/ code st = QueueClosed.

Class SchedulerLaws (X : Type) `{!Shared X} `{!IRequestScheduler X} : Prop := {
  enqueue_mono p :: Mono (sched_enqueue p);
  enqueue_nb p :: NonBlocking (sched_enqueue p);
  enqueue_reports l : triple (req_at any_req l) (sched_enqueue (Some l))
    (fun st _ => enqueue_report st) no_throw;
  next_mono :: Mono sched_next;
  next_non_null : triple (fun _ => True) sched_next
    (fun o w => forall p, o = Some p -> exists l, p = Some l /\ req_at any_req l w)
    (fun _ _ => True)
}.

(** ** A queue that other threads only push to and close

    The consumer of a lane is a single thread: the routing thread for the
    scheduler, the worker's own thread for its lane. *)
Class LaneRely {X : Type} `{!Shared X} (L : lens X (BoundedQueue.t RequestPtr)) : Prop :=
  lane_rely a x : exists pushed,
    queue_ (view L (act_step a x)) = queue_ (view L x) ++ pushed /\ (length pushed <= 1)%nat /\
    capacity_ (view L (act_step a x)) = capacity_ (view L x) /\
    (closed_ (view L x) = true -> closed_ (view L (act_step a x)) = true).

Section lane.
Context {X : Type} `{!Shared X} (L : lens X (BoundedQueue.t RequestPtr)).

Definition lane_length (x : X) : nat := length (queue_ (view L x)).

Lemma stable_lane_potential n : LaneRely L -> Stable (fun w => (potential lane_length w <= n)%nat).
Proof.
  intros HL. apply stable_potential. intros a x. unfold lane_length.
  destruct (HL a x) as (pushed & -> & ? & _). rewrite length_app. lia.
Qed.

(** What the consumer has taken, out of what was there and what was pushed. *)
Definition taken (q0 gone : list RequestPtr) (w : World X) : Prop :=
  exists pushed, q0 ++ pushed = gone ++ queue_ (view L (shared w)).

Lemma stable_taken q0 gone : LaneRely L -> Stable (taken q0 gone).
Proof.
  intros HL. apply (stable_shared (fun x => exists pushed, q0 ++ pushed = gone ++ queue_ (view L x))).
  intros a x [pushed Hp]. destruct (HL a x) as (more & -> & _).
  exists (pushed ++ more). by rewrite !app_assoc, Hp.
Qed.

(** Popping takes the oldest element; an empty answer means closed and
    drained. *)
Lemma taken_pop q0 gone (w : World X) :
  pop_ready (view L (shared w)) = true -> taken q0 gone w ->
  let '(o, x) := focus L pop_body (shared w) in
  match o with
  | Some p => taken q0 (gone ++ [p]) (set_shared x w)
  | None => taken q0 gone (set_shared x w) /\ queue_ (view L x) = [] /\ closed_ (view L x) = true
  end.
Proof.
  intros Hr [pushed Hp]. unfold focus, pop_body, pop_ready, empty, taken in *. simpl.
  rewrite view_over. destruct (queue_ (view L (shared w))) as [|p q] eqn:Hq; simpl.
  - rewrite Hq. split; [by exists pushed|]. split; [done|].
    rewrite bool_decide_true in Hr by done. done.
  - exists pushed. by rewrite <- app_assoc.
Qed.

Lemma triple_wait_pop q0 gone :
  LaneRely L ->
  triple (taken q0 gone) (wait_pop L)
    (fun o w => match o with
       | Some p => taken q0 (gone ++ [p]) w
       | None => taken q0 gone w /\ queue_ (view L (shared w)) = [] /\
                 closed_ (view L (shared w)) = true end) no_throw.
Proof.
  intros HL. apply triple_wait_then; [by apply stable_taken|]. intros w Hw Hr.
  pose proof (taken_pop q0 gone w Hr Hw) as H.
  by destruct (focus L pop_body (shared w)) as [[p|] x].
Qed.

(** Every pointer in the lane, and every pointer the schedule will push, is
    null or satisfies [S]. *)
Definition pushes_at (S : InferenceRequest.t -> Prop) (a : act) (w : World X) : Prop :=
  forall x p, p ∈ queue_ (view L (act_step a x)) -> p ∈ queue_ (view L x) \/ ptr_at S p w.

Definition lane_at (S : InferenceRequest.t -> Prop) (w : World X) : Prop :=
  (forall p, p ∈ queue_ (view L (shared w)) -> ptr_at S p w) /\ env_ok (pushes_at S) w.

#[global] Instance stable_lane_at S : Closed S -> Stable (lane_at S).
Proof.
  intros HS. apply stable_guarded.
  - intros a w w' Hle H x p Hp. destruct (H x p Hp); [by left|right]. by eapply upward.
  - intros w w' Hle -> H p Hp. eapply upward; [exact Hle|]. by apply H.
  - intros a w Ha H p Hp. simpl in Hp. eapply upward; [apply set_shared_le|].
    destruct (Ha _ _ Hp); [by apply H|done].
Qed.

Lemma lane_at_pop S (w : World X) :
  Closed S -> lane_at S w ->
  lane_at S (set_shared (focus L pop_body (shared w)).2 w) /\
  forall p, (focus L pop_body (shared w)).1 = Some p ->
    ptr_at S p (set_shared (focus L pop_body (shared w)).2 w).
Proof.
  intros HS [Hq He]. set (w' := set_shared (focus L pop_body (shared w)).2 w).
  assert (Hle : world_le w w') by apply set_shared_le.
  assert (Hin : forall p, p ∈ queue_ (view L (shared w)) -> ptr_at S p w').
  { intros p Hp. eapply upward; [exact Hle|]. by apply Hq. }
  assert (Hsh : queue_ (view L (shared w')) = queue_ (pop_body (view L (shared w))).2).
  { unfold w', focus. simpl. by rewrite view_over. }
  repeat split.
  - intros p. rewrite Hsh. unfold pop_body.
    destruct (queue_ (view L (shared w))) as [|p0 q] eqn:Hw; simpl; intros Hp;
      apply Hin; [by rewrite Hw in Hp|by right].
  - intros b a Hb Ha x p Hp. destruct (He b a Hb Ha x p Hp); [by left|right]. by eapply upward.
  - intros p. unfold focus, pop_body. simpl. destruct (queue_ (view L (shared w))) as [|p0 q] eqn:Hw;
      [done|]. intros [= <-]. apply Hin. left.
Qed.

(** A pop that stays asleep leaves an open, empty lane and an exhausted
    schedule. *)
Lemma wait_pop_blocked (w w' : World X) :
  wait_pop L w = (Blocked, w') ->
  env w' = [] /\ queue_ (view L (shared w')) = [] /\ closed_ (view L (shared w')) = false.
Proof.
  unfold wait_pop, wait_then. set (w1 := interfere w).
  destruct (wait_env _ (env w1) w1) as [[] w2] eqn:E; [by destruct (focus _ _ _)|].
  intros [= <-]. apply wait_env_false in E as [He Hc]. split; [done|].
  unfold pop_ready, empty in Hc. apply orb_false_iff in Hc as [Hc Hcl]. by bool_hyps.
Qed.

(** A successful pop lowers the potential. *)
Lemma wait_pop_potential n :
  LaneRely L ->
  triple (fun w => (potential lane_length w <= n)%nat) (wait_pop L)
    (fun o w => forall p, o = Some p -> (S (potential lane_length w) <= n)%nat) no_throw.
Proof.
  intros HL. apply triple_wait_then; [by apply stable_lane_potential|]. intros w Hw _ p.
  unfold focus, pop_body, potential, lane_length in *. simpl. rewrite view_over.
  destruct (queue_ (view L (shared w))) as [|p' q]; simpl in *; [done|]. intros _. lia.
Qed.
End lane.

Module FifoScheduler.
Section fifo.
Context {X : Type} `{!Shared X} (L : lens X (BoundedQueue.t RequestPtr)).

Definition new (capacity : Z) : exn + BoundedQueue.t RequestPtr := BoundedQueue.new capacity.

Definition enqueue (p : RequestPtr) : M X Status := atomically (focus L (try_push p)).

(** The [while (true)] of [next]; out of fuel it is still waiting. *)
Fixpoint next_loop (fuel : nat) : M X (option RequestPtr) :=
  match fuel with
  | O => fun w => (Blocked, w)
  | S fuel =>
      item ← wait_pop L;
      match item with
      | None => mret None
      | Some p =>
          dead ← is_dead_request p;
          if negb (dead : bool) then mret (Some p) else next_loop fuel
      end
  end.

(** One turn per request that is queued or still to be pushed, and a last
    one, is enough ([next_loop_fuel]). *)
Definition next : M X (option RequestPtr) :=
  fun w => next_loop (S (potential (lane_length L) w)) w.

Definition close : M X unit := updating (over L BoundedQueue.close).
Definition size : M X Z := reading (fun x => BoundedQueue.size (view L x)).
Definition capacity : M X Z := reading (fun x => BoundedQueue.capacity (view L x)).
End fifo.
End FifoScheduler.

Section fifo.
Context {X : Type} `{!Shared X} (L : lens X (BoundedQueue.t RequestPtr)).

#[export] Instance fifo_scheduler : IRequestScheduler X := {|
  sched_enqueue := FifoScheduler.enqueue L;
  sched_next := FifoScheduler.next L;
  sched_close := FifoScheduler.close L;
  sched_size := FifoScheduler.size L;
  sched_capacity := FifoScheduler.capacity L
|}.

#[global] Instance mono_wait_pop : Mono (wait_pop L).
Proof. unfold wait_pop. apply _. Qed.

#[global] Instance mono_next_loop fuel : Mono (FifoScheduler.next_loop L fuel).
Proof. induction fuel; simpl; [by intros w|]. apply _. Qed.

#[global] Instance mono_fifo_next : Mono (FifoScheduler.next L).
Proof. intros w. apply mono_next_loop. Qed.

Lemma next_loop_non_null fuel :
  triple (fun _ => True) (FifoScheduler.next_loop L fuel)
    (fun o w => forall p, o = Some p -> exists l, p = Some l /\ req_at any_req l w)
    (fun _ _ => True).
Proof.
  induction fuel as [|fuel IH]; simpl; [done|].
  eapply triple_bind; [by apply (triple_mono (fun _ => True)); apply _|]. intros [p|].
  2:{ by apply triple_ret. }
  eapply (triple_bind _ _ (fun d w => d = false -> exists l, p = Some l /\ req_at any_req l w)).
  { intros w _. destruct p as [l|]; [|done].
    pose proof (mono_is_dead (Some l) w) as Hm.
    destruct (is_dead_request (Some l) w) as [[d|e|] w'] eqn:E; try done. intros ->.
    exists l. split; [done|]. by eapply is_dead_valid. }
  intros [|]; simpl; [by eapply triple_pre; [|apply IH]|].
  apply triple_ret. intros w H p' [= <-]. by apply H.
Qed.

Lemma fifo_enqueue_reports l :
  triple (X := X) (req_at any_req l) (FifoScheduler.enqueue L (Some l))
    (fun st _ => enqueue_report st) no_throw.
Proof.
  apply triple_atomically_stable; [apply _|]. intros w _. unfold focus, try_push, enqueue_report. simpl.
  destruct (closed_ _); [by auto|]. destruct (full _); by auto.
Qed.

#[export] Instance fifo_laws : SchedulerLaws X.
Proof.
  split; simpl; unfold FifoScheduler.enqueue; try apply _.
  - apply fifo_enqueue_reports.
  - intros w _. by apply next_loop_non_null.
Qed.

(** More fuel than the potential changes nothing. *)
Lemma next_loop_fuel n k w :
  LaneRely L -> (potential (lane_length L) w < n)%nat ->
  FifoScheduler.next_loop L (n + k) w = FifoScheduler.next_loop L n w.
Proof.
  intros HL. revert w. induction n as [|n IH]; intros w Hn; [lia|]. simpl. unfold mbind, M_bind.
  assert (Hle : (potential (lane_length L) w <= n)%nat) by lia.
  pose proof (wait_pop_potential L n HL w Hle) as Hp.
  destruct (wait_pop L w) as [[[p|]|e|] w1]; [|done..]. specialize (Hp p eq_refl).
  assert (Hq : (potential (lane_length L) (is_dead_request p w1).2 <= n - 1)%nat).
  { apply (quiet (m := is_dead_request p) _ w1 (stable_lane_potential L (n - 1) HL)). lia. }
  destruct (is_dead_request p w1) as [[[|]|e|] w2]; simpl in *; [|done..]. apply IH. lia.
Qed.
End fifo.

(** ** What [next] returns *)

Section fifo_order.
Context {X : Type} `{!Shared X} (L : lens X (BoundedQueue.t RequestPtr)) `{!LaneRely L}.

Lemma all_dead_upward ps : Upward (X := X) (fun w => Forall (fun p => dead_ptr p w) ps).
Proof.
  intros w w' Hle H. eapply Forall_impl; [exact H|]. intros p. by apply (ptr_at_upward _ p _).
Qed.

(** The requests taken so far were all dead. *)
Definition skipped (q0 gone : list RequestPtr) (w : World X) : Prop :=
  taken L q0 gone w /\ Forall (fun p => dead_ptr p w) gone.

Definition next_outcome (q0 : list RequestPtr) (o : option RequestPtr) (w : World X) : Prop :=
  exists gone, Forall (fun p => dead_ptr p w) gone /\
    match o with
    | Some p => taken L q0 (gone ++ [p]) w /\ exists l, p = Some l /\ req_at any_req l w
    | None => taken L q0 gone w /\ queue_ (view L (shared w)) = [] /\
              closed_ (view L (shared w)) = true
    end.

Lemma triple_wait_pop_at q0 gone :
  triple (fun w => lane_at L any_req w /\ taken L q0 gone w) (wait_pop L)
    (fun o w => lane_at L any_req w /\
       match o with
       | Some p => taken L q0 (gone ++ [p]) w /\ valid_ptr p w
       | None => taken L q0 gone w /\ queue_ (view L (shared w)) = [] /\
                 closed_ (view L (shared w)) = true end) no_throw.
Proof.
  apply triple_wait_then; [apply stable_and; [apply _|by apply stable_taken]|].
  intros w [Hl Hw] Hr. pose proof (taken_pop L q0 gone w Hr Hw) as H.
  destruct (lane_at_pop L any_req w _ Hl) as [Hl' Hp].
  destruct (focus L pop_body (shared w)) as [[p|] x]; simpl in *; [|done].
  split; [done|]. split; [done|]. by apply Hp.
Qed.

Lemma triple_next_loop fuel q0 gone :
  triple (fun w => lane_at L any_req w /\ skipped q0 gone w) (FifoScheduler.next_loop L fuel)
    (next_outcome q0) no_throw.
Proof.
  revert gone. induction fuel as [|fuel IH]; intros gone; simpl; [done|].
  eapply triple_bind.
  { eapply triple_pre; [|apply (triple_frame_safe _ _ _ _ no_throw
      (all_dead_upward gone) _ (triple_wait_pop_at q0 gone))]. by intros w (? & ? & ?). }
  intros [p|]; [|apply triple_ret; intros w [[_ H] Hd]; by exists gone].
  pose proof (stable_taken L q0 (gone ++ [p]) _).
  pose proof (all_dead_upward gone).
  eapply triple_bind.
  - eapply triple_pre; [|apply (triple_frame_stable_safe (valid_ptr p)
      (fun w => lane_at L any_req w /\ taken L q0 (gone ++ [p]) w /\
         Forall (fun p => dead_ptr p w) gone) _ _ no_throw _ _
      (triple_dead_check any_req p _))]. by intros w [(? & ? & ?) ?].
  - intros [|]; simpl.
    + eapply triple_pre; [|apply (IH (gone ++ [p]))]. intros w (Hd & Hl & Ht & Hg).
      split; [done|]. split; [done|]. apply Forall_app. split; [done|]. by constructor.
    + apply triple_ret. intros w ((l & -> & Hl) & _ & Ht & Hg). exists gone. split; [done|]. eauto.
Qed.

Lemma next_loop_blocked fuel w w' :
  (potential (lane_length L) w < fuel)%nat ->
  FifoScheduler.next_loop L fuel w = (Blocked, w') ->
  env w' = [] /\ queue_ (view L (shared w')) = [] /\ closed_ (view L (shared w')) = false.
Proof.
  revert w. induction fuel as [|fuel IH]; intros w Hn; [lia|]. simpl. unfold mbind, M_bind.
  assert (Hle : (potential (lane_length L) w <= fuel)%nat) by lia.
  pose proof (wait_pop_potential L fuel _ w Hle) as Hp.
  destruct (wait_pop L w) as [[[p|]|e|] w1] eqn:E; [|done|done|].
  2:{ intros [= <-]. by apply (wait_pop_blocked L) in E. }
  specialize (Hp p eq_refl).
  assert (Hq : (potential (lane_length L) (is_dead_request p w1).2 <= fuel - 1)%nat).
  { apply (quiet (m := is_dead_request p) _ w1 (stable_lane_potential L (fuel - 1) _)). lia. }
  pose proof (nb_is_dead p w1) as Hnb.
  destruct (is_dead_request p w1) as [[[|]|e|] w2]; simpl in *; try done. apply IH. lia.
Qed.
End fifo_order.


(** A lane on its own: other threads push to it and close it. *)
Record Lane := mkLane { lane : BoundedQueue.t RequestPtr }.
Inductive lane_act := LanePush (p : RequestPtr) | LaneClose.

#[export] Instance lane_shared : Shared Lane := {|
  act := lane_act;
  act_step a x := mkLane (match a with
                          | LanePush p => (try_push p (lane x)).2
                          | LaneClose => BoundedQueue.close (lane x) end)
|}.

Definition lane_lens : lens Lane (BoundedQueue.t RequestPtr) :=
  mkLens Lane _ lane (fun f x => mkLane (f (lane x))) (fun f x => eq_refl).

Lemma try_push_grows p (q : BoundedQueue.t RequestPtr) :
  exists pushed, queue_ (try_push p q).2 = queue_ q ++ pushed /\ (length pushed <= 1)%nat /\
    capacity_ (try_push p q).2 = capacity_ q /\ closed_ (try_push p q).2 = closed_ q /\
    (forall p', p' ∈ pushed -> p' = p).
Proof.
  unfold try_push. destruct (closed_ q) eqn:Hc; [|destruct (full q)]; simpl.
  - exists []. rewrite app_nil_r. repeat split; [simpl; lia|done|]. by intros ? ?%elem_of_nil.
  - exists []. rewrite app_nil_r. repeat split; [simpl; lia|done|]. by intros ? ?%elem_of_nil.
  - exists [p]. repeat split; [simpl; lia|done|]. by intros p' ->%list_elem_of_singleton.
Qed.

#[export] Instance lane_lens_rely : LaneRely lane_lens.
Proof.
  intros [p|] x; simpl.
  - destruct (try_push_grows p (lane x)) as (pushed & ? & ? & ? & Hc & _).
    exists pushed. rewrite Hc. auto.
  - exists []. rewrite app_nil_r. repeat split. simpl. lia.
Qed.

(** A cancelled request in front of a live one; another thread closes. *)
Definition demo_lane_world : World Lane :=
  mkWorld ({[1%positive := (try_cancel (demo_request "a" "m")).2.1;
             2%positive := demo_request "b" "m"]} : gmap loc InferenceRequest.t) 0 []
    (mkLane (BoundedQueue.mk 4 [Some 1%positive] false))
    [[EnvShared (LanePush (Some 2%positive))]; [EnvShared LaneClose]].

Lemma demo_lane_at : lane_at lane_lens any_req demo_lane_world.
Proof.
  split.
  - intros p Hp%list_elem_of_singleton l. subst p. intros [= <-]. by eexists.
  - intros b a Hb Ha. simpl in Hb.
    apply elem_of_cons in Hb as [->|Hb]; [|apply list_elem_of_singleton in Hb as ->].
    + apply list_elem_of_singleton in Ha. injection Ha as ->. intros x p Hp. simpl in Hp.
      destruct (try_push_grows (Some 2%positive) (lane x)) as (pushed & Hq & _ & _ & _ & Hps).
      rewrite Hq in Hp. apply elem_of_app in Hp as [?|Hp]; [by left|right].
      rewrite (Hps p Hp). intros l [= <-]. by eexists.
    + apply list_elem_of_singleton in Ha. injection Ha as ->. intros x p Hp. by left.
Qed.

