(* ===== verification/Admission.v ===== *)
(** * Admission

    [include/airuntime/admission_controller.hpp] and
    [src/admission_controller.cpp]: the step from [Received] to [Queued] and
    into the scheduler, written against the scheduler interface. *)

From S2P Require Import Prelude Status Requests World Queue Batch Scheduler.
Import InferenceRequest.

Module AdmissionController.
Section admit_request.
Context {X : Type} `{!Shared X} `{!IRequestScheduler X}.

(** The status the request is rejected with. *)
Definition reject_status_of (enqueue_status : Status) : Status :=
  let reject_code := if bool_decide (code enqueue_status = QueueClosed)
                     then RuntimeStopped else code enqueue_status in
  Status.error reject_code
    (if bool_decide (message enqueue_status = "") then "request rejected by admission"
     else message enqueue_status).

Definition admit_request (request : RequestPtr) : M X Status :=
  match request with
  | None => mret (Status.error InternalError "null request")
  | Some l =>
      tp ← now;
      _ ← req_try_timeout_if_expired tp l;
      terminal ← req_is_terminal l;
      if (terminal : bool) then mret Status.success else
      queued ← req_transition_to Queued l;
      if negb (Status.ok queued) then mret queued else
      enqueue_status ← sched_enqueue (Some l);
      if negb (Status.ok enqueue_status) then
        let reject_status := reject_status_of enqueue_status in
        transition ← req_try_reject reject_status l;
        if negb (transition : bool)
        then mret (Status.error InvalidStateTransition "request already terminal")
        else mret reject_status
      else mret Status.success
  end.
End admit_request.
End AdmissionController.

Import AdmissionController.

(** ** Request operations in triples, shared by the clients *)

Section request_triples.
Context {X : Type} `{!Shared X}.

Lemma triple_timeout_if_expired S tp l E :
  Closed S ->
  triple (X := X) (req_at S l) (req_try_timeout_if_expired tp l) (fun _ => req_at S l) E.
Proof.
  intros HS. unfold req_try_timeout_if_expired.
  eapply triple_bind; [by apply (triple_inspect S _ (fun _ => S))|].
  intros [|]; [|by apply triple_ret].
  apply (triple_mutate S _ (fun _ => S)); [done|done|].
  intros r Hr. eapply HS; [apply finish_evolves|done].
Qed.

Lemma triple_is_terminal S l E :
  Closed S ->
  triple (X := X) (req_at S l) (req_is_terminal l)
    (fun b => req_at (fun r => S r /\ (b = true -> terminal_req r)) l) E.
Proof. intros HS. by apply (triple_inspect S). Qed.

(** A terminal transition that is granted leaves the request terminal. *)
Lemma triple_finish S next res l E :
  Closed S -> is_terminal_state next = true ->
  triple (X := X) (req_at S l) (mutate (finish next res) l)
    (fun b => req_at (fun r => S r /\ (b = true -> terminal_req r)) l) E.
Proof.
  intros HS Hn. apply (triple_mutate S); [done|intros; apply _|].
  intros r Hr. split; [eapply HS; [apply finish_evolves|done]|].
  rewrite finish_spec. by destruct (is_valid_transition (state_ r) next).
Qed.

(** A refused rejection means the request is running or terminal. *)
Lemma triple_reject S e l E :
  Closed S ->
  triple (X := X) (req_at S l) (req_try_reject e l)
    (fun b => req_at (fun r => S r /\ started r /\ (b = true -> terminal_req r)) l) E.
Proof.
  intros HS. apply (triple_mutate S); [done|intros; apply _|].
  intros r Hr. split; [eapply HS; [apply finish_evolves|done]|].
  unfold try_reject. rewrite finish_spec.
  destruct (is_valid_transition (state_ r) Rejected) eqn:E1; simpl.
  - split; [unfold started; simpl; lia|done].
  - split; [|done]. unfold started. destruct (state_ r); vm_compute in E1; simpl; lia || done.
Qed.

(** After an attempt to queue a request it is no longer [Received]. *)
Lemma triple_to_queued l E :
  triple (X := X) (req_at any_req l) (req_transition_to Queued l)
    (fun st => req_at (fun r => admitted r /\
       (Status.ok st = false -> code st = InvalidStateTransition)) l) E.
Proof.
  apply (triple_mutate any_req); [apply _|intros; apply _|].
  intros r _. rewrite transition_to_spec. unfold admitted.
  destruct (is_valid_transition (state_ r) Queued) eqn:E1; simpl; [done|].
  split; [|done]. by intros Hr; rewrite Hr in E1.
Qed.
End request_triples.

Section admission.
Context {X : Type} `{!Shared X} `{!IRequestScheduler X} `{!SchedulerLaws X}.

#[global] Instance mono_admit p : Mono (admit_request p).
Proof. unfold admit_request, req_try_timeout_if_expired, req_is_terminal, req_transition_to,
  req_try_reject, req_try_timeout. apply _. Qed.

#[global] Instance nb_admit p : NonBlocking (admit_request p).
Proof. unfold admit_request, req_try_timeout_if_expired, req_is_terminal, req_transition_to,
  req_try_reject, req_try_timeout. apply _. Qed.

(** What the caller of [admit_request] knows of the request and the status. *)
Definition admit_outcome (l : loc) (st : Status) (w : World X) : Prop :=
  req_at admitted l w /\ code st <> QueueClosed /\
  (Status.ok st = false -> code st <> InvalidStateTransition -> req_at terminal_req l w).

Lemma triple_admit l : triple (req_at any_req l) (admit_request (Some l)) (admit_outcome l) no_throw.
Proof.
  unfold admit_request. eapply triple_bind; [apply triple_now, _|]. intros tp.
  eapply triple_bind; [apply triple_timeout_if_expired, _|]. intros timed_out.
  eapply triple_bind; [apply triple_is_terminal, _|]. intros [|].
  { apply triple_ret. intros w (r & Hr & _ & Ht). split; [|done]. exists r. split; [done|].
    unfold admitted. intros Hs. specialize (Ht eq_refl). unfold terminal_req, is_terminal in Ht.
    by rewrite Hs in Ht. }
  eapply triple_bind.
  { eapply triple_pre; [|apply triple_to_queued]. intros w. by apply req_at_mono. }
  intros queued. destruct (Status.ok queued) eqn:Hq; simpl.
  2:{ apply triple_ret. intros w (r & Hr & Ha & Hc). split; [by exists r|]. rewrite Hc by done.
      split; [done|]. intros _ []. done. }
  eapply triple_bind.
  { eapply triple_pre; [|apply (triple_frame_safe (req_at any_req l) (req_at admitted l) _ _ no_throw
      _ _ (enqueue_reports l))]. intros w H. split; by eapply req_at_mono; [|exact H]; intros r []. }
  intros st. apply triple_pull. intros Hst. destruct (Status.ok st) eqn:Hok; simpl.
  { apply triple_ret. intros w H. split; [done|]. by split. }
  eapply triple_bind; [apply (triple_reject admitted), _|]. intros [|]; apply triple_ret;
    intros w (r & Hr & Ha & _ & Ht); (split; [by exists r|]).
  - assert (Hcode : code (reject_status_of st) <> QueueClosed).
    { unfold reject_status_of. simpl. by case_bool_decide. }
    split; [done|]. intros _ _. exists r. auto.
  - split; [done|]. intros _ []. done.
Qed.
End admission.

(** Admission always resolves. For every scheduler that keeps the
    interface and every schedule, [admit_request] returns; afterwards the request is
    no longer [Received]; a closed queue is reported as [RuntimeStopped] and
    never as [QueueClosed]; and whenever admission reports a failure other
    than a lost race over the request's state, the request is terminal, so no
    caller is left waiting for a request the scheduler does not hold. *)
Theorem admit_resolves {X} `{!Shared X} `{!IRequestScheduler X} `{!SchedulerLaws X}
    (w : World X) l :
  req_at any_req l w ->
  exists st w', admit_request (Some l) w = (Ret st, w') /\ admit_outcome l st w'.
Proof. apply triple_total; [apply _|apply triple_admit]. Qed.

(** A full queue: the request is rejected with [QueueFull]. *)
Definition full_lane_world : World Lane :=
  mkWorld ({[1%positive := demo_request "a" "m"; 2%positive := demo_request "b" "m"]}
             : gmap loc InferenceRequest.t) 0 []
    (mkLane (BoundedQueue.mk 1 [Some 1%positive] false)) [[EnvTick 5]].

Lemma admit_resolves_witness :
  exists st w', @admit_request Lane _ (fifo_scheduler lane_lens) (Some 2%positive) full_lane_world = (Ret st, w') /\
    admit_outcome 2%positive st w' /\ code st = QueueFull.
Proof.
  destruct (@admit_resolves Lane _ (fifo_scheduler lane_lens) (fifo_laws lane_lens)
              full_lane_world 2%positive) as (st & w' & Hrun & Hout); [by eexists|].
  exists st, w'. split; [exact Hrun|]. split; [exact Hout|].
  vm_compute in Hrun. by injection Hrun as <- _.
Defined.
