(* ===== verification/Worker.v ===== *)
(** * The worker

    [include/airuntime/worker.hpp] and [src/worker.cpp]: a bounded lane of
    requests, one thread that takes them, forms same-model batches, makes the
    model resident and runs the batch on the backend. The operations run
    inside a larger shared state through a lens, so that the same definitions
    serve the worker on its own and the workers of a runtime. *)

From S2P Require Import Prelude Status Requests World Queue Registry Resources Eviction.
From S2P Require Import Backends Manager Router Batch Scheduler.
Import InferenceRequest.

Inductive WorkerState := Idle | Busy.

Record WorkerBatchMetrics := mkBatchMetrics {
  batches_executed : Z;
  requests_executed_via_batches : Z;
  multi_request_batches : Z;
  max_batch_size_observed : Z
}.

Module Worker.

(** [WorkerConfig]; the pointers may be null. *)
Record WorkerConfig (B : Type) := mkConfig {
  cfg_worker_id : WorkerId;
  cfg_queue_capacity : Z;
  cfg_memory_budget_bytes : Z;
  cfg_batch_config : BatchBuilderConfig;
  cfg_registry : option ModelRegistry;
  cfg_backend : option B;
  cfg_eviction_policy : option IEvictionPolicy
}.
Arguments cfg_worker_id {B}.
Arguments cfg_queue_capacity {B}.
Arguments cfg_memory_budget_bytes {B}.
Arguments cfg_batch_config {B}.
Arguments cfg_registry {B}.
Arguments cfg_backend {B}.
Arguments cfg_eviction_policy {B}.

(** The backend is the one the model manager refers to. [thread_] says
    whether the worker's thread is running. *)
Record t (B : Type) := mk {
  worker_id_ : WorkerId;
  queue_capacity_ : Z;
  batch_builder_ : BatchBuilder.t;
  model_manager_ : ModelManager.t B;
  lane_ : BoundedQueue.t RequestPtr;
  state_ : WorkerState;
  active_count_ : Z;
  batch_metrics_ : WorkerBatchMetrics;
  deferred_ : option RequestPtr;
  queued_count_ : Z;
  accepting_ : bool;
  started_ : bool;
  thread_ : bool
}.
Arguments mk {B}.
Arguments worker_id_ {B}.
Arguments queue_capacity_ {B}.
Arguments batch_builder_ {B}.
Arguments model_manager_ {B}.
Arguments lane_ {B}.
Arguments state_ {B}.
Arguments active_count_ {B}.
Arguments batch_metrics_ {B}.
Arguments deferred_ {B}.
Arguments queued_count_ {B}.
Arguments accepting_ {B}.
Arguments started_ {B}.
Arguments thread_ {B}.

Section fields.
Context {B : Type}.
Implicit Types s : t B.

Definition over_manager (f : ModelManager.t B -> ModelManager.t B) s : t B :=
  mk (worker_id_ s) (queue_capacity_ s) (batch_builder_ s) (f (model_manager_ s)) (lane_ s)
     (state_ s) (active_count_ s) (batch_metrics_ s) (deferred_ s) (queued_count_ s)
     (accepting_ s) (started_ s) (thread_ s).
Definition over_lane (f : BoundedQueue.t RequestPtr -> BoundedQueue.t RequestPtr) s : t B :=
  mk (worker_id_ s) (queue_capacity_ s) (batch_builder_ s) (model_manager_ s) (f (lane_ s))
     (state_ s) (active_count_ s) (batch_metrics_ s) (deferred_ s) (queued_count_ s)
     (accepting_ s) (started_ s) (thread_ s).
Definition set_activity (st : WorkerState) (n : Z) s : t B :=
  mk (worker_id_ s) (queue_capacity_ s) (batch_builder_ s) (model_manager_ s) (lane_ s)
     st n (batch_metrics_ s) (deferred_ s) (queued_count_ s)
     (accepting_ s) (started_ s) (thread_ s).
Definition set_batch_metrics (m : WorkerBatchMetrics) s : t B :=
  mk (worker_id_ s) (queue_capacity_ s) (batch_builder_ s) (model_manager_ s) (lane_ s)
     (state_ s) (active_count_ s) m (deferred_ s) (queued_count_ s)
     (accepting_ s) (started_ s) (thread_ s).
Definition set_deferred (d : option RequestPtr) s : t B :=
  mk (worker_id_ s) (queue_capacity_ s) (batch_builder_ s) (model_manager_ s) (lane_ s)
     (state_ s) (active_count_ s) (batch_metrics_ s) d (queued_count_ s)
     (accepting_ s) (started_ s) (thread_ s).
Definition set_queued_count (n : Z) s : t B :=
  mk (worker_id_ s) (queue_capacity_ s) (batch_builder_ s) (model_manager_ s) (lane_ s)
     (state_ s) (active_count_ s) (batch_metrics_ s) (deferred_ s) n
     (accepting_ s) (started_ s) (thread_ s).
Definition set_accepting (b : bool) s : t B :=
  mk (worker_id_ s) (queue_capacity_ s) (batch_builder_ s) (model_manager_ s) (lane_ s)
     (state_ s) (active_count_ s) (batch_metrics_ s) (deferred_ s) (queued_count_ s)
     b (started_ s) (thread_ s).
Definition set_thread (started running : bool) s : t B :=
  mk (worker_id_ s) (queue_capacity_ s) (batch_builder_ s) (model_manager_ s) (lane_ s)
     (state_ s) (active_count_ s) (batch_metrics_ s) (deferred_ s) (queued_count_ s)
     (accepting_ s) started running.

(** The member initialisers in order; any of them may throw. *)
Definition new (config : WorkerConfig B) : exn + t B :=
  if (cfg_queue_capacity config =? 0) || (cfg_memory_budget_bytes config =? 0)
  then inl (StdException "Worker requires positive queue capacity and memory budget")
  else match BatchBuilder.new (cfg_batch_config config) with
  | inl ex => inl ex
  | inr builder =>
      match cfg_backend config with
      | None => inl (StdException "Worker requires a non-null backend")
      | Some backend =>
          match ModelManager.new (cfg_registry config) backend (cfg_memory_budget_bytes config)
                  (cfg_eviction_policy config) with
          | inl ex => inl ex
          | inr manager =>
              match BoundedQueue.new (cfg_queue_capacity config) with
              | inl ex => inl ex
              | inr lane =>
                  inr (mk (cfg_worker_id config) (cfg_queue_capacity config) builder manager lane
                          Idle 0 (mkBatchMetrics 0 0 0 0) None 0 false false false)
              end
          end
      end
  end.

Definition lane_of : lens (t B) (BoundedQueue.t RequestPtr) :=
  mkLens (t B) _ lane_ over_lane (fun f s => eq_refl).

(** [record_batch_metrics] *)
Definition count_batch (executed_count : Z) (m : WorkerBatchMetrics) : WorkerBatchMetrics :=
  mkBatchMetrics (batches_executed m +! 1)
    (requests_executed_via_batches m +! executed_count)
    (if 1 <? executed_count then multi_request_batches m +! 1 else multi_request_batches m)
    (if max_batch_size_observed m <? executed_count then executed_count
     else max_batch_size_observed m).
End fields.

Section worker.
Context {B : Type} `{!IModelBackend B} `{HO : !HashOrder}.
Context {X : Type} `{!Shared X} (L : lens X (Worker.t B)).
Implicit Types p : RequestPtr.

Definition lane_lens_of : lens X (BoundedQueue.t RequestPtr) := lens_comp L lane_of.

Definition get {A} (f : Worker.t B -> A) : M X A := reading (fun x => f (view L x)).
Definition put (f : Worker.t B -> Worker.t B) : M X unit := updating (over L f).

(** ** Operations other threads call *)

Definition start : M X Status :=
  atomically (focus L (fun s =>
    if started_ s then (Status.success, s)
    else (Status.success, set_thread true true (set_accepting true s)))).

Definition fetch_add (n : Z) : M X unit :=
  put (fun s => set_queued_count (queued_count_ s +! n) s).
Definition fetch_sub (n : Z) : M X unit :=
  put (fun s => set_queued_count (queued_count_ s -! n) s).

(** The common frame of the three enqueue functions. *)
Definition enqueue_with (push : loc -> M X Status) (p : RequestPtr) : M X Status :=
  match p with
  | None => mret (Status.error InternalError "null request")
  | Some l =>
      open ← get accepting_;
      if negb (open : bool) then mret (Status.error QueueClosed "worker is not accepting work") else
      dead ← is_dead_request p;
      if (dead : bool) then mret Status.success else push l
  end.

Definition counted (status : Status) : M X Status :=
  if Status.ok status then _ ← fetch_add 1; mret status else mret status.

Definition try_enqueue : RequestPtr -> M X Status :=
  enqueue_with (fun l =>
    status ← atomically (focus lane_lens_of (BoundedQueue.try_push (Some l))); counted status).

Definition enqueue : RequestPtr -> M X Status :=
  enqueue_with (fun l =>
    status ← BoundedQueue.wait_push lane_lens_of (Some l); counted status).

Definition enqueue_until (p : RequestPtr) (deadline : time_point) : M X Status :=
  enqueue_with (fun l =>
    status ← BoundedQueue.wait_push_until lane_lens_of (Some l) deadline;
    if Status.ok status then _ ← fetch_add 1; mret status
    else if bool_decide (code status = ETimedOut) then _ ← req_try_timeout l; mret status
    else mret status) p.

Definition close : M X unit :=
  _ ← put (set_accepting false);
  updating (over lane_lens_of BoundedQueue.close).

(** [join] gives up the handle of the thread; the wait for the thread to end
    is a condition on the system ([Joins.clear]). *)
Definition join : M X unit := put (fun s => set_thread (started_ s) false s).

(** [~Worker] *)
Definition destroy : M X unit := _ ← close; join.

Definition id : M X WorkerId := get worker_id_.
Definition state : M X WorkerState := get state_.
Definition batch_metrics : M X WorkerBatchMetrics := get batch_metrics_.
Definition residency_metrics : M X ModelManager.ResidencyMetrics :=
  get (fun s => ModelManager.metrics_ (model_manager_ s)).

(** [snapshot]: the fields are read one after the other. *)
Definition snapshot (epoch : nat) : M X WorkerSnapshot :=
  id ← get worker_id_;
  depth ← get queued_count_;
  cap ← get queue_capacity_;
  acc ← get accepting_;
  budget ← get (fun s => ModelManager.memory_budget_bytes (model_manager_ s));
  used ← get (fun s => ModelManager.memory_used_bytes (model_manager_ s));
  ids ← get (fun s => ModelManager.resident_model_ids epoch (model_manager_ s));
  active ← get active_count_;
  mret (mkWorkerSnapshot id depth cap active acc budget used ids).

(** ** The worker's own thread *)

Definition discard_queued_request (p : RequestPtr) : M X unit :=
  n ← get queued_count_;
  if 0 <? n then fetch_sub 1 else mret tt.

Definition live (p : RequestPtr) : M X bool :=
  dead ← is_dead_request p; mret (negb dead).

Definition filter_live_batch (batch : list RequestPtr) : M X (list RequestPtr) :=
  filterM live batch.

Definition restore_idle : M X unit := put (set_activity Idle 0).

Definition record_batch_metrics (n : Z) : M X unit :=
  put (fun s => set_batch_metrics (count_batch n (batch_metrics_ s)) s).

(** One turn of the loop of [fail_all]. *)
Definition fail_one (error : Status) (p : RequestPtr) : M X unit :=
  match p with
  | None => mret tt
  | Some l =>
      terminal ← req_is_terminal l;
      if (terminal : bool) then mret tt else
      st ← req_state l;
      _ ← (if bool_decide (st = Queued)
           then _ ← req_transition_to Running l; mret tt else mret tt);
      terminal ← req_is_terminal l;
      if (terminal : bool) then mret tt else
      _ ← req_try_fail error l; mret tt
  end.

Definition fail_all (error : Status) (batch : list RequestPtr) : M X Status :=
  _ ← restore_idle;
  _ ← for_each (fail_one error) batch;
  mret error.

(** The [catch] clauses. *)
Definition exn_status (e : exn) : Status :=
  match e with
  | StdException what => Status.error InternalError what
  | UnknownException => Status.error InternalError "unknown backend exception"
  end.

(** Fails the members that are not terminal. *)
Definition fail_live (error : Status) (batch : list RequestPtr) : M X unit :=
  for_each (fun p =>
    l ← BatchBuilder.deref p;
    terminal ← req_is_terminal l;
    if (terminal : bool) then mret tt else _ ← req_try_fail error l; mret tt) batch.

(** The first loop of the [try] block, and its body: an answer leaves the
    function. *)
Definition run_one (batch : list RequestPtr) (p : RequestPtr) : M X (option Status) :=
  dead ← is_dead_request p;
  if (dead : bool) then mret None else
  l ← BatchBuilder.deref p;
  running ← req_transition_to Running l;
  if negb (Status.ok running)
  then st ← fail_all running batch; mret (Some st)
  else mret None.

Definition to_running (batch : list RequestPtr) : M X (option Status) :=
  for_until (run_one batch) batch.

(** The model manager's call: it owns the exception it lets through. *)
Definition ensure_resident (epoch : nat) (model_id : string) : M X Status :=
  out ← atomically (fun x =>
    let '(out, m) := ModelManager.ensure_resident epoch model_id (model_manager_ (view L x)) in
    (out, over L (over_manager (fun _ => m)) x));
  match out with inl e => throw e | inr st => mret st end.

Definition infer_batch (views : batch_view) : M X (list InferenceResult) :=
  out ← atomically (fun x =>
    let m := model_manager_ (view L x) in
    let '(out, b) := Backends.infer_batch views (ModelManager.backend_ m) in
    (out, over L (over_manager (ModelManager.set_backend b)) x));
  match out with inl e => throw e | inr rs => mret rs end.

Fixpoint views_of (batch : list RequestPtr) : M X batch_view :=
  match batch with
  | [] => mret []
  | None :: batch => rest ← views_of batch; mret (None :: rest)
  | Some l :: batch =>
      r ← inspect (fun r => r) l;
      rest ← views_of batch;
      mret (Some r :: rest)
  end.

(** The last loop: the result of each member; [last] is the last failure
    that was recorded. *)
Fixpoint deliver_results (pairs : list (RequestPtr * InferenceResult)) (last : Status) : M X Status :=
  match pairs with
  | [] => mret last
  | (p, res) :: pairs =>
      l ← BatchBuilder.deref p;
      terminal ← req_is_terminal l;
      if (terminal : bool) then deliver_results pairs last else
      if negb (InferenceResult.ok res) then
        failed ← req_try_fail (status res) l;
        deliver_results pairs (if (failed : bool) then status res else last)
      else
        _ ← req_try_complete res l;
        deliver_results pairs last
  end.

(** After the inference. *)
Definition finish_batch (batch : list RequestPtr) (results : list InferenceResult) : M X Status :=
  let n := Z.of_nat (length batch) in
  if negb (length results =? length batch)%nat then
    let err := Status.error InternalError "infer_batch result cardinality mismatch" in
    _ ← record_batch_metrics n;
    _ ← restore_idle;
    _ ← fail_live err batch;
    mret err
  else
    _ ← record_batch_metrics n;
    _ ← restore_idle;
    deliver_results (zip batch results) Status.success.

(** The model is resident; [batch] is the batch of the third filter. The
    inner [try] covers only the call of the backend. *)
Definition run_inference (batch : list RequestPtr) : M X Status :=
  views ← views_of batch;
  out ← try_catch (results ← infer_batch views; mret (inl results))
                  (fun e => st ← fail_all (exn_status e) batch; mret (inr st));
  match out with
  | inl results => finish_batch batch results
  | inr st => mret st
  end.

(** From the second filter on, with the batch it left. *)
Definition run_resident (epoch : nat) (batch : list RequestPtr) : M X (Status + list RequestPtr) :=
  match batch with
  | [] => _ ← restore_idle; mret (inl Status.success)
  | p :: _ =>
      l ← BatchBuilder.deref p;
      model_id ← req_model_id l;
      resident ← ensure_resident epoch model_id;
      if negb (Status.ok resident) then
        _ ← record_batch_metrics (Z.of_nat (length batch));
        _ ← restore_idle;
        _ ← fail_live resident batch;
        mret (inl resident)
      else
        batch ← filter_live_batch batch;
        match batch with
        | [] => _ ← restore_idle; mret (inl Status.success)
        | _ => mret (inr batch)
        end
  end.

(** [execute_batch]. The outer handler fails the batch as it is when the
    exception is thrown, so the [try] block is cut where [batch] is
    reassigned. *)
Definition execute_batch (epoch : nat) (batch : list RequestPtr) : M X Status :=
  batch ← filter_live_batch batch;
  match batch with
  | [] => mret Status.success
  | _ =>
      let n := Z.of_nat (length batch) in
      _ ← put (set_activity Busy n);
      _ ← fetch_sub n;
      let guarded {A} (batch : list RequestPtr) (m : M X (Status + A)) : M X (Status + A) :=
        try_catch m (fun e => st ← fail_all (exn_status e) batch; mret (inl st)) in
      first ← guarded batch (
        out ← to_running batch;
        match out with
        | Some st => mret (inl st)
        | None => batch ← filter_live_batch batch; mret (inr batch)
        end);
      match first with
      | inl st => mret st
      | inr batch =>
          second ← guarded batch (run_resident epoch batch);
          match second with
          | inl st => mret st
          | inr batch =>
              third ← guarded batch (st ← run_inference batch; mret (inr st));
              match third with inl st => mret st | inr st => mret st end
          end
      end
  end.

(** ** The loop of the thread *)

(** The [pop_until] callback: out of fuel it is still waiting. *)
Fixpoint pop_live (fuel : nat) (deadline : time_point) : M X (option RequestPtr) :=
  match fuel with
  | O => fun w => (Blocked, w)
  | S fuel =>
      next ← BoundedQueue.wait_pop_until lane_lens_of deadline;
      match next with
      | None => mret None
      | Some p =>
          dead ← is_dead_request p;
          if negb (dead : bool) then mret (Some p) else
          _ ← discard_queued_request p;
          pop_live fuel deadline
      end
  end.

Definition pop_until (deadline : time_point) : M X (option RequestPtr) :=
  fun w => pop_live (S (potential (lane_length lane_lens_of) w)) deadline w.

(** The [on_extra_request] callback. *)
Definition on_extra (p : RequestPtr) : M X bool :=
  dead ← is_dead_request p;
  if (dead : bool) then _ ← discard_queued_request p; mret false else mret true.

(** The request an iteration starts from; [None] leaves the loop. *)
Definition take_first : M X (option RequestPtr) :=
  d ← atomically (focus L (fun s => (deferred_ s, set_deferred None s)));
  match d with
  | Some p => mret (Some p)
  | None => BoundedQueue.wait_pop lane_lens_of
  end.

(** One iteration; [false] leaves the loop. *)
Definition run_once (epoch : nat) : M X bool :=
  next ← take_first;
  match next with
  | None => mret false
  | Some first =>
      dead ← is_dead_request first;
      if (dead : bool) then _ ← discard_queued_request first; mret true else
      lane_closed ← get (fun s => BoundedQueue.closed (lane_ s));
      builder ← get batch_builder_;
      formed ← BatchBuilder.form builder first pop_until (negb lane_closed) (Some on_extra);
      _ ← match deferred formed with
          | Some p => put (set_deferred (Some p))
          | None => mret tt
          end;
      match requests formed with
      | [] => mret true
      | reqs =>
          live ← filter_live_batch reqs;
          let removed := Z.of_nat (length reqs) - Z.of_nat (length live) in
          _ ← (if 0 <? removed then fetch_sub removed else mret tt);
          match live with
          | [] => mret true
          | _ => _ ← execute_batch epoch live; mret true
          end
      end
  end.

Fixpoint run_loop (fuel : nat) : M X unit :=
  match fuel with
  | O => fun w => (Blocked, w)
  | S fuel =>
      more ← run_once fuel;
      if (more : bool) then run_loop fuel else mret tt
  end.
End worker.

(** ** What other threads do to a worker

    They push to its lane, count what they pushed, stop it accepting and
    close its lane; everything else belongs to the worker's own thread. *)

Inductive worker_act :=
  | WorkerPush (p : RequestPtr)
  | WorkerCount
  | WorkerStopAccepting
  | WorkerCloseLane.

Definition worker_step {B} (a : worker_act) (s : t B) : t B :=
  match a with
  | WorkerPush p => over_lane (fun q => (BoundedQueue.try_push p q).2) s
  | WorkerCount => set_queued_count (queued_count_ s +! 1) s
  | WorkerStopAccepting => set_accepting false s
  | WorkerCloseLane => over_lane BoundedQueue.close s
  end.

#[global] Instance worker_shared B : Shared (t B) :=
  {| act := worker_act; act_step := worker_step |}.
End Worker.
