(* ===== verification/WorkerProofs.v ===== *)
(** * What the worker guarantees

    Theorems about [Worker.v]: whatever the backend does and whatever the
    other threads do meanwhile, a batch ends with every request terminal, and
    a worker that is closed drains its lane. *)

From S2P Require Import Prelude Status Requests World Queue Registry Resources Eviction.
From S2P Require Import Backends Manager Router Batch Scheduler Admission Worker.
Import InferenceRequest.

(** ** Batches of pointers *)

Section batches.
Context {X : Type} `{!Shared X}.
Implicit Types (w : World X) (S : InferenceRequest.t -> Prop).

(** [p] is not null and points to a request satisfying [S]. *)
Definition loc_at S p w : Prop := exists l, p = Some l /\ req_at S l w.

#[global] Instance loc_at_upward S p : Closed S -> Upward (loc_at S p).
Proof. intros HS w w' Hle (l & -> & Hl). exists l. split; [done|]. by eapply upward. Qed.

#[global] Instance upward_Forall {A} (R : A -> World X -> Prop) l :
  (forall x, Upward (R x)) -> Upward (fun w => Forall (fun x => R x w) l).
Proof. intros HR w w' Hle H. eapply Forall_impl; [exact H|]. intros x. by apply HR. Qed.

Definition ptrs_at S ps w : Prop := Forall (fun p => ptr_at S p w) ps.
Definition locs_at S ps w : Prop := Forall (fun p => loc_at S p w) ps.

#[global] Instance ptrs_at_upward S ps : Closed S -> Upward (ptrs_at S ps).
Proof. intros. unfold ptrs_at. apply _. Qed.
#[global] Instance locs_at_upward S ps : Closed S -> Upward (locs_at S ps).
Proof. intros. unfold locs_at. apply _. Qed.

Lemma loc_ptr S p w : loc_at S p w -> ptr_at S p w.
Proof. intros (l & -> & Hl) l' [= <-]. done. Qed.

Lemma locs_ptrs S ps w : locs_at S ps w -> ptrs_at S ps w.
Proof. intros H. eapply Forall_impl; [exact H|]. intros p. apply loc_ptr. Qed.

Lemma ptr_at_mono S T p w : (forall r, S r -> T r) -> ptr_at S p w -> ptr_at T p w.
Proof. intros H Hp l Hl. eapply req_at_mono; [exact H|]. by apply Hp. Qed.

Lemma ptrs_at_mono S T ps w : (forall r, S r -> T r) -> ptrs_at S ps w -> ptrs_at T ps w.
Proof. intros H Hp. eapply Forall_impl; [exact Hp|]. intros p. by apply ptr_at_mono. Qed.

Lemma locs_at_mono S T ps w : (forall r, S r -> T r) -> locs_at S ps w -> locs_at T ps w.
Proof.
  intros H Hp. eapply Forall_impl; [exact Hp|]. intros p (l & -> & Hl). exists l.
  split; [done|]. by eapply req_at_mono.
Qed.

(** Every member of [ps] is in [live] or dead. *)
Definition partitioned (ps live : list RequestPtr) w : Prop := forall p, p ∈ ps -> p ∈ live \/ dead_ptr p w.

#[global] Instance partitioned_upward ps live : Upward (partitioned ps live).
Proof.
  intros w w' Hle H p Hp. destruct (H p Hp) as [?|Hd]; [by left|right]. by eapply upward.
Qed.

Lemma started_admitted r : started r -> admitted r.
Proof. unfold started, admitted. destruct (state_ r); simpl; lia || done. Qed.

(** Running or terminal: failing or completing it leaves it terminal. *)
Lemma finish_started next res r :
  is_valid_transition Running next = true -> is_terminal_state next = true -> started r ->
  terminal_req (finish next res r).2.1.
Proof.
  intros Hv Hn Hs. rewrite finish_spec. unfold terminal_req, is_terminal.
  destruct (is_valid_transition (state_ r) next) eqn:E; simpl; [done|].
  unfold started in Hs. destruct (state_ r) eqn:Hr; try (simpl in Hs; lia); done || congruence.
Qed.

Lemma triple_finish_started next res l E :
  is_valid_transition Running next = true -> is_terminal_state next = true ->
  triple (X := X) (req_at started l) (mutate (finish next res) l)
    (fun _ => req_at terminal_req l) E.
Proof.
  intros Hv Hn. apply (triple_mutate started _ (fun _ => terminal_req)); [apply _..|].
  intros r. by apply finish_started.
Qed.

(** After an attempt to run an admitted request it has started. *)
Lemma triple_to_running l E :
  triple (X := X) (req_at admitted l) (req_transition_to Running l) (fun _ => req_at started l) E.
Proof.
  apply (triple_mutate admitted _ (fun _ => started)); [apply _..|].
  intros r Hr. rewrite transition_to_spec. unfold started, admitted in *.
  destruct (is_valid_transition (state_ r) Running) eqn:E1; simpl; [lia|].
  destruct (state_ r); simpl; try lia; done.
Qed.

Lemma triple_terminal_or S l E :
  Closed S ->
  triple (X := X) (req_at S l) (req_is_terminal l)
    (fun b => req_at (fun r => if (b : bool) then terminal_req r else S r) l) E.
Proof.
  intros HS. eapply triple_post; [|by apply triple_is_terminal].
  intros [|] w; apply req_at_mono; intros r [? H]; [by apply H|done].
Qed.

#[global] Instance closed_if (b : bool) S T :
  Closed S -> Closed T -> Closed (fun r => if b then S r else T r).
Proof. by destruct b. Qed.
End batches.

#[export] Instance filter_mono {X} `{!Shared X} batch : Mono (X := X) (Worker.filter_live_batch batch).
Proof. unfold Worker.filter_live_batch, Worker.live. apply _. Qed.
#[export] Instance filter_quiet {X} `{!Shared X} batch : Quiet (X := X) (Worker.filter_live_batch batch).
Proof. unfold Worker.filter_live_batch, Worker.live. apply _. Qed.
#[export] Instance filter_nb {X} `{!Shared X} batch : NonBlocking (X := X) (Worker.filter_live_batch batch).
Proof. unfold Worker.filter_live_batch, Worker.live. apply _. Qed.

Section requests.
Context {X : Type} `{!Shared X}.

(** The filter keeps live requests and drops only dead ones. *)
Lemma triple_filter S batch :
  Closed S ->
  triple (X := X) (ptrs_at S batch) (Worker.filter_live_batch batch)
    (fun live w => locs_at S live w /\ partitioned batch live w) no_throw.
Proof.
  intros HS. induction batch as [|p batch IH]; simpl.
  { apply triple_ret. intros w _. split; [constructor|]. by intros p ?%elem_of_nil. }
  apply (triple_pre _ (fun w => ptr_at S p w /\ ptrs_at S batch w)); [by intros w ?%Forall_cons|].
  eapply triple_bind.
  { apply (triple_frame_safe (ptr_at S p) (ptrs_at S batch)); [apply _|unfold Worker.live; apply _|].
    unfold Worker.live. eapply triple_bind; [by apply triple_dead_check|].
    intros d. apply (triple_ret _ _ (fun k w => if (k : bool) then loc_at S p w else dead_ptr p w)).
    by destruct d. }
  intros keep. eapply triple_bind.
  { eapply triple_pre; [|eapply (triple_frame_safe (ptrs_at S batch)
      (fun w => if (keep : bool) then loc_at S p w else dead_ptr p w)); [|apply filter_mono|exact IH]];
      [by intros w [??]|by destruct keep; apply _]. }
  intros rest. apply triple_ret. intros w [[Hrest Hpart] Hp]. destruct keep.
  - split; [by constructor|]. intros p' [->|Hp']%elem_of_cons; [left; by left|].
    destruct (Hpart p' Hp'); [left; by right|by right].
  - split; [done|]. intros p' [->|Hp']%elem_of_cons; [by right|]. by apply Hpart.
Qed.
End requests.

(** ** Every batch is resolved *)

Section execute.
Context {B : Type} `{!IModelBackend B} `{HO : !HashOrder}.
Context {X : Type} `{!Shared X} (L : lens X (Worker.t B)).
Implicit Types (w : World X) (batch : list RequestPtr).

Ltac unfold_worker :=
  unfold Worker.restore_idle, Worker.record_batch_metrics, Worker.fetch_sub, Worker.fetch_add,
    Worker.put, Worker.get, Worker.fail_all, Worker.fail_one, Worker.fail_live,
    Worker.ensure_resident, Worker.infer_batch, Worker.discard_queued_request,
    req_is_terminal, req_state, req_transition_to, req_try_fail, req_try_complete, req_model_id.

#[global] Instance deref_mono p : Mono (X := X) (BatchBuilder.deref p).
Proof. unfold BatchBuilder.deref. apply _. Qed.
#[global] Instance deref_nb p : NonBlocking (X := X) (BatchBuilder.deref p).
Proof. unfold BatchBuilder.deref. apply _. Qed.
#[global] Instance fail_all_mono e batch : Mono (Worker.fail_all L e batch).
Proof. unfold_worker. apply _. Qed.
#[global] Instance fail_all_nb e batch : NonBlocking (Worker.fail_all L e batch).
Proof. unfold_worker. apply _. Qed.
#[global] Instance fail_live_mono e batch : Mono (X := X) (Worker.fail_live e batch).
Proof. unfold_worker. apply _. Qed.
#[global] Instance fail_live_nb e batch : NonBlocking (X := X) (Worker.fail_live e batch).
Proof. unfold_worker. apply _. Qed.
#[global] Instance run_one_mono batch p : Mono (Worker.run_one L batch p).
Proof. unfold Worker.run_one. unfold_worker. apply _. Qed.
#[global] Instance run_one_nb batch p : NonBlocking (Worker.run_one L batch p).
Proof. unfold Worker.run_one. unfold_worker. apply _. Qed.
#[global] Instance to_running_mono batch : Mono (Worker.to_running L batch).
Proof. unfold Worker.to_running. apply _. Qed.

#[global] Instance nb_for_until {A R} (f : A -> M X (option R)) l :
  (forall a, NonBlocking (f a)) -> NonBlocking (for_until f l).
Proof. intros Hf. induction l; simpl; apply _. Qed.

#[global] Instance to_running_nb batch : NonBlocking (Worker.to_running L batch).
Proof. unfold Worker.to_running. apply _. Qed.
#[global] Instance views_mono batch : Mono (X := X) (Worker.views_of batch).
Proof. induction batch as [|[]]; simpl; apply _. Qed.
#[global] Instance views_nb batch : NonBlocking (X := X) (Worker.views_of batch).
Proof. induction batch as [|[]]; simpl; apply _. Qed.

#[global] Instance deliver_results_mono pairs last : Mono (X := X) (Worker.deliver_results pairs last).
Proof. revert last. induction pairs as [|[]]; intros; simpl; unfold_worker; apply _. Qed.
#[global] Instance deliver_results_nb pairs last : NonBlocking (X := X) (Worker.deliver_results pairs last).
Proof. revert last. induction pairs as [|[]]; intros; simpl; unfold_worker; apply _. Qed.

#[global] Instance finish_batch_mono batch rs : Mono (Worker.finish_batch L batch rs).
Proof. unfold Worker.finish_batch. unfold_worker. apply _. Qed.
#[global] Instance finish_batch_nb batch rs : NonBlocking (Worker.finish_batch L batch rs).
Proof. unfold Worker.finish_batch. unfold_worker. apply _. Qed.
#[global] Instance run_inference_mono batch : Mono (Worker.run_inference L batch).
Proof. unfold Worker.run_inference. unfold_worker. apply _. Qed.
#[global] Instance run_inference_nb batch : NonBlocking (Worker.run_inference L batch).
Proof. unfold Worker.run_inference. unfold_worker. apply _. Qed.
#[global] Instance run_resident_mono e batch : Mono (Worker.run_resident L e batch).
Proof. unfold Worker.run_resident. unfold_worker. apply _. Qed.
#[global] Instance run_resident_nb e batch : NonBlocking (Worker.run_resident L e batch).
Proof. unfold Worker.run_resident. unfold_worker. apply _. Qed.
#[global] Instance execute_batch_mono e batch : Mono (Worker.execute_batch L e batch).
Proof. unfold Worker.execute_batch. unfold_worker. apply _. Qed.
#[global] Instance execute_batch_nb e batch : NonBlocking (Worker.execute_batch L e batch).
Proof. unfold Worker.execute_batch. unfold_worker. apply _. Qed.

(** Writing the worker's own fields touches no request. *)
Lemma triple_put P f : Upward P -> triple P (Worker.put L f) (fun _ => P) no_throw.
Proof. intros HP w Hw. exact (HP _ _ (mono_updating _ w) Hw). Qed.

Lemma triple_fail_one e p :
  triple (X := X) (ptr_at admitted p) (Worker.fail_one e p) (fun _ => dead_ptr p) no_throw.
Proof.
  destruct p as [l|]; [|by apply triple_ret].
  apply (triple_conseq _ (req_at admitted l) _ _ (fun _ => req_at terminal_req l) _ no_throw);
    [|intros w Hp; by apply Hp|intros _ w Hp l' [= <-]; exact Hp|done].
  unfold Worker.fail_one. eapply triple_bind; [by apply triple_terminal_or, _|].
  intros [|]; [by apply triple_ret|].
  eapply triple_bind.
  { apply (triple_inspect admitted _ (fun st r => admitted r /\ (st <> Queued -> started r))); [apply _|].
    intros r Hr. split; [done|]. unfold started, admitted in *. destruct (state_ r); simpl; lia || done. }
  intros st. eapply (triple_bind _ _ (fun _ => req_at started l)).
  { case_bool_decide as Hst.
    - eapply triple_bind; [eapply triple_pre; [|apply triple_to_running]|].
      + intros w. apply req_at_mono. by intros r [].
      + intros st'. by apply triple_ret.
    - apply triple_ret. intros w. apply req_at_mono. intros r [_ Hx]. by apply Hx. }
  intros []. eapply triple_bind; [by apply triple_terminal_or, _|].
  intros [|]; [by apply triple_ret|].
  eapply triple_bind; [by apply triple_finish_started|]. intros b. by apply triple_ret.
Qed.

(** A loop that leaves each element in [R]. *)
Lemma triple_each {A} (f : A -> M X unit) (P R : A -> World X -> Prop) l :
  (forall x, Upward (P x)) -> (forall x, Upward (R x)) -> (forall x, Mono (f x)) ->
  (forall x, x ∈ l -> triple (P x) (f x) (fun _ => R x) no_throw) ->
  triple (fun w => Forall (fun x => P x w) l) (for_each f l)
    (fun _ w => Forall (fun x => R x w) l) no_throw.
Proof.
  intros HP HR Hm. induction l as [|x l IH]; intros Hf; simpl; [by apply triple_ret|].
  apply (triple_pre _ (fun w => P x w /\ Forall (fun x => P x w) l)); [by intros w ?%Forall_cons|].
  eapply triple_bind; [apply (triple_frame_safe (P x)); [apply _..|apply Hf; left]|]. intros [].
  eapply triple_conseq; [apply (triple_frame_safe (fun w => Forall (fun x => P x w) l) (R x)
    _ (fun _ w => Forall (fun x => R x w) l) no_throw); [apply _..|]|..|done].
  - apply IH. intros y Hy. apply Hf. by right.
  - by intros w [].
  - intros _ w []. by constructor.
Qed.

Lemma triple_fail_all e batch :
  triple (ptrs_at admitted batch) (Worker.fail_all L e batch)
    (fun st w => ptrs_at terminal_req batch w) no_throw.
Proof.
  unfold Worker.fail_all. eapply triple_bind; [apply triple_put, _|]. intros [].
  eapply (triple_bind _ _ (fun _ => ptrs_at terminal_req batch)); [|intros []; by apply triple_ret].
  apply triple_each; [apply _..| |intros p _; apply triple_fail_one].
  intros p. unfold Worker.fail_one, req_is_terminal, req_state, req_transition_to, req_try_fail. apply _.
Qed.

Lemma triple_deref S p E :
  Closed S ->
  triple (X := X) (loc_at S p) (BatchBuilder.deref p)
    (fun l w => p = Some l /\ req_at S l w) E.
Proof. intros HS w (l & -> & Hl). done. Qed.

Lemma triple_fail_live e batch :
  triple (X := X) (locs_at started batch) (Worker.fail_live e batch)
    (fun _ => ptrs_at terminal_req batch) no_throw.
Proof.
  apply (triple_each _ (loc_at started) dead_ptr); [apply _..| |].
  { intros p. unfold req_is_terminal, req_try_fail. apply _. }
  intros p _. eapply triple_bind; [by apply triple_deref, _|]. intros l.
  apply triple_pull. intros ->.
  apply (triple_post _ _ _ (fun _ => req_at terminal_req l)); [by intros [] w Hx l' [= <-]|].
  eapply triple_bind; [by apply triple_terminal_or, _|].
  intros [|]; [by apply triple_ret|].
  eapply triple_bind; [by apply triple_finish_started|]. intros b. by apply triple_ret.
Qed.

Lemma triple_deliver_results pairs last :
  triple (X := X) (locs_at started pairs.*1) (Worker.deliver_results pairs last)
    (fun _ => ptrs_at terminal_req pairs.*1) no_throw.
Proof.
  revert last. induction pairs as [|[p res] pairs IH]; intros last; simpl.
  { apply triple_ret. intros; constructor. }
  assert (Hrest : forall st, triple (fun w => dead_ptr p w /\ locs_at started pairs.*1 w)
    (Worker.deliver_results pairs st) (fun _ => ptrs_at terminal_req (p :: pairs.*1)) no_throw).
  { intros st. eapply triple_conseq; [apply (triple_frame_safe (locs_at started pairs.*1)
      (dead_ptr p) _ _ no_throw _ _ (IH st))|..|done]; [by intros w []|].
    intros _ w []. by constructor. }
  apply (triple_pre _ (fun w => loc_at started p w /\ locs_at started pairs.*1 w));
    [by intros w ?%Forall_cons|].
  eapply triple_bind; [apply (triple_frame_safe (loc_at started p)); [apply _..|
    by apply triple_deref, _]|]. intros l.
  apply (triple_pre _ (fun w => p = Some l /\ (req_at started l w /\ locs_at started pairs.*1 w)));
    [by intros w [[] ?]|]. apply triple_pull. intros ->.
  assert (Hto : forall next x k, is_valid_transition Running next = true ->
    is_terminal_state next = true ->
    (forall b, triple (fun w => dead_ptr (Some l) w /\ locs_at started pairs.*1 w) (k b)
       (fun _ => ptrs_at terminal_req (Some l :: pairs.*1)) no_throw) ->
    triple (fun w => req_at started l w /\ locs_at started pairs.*1 w)
      (mutate (finish next x) l ≫= k) (fun _ : Status => ptrs_at terminal_req (Some l :: pairs.*1)) no_throw).
  { intros next x k Hv Hn Hk. eapply triple_bind;
      [apply (triple_frame_safe (req_at started l)); [apply _| |by apply triple_finish_started]|].
    - apply mono_mutate. intros r. apply finish_evolves.
    - intros b. eapply triple_pre; [|apply Hk]. intros w [Hx ?]. split; [|done]. by intros l' [= <-]. }
  eapply triple_bind; [apply (triple_frame_safe (req_at started l)); [apply _|
    unfold req_is_terminal; apply _|by apply triple_terminal_or, _]|].
  intros [|].
  { eapply triple_pre; [|apply Hrest]. intros w [Hx ?]. split; [|done]. by intros l' [= <-]. }
  destruct (InferenceResult.ok res); simpl; by apply Hto.
Qed.

Definition run_result batch (o : option Status) w : Prop :=
  match o with Some _ => ptrs_at terminal_req batch w | None => locs_at started batch w end.

Lemma triple_run_one batch p :
  p ∈ batch ->
  triple (locs_at admitted batch) (Worker.run_one L batch p)
    (fun o w => locs_at admitted batch w /\
       match o with Some _ => ptrs_at terminal_req batch w | None => loc_at started p w end) no_throw.
Proof.
  intros Hp. assert (Hin : forall w, locs_at admitted batch w -> loc_at admitted p w).
  { intros w Hw. unfold locs_at in Hw. rewrite Forall_forall in Hw. by apply Hw. }
  eapply triple_bind.
  { eapply triple_pre; [|apply (triple_frame_safe (ptr_at admitted p) (locs_at admitted batch)
      _ _ no_throw _ _ (triple_dead_check admitted p _))].
    intros w Hw. split; [|done]. by apply loc_ptr, Hin. }
  intros [|].
  { apply triple_ret. intros w [Hd Hw]. split; [done|]. destruct (Hin w Hw) as (l & -> & _).
    exists l. split; [done|]. eapply req_at_mono; [apply terminal_started|]. by apply Hd. }
  destruct p as [l|]; [|by intros w [(? & ? & _) _]]. simpl.
  eapply triple_bind; [apply (triple_ret _ l (fun l' w => l' = l /\
    (req_at admitted l w /\ locs_at admitted batch w)))|].
  { intros w [(l' & [= <-] & Hl) Hw]. done. }
  intros l'. apply triple_pull. intros ->.
  eapply triple_bind; [apply (triple_frame_safe (req_at admitted l)); [apply _|
    unfold req_transition_to; apply _|apply triple_to_running]|].
  intros running. destruct (Status.ok running); simpl.
  { apply triple_ret. intros w [Hl Hw]. split; [done|]. by exists l. }
  eapply triple_bind.
  { eapply triple_pre; [|apply (triple_frame_safe (ptrs_at admitted batch) (locs_at admitted batch)
      _ _ no_throw _ _ (triple_fail_all running batch))].
    intros w [_ Hw]. split; [|done]. by apply locs_ptrs. }
  intros st. apply triple_ret. by intros w [??].
Qed.

Lemma triple_to_running_all batch :
  triple (locs_at admitted batch) (Worker.to_running L batch) (run_result batch) no_throw.
Proof.
  unfold Worker.to_running. cut (forall done rest, batch = done ++ rest ->
    triple (fun w => locs_at admitted batch w /\ locs_at started done w)
      (for_until (Worker.run_one L batch) rest) (run_result batch) no_throw).
  { intros Hcut. eapply triple_pre; [|by apply (Hcut [] batch)]. intros w Hw.
    split; [done|constructor]. }
  intros done rest. revert done. induction rest as [|p rest IH]; intros done Hb; simpl.
  { apply triple_ret. intros w [_ Hd]. by rewrite Hb, app_nil_r. }
  eapply triple_bind.
  { apply (triple_frame_safe (locs_at admitted batch) (locs_at started done));
      [apply _..|apply triple_run_one; rewrite Hb; apply elem_of_app; right; left]. }
  intros [st|]; [apply triple_ret; by intros w [[??]?]|].
  eapply triple_pre; [|apply (IH (done ++ [p])); by rewrite <- app_assoc].
  intros w [[Hw Hp] Hd]. split; [done|]. apply Forall_app. split; [done|]. by constructor.
Qed.

Lemma triple_views S batch :
  Closed S -> triple (X := X) (locs_at S batch) (Worker.views_of batch) (fun _ _ => True) no_throw.
Proof.
  intros HS. induction batch as [|p batch IH]; simpl; [by apply triple_ret|].
  apply (triple_pre _ (fun w => loc_at S p w /\ locs_at S batch w)); [by intros w ?%Forall_cons|].
  destruct p as [l|]; [|by intros w [(? & ? & _) _]].
  apply (triple_pre _ (fun w => req_at S l w /\ locs_at S batch w));
    [by intros w [(l' & [= <-] & ?) ?]|].
  eapply triple_bind; [apply (triple_frame_safe (req_at S l)); [apply _|apply _|
    by apply (triple_inspect S _ (fun _ => S))]|]. intros r.
  eapply triple_bind; [eapply triple_pre; [|apply IH]; by intros w []|]. intros rest.
  by apply triple_ret.
Qed.

Lemma triple_finish_batch batch rs :
  triple (locs_at started batch) (Worker.finish_batch L batch rs)
    (fun _ => ptrs_at terminal_req batch) no_throw.
Proof.
  unfold Worker.finish_batch. destruct (Nat.eqb_spec (length rs) (length batch)) as [Heq|_]; simpl.
  - eapply triple_bind; [apply triple_put, _|]. intros [].
    eapply triple_bind; [apply triple_put, _|]. intros [].
    eapply triple_conseq; [apply (triple_deliver_results (zip batch rs))|..|done];
      rewrite fst_zip by (rewrite Heq; done); done.
  - eapply triple_bind; [apply triple_put, _|]. intros [].
    eapply triple_bind; [apply triple_put, _|]. intros [].
    eapply triple_bind; [apply triple_fail_live|]. intros []. by apply triple_ret.
Qed.

Lemma triple_run_inference batch :
  triple (locs_at started batch) (Worker.run_inference L batch)
    (fun _ => ptrs_at terminal_req batch) no_throw.
Proof.
  unfold Worker.run_inference. eapply triple_bind.
  { eapply triple_pre; [|apply (triple_frame_safe (locs_at started batch) (locs_at started batch)
      _ _ no_throw _ _ (triple_views started batch _))]. done. }
  intros views.
  eapply (triple_bind _ _ (fun o w => match o with inl _ => locs_at started batch w
                                      | inr _ => ptrs_at terminal_req batch w end)).
  - apply (triple_try_catch _ _ _ _ _ (fun _ => locs_at started batch)).
    + eapply triple_pre; [|eapply triple_bind; [apply (triple_mono (locs_at started batch))|]];
        [by intros w []|apply _|unfold Worker.infer_batch; apply _|].
      intros rs. by apply triple_ret.
    + intros e. eapply triple_bind; [eapply triple_pre; [|apply triple_fail_all]|].
      * intros w Hw. by eapply ptrs_at_mono; [apply started_admitted|apply locs_ptrs].
      * intros st. by apply triple_ret.
  - intros [rs|st]; [apply triple_finish_batch|by apply triple_ret].
Qed.

(** What a guarded part of the [try] block leaves: an answer with every
    member of [batch] dead, or the live rest of it. *)
Definition resolved_or batch (o : Status + list RequestPtr) w : Prop :=
  match o with
  | inl _ => ptrs_at terminal_req batch w
  | inr rest => locs_at started rest w /\ partitioned batch rest w
  end.

Lemma partitioned_nil batch w : partitioned batch [] w -> ptrs_at terminal_req batch w.
Proof.
  intros Hp. apply Forall_forall. intros p Hin. destruct (Hp p Hin) as [?%elem_of_nil|?]; done.
Qed.

Lemma partitioned_dead batch rest w :
  partitioned batch rest w -> ptrs_at terminal_req rest w -> ptrs_at terminal_req batch w.
Proof.
  intros Hp Hd. apply Forall_forall. intros p Hin. destruct (Hp p Hin) as [Hr|?]; [|done].
  unfold ptrs_at in Hd. rewrite Forall_forall in Hd. by apply Hd.
Qed.

(** A step that only keeps what is known, and may throw. *)
Lemma triple_step {A C} P (m : M X A) (k : A -> M X C) Q E :
  Upward P -> Mono m -> (forall e w, P w -> E e w) -> (forall a, triple P (k a) Q E) ->
  triple P (m ≫= k) Q E.
Proof.
  intros HP Hm HE Hk. eapply triple_bind; [|exact Hk].
  eapply triple_conseq; [by apply triple_mono|done|done|exact HE].
Qed.

Lemma triple_any {A} P (m : M X A) Q E : triple P m Q no_throw -> triple P m Q E.
Proof. intros Hm. by eapply triple_conseq. Qed.

Lemma triple_run_resident e batch :
  triple (locs_at started batch) (Worker.run_resident L e batch)
    (resolved_or batch) (fun _ _ => True).
Proof.
  unfold Worker.run_resident. destruct batch as [|p0 batch0].
  { apply triple_step; [apply _|unfold Worker.restore_idle, Worker.put; apply _|done|].
    intros []. apply triple_ret. intros; constructor. }
  generalize (p0 :: batch0). intros batch.
  apply triple_step; [apply _|apply _|done|]. intros l.
  apply triple_step; [apply _|unfold req_model_id; apply _|done|]. intros model_id.
  apply triple_step; [apply _|unfold Worker.ensure_resident; apply _|done|]. intros resident.
  destruct (Status.ok resident); simpl.
  - eapply triple_bind; [apply triple_any; eapply triple_pre; [apply locs_ptrs|apply triple_filter, _]|].
    intros rest. destruct rest as [|p1 rest1]; [|by apply triple_ret].
    apply triple_step; [apply _|unfold Worker.restore_idle, Worker.put; apply _|done|].
    intros []. apply triple_ret. intros w [_ Hp]. by apply partitioned_nil.
  - apply triple_step; [apply _|unfold Worker.record_batch_metrics, Worker.put; apply _|done|]. intros [].
    apply triple_step; [apply _|unfold Worker.restore_idle, Worker.put; apply _|done|]. intros [].
    eapply triple_bind; [apply triple_any, triple_fail_live|]. intros []. by apply triple_ret.
Qed.

Lemma triple_first_part batch :
  triple (locs_at admitted batch)
    (out ← Worker.to_running L batch;
     match out with
     | Some st => mret (inl st)
     | None => batch ← Worker.filter_live_batch batch; mret (inr batch)
     end) (resolved_or batch) no_throw.
Proof.
  eapply triple_bind; [apply triple_to_running_all|]. intros [st|]; [by apply triple_ret|].
  eapply triple_bind; [eapply triple_pre; [apply locs_ptrs|apply triple_filter, _]|].
  intros rest. by apply triple_ret.
Qed.

(** The handlers fail what is left of the batch. *)
Lemma triple_guarded {A} batch P (m : M X (Status + A)) Q :
  Upward P -> Mono m -> (forall w, P w -> ptrs_at admitted batch w) ->
  (forall st w, ptrs_at terminal_req batch w -> P w -> Q (inl st) w) ->
  triple P m Q (fun _ _ => True) ->
  triple P (try_catch m (fun e => st ← Worker.fail_all L (Worker.exn_status e) batch; mret (inl st)))
    Q no_throw.
Proof.
  intros HP Hm Hin HQ Ht. eapply (triple_try_catch _ _ _ _ _ (fun _ => P)).
  - eapply triple_conseq; [by apply (triple_frame P P m Q (fun _ _ => True))|done|by intros a w []|
      by intros e w []].
  - intros e. eapply triple_bind.
    + eapply triple_pre; [|apply (triple_frame_safe (ptrs_at admitted batch) P); [apply _|apply _|
        apply triple_fail_all]]. intros w Hw. split; [by apply Hin|done].
    + intros st. apply triple_ret. intros w []. by apply HQ.
Qed.

Lemma triple_execute_batch e batch :
  triple (ptrs_at admitted batch) (Worker.execute_batch L e batch)
    (fun _ => ptrs_at terminal_req batch) no_throw.
Proof.
  unfold Worker.execute_batch. eapply triple_bind; [apply triple_filter, _|].
  intros live. destruct live as [|p0 live0]; [apply triple_ret; intros w [_ ?]; by apply partitioned_nil|].
  generalize (p0 :: live0). intros live. cbv zeta.
  eapply triple_bind; [apply triple_put, _|]. intros [].
  eapply triple_bind; [apply triple_put, _|]. intros [].
  eapply triple_bind; [apply (triple_frame_safe (locs_at admitted live)); [apply _| |
    apply (triple_guarded live _ _ (resolved_or live)); [apply _|apply _|
      intros w; apply locs_ptrs|done|apply triple_any, triple_first_part]]|]; [apply _|].
  intros [st|rest1]; [apply triple_ret; intros w [? ?]; by eapply partitioned_dead|].
  eapply triple_bind; [eapply triple_pre; [|apply (triple_frame_safe (locs_at started rest1)
      (fun w => partitioned batch rest1 w)); [apply _| |
    apply (triple_guarded rest1 _ _ (resolved_or rest1)); [apply _|apply _|
      intros w Hw; eapply ptrs_at_mono; [apply started_admitted|by apply locs_ptrs]|done|
      apply triple_run_resident]]]|].
  { intros w [[Hs Hp1] Hp]. split; [done|]. intros p Hin. destruct (Hp p Hin) as [H1|?]; [|by right].
    by apply Hp1. }
  { apply _. }
  intros [st|rest2]; [apply triple_ret; intros w [? ?]; by eapply partitioned_dead|].
  eapply triple_bind; [eapply triple_pre; [|apply (triple_frame_safe (locs_at started rest2)
      (fun w => partitioned batch rest2 w)); [apply _| |
    apply (triple_guarded rest2 _ _ (fun _ => ptrs_at terminal_req rest2)); [apply _|apply _|
      intros w Hw; eapply ptrs_at_mono; [apply started_admitted|by apply locs_ptrs]|done|]]]|].
  { intros w [[Hs Hp1] Hp]. split; [done|]. intros p Hin. destruct (Hp p Hin) as [H1|?]; [|by right].
    by apply Hp1. }
  { apply _. }
  { eapply triple_bind; [apply triple_any, triple_run_inference|]. intros st. by apply triple_ret. }
  intros [st|st]; apply triple_ret; intros w [? ?]; by eapply partitioned_dead.
Qed.
End execute.


(** A worker with the synthetic backend and one registered model. *)
Definition demo_worker_state : Worker.t Synthetic.t :=
  Worker.mk 1 4 (BatchBuilder.mk (mkBatchConfig 4 0))
    (ModelManager.mk (mkRegistry {["m" := mkSpec "m" 50 1]})
       (Synthetic.register_model "m" (Synthetic.mkConfig 1 1 1 false false) Synthetic.new)
       (ResourceManager.new 100) LruEvictionPolicy ∅ 0 (ModelManager.mkResidency 0 0 0 0 0 0))
    (BoundedQueue.mk 4 [] false) Idle 0 (mkBatchMetrics 0 0 0 0) None 3 true true true.

(** Two queued requests of the batch, one of which another thread cancels
    while the batch runs, and a third request that is not in it. *)
Definition demo_queued (id model : string) : InferenceRequest.t :=
  (transition_to Queued (demo_request id model)).2.1.

Definition demo_worker_world : World (Worker.t Synthetic.t) :=
  mkWorld ({[1%positive := demo_queued "a" "m"; 2%positive := demo_queued "b" "m";
             3%positive := demo_queued "c" "n"]} : gmap loc InferenceRequest.t) 0 []
    demo_worker_state [[]; []; []; []; []; []; []; []; [EnvRequest 2%positive OpCancel]].

