(* ===== verification/Guarantee.v ===== *)
(** * What a thread does to the others

    The theorems about one thread hold for every schedule of the others. To
    put the threads of the runtime together, this file turns the view round:
    [Guarantee G H m] says that [m] itself only changes the shared state by
    functions of [G], and moves requests forward on its own account only if
    they are in its hands ([H]); to all others it does nothing but end them.
    The class has one instance per operation of the worker's thread. *)

From S2P Require Import Prelude Status Requests World Queue Registry Resources Eviction.
From S2P Require Import Backends Manager Router Batch Scheduler Worker.
Import InferenceRequest.

(** A change that any thread may make to a request: its state stays, or the
    request ends. *)
Definition calm (r r' : t) : Prop := state_ r' = state_ r \/ terminal_req r'.

Class Calm {A} (f : t -> A * (t * list notification)) : Prop :=
  calming r : calm r (f r).2.1.

Lemma finish_calm next res r : is_terminal_state next = true -> calm r (finish next res r).2.1.
Proof.
  intros Hn. rewrite finish_spec. destruct (is_valid_transition (state_ r) next); [by right|by left].
Qed.

#[export] Instance calm_complete res : Calm (try_complete res).
Proof. intros r. by apply finish_calm. Qed.
#[export] Instance calm_fail e : Calm (try_fail e).
Proof. intros r. by apply finish_calm. Qed.
#[export] Instance calm_reject e : Calm (try_reject e).
Proof. intros r. by apply finish_calm. Qed.
#[export] Instance calm_cancel : Calm try_cancel.
Proof. intros r. by apply finish_calm. Qed.
#[export] Instance calm_timeout : Calm try_timeout.
Proof. intros r. by apply finish_calm. Qed.

(** The operations left to those who only hold a request: everything but
    the transitions of admission and of the workers. *)
Definition outside_op (o : op) : Prop := match o with OpTransition _ => False | _ => True end.

Lemma outside_calm o r : outside_op o -> calm r (apply_op o r).1.
Proof.
  destruct o as [d|[ob|]|next|res|e|e| | |now]; intros Ho; simpl; try done;
    try (by left); try (by apply finish_calm).
  - by destruct (is_terminal_state (state_ r)); left.
  - unfold try_timeout_if_expired. destruct (expired_and_live now r); [by apply finish_calm|by left].
Qed.

Section guarantee.
Context {X : Type} `{!Shared X}.
Implicit Types (w : World X) (P : World X -> Prop) (G : (X -> X) -> Prop) (H : loc -> Prop).

(** [P] is kept by the other threads, by the end of any request, by the
    progress of a request of [H], and by a change of [G]. *)
Class Kept G H P : Prop := {
  kept_req w l r r' : heap w !! l = Some r -> evolves r r' -> calm r r' \/ H l -> P w ->
    P (set_heap (<[l := r']> (heap w)) w);
  kept_log w ns : P w -> P (set_log (log w ++ ns) w);
  kept_env w : P w -> P (interfere w);
  kept_shared f w : G f -> P w -> P (set_shared (f (shared w)) w)
}.

Class Guarantee G H {A} (m : M X A) : Prop := guarantee P w : Kept G H P -> P w -> P (m w).2.

Lemma keeps_guarantee G H {A} P (m : M X A) : Kept G H P -> Guarantee G H m -> Keeps P m.
Proof. intros HP Hm w. by apply Hm. Qed.

Lemma guarantee_weaken G G' H H' {A} (m : M X A) :
  Guarantee G H m -> (forall f, G f -> G' f) -> (forall l, H l -> H' l) -> Guarantee G' H' m.
Proof.
  intros Hm HG HH P w HP. apply Hm. destruct HP as [Hr Hl He Hs]. split; [|done|done|by eauto].
  intros w' l r r' Hl' Hev [?|?]; eauto.
Qed.

#[global] Instance guarantee_ret G H {A} (a : A) : Guarantee G H (mret a).
Proof. by intros P w. Qed.
#[global] Instance guarantee_throw G H {A} e : Guarantee G H (throw (A := A) e).
Proof. by intros P w. Qed.

(** What a computation returns is known to the continuation. *)
Lemma guarantee_bind_with G H {A B} (m : M X A) (k : A -> M X B) :
  Guarantee G H m -> (forall a w w', m w = (Ret a, w') -> Guarantee G H (k a)) ->
  Guarantee G H (m ≫= k).
Proof.
  intros Hm Hk P w HP Hw. unfold mbind, M_bind. specialize (Hm P w HP Hw).
  destruct (m w) as [[a|e|] w'] eqn:E; simpl in *; try done. by eapply Hk.
Qed.

#[global] Instance guarantee_bind G H {A B} (m : M X A) (k : A -> M X B) :
  Guarantee G H m -> (forall a, Guarantee G H (k a)) -> Guarantee G H (m ≫= k).
Proof. intros Hm Hk. by apply guarantee_bind_with. Qed.

#[global] Instance guarantee_try_catch G H {A} (m : M X A) h :
  Guarantee G H m -> (forall e, Guarantee G H (h e)) -> Guarantee G H (try_catch m h).
Proof.
  intros Hm Hh P w HP Hw. unfold try_catch. specialize (Hm P w HP Hw).
  destruct (m w) as [[a|e|] w']; simpl in *; try done. by apply Hh.
Qed.

#[global] Instance guarantee_now G H : Guarantee G H now.
Proof. intros P w HP. apply (kept_env (H := H)). Qed.

Lemma guarantee_atomically G H {A} (f : X -> A * X) :
  (forall x, exists g, G g /\ (f x).2 = g x) -> Guarantee G H (atomically f).
Proof.
  intros Hf P w HP Hw. apply (kept_env (H := H) w) in Hw. unfold atomically.
  destruct (Hf (shared (interfere w))) as (g & Hg & Hx). destruct (f _) as [a x]. simpl in *.
  subst x. by apply (kept_shared (H := H)).
Qed.

Lemma guarantee_updating G H (f : X -> X) : G f -> Guarantee G H (updating f).
Proof. intros Hf. apply guarantee_atomically. intros x. by exists f. Qed.

#[global] Instance guarantee_reading G H {A} (f : X -> A) : Guarantee G H (reading f).
Proof.
  intros P w HP Hw. apply (kept_env (H := H) w) in Hw. simpl. by destruct (interfere w).
Qed.

Lemma guarantee_wait_then G H {A} cond (f : X -> A * X) :
  (forall x, exists g, G g /\ (f x).2 = g x) -> Guarantee G H (wait_then cond f).
Proof.
  intros Hf P w HP Hw. apply (kept_env (H := H) w) in Hw. unfold wait_then.
  apply (wait_env_kept P cond) in Hw; [|apply (kept_env (H := H))].
  destruct (wait_env _ _ _) as [[] w']; [|done].
  destruct (Hf (shared w')) as (g & Hg & Hx). destruct (f _) as [a x]. simpl in *.
  subst x. by apply (kept_shared (H := H)).
Qed.

Lemma guarantee_timed_wait_then G H {A} cond dl (f : bool -> X -> A * X) :
  (forall b x, exists g, G g /\ (f b x).2 = g x) -> Guarantee G H (timed_wait_then cond dl f).
Proof.
  intros Hf P w HP Hw. apply (kept_env (H := H) w) in Hw. unfold timed_wait_then.
  apply (timed_wait_env_kept P cond dl) in Hw; [|apply (kept_env (H := H))].
  assert (Hend : forall b w', P w' -> P (let '(a, x) := f b (shared w') in (Ret a, set_shared x w')).2).
  { intros b w' Hw'. destruct (Hf b (shared w')) as (g & Hg & Hx). destruct (f b _) as [a x].
    simpl in *. subst x. by apply (kept_shared (H := H)). }
  destruct (timed_wait_env _ _ _ _) as [[] w']; [by apply Hend..|done].
Qed.

Lemma guarantee_on_request G H {A} (f : t -> A * (t * list notification)) l :
  Evolving f -> (forall r, calm r (f r).2.1) \/ H l -> Guarantee G H (on_request f l).
Proof.
  intros Hf Hc P w HP Hw. apply (kept_env (H := H) w) in Hw. unfold on_request.
  destruct (heap (interfere w) !! l) as [r|] eqn:Hl; [|done].
  specialize (Hf r). assert (Hcr : calm r (f r).2.1 \/ H l) by (destruct Hc; eauto).
  destruct (f r) as [a [r' ns]]. simpl in *. by eapply (kept_req (H := H)).
Qed.

#[global] Instance guarantee_deliver G H l ns : Guarantee G H (deliver l ns).
Proof. intros P w HP Hw. apply (kept_env (H := H) w) in Hw. simpl. by apply (kept_log (H := H)). Qed.

#[global] Instance guarantee_mutate G H {A} (f : t -> A * (t * list notification)) l :
  Evolving f -> Calm f -> Guarantee G H (mutate f l).
Proof.
  intros Hf Hc. apply guarantee_bind; [apply guarantee_on_request; auto|]. intros out. apply _.
Qed.

(** The thread moves a request it holds. *)
Lemma guarantee_mutate_own G H {A} (f : t -> A * (t * list notification)) l :
  Evolving f -> H l -> Guarantee G H (mutate f l).
Proof.
  intros Hf Hl. apply guarantee_bind; [apply guarantee_on_request; auto|]. intros out. apply _.
Qed.

#[global] Instance guarantee_inspect G H {A} (f : t -> A) l : Guarantee G H (inspect f l).
Proof.
  apply guarantee_bind; [apply guarantee_on_request|intros; apply _].
  - by intros r.
  - left. intros r. by left.
Qed.

Lemma guarantee_for_each_in G H {A} (f : A -> M X unit) l :
  (forall a, a ∈ l -> Guarantee G H (f a)) -> Guarantee G H (for_each f l).
Proof.
  intros Hf. induction l as [|a l IH]; simpl; [apply _|].
  apply guarantee_bind; [apply Hf; left|]. intros []. apply IH. intros b Hb. apply Hf. by right.
Qed.

Lemma guarantee_for_until_in G H {A R} (f : A -> M X (option R)) l :
  (forall a, a ∈ l -> Guarantee G H (f a)) -> Guarantee G H (for_until f l).
Proof.
  intros Hf. induction l as [|a l IH]; simpl; [apply _|].
  apply guarantee_bind; [apply Hf; left|]. intros []; [apply _|].
  apply IH. intros b Hb. apply Hf. by right.
Qed.

#[global] Instance guarantee_filterM G H {A} (f : A -> M X bool) l :
  (forall a, Guarantee G H (f a)) -> Guarantee G H (filterM f l).
Proof. intros Hf. induction l; simpl; apply _. Qed.

#[global] Instance guarantee_timeout G H tp l : Guarantee G H (req_try_timeout_if_expired tp l).
Proof.
  unfold req_try_timeout_if_expired, req_try_timeout. apply guarantee_bind; [apply _|].
  intros []; apply _.
Qed.

#[global] Instance guarantee_is_dead G H p : Guarantee G H (is_dead_request p).
Proof.
  destruct p as [l|]; simpl; [|apply _]. unfold req_is_terminal.
  apply guarantee_bind; [apply _|]. intros []; apply _.
Qed.

#[global] Instance guarantee_deref G H p : Guarantee G H (BatchBuilder.deref p).
Proof. unfold BatchBuilder.deref. destruct p; apply _. Qed.

(** A filtered list is part of the list. *)
Lemma filterM_subset {A} (f : A -> M X bool) l l' w w' :
  filterM f l w = (Ret l', w') -> l' ⊆ l.
Proof.
  revert l' w w'. induction l as [|a l IH]; intros l' w w'; simpl; [by intros [= <-]|].
  intros (keep & w1 & _ & Hk)%bind_ret_inv. apply bind_ret_inv in Hk as (rest & w2 & Hr & Hk).
  apply IH in Hr. injection Hk as <- _. destruct keep; set_solver.
Qed.
End guarantee.

#[export] Hint Extern 4 (Guarantee _ _ (match ?x with _ => _ end)) => destruct x : typeclass_instances.

(** ** The worker's thread *)

(** The fields other than the lane, the deferred request and the thread. *)
Definition side_field {B} (f : Worker.t B -> Worker.t B) : Prop :=
  forall s, Worker.lane_ (f s) = Worker.lane_ s /\ Worker.deferred_ (f s) = Worker.deferred_ s /\
    Worker.thread_ (f s) = Worker.thread_ s.

Section worker.
Context {B : Type} `{!IModelBackend B} `{HO : !HashOrder}.
Context {X : Type} `{!Shared X} (L : lens X (Worker.t B)).
Implicit Types (H : loc -> Prop) (ps batch : list RequestPtr).

(** Changes of this worker only, and among them those of its side fields. *)
Definition within (f : X -> X) : Prop := exists g, forall x, f x = over L g x.
Definition beside (f : X -> X) : Prop := exists g, side_field g /\ forall x, f x = over L g x.

Lemma beside_within f : beside f -> within f.
Proof. intros (g & _ & Hg). by exists g. Qed.

Lemma guarantee_beside H {A} (m : M X A) : Guarantee beside H m -> Guarantee within H m.
Proof. intros Hm. eapply guarantee_weaken; [exact Hm|apply beside_within|done]. Qed.

(** The thread holds the pointers of [ps]. *)
Class Owned H ps : Prop := owned l : Some l ∈ ps -> H l.

#[global] Instance owned_all ps : Owned (fun _ => True) ps.
Proof. done. Qed.

Lemma owned_subset H ps ps' : Owned H ps -> ps' ⊆ ps -> Owned H ps'.
Proof. intros Ho Hs l Hl. apply Ho. by apply Hs. Qed.

Lemma guarantee_put H f : side_field f -> Guarantee beside H (Worker.put L f).
Proof. intros Hf. apply guarantee_updating. by exists f. Qed.

Lemma guarantee_side {A} H (g : X -> A * X) :
  (forall x, exists f, side_field f /\ (g x).2 = over L f x) -> Guarantee beside H (atomically g).
Proof.
  intros Hg. apply guarantee_atomically. intros x. destruct (Hg x) as (f & Hf & Hx).
  exists (over L f). split; [by exists f|done].
Qed.

#[global] Instance guarantee_restore H : Guarantee beside H (Worker.restore_idle L).
Proof. by apply guarantee_put. Qed.
#[global] Instance guarantee_record H n : Guarantee beside H (Worker.record_batch_metrics L n).
Proof. by apply guarantee_put. Qed.
#[global] Instance guarantee_fetch_sub H n : Guarantee beside H (Worker.fetch_sub L n).
Proof. by apply guarantee_put. Qed.
#[global] Instance guarantee_busy H n : Guarantee beside H (Worker.put L (Worker.set_activity Busy n)).
Proof. by apply guarantee_put. Qed.
#[global] Instance guarantee_get G H {A} (f : Worker.t B -> A) : Guarantee G H (Worker.get L f).
Proof. apply guarantee_reading. Qed.
#[global] Instance guarantee_discard H p : Guarantee beside H (Worker.discard_queued_request L p).
Proof. unfold Worker.discard_queued_request. apply _. Qed.

#[global] Instance guarantee_ensure H e m : Guarantee beside H (Worker.ensure_resident L e m).
Proof.
  apply guarantee_bind; [|intros []; apply _]. apply guarantee_side. intros x.
  destruct (ModelManager.ensure_resident e m _) as [out m']. eexists. split; [|reflexivity]. by intros s.
Qed.

#[global] Instance guarantee_infer H views : Guarantee beside H (Worker.infer_batch L views).
Proof.
  apply guarantee_bind; [|intros []; apply _]. apply guarantee_side. intros x.
  cbv zeta. destruct (infer_batch views (ModelManager.backend_ (Worker.model_manager_ (view L x)))) as [out b]. eexists. split; [|reflexivity]. by intros s.
Qed.

Ltac unfold_requests :=
  unfold req_is_terminal, req_state, req_transition_to, req_try_fail, req_try_complete, req_model_id.

#[global] Instance guarantee_filter G H batch : Guarantee (X := X) G H (Worker.filter_live_batch batch).
Proof. unfold Worker.filter_live_batch, Worker.live. apply _. Qed.

Lemma guarantee_fail_one G H e p : (forall l, p = Some l -> H l) -> Guarantee (X := X) G H (Worker.fail_one e p).
Proof.
  intros Hp. destruct p as [l|]; simpl; [|apply _]. unfold_requests.
  apply guarantee_bind; [apply _|]. intros []; [apply _|].
  apply guarantee_bind; [apply _|]. intros st.
  apply guarantee_bind; [|intros; apply _].
  destruct (bool_decide _); [|apply _]. apply guarantee_bind; [|intros; apply _].
  apply guarantee_mutate_own; [apply _|]. by apply Hp.
Qed.

#[global] Instance guarantee_fail_all H e batch :
  Owned H batch -> Guarantee beside H (Worker.fail_all L e batch).
Proof.
  intros Ho. apply guarantee_bind; [apply _|]. intros []. apply guarantee_bind; [|intros; apply _].
  apply guarantee_for_each_in. intros p Hp. apply guarantee_fail_one. intros l ->. by apply Ho.
Qed.

#[global] Instance guarantee_fail_live G H e batch : Guarantee (X := X) G H (Worker.fail_live e batch).
Proof. unfold Worker.fail_live. unfold_requests. apply guarantee_for_each_in. intros p _. apply _. Qed.

Lemma guarantee_run_one H batch p :
  Owned H batch -> p ∈ batch -> Guarantee beside H (Worker.run_one L batch p).
Proof.
  intros Ho Hp. unfold Worker.run_one. unfold_requests.
  apply guarantee_bind; [apply _|]. intros []; [apply _|].
  destruct p as [l|]; [|by intros P w HP Hw].
  apply guarantee_bind_with; [apply _|]. intros a w w' [= <- _].
  apply guarantee_bind; [|intros; apply _].
  apply guarantee_mutate_own; [apply _|]. by apply Ho.
Qed.

#[global] Instance guarantee_to_running H batch :
  Owned H batch -> Guarantee beside H (Worker.to_running L batch).
Proof. intros Ho. apply guarantee_for_until_in. intros p. by apply guarantee_run_one. Qed.

#[global] Instance guarantee_views G H batch : Guarantee (X := X) G H (Worker.views_of batch).
Proof. induction batch as [|[]]; simpl; apply _. Qed.

#[global] Instance guarantee_deliver_results G H pairs last :
  Guarantee (X := X) G H (Worker.deliver_results pairs last).
Proof. revert last. induction pairs as [|[]]; intros; simpl; unfold_requests; apply _. Qed.

#[global] Instance guarantee_finish H batch rs : Guarantee beside H (Worker.finish_batch L batch rs).
Proof. unfold Worker.finish_batch. apply _. Qed.

#[global] Instance guarantee_inference H batch :
  Owned H batch -> Guarantee beside H (Worker.run_inference L batch).
Proof. intros Ho. unfold Worker.run_inference. apply _. Qed.

#[global] Instance guarantee_resident H e batch : Guarantee beside H (Worker.run_resident L e batch).
Proof. unfold Worker.run_resident. unfold_requests. apply _. Qed.

(** The batches the parts of [execute_batch] hand on are parts of the batch. *)
Lemma run_resident_subset e batch batch' (w w' : World X) :
  Worker.run_resident L e batch w = (Ret (inr batch'), w') -> batch' ⊆ batch.
Proof.
  unfold Worker.run_resident. destruct batch as [|p batch].
  { intros (u & w1 & _ & [=])%bind_ret_inv. }
  intros (l & w1 & _ & Hk)%bind_ret_inv. apply bind_ret_inv in Hk as (m & w2 & _ & Hk).
  apply bind_ret_inv in Hk as (st & w3 & _ & Hk). destruct (negb (Status.ok st)).
  { apply bind_ret_inv in Hk as (? & ? & _ & Hk). apply bind_ret_inv in Hk as (? & ? & _ & Hk).
    by apply bind_ret_inv in Hk as (? & ? & _ & [=]). }
  apply bind_ret_inv in Hk as (live & w4 & Hf & Hk). apply filterM_subset in Hf.
  destruct live as [|p' live]; [by apply bind_ret_inv in Hk as (? & ? & _ & [=])|].
  by injection Hk as <- _.
Qed.

Lemma first_part_subset batch batch' (w w' : World X) :
  (out ← Worker.to_running L batch;
   match out with
   | Some st => mret (inl st)
   | None => batch ← Worker.filter_live_batch batch; mret (inr batch)
   end) w = (Ret (inr batch' : Status + list RequestPtr), w') -> batch' ⊆ batch.
Proof.
  intros ([st|] & w1 & _ & Hk)%bind_ret_inv; [done|].
  apply bind_ret_inv in Hk as (live & w4 & Hf & Hk). apply filterM_subset in Hf.
  by injection Hk as <- _.
Qed.

(** The handler of the [try] block does not hand on a batch. *)
Lemma guarded_inr {A} (m : M X (Status + A)) (h : exn -> M X Status) a (w w' : World X) :
  try_catch m (fun e => st ← h e; mret (inl st)) w = (Ret (inr a), w') -> m w = (Ret (inr a), w').
Proof.
  unfold try_catch. destruct (m w) as [[[st|a']|e|] w1]; [done..| |done].
  by intros (? & ? & _ & [=])%bind_ret_inv.
Qed.

#[global] Instance guarantee_execute H e batch :
  Owned H batch -> Guarantee beside H (Worker.execute_batch L e batch).
Proof.
  intros Ho. unfold Worker.execute_batch. apply guarantee_bind_with; [apply _|].
  intros batch1 w w' Hsub1%filterM_subset. apply (owned_subset H _ _ Ho) in Hsub1 as Ho1.
  destruct batch1 as [|p batch1]; [apply _|]. cbv zeta.
  apply guarantee_bind; [apply _|]. intros []. apply guarantee_bind; [apply _|]. intros [].
  apply guarantee_bind_with; [apply _|]. intros [st|batch2] w2 w2' Hg; [apply _|].
  apply guarded_inr, first_part_subset in Hg. apply (owned_subset H _ _ Ho1) in Hg as Ho2.
  apply guarantee_bind_with; [apply _|]. intros [st|batch3] w3 w3' Hg3; [apply _|].
  apply guarded_inr, run_resident_subset in Hg3. apply (owned_subset H _ _ Ho2) in Hg3 as Ho3.
  apply _.
Qed.

(** ** One iteration, up to the batch: only this worker changes *)

Lemma guarantee_put_within H f : Guarantee within H (Worker.put L f).
Proof. apply guarantee_updating. by exists f. Qed.

Lemma within_focus {A} (f : Worker.t B -> A * Worker.t B) x :
  exists g, within g /\ (focus L f x).2 = g x.
Proof. exists (over L (fun s => (f s).2)). split; [by eexists|done]. Qed.

Lemma within_lane {A} (f : BoundedQueue.t RequestPtr -> A * BoundedQueue.t RequestPtr) x :
  exists g, within g /\ (focus (Worker.lane_lens_of L) f x).2 = g x.
Proof.
  exists (over L (Worker.over_lane (fun q => (f q).2))). split; [by eexists|done].
Qed.

#[global] Instance guarantee_wait_pop H : Guarantee within H (BoundedQueue.wait_pop (Worker.lane_lens_of L)).
Proof. apply guarantee_wait_then. intros x. apply within_lane. Qed.

#[global] Instance guarantee_wait_pop_until H d :
  Guarantee within H (BoundedQueue.wait_pop_until (Worker.lane_lens_of L) d).
Proof. apply guarantee_timed_wait_then. intros b x. apply within_lane. Qed.

#[global] Instance guarantee_take_first H : Guarantee within H (Worker.take_first L).
Proof.
  apply guarantee_bind; [|intros []; apply _]. apply guarantee_atomically. intros x. apply within_focus.
Qed.

#[local] Hint Extern 6 (Guarantee within _ _) => apply guarantee_beside : typeclass_instances.

#[global] Instance guarantee_pop_live H fuel d : Guarantee within H (Worker.pop_live L fuel d).
Proof. induction fuel; simpl; [by intros P w|]. apply _. Qed.

#[global] Instance guarantee_pop_until H d : Guarantee within H (Worker.pop_until L d).
Proof. intros P w HP. exact (guarantee_pop_live H _ d P w HP). Qed.

#[global] Instance guarantee_on_extra H p : Guarantee within H (Worker.on_extra L p).
Proof. unfold Worker.on_extra. apply _. Qed.

#[global] Instance guarantee_compute_deadline G H b aw rs :
  Guarantee (X := X) G H (BatchBuilder.compute_deadline b aw rs).
Proof.
  assert (He : forall e, Guarantee (X := X) G H (BatchBuilder.earliest_from e rs)).
  { induction rs as [|[l|] rs IH]; intros e; simpl; unfold req_deadline; apply _. }
  unfold BatchBuilder.compute_deadline, BatchBuilder.earliest_deadline. apply _.
Qed.

#[global] Instance guarantee_form_loop H fuel b aw m rs :
  Guarantee within H (BatchBuilder.form_loop fuel b (Worker.pop_until L) aw (Some (Worker.on_extra L)) m rs).
Proof.
  revert rs. induction fuel as [|fuel IH]; intros rs; simpl; [apply _|].
  unfold req_model_id. apply _.
Qed.

#[global] Instance guarantee_form H b first aw :
  Guarantee within H (BatchBuilder.form b first (Worker.pop_until L) aw (Some (Worker.on_extra L))).
Proof. unfold BatchBuilder.form, req_model_id. apply _. Qed.
End worker.
