(* ===== verification/WorkerDrain.v ===== *)
(** * A closed worker drains

    Theorems about the loop of the worker's thread: while other threads push,
    cancel and let deadlines pass, no request that entered the lane is lost,
    and once the lane is closed the loop ends with all of them terminal. *)

From S2P Require Import Prelude Status Requests World Queue Registry Resources Eviction.
From S2P Require Import Backends Manager Router Batch Scheduler Admission Worker WorkerProofs.
From S2P Require Import Guarantee.
Import InferenceRequest.

(** What the worker's thread may rely on: others push to the lane, count and
    close; the rest of the worker is its own. *)
Record worker_rely {B} (s s' : Worker.t B) : Prop := {
  rely_lane : exists pushed,
    BoundedQueue.queue_ (Worker.lane_ s') = BoundedQueue.queue_ (Worker.lane_ s) ++ pushed /\
    (length pushed <= 1)%nat /\
    BoundedQueue.capacity_ (Worker.lane_ s') = BoundedQueue.capacity_ (Worker.lane_ s) /\
    (BoundedQueue.closed_ (Worker.lane_ s) = true -> BoundedQueue.closed_ (Worker.lane_ s') = true);
  rely_deferred : Worker.deferred_ s' = Worker.deferred_ s;
  rely_state : Worker.state_ s' = Worker.state_ s;
  rely_active : Worker.active_count_ s' = Worker.active_count_ s;
  rely_manager : Worker.model_manager_ s' = Worker.model_manager_ s
}.

Class WorkerRely {B X} `{!Shared X} (L : lens X (Worker.t B)) : Prop :=
  worker_relies a x : worker_rely (view L x) (view L (act_step a x)).

#[export] Instance worker_self_rely B : WorkerRely (@lens_id (Worker.t B)).
Proof.
  intros [p| | |] s; split; simpl; try done.
  - destruct (try_push_grows p (Worker.lane_ s)) as (pushed & ? & ? & ? & Hc & _).
    exists pushed. rewrite Hc. auto.
  - exists []. rewrite app_nil_r. repeat split; [simpl; lia|done].
  - exists []. rewrite app_nil_r. repeat split; [simpl; lia|done].
  - exists []. rewrite app_nil_r. repeat split. simpl. lia.
Qed.

Section drain.
Context {B : Type} `{!IModelBackend B} `{HO : !HashOrder}.
Context {X : Type} `{!Shared X} (L : lens X (Worker.t B)) `{!WorkerRely L}.
Implicit Types (w : World X) (P : World X -> Prop).

Notation lane x := (Worker.lane_ (view L x)).

#[global] Instance lane_of_rely : LaneRely (Worker.lane_lens_of L).
Proof. intros a x. simpl. apply (worker_relies (L := L) a x). Qed.

(** ** Assertions about the lane and the deferred request only *)

Class WStable P : Prop := {
  wstable_stable :: Stable P;
  wstable_side f w : side_field f -> P w -> P (set_shared (over L f (shared w)) w)
}.

Class WQuiet {A} (m : M X A) : Prop := wquiet P w : WStable P -> P w -> P (m w).2.

#[global] Instance quiet_wquiet {A} (m : M X A) : Quiet m -> WQuiet m.
Proof. intros Hm P w HP. apply Hm, _. Qed.

#[global] Instance wquiet_bind {A C} (m : M X A) (k : A -> M X C) :
  WQuiet m -> (forall a, WQuiet (k a)) -> WQuiet (m ≫= k).
Proof.
  intros Hm Hk P w HP Hw. unfold mbind, M_bind. specialize (Hm P w HP Hw).
  destruct (m w) as [[a|e|] w']; simpl in *; try done. by apply Hk.
Qed.

#[global] Instance wquiet_try_catch {A} (m : M X A) h :
  WQuiet m -> (forall e, WQuiet (h e)) -> WQuiet (try_catch m h).
Proof.
  intros Hm Hh P w HP Hw. unfold try_catch. specialize (Hm P w HP Hw).
  destruct (m w) as [[a|e|] w']; simpl in *; try done. by apply Hh.
Qed.

(** What the worker's thread does beside its lane leaves them alone. *)
Lemma wstable_kept P : WStable P -> Kept (beside L) (fun _ => True) P.
Proof.
  intros HP. split.
  - intros w l r r' Hl Hev _ Hw. apply (stable_req w); [|done..].
    split; simpl; [by eapply heap_le_insert|lia|done].
  - intros w ns Hw. apply (stable_req w); [|done..]. split; simpl; [done|lia|by apply prefix_app_r].
  - intros w. apply stable_env.
  - intros f w (g & Hg & Hf) Hw. rewrite Hf. by apply wstable_side.
Qed.

#[global] Instance guarantee_wquiet {A} (m : M X A) :
  Guarantee (beside L) (fun _ => True) m -> WQuiet m.
Proof. intros Hm P w HP. apply Hm. by apply wstable_kept. Qed.

#[local] Hint Extern 4 (WQuiet (match ?x with _ => _ end)) => destruct x : typeclass_instances.

Lemma keeps_wquiet {A} P (m : M X A) : WStable P -> WQuiet m -> Keeps P m.
Proof. intros HP Hm w. by apply Hm. Qed.

#[global] Instance wstable_and P R : WStable P -> WStable R -> WStable (fun w => P w /\ R w).
Proof. intros HP HR. split; [apply _|]. intros f w Hf [??]. split; by apply wstable_side. Qed.

#[global] Instance upward_wstable P : Upward P -> WStable P.
Proof. intros HP. split; [apply _|]. intros f w _. apply HP, set_shared_le. Qed.

(** ** The invariant of the loop *)

Definition closed_lane w : Prop := BoundedQueue.closed_ (lane (shared w)) = true.
Definition no_deferred w : Prop := Worker.deferred_ (view L (shared w)) = None.

(** Every pointer in the lane, to be pushed, or deferred is to a request
    that has been admitted. *)
Definition worker_valid w : Prop :=
  lane_at (Worker.lane_lens_of L) admitted w /\
  forall p, Worker.deferred_ (view L (shared w)) = Some p -> ptr_at admitted p w.

(** The requests [T] are in the lane, deferred, in the hands [ps] of the
    thread, or terminal. *)
Definition held (T : loc -> Prop) (ps : list RequestPtr) w : Prop :=
  forall l, T l -> Some l ∈ BoundedQueue.queue_ (lane (shared w)) \/
    Worker.deferred_ (view L (shared w)) = Some (Some l) \/ Some l ∈ ps \/ req_at terminal_req l w.

Definition work_left (x : X) : nat :=
  length (BoundedQueue.queue_ (lane x)) +
  match Worker.deferred_ (view L x) with Some _ => 1 | None => 0 end.

Lemma side_view f x : side_field f ->
  lane (over L f x) = lane x /\ Worker.deferred_ (view L (over L f x)) = Worker.deferred_ (view L x).
Proof. intros Hf. rewrite view_over. by destruct (Hf (view L x)) as (? & ? & _). Qed.

#[global] Instance wstable_closed : WStable closed_lane.
Proof.
  split.
  - apply (stable_shared (fun x => BoundedQueue.closed_ (lane x) = true)). intros a x.
    destruct (rely_lane _ _ (worker_relies (L := L) a x)) as (? & _ & _ & _ & Hc). exact Hc.
  - intros f w Hf. unfold closed_lane. simpl. by destruct (side_view f (shared w) Hf) as [-> _].
Qed.

#[global] Instance wstable_no_deferred : WStable no_deferred.
Proof.
  split.
  - apply (stable_shared (fun x => Worker.deferred_ (view L x) = None)). intros a x.
    by rewrite (rely_deferred _ _ (worker_relies (L := L) a x)).
  - intros f w Hf. unfold no_deferred. simpl. by destruct (side_view f (shared w) Hf) as [_ ->].
Qed.

#[global] Instance wstable_held T ps : WStable (held T ps).
Proof.
  split.
  - apply stable_acts.
    + intros w w' Hle Hs Hh l Hl. rewrite Hs. destruct (Hh l Hl) as [?|[?|[?|Ht]]]; auto.
      do 3 right. by eapply upward.
    + intros a w Hh l Hl. simpl. pose proof (worker_relies (L := L) a (shared w)) as Hr.
      rewrite (rely_deferred _ _ Hr). destruct (rely_lane _ _ Hr) as (pushed & -> & _).
      destruct (Hh l Hl) as [?|[?|[?|Ht]]]; auto. left. apply elem_of_app. by left.
  - intros f w Hf Hh l Hl. simpl. destruct (side_view f (shared w) Hf) as [-> ->].
    destruct (Hh l Hl) as [?|[?|[?|Ht]]]; auto.
Qed.

#[global] Instance wstable_potential n : WStable (fun w => (potential work_left w <= n)%nat).
Proof.
  split.
  - apply stable_potential. intros a x. unfold work_left.
    pose proof (worker_relies (L := L) a x) as Hr. rewrite (rely_deferred _ _ Hr).
    destruct (rely_lane _ _ Hr) as (pushed & -> & ? & _). rewrite length_app. lia.
  - intros f w Hf. unfold potential, work_left. simpl.
    by destruct (side_view f (shared w) Hf) as [-> ->].
Qed.

Lemma stable_deferred_at : Stable (fun w =>
  forall p, Worker.deferred_ (view L (shared w)) = Some p -> ptr_at admitted p w).
Proof.
  apply stable_acts.
  - intros w w' Hle -> Hd p Hp. eapply upward; [exact Hle|]. by apply Hd.
  - intros a w Hd p. simpl. rewrite (rely_deferred _ _ (worker_relies (L := L) a (shared w))).
    intros Hp. eapply upward; [apply set_shared_le|]. by apply Hd.
Qed.

#[global] Instance wstable_valid : WStable worker_valid.
Proof.
  split; [apply stable_and; [apply _|apply stable_deferred_at]|].
  intros f w Hf [[Hq He] Hd]. destruct (side_view f (shared w) Hf) as [Hl Hdef].
  pose proof (set_shared_le (over L f (shared w)) w) as Hle.
  repeat split; simpl.
  - rewrite Hl. intros p Hp. eapply upward; [exact Hle|]. by apply Hq.
  - intros b a Hb Ha x p Hp. destruct (He b a Hb Ha x p Hp); [by left|right]. by eapply upward.
  - rewrite Hdef. intros p Hp. eapply upward; [exact Hle|]. by apply Hd.
Qed.

(** Between iterations. *)
Definition loop_inv (T : loc -> Prop) (n : nat) w : Prop :=
  worker_valid w /\ held T [] w /\ (potential work_left w <= n)%nat.

(** Inside an iteration, with [ps] in hand. *)
Definition hand_inv (T : loc -> Prop) (ps : list RequestPtr) (n : nat) w : Prop :=
  worker_valid w /\ no_deferred w /\ held T ps w /\ ptrs_at admitted ps w /\
  (potential work_left w <= n)%nat.

#[global] Instance wstable_loop_inv T n : WStable (loop_inv T n).
Proof. unfold loop_inv. apply _. Qed.
#[global] Instance wstable_hand_inv T ps n : WStable (hand_inv T ps n).
Proof. unfold hand_inv. apply _. Qed.

Lemma hand_intro T ps n w :
  lane_at (Worker.lane_lens_of L) admitted w -> no_deferred w -> held T ps w ->
  ptrs_at admitted ps w -> (potential work_left w <= n)%nat -> hand_inv T ps n w.
Proof.
  intros Hl Hnd Hh Hps Hn. split; [|done]. split; [done|]. intros p. by rewrite Hnd.
Qed.

(** Taking the head of the lane, as [wait_pop] and [wait_pop_until] do. *)
Lemma pop_hand T ps n w :
  hand_inv T ps n w ->
  let '(o, x) := focus (Worker.lane_lens_of L) BoundedQueue.pop_body (shared w) in
  match o with
  | None => hand_inv T ps n (set_shared x w)
  | Some p => exists n', n = S n' /\ hand_inv T (ps ++ [p]) n' (set_shared x w)
  end.
Proof.
  intros ([Hl Hd] & Hnd & Hh & Hps & Hn).
  pose proof (lane_at_pop (Worker.lane_lens_of L) admitted w _ Hl) as [Hl' Hp].
  pose proof (set_shared_le (focus (Worker.lane_lens_of L) BoundedQueue.pop_body (shared w)).2 w) as Hle.
  unfold focus, BoundedQueue.pop_body in *. simpl in *.
  set (x' := over L _ (shared w)) in *.
  assert (Hx : view L x' = Worker.over_lane (fun q => (match BoundedQueue.queue_ q with
     | [] => (None, q) | v :: vs => (Some v, BoundedQueue.mk (BoundedQueue.capacity_ q) vs
       (BoundedQueue.closed_ q)) end).2) (view L (shared w))) by apply view_over.
  unfold no_deferred in Hnd.
  assert (Hdef : Worker.deferred_ (view L x') = None) by (by rewrite Hx).
  assert (Hq : BoundedQueue.queue_ (lane x') = tail (BoundedQueue.queue_ (lane (shared w)))).
  { rewrite Hx. simpl. by destruct (BoundedQueue.queue_ (lane (shared w))) eqn:E; simpl; rewrite ?E. }
  destruct (BoundedQueue.queue_ (lane (shared w))) as [|p q] eqn:E; simpl in *.
  - apply hand_intro; [done|done|..].
    + intros l Hl0. specialize (Hh l Hl0). simpl. rewrite Hq, Hdef. rewrite E, Hnd in Hh. exact Hh.
    + by eapply upward.
    + unfold potential, work_left in *. simpl. rewrite Hq, Hdef. by rewrite E, Hnd in Hn.
  - unfold potential, work_left in Hn. rewrite E, Hnd in Hn. simpl in Hn.
    destruct n as [|n]; [lia|]. exists n. split; [done|].
    apply hand_intro; [done|done|..].
    + intros l Hl0. specialize (Hh l Hl0). simpl. rewrite Hq, Hdef. rewrite E, Hnd in Hh.
      destruct Hh as [[Heq|?]%elem_of_cons|[?|[?|?]]]; rewrite ?elem_of_app; auto.
      do 2 right. left. right. rewrite Heq. left.
    + apply Forall_app. split; [exact (ptrs_at_upward admitted ps _ _ _ Hle Hps)|].
      constructor; [by apply Hp|constructor].
    + unfold potential, work_left. simpl. rewrite Hq, Hdef. lia.
Qed.

Lemma triple_pop_hand T ps n d :
  triple (hand_inv T ps n) (BoundedQueue.wait_pop_until (Worker.lane_lens_of L) d)
    (fun o w => match o with
       | None => hand_inv T ps n w
       | Some p => exists n', n = S n' /\ hand_inv T (ps ++ [p]) n' w end) no_throw.
Proof.
  apply triple_timed_wait_then; [apply _|]. intros _ w Hw. pose proof (pop_hand T ps n w Hw) as Hp.
  by destruct (focus _ _ (shared w)) as [[p|] x].
Qed.

(** Dropping a dead request from the hands. *)
Lemma drop_dead T ps p n w : hand_inv T (ps ++ [p]) n w -> dead_ptr p w -> hand_inv T ps n w.
Proof.
  intros (Hv & Hd & Hh & Hps & Hn) Hdead. repeat split; try done; try apply Hv.
  - intros l Hl. destruct (Hh l Hl) as [?|[?|[Hin|?]]]; auto.
    apply elem_of_app in Hin as [?|Hin]; [by auto|]. apply list_elem_of_singleton in Hin.
    do 3 right. by apply Hdead.
  - by apply Forall_app in Hps as [? _].
Qed.

Lemma hand_last T ps p n w : hand_inv T (ps ++ [p]) n w -> ptr_at admitted p w.
Proof. intros (_ & _ & _ & [_ Hp]%Forall_app & _). by apply Forall_cons in Hp as [? _]. Qed.

(** A live check of the request just taken. *)
Lemma triple_check_hand T ps p n :
  triple (hand_inv T (ps ++ [p]) n) (is_dead_request p)
    (fun d w => hand_inv T (ps ++ [p]) n w /\
       if (d : bool) then dead_ptr p w else loc_at admitted p w) no_throw.
Proof.
  eapply triple_conseq; [apply (triple_keeps_safe (ptr_at admitted p) (hand_inv T (ps ++ [p]) n)
    _ _ no_throw (keeps_wquiet _ _ _ _) (triple_dead_check admitted p _))|..|done].
  - intros w Hw. split; [by eapply hand_last|done].
  - by intros d w [].
Qed.

Lemma triple_discard p :
  triple (fun _ => True) (Worker.discard_queued_request L p) (fun _ _ => True) no_throw.
Proof.
  intros w _. unfold Worker.discard_queued_request, mbind, M_bind. simpl.
  by destruct (0 <? _).
Qed.

Lemma triple_pop_live fuel T ps n d :
  triple (hand_inv T ps n) (Worker.pop_live L fuel d)
    (fun o w => match o with
       | None => hand_inv T ps n w
       | Some p => exists n', (n' < n)%nat /\ hand_inv T (ps ++ [p]) n' w /\ loc_at admitted p w end)
    no_throw.
Proof.
  revert n. induction fuel as [|fuel IH]; intros n; simpl; [done|].
  eapply triple_bind; [apply triple_pop_hand|]. intros [p|]; [|by apply triple_ret].
  destruct n as [|n]; [by intros w (? & ? & _)|].
  eapply triple_bind; [eapply triple_pre; [|apply (triple_check_hand T ps p n)]|].
  { by intros w (n' & [= <-] & ?). }
  intros [|]; simpl.
  - eapply (triple_bind _ _ (fun _ => hand_inv T ps n)).
    + eapply triple_conseq; [apply (triple_keeps_safe (fun _ => True) (hand_inv T ps n) _
        (fun _ _ => True) no_throw (keeps_wquiet _ _ _ _))|..|done].
      * apply triple_discard.
      * intros w [? ?]. split; [done|]. by eapply drop_dead.
      * by intros [] w [].
    + intros []. eapply triple_post; [|apply (IH n)]. intros [p'|] w; [|intros Hw].
      * intros (n' & ? & ?). exists n'. split; [lia|done].
      * destruct Hw as (Hv & Hd & Hh & Hps & Hn). do 4 (split; [done|]). lia.
  - apply triple_ret. intros w [??]. exists n. split; [lia|done].
Qed.

(** ** One iteration *)

#[global] Instance mono_discard p : Mono (Worker.discard_queued_request L p).
Proof. unfold Worker.discard_queued_request, Worker.get, Worker.fetch_sub, Worker.put. apply _. Qed.
#[global] Instance discard_nb p : NonBlocking (Worker.discard_queued_request L p).
Proof. unfold Worker.discard_queued_request, Worker.get, Worker.fetch_sub, Worker.put. apply _. Qed.
#[global] Instance mono_pop_live fuel d : Mono (Worker.pop_live L fuel d).
Proof.
  induction fuel; simpl; [by intros w|]. unfold BoundedQueue.wait_pop_until. apply _.
Qed.
#[global] Instance mono_pop_until d : Mono (Worker.pop_until L d).
Proof. intros w. apply mono_pop_live. Qed.
#[global] Instance mono_on_extra p : Mono (Worker.on_extra L p).
Proof. unfold Worker.on_extra. apply _. Qed.

Section iteration.
Context (T : loc -> Prop) (first : RequestPtr) (n : nat).

(** While the batch is formed: [ps] are the requests popped after [first]. *)
Definition forming (ps : list RequestPtr) w : Prop :=
  (length ps <= n)%nat /\ hand_inv T (first :: ps) (n - length ps) w.

#[global] Instance wstable_forming ps : WStable (forming ps).
Proof. unfold forming. apply _. Qed.

Lemma triple_pop_forming ps d :
  triple (forming ps) (Worker.pop_until L d)
    (fun o w => match o with None => forming ps w
                | Some p => forming (ps ++ [p]) w /\ loc_at admitted p w end) no_throw.
Proof.
  intros w [Hlen Hw].
  pose proof (triple_pop_live (S (potential (lane_length (Worker.lane_lens_of L)) w)) T (first :: ps)
    (n - length ps) d w Hw) as Ht. unfold Worker.pop_until.
  destruct (Worker.pop_live L _ d w) as [[[p|]|e|] w']; [|done..].
  destruct Ht as (n' & Hlt & (Hv & Hd & Hh & Hps & Hn) & Hp). split; [|done].
  unfold forming. rewrite length_app. simpl. split; [lia|]. do 4 (split; [done|]). lia.
Qed.

Lemma triple_on_extra ps p :
  triple (fun w => forming ps w /\ loc_at admitted p w) (Worker.on_extra L p)
    (fun k w => forming ps w /\
       (if (k : bool) then exists l, p = Some l /\ req_at any_req l w else dead_ptr p w)) no_throw.
Proof.
  unfold Worker.on_extra. eapply triple_bind.
  - eapply triple_pre; [|apply (triple_keeps_safe (ptr_at admitted p) (forming ps)
      _ _ no_throw (keeps_wquiet _ _ _ _) (triple_dead_check admitted p _))].
    intros w [??]. split; [by apply loc_ptr|done].
  - intros [|].
    + eapply triple_bind; [eapply triple_conseq; [apply (triple_keeps_safe (fun _ => True)
        (fun w => forming ps w /\ dead_ptr p w) _ (fun _ _ => True) no_throw
        (keeps_wquiet _ _ _ _) (triple_discard p))|..|done]|]; [by intros w []|done|].
      intros []. apply triple_ret. by intros w [_ ?].
    + apply triple_ret. intros w [(l & -> & Hl) ?]. split; [done|]. exists l. split; [done|].
      by eapply req_at_mono.
Qed.

(** The batch and the deferred request hold everything that was taken. *)
Definition formed_inv (fb : FormedBatch) w : Prop :=
  exists extras, requests fb = first :: extras /\ forming (extras ++ option_list (deferred fb)) w.

Lemma triple_form builder aw :
  triple (fun w => hand_inv T [first] n w /\ loc_at admitted first w)
    (BatchBuilder.form builder first (Worker.pop_until L) aw (Some (Worker.on_extra L)))
    formed_inv no_throw.
Proof.
  destruct first as [l|] eqn:Hfirst; [|by intros w [_ (? & ? & _)]]. rewrite <- Hfirst.
  unfold BatchBuilder.form. rewrite Hfirst at 1. eapply triple_bind.
  { eapply triple_pre; [|apply (triple_keeps_safe (req_at any_req l) (hand_inv T [first] n)
      _ _ no_throw (keeps_wquiet _ _ _ _) (triple_read_model l no_throw))].
    intros w [Hh (l' & Heq & Hl)]. rewrite Hfirst in Heq. injection Heq as <-.
    split; [by eapply req_at_mono|done]. }
  intros m.
  eapply triple_conseq; [apply (triple_form_loop builder (Worker.pop_until L) aw
    (Some (Worker.on_extra L)) m forming forming (loc_at admitted) dead_ptr no_throw
    triple_pop_forming triple_on_extra _ [] [first])|..|done].
  - intros w [Hm Hh]. split; [by split; [simpl; lia|rewrite Nat.sub_0_r]|].
    rewrite Hfirst. by constructor.
  - intros fb w (extras & Hreq & _ & _ & Hdef). exists extras. split; [done|].
    destruct (deferred fb); simpl; [by destruct Hdef|]. rewrite app_nil_r. by destruct Hdef.
Qed.
End iteration.

Definition all_terminal (T : loc -> Prop) w : Prop := forall l, T l -> req_at terminal_req l w.

(** The outcome of taking the next request. *)
Definition first_taken (T : loc -> Prop) (n : nat) (o : option RequestPtr) w : Prop :=
  match o with
  | Some p => exists n', n = S n' /\ hand_inv T [p] n' w
  | None => all_terminal T w
  end.

Lemma take_deferred T n w :
  loop_inv T n w ->
  let '(d, x) := focus L (fun s => (Worker.deferred_ s, Worker.set_deferred None s)) (shared w) in
  match d with
  | Some p => exists n', n = S n' /\ hand_inv T [p] n' (set_shared x w)
  | None => hand_inv T [] n (set_shared x w)
  end.
Proof.
  intros ([[Hq He] Hd] & Hh & Hn). unfold focus. cbv beta iota zeta. simpl fst. simpl snd.
  set (x := over L (fun y => Worker.set_deferred None y) (shared w)).
  pose proof (set_shared_le x w) as Hle.
  assert (Hx : view L x = Worker.set_deferred None (view L (shared w))) by apply view_over.
  assert (Hl : lane_at (Worker.lane_lens_of L) admitted (set_shared x w)).
  { split.
    - simpl. rewrite Hx. intros p Hp. eapply upward; [exact Hle|]. by apply Hq.
    - intros b a Hb Ha y p Hp. destruct (He b a Hb Ha y p Hp); [by left|right]. by eapply upward. }
  unfold potential, work_left in Hn. destruct (Worker.deferred_ (view L (shared w))) as [p|] eqn:E.
  - destruct n as [|n]; [lia|]. exists n. split; [done|].
    apply hand_intro; [done|by unfold no_deferred; simpl; rewrite Hx|..].
    + intros l HTl. simpl. rewrite Hx. specialize (Hh l HTl). rewrite E in Hh.
      destruct Hh as [?|[Heq|[Hin|?]]]; [by left| | |by do 3 right].
      * injection Heq as <-. do 2 right. left. left.
      * by apply elem_of_nil in Hin.
    + constructor; [|constructor]. eapply upward; [exact Hle|]. by apply Hd.
    + unfold potential, work_left. simpl. rewrite Hx. simpl. lia.
  - apply hand_intro; [done|by unfold no_deferred; simpl; rewrite Hx|..|constructor|].
    + intros l HTl. simpl. rewrite Hx. specialize (Hh l HTl). rewrite E in Hh.
      destruct Hh as [?|[?|[?|?]]]; [by left|done|by do 2 right; left|by do 3 right].
    + unfold potential, work_left. simpl. rewrite Hx. simpl. lia.
Qed.

Lemma triple_take_first T n : triple (loop_inv T n) (Worker.take_first L) (first_taken T n) no_throw.
Proof.
  unfold Worker.take_first. eapply triple_bind.
  { apply (triple_atomically_stable (loop_inv T n) _ (fun d w => match d with
      | Some p => exists n', n = S n' /\ hand_inv T [p] n' w | None => hand_inv T [] n w end));
      [apply _|]. intros w Hw. pose proof (take_deferred T n w Hw) as Ht.
    by destruct (focus L _ (shared w)). }
  intros [p|]; [by apply triple_ret|].
  apply triple_wait_then; [apply _|]. intros w Hw _. pose proof (pop_hand T [] n w Hw) as Hp.
  destruct (focus _ _ (shared w)) as [[p|] x] eqn:Ef; [done|].
  destruct Hp as (_ & Hnd & Hh & _ & _). intros l HTl. specialize (Hh l HTl).
  unfold no_deferred in Hnd. rewrite Hnd in Hh. simpl in *.
  destruct Hh as [Hin|[?|[?%elem_of_nil|?]]]; [|done..].
  unfold focus in Ef. injection Ef as Ho <-. rewrite view_over in Hin. simpl in Hin.
  unfold BoundedQueue.pop_body in *.
  destruct (BoundedQueue.queue_ (lane (shared w))) eqn:Eq; simpl in *; [|done].
  rewrite Eq in Hin. by apply elem_of_nil in Hin.
Qed.

(** Everything the iteration took is in the batch or deferred again. *)
Definition batch_inv (T : loc -> Prop) (reqs : list RequestPtr) (n : nat) w : Prop :=
  worker_valid w /\ held T reqs w /\ ptrs_at admitted reqs w /\ (potential work_left w <= n)%nat.

#[global] Instance wstable_batch_inv T reqs n : WStable (batch_inv T reqs n).
Proof. unfold batch_inv. apply _. Qed.

Lemma triple_set_deferred T first n fb :
  triple (formed_inv T first n fb)
    match deferred fb with
    | Some p => Worker.put L (Worker.set_deferred (Some p))
    | None => mret tt
    end
    (fun _ => batch_inv T (requests fb) n) no_throw.
Proof.
  destruct fb as [reqs d]. unfold formed_inv. simpl. destruct d as [p|]; simpl.
  - apply triple_pull_exists. intros extras. apply triple_pull. intros ->.
    apply (triple_atomically_stable (forming T first n (extras ++ [p]))); [apply _|].
    intros w (Hlen & [Hl _] & Hnd & Hh & Hps & Hn). simpl.
    set (x := over L (Worker.set_deferred (Some p)) (shared w)).
    pose proof (set_shared_le x w) as Hle.
    assert (Hx : view L x = Worker.set_deferred (Some p) (view L (shared w))) by apply view_over.
    destruct Hl as [Hq He]. rewrite app_comm_cons in Hps, Hh. rewrite length_app in Hlen, Hn.
    simpl in Hlen, Hn. apply Forall_app in Hps as [Hps Hp]. apply Forall_cons in Hp as [Hp _].
    split; [split; [split|]|split; [|split]].
    + simpl. rewrite Hx. intros p' Hp'. eapply upward; [exact Hle|]. by apply Hq.
    + intros b a Hb Ha y p' Hp'. destruct (He b a Hb Ha y p' Hp'); [by left|right]. by eapply upward.
    + simpl. rewrite Hx. intros p' [= <-]. by eapply upward.
    + intros l HTl. simpl. rewrite Hx. specialize (Hh l HTl). unfold no_deferred in Hnd.
      rewrite Hnd in Hh. destruct Hh as [?|[?|[Hin|?]]]; [by left|done| |by do 3 right].
      apply elem_of_app in Hin as [?|Hin%list_elem_of_singleton]; [by auto|]. right. left. simpl. by rewrite Hin.
    + exact (ptrs_at_upward admitted _ _ _ _ Hle Hps).
    + unfold potential, work_left in *. simpl. rewrite Hx. simpl. unfold no_deferred in Hnd.
      rewrite Hnd in Hn. lia.
  - apply triple_ret. intros w (extras & -> & Hlen & Hv & Hnd & Hh & Hps & Hn).
    rewrite app_nil_r in *. do 3 (split; [done|]). lia.
Qed.

(** What holds beside the loop: an assertion kept by this worker's thread, and
    restored by [execute_batch], which takes the requests it runs to their
    end. *)
Class Framed (R : World X -> Prop) : Prop := {
  framed_kept :: Kept (within L) (fun _ => False) R;
  framed_execute epoch live : triple (fun w => ptrs_at admitted live w /\ R w)
    (Worker.execute_batch L epoch live) (fun _ w => ptrs_at terminal_req live w /\ R w) no_throw
}.

#[global] Instance framed_true : Framed (fun _ => True).
Proof.
  split; [by split|]. intros epoch live. eapply triple_conseq; [apply (triple_execute_batch L epoch live)|..].
  - by intros w [].
  - by intros.
  - done.
Qed.

Section framed.
Context (R : World X -> Prop) `{!Framed R}.

Lemma triple_with {A} P (m : M X A) Q :
  Guarantee (within L) (fun _ => False) m -> triple P m Q no_throw ->
  triple (fun w => P w /\ R w) m (fun a w => Q a w /\ R w) no_throw.
Proof.
  intros Hm. apply triple_keeps_safe. by eapply keeps_guarantee, Hm; apply _.
Qed.

#[local] Hint Extern 6 (Guarantee (within L) _ _) => apply guarantee_beside : typeclass_instances.

(** The batch is run or found dead. *)
Lemma triple_run_batch T n epoch reqs :
  triple (fun w => batch_inv T reqs n w /\ R w)
    (live ← Worker.filter_live_batch reqs;
     let removed := Z.of_nat (length reqs) - Z.of_nat (length live) in
     _ ← (if 0 <? removed then Worker.fetch_sub L removed else mret tt);
     match live with
     | [] => mret true
     | _ => _ ← Worker.execute_batch L epoch live; mret true
     end)
    (fun more w => (more = true /\ loop_inv T n w) /\ R w) no_throw.
Proof.
  assert (Hfin : forall live w, batch_inv T reqs n w -> partitioned reqs live w ->
    ptrs_at terminal_req live w -> loop_inv T n w).
  { intros live w (Hv & Hh & _ & Hn) Hpart Hdead. split; [done|]. split; [|done].
    intros l HTl. destruct (Hh l HTl) as [?|[?|[Hin|?]]]; auto. do 3 right.
    pose proof (partitioned_dead _ _ _ Hpart Hdead) as Hall. unfold ptrs_at in Hall.
    rewrite Forall_forall in Hall. by apply (Hall _ Hin). }
  eapply triple_bind.
  { apply triple_with; [apply _|].
    eapply triple_pre; [|apply (triple_keeps_safe (ptrs_at admitted reqs) (batch_inv T reqs n)
      _ _ no_throw (keeps_wquiet _ _ _ _) (triple_filter admitted reqs _))].
    intros w Hw. split; [apply Hw|done]. }
  intros live. cbv zeta.
  eapply (triple_bind _ _ (fun _ w => (ptrs_at admitted live w /\ (partitioned reqs live w /\ batch_inv T reqs n w)) /\ R w)).
  { apply triple_with; [apply _|]. intros w [[Hl Hp] Hb]. apply locs_ptrs in Hl.
    assert (Hk : WStable (fun w => ptrs_at admitted live w /\ (partitioned reqs live w /\ batch_inv T reqs n w)))
      by apply _.
    destruct (0 <? _); [|done].
    exact (wquiet (m := Worker.fetch_sub L _) _ w Hk (conj Hl (conj Hp Hb))). }
  intros []. destruct live as [|p0 live0].
  { apply triple_ret. intros w ((_ & Hp & Hb) & ?). split; [split; [done|]|done]. eapply Hfin; [done..|constructor]. }
  generalize (p0 :: live0). intros live. eapply triple_bind.
  { eapply triple_pre; [|apply (triple_keeps_safe (fun w => ptrs_at admitted live w /\ R w)
      (fun w => partitioned reqs live w /\ batch_inv T reqs n w)
      _ _ no_throw (keeps_wquiet _ _ _ _) (framed_execute epoch live))]. tauto. }
  intros st. apply triple_ret. intros w ((Hd & ?) & Hp & Hb). split; [split; [done|]|done]. by eapply Hfin.
Qed.

Definition iterated (T : loc -> Prop) (n : nat) (more : bool) w : Prop :=
  if more then exists n', n = S n' /\ loop_inv T n' w else all_terminal T w.

Lemma triple_run_once_with T n epoch :
  triple (fun w => loop_inv T n w /\ R w) (Worker.run_once L epoch)
    (fun more w => iterated T n more w /\ R w) no_throw.
Proof.
  unfold Worker.run_once. eapply triple_bind; [apply triple_with; [apply _|apply triple_take_first]|].
  intros [first|]; [|by apply triple_ret].
  eapply (triple_pre _ (fun w => exists n', n = S n' /\ (hand_inv T [first] n' w /\ R w))); [naive_solver|].
  apply triple_pull_exists. intros n'. apply triple_pull. intros ->.
  eapply triple_bind; [apply triple_with; [apply _|apply (triple_check_hand T [] first n')]|]. intros [|].
  { eapply (triple_bind _ _ (fun _ w => loop_inv T n' w /\ R w)).
    - apply triple_with; [apply _|].
      eapply triple_conseq; [apply (triple_keeps_safe (fun _ => True) (loop_inv T n') _
        (fun _ _ => True) no_throw (keeps_wquiet _ _ _ _) (triple_discard first))|..|done].
      + intros w [Hw Hd]. split; [done|]. apply (drop_dead T []) in Hw; [|done].
        destruct Hw as (? & _ & ? & _ & ?). done.
      + by intros [] w [].
    - intros []. apply triple_ret. intros w [Hw ?]. split; [by exists n'|done]. }
  assert (Hkeep : WStable (fun w => hand_inv T [first] n' w /\ loc_at admitted first w)) by apply _.
  assert (Hread : forall A (f : Worker.t B -> A),
    triple (fun w => (hand_inv T [first] n' w /\ loc_at admitted first w) /\ R w) (Worker.get L f)
      (fun _ w => (hand_inv T [first] n' w /\ loc_at admitted first w) /\ R w) no_throw).
  { intros A f. apply triple_with; [apply _|]. apply triple_quiet_safe; [apply _|unfold Worker.get; apply _|].
    by intros w _. }
  eapply triple_bind; [apply Hread|]. intros lane_closed.
  eapply triple_bind; [apply Hread|]. intros builder.
  eapply triple_bind; [apply triple_with; [apply _|apply triple_form]|]. intros formed.
  eapply triple_bind.
  { apply triple_with; [|apply triple_set_deferred].
    destruct (deferred formed); [apply guarantee_put_within|apply _]. }
  intros []. destruct (requests formed) as [|p reqs].
  { apply triple_ret. intros w [(Hv & Hh & _ & Hn) ?]. split; [|done]. exists n'. by split. }
  eapply triple_post; [|apply triple_run_batch]. intros more w [[-> Hw] ?]. split; [by exists n'|done].
Qed.
End framed.

Lemma triple_run_once T n epoch :
  triple (loop_inv T n) (Worker.run_once L epoch) (iterated T n) no_throw.
Proof.
  eapply triple_conseq; [apply (triple_run_once_with (fun _ => True))|by intros|by intros ?? []|done].
Qed.

(** The thread leaves its loop only when there is nothing left. *)
Definition drained (s : Worker.t B) : Prop :=
  BoundedQueue.closed_ (Worker.lane_ s) = true /\ BoundedQueue.queue_ (Worker.lane_ s) = [] /\
  Worker.deferred_ s = None.

Lemma triple_take_none :
  triple (fun _ => True) (Worker.take_first L)
    (fun o w => o = None -> drained (view L (shared w))) no_throw.
Proof.
  unfold Worker.take_first. eapply (triple_bind _ _ (fun d w => d = None -> no_deferred w)).
  { apply triple_atomically_stable; [apply _|]. intros w _ _. unfold no_deferred, focus. simpl.
    by rewrite view_over. }
  intros [p|]; [by apply triple_ret|].
  apply (triple_pre _ no_deferred); [by intros w H; apply H|].
  apply triple_wait_then; [apply _|]. intros w Hnd Hr Hnone. revert Hnone Hr.
  unfold focus, drained, BoundedQueue.pop_ready, BoundedQueue.pop_body, BoundedQueue.empty. simpl.
  rewrite view_over. simpl. unfold no_deferred in Hnd. rewrite Hnd.
  destruct (BoundedQueue.queue_ (lane (shared w))) as [|p q] eqn:Eq; simpl; [|done].
  rewrite Eq. done.
Qed.

Lemma triple_run_once_false epoch :
  triple (fun _ => True) (Worker.run_once L epoch)
    (fun more w => more = false -> drained (view L (shared w))) (fun _ _ => True).
Proof.
  unfold Worker.run_once. eapply triple_bind; [eapply triple_conseq; [apply triple_take_none|done..]|].
  intros [first|]; [|apply triple_ret; by intros w H _; apply H].
  intros w _. lazymatch goal with |- match ?o with _ => _ end => destruct o as [[more|e|] w'] eqn:E end; [|done..].
  intros ->. exfalso.
  apply bind_ret_inv in E as (dead & w1 & _ & E). destruct dead.
  { by apply bind_ret_inv in E as (? & ? & _ & [=]). }
  do 2 apply bind_ret_inv in E as (? & ? & _ & E). apply bind_ret_inv in E as (formed & ? & _ & E).
  apply bind_ret_inv in E as (? & ? & _ & E). destruct (requests formed); [done|].
  apply bind_ret_inv in E as (live & ? & _ & E). apply bind_ret_inv in E as (? & ? & _ & E).
  destruct live; [done|]. by apply bind_ret_inv in E as (? & ? & _ & [=]).
Qed.

Lemma triple_run_loop T fuel n :
  triple (loop_inv T n) (Worker.run_loop L fuel) (fun _ => all_terminal T) no_throw.
Proof.
  revert n. induction fuel as [|fuel IH]; intros n; simpl; [done|].
  eapply triple_bind; [apply triple_run_once|]. intros [|]; [|by apply triple_ret].
  apply triple_pull_exists. intros n'. apply triple_pull. intros _. apply IH.
Qed.

(** ** On a closed lane nothing waits *)

Lemma returns_pop_body {A} (f : X -> A * X) cond :
  (forall w, closed_lane w -> cond (shared w) = true) ->
  ReturnsWhen closed_lane (wait_then cond f).
Proof.
  intros Hc w Hw. unfold wait_then. apply (stable_env w) in Hw. specialize (Hc _ Hw).
  rewrite wait_env_now by done. simpl. by destruct (f _).
Qed.

Lemma closed_pop_ready w : closed_lane w -> BoundedQueue.pop_ready (lane (shared w)) = true.
Proof. unfold closed_lane, BoundedQueue.pop_ready. intros ->. apply orb_true_r. Qed.

Lemma returns_wait_pop : ReturnsWhen closed_lane (BoundedQueue.wait_pop (Worker.lane_lens_of L)).
Proof. apply returns_pop_body. intros w. apply closed_pop_ready. Qed.

Lemma returns_wait_pop_until d :
  ReturnsWhen closed_lane (BoundedQueue.wait_pop_until (Worker.lane_lens_of L) d).
Proof.
  intros w Hw. unfold BoundedQueue.wait_pop_until, timed_wait_then. apply (stable_env w) in Hw.
  rewrite timed_wait_env_now by (by apply closed_pop_ready). simpl. done.
Qed.

(** Popping does not reopen the lane. *)
Lemma closed_pop w x o :
  closed_lane w -> focus (Worker.lane_lens_of L) BoundedQueue.pop_body (shared w) = (o, x) ->
  closed_lane (set_shared x w).
Proof.
  unfold closed_lane, focus. intros Hc [= _ <-]. simpl. rewrite view_over. simpl.
  unfold BoundedQueue.pop_body. by destruct (BoundedQueue.queue_ _).
Qed.

Lemma keeps_wait_pop : Keeps closed_lane (BoundedQueue.wait_pop (Worker.lane_lens_of L)).
Proof.
  intros w Hw. pose proof (triple_wait_then closed_lane
    (fun x => BoundedQueue.pop_ready (lane x)) (focus (Worker.lane_lens_of L) BoundedQueue.pop_body)
    (fun _ => closed_lane) no_throw) as Ht.
  pose proof (returns_wait_pop w Hw) as Hr. unfold BoundedQueue.wait_pop in *.
  assert (Hq : forall w, closed_lane w -> BoundedQueue.pop_ready (lane (shared w)) = true ->
    closed_lane (set_shared (focus (Worker.lane_lens_of L) BoundedQueue.pop_body (shared w)).2 w)).
  { intros w' Hc _. eapply closed_pop; [exact Hc|apply surjective_pairing]. }
  specialize (Ht _ Hq w Hw). simpl in *.
  by destruct (wait_then _ _ w) as [[a|e|] w'].
Qed.

Lemma keeps_wait_pop_until d :
  Keeps closed_lane (BoundedQueue.wait_pop_until (Worker.lane_lens_of L) d).
Proof.
  intros w Hw. pose proof (returns_wait_pop_until d w Hw) as Hr.
  unfold BoundedQueue.wait_pop_until in *.
  assert (Ht : triple closed_lane (timed_wait_then (fun x => BoundedQueue.pop_ready (lane x)) d
    (fun _ => focus (Worker.lane_lens_of L) BoundedQueue.pop_body)) (fun _ => closed_lane) no_throw).
  { apply triple_timed_wait_then; [apply _|]. intros _ w' Hc.
    eapply closed_pop; [exact Hc|apply surjective_pairing]. }
  specialize (Ht w Hw). simpl in *. by destruct (timed_wait_then _ _ _ w) as [[a|e|] w'].
Qed.

(** A pop lowers what is in the lane. *)
Lemma pop_until_potential n d :
  triple (fun w => (potential (lane_length (Worker.lane_lens_of L)) w <= n)%nat)
    (BoundedQueue.wait_pop_until (Worker.lane_lens_of L) d)
    (fun o w => forall p, o = Some p ->
       (S (potential (lane_length (Worker.lane_lens_of L)) w) <= n)%nat) no_throw.
Proof.
  apply triple_timed_wait_then; [apply stable_lane_potential, _|]. intros _ w Hw p.
  unfold focus, BoundedQueue.pop_body, potential, lane_length in *. simpl. rewrite view_over. simpl in *.
  destruct (BoundedQueue.queue_ (lane (shared w))) as [|p' q]; simpl in *; [done|]. intros _. lia.
Qed.

#[global] Instance wstable_lane_potential n :
  WStable (fun w => (potential (lane_length (Worker.lane_lens_of L)) w <= n)%nat).
Proof.
  split; [apply stable_lane_potential, _|]. intros f w Hf. unfold potential, lane_length. simpl.
  by destruct (side_view f (shared w) Hf) as [-> _].
Qed.

Lemma wquiet_lane {A} (m : M X A) n w :
  WQuiet m -> closed_lane w -> (potential (lane_length (Worker.lane_lens_of L)) w <= n)%nat ->
  closed_lane (m w).2 /\ (potential (lane_length (Worker.lane_lens_of L)) (m w).2 <= n)%nat.
Proof.
  intros Hm Hc Hn. exact (Hm (fun w => closed_lane w /\
    (potential (lane_length (Worker.lane_lens_of L)) w <= n)%nat) w _ (conj Hc Hn)).
Qed.

Lemma returns_pop_live fuel d w :
  closed_lane w -> (potential (lane_length (Worker.lane_lens_of L)) w < fuel)%nat ->
  (Worker.pop_live L fuel d w).1 <> Blocked.
Proof.
  revert w. induction fuel as [|fuel IH]; intros w Hc Hn; [lia|]. simpl. unfold mbind at 1, M_bind at 1.
  assert (Hle : (potential (lane_length (Worker.lane_lens_of L)) w <= fuel)%nat) by lia.
  pose proof (returns_wait_pop_until d w Hc) as Hr. pose proof (keeps_wait_pop_until d w Hc) as Hk.
  pose proof (pop_until_potential fuel d w Hle) as Hp.
  destruct (BoundedQueue.wait_pop_until _ d w) as [[[p|]|e|] w1]; simpl in *; try done.
  specialize (Hp p eq_refl). unfold mbind at 1, M_bind at 1.
  assert (Hle1 : (potential (lane_length (Worker.lane_lens_of L)) w1 <= fuel - 1)%nat) by lia.
  pose proof (wquiet_lane (is_dead_request p) _ w1 _ Hk Hle1) as [Hk2 Hle2].
  pose proof (nb_is_dead p w1) as Hnb.
  destruct (is_dead_request p w1) as [[[|]|e|] w2]; simpl in *; try done.
  unfold mbind, M_bind.
  pose proof (wquiet_lane (Worker.discard_queued_request L p) _ w2 _ Hk2 Hle2) as [Hk3 Hle3].
  pose proof (discard_nb p w2) as Hnb3.
  destruct (Worker.discard_queued_request L p w2) as [[[]|e|] w3]; simpl in *; try done.
  apply IH; [done|lia].
Qed.

Lemma keeps_closed {A} (m : M X A) : WQuiet m -> Keeps closed_lane m.
Proof. apply keeps_wquiet, _. Qed.

Lemma keeps_pop_live fuel d : Keeps closed_lane (Worker.pop_live L fuel d).
Proof.
  induction fuel as [|fuel IH]; simpl; [by intros w|].
  apply keeps_bind; [apply keeps_wait_pop_until|]. intros [p|]; [|apply keeps_ret].
  apply keeps_bind; [apply keeps_closed, _|]. intros [|]; simpl; [|apply keeps_ret].
  apply keeps_bind; [apply keeps_closed, _|]. done.
Qed.

Lemma returns_pop_until d : ReturnsWhen closed_lane (Worker.pop_until L d).
Proof. intros w Hw. apply returns_pop_live; [done|lia]. Qed.

Lemma keeps_pop_until d : Keeps closed_lane (Worker.pop_until L d).
Proof. intros w. apply keeps_pop_live. Qed.

#[global] Instance wquiet_on_extra p : WQuiet (Worker.on_extra L p).
Proof. unfold Worker.on_extra. apply _. Qed.
#[global] Instance on_extra_nb p : NonBlocking (Worker.on_extra L p).
Proof. unfold Worker.on_extra. apply _. Qed.

Lemma form_loop_closed fuel b aw m rs :
  ReturnsWhen closed_lane
    (BatchBuilder.form_loop fuel b (Worker.pop_until L) aw (Some (Worker.on_extra L)) m rs) /\
  Keeps closed_lane
    (BatchBuilder.form_loop fuel b (Worker.pop_until L) aw (Some (Worker.on_extra L)) m rs).
Proof.
  assert (Hdl : NonBlocking (BatchBuilder.compute_deadline (X := X) b aw rs))
    by (unfold BatchBuilder.compute_deadline, BatchBuilder.earliest_deadline; apply _).
  revert rs Hdl. induction fuel as [|fuel IH]; intros rs Hdl; simpl;
    [split; [by apply returns_nb, _|apply keeps_ret]|].
  destruct (negb _); [split; [by apply returns_nb, _|apply keeps_ret]|].
  assert (Hnext : forall p, ReturnsWhen closed_lane (l ← BatchBuilder.deref p; id ← req_model_id l;
      if negb (bool_decide (id = m)) then mret (mkFormed rs (Some p))
      else BatchBuilder.form_loop fuel b (Worker.pop_until L) aw (Some (Worker.on_extra L)) m (rs ++ [p])) /\
    Keeps closed_lane (l ← BatchBuilder.deref p; id ← req_model_id l;
      if negb (bool_decide (id = m)) then mret (mkFormed rs (Some p))
      else BatchBuilder.form_loop fuel b (Worker.pop_until L) aw (Some (Worker.on_extra L)) m (rs ++ [p]))).
  { intros p. specialize (IH (rs ++ [p])
      ltac:(unfold BatchBuilder.compute_deadline, BatchBuilder.earliest_deadline; apply _)).
    split.
    - apply returns_bind; [by apply returns_nb, _|apply keeps_closed, _|]. intros l.
      apply returns_bind; [apply returns_nb; unfold req_model_id; apply _|
        apply keeps_closed; unfold req_model_id; apply _|].
      intros id. destruct (negb _); [by apply returns_nb, _|apply IH].
    - apply keeps_bind; [apply keeps_closed, _|]. intros l.
      apply keeps_bind; [apply keeps_closed; unfold req_model_id; apply _|].
      intros id. destruct (negb _); [apply keeps_ret|apply IH]. }
  split.
  - apply returns_bind; [by apply returns_nb|apply keeps_closed, _|]. intros d.
    apply returns_bind; [apply returns_pop_until|apply keeps_pop_until|].
    intros [p|]; [|by apply returns_nb, _].
    apply returns_bind; [by apply returns_nb, _|apply keeps_closed, _|].
    intros [|]; simpl; [apply Hnext|by apply returns_nb, _].
  - apply keeps_bind; [apply keeps_closed, _|]. intros d.
    apply keeps_bind; [apply keeps_pop_until|]. intros [p|]; [|apply keeps_ret].
    apply keeps_bind; [apply keeps_closed, _|].
    intros [|]; simpl; [apply Hnext|apply keeps_ret].
Qed.

Lemma form_closed b first aw :
  let m := BatchBuilder.form b first (Worker.pop_until L) aw (Some (Worker.on_extra L)) in
  ReturnsWhen closed_lane m /\ Keeps closed_lane m.
Proof.
  unfold BatchBuilder.form. destruct first as [l|]; [|split; [by apply returns_nb, _|apply keeps_ret]].
  split.
  - apply returns_bind; [apply returns_nb; unfold req_model_id; apply _|
      apply keeps_closed; unfold req_model_id; apply _|]. intros m. apply form_loop_closed.
  - apply keeps_bind; [apply keeps_closed; unfold req_model_id; apply _|]. intros m.
    apply form_loop_closed.
Qed.

Lemma keeps_put_deferred d : Keeps closed_lane (Worker.put L (Worker.set_deferred d)).
Proof.
  intros w Hw. apply (stable_env w) in Hw. unfold closed_lane in *. simpl. by rewrite view_over.
Qed.

Lemma take_first_closed :
  ReturnsWhen closed_lane (Worker.take_first L) /\ Keeps closed_lane (Worker.take_first L).
Proof.
  assert (Hd : Keeps closed_lane (atomically
    (focus L (fun s => (Worker.deferred_ s, Worker.set_deferred None s))))).
  { intros w Hw. apply (stable_env w) in Hw. unfold closed_lane, atomically, focus in *. simpl.
    by rewrite view_over. }
  unfold Worker.take_first. split.
  - apply returns_bind; [by apply returns_nb, _|exact Hd|].
    intros [p|]; [by apply returns_nb, _|apply returns_wait_pop].
  - apply keeps_bind; [exact Hd|]. intros [p|]; [apply keeps_ret|apply keeps_wait_pop].
Qed.

(** The part of an iteration after the batch has been formed. *)
Lemma run_batch_closed epoch formed :
  let m :=
    (_ ← match deferred formed with
         | Some p => Worker.put L (Worker.set_deferred (Some p))
         | None => mret tt
         end;
     match requests formed with
     | [] => mret true
     | reqs =>
         live ← Worker.filter_live_batch reqs;
         let removed := Z.of_nat (length reqs) - Z.of_nat (length live) in
         _ ← (if 0 <? removed then Worker.fetch_sub L removed else mret tt);
         match live with
         | [] => mret true
         | _ => _ ← Worker.execute_batch L epoch live; mret true
         end
     end) in
  ReturnsWhen closed_lane m /\ Keeps closed_lane m.
Proof.
  intros m. split.
  - apply returns_nb. unfold m, Worker.put, Worker.fetch_sub, Worker.put. apply _.
  - apply keeps_bind; [destruct (deferred formed); [apply keeps_put_deferred|apply keeps_ret]|].
    intros []. apply keeps_closed. destruct (requests formed); apply _.
Qed.

Lemma run_once_closed epoch :
  ReturnsWhen closed_lane (Worker.run_once L epoch) /\ Keeps closed_lane (Worker.run_once L epoch).
Proof.
  unfold Worker.run_once. split.
  - apply returns_bind; [apply take_first_closed|apply take_first_closed|].
    intros [first|]; [|by apply returns_nb, _].
    apply returns_bind; [by apply returns_nb, _|apply keeps_closed, _|]. intros [|].
    { apply returns_nb, _. }
    apply returns_bind; [apply returns_nb; unfold Worker.get; apply _|
      apply keeps_closed; unfold Worker.get; apply _|]. intros cl.
    apply returns_bind; [apply returns_nb; unfold Worker.get; apply _|
      apply keeps_closed; unfold Worker.get; apply _|]. intros b.
    apply returns_bind; [apply form_closed|apply form_closed|]. intros formed.
    apply run_batch_closed.
  - apply keeps_bind; [apply take_first_closed|]. intros [first|]; [|apply keeps_ret].
    apply keeps_bind; [apply keeps_closed, _|]. intros [|]; [apply keeps_closed, _|].
    apply keeps_bind; [apply keeps_closed; unfold Worker.get; apply _|]. intros cl.
    apply keeps_bind; [apply keeps_closed; unfold Worker.get; apply _|]. intros b.
    apply keeps_bind; [apply form_closed|]. intros formed. apply run_batch_closed.
Qed.

Lemma returns_run_loop T fuel n w :
  closed_lane w -> loop_inv T n w -> (n < fuel)%nat -> (Worker.run_loop L fuel w).1 <> Blocked.
Proof.
  revert n w. induction fuel as [|fuel IH]; intros n w Hc Hi Hn; [lia|]. simpl.
  unfold mbind, M_bind. destruct (run_once_closed fuel) as [Hr Hk].
  specialize (Hr w Hc). specialize (Hk w Hc). pose proof (triple_run_once T n fuel w Hi) as Ht.
  destruct (Worker.run_once L fuel w) as [[[|]|e|] w']; simpl in *; try done.
  destruct Ht as (n' & -> & Hi'). apply (IH n'); [done|done|lia].
Qed.
End drain.

(** C11: A closed worker drains its lane. Let every pointer in the lane,
    deferred, or pushed by the schedule be to an admitted request. Then, for
    every backend, policy and schedule of the other threads: the worker's loop
    never ends in an exception; if it ends, every request that was in the lane
    or deferred is terminal; and if the lane is closed it does end, within one
    turn per request there is or will be, and one more. *)
Theorem worker_drains {B X} `{!IModelBackend B} `{HO : !HashOrder} `{!Shared X}
    (L : lens X (Worker.t B)) `{!WorkerRely L} (w : World X) fuel :
  let pending l := Some l ∈ BoundedQueue.queue_ (Worker.lane_ (view L (shared w))) \/
                   Worker.deferred_ (view L (shared w)) = Some (Some l) in
  worker_valid L w ->
  match Worker.run_loop L fuel w with
  | (Ret _, w') => forall l, pending l -> req_at terminal_req l w'
  | (Throw _, _) => False
  | (Blocked, _) => closed_lane L w -> (fuel <= potential (work_left L) w)%nat
  end.
Proof.
  intros pending Hv.
  assert (Hi : loop_inv L pending (potential (work_left L) w) w).
  { split; [done|]. split; [|done]. intros l [?|?]; [by left|by right; left]. }
  pose proof (triple_run_loop L pending fuel _ w Hi) as Ht.
  pose proof (fun Hc => returns_run_loop L pending fuel _ w Hc Hi) as Hr.
  destruct (Worker.run_loop L fuel w) as [[[]|e|] w']; [done|done|].
  intros Hc. destruct (decide (fuel <= potential (work_left L) w)%nat); [done|].
  exfalso. apply Hr; [done|lia|done].
Qed.

(** A closed lane with two models; another thread cancels the second. *)
Definition demo_drain_world : World (Worker.t Synthetic.t) :=
  mkWorld ({[1%positive := demo_queued "a" "m"; 2%positive := demo_queued "b" "n"]}
             : gmap loc InferenceRequest.t) 0 []
    (Worker.over_lane (fun _ => BoundedQueue.mk 4 [Some 1%positive; Some 2%positive] true)
       demo_worker_state)
    [[]; []; []; [EnvRequest 2%positive OpCancel]; [EnvTick 3]].

Lemma worker_drains_witness :
  worker_valid lens_id demo_drain_world /\
  exists w', Worker.run_loop (HO := gmap_order) lens_id 8 demo_drain_world = (Ret tt, w') /\
    forall l, Some l ∈ [Some 1%positive; Some 2%positive] \/ None = Some (Some l) ->
      req_at terminal_req l w'.
Proof.
  assert (Hv : worker_valid lens_id demo_drain_world).
  { split; [|by intros p].
    split; [|intros b a Hb Ha; repeat (apply elem_of_cons in Hb as [->|Hb];
      [repeat (apply elem_of_cons in Ha as [?|Ha]; [done|]); by apply elem_of_nil in Ha|]);
      by apply elem_of_nil in Hb].
    intros p Hp. repeat (apply elem_of_cons in Hp as [->|Hp];
      [intros l [= <-]; eexists; split; [reflexivity|by vm_compute]|]).
    by apply elem_of_nil in Hp. }
  split; [exact Hv|].
  pose proof (worker_drains (HO := gmap_order) lens_id demo_drain_world 8 Hv) as Ht.
  destruct (Worker.run_loop (HO := gmap_order) lens_id 8 demo_drain_world) as [[[]|e|] w'] eqn:E.
  - exists w'. split; [reflexivity|exact Ht].
  - destruct Ht.
  - exfalso. specialize (Ht eq_refl). vm_compute in Ht. lia.
Defined.

(** ** The depth counter

    [queued_count_] is what [snapshot] reports as the queue depth and what the
    routers balance on. It is kept apart from the lane, and a request that
    dies at the wrong moment unbalances it. *)

(** Three queued requests of one model, counted; another thread cancels the
    second after [k] of the worker's critical sections. *)
Definition race_world (k : nat) : World (Worker.t Synthetic.t) :=
  mkWorld ({[1%positive := demo_queued "a" "m"; 2%positive := demo_queued "b" "m";
             3%positive := demo_queued "c" "m"]} : gmap loc InferenceRequest.t) 0 []
    (Worker.over_lane (fun _ => BoundedQueue.mk 4 [Some 1%positive; Some 2%positive; Some 3%positive] true)
       demo_worker_state)
    (replicate k [] ++ [[EnvRequest 2%positive OpCancel]]).

(** The queue is empty, the thread is done: what does the worker report? *)
Definition final_depth (k : nat) : option (list RequestPtr * Z) :=
  match Worker.run_loop (HO := gmap_order) lens_id 8 (race_world k) with
  | (Ret _, w) => Some (BoundedQueue.queue_ (Worker.lane_ (shared w)), Worker.queued_count_ (shared w))
  | _ => None
  end.

(** The depth counter can underflow. A request that dies between the
    check in [pop_until] and the one in [on_extra_request] is counted off
    once there and, having been deferred, again in the next iteration; the
    next batch then takes the counter below zero and an empty worker reports
    a queue depth of [2^64 - 1]. A request that dies between the two filters
    of a batch is not counted off at all, and an empty worker reports one. In
    the absence of such a race the counter ends at zero. *)
Theorem queued_count_drifts :
  final_depth 17 = Some ([], u64_max) /\ final_depth 50 = Some ([], 1) /\
  final_depth 0 = Some ([], 0).
Proof. vm_compute. done. Qed.
