(* ===== verification/Runtime.v ===== *)
(** * The runtime

    [include/airuntime/runtime.hpp], [include/airuntime/runtime_snapshot.hpp] and
    [src/runtime.cpp]: the facade that owns the scheduler, the router and the
    workers, admits requests, and routes them on a thread of its own. The
    scheduler is used through [IRequestScheduler], the router through
    [IWorkerRouter], the workers through the operations of [Worker]. *)

From stdpp Require Import vector finite.
From S2P Require Import Prelude Status Requests World Queue Registry Resources Eviction.
From S2P Require Import Backends Manager Router Batch Scheduler Admission Worker.
Import InferenceRequest.

Record WorkerRuntimeSnapshot := mkWorkerRuntime {
  ws_worker : WorkerSnapshot;
  ws_batch_metrics : WorkerBatchMetrics;
  ws_residency_metrics : ModelManager.ResidencyMetrics
}.

Record RuntimeSnapshot := mkRuntimeSnapshot {
  rs_accepting : bool;
  rs_started : bool;
  rs_scheduler_depth : Z;
  rs_scheduler_capacity : Z;
  rs_worker_count : Z;
  rs_workers : list WorkerRuntimeSnapshot
}.

Record ModelRuntimeSnapshot := mkModelRuntime {
  ms_spec : ModelSpec;
  resident_worker_ids : list WorkerId
}.

Record MetricsSnapshot := mkMetricsSnapshot {
  mx_scheduler_depth : Z;
  mx_scheduler_capacity : Z;
  mx_workers : list WorkerRuntimeSnapshot
}.

Module Runtime.

(** [S]: the scheduler, [R]: the router, [B]: the backends. The vector of
    workers is fixed at construction; [worker_index_] maps an identifier to a
    position in it. *)
Record t (S R B : Type) (n : nat) := mk {
  scheduler_ : S;
  router_ : R;
  workers_ : vec (Worker.t B) n;
  worker_index_ : gmap WorkerId nat;
  registry_ : ModelRegistry;
  routing_thread_ : bool;
  accepting_ : bool;
  started_ : bool
}.
Arguments mk {S R B n}.
Arguments scheduler_ {S R B n}.
Arguments router_ {S R B n}.
Arguments workers_ {S R B n}.
Arguments worker_index_ {S R B n}.
Arguments registry_ {S R B n}.
Arguments routing_thread_ {S R B n}.
Arguments accepting_ {S R B n}.
Arguments started_ {S R B n}.

Section construct.
Context {S R B : Type}.

(** The loop over the workers: the non-null workers and their index. *)
Fixpoint index_workers (ws : list (option (Worker.t B))) (i : nat) (index : gmap WorkerId nat)
  : exn + (list (Worker.t B) * gmap WorkerId nat) :=
  match ws with
  | [] => inr ([], index)
  | None :: _ => inl (StdException "Runtime workers must be non-null")
  | Some w :: ws =>
      if bool_decide (is_Some (index !! Worker.worker_id_ w))
      then inl (StdException "duplicate WorkerId")
      else match index_workers ws (i + 1) (<[Worker.worker_id_ w := i]> index) with
           | inl e => inl e
           | inr (rest, index) => inr (w :: rest, index)
           end
  end.

Definition new (scheduler : option S) (router : option R) (workers : list (option (Worker.t B)))
    (registry : option ModelRegistry) : exn + { n & t S R B n } :=
  match scheduler, router, registry with
  | Some s, Some r, Some reg =>
      match workers with
      | [] => inl (StdException "Runtime requires at least one worker")
      | _ =>
          match index_workers workers 0 ∅ with
          | inl e => inl e
          | inr (ws, index) =>
              inr (existT (length ws) (mk s r (list_to_vec ws) index reg false false false))
          end
      end
  | _, _, _ => inl (StdException "Runtime requires scheduler, router, and registry")
  end.
End construct.

Section runtime.
Context {S R B : Type} {n : nat}.
Implicit Types x : t S R B n.

Definition over_scheduler (f : S -> S) x : t S R B n :=
  mk (f (scheduler_ x)) (router_ x) (workers_ x) (worker_index_ x) (registry_ x)
     (routing_thread_ x) (accepting_ x) (started_ x).
Definition over_router (f : R -> R) x : t S R B n :=
  mk (scheduler_ x) (f (router_ x)) (workers_ x) (worker_index_ x) (registry_ x)
     (routing_thread_ x) (accepting_ x) (started_ x).
Definition over_worker (i : fin n) (f : Worker.t B -> Worker.t B) x : t S R B n :=
  mk (scheduler_ x) (router_ x) (vinsert i (f (workers_ x !!! i)) (workers_ x)) (worker_index_ x)
     (registry_ x) (routing_thread_ x) (accepting_ x) (started_ x).
Definition set_accepting (b : bool) x : t S R B n :=
  mk (scheduler_ x) (router_ x) (workers_ x) (worker_index_ x) (registry_ x)
     (routing_thread_ x) b (started_ x).
Definition set_thread (running started : bool) x : t S R B n :=
  mk (scheduler_ x) (router_ x) (workers_ x) (worker_index_ x) (registry_ x)
     running (accepting_ x) started.

Definition scheduler_of : lens (t S R B n) S :=
  mkLens _ _ scheduler_ over_scheduler (fun f x => eq_refl).
Definition router_of : lens (t S R B n) R :=
  mkLens _ _ router_ over_router (fun f x => eq_refl).
Definition worker_of (i : fin n) : lens (t S R B n) (Worker.t B) :=
  mkLens _ _ (fun x => workers_ x !!! i) (over_worker i)
    (fun f x => vlookup_insert i (f (workers_ x !!! i)) (workers_ x)).

Context `{!Shared (t S R B n)} `{!IRequestScheduler (t S R B n)} `{!IWorkerRouter R}
  `{!IModelBackend B} `{HO : !HashOrder}.

(** [workers_], in order. *)
Definition worker_positions : list (fin n) := enum (fin n).

Definition for_workers {A} (f : fin n -> M (t S R B n) A) : M (t S R B n) (list A) :=
  (fix go l := match l with
               | [] => mret []
               | i :: l => a ← f i; rest ← go l; mret (a :: rest)
               end) worker_positions.

(** [start]: the workers first, then the routing thread. *)
Definition start : M (t S R B n) Status :=
  running ← reading started_;
  if (running : bool) then mret Status.success else
  failed ← for_until (fun i =>
    status ← Worker.start (worker_of i);
    mret (if negb (Status.ok status) then Some status else None)) worker_positions;
  match failed with
  | Some status => mret status
  | None =>
      _ ← updating (set_accepting true);
      _ ← updating (set_thread true true);
      mret Status.success
  end.

Definition submit (request : RequestPtr) : M (t S R B n) Status :=
  match request with
  | None => mret (Status.error InternalError "null request")
  | Some l =>
      terminal ← req_is_terminal l;
      if (terminal : bool) then mret Status.success else
      tp ← now;
      _ ← req_try_timeout_if_expired tp l;
      terminal ← req_is_terminal l;
      if (terminal : bool) then mret Status.success else
      open ← reading accepting_;
      if negb (open : bool) then
        let stopped := Status.error RuntimeStopped "runtime is not accepting work" in
        st ← req_state l;
        _ ← (if bool_decide (st = Received)
             then _ ← req_try_reject stopped l; mret tt else mret tt);
        mret stopped
      else AdmissionController.admit_request request
  end.

(** [stop]; what the two joins wait for is [joined] of [Machine.v]. *)
Definition stop : M (t S R B n) unit :=
  _ ← updating (set_accepting false);
  _ ← sched_close;
  _ ← updating (fun x => set_thread false (started_ x) x);
  _ ← for_each (fun i => Worker.close (worker_of i)) worker_positions;
  for_each (fun i => Worker.join (worker_of i)) worker_positions.

(** [~Runtime] *)
Definition destroy : M (t S R B n) unit := stop.

Definition is_running : M (t S R B n) bool :=
  acc ← reading accepting_; st ← reading started_; mret (acc && st).

Definition is_accepting : M (t S R B n) bool := reading accepting_.

Definition is_healthy (epoch : nat) : M (t S R B n) bool :=
  acc ← reading accepting_;
  st ← reading started_;
  if negb (acc && st) then mret false else
  found ← for_until (fun i =>
    snap ← Worker.snapshot (worker_of i) epoch;
    mret (if accepting snap then Some true else None)) worker_positions;
  mret (default false found).

Definition worker_runtime_snapshot (epoch : nat) (i : fin n) : M (t S R B n) WorkerRuntimeSnapshot :=
  snap ← Worker.snapshot (worker_of i) epoch;
  bm ← Worker.batch_metrics (worker_of i);
  rm ← Worker.residency_metrics (worker_of i);
  mret (mkWorkerRuntime snap bm rm).

Definition snapshot (epoch : nat) : M (t S R B n) RuntimeSnapshot :=
  acc ← reading accepting_;
  st ← reading started_;
  depth ← sched_size;
  cap ← sched_capacity;
  ws ← for_workers (worker_runtime_snapshot epoch);
  mret (mkRuntimeSnapshot acc st depth cap (Z.of_nat n) ws).

Definition metrics_snapshot (epoch : nat) : M (t S R B n) MetricsSnapshot :=
  depth ← sched_size;
  cap ← sched_capacity;
  ws ← for_workers (worker_runtime_snapshot epoch);
  mret (mkMetricsSnapshot depth cap ws).

(** The workers on which a model is resident, sorted. *)
Definition resident_on (epoch : nat) (id : string) : M (t S R B n) (list WorkerId) :=
  ids ← for_workers (fun i =>
    snap ← Worker.snapshot (worker_of i) epoch;
    wid ← Worker.id (worker_of i);
    mret (if bool_decide (id ∈ resident_model_ids snap) then [wid] else []));
  mret (std_sort (by_z (fun z : Z => z)) (concat ids)).

Fixpoint models_on (epoch : nat) (specs : list ModelSpec) : M (t S R B n) (list ModelRuntimeSnapshot) :=
  match specs with
  | [] => mret []
  | spec :: specs =>
      ids ← resident_on epoch (spec_model_id spec);
      rest ← models_on epoch specs;
      mret (mkModelRuntime spec ids :: rest)
  end.

Definition model_snapshots (epoch : nat) : M (t S R B n) (list ModelRuntimeSnapshot) :=
  reg ← reading registry_;
  models ← models_on epoch (Registry.models epoch reg);
  mret (std_sort (by_string (fun m => spec_model_id (ms_spec m))) models).

(** The index maps an identifier to a position. *)
Definition find_worker (id : WorkerId) : M (t S R B n) (option (fin n)) :=
  index ← reading worker_index_;
  mret (match index !! id with
        | None => None
        | Some i => match decide (i < n)%nat with
                    | left H => Some (nat_to_fin H)
                    | right _ => None
                    end
        end).

(** [worker], in both its forms. *)
Definition worker (id : WorkerId) : M (t S R B n) (option (fin n)) := find_worker id.

Definition registry : M (t S R B n) ModelRegistry := reading registry_.

Definition collect_snapshots (epoch : nat) : M (t S R B n) (list WorkerSnapshot) :=
  for_workers (fun i => Worker.snapshot (worker_of i) epoch).

(** Reject the request and report why. *)
Definition reject_with (l : loc) (st : Status) : M (t S R B n) Status :=
  _ ← req_try_reject st l; mret st.

Definition route_request (epoch : nat) (request : RequestPtr) : M (t S R B n) Status :=
  match request with
  | None => mret Status.success
  | Some l =>
      terminal ← req_is_terminal l;
      if (terminal : bool) then mret Status.success else
      tp ← now;
      _ ← req_try_timeout_if_expired tp l;
      terminal ← req_is_terminal l;
      if (terminal : bool) then mret Status.success else
      id ← req_model_id l;
      reg ← reading registry_;
      match Registry.find id reg with
      | (find_status, None) => reject_with l find_status
      | (find_status, Some spec) =>
          if negb (Status.ok find_status) then reject_with l find_status else
          snapshots ← collect_snapshots epoch;
          selected ← atomically (focus router_of (select spec snapshots));
          if negb (RoutingResult.ok selected) then reject_with l (routing_status selected) else
          match routed_to selected with
          | None => reject_with l (routing_status selected)
          | Some wid =>
              target ← find_worker wid;
              match target with
              | None => reject_with l (Status.error InternalError "selected worker missing")
              | Some i =>
                  enqueue_status ← Worker.try_enqueue (worker_of i) request;
                  if negb (Status.ok enqueue_status) then reject_with l enqueue_status
                  else mret Status.success
              end
          end
      end
  end.

(** One turn of the loop of [routing_loop]; [false] leaves it. *)
Definition routing_once (epoch : nat) : M (t S R B n) bool :=
  next ← sched_next;
  match next with
  | None => mret false
  | Some p => _ ← route_request epoch p; mret true
  end.

(** The routing thread; out of fuel it is still running. *)
Fixpoint routing_loop (fuel : nat) : M (t S R B n) unit :=
  match fuel with
  | O => fun w => (Blocked, w)
  | Datatypes.S fuel =>
      more ← routing_once fuel;
      if (more : bool) then routing_loop fuel else mret tt
  end.
End runtime.
End Runtime.
