(* ===== verification/RuntimeProofs.v ===== *)
(** * What the runtime guarantees

    Theorems about [Runtime.v], proved against the interfaces of the scheduler
    and of the router: submission and routing always return and never lose
    track of a request, and on a quiet system a request reaches the lane of a
    feasible worker. *)

From stdpp Require Import vector finite.
From S2P Require Import Prelude Status Requests World Queue Registry Resources Eviction.
From S2P Require Import Backends Manager Router Batch Scheduler Admission Worker WorkerProofs.
From S2P Require Import Runtime.
Import InferenceRequest.

Section runtime_proofs.
Context {S R B : Type} {n : nat}.
Notation X := (Runtime.t S R B n).
Context `{!Shared X} `{!IRequestScheduler X} `{!SchedulerLaws X} `{!IWorkerRouter R}
  `{!IModelBackend B} `{HO : !HashOrder}.

Ltac unfold_runtime :=
  unfold Worker.get, Worker.put, Worker.fetch_add, Worker.counted, req_is_terminal, req_state,
    req_model_id, req_try_reject, req_try_timeout_if_expired, req_try_timeout, Runtime.reject_with.

#[global] Instance snapshot_mono (L : lens X (Worker.t B)) e : Mono (Worker.snapshot L e).
Proof. unfold Worker.snapshot. unfold_runtime. apply _. Qed.
#[global] Instance snapshot_nb (L : lens X (Worker.t B)) e : NonBlocking (Worker.snapshot L e).
Proof. unfold Worker.snapshot. unfold_runtime. apply _. Qed.
#[global] Instance try_enqueue_mono (L : lens X (Worker.t B)) p : Mono (Worker.try_enqueue L p).
Proof. unfold Worker.try_enqueue, Worker.enqueue_with. unfold_runtime. apply _. Qed.
#[global] Instance try_enqueue_nb (L : lens X (Worker.t B)) p : NonBlocking (Worker.try_enqueue L p).
Proof. unfold Worker.try_enqueue, Worker.enqueue_with. unfold_runtime. apply _. Qed.

#[global] Instance for_workers_mono {A} (f : fin n -> M X A) :
  (forall i, Mono (f i)) -> Mono (Runtime.for_workers f).
Proof. intros Hf. unfold Runtime.for_workers. induction Runtime.worker_positions; simpl; apply _. Qed.
#[global] Instance for_workers_nb {A} (f : fin n -> M X A) :
  (forall i, NonBlocking (f i)) -> NonBlocking (Runtime.for_workers f).
Proof. intros Hf. unfold Runtime.for_workers. induction Runtime.worker_positions; simpl; apply _. Qed.

#[global] Instance submit_mono p : Mono (Runtime.submit p).
Proof. unfold Runtime.submit. unfold_runtime. apply _. Qed.
#[global] Instance submit_nb p : NonBlocking (Runtime.submit p).
Proof. unfold Runtime.submit. unfold_runtime. apply _. Qed.
#[global] Instance route_mono e p : Mono (Runtime.route_request e p).
Proof. unfold Runtime.route_request, Runtime.collect_snapshots, Runtime.find_worker. unfold_runtime. apply _. Qed.
#[global] Instance route_nb e p : NonBlocking (Runtime.route_request e p).
Proof. unfold Runtime.route_request, Runtime.collect_snapshots, Runtime.find_worker. unfold_runtime. apply _. Qed.

(** A terminal request has been admitted. *)
Lemma terminal_admitted r : terminal_req r -> admitted r.
Proof. intros H%terminal_started. by apply started_admitted. Qed.

(** ** Submission *)

Definition submit_outcome (l : loc) (st : Status) (w : World X) : Prop :=
  req_at admitted l w /\ code st <> QueueClosed /\
  (Status.ok st = false -> code st <> InvalidStateTransition -> code st <> RuntimeStopped ->
   req_at terminal_req l w).

Lemma triple_submit_stopped l :
  triple (X := X) (req_at any_req l)
    (st ← req_state l;
     _ ← (if bool_decide (st = Received)
          then _ ← req_try_reject (Status.error RuntimeStopped "runtime is not accepting work") l; mret tt
          else mret tt);
     mret (Status.error RuntimeStopped "runtime is not accepting work"))
    (submit_outcome l) no_throw.
Proof.
  eapply triple_bind.
  { apply (triple_inspect any_req _ (fun st r => st <> Received -> admitted r)); [apply _|].
    by intros r _. }
  intros st. eapply (triple_bind _ _ (fun _ => req_at admitted l)).
  { case_bool_decide as Hst.
    - eapply triple_bind; [eapply triple_pre; [|apply (triple_reject any_req), _]|].
      + intros w. by apply req_at_mono.
      + intros b. apply triple_ret. intros w. apply req_at_mono. intros r (_ & Hs & _).
        by apply started_admitted.
    - apply triple_ret. intros w. apply req_at_mono. intros r Ha. by apply Ha. }
  intros []. apply triple_ret. intros w Hw. split; [done|]. by split.
Qed.

Lemma triple_submit l : triple (X := X) (req_at any_req l) (Runtime.submit (Some l))
  (submit_outcome l) no_throw.
Proof.
  unfold Runtime.submit.
  assert (Hdone : triple (req_at (fun r => terminal_req r) l) (mret Status.success)
    (submit_outcome l) no_throw).
  { apply triple_ret. intros w Hw. split; [|done]. eapply req_at_mono; [|exact Hw].
    apply terminal_admitted. }
  eapply triple_bind; [apply triple_terminal_or, _|]. intros [|]; [done|].
  eapply triple_bind; [apply triple_now, _|]. intros tp.
  eapply triple_bind; [apply triple_timeout_if_expired, _|]. intros timed_out.
  eapply triple_bind; [apply triple_terminal_or, _|]. intros [|]; [done|].
  eapply (triple_bind _ _ (fun _ => req_at any_req l)).
  { apply triple_atomically_stable; [apply _|]. intros w Hw. done. }
  intros [|]; simpl; [|apply triple_submit_stopped].
  eapply triple_post; [|apply triple_admit]. intros st w (Ha & Hc & Ht). split; [done|].
  split; [done|]. intros ? ? _. by apply Ht.
Qed.

(** ** Routing *)

(** A request that could not be placed is running elsewhere or terminal. *)
Definition route_outcome (l : loc) (st : Status) (w : World X) : Prop :=
  Status.ok st = false -> req_at started l w.

Lemma triple_reject_with l st :
  triple (X := X) (req_at any_req l) (Runtime.reject_with l st) (route_outcome l) no_throw.
Proof.
  unfold Runtime.reject_with. eapply triple_bind; [apply (triple_reject any_req), _|].
  intros b. apply triple_ret. intros w Hw _. eapply req_at_mono; [|exact Hw]. by intros r (_ & ? & _).
Qed.

Lemma triple_try_enqueue (L : lens X (Worker.t B)) l :
  triple (req_at any_req l) (Worker.try_enqueue L (Some l)) (fun _ => req_at any_req l) no_throw.
Proof.
  unfold Worker.try_enqueue, Worker.enqueue_with.
  eapply (triple_bind _ _ (fun _ => req_at any_req l)).
  { apply triple_atomically_stable; [apply _|]. done. }
  intros [|]; simpl; [|by apply triple_ret].
  eapply triple_bind; [apply (triple_is_dead any_req), _|]. intros [|].
  { apply triple_ret. intros w. by apply req_at_mono. }
  eapply (triple_bind _ _ (fun _ => req_at any_req l)).
  { eapply triple_pre; [|apply (triple_atomically_stable (req_at any_req l)); [apply _|done]].
    intros w. by apply req_at_mono. }
  intros st. unfold Worker.counted. destruct (Status.ok st); [|by apply triple_ret].
  eapply triple_bind; [apply triple_put, _|]. intros []. by apply triple_ret.
Qed.

Lemma triple_read {A} (f : X -> A) P :
  Upward P -> triple P (reading f) (fun _ => P) no_throw.
Proof. intros HP. apply triple_atomically_stable; [apply _|]. by intros w; destruct w. Qed.

Lemma triple_collect P e : Upward P -> triple P (Runtime.collect_snapshots e) (fun _ => P) no_throw.
Proof.
  intros HP. unfold Runtime.collect_snapshots, Runtime.for_workers.
  induction (Runtime.worker_positions (n := n)) as [|i l IH]; [by apply triple_ret|].
  eapply (triple_bind _ _ (fun _ => P)).
  - unfold Worker.snapshot, Worker.get.
    repeat (eapply (triple_bind _ _ (fun _ => P)); [by apply triple_read|]; intros ?).
    by apply triple_ret.
  - intros snap. eapply (triple_bind _ _ (fun _ => P)); [exact IH|]. intros rest. by apply triple_ret.
Qed.

Lemma triple_route e l :
  triple (X := X) (req_at any_req l) (Runtime.route_request e (Some l)) (route_outcome l) no_throw.
Proof.
  unfold Runtime.route_request.
  assert (Hok : forall P, triple P (mret Status.success) (route_outcome l) no_throw).
  { intros P. apply triple_ret. by intros w _. }
  eapply triple_bind; [apply triple_terminal_or, _|]. intros [|]; [done|].
  eapply triple_bind; [apply triple_now, _|]. intros tp.
  eapply triple_bind; [apply triple_timeout_if_expired, _|]. intros timed_out.
  eapply triple_bind; [apply triple_terminal_or, _|]. intros [|]; [done|].
  eapply (triple_bind _ _ (fun _ => req_at any_req l)).
  { by apply (triple_inspect any_req _ (fun _ => any_req)). }
  intros id. eapply triple_bind; [apply triple_read, _|]. intros reg.
  destruct (Registry.find id reg) as [fs [spec|]]; [|apply triple_reject_with].
  destruct (Status.ok fs); simpl; [|apply triple_reject_with].
  eapply triple_bind; [apply triple_collect, _|]. intros snaps.
  eapply (triple_bind _ _ (fun _ => req_at any_req l)).
  { apply triple_atomically_stable; [apply _|]. done. }
  intros sel. destruct (RoutingResult.ok sel); simpl; [|apply triple_reject_with].
  destruct (routed_to sel) as [wid|]; [|apply triple_reject_with].
  eapply (triple_bind _ _ (fun _ => req_at any_req l)).
  { eapply triple_bind; [apply triple_read, _|]. intros idx. by apply triple_ret. }
  intros [i|]; [|apply triple_reject_with].
  eapply triple_bind; [apply triple_try_enqueue|]. intros st.
  destruct (Status.ok st); simpl; [done|apply triple_reject_with].
Qed.

(** ** On a quiet system *)

(** The snapshot of a worker at rest. *)
Definition snapshot_of (e : nat) (s : Worker.t B) : WorkerSnapshot :=
  mkWorkerSnapshot (Worker.worker_id_ s) (Worker.queued_count_ s) (Worker.queue_capacity_ s)
    (Worker.active_count_ s) (Worker.accepting_ s)
    (ModelManager.memory_budget_bytes (Worker.model_manager_ s))
    (ModelManager.memory_used_bytes (Worker.model_manager_ s))
    (ModelManager.resident_model_ids e (Worker.model_manager_ s)).

Lemma snapshot_solo (L : lens X (Worker.t B)) e (w : World X) :
  solo w -> Worker.snapshot L e w = (Ret (snapshot_of e (view L (shared w))), w).
Proof.
  intros Hw. unfold Worker.snapshot, Worker.get, mbind, M_bind.
  by rewrite !reading_solo by done.
Qed.

Definition snapshots_of (e : nat) (x : X) : list WorkerSnapshot :=
  (fun i => snapshot_of e (Runtime.workers_ x !!! i)) <$> Runtime.worker_positions.

Lemma collect_solo e (w : World X) :
  solo w -> Runtime.collect_snapshots e w = (Ret (snapshots_of e (shared w)), w).
Proof.
  intros Hw. unfold Runtime.collect_snapshots, Runtime.for_workers, snapshots_of.
  induction Runtime.worker_positions as [|i l IH]; [done|].
  unfold mbind, M_bind in *. rewrite snapshot_solo by done. by rewrite IH.
Qed.

(** The index finds every worker by its identifier. *)
Definition index_ok (x : X) : Prop :=
  forall i, Runtime.worker_index_ x !! Worker.worker_id_ (Runtime.workers_ x !!! i) = Some (fin_to_nat i).

Lemma find_worker_solo (w : World X) i :
  solo w -> index_ok (shared w) ->
  Runtime.find_worker (Worker.worker_id_ (Runtime.workers_ (shared w) !!! i)) w = (Ret (Some i), w).
Proof.
  intros Hw Hidx. unfold Runtime.find_worker, mbind, M_bind. rewrite reading_solo by done.
  rewrite Hidx. destruct (decide (fin_to_nat i < n)%nat) as [Hlt|Hge].
  - unfold mret, M_ret. by rewrite nat_to_fin_to_nat.
  - destruct Hge. apply fin_to_nat_lt.
Qed.

(** A worker with an open lane that has room. *)
Definition has_room (s : Worker.t B) : Prop :=
  Worker.accepting_ s = true /\ BoundedQueue.closed_ (Worker.lane_ s) = false /\
  BoundedQueue.full (Worker.lane_ s) = false.

(** The worker after [l] has been accepted. *)
Definition accept (l : loc) (s : Worker.t B) : Worker.t B :=
  Worker.set_queued_count (Worker.queued_count_ s +! 1)
    (Worker.over_lane (BoundedQueue.push_back (Some l)) s).

Lemma try_enqueue_solo (L : lens X (Worker.t B)) l r (w : World X) :
  solo w -> heap w !! l = Some r -> fresh_req (clock w) r -> has_room (view L (shared w)) ->
  exists w', Worker.try_enqueue L (Some l) w = (Ret Status.success, w') /\
    heap w' = heap w /\ view L (shared w') = accept l (view L (shared w)) /\
    exists f g, shared w' = over L f (over L g (shared w)).
Proof.
  intros Hw Hr Hf (Hacc & Hcl & Hfull). unfold Worker.try_enqueue, Worker.enqueue_with, Worker.get.
  unfold mbind, M_bind. rewrite reading_solo by done. rewrite Hacc. cbn beta iota delta [negb].
  rewrite (is_dead_solo l r) by done. rewrite atomically_solo by done.
  assert (Hpush : BoundedQueue.try_push (Some l) (Worker.lane_ (view L (shared w)))
    = (Status.success, BoundedQueue.push_back (Some l) (Worker.lane_ (view L (shared w))))).
  { unfold BoundedQueue.try_push. by rewrite Hcl, Hfull. }
  assert (Hone : (focus (Worker.lane_lens_of L) (BoundedQueue.try_push (Some l)) (shared w)).1
    = Status.success) by (unfold focus; simpl; by rewrite Hpush).
  rewrite Hone. unfold Worker.counted. change (Status.ok Status.success) with true.
  cbv beta iota. unfold Worker.fetch_add, Worker.put, updating, mbind, M_bind.
  rewrite atomically_solo by done. eexists. split; [done|]. split; [done|].
  split; [|unfold focus; simpl; eauto].
  unfold focus. simpl. rewrite !view_over. simpl. unfold accept, Worker.over_lane.
  simpl. by rewrite Hpush.
Qed.

(** What the routing decision reads: it leaves the workers as they are. *)
Lemma select_solo e spec (w : World X) `{!RouterLaws R} :
  solo w -> 2 * Z.of_nat n < two64 -> router_inv (Runtime.router_ (shared w)) ->
  (exists i, is_m2_feasible spec (snapshot_of e (Runtime.workers_ (shared w) !!! i)) = true) ->
  exists i, is_m2_feasible spec (snapshot_of e (Runtime.workers_ (shared w) !!! i)) = true /\
    atomically (focus Runtime.router_of (select spec (snapshots_of e (shared w)))) w =
      (Ret (RoutingResult.success (Worker.worker_id_ (Runtime.workers_ (shared w) !!! i))),
       set_shared (Runtime.over_router (fun r => (select spec (snapshots_of e (shared w)) r).2) (shared w)) w).
Proof.
  intros Hw Hn Hinv [i0 Hi0].
  assert (Hlen : 2 * Z.of_nat (length (snapshots_of e (shared w))) < two64).
  { unfold snapshots_of, Runtime.worker_positions. rewrite length_fmap.
    change (length (enum (fin n))) with (card (fin n)). by rewrite fin_card. }
  assert (Hin : forall i, snapshot_of e (Runtime.workers_ (shared w) !!! i) ∈ snapshots_of e (shared w)).
  { intros i. apply list_elem_of_fmap. exists i. split; [done|]. apply elem_of_enum. }
  rewrite atomically_solo by done. unfold focus. simpl.
  destruct (select_lawful spec (snapshots_of e (shared w)) (Runtime.router_ (shared w)) Hlen Hinv)
    as [(z & Hz & Hzin & Hf)|(_ & _ & Hno)].
  - apply list_elem_of_fmap in Hzin as (i & -> & _). exists i. split; [done|]. by rewrite Hz.
  - specialize (Hno _ (Hin i0)). congruence.
Qed.
End runtime_proofs.




(** ** A runtime with the FIFO scheduler and the least-loaded router *)

(** What the other threads do: use the scheduler's queue, push to and close
    the workers' lanes, stop the runtime. *)
Inductive runtime_act (n : nat) :=
  | RtScheduler (a : BoundedQueue.queue_act RequestPtr)
  | RtWorker (i : fin n) (a : Worker.worker_act)
  | RtStop.
Arguments RtScheduler {n} _.
Arguments RtWorker {n} _ _.
Arguments RtStop {n}.

Notation FifoRuntime R B n := (Runtime.t (BoundedQueue.t RequestPtr) R B n).

#[export] Instance runtime_shared R B n : Shared (FifoRuntime R B n) := {|
  act := runtime_act n;
  act_step a x := match a with
                  | RtScheduler a => Runtime.over_scheduler (BoundedQueue.queue_step a) x
                  | RtWorker i a => Runtime.over_worker i (Worker.worker_step a) x
                  | RtStop => Runtime.set_accepting false x
                  end
|}.

#[export] Instance fifo_runtime_scheduler R B n : IRequestScheduler (FifoRuntime R B n) :=
  fifo_scheduler Runtime.scheduler_of.
#[export] Instance fifo_runtime_laws R B n : SchedulerLaws (FifoRuntime R B n) :=
  fifo_laws Runtime.scheduler_of.

(** Two workers, the first of which does not accept work. *)
Definition demo_runtime : FifoRuntime unit Synthetic.t 2 :=
  Runtime.mk (BoundedQueue.mk 1 [] false) tt
    [# Worker.set_accepting false demo_worker_state;
       Worker.mk 2 4 (BatchBuilder.mk (mkBatchConfig 4 0)) (Worker.model_manager_ demo_worker_state)
         (BoundedQueue.mk 4 [] false) Idle 0 (mkBatchMetrics 0 0 0 0) None 0 true true true]
    {[1 := 0%nat; 2 := 1%nat]} (mkRegistry {["m" := mkSpec "m" 50 1]}) true true true.

Definition demo_runtime_world (bs : list (list (env_act (FifoRuntime unit Synthetic.t 2))))
  : World (FifoRuntime unit Synthetic.t 2) :=
  mkWorld ({[1%positive := demo_request "a" "m"; 2%positive := demo_queued "b" "m"]}
             : gmap loc InferenceRequest.t) 0 [] demo_runtime bs.

Definition demo_stop : env_act (FifoRuntime unit Synthetic.t 2) := EnvShared (RtStop : runtime_act 2).



