(* ===== verification/Programs.v ===== *)
(** * Threads as programs

    A computation of [World] says what a thread does under a given schedule of
    the others. To let threads run against each other, this file takes a
    computation apart: a [prog] is its tree of critical sections, one node for
    every point at which the thread can be interrupted, and [prog_step] executes
    one of them. [Program m] is the class of the computations that are such a
    tree: [prog_of m] is the tree, and [prog_ok] says that it denotes [m]. The
    instances follow the definitions of the components, so a thread that runs
    [prog_of m] runs the translated code, one critical section at a time. *)

From stdpp Require Import relations.
From S2P Require Import Prelude Status Requests World Queue Registry Resources Eviction.
From S2P Require Import Backends Manager Router Batch Scheduler Admission Worker Runtime.
Import InferenceRequest.

Section programs.
Context {X : Type} `{SX : !Shared X}.
Implicit Types w : World X.

(** [Critical] is a critical section on the shared state, entered when its
    condition holds; [Timed] one that is also entered when the deadline has
    passed; [OnRequest] one on a request, whose continuation is told whether
    the request was there. [Loop] repeats its body until it has a value; its
    fuel is only used by [denote], a thread goes round as often as it has to. *)
Inductive prog (A : Type) : Type :=
  | Done (a : A)
  | Raise (e : exn)
  | Now (k : time_point -> prog A)
  | Critical {T : Type} (cond : X -> bool) (f : X -> T * X) (k : T -> prog A)
  | Timed {T : Type} (cond : X -> bool) (deadline : time_point) (f : bool -> X -> T * X) (k : T -> prog A)
  | OnRequest {T : Type} (f : t -> T * (t * list notification)) (l : loc)
      (k : option (T * list notification) -> prog A)
  | Deliver (l : loc) (ns : list notification) (k : prog A)
  | Loop {T : Type} (fuel : World X -> nat) (body : prog (option T)) (k : T -> prog A).
#[global] Arguments Done {A} a.
#[global] Arguments Raise {A} e.
#[global] Arguments Now {A} k.
#[global] Arguments Critical {A T} cond f k.
#[global] Arguments Timed {A T} cond deadline f k.
#[global] Arguments OnRequest {A T} f l k.
#[global] Arguments Deliver {A} l ns k.
#[global] Arguments Loop {A T} fuel body k.

(** A critical section on a request that may not be there. *)
Definition attempt {T} (f : t -> T * (t * list notification)) (l : loc) : M X (option (T * list notification)) :=
  fun w =>
    let w := interfere w in
    match heap w !! l with
    | None => (Ret None, w)
    | Some r => (Ret (Some ((f r).1, (f r).2.2)), set_heap (<[l := (f r).2.1]> (heap w)) w)
    end.

(** At most [n] rounds of a loop. *)
Fixpoint iterate {T} (n : nat) (m : M X (option T)) : M X T :=
  match n with
  | O => fun w => (Blocked, w)
  | S n => o ← m; match o with Some a => mret a | None => iterate n m end
  end.

Fixpoint denote {A} (p : prog A) : M X A :=
  match p with
  | Done a => mret a
  | Raise e => throw e
  | Now k => tp ← now; denote (k tp)
  | Critical cond f k => a ← wait_then cond f; denote (k a)
  | Timed cond d f k => a ← timed_wait_then cond d f; denote (k a)
  | OnRequest f l k => out ← attempt f l; denote (k out)
  | Deliver l ns k => _ ← deliver l ns; denote k
  | Loop fuel body k => fun w => (a ← iterate (fuel w) (denote body); denote (k a)) w
  end.

Fixpoint prog_bind {A B} (p : prog A) (g : A -> prog B) : prog B :=
  match p with
  | Done a => g a
  | Raise e => Raise e
  | Now k => Now (fun tp => prog_bind (k tp) g)
  | Critical cond f k => Critical cond f (fun a => prog_bind (k a) g)
  | Timed cond d f k => Timed cond d f (fun a => prog_bind (k a) g)
  | OnRequest f l k => OnRequest f l (fun out => prog_bind (k out) g)
  | Deliver l ns k => Deliver l ns (prog_bind k g)
  | Loop fuel body k => Loop fuel body (fun a => prog_bind (k a) g)
  end.

(** An exception as a value. *)
Definition leave {T} (r : option T + exn) : option (T + exn) :=
  match r with inl o => inl <$> o | inr e => Some (inr e) end.

Fixpoint prog_try {A} (p : prog A) : prog (A + exn) :=
  match p with
  | Done a => Done (inl a)
  | Raise e => Done (inr e)
  | Now k => Now (fun tp => prog_try (k tp))
  | Critical cond f k => Critical cond f (fun a => prog_try (k a))
  | Timed cond d f k => Timed cond d f (fun a => prog_try (k a))
  | OnRequest f l k => OnRequest f l (fun out => prog_try (k out))
  | Deliver l ns k => Deliver l ns (prog_try k)
  | Loop fuel body k => Loop fuel (prog_bind (prog_try body) (fun r => Done (leave r)))
      (fun r => match r with inl a => prog_try (k a) | inr e => Done (inr e) end)
  end.

Definition prog_catch {A} (p : prog A) (h : exn -> prog A) : prog A :=
  prog_bind (prog_try p) (fun r => match r with inl a => Done a | inr e => h e end).

Lemma denote_bind {A B} (p : prog A) (g : A -> prog B) w :
  denote (prog_bind p g) w = (denote p ≫= (fun a => denote (g a))) w.
Proof.
  revert w. induction p as [A a|A e|A k IH|A T cond f k IH|A T cond d f k IH|A T f l k IH|A l ns k IH|A T fuel body _ k IH];
    intros w; try done; unfold mbind, M_bind in *; simpl; unfold mbind, M_bind.
  1: by apply IH.
  1: by destruct (wait_then cond f w) as [[a|e|] w'].
  1: by destruct (timed_wait_then cond d f w) as [[a|e|] w'].
  1: by destruct (attempt f l w) as [[a|e|] w'].
  1: by apply IH.
  by destruct (iterate _ _ w) as [[a|e|] w'].
Qed.

(** What [prog_try] makes of an outcome. *)
Definition tried {A} (out : outcome A * World X) : outcome (A + exn) * World X :=
  match out with
  | (Ret a, w) => (Ret (inl a), w)
  | (Throw e, w) => (Ret (inr e), w)
  | (Blocked, w) => (Blocked, w)
  end.

Lemma iterate_ext {T} n (m m' : M X (option T)) w : (forall w, m w = m' w) -> iterate n m w = iterate n m' w.
Proof.
  intros Hm. revert w. induction n as [|n IH]; intros w; [done|]. simpl. unfold mbind, M_bind. rewrite Hm.
  by destruct (m' w) as [[[a|]|e|] w'].
Qed.

Lemma iterate_tried {T} n (m : M X (option T)) (m' : M X (option (T + exn))) w :
  (forall w, m' w = match tried (m w) with (Ret r, w') => (Ret (leave r), w') | (_, w') => (Blocked, w') end) ->
  iterate n m' w = tried (iterate n m w).
Proof.
  intros Hm. revert w. induction n as [|n IH]; intros w; [done|]. simpl. unfold mbind, M_bind. rewrite Hm.
  by destruct (m w) as [[[a|]|e|] w']; simpl.
Qed.

Lemma denote_try {A} (p : prog A) w : denote (prog_try p) w = tried (denote p w).
Proof.
  revert w. induction p as [A a|A e|A k IH|A T cond f k IH|A T cond d f k IH|A T f l k IH|A l ns k IH|A T fuel body IHb k IH];
    intros w; try done; simpl; unfold mbind, M_bind; simpl.
  1: by apply IH.
  1: { unfold wait_then. destruct (wait_env _ _ _) as [[] w']; [|done]. destruct (f _) as [a x]. apply IH. }
  1: { unfold timed_wait_then. destruct (timed_wait_env _ _ _ _) as [[] w']; [..|done];
       destruct (f _ _) as [a x]; apply IH. }
  1: { unfold attempt. destruct (heap _ !! l) as [r|]; apply IH. }
  1: by apply IH.
  rewrite (iterate_tried _ (denote body)).
  - destruct (iterate _ _ w) as [[a|e|] w']; simpl; [apply IH|done..].
  - intros w0. rewrite denote_bind. unfold mbind, M_bind. rewrite IHb.
    by destruct (denote body w0) as [[a|e|] w'].
Qed.

Lemma denote_catch {A} (p : prog A) (h : exn -> prog A) w :
  denote (prog_catch p h) w = try_catch (denote p) (fun e => denote (h e)) w.
Proof.
  unfold prog_catch. rewrite denote_bind. unfold mbind, M_bind, try_catch. rewrite denote_try.
  by destruct (denote p w) as [[a|e|] w'].
Qed.

(** ** One step of a thread *)

Inductive prog_step {A} : World X -> prog A -> World X -> prog A -> Prop :=
  | step_now w k : prog_step w (Now k) w (k (clock w))
  | step_critical w {T} cond (f : X -> T * X) k :
      cond (shared w) = true ->
      prog_step w (Critical cond f k) (set_shared (f (shared w)).2 w) (k (f (shared w)).1)
  | step_timely w {T} cond d (f : bool -> X -> T * X) k :
      cond (shared w) = true ->
      prog_step w (Timed cond d f k) (set_shared (f true (shared w)).2 w) (k (f true (shared w)).1)
  | step_late w {T} cond d (f : bool -> X -> T * X) k :
      d <= clock w ->
      prog_step w (Timed cond d f k) (set_shared (f false (shared w)).2 w) (k (f false (shared w)).1)
  | step_request w {T} (f : t -> T * (t * list notification)) l k r :
      heap w !! l = Some r ->
      prog_step w (OnRequest f l k) (set_heap (<[l := (f r).2.1]> (heap w)) w) (k (Some ((f r).1, (f r).2.2)))
  | step_dangling w {T} (f : t -> T * (t * list notification)) l k :
      heap w !! l = None ->
      prog_step w (OnRequest f l k) w (k None)
  | step_deliver w l ns k :
      prog_step w (Deliver l ns k) (set_log (log w ++ map (pair l) ns) w) k
  | step_round w {T} fuel body (k : T -> prog A) :
      prog_step w (Loop fuel body k) w
        (prog_bind body (fun o => match o with Some a => k a | None => Loop fuel body k end)).

(** Whether the next step is a round of a loop. *)
Definition round_cost {A} (p : prog A) : nat := match p with Loop _ _ _ => 1 | _ => 0 end.

(** ** Schedules are interleavings

    Whatever a program does under a schedule, it does step by step while the
    others act in between. *)

Inductive runs {A} : World X -> prog A -> World X -> prog A -> Prop :=
  | runs_refl w p : runs w p w p
  | runs_step w p w1 p1 w' p' : prog_step w p w1 p1 -> runs w1 p1 w' p' -> runs w p w' p'
  | runs_others b w p w' p' : runs (run_batch b w) p w' p' -> runs w p w' p'.

Definition bare w : World X := set_env [] w.

Lemma bare_batch b w : bare (run_batch b w) = run_batch b (bare w).
Proof.
  revert w. induction b as [|a b IH]; intros w; [done|]. simpl. rewrite IH. f_equal.
  destruct a as [l o|d|a]; simpl; [|done..]. destruct (heap w !! l) as [r|]; [|done]. by destruct (apply_op o r).
Qed.

Lemma runs_interfere {A} w (p : prog A) w' p' : runs (bare (interfere w)) p w' p' -> runs (bare w) p w' p'.
Proof.
  unfold interfere. destruct (env w) as [|b bs]; [done|]. rewrite bare_batch. apply runs_others.
Qed.

Lemma runs_wait {A} cond bs w w1 (p : prog A) w' p' :
  wait_env cond bs w = (true, w1) -> (cond (shared w1) = true -> runs (bare w1) p w' p') -> runs (bare w) p w' p'.
Proof.
  revert w. induction bs as [|b bs IH]; intros w; simpl; destruct (cond (shared w)) eqn:Hc; [|done|..].
  1, 2: intros [= <-] Hr; by apply Hr.
  intros Hw Hr. apply (runs_others b). rewrite <- bare_batch. by eapply IH.
Qed.

Lemma runs_timed_wait {A} cond d bs w st w1 (p : prog A) w' p' :
  timed_wait_env cond d bs w = (st, w1) ->
  match st with
  | Ready => cond (shared w1) = true -> runs (bare w1) p w' p'
  | Timeout => d <= clock w1 -> runs (bare w1) p w' p'
  | Asleep => False
  end -> runs (bare w) p w' p'.
Proof.
  revert w. induction bs as [|b bs IH]; intros w; simpl; destruct (cond (shared w)) eqn:Hc.
  1, 3: intros [= <- <-] Hr; by apply Hr.
  - destruct (Z.leb_spec d (clock w)); intros [= <- <-] Hr; [by apply Hr|done].
  - intros Hw Hr. apply (runs_others b). rewrite <- bare_batch.
    destruct (Z.leb_spec d (clock (run_batch b w))); [|by eapply IH]. injection Hw as <- <-. by apply Hr.
Qed.

Lemma denote_runs {A B} (p : prog A) (g : A -> prog B) w a w1 w' p' :
  denote p w = (Ret a, w1) -> runs (bare w1) (g a) w' p' -> runs (bare w) (prog_bind p g) w' p'.
Proof.
  revert w a w1. induction p as [A a0|A e|A k IH|A T cond f k IH|A T cond d f k IH|A T f l k IH|A l ns k IH|A T fuel body IHb k IH];
    intros w a w1; simpl; unfold mbind, M_bind; try done.
  - by intros [= -> ->].
  - intros H Hr. apply runs_interfere. eapply runs_step; [constructor|]. eapply IH; [exact H|exact Hr].
  - unfold wait_then. destruct (wait_env _ _ _) as [[] w2] eqn:Hw; [|done]. intros H Hr.
    apply runs_interfere. eapply runs_wait; [exact Hw|]. intros Hc.
    eapply runs_step; [by constructor|]. simpl. destruct (f (shared w2)) as [b x]. exact (IH b g _ _ _ H Hr).
  - unfold timed_wait_then. destruct (timed_wait_env _ _ _ _) as [st w2] eqn:Hw. intros H Hr.
    apply runs_interfere. eapply runs_timed_wait; [exact Hw|]. destruct st; [| |done]; intros Hc.
    + eapply runs_step; [by apply step_timely|]. simpl. destruct (f true (shared w2)) as [b x]. exact (IH b g _ _ _ H Hr).
    + eapply runs_step; [by apply step_late|]. simpl. destruct (f false (shared w2)) as [b x]. exact (IH b g _ _ _ H Hr).
  - unfold attempt. destruct (heap (interfere w) !! l) as [r|] eqn:Hl; intros H Hr; apply runs_interfere.
    + eapply runs_step; [by apply step_request|]. exact (IH _ g _ _ _ H Hr).
    + eapply runs_step; [by apply step_dangling|]. exact (IH _ g _ _ _ H Hr).
  - intros H Hr. apply runs_interfere. eapply runs_step; [constructor|]. exact (IH g _ _ _ H Hr).
  - generalize (fuel w). intros m. revert w. induction m as [|m IHm]; intros w; [done|].
    simpl. unfold mbind, M_bind. destruct (denote body w) as [[o|e|] w2] eqn:Hb; [|done..]. intros H Hr.
    eapply runs_step; [constructor|]. eapply IHb; [exact Hb|].
    destruct o as [b|]; [by eapply IH|]. by apply IHm.
Qed.

(** ** The definitions and their trees *)

Class Program {A} (m : M X A) : Type := mkProgram {
  prog_of : prog A;
  prog_ok w : m w = denote prog_of w
}.
#[global] Arguments prog_of {A} m {Program}.
#[global] Arguments mkProgram {A m} _ _.

#[global] Instance program_ret {A} (a : A) : Program (mret a) := mkProgram (Done a) (fun w => eq_refl).
#[global] Instance program_throw {A} e : Program (throw (A := A) e) := mkProgram (Raise e) (fun w => eq_refl).

Lemma program_bind_ok {A B} (m : M X A) (k : A -> M X B) (Hm : Program m) (Hk : forall a, Program (k a)) w :
  (m ≫= k) w = denote (prog_bind (prog_of m) (fun a => prog_of (k a))) w.
Proof.
  rewrite denote_bind. unfold mbind, M_bind. rewrite prog_ok.
  destruct (denote _ w) as [[a|e|] w']; [|done..]. apply prog_ok.
Qed.
#[global] Instance program_bind {A B} (m : M X A) (k : A -> M X B) (Hm : Program m)
    (Hk : forall a, Program (k a)) : Program (m ≫= k) := mkProgram _ (program_bind_ok m k Hm Hk).

Lemma program_catch_ok {A} (m : M X A) h (Hm : Program m) (Hh : forall e, Program (h e)) w :
  try_catch m h w = denote (prog_catch (prog_of m) (fun e => prog_of (h e))) w.
Proof.
  rewrite denote_catch. unfold try_catch. rewrite prog_ok.
  destruct (denote _ w) as [[a|e|] w']; [done| |done]. apply prog_ok.
Qed.
#[global] Instance program_catch {A} (m : M X A) h (Hm : Program m) (Hh : forall e, Program (h e)) :
  Program (try_catch m h) := mkProgram _ (program_catch_ok m h Hm Hh).

Lemma bind_done {A} (m : M X A) w : m w = (m ≫= (fun a => denote (Done a))) w.
Proof. unfold mbind, M_bind. by destruct (m w) as [[a|e|] w']. Qed.

#[global] Instance program_now : Program now := mkProgram (Now Done) (bind_done now).

Lemma atomically_ok {A} (f : X -> A * X) w : atomically f w = denote (Critical (fun _ => true) f Done) w.
Proof.
  simpl. unfold mbind, M_bind, atomically, wait_then. destruct (interfere w) as [h c g x bs].
  destruct bs as [|b bs]; simpl; by destruct (f x).
Qed.
#[global] Instance program_atomically {A} (f : X -> A * X) : Program (atomically f) :=
  mkProgram _ (atomically_ok f).

#[global] Instance program_wait {A} cond (f : X -> A * X) : Program (wait_then cond f) :=
  mkProgram (Critical cond f Done) (bind_done (wait_then cond f)).
#[global] Instance program_timed {A} cond d (f : bool -> X -> A * X) : Program (timed_wait_then cond d f) :=
  mkProgram (Timed cond d f Done) (bind_done (timed_wait_then cond d f)).

Definition answered {T} (o : option (T * list notification)) : prog (T * list notification) :=
  match o with Some out => Done out | None => Raise (StdException "dangling request") end.

Lemma request_ok {A} (f : t -> A * (t * list notification)) l w :
  on_request f l w = denote (OnRequest f l answered) w.
Proof.
  simpl. unfold mbind, M_bind, attempt, on_request. destruct (heap _ !! l) as [r|]; [|done].
  by destruct (f r) as [a [r' ns]].
Qed.
#[global] Instance program_request {A} (f : t -> A * (t * list notification)) l : Program (on_request f l) :=
  mkProgram _ (request_ok f l).
#[global] Instance program_deliver l ns : Program (deliver l ns) :=
  mkProgram (Deliver l ns (Done tt)) (fun w => eq_refl).

(** A loop, given by what one round of it does. *)
Lemma loop_ok {A} (fuel : World X -> nat) (m : nat -> M X A) (round : M X (option A)) (Hr : Program round) w :
  (forall n w, m n w = iterate n round w) -> m (fuel w) w = denote (Loop fuel (prog_of round) Done) w.
Proof.
  intros Hm. rewrite Hm. simpl. unfold mbind, M_bind. rewrite (iterate_ext _ round (denote (prog_of round))).
  - by destruct (iterate _ _ w) as [[a|e|] w'].
  - intros w0. apply prog_ok.
Qed.
Definition program_loop {A} fuel (m : nat -> M X A) (round : M X (option A)) (Hr : Program round)
    (Hm : forall n w, m n w = iterate n round w) : Program (fun w => m (fuel w) w) :=
  mkProgram _ (fun w => loop_ok fuel m round Hr w Hm).
End programs.
#[global] Arguments prog X {SX} A : rename.

#[export] Hint Extern 4 (Program (match ?x with _ => _ end)) => destruct x : typeclass_instances.

(** ** Requests and loops *)

Section requests.
Context {X : Type} `{SX : !Shared X}.

#[global] Instance program_mutate {A} (f : t -> A * (t * list notification)) l : Program (X := X) (mutate f l).
Proof. unfold mutate. apply _. Defined.
#[global] Instance program_inspect {A} (f : t -> A) l : Program (X := X) (inspect f l).
Proof. unfold inspect. apply _. Defined.
#[global] Instance program_timeout tp l : Program (X := X) (req_try_timeout_if_expired tp l).
Proof. unfold req_try_timeout_if_expired, req_try_timeout. apply _. Defined.
#[global] Instance program_is_dead p : Program (X := X) (is_dead_request p).
Proof. unfold is_dead_request, req_is_terminal. apply _. Defined.

#[global] Instance program_for_each {A} (f : A -> M X unit) (Hf : forall a, Program (f a)) l : Program (for_each f l).
Proof. induction l; simpl; apply _. Defined.
#[global] Instance program_for_until {A R} (f : A -> M X (option R)) (Hf : forall a, Program (f a)) l :
  Program (for_until f l).
Proof. induction l; simpl; apply _. Defined.
#[global] Instance program_filterM {A} (f : A -> M X bool) (Hf : forall a, Program (f a)) l : Program (filterM f l).
Proof. induction l; simpl; apply _. Defined.

#[global] Instance program_wait_pop {T} (L : lens X (BoundedQueue.t T)) : Program (BoundedQueue.wait_pop L).
Proof. unfold BoundedQueue.wait_pop. apply _. Defined.
#[global] Instance program_wait_pop_until {T} (L : lens X (BoundedQueue.t T)) d :
  Program (BoundedQueue.wait_pop_until L d).
Proof. unfold BoundedQueue.wait_pop_until. apply _. Defined.

(** ** Batches *)

#[global] Instance program_deref p : Program (X := X) (BatchBuilder.deref p).
Proof. unfold BatchBuilder.deref. apply _. Defined.
#[global] Instance program_earliest e rs : Program (X := X) (BatchBuilder.earliest_from e rs).
Proof. revert e. induction rs as [|[l|] rs IH]; intros e; simpl; unfold req_deadline; apply _. Defined.
#[global] Instance program_compute_deadline b aw rs : Program (X := X) (BatchBuilder.compute_deadline b aw rs).
Proof. unfold BatchBuilder.compute_deadline, BatchBuilder.earliest_deadline. apply _. Defined.

Section form.
Context (b : BatchBuilder.t) (pop_until : time_point -> M X (option RequestPtr)) (aw : bool)
  (extra : RequestPtr -> M X bool) (Hp : forall d, Program (pop_until d)) (He : forall p, Program (extra p)).

#[global] Instance program_form_loop fuel m rs :
  Program (BatchBuilder.form_loop fuel b pop_until aw (Some extra) m rs).
Proof. revert rs. induction fuel as [|fuel IH]; intros rs; simpl; unfold req_model_id; apply _. Defined.
#[global] Instance program_form first : Program (BatchBuilder.form b first pop_until aw (Some extra)).
Proof. unfold BatchBuilder.form, req_model_id. apply _. Defined.
End form.

(** ** The FIFO scheduler *)

Section fifo.
Context (L : lens X (BoundedQueue.t RequestPtr)).

(** One round of [FifoScheduler.next_loop]. *)
Definition next_round : M X (option (option RequestPtr)) :=
  o ← BoundedQueue.wait_pop L;
  match o with
  | None => mret (Some None)
  | Some p => dead ← is_dead_request p; mret (if negb dead then Some (Some p) else None)
  end.

Lemma next_loop_rounds fuel w : FifoScheduler.next_loop L fuel w = iterate fuel next_round w.
Proof.
  revert w. induction fuel as [|fuel IH]; intros w; [done|]. simpl. unfold next_round, mbind, M_bind.
  destruct (BoundedQueue.wait_pop L w) as [[[p|]|e|] w1]; [|done..].
  destruct (is_dead_request p w1) as [[[]|e|] w2]; [|done..]. apply IH.
Qed.

#[global] Instance program_next_round : Program next_round.
Proof. unfold next_round. apply _. Defined.
#[global] Instance program_fifo_next : Program (FifoScheduler.next L) :=
  program_loop _ _ next_round _ next_loop_rounds.
#[global] Instance program_fifo_enqueue p : Program (FifoScheduler.enqueue L p).
Proof. unfold FifoScheduler.enqueue. apply _. Defined.
#[global] Instance program_fifo_close : Program (FifoScheduler.close L).
Proof. unfold FifoScheduler.close, updating. apply _. Defined.
End fifo.
End requests.

(** ** Workers *)

Section worker.
Context {B : Type} `{!IModelBackend B} `{HO : !HashOrder}.
Context {X : Type} `{!Shared X} (L : lens X (Worker.t B)).

#[global] Instance program_get {A} (f : Worker.t B -> A) : Program (Worker.get L f).
Proof. unfold Worker.get, reading. apply _. Defined.
#[global] Instance program_put f : Program (Worker.put L f).
Proof. unfold Worker.put, updating. apply _. Defined.

Ltac unfold_requests :=
  unfold req_is_terminal, req_state, req_transition_to, req_try_fail, req_try_complete, req_model_id.

#[global] Instance program_snapshot e : Program (Worker.snapshot L e).
Proof. unfold Worker.snapshot. apply _. Defined.
#[global] Instance program_try_enqueue p : Program (Worker.try_enqueue L p).
Proof. unfold Worker.try_enqueue, Worker.enqueue_with, Worker.counted, Worker.fetch_add. apply _. Defined.
#[global] Instance program_worker_close : Program (Worker.close L).
Proof. unfold Worker.close, updating. apply _. Defined.

#[global] Instance program_fetch_sub k : Program (Worker.fetch_sub L k).
Proof. unfold Worker.fetch_sub. apply _. Defined.
#[global] Instance program_discard p : Program (Worker.discard_queued_request L p).
Proof. unfold Worker.discard_queued_request. apply _. Defined.
#[global] Instance program_filter batch : Program (X := X) (Worker.filter_live_batch batch).
Proof. unfold Worker.filter_live_batch, Worker.live. apply _. Defined.
#[global] Instance program_fail_one e p : Program (X := X) (Worker.fail_one e p).
Proof. unfold Worker.fail_one. unfold_requests. apply _. Defined.
#[global] Instance program_fail_all e batch : Program (Worker.fail_all L e batch).
Proof. unfold Worker.fail_all, Worker.restore_idle. apply _. Defined.
#[global] Instance program_fail_live e batch : Program (X := X) (Worker.fail_live e batch).
Proof. unfold Worker.fail_live. unfold_requests. apply _. Defined.
#[global] Instance program_run_one batch p : Program (Worker.run_one L batch p).
Proof. unfold Worker.run_one. unfold_requests. apply _. Defined.
#[global] Instance program_to_running batch : Program (Worker.to_running L batch).
Proof. unfold Worker.to_running. apply _. Defined.
#[global] Instance program_ensure e m : Program (Worker.ensure_resident L e m).
Proof. unfold Worker.ensure_resident. apply _. Defined.
#[global] Instance program_infer views : Program (Worker.infer_batch L views).
Proof. unfold Worker.infer_batch. apply _. Defined.
#[global] Instance program_views batch : Program (X := X) (Worker.views_of batch).
Proof. induction batch as [|[]]; simpl; apply _. Defined.
#[global] Instance program_deliver_results pairs last : Program (X := X) (Worker.deliver_results pairs last).
Proof. revert last. induction pairs as [|[]]; intros; simpl; unfold_requests; apply _. Defined.
#[global] Instance program_finish batch rs : Program (Worker.finish_batch L batch rs).
Proof. unfold Worker.finish_batch, Worker.record_batch_metrics, Worker.restore_idle. apply _. Defined.
#[global] Instance program_inference batch : Program (Worker.run_inference L batch).
Proof. unfold Worker.run_inference. apply _. Defined.
#[global] Instance program_resident e batch : Program (Worker.run_resident L e batch).
Proof.
  unfold Worker.run_resident, Worker.record_batch_metrics, Worker.restore_idle. unfold_requests. apply _.
Defined.
#[global] Instance program_execute e batch : Program (Worker.execute_batch L e batch).
Proof. unfold Worker.execute_batch. apply _. Defined.

(** One round of [Worker.pop_live]. *)
Definition pop_round (d : time_point) : M X (option (option RequestPtr)) :=
  o ← BoundedQueue.wait_pop_until (Worker.lane_lens_of L) d;
  match o with
  | None => mret (Some None)
  | Some p =>
      dead ← is_dead_request p;
      if negb dead then mret (Some (Some p)) else
      _ ← Worker.discard_queued_request L p; mret None
  end.

Lemma pop_live_rounds d fuel w : Worker.pop_live L fuel d w = iterate fuel (pop_round d) w.
Proof.
  revert w. induction fuel as [|fuel IH]; intros w; [done|]. simpl. unfold pop_round, mbind, M_bind.
  destruct (BoundedQueue.wait_pop_until _ d w) as [[[p|]|e|] w1]; [|done..].
  destruct (is_dead_request p w1) as [[[]|e|] w2]; [|done..].
  simpl. destruct (Worker.discard_queued_request L p w2) as [[[]|e|] w3]; [|done..]. apply IH.
Qed.

#[global] Instance program_pop_round d : Program (pop_round d).
Proof. unfold pop_round. apply _. Defined.
#[global] Instance program_pop_until d : Program (Worker.pop_until L d) :=
  program_loop _ (fun fuel => Worker.pop_live L fuel d) (pop_round d) _ (pop_live_rounds d).
#[global] Instance program_on_extra p : Program (Worker.on_extra L p).
Proof. unfold Worker.on_extra. apply _. Defined.
#[global] Instance program_take_first : Program (Worker.take_first L).
Proof. unfold Worker.take_first. apply _. Defined.
#[global] Instance program_run_once e : Program (Worker.run_once L e).
Proof. unfold Worker.run_once. apply _. Defined.
End worker.

(** ** The runtime, over the programs of its scheduler *)

Section runtime.
Context {S R B : Type} {n : nat}.
Notation X := (Runtime.t S R B n).
Context `{!Shared X} `{!IRequestScheduler X} `{!IWorkerRouter R} `{!IModelBackend B} `{HO : !HashOrder}.
Context (Henqueue : forall p, Program (X := X) (sched_enqueue p)) (Hnext : Program (X := X) sched_next)
  (Hclose : Program (X := X) sched_close).

#[global] Instance program_admit p : Program (X := X) (AdmissionController.admit_request p).
Proof.
  unfold AdmissionController.admit_request, req_is_terminal, req_transition_to, req_try_reject. apply _.
Defined.
#[global] Instance program_submit p : Program (X := X) (Runtime.submit p).
Proof. unfold Runtime.submit, req_is_terminal, req_state, req_try_reject, reading. apply _. Defined.

#[global] Instance program_for_workers {A} (f : fin n -> M X A) (Hf : forall i, Program (f i)) :
  Program (Runtime.for_workers f).
Proof. unfold Runtime.for_workers. induction Runtime.worker_positions; apply _. Defined.
#[global] Instance program_reject_with l st : Program (X := X) (Runtime.reject_with l st).
Proof. unfold Runtime.reject_with, req_try_reject. apply _. Defined.
#[global] Instance program_find_worker id : Program (X := X) (Runtime.find_worker id).
Proof. unfold Runtime.find_worker, reading. apply _. Defined.
#[global] Instance program_route e p : Program (X := X) (Runtime.route_request e p).
Proof.
  unfold Runtime.route_request, Runtime.collect_snapshots, req_is_terminal, req_model_id, reading. apply _.
Defined.
#[global] Instance program_routing_once e : Program (X := X) (Runtime.routing_once e).
Proof. unfold Runtime.routing_once. apply _. Defined.
End runtime.
