(* ===== verification/Progress.v ===== *)
(** * What holds at every point of a thread

    Predicates on the tree of a thread that are about each of its critical
    sections. [Every P m] says that [P] holds of the tree of the computation
    [m]; it has one instance per operation of the threads of the runtime, for
    every [P] that is closed under the constructs of programs ([Closed]).

    The first such predicate is [opens C]: while [C] holds of the shared state,
    no critical section has to be waited for. It is how the theorems say that a
    thread whose queue was closed is never blocked. *)

From stdpp Require Import vector finite.
From S2P Require Import Prelude Status Requests World Queue Registry Resources Eviction.
From S2P Require Import Backends Manager Router Batch Scheduler Admission Worker Runtime Programs.
Import InferenceRequest.

(** What the code does to a request: it evolves, the observers are told its
    new snapshot, and when it ends all of them are; until then they stay. *)
Class Lawful {A} (f : t -> A * (t * list notification)) : Prop := {
  lawful_evolves r : evolves r (f r).2.1;
  lawful_notes r o : o ∈ (f r).2.2 -> o.2 = snapshot (f r).2.1;
  lawful_observers r o : o ∈ observers_ r -> is_terminal r = false ->
    if is_terminal (f r).2.1 then (o, snapshot (f r).2.1) ∈ (f r).2.2 else o ∈ observers_ (f r).2.1
}.

Lemma finish_observers next res r o :
  is_terminal_state next = true -> o ∈ observers_ r -> is_terminal r = false ->
  if is_terminal (finish next res r).2.1 then (o, snapshot (finish next res r).2.1) ∈ (finish next res r).2.2
  else o ∈ observers_ (finish next res r).2.1.
Proof.
  intros Hn Ho Hr. rewrite finish_spec. destruct (is_valid_transition _ _); simpl; [|by rewrite Hr].
  unfold is_terminal. simpl. rewrite Hn. apply list_elem_of_fmap. by exists o.
Qed.

Lemma transition_observers next r o :
  o ∈ observers_ r -> is_terminal r = false ->
  if is_terminal (transition_to next r).2.1 then (o, snapshot (transition_to next r).2.1) ∈ (transition_to next r).2.2
  else o ∈ observers_ (transition_to next r).2.1.
Proof.
  intros Ho Hr. rewrite transition_to_spec. destruct (is_valid_transition _ _); simpl; [|by rewrite Hr].
  unfold is_terminal. destruct (is_terminal_state next) eqn:Hn; simpl; rewrite Hn; [|done].
  apply list_elem_of_fmap. by exists o.
Qed.

Lemma apply_op_observers o r ob :
  ob ∈ observers_ r -> is_terminal r = false ->
  if is_terminal (apply_op o r).1 then (ob, snapshot (apply_op o r).1) ∈ (apply_op o r).2
  else ob ∈ observers_ (apply_op o r).1.
Proof.
  intros Ho Hr. destruct o as [d|o|next|res|e|e| | |tp]; simpl;
    try (by apply finish_observers); try (by apply transition_observers).
  - unfold is_terminal in *. simpl. by rewrite Hr.
  - destruct o as [o|]; simpl; [|by rewrite Hr]. unfold is_terminal in *. rewrite Hr. simpl. rewrite Hr.
    apply elem_of_app. by left.
  - unfold try_timeout_if_expired. destruct (expired_and_live tp r); [by apply finish_observers|]. simpl. by rewrite Hr.
Qed.

Lemma lawful_op {A} (f : t -> A * (t * list notification)) o : (forall r, (f r).2 = apply_op o r) -> Lawful f.
Proof.
  intros Hf. split; intros r; rewrite Hf; [apply apply_op_evolves|apply apply_op_notes|apply apply_op_observers].
Qed.

#[export] Instance lawful_transition next : Lawful (transition_to next) := lawful_op _ (OpTransition next) (fun r => eq_refl).
#[export] Instance lawful_complete res : Lawful (try_complete res) := lawful_op _ (OpComplete res) (fun r => eq_refl).
#[export] Instance lawful_fail e : Lawful (try_fail e) := lawful_op _ (OpFail e) (fun r => eq_refl).
#[export] Instance lawful_reject e : Lawful (try_reject e) := lawful_op _ (OpReject e) (fun r => eq_refl).
#[export] Instance lawful_timeout : Lawful try_timeout := lawful_op _ OpTimeout (fun r => eq_refl).

Section every.
Context {X : Type} `{SX : !Shared X} (P : forall A, prog X A -> Prop).

Class Closed : Prop := {
  closed_done {A} (a : A) : P A (Done a);
  closed_raise {A} e : P A (Raise e);
  closed_bind {A B} (p : prog X A) (g : A -> prog X B) : P A p -> (forall a, P B (g a)) -> P B (prog_bind p g);
  closed_try {A} (p : prog X A) : P A p -> P (A + exn)%type (prog_try p);
  closed_loop {A} fuel (body : prog X (option A)) : P (option A) body -> P A (Loop fuel body Done);
  closed_now : P time_point (Now Done);
  closed_atomically {A} (f : X -> A * X) : P A (Critical (fun _ => true) f Done);
  closed_inspect {A} (f : t -> A) l : P A (prog_of (inspect f l));
  closed_mutate {A} (f : t -> A * (t * list notification)) l : Lawful f -> P A (prog_of (mutate f l))
}.

Class Every {A} (m : M X A) (Hm : Program m) : Prop := every_ok : P A (prog_of m).

Context {HP : Closed}.

#[global] Instance every_ret {A} (a : A) : Every (mret a) (program_ret a).
Proof. apply closed_done. Qed.
#[global] Instance every_throw {A} e : Every (throw (A := A) e) (program_throw e).
Proof. apply closed_raise. Qed.
#[global] Instance every_bind {A B} (m : M X A) (k : A -> M X B) Hm (Hk : forall a, Program (k a)) :
  Every m Hm -> (forall a, Every (k a) (Hk a)) -> Every (m ≫= k) (program_bind m k Hm Hk).
Proof. intros H1 H2. by apply closed_bind. Qed.
#[global] Instance every_catch {A} (m : M X A) h Hm (Hh : forall e, Program (h e)) :
  Every m Hm -> (forall e, Every (h e) (Hh e)) -> Every (try_catch m h) (program_catch m h Hm Hh).
Proof. intros H1 H2. apply closed_bind; [by apply closed_try|]. intros [a|e]; [apply closed_done|apply H2]. Qed.
#[global] Instance every_now : Every now program_now.
Proof. apply closed_now. Qed.
#[global] Instance every_atomically {A} (f : X -> A * X) : Every (atomically f) (program_atomically f).
Proof. apply closed_atomically. Qed.
#[global] Instance every_inspect {A} (f : t -> A) l : Every (inspect f l) (program_inspect f l).
Proof. apply closed_inspect. Qed.
#[global] Instance every_mutate {A} (f : t -> A * (t * list notification)) l :
  Lawful f -> Every (mutate f l) (program_mutate f l).
Proof. apply closed_mutate. Qed.
Lemma every_loop {A} fuel (m : nat -> M X A) round Hr Hm :
  Every round Hr -> Every (fun w => m (fuel w) w) (program_loop fuel m round Hr Hm).
Proof. apply closed_loop. Qed.
End every.
#[export] Hint Extern 4 (Every _ (match ?x with _ => _ end) _) => destruct x : typeclass_instances.

(** ** The components *)

Section components.
Context {X : Type} `{SX : !Shared X} (P : forall A, prog X A -> Prop) `{HP : !Closed P}.

#[global] Instance every_timeout tp l : Every P (req_try_timeout_if_expired tp l) (program_timeout tp l).
Proof. unfold req_try_timeout_if_expired, program_timeout. apply _. Qed.
#[global] Instance every_is_dead p : Every P (is_dead_request p) (program_is_dead p).
Proof. unfold is_dead_request, program_is_dead. apply _. Qed.
#[global] Instance every_for_each {A} (f : A -> M X unit) (Hf : forall a, Program (f a)) l :
  (forall a, Every P (f a) (Hf a)) -> Every P (for_each f l) (program_for_each f Hf l).
Proof. intros H. induction l; simpl; apply _. Qed.
#[global] Instance every_for_until {A R} (f : A -> M X (option R)) (Hf : forall a, Program (f a)) l :
  (forall a, Every P (f a) (Hf a)) -> Every P (for_until f l) (program_for_until f Hf l).
Proof. intros H. induction l; simpl; apply _. Qed.
#[global] Instance every_filterM {A} (f : A -> M X bool) (Hf : forall a, Program (f a)) l :
  (forall a, Every P (f a) (Hf a)) -> Every P (filterM f l) (program_filterM f Hf l).
Proof. intros H. induction l; simpl; apply _. Qed.

#[global] Instance every_deref p : Every P (BatchBuilder.deref p) (program_deref p).
Proof. unfold BatchBuilder.deref, program_deref. apply _. Qed.
#[global] Instance every_earliest e rs : Every P (BatchBuilder.earliest_from e rs) (program_earliest e rs).
Proof. revert e. induction rs as [|[l|] rs IH]; intros e; simpl; apply _. Qed.
#[global] Instance every_compute_deadline b aw rs :
  Every P (BatchBuilder.compute_deadline b aw rs) (program_compute_deadline b aw rs).
Proof. unfold BatchBuilder.compute_deadline, program_compute_deadline. apply _. Qed.

Section form.
Context (b : BatchBuilder.t) (pop_until : time_point -> M X (option RequestPtr)) (aw : bool)
  (extra : RequestPtr -> M X bool) (Hp : forall d, Program (pop_until d)) (He : forall p, Program (extra p))
  (Hop : forall d, Every P (pop_until d) (Hp d)) (Hoe : forall p, Every P (extra p) (He p)).

#[global] Instance every_form_loop fuel m rs :
  Every P (BatchBuilder.form_loop fuel b pop_until aw (Some extra) m rs)
    (program_form_loop b pop_until aw extra Hp He fuel m rs).
Proof. revert rs. induction fuel as [|fuel IH]; intros rs; simpl; apply _. Qed.
#[global] Instance every_form first :
  Every P (BatchBuilder.form b first pop_until aw (Some extra)) (program_form b pop_until aw extra Hp He first).
Proof. unfold BatchBuilder.form, program_form. apply _. Qed.
End form.

Section fifo.
Context (L : lens X (BoundedQueue.t RequestPtr)) (Hpop : Every P (BoundedQueue.wait_pop L) (program_wait_pop L)).

Lemma every_next_round : Every P (next_round L) (program_next_round L).
Proof. unfold next_round, program_next_round. apply _. Qed.
Lemma every_fifo_next : Every P (FifoScheduler.next L) (program_fifo_next L).
Proof. apply (every_loop P _ (FifoScheduler.next_loop L)), every_next_round. Qed.
Lemma every_fifo_enqueue p : Every P (FifoScheduler.enqueue L p) (program_fifo_enqueue L p).
Proof. unfold FifoScheduler.enqueue, program_fifo_enqueue. apply _. Qed.
Lemma every_fifo_close : Every P (FifoScheduler.close L) (program_fifo_close L).
Proof. unfold FifoScheduler.close, program_fifo_close. apply _. Qed.
End fifo.
End components.

Section worker.
Context {B : Type} `{!IModelBackend B} `{HO : !HashOrder}.
Context {X : Type} `{!Shared X} (L : lens X (Worker.t B)) (P : forall A, prog X A -> Prop) `{HP : !Closed P}.

#[global] Instance every_get {A} (f : Worker.t B -> A) : Every P (Worker.get L f) (program_get L f).
Proof. unfold Worker.get, program_get. apply _. Qed.
#[global] Instance every_put f : Every P (Worker.put L f) (program_put L f).
Proof. unfold Worker.put, program_put. apply _. Qed.
#[global] Instance every_snapshot e : Every P (Worker.snapshot L e) (program_snapshot L e).
Proof. unfold Worker.snapshot, program_snapshot. apply _. Qed.
#[global] Instance every_try_enqueue p : Every P (Worker.try_enqueue L p) (program_try_enqueue L p).
Proof. unfold Worker.try_enqueue, Worker.enqueue_with, program_try_enqueue. apply _. Qed.
#[global] Instance every_fetch_sub k : Every P (Worker.fetch_sub L k) (program_fetch_sub L k).
Proof. unfold Worker.fetch_sub, program_fetch_sub. apply _. Qed.
#[global] Instance every_discard p : Every P (Worker.discard_queued_request L p) (program_discard L p).
Proof. unfold Worker.discard_queued_request, program_discard. apply _. Qed.
#[global] Instance every_filter batch : Every P (Worker.filter_live_batch batch) (program_filter batch).
Proof. unfold Worker.filter_live_batch, program_filter. apply _. Qed.
#[global] Instance every_fail_one e p : Every P (Worker.fail_one e p) (program_fail_one e p).
Proof. unfold Worker.fail_one, program_fail_one. apply _. Qed.
#[global] Instance every_fail_all e batch : Every P (Worker.fail_all L e batch) (program_fail_all L e batch).
Proof. unfold Worker.fail_all, program_fail_all. apply _. Qed.
#[global] Instance every_fail_live e batch : Every P (Worker.fail_live e batch) (program_fail_live e batch).
Proof. unfold Worker.fail_live, program_fail_live. apply _. Qed.
#[global] Instance every_run_one batch p : Every P (Worker.run_one L batch p) (program_run_one L batch p).
Proof. unfold Worker.run_one, program_run_one. apply _. Qed.
#[global] Instance every_to_running batch : Every P (Worker.to_running L batch) (program_to_running L batch).
Proof. unfold Worker.to_running, program_to_running. apply _. Qed.
#[global] Instance every_ensure e m : Every P (Worker.ensure_resident L e m) (program_ensure L e m).
Proof. unfold Worker.ensure_resident, program_ensure. apply _. Qed.
#[global] Instance every_infer views : Every P (Worker.infer_batch L views) (program_infer L views).
Proof. unfold Worker.infer_batch, program_infer. apply _. Qed.
#[global] Instance every_views batch : Every P (Worker.views_of batch) (program_views batch).
Proof. induction batch as [|[]]; simpl; apply _. Qed.
#[global] Instance every_deliver_results pairs last :
  Every P (Worker.deliver_results pairs last) (program_deliver_results pairs last).
Proof. revert last. induction pairs as [|[]]; intros; simpl; apply _. Qed.
#[global] Instance every_finish batch rs : Every P (Worker.finish_batch L batch rs) (program_finish L batch rs).
Proof. unfold Worker.finish_batch, program_finish. cbv zeta. apply _. Qed.
#[global] Instance every_inference batch : Every P (Worker.run_inference L batch) (program_inference L batch).
Proof. unfold Worker.run_inference, program_inference. apply _. Qed.
#[global] Instance every_resident e batch : Every P (Worker.run_resident L e batch) (program_resident L e batch).
Proof. unfold Worker.run_resident, program_resident. apply _. Qed.
#[global] Instance every_execute e batch : Every P (Worker.execute_batch L e batch) (program_execute L e batch).
Proof. unfold Worker.execute_batch, program_execute. cbv zeta. apply _. Qed.
#[global] Instance every_on_extra p : Every P (Worker.on_extra L p) (program_on_extra L p).
Proof. unfold Worker.on_extra, program_on_extra. apply _. Qed.

#[global] Instance every_worker_close : Every P (Worker.close L) (program_worker_close L).
Proof. unfold Worker.close, program_worker_close. apply _. Qed.

Context (Hpop : Every P (BoundedQueue.wait_pop (Worker.lane_lens_of L)) (program_wait_pop _))
  (Hpop_until : forall d, Every P (BoundedQueue.wait_pop_until (Worker.lane_lens_of L) d) (program_wait_pop_until _ d)).

Lemma every_pop_round d : Every P (pop_round L d) (program_pop_round L d).
Proof. unfold pop_round, program_pop_round. apply _. Qed.
Lemma every_pop_until d : Every P (Worker.pop_until L d) (program_pop_until L d).
Proof. apply (every_loop P _ (fun fuel => Worker.pop_live L fuel d)), every_pop_round. Qed.

Lemma every_take_first : Every P (Worker.take_first L) (program_take_first L).
Proof. unfold Worker.take_first, program_take_first. apply _. Qed.

Lemma every_run_once e : Every P (Worker.run_once L e) (program_run_once L e).
Proof.
  pose proof every_take_first as Hfirst. pose proof every_pop_until as Hlive.
  unfold Worker.run_once, program_run_once. apply _.
Qed.
End worker.

Section runtime.
Context {S R B : Type} {n : nat}.
Notation X := (Runtime.t S R B n).
Context `{!Shared X} `{!IRequestScheduler X} `{!IWorkerRouter R} `{!IModelBackend B} `{HO : !HashOrder}.
Context (P : forall A, prog X A -> Prop) `{HP : !Closed P}
  (Hnext : Program (X := X) sched_next) (Hon : Every P sched_next Hnext).

#[global] Instance every_for_workers {A} (f : fin n -> M X A) (Hf : forall i, Program (f i)) :
  (forall i, Every P (f i) (Hf i)) -> Every P (Runtime.for_workers f) (program_for_workers f Hf).
Proof. intros H. unfold Runtime.for_workers, program_for_workers. induction Runtime.worker_positions; simpl; apply _. Qed.
#[global] Instance every_reject_with l st : Every (X := X) P (Runtime.reject_with l st) (program_reject_with l st).
Proof. unfold Runtime.reject_with, program_reject_with. apply _. Qed.
#[global] Instance every_find_worker id : Every (X := X) P (Runtime.find_worker id) (program_find_worker id).
Proof. unfold Runtime.find_worker, program_find_worker. apply _. Qed.
#[global] Instance every_route e p : Every (X := X) P (Runtime.route_request e p) (program_route e p).
Proof. unfold Runtime.route_request, program_route. apply _. Qed.

Lemma every_routing_once e : Every (X := X) P (Runtime.routing_once e) (program_routing_once Hnext e).
Proof. unfold Runtime.routing_once, program_routing_once. apply _. Qed.

Context (Henqueue : forall p, Program (X := X) (sched_enqueue p)) (Hclose : Program (X := X) sched_close)
  (Hoq : forall p, Every P (sched_enqueue p) (Henqueue p)) (Hoc : Every P sched_close Hclose).

#[global] Instance every_admit p : Every (X := X) P (AdmissionController.admit_request p) (program_admit Henqueue p).
Proof. unfold AdmissionController.admit_request, program_admit. apply _. Qed.
Lemma every_submit p : Every (X := X) P (Runtime.submit p) (program_submit Henqueue p).
Proof. unfold Runtime.submit, program_submit. apply _. Qed.
End runtime.

(** ** Waiting *)

Section opens.
Context {X : Type} `{SX : !Shared X} (C : X -> Prop).

Fixpoint opens {A} (p : prog X A) : Prop :=
  match p with
  | Done _ | Raise _ => True
  | Now k => forall tp, opens (k tp)
  | Critical cond f k => (forall x, C x -> cond x = true) /\ forall a, opens (k a)
  | Timed cond d f k => (forall x, C x -> cond x = true) /\ forall a, opens (k a)
  | OnRequest f l k => forall o, opens (k o)
  | Deliver l ns k => opens k
  | Loop fuel body k => opens body /\ forall a, opens (k a)
  end.

Lemma opens_prog_bind {A B} (p : prog X A) (k : A -> prog X B) :
  opens p -> (forall a, opens (k a)) -> opens (prog_bind p k).
Proof. intros Hp Hk. induction p; simpl in *; try done; try (by destruct Hp; auto); auto. Qed.

Lemma opens_prog_try {A} (p : prog X A) : opens p -> opens (prog_try p).
Proof.
  intros Hp. induction p as [A a|A e|A k IH|A T cond f k IH|A T cond d f k IH|A T f l k IH|A l ns k IH|A T fuel body IHb k IH];
    simpl in *; try done; auto; try (by destruct Hp; auto).
  destruct Hp as [Hb Hk]. split; [by apply opens_prog_bind; [apply IHb|]|]. intros [a|e]; [by apply IH|done].
Qed.

(** A step stays in the tree. *)
Lemma opens_step {A} (w w' : World X) (p p' : prog X A) : prog_step w p w' p' -> opens p -> opens p'.
Proof.
  intros []; simpl; try naive_solver. intros [Hb Hk]. apply opens_prog_bind; [done|]. by intros [a|].
Qed.

#[global] Instance opens_closed : Closed (@opens).
Proof.
  split; try done.
  - intros A B p g. apply opens_prog_bind.
  - intros A p. apply opens_prog_try.
  - by intros A f l [].
  - by intros A f l _ [].
Qed.

(** A queue that is closed is not waited for. *)
Section queue.
Context {T : Type} (L : lens X (BoundedQueue.t T)) (HC : forall x, C x -> BoundedQueue.closed_ (view L x) = true).

Lemma ready_when_closed x : C x -> BoundedQueue.pop_ready (view L x) = true.
Proof. intros Hx. unfold BoundedQueue.pop_ready. rewrite HC by done. apply orb_true_r. Qed.

Lemma opens_wait_pop : Every (@opens) (BoundedQueue.wait_pop L) (program_wait_pop L).
Proof. split; [apply ready_when_closed|done]. Qed.
Lemma opens_wait_pop_until d : Every (@opens) (BoundedQueue.wait_pop_until L d) (program_wait_pop_until L d).
Proof. split; [apply ready_when_closed|done]. Qed.
End queue.
End opens.
