(* ===== verification/Machine.v ===== *)
(** * The running system

    The threads of the runtime together. A state is a world and the threads
    that run in it: the routing thread ([Runtime::routing_loop]), the threads
    of the workers ([Worker::run]), and callers that are inside
    [Runtime::submit] or [Runtime::stop]. Every thread is the tree of critical
    sections of the translated code ([Programs.v]); a step of the system is one
    critical section of one thread, or an action of a caller on a request. So
    any two critical sections of different threads may be interleaved in any
    order. *)

From stdpp Require Import vector finite relations.
From S2P Require Import Prelude Status Requests World Queue Registry Resources Eviction.
From S2P Require Import Backends Manager Router Batch Scheduler Admission Worker WorkerProofs.
From S2P Require Import Guarantee WorkerDrain Runtime RuntimeProofs Programs.
Import InferenceRequest.

(** The others act as threads of the machine, not as a schedule. *)
Definition machine_shared (R B : Type) (n : nat) : Shared (FifoRuntime R B n) :=
  {| act := Empty_set; act_step := fun a x => match a with end |}.
#[local] Existing Instance machine_shared.
#[local] Instance machine_scheduler R B n : IRequestScheduler (FifoRuntime R B n) :=
  fifo_scheduler Runtime.scheduler_of.

(** ** Threads *)

Inductive tid (n : nat) := TRouting | TWorker (i : fin n) | TCaller (c : nat).
Arguments TRouting {n}.
Arguments TWorker {n} i.
Arguments TCaller {n} c.

#[export] Instance tid_eq_dec n : EqDecision (tid n).
Proof. solve_decision. Defined.
#[export] Instance tid_countable n : Countable (tid n).
Proof.
  refine (inj_countable'
    (fun i => match i with TRouting => inl None | TWorker i => inl (Some i) | TCaller c => inr c end)
    (fun s => match s with inl None => TRouting | inl (Some i) => TWorker i | inr c => TCaller c end) _).
  by intros [].
Defined.

Section machine.
Context {R B : Type} {n : nat} `{!IWorkerRouter R} `{!IModelBackend B} `{HO : !HashOrder}.
Notation X := (FifoRuntime R B n).
Implicit Types (w : World X) (x : X) (p : RequestPtr) (i : tid n).

(** *** Where pointers are kept *)

Definition worker_pointers (s : Worker.t B) : list RequestPtr :=
  BoundedQueue.queue_ (Worker.lane_ s) ++ option_list (Worker.deferred_ s).

(** The scheduler's queue, the lanes and the deferred slots. *)
Definition pointers x : list RequestPtr :=
  BoundedQueue.queue_ (Runtime.scheduler_ x) ++
  concat ((fun j => worker_pointers (Runtime.workers_ x !!! j)) <$> enum (fin n)).

Definition occurrences p x : nat := length (filter (fun q => q = p) (pointers x)).

(** The requests a step from [x] to [x'] took out of them. *)
Definition freed x x' : gset loc :=
  list_to_set (filter (fun l => (occurrences (Some l) x' < occurrences (Some l) x)%nat) (omap id (pointers x))).

(** *** States and steps *)

(** [taken] are the requests the thread took out of a queue in this turn, or
    was called with. *)
Record thread := mkThread { code : prog X bool; taken : gset loc }.

Record machine := mkMachine { world : World X; pool : gmap (tid n) thread }.

(** One turn of a thread; [false] ends it. *)
Definition turn_of i (epoch : nat) : prog X bool :=
  match i with
  | TRouting => prog_of (Runtime.routing_once epoch)
  | TWorker i => prog_of (Worker.run_once (Runtime.worker_of i) epoch)
  | TCaller _ => Done false
  end.

Definition submit_code (l : loc) : prog X bool := prog_of (_ ← Runtime.submit (Some l); mret false).

#[global] Instance program_join j : Program (Worker.join (X := X) (Runtime.worker_of j)).
Proof. unfold Worker.join. apply _. Defined.
#[global] Instance program_stop : Program (X := X) Runtime.stop.
Proof. unfold Runtime.stop, updating. apply _. Defined.

Definition stop_code : prog X bool := prog_of (_ ← Runtime.stop; mret false).

Definition outside_act (a : env_act X) : Prop :=
  match a with EnvRequest _ o => outside_op o | _ => True end.

(** A critical section of a thread, and the end of its turn. *)
Inductive thread_step (s : machine) : tid n -> machine -> Prop :=
  | thread_runs i th w' (p' : prog X bool) :
      pool s !! i = Some th -> prog_step (world s) (code th) w' p' ->
      thread_step s i (mkMachine w'
        (<[i := mkThread p' (taken th ∪ freed (shared (world s)) (shared w'))]> (pool s))).

Inductive turn_step (s : machine) : tid n -> machine -> Prop :=
  | turn_again i th epoch :
      pool s !! i = Some th -> code th = Done true ->
      turn_step s i (mkMachine (world s) (<[i := mkThread (turn_of i epoch) ∅]> (pool s)))
  | turn_ends i th :
      pool s !! i = Some th -> code th = Done false ->
      turn_step s i (mkMachine (world s) (delete i (pool s))).

(** What callers do: create a request, act on one they hold, let time pass,
    and enter the runtime. *)
Inductive caller_step (s : machine) : machine -> Prop :=
  | caller_new l r :
      heap (world s) !! l = None -> state_ r = Received ->
      caller_step s (mkMachine (set_heap (<[l := r]> (heap (world s))) (world s)) (pool s))
  | caller_act a :
      outside_act a -> caller_step s (mkMachine (step_env a (world s)) (pool s))
  | caller_submit c l :
      pool s !! TCaller c = None -> is_Some (heap (world s) !! l) ->
      caller_step s (mkMachine (world s) (<[TCaller c := mkThread (submit_code l) {[l]}]> (pool s)))
  | caller_stop c :
      pool s !! TCaller c = None ->
      caller_step s (mkMachine (world s) (<[TCaller c := mkThread stop_code ∅]> (pool s))).

Definition step (s s' : machine) : Prop :=
  (exists i, thread_step s i s' \/ turn_step s i s') \/ caller_step s s'.

(** After [start], before any request: the queues are empty and every thread
    is at the beginning of its first turn. *)
Record initial (s : machine) : Prop := {
  init_env : env (world s) = [];
  init_log : log (world s) = [];
  init_requests l r : heap (world s) !! l = Some r -> state_ r = Received;
  init_pointers : pointers (shared (world s)) = [];
  init_pool i : match i with
    | TCaller _ => pool s !! i = None
    | _ => exists epoch, pool s !! i = Some (mkThread (turn_of i epoch) ∅)
    end
}.

Definition reachable (s : machine) : Prop := exists s0, initial s0 /\ rtc step s0 s.

(** Everything thread [i] does, and what the callers and their threads do. *)
Definition moves_of i (s s' : machine) : Prop := thread_step s i s' \/ turn_step s i s'.

Definition of_runtime i : Prop := match i with TCaller _ => False | _ => True end.

Definition caller_move (s s' : machine) : Prop := caller_step s s' \/ exists m, moves_of (TCaller m) s s'.

(** A thread of the runtime gets on, after whatever the callers do. *)
Definition advance (s s' : machine) : Prop :=
  exists s1 i, rtc caller_move s s1 /\ of_runtime i /\ moves_of i s1 s'.

(** A run in which the threads of the runtime end [k] turns. *)
Inductive turns : nat -> machine -> machine -> Prop :=
  | turns_refl s : turns 0 s s
  | turns_caller k s s1 s' : caller_move s s1 -> turns k s1 s' -> turns k s s'
  | turns_section k i s s1 s' : of_runtime i -> thread_step s i s1 -> turns k s1 s' -> turns k s s'
  | turns_end k i s s1 s' : of_runtime i -> turn_step s i s1 -> turns k s1 s' -> turns (S k) s s'.

(** The threads of the runtime. *)
Definition fixed : list (tid n) := TRouting :: (TWorker <$> enum (fin n)).

Definition running (s : machine) : nat := length (filter (fun i => is_Some (pool s !! i)) fixed).

(** The threads of the runtime have ended. *)
Definition joined (s : machine) : Prop :=
  pool s !! TRouting = None /\ forall j, pool s !! TWorker j = None.

(** ** What is left to do *)

Definition sched_closed x : Prop := BoundedQueue.closed_ (Runtime.scheduler_ x) = true.

(** What the requests in the queues are worth: a thread that takes one may
    spend it on rounds of its loops, on another turn and, in the routing
    thread, on putting it into a lane. *)
Definition backlog x : nat := 2 * (length (BoundedQueue.queue_ (Runtime.scheduler_ x)) + length (pointers x)).

(** Nothing is left for the thread, and nothing will come. *)
Definition drained_for i x : Prop :=
  match i with
  | TRouting => sched_closed x /\ BoundedQueue.queue_ (Runtime.scheduler_ x) = []
  | TWorker i => drained (Runtime.workers_ x !!! i)
  | TCaller _ => True
  end.

Definition closed_lane_of (j : fin n) x : Prop :=
  BoundedQueue.closed_ (Worker.lane_ (Runtime.workers_ x !!! j)) = true.

(** What has to be closed for the thread not to wait; callers never do. *)
Definition closing i x : Prop :=
  match i with TRouting => sched_closed x | TWorker j => closed_lane_of j x | TCaller _ => True end.

(** The handle by which thread [i] can be joined is still in its place. *)
Definition handle i x : bool :=
  match i with
  | TRouting => Runtime.routing_thread_ x
  | TWorker j => Worker.thread_ (Runtime.workers_ x !!! j)
  | TCaller _ => false
  end.

(** A step of thread [i]: what was closed stays closed, and handles are only
    taken, by callers. *)
Definition steady i x x' : Prop :=
  forall k, (closing k x -> closing k x') /\ (handle k x' = handle k x \/ (handle k x' = false /\ ~ of_runtime i)).

(** ** Where the requests are *)

(** A thread in the middle of its turn has the request. *)
Definition handles i (s : machine) (l : loc) : Prop :=
  exists th, pool s !! i = Some th /\ l ∈ taken th /\ forall more, code th <> Done more.

Definition located (s : machine) (l : loc) (r : InferenceRequest.t) : Prop :=
  match state_ r with
  | Queued => Some l ∈ pointers (shared (world s)) \/ exists i, handles i s l
  | Running => exists j, handles (TWorker j) s l
  | _ => True
  end.

(** ** What a thread knows of the requests in its hands

    A thread that works on a request knows how far it has come; none of this is
    ever undone by another thread. [Held] and [Started] are duties: the thread
    has to end the request or hand it on. *)

Inductive stage := Known | Held | Started | Ended.
#[global] Instance stage_eq_dec : EqDecision stage.
Proof. solve_decision. Defined.

Definition stage_rank (st : stage) : nat :=
  match st with Known => 0 | Held => 1 | Started => 2 | Ended => 3 end.

Definition stage_ok (st : stage) (r : InferenceRequest.t) : Prop :=
  match st with
  | Known => True
  | Held => admitted r
  | Started => started r
  | Ended => terminal_req r
  end.

(** [paid] is what the thread may still spend in this turn, [over] says that the last turn
    is over, [slot] that the worker's deferred slot is empty. *)
Record ghost := mkGhost { hand : gmap loc stage; paid : nat; over : bool; slot : bool }.

Definition duty (st : stage) : Prop := st = Held \/ st = Started.
Definition owns (c : ghost) (l : loc) : Prop := exists st, hand c !! l = Some st /\ duty st.

(** A thread finished its last turn. *)
Definition finished (g : gmap (tid n) ghost) i : Prop :=
  match g !! i with Some c => over c = true | None => True end.

(** Where a request that is not over is looked after. *)
Definition covered (g : gmap (tid n) ghost) x (l : loc) (r : InferenceRequest.t) : Prop :=
  match state_ r with
  | Queued => Some l ∈ pointers x \/ exists i c, g !! i = Some c /\ owns c l
  | Running => exists i c, g !! i = Some c /\ hand c !! l = Some Started
  | _ => True
  end.

(** Only the threads of the runtime work off the backlog. *)
Definition limit i : nat := match i with TCaller _ => 0 | _ => 4 end.

(** One round of a loop is paid for. *)
Definition spend (c : ghost) : ghost := mkGhost (hand c) (pred (paid c)) (over c) (slot c).

Record inv (g : gmap (tid n) ghost) (h : gmap loc InferenceRequest.t) x : Prop := {
  inv_cover l r : h !! l = Some r -> covered g x l r;
  inv_pointers p : p ∈ pointers x -> exists l r, p = Some l /\ h !! l = Some r /\ admitted r;
  inv_hands i c l st : g !! i = Some c -> hand c !! l = Some st -> exists r, h !! l = Some r /\ stage_ok st r;
  inv_started i c l : g !! i = Some c -> hand c !! l = Some Started -> exists j, i = TWorker j;
  inv_paid i c : g !! i = Some c -> (paid c <= limit i)%nat;
  inv_over i : finished g i -> drained_for i x;
  inv_slot j c : g !! TWorker j = Some c -> slot c = true -> Worker.deferred_ (Runtime.workers_ x !!! j) = None
}.

(** A step of thread [i] that takes its knowledge from [c] to [c']: the
    invariant is kept, the work does not grow once the scheduler is closed, the
    thread only gets to know what it took, and nothing is opened again. *)
Definition moves i (g : gmap (tid n) ghost) (c c' : ghost) (h' : gmap loc InferenceRequest.t) x x' : Prop :=
  inv (<[i := c']> g) h' x' /\
  (sched_closed x -> sched_closed x' /\ (backlog x' + paid c' <= backlog x + paid c)%nat) /\
  (forall l, is_Some (hand c' !! l) ->
     is_Some (hand c !! l) \/ (occurrences (Some l) x' < occurrences (Some l) x)%nat) /\
  steady i x x'.

(** Whatever the other threads do in between, the thread [i] that runs [p] and
    knows [c] keeps the invariant, and ends with [Q] or throws with [E]. The
    rounds of a loop have an invariant of their own, and each is paid for. *)
Fixpoint safe i {A} (p : prog X A) (Q : A -> ghost -> Prop) (E : exn -> ghost -> Prop) (c : ghost) : Prop :=
  match p with
  | Done a => Q a c
  | Raise e => E e c
  | Now k => forall tp, safe i (k tp) Q E c
  | Critical cond f k => forall g h x, inv g h x -> g !! i = Some c -> cond x = true ->
      exists c', moves i g c c' h x (f x).2 /\ safe i (k (f x).1) Q E c'
  | Timed cond d f k => forall g h x b, inv g h x -> g !! i = Some c -> (b = true -> cond x = true) ->
      exists c', moves i g c c' h x (f b x).2 /\ safe i (k (f b x).1) Q E c'
  | OnRequest f l k => forall g h x, inv g h x -> g !! i = Some c ->
      match h !! l with
      | None => safe i (k None) Q E c
      | Some r => exists c', moves i g c c' (<[l := (f r).2.1]> h) x x /\
          safe i (k (Some ((f r).1, (f r).2.2))) Q E c'
      end
  | Deliver l ns k => safe i k Q E c
  | Loop fuel body k => exists I : ghost -> Prop, I c /\ forall c0, I c0 -> (1 <= paid c0)%nat /\
      safe i body (fun o c' => match o with Some a => safe i (k a) Q E c' | None => I c' end) E (spend c0)
  end.
End machine.
