(* ===== verification/MachineLogic.v ===== *)
(** * Reasoning about one thread of the machine

    Rules for [safe]: what a thread has to do in each critical section so that
    the invariant of the whole system holds, whatever the others do in
    between. A rule for a computation [m] is about [prog_of m]. *)

From stdpp Require Import vector finite relations.
From S2P Require Import Prelude Status Requests World Queue Registry Resources Eviction.
From S2P Require Import Backends Manager Router Batch Scheduler Admission Worker WorkerProofs.
From S2P Require Import Guarantee WorkerDrain Runtime RuntimeProofs Programs Machine.
Import InferenceRequest.

#[local] Existing Instance machine_shared.
#[local] Existing Instance machine_scheduler.

(** ** Stages *)

Lemma stage_ok_evolves st r r' : evolves r r' -> stage_ok st r -> stage_ok st r'.
Proof. destruct st; simpl; [done|apply admitted_closed|apply started_closed|apply terminal_closed]. Qed.

Lemma stage_ok_le st st' r : (stage_rank st <= stage_rank st')%nat -> stage_ok st' r -> stage_ok st r.
Proof.
  destruct st, st'; simpl; try lia; try done; intros _ H.
  - by apply started_admitted.
  - by apply terminal_admitted.
  - by apply terminal_started.
Qed.

(** The thread knows at least [st] of the request. *)
Definition at_least (st : stage) (c : ghost) (l : loc) : Prop :=
  exists st', hand c !! l = Some st' /\ (stage_rank st <= stage_rank st')%nat.

Definition set_hand (m : gmap loc stage) (c : ghost) : ghost := mkGhost m (paid c) (over c) (slot c).

(** The thread learns [st] of the request. *)
Definition raise (l : loc) (st : stage) (c : ghost) : ghost :=
  match hand c !! l with
  | Some st' => if decide (stage_rank st <= stage_rank st')%nat then c else set_hand (<[l := st]> (hand c)) c
  | None => set_hand (<[l := st]> (hand c)) c
  end.

(** It hands the request on. *)
Definition release (l : loc) (c : ghost) : ghost := set_hand (<[l := Known]> (hand c)) c.

Definition pay (k : nat) (c : ghost) : ghost := mkGhost (hand c) k (over c) (slot c).

Definition retire (c : ghost) : ghost := mkGhost (hand c) (paid c) true (slot c).

Definition set_slot (b : bool) (c : ghost) : ghost := mkGhost (hand c) (paid c) (over c) b.

(** A request that was put into a queue is no longer a duty. *)
Definition handed (l : loc) (c : ghost) : ghost :=
  if decide (hand c !! l = Some Held) then release l c else c.

Lemma raise_hand l st c :
  (hand (raise l st c) = hand c /\ at_least st c l) \/
  (hand (raise l st c) = <[l := st]> (hand c) /\
   forall st', hand c !! l = Some st' -> (stage_rank st' < stage_rank st)%nat).
Proof.
  unfold raise. destruct (hand c !! l) as [st'|] eqn:Hl; [|by right].
  destruct (decide _); [left|right; simpl; split; [done|]; intros st0 [= <-]; lia].
  split; [done|]. by exists st'.
Qed.

Lemma raise_paid l st c : paid (raise l st c) = paid c.
Proof. unfold raise. repeat case_match; done. Qed.
Lemma raise_over l st c : over (raise l st c) = over c.
Proof. unfold raise. repeat case_match; done. Qed.
Lemma raise_slot l st c : slot (raise l st c) = slot c.
Proof. unfold raise. repeat case_match; done. Qed.

Lemma raise_at_least l st c : at_least st (raise l st c) l.
Proof.
  destruct (raise_hand l st c) as [[Hh Ha]|[Hh _]]; unfold at_least; rewrite Hh; [done|].
  exists st. by rewrite lookup_insert_eq.
Qed.

Lemma raise_lookup l st c :
  exists s, hand (raise l st c) !! l = Some s /\ (s = st \/ hand c !! l = Some s) /\
    (stage_rank st <= stage_rank s)%nat /\
    forall s0, hand c !! l = Some s0 -> (stage_rank s0 <= stage_rank s)%nat.
Proof.
  destruct (raise_hand l st c) as [[Hh (s & Hs & Hr)]|[Hh Hlt]]; rewrite Hh.
  - exists s. split; [done|]. split; [by right|]. split; [done|]. intros s0 ?. by simplify_eq.
  - exists st. rewrite lookup_insert_eq. split; [done|]. split; [by left|]. split; [done|].
    intros s0 Hs. specialize (Hlt s0 Hs). lia.
Qed.

Lemma raise_other l st c l' : l' <> l -> hand (raise l st c) !! l' = hand c !! l'.
Proof. intros Hne. destruct (raise_hand l st c) as [[-> _]|[-> _]]; [done|]. by apply lookup_insert_ne. Qed.

Lemma raise_mono l st c l' st' : at_least st' c l' -> at_least st' (raise l st c) l'.
Proof.
  intros (s0 & Hs & Hr). destruct (raise_hand l st c) as [[Hh _]|[Hh Hlt]]; unfold at_least; rewrite Hh; [by exists s0|].
  destruct (decide (l = l')) as [->|Hne]; [|exists s0; by rewrite lookup_insert_ne].
  exists st. rewrite lookup_insert_eq. split; [done|]. specialize (Hlt s0 Hs). lia.
Qed.

Lemma at_least_le st st' c l : (stage_rank st <= stage_rank st')%nat -> at_least st' c l -> at_least st c l.
Proof. intros Hle (s & Hs & Hr). exists s. split; [done|lia]. Qed.

Lemma owns_at_least c l : owns c l -> at_least Held c l.
Proof. intros (st & Hst & [->| ->]); eexists; (split; [exact Hst|simpl; lia]). Qed.

Lemma ended_not_owned c l : at_least Ended c l -> ~ owns c l.
Proof. intros (s & Hs & Hr) (st & Hst & Hd). simplify_eq. destruct Hd as [-> | ->]; simpl in Hr; lia. Qed.

(** The thread has no more duties than before and knows no less. *)
Record calmer (c c' : ghost) : Prop := {
  calmer_paid : paid c' = paid c;
  calmer_over : over c' = over c;
  calmer_slot : slot c' = slot c;
  calmer_knows l st : at_least st c l -> at_least st c' l;
  calmer_owns l : owns c' l -> owns c l
}.

#[export] Instance calmer_preorder : PreOrder calmer.
Proof.
  split; [by split|]. intros c1 c2 c3 [Hp Ho Hs Hk Hw] [Hp' Ho' Hs' Hk' Hw'].
  split; [congruence|congruence|congruence|auto|auto].
Qed.

Lemma calmer_raise l st c : (duty st -> at_least Held c l) -> calmer c (raise l st c).
Proof.
  intros Hd. split; [apply raise_paid|apply raise_over|apply raise_slot|by intros; apply raise_mono|].
  intros l' (s & Hs & Hduty). destruct (raise_hand l st c) as [[Hh _]|[Hh Hlt]]; rewrite Hh in Hs; [by exists s|].
  destruct (decide (l = l')) as [->|Hne]; [|exists s; by rewrite lookup_insert_ne in Hs].
  rewrite lookup_insert_eq in Hs. injection Hs as ->. destruct (Hd Hduty) as (s0 & Hs0 & Hr0).
  specialize (Hlt s0 Hs0). exists s0. split; [done|].
  destruct s0; simpl in *; [lia|by left|by right|destruct Hduty as [-> | ->]; simpl in Hlt; lia].
Qed.

Section logic.
Context {R B : Type} {n : nat} `{!IWorkerRouter R} `{!IModelBackend B} `{HO : !HashOrder}.
Notation X := (FifoRuntime R B n).
Implicit Types (x : X) (g : gmap (tid n) ghost) (h : gmap loc InferenceRequest.t) (c : ghost) (i : tid n).

(** ** Structural rules *)

Lemma safe_mono i {A} (p : prog X A) (Q Q' : A -> ghost -> Prop) (E E' : exn -> ghost -> Prop) c :
  (forall a c, Q a c -> Q' a c) -> (forall e c, E e c -> E' e c) -> safe i p Q E c -> safe i p Q' E' c.
Proof.
  intros HQ HE. revert Q Q' c HQ. induction p as [A a|A e|A k IH|A T cond f k IH|A T cond d f k IH|A T f l k IH|A l ns k IH|A T fuel body IHb k IH];
    intros Q Q' c HQ; simpl; eauto.
  - intros H g h x Hi Hc Hx. destruct (H g h x Hi Hc Hx) as (c' & Hm & Hs). eauto.
  - intros H g h x b Hi Hc Hx. destruct (H g h x b Hi Hc Hx) as (c' & Hm & Hs). eauto.
  - intros H g h x Hi Hc. specialize (H g h x Hi Hc). destruct (h !! l) as [r|]; [|by eapply IH].
    destruct H as (c' & Hm & Hs). eauto.
  - intros (I & HI & Hround). exists I. split; [done|]. intros c0 H0. destruct (Hround c0 H0) as [Hp Hb].
    split; [done|]. eapply IHb, Hb. intros [a|] c'; [|done]. by apply IH.
Qed.

Lemma safe_prog_bind i {A B'} (p : prog X A) (g : A -> prog X B') Q E c :
  safe i p (fun a => safe i (g a) Q E) E c -> safe i (prog_bind p g) Q E c.
Proof.
  revert c. induction p as [A a|A e|A k IH|A T cond f k IH|A T cond d f k IH|A T f l k IH|A l ns k IH|A T fuel body _ k IH];
    intros c; simpl; eauto.
  - intros H g0 h x Hi Hc Hx. destruct (H g0 h x Hi Hc Hx) as (c' & Hm & Hs). eauto.
  - intros H g0 h x b Hi Hc Hx. destruct (H g0 h x b Hi Hc Hx) as (c' & Hm & Hs). eauto.
  - intros H g0 h x Hi Hc. specialize (H g0 h x Hi Hc). destruct (h !! l) as [r|]; [|by apply IH].
    destruct H as (c' & Hm & Hs). eauto.
  - intros (I & HI & Hround). exists I. split; [done|]. intros c0 H0. destruct (Hround c0 H0) as [Hp Hb].
    split; [done|]. eapply safe_mono; [|done|exact Hb]. intros [a|] c'; [|done]. by apply IH.
Qed.

(** Exceptions become values. *)
Lemma safe_try i {A} (p : prog X A) Q E E' c :
  safe i p Q E c -> safe i (prog_try p) (fun r => match r with inl a => Q a | inr e => E e end) E' c.
Proof.
  revert Q E E' c. induction p as [A a|A e|A k IH|A T cond f k IH|A T cond d f k IH|A T f l k IH|A l ns k IH|A T fuel body IHb k IH];
    intros Q E E' c; simpl; eauto.
  - intros H g h x Hi Hc Hx. destruct (H g h x Hi Hc Hx) as (c' & Hm & Hs). eauto.
  - intros H g h x b Hi Hc Hx. destruct (H g h x b Hi Hc Hx) as (c' & Hm & Hs). eauto.
  - intros H g h x Hi Hc. specialize (H g h x Hi Hc). destruct (h !! l) as [r|]; [|by apply IH].
    destruct H as (c' & Hm & Hs). eauto.
  - intros (I & HI & Hround). exists I. split; [done|]. intros c0 H0. destruct (Hround c0 H0) as [Hp Hb].
    split; [done|]. apply safe_prog_bind. eapply safe_mono; [|done|exact (IHb _ _ E' _ Hb)].
    intros [[a|]|e] c'; simpl; [by apply IH|done|done].
Qed.

Lemma safe_catch i {A} (p : prog X A) (k : exn -> prog X A) Q E c :
  safe i p Q (fun e => safe i (k e) Q E) c -> safe i (prog_catch p k) Q E c.
Proof.
  intros H. apply safe_prog_bind. eapply safe_mono; [|done|exact (safe_try i p _ _ E c H)]. by intros [a|e] c'.
Qed.

(** A loop with an invariant. *)
Lemma safe_loop i {A} fuel (m : nat -> M X A) round (Hr : Program round) Hm (I : ghost -> Prop) Q E c :
  I c -> (forall c0, I c0 -> (1 <= paid c0)%nat /\
    safe i (prog_of round) (fun o c' => match o with Some a => Q a c' | None => I c' end) E (spend c0)) ->
  safe i (prog_of (Program := program_loop fuel m round Hr Hm) (fun w => m (fuel w) w)) Q E c.
Proof. intros HI Hround. by exists I. Qed.

(** ** Critical sections on requests *)

(** What the thread may rely on when it looks at the request. *)
Definition fits (c : ghost) (l : loc) (r : InferenceRequest.t) : Prop := forall st, at_least st c l -> stage_ok st r.

Lemma inv_fits g h x i c l r : inv g h x -> g !! i = Some c -> h !! l = Some r -> fits c l r.
Proof.
  intros Hi Hc Hl st (s & Hs & Hr). destruct (inv_hands _ _ _ Hi i c l s Hc Hs) as (r' & Hr' & Hok).
  simplify_eq. by eapply stage_ok_le.
Qed.

Lemma inv_known g h x i c l : inv g h x -> g !! i = Some c -> at_least Known c l -> is_Some (h !! l).
Proof. intros Hi Hc (s & Hs & _). destruct (inv_hands _ _ _ Hi i c l s Hc Hs) as (r & Hr & _). by exists r. Qed.

Lemma finished_insert g i c c' j :
  g !! i = Some c -> over c' = over c -> finished (<[i := c']> g) j -> finished g j.
Proof.
  intros Hc Ho. unfold finished. destruct (decide (i = j)) as [->|Hne].
  - by rewrite lookup_insert_eq, Hc, Ho.
  - by rewrite lookup_insert_ne.
Qed.

(** The request [l] goes from [r] to [r'], the thread's knowledge of it from
    [c] to [c']. *)
Lemma inv_request g h x i c c' l r r' :
  inv g h x -> g !! i = Some c -> h !! l = Some r -> evolves r r' ->
  paid c' = paid c -> over c' = over c -> slot c' = slot c ->
  (forall l', l' <> l -> hand c' !! l' = hand c !! l') ->
  (forall st, hand c' !! l = Some st -> stage_ok st r' /\ (st = Started -> exists j, i = TWorker j)) ->
  covered (<[i := c']> g) x l r' ->
  inv (<[i := c']> g) (<[l := r']> h) x.
Proof.
  intros Hi Hc Hl Hev Hp Ho Hsl Hoth Hst Hcov. split.
  - intros l0 r0 H0. apply lookup_insert_Some in H0 as [[<- <-]|[Hne H0]]; [done|].
    pose proof (inv_cover _ _ _ Hi l0 r0 H0) as Hcv. unfold covered, owns in *.
    destruct (state_ r0); try done.
    + destruct Hcv as [?|(j & d & Hj & st & Hst' & Hd)]; [by left|right].
      destruct (decide (i = j)) as [->|Hij]; [|exists j, d; rewrite lookup_insert_ne; eauto].
      exists j, c'. rewrite lookup_insert_eq. split; [done|]. simplify_eq. exists st. by rewrite Hoth.
    + destruct Hcv as (j & d & Hj & Hst').
      destruct (decide (i = j)) as [->|Hij]; [|exists j, d; by rewrite lookup_insert_ne].
      exists j, c'. rewrite lookup_insert_eq. split; [done|]. simplify_eq. by rewrite Hoth.
  - intros p Hin. destruct (inv_pointers _ _ _ Hi p Hin) as (l0 & r0 & -> & H0 & Ha).
    destruct (decide (l = l0)) as [->|Hne]; [|exists l0, r0; by rewrite lookup_insert_ne].
    exists l0, r'. rewrite lookup_insert_eq. split; [done|]. simplify_eq. split; [done|]. by eapply admitted_closed.
  - intros j d l0 st Hj Hs. apply lookup_insert_Some in Hj as [[<- <-]|[Hij Hj]].
    + destruct (decide (l0 = l)) as [->|Hne].
      * exists r'. rewrite lookup_insert_eq. split; [done|]. by apply Hst.
      * rewrite Hoth in Hs by done. rewrite lookup_insert_ne by done. by eapply inv_hands.
    + destruct (inv_hands _ _ _ Hi j d l0 st Hj Hs) as (r0 & H0 & Hok).
      destruct (decide (l = l0)) as [->|Hne]; [|exists r0; by rewrite lookup_insert_ne].
      exists r'. rewrite lookup_insert_eq. split; [done|]. simplify_eq. by eapply stage_ok_evolves.
  - intros j d l0 Hj Hs. apply lookup_insert_Some in Hj as [[<- <-]|[Hij Hj]]; [|by eapply inv_started].
    destruct (decide (l0 = l)) as [->|Hne]; [by eapply Hst|]. rewrite Hoth in Hs by done. by eapply inv_started.
  - intros j d Hj. apply lookup_insert_Some in Hj as [[<- <-]|[Hij Hj]]; [|by eapply inv_paid].
    rewrite Hp. by eapply inv_paid.
  - intros j Hj. apply (inv_over _ _ _ Hi). by eapply finished_insert.
  - intros j d Hj Hs. apply lookup_insert_Some in Hj as [[-> <-]|[Hij Hj]]; [|by eapply inv_slot].
    rewrite Hsl in Hs. by eapply inv_slot.
Qed.

Lemma covered_raise g x i c l r r' st s :
  g !! i = Some c -> covered g x l r -> hand (raise l st c) !! l = Some s -> stage_ok s r' ->
  calm r r' \/ (state_ r' = Queued /\ st = Held) \/ (state_ r' = Running /\ st = Started) ->
  covered (<[i := raise l st c]> g) x l r'.
Proof.
  intros Hc Hcov Hs Hok Hcase. destruct (raise_lookup l st c) as (s' & Hs' & _ & Hle & Hup). simplify_eq.
  assert (Hnt : ~ terminal_req r' -> s <> Ended) by (by intros Hnt ->).
  assert (Hme : forall s0, hand c !! l = Some s0 -> duty s0 -> ~ terminal_req r' -> owns (raise l st c) l).
  { intros s0 H0 Hd Ht. exists s. split; [done|]. specialize (Hup s0 H0). specialize (Hnt Ht).
    destruct Hd as [-> | ->], s; simpl in Hup; try lia; try done; first [by left|by right]. }
  unfold covered in *. destruct (state_ r') eqn:Est; try done.
  - assert (Ht : ~ terminal_req r') by (unfold terminal_req, is_terminal; by rewrite Est).
    destruct Hcase as [[Heq|?]|[[_ ->]|[? _]]]; [|done| |done].
    + rewrite <- Heq, Est in Hcov. destruct Hcov as [?|(j & d & Hj & s0 & H0 & Hd)]; [by left|right].
      destruct (decide (i = j)) as [->|Hne]; [|exists j, d; rewrite lookup_insert_ne by done; split; [done|]; by exists s0].
      exists j, (raise l st c). rewrite lookup_insert_eq. split; [done|]. simplify_eq. by eapply Hme.
    + right. exists i, (raise l Held c). rewrite lookup_insert_eq. split; [done|]. exists s. split; [done|].
      specialize (Hnt Ht). destruct s; simpl in Hle; try lia; try done; first [by left|by right].
  - assert (Ht : ~ terminal_req r') by (unfold terminal_req, is_terminal; by rewrite Est).
    specialize (Hnt Ht). destruct Hcase as [[Heq|?]|[[? _]|[_ ->]]]; [|done|done|].
    + rewrite <- Heq, Est in Hcov. destruct Hcov as (j & d & Hj & H0).
      destruct (decide (i = j)) as [->|Hne]; [|exists j, d; by rewrite lookup_insert_ne].
      exists j, (raise l st c). rewrite lookup_insert_eq. split; [done|]. simplify_eq. specialize (Hup Started H0).
      rewrite Hs. destruct s; simpl in Hup; try lia; done.
    + exists i, (raise l Started c). rewrite lookup_insert_eq. split; [done|]. rewrite Hs.
      destruct s; simpl in Hle; try lia; done.
Qed.

Lemma steady_refl i x : steady i x x.
Proof. intros k. by split; [|left]. Qed.

Lemma moves_raise g h x i c l r r' st :
  inv g h x -> g !! i = Some c -> h !! l = Some r -> evolves r r' -> at_least Known c l -> stage_ok st r' ->
  (st = Started -> exists j, i = TWorker j) ->
  calm r r' \/ (state_ r' = Queued /\ st = Held) \/ (state_ r' = Running /\ st = Started) ->
  moves i g c (raise l st c) (<[l := r']> h) x x.
Proof.
  intros Hi Hc Hl Hev Hk Hok Hw Hcase.
  assert (Hst : forall s, hand (raise l st c) !! l = Some s -> stage_ok s r' /\ (s = Started -> exists j, i = TWorker j)).
  { intros s Hs. destruct (raise_lookup l st c) as (s' & Hs' & [->|H0] & _ & _); simplify_eq; [done|].
    split; [|intros ->; by eapply inv_started]. destruct (inv_hands _ _ _ Hi i c l s Hc H0) as (r0 & ? & ?).
    simplify_eq. by eapply stage_ok_evolves. }
  split; [|split; [|split; [|apply steady_refl]]].
  - apply (inv_request g h x i c _ l r r'); [done..|apply raise_paid|apply raise_over|apply raise_slot|apply raise_other|exact Hst|].
    destruct (raise_lookup l st c) as (s & Hs & _). eapply covered_raise; [done|by eapply inv_cover|done|by apply Hst|done].
  - intros Hcl. split; [done|]. rewrite raise_paid. lia.
  - intros l' Hl'. left. destruct (decide (l' = l)) as [->|Hne]; [|by rewrite raise_other in Hl'].
    destruct Hk as (s & ? & _). by exists s.
Qed.

(** A request that is running is in the hands of a worker that started it. *)
Lemma moves_release g h x i c l r r' :
  inv g h x -> g !! i = Some c -> h !! l = Some r -> evolves r r' -> hand c !! l = Some Held ->
  calm r r' -> terminal_req r' \/ state_ r' = Running ->
  moves i g c (release l c) (<[l := r']> h) x x.
Proof.
  intros Hi Hc Hl Hev Hk Hcalm Hr'. split; [|split; [|split; [|apply steady_refl]]].
  - apply (inv_request g h x i c _ l r r'); [done..| | |].
    + intros l' Hne. simpl. by rewrite lookup_insert_ne.
    + intros st. simpl. rewrite lookup_insert_eq. by intros [= <-].
    + pose proof (inv_cover _ _ _ Hi l r Hl) as Hcov. unfold covered in *.
      destruct Hr' as [Ht|Hrun]; [unfold terminal_req, is_terminal in Ht; by destruct (state_ r')|].
      rewrite Hrun. destruct Hcalm as [Heq|Ht]; [|unfold terminal_req, is_terminal in Ht; by rewrite Hrun in Ht].
      rewrite <- Heq, Hrun in Hcov. destruct Hcov as (j & d & Hj & H0).
      destruct (decide (i = j)) as [->|Hne]; [by simplify_eq|]. exists j, d. by rewrite lookup_insert_ne.
  - intros Hcl. split; [done|]. simpl. lia.
  - intros l' Hl'. left. destruct (decide (l' = l)) as [->|Hne]; [by eexists|]. simpl in Hl'. by rewrite lookup_insert_ne in Hl'.
Qed.

(** *** Rules *)

Lemma safe_inspect i {A} (f : InferenceRequest.t -> A) l Q E c :
  at_least Known c l ->
  (forall r, fits c l r -> exists st, stage_ok st r /\ (st = Started -> exists j, i = TWorker j) /\ Q (f r) (raise l st c)) ->
  safe i (prog_of (inspect (X := X) f l)) Q E c.
Proof.
  intros Hk HQ g h x Hi Hc. destruct (inv_known g h x i c l Hi Hc Hk) as [r Hr]. rewrite Hr.
  destruct (HQ r (inv_fits g h x i c l r Hi Hc Hr)) as (st & Hok & Hw & HQ').
  exists (raise l st c). split; [|done]. apply (moves_raise g h x i c l r r st); try done. by left; left.
Qed.

Lemma safe_mutate i {A} (f : InferenceRequest.t -> A * (InferenceRequest.t * list notification)) `{!Evolving f} l Q E c :
  at_least Known c l ->
  (forall r, fits c l r -> exists st, stage_ok st (f r).2.1 /\ (st = Started -> exists j, i = TWorker j) /\
     (calm r (f r).2.1 \/ (state_ (f r).2.1 = Queued /\ st = Held) \/ (state_ (f r).2.1 = Running /\ st = Started)) /\
     Q (f r).1 (raise l st c)) ->
  safe i (prog_of (mutate (X := X) f l)) Q E c.
Proof.
  intros Hk HQ g h x Hi Hc. destruct (inv_known g h x i c l Hi Hc Hk) as [r Hr]. rewrite Hr.
  destruct (HQ r (inv_fits g h x i c l r Hi Hc Hr)) as (st & Hok & Hw & Hcase & HQ').
  exists (raise l st c). split; [|done]. apply (moves_raise g h x i c l r _ st); try done.
Qed.

(** The request ends, or is running and so not this thread's to end. *)
Lemma safe_dismiss i {A} (f : InferenceRequest.t -> A * (InferenceRequest.t * list notification)) `{!Evolving f} `{!Calm f} l Q E c :
  hand c !! l = Some Held ->
  (forall r, admitted r -> terminal_req (f r).2.1 \/ state_ (f r).2.1 = Running) ->
  (forall a, Q a (release l c)) ->
  safe i (prog_of (mutate (X := X) f l)) Q E c.
Proof.
  intros Hk Hf HQ g h x Hi Hc. destruct (inv_hands _ _ _ Hi i c l Held Hc Hk) as (r & Hr & Ha). rewrite Hr.
  exists (release l c). split; [|apply HQ]. apply (moves_release g h x i c l r); [done|done|done|apply Evolving0|done|apply Calm0|by apply Hf].
Qed.

(** ** Critical sections on the shared state *)

Lemma concat_but {A C} (f f' : A -> list C) (a : A) (l : list A) :
  NoDup l -> a ∈ l -> (forall b, b <> a -> f' b = f b) ->
  exists rest, concat (f <$> l) ≡ₚ f a ++ rest /\ concat (f' <$> l) ≡ₚ f' a ++ rest.
Proof.
  intros Hnd Hin Hf. induction Hnd as [|b l Hb Hnd IH]; [by apply elem_of_nil in Hin|].
  apply elem_of_cons in Hin as [->|Hin]; csimpl.
  - exists (concat (f <$> l)). split; [done|]. f_equiv. apply reflexive_eq. f_equal. apply list_fmap_ext.
    intros k b' Hk. apply Hf. intros ->. apply Hb. by eapply list_elem_of_lookup_2.
  - destruct (IH Hin) as (rest & H1 & H2). exists (f b ++ rest). rewrite H1, H2, (Hf b) by (by intros ->).
    split; by rewrite !(assoc_L (++)), (comm (++) (f b)).
Qed.

(** Two states that differ in one worker, or in the scheduler. *)
Definition but_worker (j : fin n) x x' : Prop :=
  Runtime.scheduler_ x' = Runtime.scheduler_ x /\
  forall k, k <> j -> Runtime.workers_ x' !!! k = Runtime.workers_ x !!! k.

Definition but_scheduler x x' : Prop := Runtime.workers_ x' = Runtime.workers_ x.

Lemma worker_here j f x : Runtime.workers_ (Runtime.over_worker j f x) !!! j = f (Runtime.workers_ x !!! j).
Proof. apply vlookup_insert. Qed.

Lemma worker_there j k f x :
  k <> j -> Runtime.workers_ (Runtime.over_worker j f x) !!! k = Runtime.workers_ x !!! k.
Proof. intros Hne. by apply vlookup_insert_ne. Qed.

Lemma but_over j f x : but_worker j x (Runtime.over_worker j f x).
Proof. split; [done|]. intros k. apply worker_there. Qed.

Lemma pointers_worker j x x' ins outs :
  but_worker j x x' ->
  ins ++ worker_pointers (Runtime.workers_ x !!! j) ≡ₚ outs ++ worker_pointers (Runtime.workers_ x' !!! j) ->
  ins ++ pointers x ≡ₚ outs ++ pointers x'.
Proof.
  intros [Hs Hk] Hp. unfold pointers. rewrite Hs.
  destruct (concat_but (fun k => worker_pointers (Runtime.workers_ x !!! k))
    (fun k => worker_pointers (Runtime.workers_ x' !!! k)) j (enum (fin n)) (NoDup_enum _) (elem_of_enum _))
    as (rest & H1 & H2); [intros k Hne; by rewrite Hk|]. cbv beta in H1, H2. rewrite H1, H2.
  rewrite (Permutation_app_swap_app ins), (Permutation_app_swap_app outs).
  by rewrite (assoc_L (++) ins), (assoc_L (++) outs), Hp.
Qed.

Lemma pointers_scheduler x x' ins outs :
  but_scheduler x x' ->
  ins ++ BoundedQueue.queue_ (Runtime.scheduler_ x) ≡ₚ outs ++ BoundedQueue.queue_ (Runtime.scheduler_ x') ->
  ins ++ pointers x ≡ₚ outs ++ pointers x'.
Proof. intros Hw Hp. unfold pointers. rewrite Hw, !(assoc_L (++)). by rewrite Hp. Qed.

(** Only the thread's own queue may be refilled. *)
Lemma drained_but_worker j x x' k :
  but_worker j x x' -> k <> TWorker j -> drained_for k x -> drained_for k x'.
Proof.
  intros [Hs Hw] Hne. destruct k as [|k|]; simpl; [|rewrite Hw; [done|congruence]|done].
  unfold sched_closed. by rewrite Hs.
Qed.

Lemma drained_but_scheduler x x' k : but_scheduler x x' -> k <> TRouting -> drained_for k x -> drained_for k x'.
Proof. intros Hw Hne. destruct k as [|k|]; simpl; [done| |done]. by rewrite Hw. Qed.

Lemma inv_shared g h x x' i c c' ins outs :
  inv g h x -> g !! i = Some c -> ins ++ pointers x ≡ₚ outs ++ pointers x' ->
  (forall p, p ∈ ins -> exists l, p = Some l /\ at_least Held c l) ->
  (forall l st, hand c' !! l = Some st ->
     hand c !! l = Some st \/ (st = Held /\ Some l ∈ outs) \/ (st = Known /\ is_Some (hand c !! l))) ->
  (forall l, owns c l -> owns c' l \/ Some l ∈ ins) ->
  (forall l, hand c !! l = Some Started -> hand c' !! l = Some Started) ->
  (forall l, Some l ∈ outs -> owns c' l \/ at_least Ended c l) ->
  (paid c' <= limit i)%nat -> over c' = over c -> (forall k, finished g k -> drained_for k x -> drained_for k x') ->
  (forall j, i <> TWorker j -> Worker.deferred_ (Runtime.workers_ x' !!! j) = Worker.deferred_ (Runtime.workers_ x !!! j)) ->
  (forall j, i = TWorker j -> slot c' = true -> Worker.deferred_ (Runtime.workers_ x' !!! j) = None) ->
  inv (<[i := c']> g) h x'.
Proof.
  intros Hi Hc Hperm Hins Hhand Howns Hsta Houts Hpaid Hover Hdr Hdef Hslot.
  assert (Hin : forall p, p ∈ ins \/ p ∈ pointers x <-> p ∈ outs \/ p ∈ pointers x').
  { intros p. rewrite <- !elem_of_app. by rewrite Hperm. }
  assert (Hout : forall l r, h !! l = Some r -> state_ r = Queued -> Some l ∈ outs \/ Some l ∈ pointers x' ->
    Some l ∈ pointers x' \/ exists j d, <[i := c']> g !! j = Some d /\ owns d l).
  { intros l r Hl Hq [Ho|?]; [|by left]. right. destruct (Houts l Ho) as [?|He].
    - exists i, c'. by rewrite lookup_insert_eq.
    - specialize (inv_fits g h x i c l r Hi Hc Hl Ended He). simpl. unfold terminal_req, is_terminal. by rewrite Hq. }
  split.
  - intros l r Hl. pose proof (inv_cover _ _ _ Hi l r Hl) as Hcov. unfold covered in *.
    destruct (state_ r) eqn:Hst; try done.
    + destruct Hcov as [Hp|(j & d & Hj & Hd)]; [apply (Hout l r); [done..|]; apply Hin; by right|].
      destruct (decide (i = j)) as [->|Hne]; [|right; exists j, d; by rewrite lookup_insert_ne].
      simplify_eq. destruct (Howns l Hd) as [?|?]; [right; exists j, c'; by rewrite lookup_insert_eq|].
      apply (Hout l r); [done..|]. apply Hin. by left.
    + destruct Hcov as (j & d & Hj & Hd). destruct (decide (i = j)) as [->|Hne].
      * exists j, c'. rewrite lookup_insert_eq. split; [done|]. simplify_eq. by apply Hsta.
      * exists j, d. by rewrite lookup_insert_ne.
  - intros p Hp. destruct (proj2 (Hin p) (or_intror Hp)) as [Hp'|Hp']; [|by eapply inv_pointers].
    destruct (Hins p Hp') as (l & -> & s & Hs & Hle).
    destruct (inv_hands _ _ _ Hi i c l s Hc Hs) as (r & Hr & Hok). exists l, r. split; [done|]. split; [done|].
    by apply (stage_ok_le Held s).
  - intros j d l st Hj Hs. apply lookup_insert_Some in Hj as [[<- <-]|[Hne Hj]]; [|by eapply inv_hands].
    destruct (Hhand l st Hs) as [H0|[[-> Ho]|[-> [s H0]]]].
    + by eapply inv_hands.
    + destruct (proj2 (Hin (Some l)) (or_introl Ho)) as [Hp|Hp].
      * destruct (Hins _ Hp) as (l' & [= <-] & s & H0 & Hle).
        destruct (inv_hands _ _ _ Hi i c l s Hc H0) as (r & Hr & Hok). exists r. split; [done|]. by apply (stage_ok_le Held s).
      * destruct (inv_pointers _ _ _ Hi _ Hp) as (l' & r & [= <-] & Hr & Ha). by exists r.
    + destruct (inv_hands _ _ _ Hi i c l s Hc H0) as (r & Hr & _). by exists r.
  - intros j d l Hj Hs. apply lookup_insert_Some in Hj as [[<- <-]|[Hne Hj]]; [|by eapply inv_started].
    destruct (Hhand l Started Hs) as [H0|[[? _]|[? _]]]; [|done..]. by eapply inv_started.
  - intros j d Hj. apply lookup_insert_Some in Hj as [[<- <-]|[Hne Hj]]; [done|by eapply inv_paid].
  - intros k Hk. eapply finished_insert in Hk; [|done|done]. apply Hdr; [done|]. by apply (inv_over _ _ _ Hi).
  - intros j d Hj Hs. apply lookup_insert_Some in Hj as [[-> <-]|[Hne Hj]]; [by apply Hslot|].
    rewrite Hdef by done. by eapply inv_slot.
Qed.

(** *** Changes that move no pointer *)

Definition neutral x x' : Prop :=
  Runtime.scheduler_ x' = Runtime.scheduler_ x /\ handle TRouting x' = handle TRouting x /\
  forall j, Worker.lane_ (Runtime.workers_ x' !!! j) = Worker.lane_ (Runtime.workers_ x !!! j) /\
            Worker.deferred_ (Runtime.workers_ x' !!! j) = Worker.deferred_ (Runtime.workers_ x !!! j) /\
            handle (TWorker j) x' = handle (TWorker j) x.

Lemma neutral_pointers x x' : neutral x x' -> pointers x' = pointers x.
Proof.
  intros (Hs & _ & Hw). unfold pointers. rewrite Hs. f_equal. f_equal. apply list_fmap_ext. intros _ j _.
  destruct (Hw j) as (Hl & Hd & _). unfold worker_pointers. by rewrite Hl, Hd.
Qed.

Lemma neutral_drained x x' k : neutral x x' -> drained_for k x -> drained_for k x'.
Proof.
  intros (Hs & _ & Hw). destruct k as [|j|]; simpl; [unfold sched_closed; by rewrite Hs| |done].
  destruct (Hw j) as (Hl & Hd & _). unfold drained. by rewrite Hl, Hd.
Qed.

Lemma neutral_steady i x x' : neutral x x' -> steady i x x'.
Proof.
  intros (Hs & Hr & Hw) [|j|m]; [..|by split; [|left]].
  - split; [|by left]. simpl. unfold sched_closed. by rewrite Hs.
  - destruct (Hw j) as (Hl & _ & Hh). split; [|by left]. simpl. unfold closed_lane_of. by rewrite Hl.
Qed.


(** One queue changes, and is not opened. *)
Lemma steady_scheduler i (f : BoundedQueue.t RequestPtr -> BoundedQueue.t RequestPtr) x :
  (sched_closed x -> BoundedQueue.closed_ (f (Runtime.scheduler_ x)) = true) -> steady i x (Runtime.over_scheduler f x).
Proof. intros Hf [|j|m]; (split; [done|by left]). Qed.

Lemma steady_worker i j (f : Worker.t B -> Worker.t B) x :
  (closed_lane_of j x -> BoundedQueue.closed_ (Worker.lane_ (f (Runtime.workers_ x !!! j))) = true) ->
  Worker.thread_ (f (Runtime.workers_ x !!! j)) = Worker.thread_ (Runtime.workers_ x !!! j) ->
  steady i x (Runtime.over_worker j f x).
Proof.
  intros Hf Hh [|k|m]; [by split; [|left]| |by split; [|left]]. unfold closing, closed_lane_of, handle.
  destruct (decide (k = j)) as [->|Hne]; [rewrite worker_here, Hh|rewrite worker_there by done]; by split; [|left].
Qed.

(** Changes that move no pointer and open nothing. *)
Record still i x x' : Prop := {
  still_pointers : pointers x' = pointers x;
  still_queue : BoundedQueue.queue_ (Runtime.scheduler_ x') = BoundedQueue.queue_ (Runtime.scheduler_ x);
  still_steady : steady i x x';
  still_drained k : drained_for k x -> drained_for k x';
  still_deferred j : Worker.deferred_ (Runtime.workers_ x' !!! j) = Worker.deferred_ (Runtime.workers_ x !!! j)
}.

Lemma neutral_still i x x' : neutral x x' -> still i x x'.
Proof.
  intros Hn. split; [by apply neutral_pointers|by rewrite (proj1 Hn)|by apply neutral_steady|by intros k; apply neutral_drained|apply Hn].
Qed.

Lemma moves_still g h x x' i c : inv g h x -> g !! i = Some c -> still i x x' -> moves i g c c h x x'.
Proof.
  intros Hi Hc [Hpt Hq Hst Hdr Hdef]. split; [|split; [|split; [|done]]].
  - apply (inv_shared g h x x' i c c [] []); try done.
    + by rewrite Hpt.
    + by intros p ?%elem_of_nil.
    + by intros l st; left.
    + by intros l Hl; left.
    + by intros l ?%elem_of_nil.
    + by eapply inv_paid.
    + intros k _. apply Hdr.
    + intros j -> Hsl. rewrite Hdef. by eapply inv_slot.
  - unfold backlog. rewrite Hpt, Hq. intros Hx. split; [by apply (Hst TRouting)|lia].
  - by left.
Qed.

Lemma moves_neutral g h x x' i c : inv g h x -> g !! i = Some c -> neutral x x' -> moves i g c c h x x'.
Proof. intros Hi Hc Hn. apply moves_still; [done|done|]. by apply neutral_still. Qed.

Lemma safe_still i {A} (f : X -> A * X) Q E c :
  (forall x, still i x (f x).2) -> (forall x, Q (f x).1 c) -> safe i (prog_of (atomically f)) Q E c.
Proof. intros Hf HQ g h x Hi Hc _. exists c. split; [|apply HQ]. by apply moves_still. Qed.

Lemma safe_neutral i {A} (f : X -> A * X) Q E c :
  (forall x, neutral x (f x).2) -> (forall x, Q (f x).1 c) -> safe i (prog_of (atomically f)) Q E c.
Proof.
  intros Hf HQ g h x Hi Hc _. exists c. split; [|apply HQ]. by apply moves_neutral.
Qed.

Lemma neutral_worker j f x : side_field f -> neutral x (Runtime.over_worker j f x).
Proof.
  intros Hf. split; [done|]. split; [done|]. intros k. unfold handle.
  destruct (decide (k = j)) as [->|Hne]; [|by rewrite worker_there]. rewrite worker_here. apply Hf.
Qed.

Lemma safe_reading i {A} (f : X -> A) Q E c : (forall x, Q (f x) c) -> safe i (prog_of (reading f)) Q E c.
Proof. intros HQ. apply safe_neutral; [|done]. by intros x. Qed.

Lemma safe_put i j f Q E c :
  side_field f -> Q tt c -> safe i (prog_of (Worker.put (X := X) (Runtime.worker_of j) f)) Q E c.
Proof. intros Hf HQ. apply safe_neutral; [|done]. intros x. by apply neutral_worker. Qed.

Lemma safe_get i j {A} (f : Worker.t B -> A) Q E c :
  (forall a, Q a c) -> safe i (prog_of (Worker.get (X := X) (Runtime.worker_of j) f)) Q E c.
Proof. intros HQ. apply safe_reading. intros x. apply HQ. Qed.

(** *** Taking a pointer out of a queue *)

Lemma occurrences_cons p q x x' :
  pointers x ≡ₚ p :: pointers x' ->
  occurrences q x = ((if decide (p = q) then 1 else 0) + occurrences q x')%nat.
Proof.
  intros Hp. unfold occurrences. rewrite Hp, filter_cons. by destruct (decide (p = q)).
Qed.

Lemma owns_raise_other l st c l' : l' <> l -> owns c l' -> owns (raise l st c) l'.
Proof. intros Hne (s & Hs & Hd). exists s. by rewrite raise_other. Qed.

Lemma raise_held c l :
  (owns (raise l Held c) l \/ at_least Ended c l) /\
  (forall l' st, hand (raise l Held c) !! l' = Some st -> hand c !! l' = Some st \/ (st = Held /\ l' = l)) /\
  (forall l', owns c l' -> owns (raise l Held c) l') /\
  (forall l', hand c !! l' = Some Started -> hand (raise l Held c) !! l' = Some Started).
Proof.
  destruct (raise_hand l Held c) as [[Hh (s & Hs & Hr)]|[Hh Hlt]]; unfold owns; rewrite Hh.
  - split; [|by eauto]. destruct s; simpl in Hr; [lia| | |right; by exists Ended].
    + left. exists Held. split; [done|by left].
    + left. exists Started. split; [done|by right].
  - split; [left; exists Held; rewrite lookup_insert_eq; split; [done|by left]|]. split; [|split].
    + intros l' st H. apply lookup_insert_Some in H as [[-> <-]|[_ ?]]; auto.
    + intros l' (s & Hs & Hd). destruct (decide (l = l')) as [->|Hne]; [|exists s; by rewrite lookup_insert_ne].
      specialize (Hlt s Hs). destruct Hd as [-> | ->]; simpl in Hlt; lia.
    + intros l' Hs. rewrite lookup_insert_ne; [done|]. intros ->. specialize (Hlt _ Hs). simpl in Hlt. lia.
Qed.

Lemma moves_pop g h x x' i c l k b :
  inv g h x -> g !! i = Some c -> pointers x ≡ₚ Some l :: pointers x' -> (k <= limit i)%nat ->
  (sched_closed x -> sched_closed x' /\ (backlog x' + k <= backlog x + paid c)%nat) ->
  (forall k, finished g k -> drained_for k x -> drained_for k x') ->
  (forall j, i <> TWorker j -> Worker.deferred_ (Runtime.workers_ x' !!! j) = Worker.deferred_ (Runtime.workers_ x !!! j)) ->
  (forall j, i = TWorker j -> b = true -> Worker.deferred_ (Runtime.workers_ x' !!! j) = None) ->
  steady i x x' ->
  moves i g c (set_slot b (pay k (raise l Held c))) h x x'.
Proof.
  intros Hi Hc Hp Hk Hcl Hdr Hdef Hslot Hsteady. destruct (raise_held c l) as (Hown & Hhand & Howns & Hsta).
  split; [|split; [done|split; [|done]]].
  - apply (inv_shared g h x x' i c _ [] [Some l]); try done.
    + by intros p ?%elem_of_nil.
    + intros l' st H. destruct (Hhand l' st H) as [?|[-> ->]]; [by left|right; left].
      split; [done|]. by apply list_elem_of_singleton.
    + intros l' Hl'. left. by apply Howns.
    + intros l' Hl'. apply list_elem_of_singleton in Hl' as [= ->]. destruct Hown; auto.
    + apply raise_over.
  - intros l' [st Hst]. simpl in Hst. destruct (Hhand l' st Hst) as [?|[_ ->]]; [left; by eexists|right].
    rewrite (occurrences_cons _ (Some l) _ _ Hp), decide_True by done. lia.
Qed.

(** *** Putting a pointer into a queue *)

Lemma handed_hand c l l' st :
  hand (handed l c) !! l' = Some st -> hand c !! l' = Some st \/ (st = Known /\ is_Some (hand c !! l')).
Proof.
  unfold handed. destruct (decide _) as [Hh|]; [|by left]. simpl. intros H.
  apply lookup_insert_Some in H as [[-> <-]|[_ ?]]; [right|by left]. split; [done|]. by eexists.
Qed.

(** The thread may keep working on the request. *)
Lemma moves_push g h x x' i c l k b (keep : bool) :
  inv g h x -> g !! i = Some c -> Some l :: pointers x ≡ₚ pointers x' -> at_least Held c l -> (k <= limit i)%nat ->
  (sched_closed x -> sched_closed x' /\ (backlog x' + k <= backlog x + paid c)%nat) ->
  (forall k, finished g k -> drained_for k x -> drained_for k x') ->
  (forall j, i <> TWorker j -> Worker.deferred_ (Runtime.workers_ x' !!! j) = Worker.deferred_ (Runtime.workers_ x !!! j)) ->
  (forall j, i = TWorker j -> b = true -> Worker.deferred_ (Runtime.workers_ x' !!! j) = None) ->
  steady i x x' ->
  moves i g c (set_slot b (pay k (if keep then c else handed l c))) h x x'.
Proof.
  intros Hi Hc Hp Hh Hk Hcl Hdr Hdef Hslot Hsteady. set (c1 := if keep then c else handed l c).
  assert (Hhand : forall l' st, hand c1 !! l' = Some st ->
    hand c !! l' = Some st \/ (st = Known /\ is_Some (hand c !! l'))).
  { intros l' st. unfold c1. destruct keep; [by left|apply handed_hand]. }
  assert (Hkeep : forall l' st, hand c !! l' = Some st -> hand c1 !! l' = Some st \/ (l' = l /\ st = Held)).
  { intros l' st Hs. unfold c1, handed. destruct keep; [by left|].
    destruct (decide (hand c !! l = Some Held)) as [Hheld|]; [|by left]. simpl.
    destruct (decide (l' = l)) as [->|Hne]; [right; by simplify_eq|left; by rewrite lookup_insert_ne]. }
  split; [|split; [done|split; [|done]]].
  - apply (inv_shared g h x x' i c _ [Some l] []); try done.
    + intros p ->%list_elem_of_singleton. by exists l.
    + intros l' st H. destruct (Hhand l' st H) as [?|?]; [by left|by right; right].
    + intros l' (s & Hs & Hd). destruct (Hkeep l' s Hs) as [?|[-> _]]; [left; by exists s|right]. by apply list_elem_of_singleton.
    + intros l' Hs. by destruct (Hkeep l' Started Hs) as [?|[_ ?]].
    + by intros l' ?%elem_of_nil.
    + unfold c1, handed. destruct keep; [done|]. by destruct (decide _).
  - intros l' [st Hst]. left. destruct (Hhand l' st Hst) as [?|[_ ?]]; [by eexists|done].
Qed.

(** *** The last turn is over *)

Lemma moves_retire g h x i c :
  inv g h x -> g !! i = Some c -> drained_for i x -> moves i g c (retire c) h x x.
Proof.
  intros Hi Hc Hd. split; [|split; [intros Hcl; split; [done|simpl; lia]|split; [by intros l; left|apply steady_refl]]].
  destruct Hi as [H1 H2 H3 H4 H5 H6 H7]. split.
  - intros l r Hl. specialize (H1 l r Hl). unfold covered in *. destruct (state_ r); try done.
    + destruct H1 as [?|(j & d & Hj & Hd')]; [by left|right]. destruct (decide (i = j)) as [->|Hne].
      * exists j, (retire c). rewrite lookup_insert_eq. by simplify_eq.
      * exists j, d. by rewrite lookup_insert_ne.
    + destruct H1 as (j & d & Hj & Hd'). destruct (decide (i = j)) as [->|Hne].
      * exists j, (retire c). rewrite lookup_insert_eq. by simplify_eq.
      * exists j, d. by rewrite lookup_insert_ne.
  - done.
  - intros j d l st Hj. apply lookup_insert_Some in Hj as [[<- <-]|[_ Hj]]; [exact (H3 i c l st Hc)|exact (H3 j d l st Hj)].
  - intros j d l Hj. apply lookup_insert_Some in Hj as [[<- <-]|[_ Hj]]; [exact (H4 i c l Hc)|exact (H4 j d l Hj)].
  - intros j d Hj. apply lookup_insert_Some in Hj as [[<- <-]|[_ Hj]]; [exact (H5 i c Hc)|exact (H5 j d Hj)].
  - intros j. unfold finished. destruct (decide (i = j)) as [->|Hne]; [done|].
    rewrite lookup_insert_ne by done. apply H6.
  - intros j d Hj. apply lookup_insert_Some in Hj as [[-> <-]|[_ Hj]]; [exact (H7 j c Hc)|exact (H7 j d Hj)].
Qed.
End logic.
