(* ===== verification/MachineRuns.v ===== *)
(** * Runs of the machine

    How the machine of [Machine.v] starts, from the constructor and
    [Runtime::start], and a function that executes chosen steps of it, so that
    concrete interleavings can be evaluated. *)

From stdpp Require Import vector finite relations.
From S2P Require Import Prelude Status Requests World Queue Registry Resources Eviction.
From S2P Require Import Backends Manager Router Batch Scheduler Admission Worker WorkerProofs.
From S2P Require Import Guarantee WorkerDrain Runtime RuntimeProofs Programs Machine MachineLogic.
Import InferenceRequest.

#[local] Existing Instance machine_shared.
#[local] Existing Instance machine_scheduler.

(** ** After construction and start *)

Section start.
Context {R B : Type} `{!IWorkerRouter R} `{!IModelBackend B} `{HO : !HashOrder}.

Lemma index_workers_list (ws : list (option (Worker.t B))) i index l index' :
  Runtime.index_workers ws i index = inr (l, index') -> ws = Some <$> l.
Proof.
  revert i index l index'. induction ws as [|[s|] ws IH]; intros i index l index'; simpl; [by intros [= <- _]| |done].
  destruct (bool_decide _); [done|]. destruct (Runtime.index_workers ws _ _) as [e|[rest idx]] eqn:E; [done|].
  intros [= <- _]. apply IH in E as ->. done.
Qed.

Definition no_work {n} (x : FifoRuntime R B n) : Prop :=
  BoundedQueue.queue_ (Runtime.scheduler_ x) = [] /\ forall i, worker_pointers (Runtime.workers_ x !!! i) = [].

Lemma no_work_pointers {n} (x : FifoRuntime R B n) : no_work x -> pointers x = [].
Proof.
  intros [Hq Hw]. unfold pointers. rewrite Hq. simpl.
  induction (fin_enum n) as [|j js IH]; [done|]. csimpl. by rewrite Hw, IH.
Qed.

(** What the constructor makes of its arguments. *)
Lemma new_fields {S} (q : S) (r : option R) (ws : list (option (Worker.t B))) reg n x :
  Runtime.new (Some q) r ws reg = inr (existT n x) ->
  Runtime.scheduler_ x = q /\ Runtime.started_ x = false /\ forall i, Some (Runtime.workers_ x !!! i) ∈ ws.
Proof.
  unfold Runtime.new. intros H. destruct r as [r|]; [|done]. destruct reg as [reg|]; [|done].
  destruct ws as [|o ws0] eqn:Ews; [done|]. rewrite <- Ews in *. clear Ews.
  destruct (Runtime.index_workers ws 0 ∅) as [e|[l index]] eqn:E; [done|].
  apply index_workers_list in E as ->.
  set (made := fun u : { n & Runtime.t S R B n } => Runtime.scheduler_ (projT2 u) = q /\
    Runtime.started_ (projT2 u) = false /\ forall i, Some (Runtime.workers_ (projT2 u) !!! i) ∈ Some <$> l).
  change (made (existT n x)).
  apply (f_equal (fun o => match o with inr u => u | inl _ => existT n x end)) in H. rewrite <- H.
  split; [done|]. split; [done|]. intros i. simpl. apply list_elem_of_fmap. eexists. split; [done|].
  assert (Hin : list_to_vec l !!! i ∈ vec_to_list (list_to_vec l)) by (apply elem_of_vlookup; by exists i).
  by rewrite vec_to_list_to_vec in Hin.
Qed.

Lemma new_no_work (q : BoundedQueue.t RequestPtr) (r : option R) (ws : list (option (Worker.t B))) reg n x :
  Runtime.new (Some q) r ws reg = inr (existT n x) -> BoundedQueue.queue_ q = [] ->
  Forall (fun o => forall s, o = Some s -> worker_pointers s = []) ws -> no_work x.
Proof.
  intros (Hs & _ & Hi)%new_fields Hq Hws. split; [by rewrite Hs|]. intros i. rewrite Forall_forall in Hws.
  by apply (Hws (Some (Runtime.workers_ x !!! i))).
Qed.

(** Before the first request. *)
Definition idle_world {n} (w : World (FifoRuntime R B n)) : Prop :=
  env w = [] /\ log w = [] /\ heap w = ∅ /\ no_work (shared w).

Lemma atomically_idle {n A} (f : FifoRuntime R B n -> A * FifoRuntime R B n) (P P' : FifoRuntime R B n -> Prop) (Q : A -> Prop) w :
  (forall x, no_work x -> P x -> no_work (f x).2 /\ P' (f x).2 /\ Q (f x).1) -> idle_world w -> P (shared w) ->
  exists a w', atomically f w = (Ret a, w') /\ idle_world w' /\ P' (shared w') /\ Q a.
Proof.
  intros Hf (He & Hg & Hh & Hn) HP. rewrite atomically_solo by done. eexists _, _. split; [done|].
  destruct (Hf _ Hn HP) as (Hn' & HP' & HQ). split; [exact (conj He (conj Hg (conj Hh Hn')))|exact (conj HP' HQ)].
Qed.

(** No worker was started and joined; those of [l] have their threads. *)
Definition threads_of {n} (l : list (fin n)) (x : FifoRuntime R B n) : Prop :=
  (forall j, Worker.started_ (Runtime.workers_ x !!! j) = true -> handle (TWorker j) x = true) /\
  forall j, j ∈ l -> handle (TWorker j) x = true.

Lemma start_worker {n} i l (w : World (FifoRuntime R B n)) :
  idle_world w -> threads_of l (shared w) ->
  exists w', Worker.start (Runtime.worker_of i) w = (Ret Status.success, w') /\ idle_world w' /\
    threads_of (i :: l) (shared w').
Proof.
  intros Hw Ht. edestruct (atomically_idle (focus (Runtime.worker_of i) (fun s : Worker.t B =>
    if Worker.started_ s then (Status.success, s)
    else (Status.success, Worker.set_thread true true (Worker.set_accepting true s))))
    (threads_of l) (threads_of (i :: l)) (fun st => st = Status.success) w) as (st & w' & Hrun & Hw' & Ht' & ->); [|done|done|by exists w'].
  intros y [Hq Hu] [Hst Hl]. unfold focus. cbn [fst snd World.over Runtime.worker_of].
  set (f := fun s : Worker.t B => _). split; [split; [done|]|split; [|by destruct (Worker.started_ _)]].
  - intros j. destruct (decide (j = i)) as [->|Hne]; [|by rewrite worker_there].
    rewrite worker_here. specialize (Hu i). unfold f. by destruct (Worker.started_ _).
  - assert (Hi : Worker.thread_ (f (Runtime.workers_ y !!! i)) = true).
    { unfold f. destruct (Worker.started_ _) eqn:E; [exact (Hst i E)|done]. }
    unfold threads_of, handle in *. split; intros j; (destruct (decide (j = i)) as [->|Hne]; [by rewrite worker_here|]);
      rewrite worker_there by done; [apply Hst|]. intros [?|Hj]%elem_of_cons; [done|by apply Hl].
Qed.

Lemma start_workers {n} l l' (w : World (FifoRuntime R B n)) :
  idle_world w -> threads_of l' (shared w) ->
  exists w', for_until (fun i =>
    status ← Worker.start (Runtime.worker_of i);
    mret (if negb (Status.ok status) then Some status else None)) l w = (Ret None, w') /\ idle_world w' /\
    threads_of (l ++ l') (shared w').
Proof.
  revert l' w. induction l as [|i l IH]; intros l' w Hw Ht; [by exists w|].
  destruct (start_worker i l' w Hw Ht) as (w1 & Hrun & Hw1 & Ht1). destruct (IH _ w1 Hw1 Ht1) as (w2 & Hl & Hw2 & Ht2).
  exists w2. split; [|split; [done|]].
  - simpl. rewrite (bind_run _ _ None w w1); [exact Hl|]. by erewrite bind_run by exact Hrun.
  - split; [apply Ht2|]. intros j Hj. apply Ht2. set_solver.
Qed.

(** Every thread at the beginning of its first turn. *)
Definition started_pool {n} (epoch : nat) : gmap (tid n) (thread (R := R) (B := B) (n := n)) :=
  list_to_map ((fun i => (i, mkThread (turn_of i epoch) ∅)) <$> fixed).

Lemma started_pool_lookup {n} epoch (i : tid n) :
  started_pool epoch !! i =
  match i with TCaller _ => None | _ => Some (mkThread (turn_of (R := R) (B := B) i epoch) ∅) end.
Proof.
  unfold started_pool. assert (Hnd : NoDup ((fun i : tid n => (i, mkThread (turn_of (R := R) (B := B) i epoch) ∅)) <$> fixed).*1).
  { rewrite <- list_fmap_compose. rewrite (list_fmap_ext _ id); [|done]. rewrite list_fmap_id.
    constructor; [by intros (j & ? & _)%list_elem_of_fmap|]. apply NoDup_fmap_2; [by intros j k [= ->]|apply NoDup_enum]. }
  destruct i as [|j|m].
  - apply elem_of_list_to_map_1; [done|]. apply list_elem_of_fmap. exists TRouting. split; [done|by left].
  - apply elem_of_list_to_map_1; [done|]. apply list_elem_of_fmap. exists (TWorker j). split; [done|].
    right. apply list_elem_of_fmap. exists j. split; [done|apply elem_of_enum].
  - apply not_elem_of_list_to_map_1. rewrite <- list_fmap_compose. intros Hin.
    apply list_elem_of_fmap in Hin as (i & Hi & Hin). simpl in Hi. subst i.
    apply elem_of_cons in Hin as [?|Hin]; [done|]. by apply list_elem_of_fmap in Hin as (? & ? & _).
Qed.

(** [start] on a runtime that was just constructed gives an initial state, in
    which every thread has its handle. *)
Lemma start_initial n (x : FifoRuntime R B n) c epoch :
  no_work x -> Runtime.started_ x = false -> (forall j, Worker.started_ (Runtime.workers_ x !!! j) = false) ->
  exists w', Runtime.start (mkWorld ∅ c [] x []) = (Ret Status.success, w') /\
    initial (mkMachine w' (started_pool epoch)) /\ forall i, of_runtime i -> handle i (shared w') = true.
Proof.
  intros Hx Hnew Hworkers. set (w := mkWorld ∅ c [] x []). assert (Hw : idle_world w) by done.
  assert (Hinit : forall w : World (FifoRuntime R B n), idle_world w -> initial (mkMachine w (started_pool epoch))).
  { intros w0 (He & Hg & Hh & Hn). split; [done|done|..].
    - intros l r. simpl. by rewrite Hh, lookup_empty.
    - by apply no_work_pointers.
    - intros i. simpl. rewrite started_pool_lookup. destruct i; [by exists epoch|by exists epoch|done]. }
  assert (Hthreads : threads_of [] (shared w)).
  { split; [intros j; simpl; by rewrite Hworkers|by intros j ?%elem_of_nil]. }
  unfold Runtime.start. erewrite bind_run by (by apply reading_solo). simpl. rewrite Hnew.
  destruct (start_workers Runtime.worker_positions [] w Hw Hthreads) as (w1 & Hl & Hw1 & Ht1).
  erewrite bind_run by exact Hl.
  destruct (atomically_idle (fun x => (tt, Runtime.set_accepting true x)) (threads_of Runtime.worker_positions)
    (threads_of Runtime.worker_positions) (fun _ => True) w1) as ([] & w2 & Hrun2 & Hw2 & Ht2 & _);
    [done|done|by rewrite app_nil_r in Ht1|]. erewrite bind_run by exact Hrun2.
  destruct (atomically_idle (fun x => (tt, Runtime.set_thread true true x)) (threads_of Runtime.worker_positions)
    (fun x => threads_of Runtime.worker_positions x /\ handle TRouting x = true) (fun _ => True) w2)
    as ([] & w3 & Hrun3 & Hw3 & [Ht3 Hr3] & _); [done|done|done|]. erewrite bind_run by exact Hrun3.
  exists w3. split; [done|]. split; [by apply Hinit|]. intros [|j|m] Hi; [done| |done]. apply Ht3, elem_of_enum.
Qed.
End start.

(** ** Executing steps *)

Section exec.
Context {R B : Type} {n : nat} `{!IWorkerRouter R} `{!IModelBackend B} `{HO : !HashOrder}.
Notation X := (FifoRuntime R B n).
#[local] Notation machine := (machine (R := R) (B := B) (n := n)).
Implicit Types (w : World X) (i : tid n) (s : machine).

(** The next step of a program; a timed wait is over as soon as it can be. *)
Definition next_step {A} w (p : prog X A) : option (World X * prog X A) :=
  match p with
  | Done _ | Raise _ => None
  | Now k => Some (w, k (clock w))
  | Critical cond f k =>
      if cond (shared w) then Some (set_shared (f (shared w)).2 w, k (f (shared w)).1) else None
  | Timed cond d f k =>
      if cond (shared w) then Some (set_shared (f true (shared w)).2 w, k (f true (shared w)).1)
      else if d <=? clock w then Some (set_shared (f false (shared w)).2 w, k (f false (shared w)).1) else None
  | OnRequest f l k =>
      match heap w !! l with
      | Some r => Some (set_heap (<[l := (f r).2.1]> (heap w)) w, k (Some ((f r).1, (f r).2.2)))
      | None => Some (w, k None)
      end
  | Deliver l ns k => Some (set_log (log w ++ map (pair l) ns) w, k)
  | Loop fuel body k =>
      Some (w, prog_bind body (fun o => match o with Some a => k a | None => Loop fuel body k end))
  end.

Lemma next_step_sound {A} w (p : prog X A) w' p' : next_step w p = Some (w', p') -> prog_step w p w' p'.
Proof.
  destruct p as [a|e|k|T cond f k|T cond d f k|T f l k|l ns k|T fuel body k]; simpl; [done|done|..].
  - intros [= <- <-]. constructor.
  - destruct (cond _) eqn:Hc; [|done]. intros [= <- <-]. by constructor.
  - destruct (cond _) eqn:Hc; [intros [= <- <-]; by apply step_timely|].
    destruct (Z.leb_spec d (clock w)); [|done]. intros [= <- <-]. by apply step_late.
  - destruct (heap w !! l) as [r|] eqn:Hl; intros [= <- <-]; [by apply step_request|by apply step_dangling].
  - intros [= <- <-]. constructor.
  - intros [= <- <-]. constructor.
Qed.

(** [MoveSections i k] are up to [k] critical sections of a thread. *)
Inductive move :=
  | MoveSections (i : tid n) (k : nat)
  | MoveTurn (i : tid n) (epoch : nat)
  | MoveAct (a : env_act X)
  | MoveSubmit (m : nat) (l : loc)
  | MoveStop (m : nat).

Fixpoint sections i (k : nat) s : machine :=
  match k with
  | O => s
  | S k =>
      match pool s !! i with
      | None => s
      | Some th =>
          match next_step (world s) (code th) with
          | None => s
          | Some (w', p') =>
              sections i k (mkMachine w'
                (<[i := mkThread p' (taken th ∪ freed (shared (world s)) (shared w'))]> (pool s)))
          end
      end
  end.

Definition enter (m : nat) (th : thread) s : option machine :=
  match pool s !! TCaller m with
  | None => Some (mkMachine (world s) (<[TCaller m := th]> (pool s)))
  | Some _ => None
  end.

#[global] Instance outside_act_dec (a : env_act X) : Decision (outside_act a).
Proof. destruct a as [l []|d|a]; simpl; apply _. Defined.

Definition exec (mv : move) s : option machine :=
  match mv with
  | MoveSections i k => Some (sections i k s)
  | MoveTurn i epoch =>
      match pool s !! i with
      | Some (mkThread (Done true) _) =>
          Some (mkMachine (world s) (<[i := mkThread (turn_of i epoch) ∅]> (pool s)))
      | Some (mkThread (Done false) _) => Some (mkMachine (world s) (delete i (pool s)))
      | _ => None
      end
  | MoveAct a => if decide (outside_act a) then Some (mkMachine (step_env a (world s)) (pool s)) else None
  | MoveSubmit m l => if decide (is_Some (heap (world s) !! l)) then enter m (mkThread (submit_code l) {[l]}) s else None
  | MoveStop m => enter m (mkThread stop_code ∅) s
  end.

Fixpoint exec_all (mvs : list move) s : option machine :=
  match mvs with
  | [] => Some s
  | mv :: mvs => match exec mv s with Some s' => exec_all mvs s' | None => None end
  end.

Lemma sections_sound i k s : rtc step s (sections i k s).
Proof.
  revert s. induction k as [|k IH]; intros s; [done|]. simpl. destruct (pool s !! i) as [th|] eqn:Hth; [|done].
  destruct (next_step (world s) (code th)) as [[w' p']|] eqn:Hn; [|done].
  eapply rtc_l, IH. left. exists i. left. econstructor; [done|]. by apply next_step_sound.
Qed.

Lemma exec_sound mv s s' : exec mv s = Some s' -> rtc step s s'.
Proof.
  destruct mv as [i k|i epoch|a|m l|m]; simpl.
  - intros [= <-]. apply sections_sound.
  - destruct (pool s !! i) as [[p tk]|] eqn:Hth; [|done]. destruct p as [[]|e|k|T cond f k|T cond d f k|T f l k|l ns k|T fuel body k]; try done;
      intros [= <-]; apply rtc_once; left; exists i; right; by econstructor.
  - destruct (decide (outside_act a)); [|done]. intros [= <-]. apply rtc_once. right. by constructor.
  - destruct (decide _) as [Hl|]; [|done]. unfold enter. destruct (pool s !! TCaller m) eqn:Hm; [done|].
    intros [= <-]. apply rtc_once. right. by constructor.
  - unfold enter. destruct (pool s !! TCaller m) eqn:Hm; [done|].
    intros [= <-]. apply rtc_once. right. by constructor.
Qed.

Lemma exec_all_sound mvs s s' : exec_all mvs s = Some s' -> rtc step s s'.
Proof.
  revert s. induction mvs as [|mv mvs IH]; intros s; simpl; [by intros [= <-]|].
  destruct (exec mv s) as [s1|] eqn:E; [|done]. intros H. etrans; [by eapply exec_sound|by apply IH].
Qed.

Lemma exec_default mvs s :
  bool_decide (is_Some (exec_all mvs s)) = true -> rtc step s (default s (exec_all mvs s)).
Proof. intros [s' Hs']%bool_decide_eq_true. rewrite Hs'. by eapply exec_all_sound. Qed.

Lemma exec_reachable mvs s :
  reachable s -> bool_decide (is_Some (exec_all mvs s)) = true -> reachable (default s (exec_all mvs s)).
Proof.
  intros (s0 & H0 & Hs) Hex. exists s0. split; [done|]. etrans; [exact Hs|]. by apply exec_default.
Qed.
End exec.
