(* ===== verification/MachineThreads.v ===== *)
(** * The threads of the machine are safe

    Every thread of [Machine.v] keeps the invariant of the system in each of
    its critical sections, and ends its turn without a request in its hands:
    the submission of a request, the routing thread and the workers. *)

From stdpp Require Import vector finite relations.
From S2P Require Import Prelude Status Requests World Queue Registry Resources Eviction.
From S2P Require Import Backends Manager Router Batch Scheduler Admission Worker WorkerProofs.
From S2P Require Import Guarantee WorkerDrain Runtime RuntimeProofs Programs Machine MachineLogic.
Import InferenceRequest.

#[local] Existing Instance machine_shared.
#[local] Existing Instance machine_scheduler.

(** A request is taken out of a queue, or put into one. *)
Definition take (l : loc) (k : nat) (b : bool) (c : ghost) : ghost := set_slot b (pay k (raise l Held c)).
Definition give (keep : bool) (l : loc) (k : nat) (b : bool) (c : ghost) : ghost :=
  set_slot b (pay k (if keep then c else handed l c)).

Section threads.
Context {R B : Type} {n : nat} `{!IWorkerRouter R} `{!IModelBackend B} `{HO : !HashOrder}.
Notation X := (FifoRuntime R B n).
#[local] Notation safe_for := (safe (R := R) (B := B) (n := n)).
Implicit Types (x : X) (g : gmap (tid n) ghost) (h : gmap loc InferenceRequest.t) (c : ghost) (i : tid n) (j : fin n).

(** ** Queues *)

Lemma pop_body_nil {T} (q : BoundedQueue.t T) : BoundedQueue.queue_ q = [] -> BoundedQueue.pop_body q = (None, q).
Proof. unfold BoundedQueue.pop_body. by intros ->. Qed.

Lemma pop_body_cons {T} (q : BoundedQueue.t T) v vs :
  BoundedQueue.queue_ q = v :: vs ->
  BoundedQueue.pop_body q = (Some v, BoundedQueue.mk (BoundedQueue.capacity_ q) vs (BoundedQueue.closed_ q)).
Proof. unfold BoundedQueue.pop_body. by intros ->. Qed.

Lemma pop_ready_nil {T} (q : BoundedQueue.t T) :
  BoundedQueue.pop_ready q = true -> BoundedQueue.queue_ q = [] -> BoundedQueue.closed_ q = true.
Proof. unfold BoundedQueue.pop_ready, BoundedQueue.empty. intros H Hq. by rewrite bool_decide_true in H. Qed.

Lemma over_scheduler_id (f : BoundedQueue.t RequestPtr -> BoundedQueue.t RequestPtr) x :
  f (Runtime.scheduler_ x) = Runtime.scheduler_ x -> Runtime.over_scheduler f x = x.
Proof. unfold Runtime.over_scheduler. intros ->. by destruct x. Qed.

Lemma over_worker_id j f x :
  f (Runtime.workers_ x !!! j) = Runtime.workers_ x !!! j -> Runtime.over_worker j f x = x.
Proof. unfold Runtime.over_worker. intros ->. rewrite vlookup_insert_self. by destruct x. Qed.

Lemma safe_sched_pop (Q : option RequestPtr -> ghost -> Prop) E c :
  (forall l, Q (Some (Some l)) (take l 4 false c)) -> Q None (retire c) ->
  safe_for TRouting (prog_of (BoundedQueue.wait_pop Runtime.scheduler_of)) Q E c.
Proof.
  intros HQ HN g h x Hi Hc Hready. unfold focus. simpl in Hready |- *.
  set (x' := Runtime.over_scheduler _ x).
  destruct (BoundedQueue.queue_ (Runtime.scheduler_ x)) as [|p q] eqn:Eq.
  - assert (Hx : x' = x) by (apply over_scheduler_id; by rewrite pop_body_nil). rewrite Hx, pop_body_nil by done.
    exists (retire c). split; [|done]. apply moves_retire; [done|done|]. split; [by apply pop_ready_nil|done].
  - rewrite (pop_body_cons _ p q Eq). simpl.
    assert (Hp : pointers x = p :: pointers x').
    { unfold pointers, x'. simpl. by rewrite (pop_body_cons _ p q Eq), Eq. }
    destruct (inv_pointers _ _ _ Hi p) as (l & r & -> & _ & _); [rewrite Hp; by left|].
    exists (take l 4 false c). split; [|done]. apply moves_pop; [done|done|by rewrite Hp|done|..].
    + unfold sched_closed, backlog. rewrite Hp. simpl. rewrite (pop_body_cons _ _ q Eq), Eq. simpl. intros ?. split; [done|lia].
    + intros [|k|] _; simpl; [|done..]. intros [_ Hnil]. congruence.
    + done.
    + done.
    + apply steady_scheduler. by rewrite (pop_body_cons _ _ q Eq).
Qed.

(** The lane of worker [j], and its state after a pop. *)
Definition lane j x : BoundedQueue.t RequestPtr := Worker.lane_ (Runtime.workers_ x !!! j).
Definition popped j x : X :=
  Runtime.over_worker j (Worker.over_lane (fun q => (BoundedQueue.pop_body q).2)) x.

Lemma moves_lane_pop j g h x c k p q :
  inv g h x -> g !! TWorker j = Some c -> BoundedQueue.queue_ (lane j x) = p :: q ->
  (k <= 4)%nat -> (k <= paid c + 2)%nat ->
  exists l, p = Some l /\ moves (TWorker j) g c (take l k (slot c) c) h x (popped j x).
Proof.
  intros Hi Hc Eq Hk2 Hk. set (x' := popped j x).
  assert (Hlane : Runtime.workers_ x' !!! j = Worker.over_lane (fun q => (BoundedQueue.pop_body q).2)
    (Runtime.workers_ x !!! j)) by apply worker_here.
  assert (Hp : pointers x ≡ₚ p :: pointers x').
  { apply (pointers_worker j x x' [] [p]); [apply but_over|]. rewrite Hlane. unfold worker_pointers, lane in *. simpl.
    by rewrite (pop_body_cons _ p q Eq), Eq. }
  destruct (inv_pointers _ _ _ Hi p) as (l & r & -> & _ & _); [rewrite Hp; by left|].
  exists l. split; [done|]. apply moves_pop; [done|done|done|done|..].
  - unfold sched_closed, backlog. rewrite Hp. simpl. intros ?. split; [done|lia].
  - intros m Hm. destruct (decide (m = TWorker j)) as [->|Hne].
    + simpl. intros (_ & Hnil & _). unfold lane in Eq. congruence.
    + apply (drained_but_worker j); [apply but_over|done].
  - intros m Hne. unfold x', popped. rewrite worker_there; [done|congruence].
  - intros m [= <-] Hs. rewrite Hlane. simpl. by eapply inv_slot.
  - apply steady_worker; [|done]. simpl. fold (lane j x). by rewrite (pop_body_cons _ _ q Eq).
Qed.

Lemma safe_lane_pop j (Q : option RequestPtr -> ghost -> Prop) E c k :
  slot c = true -> (k <= 4)%nat -> (k <= paid c + 2)%nat ->
  (forall l, Q (Some (Some l)) (take l k (slot c) c)) -> Q None (retire c) ->
  safe_for (TWorker j) (prog_of (BoundedQueue.wait_pop (Worker.lane_lens_of (Runtime.worker_of j)))) Q E c.
Proof.
  intros Hs Hk2 Hk HQ HN g h x Hi Hc Hready. change ((focus _ BoundedQueue.pop_body x).2) with (popped j x).
  change (focus _ BoundedQueue.pop_body x).1 with (BoundedQueue.pop_body (lane j x)).1.
  destruct (BoundedQueue.queue_ (lane j x)) as [|p q] eqn:Eq.
  - assert (Hx : popped j x = x).
    { apply over_worker_id. unfold Worker.over_lane. fold (lane j x). rewrite pop_body_nil by done.
      unfold lane. by destruct (Runtime.workers_ x !!! j). }
    rewrite Hx, pop_body_nil by done. exists (retire c). split; [|done]. apply moves_retire; [done|done|].
    split; [by apply pop_ready_nil|]. split; [done|]. by eapply inv_slot.
  - destruct (moves_lane_pop j g h x c k p q Hi Hc Eq Hk2 Hk) as (l & -> & Hm).
    exists (take l k (slot c) c). split; [done|]. rewrite (pop_body_cons _ _ q Eq). apply HQ.
Qed.

Lemma safe_lane_pop_until j d (Q : option RequestPtr -> ghost -> Prop) E c k :
  (k <= 4)%nat -> (k <= paid c + 2)%nat ->
  (forall l, Q (Some (Some l)) (take l k (slot c) c)) -> Q None c ->
  safe_for (TWorker j) (prog_of (BoundedQueue.wait_pop_until (Worker.lane_lens_of (Runtime.worker_of j)) d)) Q E c.
Proof.
  intros Hk2 Hk HQ HN g h x b Hi Hc Hready. change ((focus _ BoundedQueue.pop_body x).2) with (popped j x).
  change (focus _ BoundedQueue.pop_body x).1 with (BoundedQueue.pop_body (lane j x)).1.
  destruct (BoundedQueue.queue_ (lane j x)) as [|p q] eqn:Eq.
  - assert (Hx : popped j x = x).
    { apply over_worker_id. unfold Worker.over_lane. fold (lane j x). rewrite pop_body_nil by done.
      unfold lane. by destruct (Runtime.workers_ x !!! j). }
    rewrite Hx, pop_body_nil by done. exists c. split; [|done]. by apply moves_neutral.
  - destruct (moves_lane_pop j g h x c k p q Hi Hc Eq Hk2 Hk) as (l & -> & Hm).
    exists (take l k (slot c) c). split; [done|]. rewrite (pop_body_cons _ _ q Eq). apply HQ.
Qed.

(** Pushing to the scheduler's queue and to a lane. *)
Lemma try_push_cases p (q : BoundedQueue.t RequestPtr) :
  (Status.ok (BoundedQueue.try_push p q).1 = true /\ BoundedQueue.closed_ q = false /\
   (BoundedQueue.try_push p q).2 = BoundedQueue.mk (BoundedQueue.capacity_ q) (BoundedQueue.queue_ q ++ [p]) false) \/
  (Status.ok (BoundedQueue.try_push p q).1 = false /\ (BoundedQueue.try_push p q).2 = q).
Proof.
  unfold BoundedQueue.try_push, BoundedQueue.push_back. destruct (BoundedQueue.closed_ q) eqn:Ec; [by right|].
  destruct (BoundedQueue.full q); [by right|by left].
Qed.

Lemma safe_sched_push m l (Q : Status -> ghost -> Prop) E c :
  at_least Held c l ->
  (forall st, Status.ok st = true -> Q st (give false l (paid c) (slot c) c)) -> (forall st, Status.ok st = false -> Q st c) ->
  safe_for (TCaller m) (prog_of (sched_enqueue (X := X) (Some l))) Q E c.
Proof.
  intros Hh HQ HN g h x Hi Hc _. unfold focus. simpl. set (x' := Runtime.over_scheduler _ x).
  destruct (try_push_cases (Some l) (Runtime.scheduler_ x)) as [(Hok & Hopen & Hq)|(Hok & Hq)].
  - exists (give false l (paid c) (slot c) c). split; [|by apply HQ]. apply moves_push; [done|done|..].
    + unfold pointers, x'. simpl. rewrite Hq. simpl. rewrite <- (assoc_L (++)). apply Permutation_middle.
    + done.
    + by eapply inv_paid.
    + unfold sched_closed. by rewrite Hopen.
    + intros [|k|] _; simpl; [|done..]. unfold sched_closed. rewrite Hopen. by intros [].
    + done.
    + done.
    + apply steady_scheduler. unfold sched_closed. by rewrite Hopen.
  - assert (Hx : x' = x) by (by apply over_scheduler_id). rewrite Hx. exists c. split; [|by apply HN]. by apply moves_neutral.
Qed.

Lemma safe_lane_push j l (Q : Status -> ghost -> Prop) E c :
  at_least Held c l -> paid c = 4%nat ->
  (forall st, Status.ok st = true -> Q st (give false l 2 (slot c) c)) -> (forall st, Status.ok st = false -> Q st c) ->
  safe_for TRouting (prog_of (atomically (focus (Worker.lane_lens_of (Runtime.worker_of j))
    (BoundedQueue.try_push (Some l))))) Q E c.
Proof.
  intros Hh Hpaid HQ HN g h x Hi Hc _.
  set (x' := Runtime.over_worker j (Worker.over_lane (fun q => (BoundedQueue.try_push (Some l) q).2)) x).
  change ((focus _ (BoundedQueue.try_push (Some l)) x).2) with x'.
  change (focus _ (BoundedQueue.try_push (Some l)) x).1 with (BoundedQueue.try_push (Some l) (lane j x)).1.
  destruct (try_push_cases (Some l) (lane j x)) as [(Hok & Hopen & Hq)|(Hok & Hq)].
  - assert (Hp : Some l :: pointers x ≡ₚ pointers x').
    { apply (pointers_worker j x x' [Some l] []); [apply but_over|]. unfold x'. rewrite worker_here.
      unfold worker_pointers. simpl. fold (lane j x). rewrite Hq. simpl.
      rewrite <- (assoc_L (++)). apply Permutation_middle. }
    exists (give false l 2 (slot c) c). split; [|by apply HQ]. apply moves_push; [done|done|done|done|simpl; lia|..].
    + unfold sched_closed, backlog. rewrite <- Hp. simpl. intros ?. split; [done|lia].
    + intros m _. destruct (decide (m = TWorker j)) as [->|Hne]; [|by apply (drained_but_worker j); [apply but_over|]].
      simpl. intros (Hcl & _). unfold lane in Hopen. congruence.
    + intros m _. unfold x'. destruct (decide (m = j)) as [->|Hne]; [by rewrite worker_here|by rewrite worker_there].
    + done.
    + apply steady_worker; [|done]. unfold closed_lane_of. fold (lane j x). by rewrite Hopen.
  - assert (Hx : x' = x).
    { apply over_worker_id. unfold Worker.over_lane. fold (lane j x). rewrite Hq. unfold lane. by destruct (Runtime.workers_ x !!! j). }
    rewrite Hx. exists c. split; [|by apply HN]. by apply moves_neutral.
Qed.

(** The deferred slot. *)
Lemma safe_take_deferred j (Q : option RequestPtr -> ghost -> Prop) E c k :
  (k <= 4)%nat -> (k <= paid c + 2)%nat ->
  (forall l, Q (Some (Some l)) (take l k true c)) -> Q None (set_slot true c) ->
  safe_for (TWorker j) (prog_of (atomically (focus (Runtime.worker_of j)
    (fun s : Worker.t B => (Worker.deferred_ s, Worker.set_deferred None s))))) Q E c.
Proof.
  intros Hk2 Hk HQ HN g h x Hi Hc _. set (x' := Runtime.over_worker j (Worker.set_deferred None) x).
  change ((focus _ _ x).2) with x'. change (focus _ _ x).1 with (Worker.deferred_ (Runtime.workers_ x !!! j)).
  assert (Hd : Worker.deferred_ (Runtime.workers_ x' !!! j) = None) by (unfold x'; by rewrite worker_here).
  destruct (Worker.deferred_ (Runtime.workers_ x !!! j)) as [p|] eqn:Ed.
  - assert (Hp : pointers x ≡ₚ p :: pointers x').
    { apply (pointers_worker j x x' [] [p]); [apply but_over|]. unfold worker_pointers. rewrite Hd. unfold x'.
      rewrite worker_here, Ed. simpl. by rewrite app_nil_r, <- Permutation_cons_append. }
    destruct (inv_pointers _ _ _ Hi p) as (l & r & -> & _ & _); [rewrite Hp; by left|].
    exists (take l k true c). split; [|apply HQ]. apply moves_pop; [done|done|done|done|..].
    + unfold sched_closed, backlog. rewrite Hp. simpl. intros ?. split; [done|lia].
    + intros m Hm. destruct (decide (m = TWorker j)) as [->|Hne]; [|by apply (drained_but_worker j); [apply but_over|]].
      simpl. intros (_ & _ & ?). congruence.
    + intros m Hne. unfold x'. rewrite worker_there; [done|congruence].
    + by intros m [= <-] _.
    + by apply steady_worker.
  - assert (Hx : x' = x).
    { apply over_worker_id. unfold Worker.set_deferred. rewrite <- Ed. by destruct (Runtime.workers_ x !!! j). }
    rewrite Hx. exists (set_slot true c). split; [|done]. split; [|split; [intros ?; split; [done|simpl; lia]|split; [by intros l; left|apply steady_refl]]].
    apply (inv_shared g h x x (TWorker j) c _ [] []); try done.
    + by intros p ?%elem_of_nil.
    + by intros l st; left.
    + by intros l ?; left.
    + by intros l ?%elem_of_nil.
    + exact (inv_paid _ _ _ Hi _ c Hc).
    + by intros m [= <-] _.
Qed.

Lemma safe_put_deferred j keep l (Q : unit -> ghost -> Prop) E c :
  at_least Held c l -> paid c = 4%nat -> over c = false -> slot c = true -> Q tt (give keep l 2 false c) ->
  safe_for (TWorker j) (prog_of (Worker.put (X := X) (Runtime.worker_of j) (Worker.set_deferred (Some (Some l))))) Q E c.
Proof.
  intros Hh Hpaid Hover Hslot HQ g h x Hi Hc _. set (x' := Runtime.over_worker j (Worker.set_deferred (Some (Some l))) x).
  change ((_ : unit * X).2) with x'. change (snd _) with x'.
  pose proof (inv_slot _ _ _ Hi j c Hc Hslot) as Hd.
  assert (Hp : Some l :: pointers x ≡ₚ pointers x').
  { apply (pointers_worker j x x' [Some l] []); [apply but_over|]. unfold worker_pointers, x'. rewrite worker_here, Hd. simpl.
    by rewrite app_nil_r, <- Permutation_cons_append. }
  exists (give keep l 2 false c). split; [|done]. apply moves_push; [done|done|done|done|simpl; lia|..].
  - unfold sched_closed, backlog. rewrite <- Hp. simpl. intros ?. split; [done|lia].
  - intros m Hm. destruct (decide (m = TWorker j)) as [->|Hne]; [|by apply (drained_but_worker j); [apply but_over|]].
    unfold finished in Hm. rewrite Hc in Hm. congruence.
  - intros m Hne. unfold x'. rewrite worker_there; [done|congruence].
  - done.
  - by apply steady_worker.
Qed.

(** ** Requests *)

Lemma raise_same l st c : at_least st c l -> raise l st c = c.
Proof. intros (s & Hs & Hr). unfold raise. rewrite Hs. by rewrite decide_True. Qed.

Lemma safe_look i {A} (f : InferenceRequest.t -> A) l Q E c :
  at_least Known c l -> (forall a, Q a c) -> safe_for i (prog_of (inspect f l)) Q E c.
Proof.
  intros Hk HQ. apply safe_inspect; [done|]. intros r _. exists Known. rewrite raise_same by done. by split; [|split].
Qed.

Lemma safe_now i (Q : time_point -> ghost -> Prop) E c : (forall tp, Q tp c) -> safe_for i (prog_of now) Q E c.
Proof. done. Qed.

Lemma safe_is_terminal i l (Q : bool -> ghost -> Prop) E c :
  at_least Known c l -> Q true (raise l Ended c) -> Q false c -> safe_for i (prog_of (req_is_terminal l)) Q E c.
Proof.
  intros Hk Ht Hf. apply safe_inspect; [done|]. intros r _. destruct (is_terminal r) eqn:E0.
  - by exists Ended.
  - exists Known. rewrite raise_same by done. by split; [|split].
Qed.

(** An operation that only ends requests teaches the thread nothing. *)
Lemma safe_calm i {A} (f : InferenceRequest.t -> A * (InferenceRequest.t * list notification)) `{!Evolving f} `{!Calm f} l Q E c :
  at_least Known c l -> (forall a, Q a c) -> safe_for i (prog_of (mutate f l)) Q E c.
Proof.
  intros Hk HQ. apply safe_mutate; [apply _|done|]. intros r _. exists Known. rewrite raise_same by done.
  split; [done|]. split; [done|]. split; [left; apply Calm0|apply HQ].
Qed.

Lemma safe_timeout i tp l (Q : bool -> ghost -> Prop) E c :
  at_least Known c l -> (forall b, Q b c) -> safe_for i (prog_of (req_try_timeout_if_expired tp l)) Q E c.
Proof.
  intros Hk HQ. apply safe_prog_bind, safe_look; [done|]. intros [|]; [by apply (safe_calm i try_timeout)|apply HQ].
Qed.

Lemma safe_is_dead i l (Q : bool -> ghost -> Prop) E c :
  at_least Known c l -> Q true (raise l Ended c) -> Q false c -> safe_for i (prog_of (is_dead_request (Some l))) Q E c.
Proof.
  intros Hk Ht Hf. apply safe_prog_bind, safe_is_terminal; [done|done|]. apply safe_prog_bind, safe_now. intros tp.
  apply safe_prog_bind, safe_timeout; [done|]. intros _. by apply safe_is_terminal.
Qed.

(** A worker starts a request, and ends one it has started. *)
Lemma safe_to_running j l (Q : Status -> ghost -> Prop) E c :
  at_least Held c l -> (forall st, Q st (raise l Started c)) ->
  safe_for (TWorker j) (prog_of (req_transition_to Running l)) Q E c.
Proof.
  intros Hh HQ. apply safe_mutate; [apply _|by apply (at_least_le Known Held); [simpl; lia|]|].
  intros r Hr. exists Started. specialize (Hr Held Hh). simpl in Hr. rewrite transition_to_spec.
  destruct (is_valid_transition (state_ r) Running) eqn:E0; simpl.
  - split; [|split; [by eexists|]]; [unfold started; simpl; lia|]. split; [|apply HQ]. right. by right.
  - split; [|split; [by eexists|split; [by left; left|apply HQ]]].
    unfold started, admitted in *. destruct (state_ r); simpl in *; try done; lia.
Qed.

Lemma finish_ends next res r :
  is_terminal_state next = true -> started r -> is_valid_transition Running next = true ->
  terminal_req (InferenceRequest.finish next res r).2.1.
Proof.
  intros Hn Hs Hv. rewrite finish_spec. destruct (is_valid_transition (state_ r) next) eqn:E0; [done|].
  unfold terminal_req, is_terminal, started in *. simpl. destruct (state_ r); simpl in *; try lia; try done. congruence.
Qed.

Lemma safe_ends i {A} (f : InferenceRequest.t -> A * (InferenceRequest.t * list notification)) `{!Evolving f} l Q E c :
  at_least Started c l -> (forall r, started r -> terminal_req (f r).2.1) -> (forall a, Q a (raise l Ended c)) ->
  safe_for i (prog_of (mutate f l)) Q E c.
Proof.
  intros Hs Hf HQ. apply safe_mutate; [apply _|by apply (at_least_le Known Started); [simpl; lia|]|].
  intros r Hr. exists Ended. specialize (Hr Started Hs). split; [by apply Hf|]. split; [done|].
  split; [left; right; by apply Hf|apply HQ].
Qed.

Lemma safe_fail i e l (Q : bool -> ghost -> Prop) E c :
  at_least Started c l -> (forall b, Q b (raise l Ended c)) -> safe_for i (prog_of (req_try_fail e l)) Q E c.
Proof. intros Hs HQ. apply (safe_ends i (try_fail e)); [done|intros r Hr; by apply finish_ends|done]. Qed.

Lemma safe_complete i res l (Q : bool -> ghost -> Prop) E c :
  at_least Started c l -> (forall b, Q b (raise l Ended c)) -> safe_for i (prog_of (req_try_complete res l)) Q E c.
Proof. intros Hs HQ. apply (safe_ends i (try_complete res)); [done|intros r Hr; by apply finish_ends|done]. Qed.

(** A thread that starts no requests gives one up. *)
Lemma safe_reject i e l (Q : bool -> ghost -> Prop) E c :
  (forall j, i <> TWorker j) -> at_least Held c l -> (forall b, Q b (handed l c)) ->
  safe_for i (prog_of (req_try_reject e l)) Q E c.
Proof.
  intros Hi (s & Hs & Hle) HQ. unfold handed in HQ. destruct s; simpl in Hle; [lia|..].
  - rewrite decide_True in HQ by done. apply safe_dismiss; [apply _|apply _|done| |done].
    intros r Hr. unfold try_reject. rewrite finish_spec.
    destruct (is_valid_transition (state_ r) Rejected) eqn:E0; [by left|]. simpl.
    unfold terminal_req, is_terminal, admitted in *. by destruct (state_ r); auto.
  - intros g h x Hinv Hc. exfalso. destruct (inv_started _ _ _ Hinv i c l Hc Hs) as [j ->]. by eapply Hi.
  - rewrite decide_False in HQ by congruence. apply (safe_calm i (try_reject e)); [exists Ended; split; [done|simpl; lia]|done].
Qed.

(** Admission. *)
Lemma safe_to_queued i l (Q : Status -> ghost -> Prop) E c :
  at_least Known c l ->
  (forall st, Status.ok st = true -> Q st (raise l Held c)) -> (forall st, Status.ok st = false -> Q st c) ->
  safe_for i (prog_of (req_transition_to Queued l)) Q E c.
Proof.
  intros Hk HQ HN. apply safe_mutate; [apply _|done|]. intros r _. rewrite transition_to_spec.
  destruct (is_valid_transition (state_ r) Queued) eqn:E0; simpl.
  - exists Held. split; [done|]. split; [done|]. split; [by right; left|by apply HQ].
  - exists Known. rewrite raise_same by done. split; [done|]. split; [done|]. split; [by left; left|by apply HN].
Qed.

(** ** Duties *)

(** The thread has no duty, or one, and has started no request. *)
Definition free c : Prop := forall l, ~ owns c l.
Definition only l c : Prop := forall l', owns c l' -> l' = l.
Definition unstarted c : Prop := forall l, hand c !! l <> Some Started.

Lemma raise_ended_owns l c l' : owns (raise l Ended c) l' -> owns c l' /\ l' <> l.
Proof.
  intros Ho. assert (Hne : l' <> l).
  { intros ->. by apply (ended_not_owned (raise l Ended c) l); [apply raise_at_least|]. }
  split; [|done]. destruct Ho as (s & Hs & Hd). exists s. by rewrite raise_other in Hs.
Qed.

Lemma only_ended l c : only l c -> free (raise l Ended c).
Proof. intros H l' Ho%raise_ended_owns. destruct Ho as [Ho Hne]. by apply H in Ho. Qed.

Lemma free_ended l c : free c -> free (raise l Ended c).
Proof. intros H l' [Ho _]%raise_ended_owns. by eapply H. Qed.

Lemma only_held l c : free c -> only l (raise l Held c).
Proof.
  intros H l' (s & Hs & Hd). destruct (raise_held c l) as (_ & Hh & _). destruct (Hh l' s Hs) as [?|[_ ->]]; [|done].
  exfalso. apply (H l'). by exists s.
Qed.

Lemma unstarted_raise l st c : st <> Started -> unstarted c -> unstarted (raise l st c).
Proof.
  intros Hst H l' Hs. destruct (raise_hand l st c) as [[Hh _]|[Hh _]]; rewrite Hh in Hs; [by eapply H|].
  apply lookup_insert_Some in Hs as [[_ ?]|[_ ?]]; [done|by eapply H].
Qed.

Lemma handed_owns l c l' : unstarted c -> owns (handed l c) l' -> owns c l' /\ l' <> l.
Proof.
  intros Hu (s & Hs & Hd). unfold handed in Hs. destruct (decide (hand c !! l = Some Held)) as [Hh|Hh].
  - simpl in Hs. apply lookup_insert_Some in Hs as [[_ <-]|[Hne Hs]]; [by destruct Hd|].
    split; [by exists s|done].
  - split; [by exists s|]. intros ->. destruct Hd as [-> | ->]; [done|by eapply Hu].
Qed.

Lemma only_handed l c : unstarted c -> only l c -> free (handed l c).
Proof. intros Hu H l' Ho%handed_owns; [|done]. destruct Ho as [Ho Hne]. by apply H in Ho. Qed.

Lemma unstarted_handed l c : unstarted c -> unstarted (handed l c).
Proof. intros H l' Hs. apply handed_hand in Hs as [?|[? _]]; [by eapply H|done]. Qed.

(** No exception leaves the code of a thread. *)
Definition none : exn -> ghost -> Prop := fun _ _ => False.

(** ** Submission *)

Lemma safe_admit m l c :
  at_least Known c l -> free c -> unstarted c ->
  safe_for (TCaller m) (prog_of (AdmissionController.admit_request (Some l))) (fun _ => free) none c.
Proof.
  intros Hk Hf Hu. apply safe_prog_bind, safe_now. intros tp. apply safe_prog_bind, safe_timeout; [done|]. intros _.
  apply safe_prog_bind, safe_is_terminal; [done|by apply free_ended|].
  apply safe_prog_bind, safe_to_queued; [done| |by intros st Hst; rewrite Hst].
  intros st Hst. rewrite Hst. pose proof (raise_at_least l Held c) as Hh.
  assert (Hend : free (handed l (raise l Held c))) by (by apply only_handed; [apply unstarted_raise|apply only_held]).
  apply safe_prog_bind, safe_sched_push; [done|intros st' Hst'; rewrite Hst'; exact Hend|].
  intros st' Hst'. rewrite Hst'. apply safe_prog_bind, safe_reject; [done|done|]. by intros [|].
Qed.

Lemma safe_submit m l c :
  at_least Known c l -> free c -> unstarted c ->
  safe_for (TCaller m) (prog_of (Runtime.submit (Some l))) (fun _ => free) none c.
Proof.
  intros Hk Hf Hu. apply safe_prog_bind, safe_is_terminal; [done|by apply free_ended|].
  apply safe_prog_bind, safe_now. intros tp. apply safe_prog_bind, safe_timeout; [done|]. intros _.
  apply safe_prog_bind, safe_is_terminal; [done|by apply free_ended|].
  apply safe_prog_bind, safe_reading. intros x. destruct (Runtime.accepting_ x); [by apply safe_admit|].
  apply safe_prog_bind, safe_look; [done|]. intros st. apply safe_prog_bind. destruct (bool_decide _); [|done].
  by apply safe_prog_bind, (safe_calm _ (try_reject _)).
Qed.

(** ** Routing *)

(** The thread has [l] in its hands and has been paid for it. *)
Record carries (l : loc) (k : nat) c : Prop := {
  carries_held : at_least Held c l;
  carries_only : only l c;
  carries_unstarted : unstarted c;
  carries_paid : paid c = k
}.

Lemma carries_take l k b c : free c -> unstarted c -> carries l k (take l k b c).
Proof.
  intros Hf Hu. split; [exact (raise_at_least l Held c)|exact (only_held l c Hf)| |done].
  by apply (unstarted_raise l Held c).
Qed.

Lemma carries_known l k c : carries l k c -> at_least Known c l.
Proof. intros [H _ _ _]. by apply (at_least_le Known Held); [simpl; lia|]. Qed.

(** The thread got rid of it. *)
Definition relieved (k : nat) c : Prop := free c /\ unstarted c /\ paid c = k.

Lemma carries_ended l k c : carries l k c -> relieved k (raise l Ended c).
Proof. intros [_ Ho Hu Hp]. split; [by apply only_ended|]. split; [by apply unstarted_raise|]. by rewrite raise_paid. Qed.

Lemma carries_handed l k c : carries l k c -> relieved k (handed l c).
Proof.
  intros [_ Ho Hu Hp]. split; [by apply only_handed|]. split; [by apply unstarted_handed|].
  unfold handed. by destruct (decide _).
Qed.

Lemma safe_next c :
  free c -> unstarted c -> (1 <= paid c)%nat ->
  safe_for TRouting (prog_of (FifoScheduler.next (X := X) Runtime.scheduler_of))
    (fun o c => match o with
       | None => free c /\ over c = true
       | Some p => exists l, p = Some l /\ carries l 4 c
       end) none c.
Proof.
  intros Hf Hu Hp. apply (safe_loop _ _ (FifoScheduler.next_loop (X := X) Runtime.scheduler_of))
    with (I := fun c => free c /\ unstarted c /\ (1 <= paid c)%nat); [done|].
  clear c Hf Hu Hp. intros c (Hf & Hu & Hp). split; [done|].
  apply safe_prog_bind, safe_sched_pop; [|done]. intros l.
  pose proof (carries_take l 4 false (spend c) Hf Hu) as Hc.
  apply safe_prog_bind, safe_is_dead; [by eapply carries_known| |by exists l].
  destruct (carries_ended _ _ _ Hc) as (Hf' & Hu' & Hp'). simpl. rewrite Hp'. split; [done|]. split; [done|lia].
Qed.

Lemma safe_for_workers i {A} (f : fin n -> M X A) (Hf : forall j, Program (f j)) c :
  (forall j, safe_for i (prog_of (f j)) (fun _ c' => c' = c) none c) ->
  safe_for i (prog_of (Runtime.for_workers f)) (fun _ c' => c' = c) none c.
Proof.
  intros Hs. unfold Runtime.for_workers, program_for_workers. induction Runtime.worker_positions as [|j l IH]; [done|].
  apply safe_prog_bind. eapply safe_mono; [|done|apply Hs]. intros a c' ->.
  apply safe_prog_bind. eapply safe_mono; [|done|apply IH]. by intros rest c' ->.
Qed.

Lemma safe_snapshot i j e c :
  safe_for i (prog_of (Worker.snapshot (X := X) (Runtime.worker_of j) e)) (fun _ c' => c' = c) none c.
Proof. unfold Worker.snapshot. repeat (apply safe_prog_bind, safe_get; intros ?). done. Qed.

Lemma safe_try_enqueue j l c :
  carries l 4 c ->
  safe_for TRouting (prog_of (Worker.try_enqueue (X := X) (Runtime.worker_of j) (Some l)))
    (fun st c' => if Status.ok st then free c' /\ (2 <= paid c')%nat else carries l 4 c') none c.
Proof.
  intros Hc. apply safe_prog_bind, safe_get. intros [|]; [|done].
  apply safe_prog_bind, safe_is_dead; [by eapply carries_known| |].
  { destruct (carries_ended _ _ _ Hc) as (Hf & _ & Hp). split; [done|]. rewrite Hp. lia. }
  apply safe_prog_bind, safe_lane_push; [apply Hc|apply Hc| |].
  - intros st Hst. unfold Worker.counted. rewrite Hst. apply safe_prog_bind, safe_put; [done|]. simpl. rewrite Hst.
    destruct (carries_handed _ _ _ Hc) as (Hf & _ & _). by split; [|simpl; lia].
  - intros st Hst. rewrite Hst. simpl. by rewrite Hst.
Qed.

Lemma safe_reject_with l st c :
  carries l 4 c ->
  safe_for TRouting (prog_of (Runtime.reject_with l st)) (fun _ c' => free c' /\ (2 <= paid c')%nat) none c.
Proof.
  intros Hc. apply safe_prog_bind, safe_reject; [done|apply Hc|]. intros b.
  destruct (carries_handed _ _ _ Hc) as (Hf & _ & Hp). split; [done|]. rewrite Hp. lia.
Qed.

Lemma safe_find_worker i id (Q : option (fin n) -> ghost -> Prop) E c :
  (forall t, Q t c) -> safe_for i (prog_of (Runtime.find_worker id)) Q E c.
Proof. intros HQ. apply safe_prog_bind, safe_reading. intros x. apply HQ. Qed.

Lemma safe_route e l c :
  carries l 4 c ->
  safe_for TRouting (prog_of (Runtime.route_request e (Some l))) (fun _ c' => free c' /\ (2 <= paid c')%nat) none c.
Proof.
  intros Hc. pose proof (carries_known _ _ _ Hc) as Hk.
  assert (Hend : free (raise l Ended c) /\ (2 <= paid (raise l Ended c))%nat).
  { destruct (carries_ended _ _ _ Hc) as (Hf & _ & Hp). split; [done|]. rewrite Hp. lia. }
  apply safe_prog_bind, safe_is_terminal; [done|done|].
  apply safe_prog_bind, safe_now. intros tp. apply safe_prog_bind, safe_timeout; [done|]. intros _.
  apply safe_prog_bind, safe_is_terminal; [done|done|].
  apply safe_prog_bind, safe_look; [done|]. intros id. apply safe_prog_bind, safe_reading. intros x.
  destruct (Registry.find id (Runtime.registry_ x)) as [fs [spec|]]; [|by apply safe_reject_with].
  cbn beta iota zeta. destruct (negb (Status.ok fs)); [by apply safe_reject_with|].
  apply safe_prog_bind. eapply safe_mono; [|done|apply safe_for_workers; intros j; apply safe_snapshot].
  intros snaps c' ->. apply safe_prog_bind, safe_neutral; [by intros y|]. intros y.
  set (sel := (focus _ _ y).1). destruct (negb (RoutingResult.ok sel)); [by apply safe_reject_with|].
  destruct (routed_to sel) as [wid|]; [|by apply safe_reject_with].
  apply safe_prog_bind, safe_find_worker. intros [j|]; [|by apply safe_reject_with].
  apply safe_prog_bind. eapply safe_mono; [|done|by apply safe_try_enqueue]. intros st c' Hst. cbv beta in Hst.
  destruct (Status.ok st); [done|by apply safe_reject_with].
Qed.

(** What a turn leaves. *)
Definition turn_post i (more : bool) c : Prop :=
  free c /\
  match i with
  | TCaller _ => more = false
  | _ => if more then (2 <= paid c)%nat else over c = true
  end.

Lemma safe_routing_once e c :
  free c -> unstarted c -> (1 <= paid c)%nat ->
  safe_for TRouting (prog_of (Runtime.routing_once e)) (turn_post TRouting) none c.
Proof.
  intros Hf Hu Hp. apply safe_prog_bind. eapply safe_mono; [|done|by apply safe_next].
  intros [p|] c'; [|done]. intros (l & -> & Hc). apply safe_prog_bind. eapply safe_mono; [|done|by apply safe_route].
  intros st c2 Hc2. exact Hc2.
Qed.

(** ** Executing a batch *)

(** The thread knows at least [st] of the request [p] points to. *)
Definition ptr_least (st : stage) c (p : RequestPtr) : Prop := exists l, p = Some l /\ at_least st c l.

Lemma ptr_least_calmer st c c' p : calmer c c' -> ptr_least st c p -> ptr_least st c' p.
Proof. intros Hc (l & -> & Hl). exists l. split; [done|]. by apply Hc. Qed.

Lemma ptr_least_le st st' c p : (stage_rank st <= stage_rank st')%nat -> ptr_least st' c p -> ptr_least st c p.
Proof. intros Hle (l & -> & Hl). exists l. split; [done|]. by eapply at_least_le. Qed.

Lemma all_least_calmer st c c' batch : calmer c c' -> Forall (ptr_least st c) batch -> Forall (ptr_least st c') batch.
Proof. intros Hc H. eapply Forall_impl; [exact H|]. intros p. by apply ptr_least_calmer. Qed.

Lemma all_least_le st st' c batch :
  (stage_rank st <= stage_rank st')%nat -> Forall (ptr_least st' c) batch -> Forall (ptr_least st c) batch.
Proof. intros Hle H. eapply Forall_impl; [exact H|]. intros p. by apply ptr_least_le. Qed.

Lemma calmer_ended l c : calmer c (raise l Ended c).
Proof. apply calmer_raise. by intros [|]. Qed.

Lemma calmer_started l c : at_least Held c l -> calmer c (raise l Started c).
Proof. intros H. by apply calmer_raise. Qed.

(** [f] brings every member from [st] to [st']. *)
Lemma safe_each i {A} (f : A -> M X unit) (Hf : forall a, Program (f a)) (P P' : ghost -> A -> Prop) (l : list A) c :
  (forall c c' a, calmer c c' -> P c a -> P c' a) -> (forall c c' a, calmer c c' -> P' c a -> P' c' a) ->
  (forall c a, P c a -> safe_for i (prog_of (f a)) (fun _ c' => calmer c c' /\ P' c' a) none c) ->
  Forall (P c) l ->
  safe_for i (prog_of (for_each f l)) (fun _ c' => calmer c c' /\ Forall (P' c') l) none c.
Proof.
  intros HP HP' Hs. revert c. induction l as [|a l IH]; intros c Hl; [by split|].
  apply Forall_cons in Hl as [Ha Hl]. apply safe_prog_bind. eapply safe_mono; [|done|by apply Hs].
  intros [] c1 [Hc1 Ha1]. eapply safe_mono; [|done|apply IH; eapply Forall_impl; [exact Hl|by intros b; apply HP]].
  intros [] c2 [Hc2 Hl2]. split; [by etrans|]. constructor; [by eapply HP'|done].
Qed.

Lemma safe_filter i st batch c :
  Forall (ptr_least st c) batch ->
  safe_for i (prog_of (Worker.filter_live_batch batch)) (fun live c' => calmer c c' /\ live ⊆ batch /\
    forall p, p ∈ batch -> p ∈ live \/ ptr_least Ended c' p) none c.
Proof.
  revert c. induction batch as [|p batch IH]; intros c Hb; [split; [done|]; split; [done|]; by intros p ?%elem_of_nil|].
  apply Forall_cons in Hb as [(l & -> & Hl) Hb].
  assert (Hrest : forall keep c1, calmer c c1 -> (keep = false -> ptr_least Ended c1 (Some l)) ->
    safe_for i (prog_of (rest ← filterM Worker.live batch; mret (if (keep : bool) then Some l :: rest else rest)))
      (fun live c' => calmer c c' /\ live ⊆ Some l :: batch /\
         forall p, p ∈ Some l :: batch -> p ∈ live \/ ptr_least Ended c' p) none c1).
  { intros keep c1 Hc1 Hk. apply safe_prog_bind. eapply safe_mono; [|done|apply IH; by eapply all_least_calmer].
    intros rest c2 (Hc2 & Hsub & Hall). split; [by etrans|]. split; [destruct keep; set_solver|].
    intros p [->|Hp]%elem_of_cons.
    - destruct keep; [left; by left|right]. eapply ptr_least_calmer; [exact Hc2|by apply Hk].
    - destruct (Hall p Hp) as [?|?]; [left; destruct keep; set_solver|by right]. }
  assert (Hk : at_least Known c l) by (by apply (at_least_le Known st); [simpl; lia|]).
  apply safe_prog_bind, safe_prog_bind, safe_is_dead; [done|..]; simpl.
  - apply (Hrest false); [apply calmer_ended|]. intros _. exists l. split; [done|apply raise_at_least].
  - by apply (Hrest true).
Qed.

Lemma safe_fail_one j e p c :
  ptr_least Held c p ->
  safe_for (TWorker j) (prog_of (Worker.fail_one e p)) (fun _ c' => calmer c c' /\ ptr_least Ended c' p) none c.
Proof.
  intros (l & -> & Hl). assert (Hk : at_least Known c l) by (by apply (at_least_le Known Held); [simpl; lia|]).
  assert (Hfin : forall c1, calmer c c1 -> calmer c (raise l Ended c1) /\ ptr_least Ended (raise l Ended c1) (Some l)).
  { intros c1 Hc1. split; [etrans; [exact Hc1|apply calmer_ended]|]. exists l. split; [done|apply raise_at_least]. }
  set (c1 := raise l Started c).
  assert (Hc1 : calmer c c1) by (by apply calmer_started).
  assert (Hs1 : at_least Started c1 l) by apply raise_at_least.
  assert (Hend : safe_for (TWorker j) (prog_of (terminal ← req_is_terminal l;
    if (terminal : bool) then mret tt else _ ← req_try_fail e l; mret tt))
    (fun _ c' => calmer c c' /\ ptr_least Ended c' (Some l)) none c1).
  { apply safe_prog_bind, safe_is_terminal; [by apply (at_least_le Known Started); [simpl; lia|]|by apply Hfin|].
    apply safe_prog_bind, safe_fail; [done|]. intros b. by apply Hfin. }
  apply safe_prog_bind, safe_is_terminal; [done|by apply Hfin|].
  apply safe_prog_bind, safe_inspect; [done|]. intros r Hr. specialize (Hr Held Hl). simpl in Hr.
  destruct (decide (state_ r = Queued)) as [Hq|Hq].
  - exists Known. rewrite raise_same by done. split; [done|]. split; [done|]. apply safe_prog_bind.
    rewrite bool_decide_true by done. by apply safe_prog_bind, safe_to_running.
  - exists Started. split; [simpl; unfold started, admitted in *; revert Hr Hq; destruct (state_ r); simpl; intros; try done; lia|].
    split; [by eexists|]. apply safe_prog_bind. by rewrite bool_decide_false.
Qed.

Lemma safe_fail_all j e batch c :
  Forall (ptr_least Held c) batch ->
  safe_for (TWorker j) (prog_of (Worker.fail_all (X := X) (Runtime.worker_of j) e batch))
    (fun _ c' => calmer c c' /\ Forall (ptr_least Ended c') batch) none c.
Proof.
  intros Hb. apply safe_prog_bind, safe_put; [done|]. apply safe_prog_bind.
  eapply safe_mono; [|done|apply (safe_each _ _ _ (fun c p => ptr_least Held c p) (fun c p => ptr_least Ended c p))]; try done.
  - intros c1 c2 p. apply ptr_least_calmer.
  - intros c1 c2 p. apply ptr_least_calmer.
  - intros c1 p. apply safe_fail_one.
Qed.

Lemma safe_deref i l (Q : loc -> ghost -> Prop) E c :
  Q l c -> safe_for i (prog_of (BatchBuilder.deref (Some l))) Q E c.
Proof. done. Qed.

Lemma safe_run_one j batch p c :
  Forall (ptr_least Held c) batch -> ptr_least Held c p ->
  safe_for (TWorker j) (prog_of (Worker.run_one (X := X) (Runtime.worker_of j) batch p))
    (fun o c' => calmer c c' /\
       match o with None => ptr_least Started c' p | Some _ => Forall (ptr_least Ended c') batch end) none c.
Proof.
  intros Hb (l & -> & Hl). assert (Hk : at_least Known c l) by (by apply (at_least_le Known Held); [simpl; lia|]).
  apply safe_prog_bind, safe_is_dead; [done|..].
  { split; [apply calmer_ended|]. exists l. split; [done|]. apply (at_least_le _ Ended); [simpl; lia|apply raise_at_least]. }
  pose proof (calmer_started l c Hl) as Hc1. apply safe_prog_bind, safe_deref, safe_prog_bind, safe_to_running; [done|].
  intros st. destruct (negb (Status.ok st)).
  - apply safe_prog_bind. eapply safe_mono; [|done|apply safe_fail_all; by eapply all_least_calmer].
    intros st' c2 [Hc2 Hall]. split; [by etrans|done].
  - split; [done|]. exists l. split; [done|apply raise_at_least].
Qed.

Lemma safe_until i {A C} (f : A -> M X (option C)) (Hf : forall a, Program (f a)) (P P' : ghost -> A -> Prop)
    (F : ghost -> Prop) (l : list A) c :
  (forall c c' a, calmer c c' -> P c a -> P c' a) -> (forall c c' a, calmer c c' -> P' c a -> P' c' a) ->
  (forall c1 a, calmer c c1 -> a ∈ l -> P c1 a -> safe_for i (prog_of (f a))
     (fun o c' => calmer c1 c' /\ match o with None => P' c' a | Some _ => F c' end) none c1) ->
  Forall (P c) l ->
  safe_for i (prog_of (for_until f l))
    (fun o c' => calmer c c' /\ match o with None => Forall (P' c') l | Some _ => F c' end) none c.
Proof.
  intros HP HP' Hs Hl.
  cut (forall l' c1, calmer c c1 -> l' ⊆ l -> Forall (P c1) l' -> safe_for i (prog_of (for_until f l'))
    (fun o c' => calmer c1 c' /\ match o with None => Forall (P' c') l' | Some _ => F c' end) none c1).
  { intros H. by apply H. }
  induction l' as [|a l' IH]; intros c1 Hc1 Hsub Hl'; [by split|].
  apply Forall_cons in Hl' as [Ha Hl']. apply safe_prog_bind. eapply safe_mono; [|done|apply Hs; [done|set_solver|done]].
  intros [b|] c2 [Hc2 Hb]; [by split|]. eapply safe_mono; [|done|apply IH; [by etrans|set_solver|]].
  - intros o c3 [Hc3 Ho]. split; [by etrans|]. destruct o; [done|]. constructor; [by eapply HP'|done].
  - eapply Forall_impl; [exact Hl'|]. intros b. by apply HP.
Qed.

Lemma safe_run_all j batch c :
  Forall (ptr_least Held c) batch ->
  safe_for (TWorker j) (prog_of (Worker.to_running (X := X) (Runtime.worker_of j) batch))
    (fun o c' => calmer c c' /\
       match o with None => Forall (ptr_least Started c') batch | Some _ => Forall (ptr_least Ended c') batch end) none c.
Proof.
  intros Hb. apply (safe_until _ _ _ (ptr_least Held) (ptr_least Started)); [|..|done].
  - intros c1 c2 p. apply ptr_least_calmer.
  - intros c1 c2 p. apply ptr_least_calmer.
  - intros c1 p Hc1 _ Hp. apply safe_run_one; [by eapply all_least_calmer|done].
Qed.

Lemma safe_views i batch c :
  Forall (ptr_least Known c) batch ->
  safe_for i (prog_of (Worker.views_of batch)) (fun _ c' => c' = c) none c.
Proof.
  induction batch as [|p batch IH]; intros Hb; [done|]. apply Forall_cons in Hb as [(l & -> & Hl) Hb].
  apply safe_prog_bind, safe_look; [done|]. intros r. apply safe_prog_bind. eapply safe_mono; [|done|by apply IH].
  by intros rest c' ->.
Qed.

Lemma ended_here l c : calmer c (raise l Ended c) /\ ptr_least Ended (raise l Ended c) (Some l).
Proof. split; [apply calmer_ended|]. exists l. split; [done|apply raise_at_least]. Qed.

Lemma safe_fail_live i e batch c :
  Forall (ptr_least Started c) batch ->
  safe_for i (prog_of (Worker.fail_live e batch)) (fun _ c' => calmer c c' /\ Forall (ptr_least Ended c') batch) none c.
Proof.
  intros Hb. apply (safe_each _ _ _ (ptr_least Started) (ptr_least Ended)); [..|done].
  - intros c1 c2 p. apply ptr_least_calmer.
  - intros c1 c2 p. apply ptr_least_calmer.
  - intros c1 p (l & -> & Hl). apply safe_prog_bind, safe_deref, safe_prog_bind, safe_is_terminal; [by apply (at_least_le Known Started); [simpl; lia|]|apply ended_here|].
    apply safe_prog_bind, safe_fail; [done|]. intros b. apply ended_here.
Qed.

Lemma safe_deliver_results i pairs last c :
  Forall (ptr_least Started c) pairs.*1 ->
  safe_for i (prog_of (Worker.deliver_results pairs last))
    (fun _ c' => calmer c c' /\ Forall (ptr_least Ended c') pairs.*1) none c.
Proof.
  revert last c. induction pairs as [|[p res] pairs IH]; intros last c Hb; [by split|].
  csimpl in Hb. apply Forall_cons in Hb as [(l & -> & Hl) Hb].
  assert (Hrest : forall last, safe_for i (prog_of (Worker.deliver_results pairs last))
    (fun _ c' => calmer c c' /\ Forall (ptr_least Ended c') ((Some l, res) :: pairs).*1) none (raise l Ended c)).
  { intros last'. destruct (ended_here l c) as [Hc1 Hl1].
    eapply safe_mono; [|done|apply IH; by eapply all_least_calmer]. intros st c2 [Hc2 Hall]. split; [by etrans|].
    csimpl. constructor; [by eapply ptr_least_calmer|done]. }
  apply safe_prog_bind, safe_deref, safe_prog_bind, safe_is_terminal; [by apply (at_least_le Known Started); [simpl; lia|]|apply Hrest|].
  cbn beta iota zeta. destruct (negb (InferenceResult.ok res)).
  - apply safe_prog_bind, safe_fail; [done|]. intros b. apply Hrest.
  - apply safe_prog_bind, safe_complete; [done|]. intros b. apply Hrest.
Qed.

Lemma safe_finish_batch j batch rs c :
  Forall (ptr_least Started c) batch ->
  safe_for (TWorker j) (prog_of (Worker.finish_batch (X := X) (Runtime.worker_of j) batch rs))
    (fun _ c' => calmer c c' /\ Forall (ptr_least Ended c') batch) none c.
Proof.
  intros Hb. unfold Worker.finish_batch, program_finish. cbn beta iota zeta.
  destruct (length rs =? length batch)%nat eqn:Elen; simpl negb; cbn iota.
  - apply Nat.eqb_eq in Elen. apply safe_prog_bind, safe_put; [done|]. apply safe_prog_bind, safe_put; [done|].
    pose proof (safe_deliver_results (TWorker j) (zip batch rs) Status.success c) as Hd.
    rewrite fst_zip in Hd by lia. by apply Hd.
  - apply safe_prog_bind, safe_put; [done|]. apply safe_prog_bind, safe_put; [done|].
    apply safe_prog_bind. by eapply safe_mono; [|done|apply safe_fail_live].
Qed.

(** Calls of the model manager and of the backend: they may throw. *)
Lemma safe_ensure j e m (Q : Status -> ghost -> Prop) (E : exn -> ghost -> Prop) c :
  (forall st, Q st c) -> (forall ex, E ex c) ->
  safe_for (TWorker j) (prog_of (Worker.ensure_resident (X := X) (Runtime.worker_of j) e m)) Q E c.
Proof.
  intros HQ HE. apply safe_prog_bind, safe_neutral.
  - intros x. destruct (ModelManager.ensure_resident e m _) as [out m']. by apply neutral_worker.
  - intros x. destruct (ModelManager.ensure_resident e m _) as [[ex|st] m']; [apply HE|apply HQ].
Qed.

Lemma safe_infer j views (Q : list InferenceResult -> ghost -> Prop) (E : exn -> ghost -> Prop) c :
  (forall rs, Q rs c) -> (forall ex, E ex c) ->
  safe_for (TWorker j) (prog_of (Worker.infer_batch (X := X) (Runtime.worker_of j) views)) Q E c.
Proof.
  intros HQ HE. apply safe_prog_bind, safe_neutral.
  - intros x. cbv zeta. destruct (infer_batch views _) as [out b']. by apply neutral_worker.
  - intros x. cbv zeta. destruct (infer_batch views _) as [[ex|rs] b']; [apply HE|apply HQ].
Qed.

Lemma safe_inference j batch c :
  Forall (ptr_least Started c) batch ->
  safe_for (TWorker j) (prog_of (Worker.run_inference (X := X) (Runtime.worker_of j) batch))
    (fun _ c' => calmer c c' /\ Forall (ptr_least Ended c') batch) none c.
Proof.
  intros Hb. apply safe_prog_bind.
  eapply safe_mono; [|done|apply safe_views; by apply (all_least_le Known Started); [simpl; lia|]].
  intros views c' ->. apply safe_prog_bind, safe_catch, safe_prog_bind, safe_infer.
  - intros rs. by apply safe_finish_batch.
  - intros ex. apply safe_prog_bind.
    by eapply safe_mono; [|done|apply safe_fail_all, (all_least_le Held Started); [simpl; lia|]].
Qed.

Definition may_throw c : exn -> ghost -> Prop := fun _ c' => calmer c c'.

Lemma safe_resident j e batch c :
  Forall (ptr_least Started c) batch ->
  safe_for (TWorker j) (prog_of (Worker.run_resident (X := X) (Runtime.worker_of j) e batch))
    (fun o c' => calmer c c' /\ match o with
       | inl _ => Forall (ptr_least Ended c') batch
       | inr live => live ⊆ batch /\ forall p, p ∈ batch -> p ∈ live \/ ptr_least Ended c' p
       end) (may_throw c) c.
Proof.
  intros Hb. destruct batch as [|p0 batch0]; [by apply safe_prog_bind, safe_put|].
  pose proof Hb as Hb'. apply Forall_cons in Hb as [(l & -> & Hl) _]. set (batch := Some l :: batch0) in *.
  apply safe_prog_bind, safe_deref. apply safe_prog_bind, safe_look; [by apply (at_least_le Known Started); [simpl; lia|]|].
  intros m. apply safe_prog_bind, safe_ensure; [|done]. intros st. destruct (negb (Status.ok st)).
  - apply safe_prog_bind, safe_put; [done|]. apply safe_prog_bind, safe_put; [done|]. apply safe_prog_bind.
    by eapply safe_mono; [| |apply safe_fail_live].
  - apply safe_prog_bind. eapply safe_mono; [| |by apply (safe_filter _ Started)]; [|done].
    intros live c1 (Hc1 & Hsub & Hall). destruct live as [|q live]; [|done]. apply safe_prog_bind, safe_put; [done|].
    split; [done|]. apply Forall_forall. intros p Hp. destruct (Hall p Hp) as [?%elem_of_nil|?]; done.
Qed.

(** What the handler of the [try] block does. *)
Lemma safe_guarded j {A} batch (m : M X (Status + A)) (Hm : Program m) (Q : Status + A -> ghost -> Prop) c :
  Forall (ptr_least Held c) batch ->
  (forall st c', calmer c c' -> Forall (ptr_least Ended c') batch -> Q (inl st) c') ->
  safe_for (TWorker j) (prog_of m) Q (may_throw c) c ->
  safe_for (TWorker j) (prog_of (try_catch m (fun e =>
    st ← Worker.fail_all (X := X) (Runtime.worker_of j) (Worker.exn_status e) batch; mret (inl st)))) Q none c.
Proof.
  intros Hb HQ Hs. apply safe_catch. eapply safe_mono; [done| |exact Hs]. intros ex c1 Hc1. apply safe_prog_bind.
  eapply safe_mono; [|done|apply safe_fail_all; by eapply all_least_calmer]. intros st c2 [Hc2 Hall].
  apply HQ; [by etrans|done].
Qed.

(** Those that were filtered out are over, those that are left will be. *)
Lemma all_ended batch live c c' :
  (forall p, p ∈ batch -> p ∈ live \/ ptr_least Ended c p) -> calmer c c' -> Forall (ptr_least Ended c') live ->
  Forall (ptr_least Ended c') batch.
Proof.
  intros Hall Hc Hl. apply Forall_forall. intros p Hp. destruct (Hall p Hp) as [Hin|He].
  - rewrite Forall_forall in Hl. by apply Hl.
  - by eapply ptr_least_calmer.
Qed.

Lemma all_least_sub st c batch live : live ⊆ batch -> Forall (ptr_least st c) batch -> Forall (ptr_least st c) live.
Proof. rewrite !Forall_forall. intros Hsub Hb p Hp. by apply Hb, Hsub. Qed.

Lemma safe_execute_batch j e batch c :
  Forall (ptr_least Held c) batch ->
  safe_for (TWorker j) (prog_of (Worker.execute_batch (X := X) (Runtime.worker_of j) e batch))
    (fun _ c' => calmer c c' /\ Forall (ptr_least Ended c') batch) none c.
Proof.
  intros Hb. apply safe_prog_bind. eapply safe_mono; [|done|by apply (safe_filter _ Held)].
  intros batch1 c1 (Hc1 & Hsub1 & Hall1).
  assert (Hb1 : Forall (ptr_least Held c1) batch1) by (by eapply all_least_sub, all_least_calmer).
  assert (Hend : forall c', calmer c1 c' -> Forall (ptr_least Ended c') batch1 ->
    calmer c c' /\ Forall (ptr_least Ended c') batch).
  { intros c' Hc' Hl. split; [by etrans|]. by eapply all_ended. }
  destruct batch1 as [|p1 rest1]; [by apply Hend|]. set (batch1 := p1 :: rest1) in *.
  apply safe_prog_bind, safe_put; [done|]. apply safe_prog_bind, safe_put; [done|].
  apply safe_prog_bind, safe_guarded; [done|exact (fun st => Hend)|].
  apply safe_prog_bind. eapply safe_mono; [| |by apply safe_run_all]; [|done].
  intros [st|] c2 [Hc2 Hb2]; [by apply Hend|].
  apply safe_prog_bind. eapply safe_mono; [| |by apply (safe_filter _ Started)]; [|done].
  intros batch2 c3 (Hc3 & Hsub2 & Hall2).
  assert (Hb3 : Forall (ptr_least Started c3) batch2) by (by eapply all_least_sub, all_least_calmer).
  assert (Hend2 : forall c', calmer c3 c' -> Forall (ptr_least Ended c') batch2 ->
    calmer c c' /\ Forall (ptr_least Ended c') batch).
  { intros c' Hc' Hl. apply Hend; [by etrans; [exact Hc2|etrans]|]. by eapply all_ended. }
  apply safe_prog_bind, safe_guarded; [by apply (all_least_le Held Started); [simpl; lia|]|exact (fun st => Hend2)|].
  eapply safe_mono; [|done|by apply safe_resident].
  intros [st|batch3] c4 [Hc4 Hb4]; [by apply Hend2|]. destruct Hb4 as [Hsub3 Hall3].
  assert (Hb5 : Forall (ptr_least Started c4) batch3) by (by eapply all_least_sub, all_least_calmer).
  assert (Hend3 : forall c', calmer c4 c' -> Forall (ptr_least Ended c') batch3 ->
    calmer c c' /\ Forall (ptr_least Ended c') batch).
  { intros c' Hc' Hl. apply Hend2; [by etrans|]. by eapply all_ended. }
  apply safe_prog_bind, safe_guarded; [by apply (all_least_le Held Started); [simpl; lia|]|exact (fun st => Hend3)|].
  apply safe_prog_bind. eapply safe_mono; [| |by apply safe_inference]; [|done]. intros st c5 [Hc5 Hb6]. by apply Hend3.
Qed.

(** ** Forming a batch *)

(** The worker's duties are the requests [D]; it has taken at least one in this
    turn, and the deferred slot is empty. *)
Record forming (D : list RequestPtr) c : Prop := {
  forming_unstarted : unstarted c;
  forming_over : over c = false;
  forming_slot : slot c = true;
  forming_paid : (2 <= paid c <= 4)%nat;
  forming_owns l : owns c l -> Some l ∈ D;
  forming_held : Forall (ptr_least Held c) D
}.

Lemma forming_perm D D' c : D ≡ₚ D' -> forming D c -> forming D' c.
Proof.
  intros Hp [H1 H2 H3 H4 H5 H6]. split; [done..|intros l Hl; rewrite <- Hp; by apply H5|by rewrite <- Hp].
Qed.

Lemma forming_take l D c : forming D c -> forming (Some l :: D) (take l 4 (slot c) c).
Proof.
  intros [H1 H2 H3 H4 H5 H6]. destruct (raise_held c l) as (_ & Hh & _). split.
  - by apply (unstarted_raise l Held c).
  - simpl. by rewrite raise_over.
  - done.
  - simpl. lia.
  - intros l' (s & Hs & Hd). destruct (Hh l' s Hs) as [?|[_ ->]]; [right|by left]. apply H5. by exists s.
  - constructor; [exists l; split; [done|]; apply (raise_at_least l Held c)|].
    eapply Forall_impl; [exact H6|]. intros p (l' & -> & Hl'). exists l'. split; [done|]. by apply (raise_mono l Held c).
Qed.

Lemma forming_ended l D c : forming D c -> forming D (raise l Ended c).
Proof.
  intros [H1 H2 H3 H4 H5 H6]. split.
  - by apply unstarted_raise.
  - by rewrite raise_over.
  - by rewrite raise_slot.
  - by rewrite raise_paid.
  - intros l' [Ho _]%raise_ended_owns. by apply H5.
  - eapply all_least_calmer; [apply calmer_ended|done].
Qed.

Lemma forming_drop l D c : forming (Some l :: D) c -> forming D (raise l Ended c).
Proof.
  intros Hf. destruct (forming_ended l _ c Hf) as [H1 H2 H3 H4 H5 H6]. split; [done..| |by apply Forall_cons in H6 as []].
  intros l' Ho. destruct (raise_ended_owns l c l' Ho) as [_ Hne]. specialize (H5 l' Ho).
  apply elem_of_cons in H5 as [[= ->]|?]; done.
Qed.

Lemma forming_known D c p : forming D c -> p ∈ D -> ptr_least Known c p.
Proof.
  intros [_ _ _ _ _ H6] Hp. rewrite Forall_forall in H6. apply (ptr_least_le Known Held); [simpl; lia|]. by apply H6.
Qed.

Lemma safe_discard i j p (Q : unit -> ghost -> Prop) E c :
  Q tt c -> safe_for i (prog_of (Worker.discard_queued_request (X := X) (Runtime.worker_of j) p)) Q E c.
Proof.
  intros HQ. apply safe_prog_bind, safe_get. intros m. destruct (0 <? m); [|done]. by apply safe_put.
Qed.

Lemma forming_spend D c : forming D c -> (3 <= paid c)%nat -> forming D (spend c).
Proof. intros [H1 H2 H3 H4 H5 H6] Hp. split; [done..|simpl; lia|done|done]. Qed.

Lemma safe_pop_until j d D c :
  forming D c -> (3 <= paid c)%nat ->
  safe_for (TWorker j) (prog_of (Worker.pop_until (X := X) (Runtime.worker_of j) d))
    (fun o c' => match o with
       | None => forming D c'
       | Some p => (exists l, p = Some l) /\ forming (p :: D) c' /\ paid c' = 4%nat
       end) none c.
Proof.
  intros Hf Hp.
  apply (safe_loop _ _ (fun fuel => Worker.pop_live (X := X) (Runtime.worker_of j) fuel d))
    with (I := fun c => forming D c /\ (3 <= paid c)%nat); [done|].
  clear c Hf Hp. intros c0 [Hf Hp]. split; [lia|]. apply forming_spend in Hf; [|done].
  revert Hf. generalize (spend c0). clear c0 Hp. intros c Hf.
  destruct (forming_paid _ _ Hf) as [Hp1 Hp2]. apply safe_prog_bind, (safe_lane_pop_until _ _ _ _ _ 4); [done|lia| |done].
  intros l. pose proof (forming_take l D c Hf) as Ht.
  assert (Hk : at_least Known (take l 4 (slot c) c) l).
  { apply (at_least_le Known Held); [simpl; lia|]. apply (raise_at_least l Held c). }
  apply safe_prog_bind, safe_is_dead; [done| |].
  - apply safe_prog_bind, safe_discard. split; [by apply forming_drop|]. rewrite raise_paid. simpl. lia.
  - by split; [eexists|].
Qed.

Lemma safe_on_extra j l (Q : bool -> ghost -> Prop) E c :
  at_least Known c l -> Q false (raise l Ended c) -> Q true c ->
  safe_for (TWorker j) (prog_of (Worker.on_extra (X := X) (Runtime.worker_of j) (Some l))) Q E c.
Proof. intros Hk HF HT. apply safe_prog_bind, safe_is_dead; [done| |done]. by apply safe_prog_bind, safe_discard. Qed.

Lemma safe_earliest i e rs (Q : option time_point -> ghost -> Prop) E c :
  Forall (ptr_least Known c) rs -> (forall d, Q d c) -> safe_for i (prog_of (BatchBuilder.earliest_from e rs)) Q E c.
Proof.
  intros Hrs HQ. revert e. induction Hrs as [|p rs (l & -> & Hl) _ IH]; intros e; [apply HQ|].
  apply safe_prog_bind, safe_look; [done|]. intros [d|]; apply IH.
Qed.

Lemma safe_compute_deadline i b aw rs (Q : time_point -> ghost -> Prop) E c :
  Forall (ptr_least Known c) rs -> (forall d, Q d c) ->
  safe_for i (prog_of (BatchBuilder.compute_deadline b aw rs)) Q E c.
Proof.
  intros Hrs HQ. apply safe_prog_bind, safe_now. intros tp. apply safe_prog_bind, safe_earliest; [done|]. intros d.
  destruct (negb aw); [by apply safe_now|]. destruct d; apply HQ.
Qed.

(** What [form] hands out. *)
Definition formed (f : FormedBatch) c : Prop :=
  forming (option_list (deferred f) ++ requests f) c /\ forall p, deferred f = Some p -> paid c = 4%nat.

Lemma safe_form_loop j fuel b aw m rs c :
  forming rs c -> (3 <= paid c)%nat ->
  safe_for (TWorker j) (prog_of (BatchBuilder.form_loop fuel b (Worker.pop_until (X := X) (Runtime.worker_of j)) aw
    (Some (Worker.on_extra (X := X) (Runtime.worker_of j))) m rs)) formed none c.
Proof.
  revert rs c. induction fuel as [|fuel IH]; intros rs c Hf Hp; [by split|].
  unfold program_form_loop. simpl nat_rect. cbn [BatchBuilder.form_loop]. destruct (negb _); [by split|].
  apply safe_prog_bind, safe_compute_deadline.
  { apply Forall_forall. intros p. by apply forming_known. }
  intros d. apply safe_prog_bind. eapply safe_mono; [|done|by apply safe_pop_until].
  intros [p|] c1; [|by intros ?; split]. intros ((l & ->) & Hf1 & Hp1).
  assert (Hk : at_least Known c1 l) by (destruct (forming_known _ _ (Some l) Hf1) as (? & [= <-] & ?); [by left|done]).
  apply safe_prog_bind, safe_on_extra; [done| |].
  - split; [by apply forming_ended|]. intros p _. by rewrite raise_paid.
  - apply safe_prog_bind, safe_deref, safe_prog_bind, safe_look; [done|]. intros id. destruct (negb _).
    + split; [done|]. by intros p _.
    + apply IH; [|lia]. eapply forming_perm, Hf1. by rewrite <- Permutation_cons_append.
Qed.

Lemma safe_form j b first aw c :
  forming [first] c -> (3 <= paid c)%nat ->
  safe_for (TWorker j) (prog_of (BatchBuilder.form b first (Worker.pop_until (X := X) (Runtime.worker_of j)) aw
    (Some (Worker.on_extra (X := X) (Runtime.worker_of j))))) formed none c.
Proof.
  intros Hf Hp. destruct (forming_known _ _ first Hf) as (l & -> & Hl); [by left|].
  apply safe_prog_bind, safe_look; [done|]. intros m. by apply safe_form_loop.
Qed.

(** ** A turn of a worker *)

(** The worker's duties are the batch. *)
Definition batched (reqs : list RequestPtr) c : Prop :=
  (2 <= paid c)%nat /\ (forall l, owns c l -> Some l ∈ reqs) /\ Forall (ptr_least Held c) reqs.

(** The deferred request is back in its slot. *)
Lemma batched_give l reqs c :
  forming (Some l :: reqs) c -> batched reqs (give (bool_decide (Some l ∈ reqs)) l 2 false c).
Proof.
  intros [H1 H2 H3 H4 H5 H6]. apply Forall_cons in H6 as [_ H6]. split; [simpl; lia|].
  destruct (bool_decide_reflect (Some l ∈ reqs)) as [Hin|Hin]; split; [|done|..].
  - intros l' Ho. specialize (H5 l' Ho). apply elem_of_cons in H5 as [[= ->]|?]; done.
  - intros l' Ho. destruct (handed_owns l c l' H1 Ho) as [Ho' Hne]. specialize (H5 l' Ho').
    apply elem_of_cons in H5 as [[= ->]|?]; done.
  - rewrite Forall_forall in H6 |- *. intros p Hp. destruct (H6 p Hp) as (l' & -> & s & Hs & Hle).
    exists l'. split; [done|]. exists s. split; [|done]. simpl. unfold handed. destruct (decide _); [|done].
    simpl. rewrite lookup_insert_ne; [done|]. by intros ->.
Qed.

Lemma batched_formed reqs c : forming reqs c -> batched reqs c.
Proof. intros [H1 H2 H3 H4 H5 H6]. split; [lia|done]. Qed.

Lemma free_all_ended reqs c c' :
  (forall l, owns c l -> Some l ∈ reqs) -> calmer c c' -> Forall (ptr_least Ended c') reqs -> free c'.
Proof.
  intros Hown Hc Hall l Hl. rewrite Forall_forall in Hall. pose proof (calmer_owns _ _ Hc l Hl) as Ho.
  destruct (Hall (Some l)) as (l' & [= <-] & He); [by apply Hown|]. by apply (ended_not_owned c' l).
Qed.

(** The rest of the turn, from its end. *)
Lemma safe_live_batch j e live c :
  (forall c', calmer c c' -> Forall (ptr_least Ended c') live -> turn_post (TWorker j) true c') ->
  Forall (ptr_least Held c) live ->
  safe_for (TWorker j) (prog_of (match live with
    | [] => mret true
    | _ => _ ← Worker.execute_batch (X := X) (Runtime.worker_of j) e live; mret true
    end)) (turn_post (TWorker j)) none c.
Proof.
  intros Hend Hl. destruct live as [|p live]; [by apply Hend|]. apply safe_prog_bind.
  eapply safe_mono; [|done|by apply safe_execute_batch]. intros st c2 [Hc2 Hl2]. by apply Hend.
Qed.

Lemma safe_run_batch j e reqs c :
  batched reqs c ->
  safe_for (TWorker j) (prog_of (
    live ← Worker.filter_live_batch reqs;
    let removed := Z.of_nat (length reqs) - Z.of_nat (length live) in
    _ ← (if 0 <? removed then Worker.fetch_sub (X := X) (Runtime.worker_of j) removed else mret tt);
    match live with
    | [] => mret true
    | _ => _ ← Worker.execute_batch (Runtime.worker_of j) e live; mret true
    end)) (turn_post (TWorker j)) none c.
Proof.
  intros (Hp & Hown & Hb). apply safe_prog_bind. eapply safe_mono; [|done|by apply (safe_filter _ Held)].
  intros live c1 (Hc1 & Hsub & Hall). apply safe_prog_bind.
  assert (Hl1 : Forall (ptr_least Held c1) live) by (by eapply all_least_sub, all_least_calmer).
  assert (Hend : forall c', calmer c1 c' -> Forall (ptr_least Ended c') live -> turn_post (TWorker j) true c').
  { intros c' Hc' Hl. assert (Hcc : calmer c c') by (by etrans). split.
    - eapply free_all_ended; [exact Hown|done|]. by eapply all_ended.
    - rewrite (calmer_paid _ _ Hcc). done. }
  destruct (0 <? _); [apply safe_put; [done|]|]; by apply safe_live_batch.
Qed.

Lemma safe_run_reqs j e reqs c :
  batched reqs c ->
  safe_for (TWorker j) (prog_of (
    match reqs with
    | [] => mret true
    | p :: rest =>
        let reqs := p :: rest in
        live ← Worker.filter_live_batch reqs;
        let removed := Z.of_nat (length reqs) - Z.of_nat (length live) in
        _ ← (if 0 <? removed then Worker.fetch_sub (X := X) (Runtime.worker_of j) removed else mret tt);
        match live with
        | [] => mret true
        | _ => _ ← Worker.execute_batch (Runtime.worker_of j) e live; mret true
        end
    end)) (turn_post (TWorker j)) none c.
Proof.
  intros Hb. destruct reqs as [|p reqs]; [|by apply safe_run_batch]. destruct Hb as (H1 & H2 & _).
  split; [|done]. by intros l' ?%H2%elem_of_nil.
Qed.

Lemma safe_run_from j e l c :
  forming [Some l] c -> (3 <= paid c)%nat -> safe_for (TWorker j) (prog_of (
    dead ← is_dead_request (Some l);
    if (dead : bool) then _ ← Worker.discard_queued_request (X := X) (Runtime.worker_of j) (Some l); mret true else
    lane_closed ← Worker.get (Runtime.worker_of j) (fun s => BoundedQueue.closed (Worker.lane_ s));
    builder ← Worker.get (Runtime.worker_of j) Worker.batch_builder_;
    formed ← BatchBuilder.form builder (Some l) (Worker.pop_until (Runtime.worker_of j)) (negb lane_closed)
      (Some (Worker.on_extra (Runtime.worker_of j)));
    _ ← match deferred formed with
        | Some p => Worker.put (Runtime.worker_of j) (Worker.set_deferred (Some p))
        | None => mret tt
        end;
    match requests formed with
    | [] => mret true
    | reqs =>
        live ← Worker.filter_live_batch reqs;
        let removed := Z.of_nat (length reqs) - Z.of_nat (length live) in
        _ ← (if 0 <? removed then Worker.fetch_sub (Runtime.worker_of j) removed else mret tt);
        match live with
        | [] => mret true
        | _ => _ ← Worker.execute_batch (Runtime.worker_of j) e live; mret true
        end
    end)) (turn_post (TWorker j)) none c.
Proof.
  intros Hf Hp. destruct (forming_known _ _ (Some l) Hf) as (? & [= <-] & Hk); [by left|].
  apply safe_prog_bind, safe_is_dead; [done|..].
  { apply safe_prog_bind, safe_discard. pose proof (forming_drop l [] c Hf) as Hd. split.
    - intros l' Hl'. apply (forming_owns _ _ Hd), elem_of_nil in Hl'. done.
    - destruct (forming_paid _ _ Hd). done. }
  apply safe_prog_bind, safe_get. intros lane_closed. apply safe_prog_bind, safe_get. intros builder.
  apply safe_prog_bind. eapply safe_mono; [|done|by apply safe_form]. intros [reqs d] c2 [Hf2 Hp2]. simpl in Hf2, Hp2.
  apply safe_prog_bind. destruct d as [p|]; simpl in Hf2; [|exact (safe_run_reqs j e reqs c2 (batched_formed _ _ Hf2))].
  destruct (forming_known _ _ p Hf2) as (l2 & -> & _); [by left|].
  pose proof (forming_held _ _ Hf2) as Hh. apply Forall_cons in Hh as [(? & [= <-] & Hh) _].
  apply (safe_put_deferred j (bool_decide (Some l2 ∈ reqs))); [done|by apply (Hp2 (Some l2))|apply Hf2|apply Hf2|].
  exact (safe_run_reqs j e reqs _ (batched_give l2 reqs c2 Hf2)).
Qed.

Lemma forming_first l c : free c -> unstarted c -> over c = false -> forming [Some l] (take l 3 true c).
Proof.
  intros Hf Hu Ho. destruct (carries_take l 3 true c Hf Hu) as [H1 H2 H3 H4].
  split; [done|simpl; by rewrite raise_over|done|simpl; lia| |].
  - intros l' Hl'. apply H2 in Hl' as ->. by left.
  - constructor; [by exists l|done].
Qed.

Lemma safe_run_once j e c :
  free c -> unstarted c -> over c = false -> (1 <= paid c)%nat ->
  safe_for (TWorker j) (prog_of (Worker.run_once (X := X) (Runtime.worker_of j) e)) (turn_post (TWorker j)) none c.
Proof.
  intros Hf Hu Ho Hp. apply safe_prog_bind, safe_prog_bind, (safe_take_deferred _ _ _ _ 3); [lia|lia| |].
  - intros l. by apply safe_run_from; [apply forming_first|].
  - apply (safe_lane_pop _ _ _ _ 3); [done|lia|simpl; lia| |by split].
    intros l. by apply safe_run_from; [apply (forming_first l (set_slot true c))|].
Qed.

(** ** Stopping *)

Lemma still_close_scheduler i x : still i x (Runtime.over_scheduler BoundedQueue.close x).
Proof.
  split; [done|done|by apply steady_scheduler| |done]. intros [|j|]; simpl; [by intros [_ ?]|done|done].
Qed.

Lemma still_close_lane i j x : still i x (Runtime.over_worker j (Worker.over_lane BoundedQueue.close) x).
Proof.
  set (x' := Runtime.over_worker _ _ x).
  assert (Hw : forall k, worker_pointers (Runtime.workers_ x' !!! k) = worker_pointers (Runtime.workers_ x !!! k) /\
    Worker.deferred_ (Runtime.workers_ x' !!! k) = Worker.deferred_ (Runtime.workers_ x !!! k) /\
    (drained (Runtime.workers_ x !!! k) -> drained (Runtime.workers_ x' !!! k))).
  { intros k. unfold x'. destruct (decide (k = j)) as [->|Hne]; [|by rewrite worker_there].
    rewrite worker_here. split; [done|]. split; [done|]. by intros (_ & ? & ?). }
  split; [|done|by apply steady_worker| |intros k; apply Hw].
  - unfold pointers. f_equal. f_equal. apply list_fmap_ext. intros _ k _. apply Hw.
  - intros [|k|]; [done| |done]. apply Hw.
Qed.

Lemma safe_for_each_same i {A} (f : A -> M X unit) (Hf : forall a, Program (f a)) l c :
  (forall a, safe_for i (prog_of (f a)) (fun _ c' => c' = c) none c) ->
  safe_for i (prog_of (for_each f l)) (fun _ c' => c' = c) none c.
Proof.
  intros Hs. induction l as [|a l IH]; [done|]. apply safe_prog_bind. eapply safe_mono; [|done|apply Hs].
  by intros [] c' ->.
Qed.

(** A caller takes the handle of a thread. *)
Lemma still_take_routing m x : still (TCaller m) x (Runtime.set_thread false (Runtime.started_ x) x).
Proof. split; [done..| |done|done]. intros [|j|k]; (split; [done|]); [right; by split; [|intros []]|by left..]. Qed.

Lemma still_take_worker m j x :
  still (TCaller m) x (Runtime.over_worker j (fun s => Worker.set_thread (Worker.started_ s) false s) x).
Proof.
  set (x' := Runtime.over_worker _ _ x).
  assert (Hw : forall k, Worker.lane_ (Runtime.workers_ x' !!! k) = Worker.lane_ (Runtime.workers_ x !!! k) /\
    Worker.deferred_ (Runtime.workers_ x' !!! k) = Worker.deferred_ (Runtime.workers_ x !!! k) /\
    (handle (TWorker k) x' = handle (TWorker k) x \/ handle (TWorker k) x' = false)).
  { intros k. unfold x', handle. destruct (decide (k = j)) as [->|Hne]; [rewrite worker_here; auto|].
    rewrite worker_there by done. auto. }
  split; [|done| | |intros k; apply Hw].
  - unfold pointers. f_equal. f_equal. apply list_fmap_ext. intros _ k _. destruct (Hw k) as (Hl & Hd & _).
    unfold worker_pointers. by rewrite Hl, Hd.
  - intros [|k|]; [by split; [|left]| |by split; [|left]]. destruct (Hw k) as (Hl & _ & [Hh|Hh]); unfold closing, closed_lane_of;
      rewrite Hl; (split; [done|]); [by left|by right; split; [|intros []]].
  - intros [|k|]; [done| |done]. unfold drained_for, drained. destruct (Hw k) as (Hl & Hd & _). by rewrite Hl, Hd.
Qed.

Lemma safe_stop m c : safe_for (TCaller m) (prog_of (Runtime.stop : M X unit)) (fun _ c' => c' = c) none c.
Proof.
  apply safe_prog_bind, safe_neutral; [by intros x|]. intros _.
  apply safe_prog_bind, safe_still; [intros x; apply still_close_scheduler|]. intros _.
  apply safe_prog_bind, safe_still; [intros x; apply still_take_routing|]. intros _.
  apply safe_prog_bind. eapply safe_mono; [|done|apply safe_for_each_same].
  - intros [] c' ->. apply safe_for_each_same. intros j. apply safe_still; [|done]. intros x. apply still_take_worker.
  - intros j. apply safe_prog_bind, safe_put; [done|]. apply safe_still; [intros x; apply still_close_lane|done].
Qed.
End threads.
