(* ===== verification/MachineProofs.v ===== *)
(** * No request is lost

    Theorems about [Machine.v]: an invariant of every reachable state, proved
    by induction on the steps from the safety of the threads, the state after
    the threads have been joined, and the end of a shutdown. *)

From stdpp Require Import vector finite relations.
From S2P Require Import Prelude Status Requests World Queue Registry Resources Eviction.
From S2P Require Import Backends Manager Router Batch Scheduler Admission Worker WorkerProofs.
From S2P Require Import Guarantee WorkerDrain Runtime RuntimeProofs Programs.
From S2P Require Import Progress Machine MachineLogic MachineThreads.
Import InferenceRequest.

#[local] Existing Instance machine_shared.
#[local] Existing Instance machine_scheduler.

Section proofs.
Context {R B : Type} {n : nat} `{!IWorkerRouter R} `{!IModelBackend B} `{HO : !HashOrder}.
Notation X := (FifoRuntime R B n).
#[local] Notation machine := (machine (R := R) (B := B) (n := n)).
Implicit Types (x : X) (g : gmap (tid n) ghost) (h : gmap loc InferenceRequest.t) (c : ghost) (i : tid n) (s : machine).
#[local] Notation fixed := (fixed (n := n)).

(** ** One step of a safe thread *)

Lemma moves_spend i g h x c :
  inv g h x -> g !! i = Some c -> moves i g c (spend c) h x x.
Proof.
  intros Hi Hc. split; [|split; [intros Hcl; split; [done|simpl; lia]|split; [by intros l; left|apply steady_refl]]].
  apply (inv_shared g h x x i c _ [] []); try done.
  - by intros p ?%elem_of_nil.
  - by intros l st; left.
  - by intros l Hl; left.
  - by intros l ?%elem_of_nil.
  - pose proof (inv_paid _ _ _ Hi i c Hc). simpl. lia.
  - intros j -> Hsl. by eapply inv_slot.
Qed.

Lemma safe_step i (w w' : World X) (p p' : prog X bool) Q E g c :
  prog_step w p w' p' -> safe i p Q E c -> inv g (heap w) (shared w) -> g !! i = Some c ->
  exists c', moves i g c c' (heap w') (shared w) (shared w') /\ safe i p' Q E c' /\
    (sched_closed (shared w) ->
     (backlog (shared w') + paid c' + round_cost p <= backlog (shared w) + paid c)%nat).
Proof.
  intros Hst Hs Hi Hc. assert (Hsame : moves i g c c (heap w) (shared w) (shared w)) by (by apply moves_neutral).
  assert (Hfree : forall c', moves i g c c' (heap w') (shared w) (shared w') -> safe i p' Q E c' -> round_cost p = 0%nat ->
    exists c', moves i g c c' (heap w') (shared w) (shared w') /\ safe i p' Q E c' /\
    (sched_closed (shared w) ->
     (backlog (shared w') + paid c' + round_cost p <= backlog (shared w) + paid c)%nat)).
  { intros c' Hm Hs' ->. exists c'. split; [done|]. split; [done|]. intros Hcl. destruct Hm as (_ & Hb & _).
    destruct (Hb Hcl). lia. }
  destruct Hst as [w k|w T cond f k Hcond|w T cond d f k Hcond|w T cond d f k Hd|w T f l k r Hr|w T f l k Hl|w l ns k|w T fuel body k];
    simpl in Hs.
  - by apply (Hfree c).
  - destruct (Hs g (heap w) (shared w) Hi Hc Hcond) as (c' & ? & ?). by apply (Hfree c').
  - destruct (Hs g (heap w) (shared w) true Hi Hc (fun _ => Hcond)) as (c' & ? & ?). by apply (Hfree c').
  - destruct (Hs g (heap w) (shared w) false Hi Hc ltac:(done)) as (c' & ? & ?). by apply (Hfree c').
  - specialize (Hs g (heap w) (shared w) Hi Hc). rewrite Hr in Hs. destruct Hs as (c' & ? & ?). by apply (Hfree c').
  - specialize (Hs g (heap w) (shared w) Hi Hc). rewrite Hl in Hs. by apply (Hfree c).
  - by apply (Hfree c).
  - destruct Hs as (I & HI & Hround). destruct (Hround c HI) as [Hp Hb]. exists (spend c).
    split; [by apply moves_spend|]. split; [|intros _; simpl; lia].
    apply safe_prog_bind. eapply safe_mono; [|done|exact Hb]. intros [a|] c'; [done|]. intros Hc'. by exists I.
Qed.

(** ** Callers *)

Lemma inv_fresh g h x l r : inv g h x -> h !! l = None -> state_ r = Received -> inv g (<[l := r]> h) x.
Proof.
  intros [H1 H2 H3 H4 H5 H6 H7] Hl Hr.
  assert (Hkeep : forall l' r', h !! l' = Some r' -> <[l := r]> h !! l' = Some r').
  { intros l' r' Hl'. rewrite lookup_insert_ne; [done|]. intros ->. congruence. }
  split; [|..|done|done|done|done].
  - intros l' r' Hl'. apply lookup_insert_Some in Hl' as [[<- <-]|[_ Hl']]; [unfold covered; by rewrite Hr|by apply H1].
  - intros p Hp. destruct (H2 p Hp) as (l' & r' & -> & Hl' & Ha). exists l', r'. auto.
  - intros i c l' st Hc Hs. destruct (H3 i c l' st Hc Hs) as (r' & Hr' & Ho). exists r'. auto.
Qed.

(** The holders of a request act on it. *)
Lemma inv_calm g h x l r r' :
  inv g h x -> h !! l = Some r -> evolves r r' -> calm r r' -> inv g (<[l := r']> h) x.
Proof.
  intros [H1 H2 H3 H4 H5 H6 H7] Hl Hev Hcalm. split; [|..|done|done|done|done].
  - intros l' r0 Hl'. apply lookup_insert_Some in Hl' as [[<- <-]|[_ Hl']]; [|by apply H1].
    specialize (H1 l r Hl). unfold covered in *. destruct Hcalm as [->|Ht]; [done|].
    unfold terminal_req, is_terminal in Ht. by destruct (state_ r').
  - intros p Hp. destruct (H2 p Hp) as (l' & r0 & -> & Hl' & Ha).
    destruct (decide (l = l')) as [->|Hne]; [|exists l', r0; by rewrite lookup_insert_ne].
    exists l', r'. rewrite lookup_insert_eq. simplify_eq. split; [done|]. split; [done|]. by eapply admitted_closed.
  - intros i c l' st Hc Hs. destruct (H3 i c l' st Hc Hs) as (r0 & Hr0 & Ho).
    destruct (decide (l = l')) as [->|Hne]; [|exists r0; by rewrite lookup_insert_ne].
    exists r'. rewrite lookup_insert_eq. split; [done|]. simplify_eq. by eapply stage_ok_evolves.
Qed.

Lemma inv_act g (a : env_act X) w :
  outside_act a -> inv g (heap w) (shared w) ->
  inv g (heap (step_env a w)) (shared (step_env a w)) /\ shared (step_env a w) = shared w /\ env (step_env a w) = env w.
Proof.
  intros Ha Hi. destruct a as [l o|d|[]]; simpl in *; [|done].
  destruct (heap w !! l) as [r|] eqn:Hl; [|done].
  pose proof (outside_calm o r Ha) as Hc. pose proof (apply_op_evolves o r) as Hev.
  destruct (apply_op o r) as [r' ns]. split; [|done]. simpl. by eapply inv_calm.
Qed.

(** A thread with no duties comes or goes. *)
Lemma inv_insert g h x i c :
  inv g h x -> (forall c0, g !! i = Some c0 -> free c0) ->
  (forall l st, hand c !! l = Some st -> st = Known /\ is_Some (h !! l)) -> (paid c <= limit i)%nat ->
  over c = false -> slot c = false ->
  inv (<[i := c]> g) h x.
Proof.
  intros [H1 H2 H3 H4 H5 H6 H7] Hfree Hh Hp Ho Hs. split.
  - intros l r Hl. specialize (H1 l r Hl). unfold covered in *. destruct (state_ r); try done.
    + destruct H1 as [?|(j & d & Hj & Hd)]; [by left|right]. exists j, d. rewrite lookup_insert_ne; [done|].
      intros ->. by apply (Hfree d Hj l).
    + destruct H1 as (j & d & Hj & Hd). exists j, d. rewrite lookup_insert_ne; [done|].
      intros ->. apply (Hfree d Hj l). exists Started. split; [done|by right].
  - done.
  - intros j d l st Hj Hst. apply lookup_insert_Some in Hj as [[<- <-]|[_ Hj]]; [|by eapply H3].
    destruct (Hh l st Hst) as [-> [r Hr]]. by exists r.
  - intros j d l Hj Hst. apply lookup_insert_Some in Hj as [[<- <-]|[_ Hj]]; [|by eapply H4].
    by destruct (Hh l Started Hst) as [? _].
  - intros j d Hj. apply lookup_insert_Some in Hj as [[<- <-]|[_ Hj]]; [done|by eapply H5].
  - intros j Hj. apply H6. unfold finished in *. destruct (decide (i = j)) as [->|Hne].
    + rewrite lookup_insert_eq in Hj. congruence.
    + by rewrite lookup_insert_ne in Hj.
  - intros j d Hj Hsl. apply lookup_insert_Some in Hj as [[_ <-]|[_ Hj]]; [congruence|by eapply H7].
Qed.

Lemma inv_delete g h x i c :
  inv g h x -> g !! i = Some c -> free c -> drained_for i x -> inv (delete i g) h x.
Proof.
  intros [H1 H2 H3 H4 H5 H6 H7] Hc Hfree Hd. split.
  - intros l r Hl. specialize (H1 l r Hl). unfold covered in *. destruct (state_ r); try done.
    + destruct H1 as [?|(j & d & Hj & Hown)]; [by left|right]. exists j, d. rewrite lookup_delete_ne; [done|].
      intros ->. simplify_eq. by apply (Hfree l).
    + destruct H1 as (j & d & Hj & Hown). exists j, d. rewrite lookup_delete_ne; [done|].
      intros ->. simplify_eq. apply (Hfree l). exists Started. split; [done|by right].
  - done.
  - intros j d l st [_ Hj]%lookup_delete_Some. by eapply H3.
  - intros j d l [_ Hj]%lookup_delete_Some. by eapply H4.
  - intros j d [_ Hj]%lookup_delete_Some. by eapply H5.
  - intros j Hj. destruct (decide (i = j)) as [->|Hne]; [done|]. apply H6. unfold finished in *.
    by rewrite lookup_delete_ne in Hj.
  - intros j d [_ Hj]%lookup_delete_Some. by eapply H7.
Qed.

(** ** The invariant of the machine *)

(** At the beginning of a turn, which has one round of a loop to its credit. *)
Definition is_fixed i : nat := match i with TCaller _ => 0 | _ => 1 end.
Definition idle_ghost i : ghost := mkGhost ∅ (is_fixed i) false false.

Definition watched g s : Prop := forall i,
  match pool s !! i, g !! i with
  | Some th, Some c => safe i (code th) (turn_post i) none c /\ dom (hand c) ⊆ taken th
  | None, None => True
  | _, _ => False
  end.

Definition machine_inv g s : Prop :=
  env (world s) = [] /\ inv g (heap (world s)) (shared (world s)) /\ watched g s.

Lemma free_idle i : free (idle_ghost i).
Proof. intros l (st & Hst & _). simpl in Hst. by rewrite lookup_empty in Hst. Qed.

Lemma unstarted_idle i : unstarted (idle_ghost i).
Proof. intros l. simpl. by rewrite lookup_empty. Qed.

Lemma turn_safe i e : safe (R := R) (B := B) i (turn_of i e) (turn_post i) none (idle_ghost i).
Proof.
  pose proof (free_idle i) as Hf. pose proof (unstarted_idle i) as Hu. destruct i as [|j|m]; simpl turn_of.
  - by apply safe_routing_once.
  - by apply safe_run_once.
  - by split.
Qed.

(** ** The work that is left *)

Lemma elem_of_fixed i : i ∈ fixed <-> forall m, i <> TCaller m.
Proof.
  unfold fixed. rewrite elem_of_cons, list_elem_of_fmap. split.
  - by intros [->|(j & -> & _)] m.
  - destruct i as [|j|m]; intros H; [by left| |by destruct (H m)]. right. exists j. split; [done|apply elem_of_enum].
Qed.

Lemma NoDup_fixed : NoDup fixed.
Proof.
  constructor; [by intros (j & ? & _)%list_elem_of_fmap|].
  apply NoDup_fmap_2; [by intros j k [= ->]|apply NoDup_enum].
Qed.

(** The turns a thread may still take on its own account. *)
Definition credit g i : nat := match g !! i with Some c => S (paid c) | None => 0 end.

Definition potential_of g x : nat := backlog x + sum_list (credit g <$> fixed).

Lemma sum_list_but {A} (f f' : A -> nat) (a : A) (l : list A) :
  NoDup l -> a ∈ l -> (forall b, b <> a -> f' b = f b) ->
  (sum_list (f' <$> l) + f a = sum_list (f <$> l) + f' a)%nat.
Proof.
  intros Hnd Hin Hf. induction Hnd as [|b l Hb Hnd IH]; [by apply elem_of_nil in Hin|].
  apply elem_of_cons in Hin as [->|Hin]; csimpl.
  - cut (sum_list (f' <$> l) = sum_list (f <$> l)); [lia|]. f_equal. apply list_fmap_ext.
    intros k b' Hk. apply Hf. intros ->. apply Hb. by eapply list_elem_of_lookup_2.
  - assert (f' b = f b) by (apply Hf; by intros ->). specialize (IH Hin). lia.
Qed.

(** A change of one thread. *)
Lemma credit_but g g' i :
  i ∈ fixed -> (forall k, k <> i -> g' !! k = g !! k) ->
  (sum_list (credit g' <$> fixed) + credit g i = sum_list (credit g <$> fixed) + credit g' i)%nat.
Proof. intros Hi Hg. apply sum_list_but; [apply NoDup_fixed|done|]. intros k Hk. unfold credit. by rewrite Hg. Qed.

Lemma credit_caller g g' m :
  (forall k, k <> TCaller m -> g' !! k = g !! k) ->
  sum_list (credit g' <$> fixed) = sum_list (credit g <$> fixed).
Proof.
  intros Hg. f_equal. apply list_fmap_ext. intros k i Hi. apply list_elem_of_lookup_2 in Hi. rewrite elem_of_fixed in Hi.
  unfold credit. by rewrite Hg.
Qed.

(** Once the scheduler is closed, [k] turns are taken out of the potential. *)
Definition costs (k : nat) g s g' s' : Prop :=
  sched_closed (shared (world s)) ->
  sched_closed (shared (world s')) /\
  (potential_of g' (shared (world s')) + k <= potential_of g (shared (world s)))%nat.

(** ** Every step keeps the invariant *)

Lemma thread_ok g s i s' :
  machine_inv g s -> thread_step s i s' ->
  exists g', machine_inv g' s' /\
    costs (is_fixed i * from_option (fun th => round_cost (code th)) 0%nat (pool s !! i)) g s g' s'.
Proof.
  intros (He & Hi & Hw) [i0 th w' p' Hth Hst]. pose proof (Hw i0) as Hwi. rewrite Hth in Hwi.
  destruct (g !! i0) as [c|] eqn:Hc; [|done]. destruct Hwi as [Hs Hdom].
  destruct (safe_step i0 _ _ _ _ _ _ g c Hst Hs Hi Hc) as (c' & (Hi' & Hb & Hnew & _) & Hs' & Hcost).
  assert (He' : env w' = []) by (by destruct Hst).
  exists (<[i0 := c']> g). split; [split; [done|split; [done|]]|].
  - intros k. simpl. destruct (decide (i0 = k)) as [<-|Hne].
    + rewrite !lookup_insert_eq. split; [done|]. intros l Hl%elem_of_dom. apply elem_of_union.
      destruct (Hnew l Hl) as [Hold|Hocc]; [left; by apply Hdom, elem_of_dom|right].
      unfold freed. apply elem_of_list_to_set, list_elem_of_filter. split; [done|].
      apply list_elem_of_omap. exists (Some l). split; [|done].
      assert (Hin : Some l ∈ filter (fun q => q = Some l) (pointers (shared (world s)))).
      { unfold occurrences in Hocc. destruct (filter _ (pointers (shared (world s)))) as [|q qs] eqn:E; [simpl in Hocc; lia|].
        assert (Hq : q ∈ filter (fun q => q = Some l) (pointers (shared (world s)))) by (rewrite E; by left).
        pose proof Hq as Hq'. apply list_elem_of_filter in Hq' as [-> _]. by left. }
      by apply list_elem_of_filter in Hin as [_ ?].
    + rewrite !lookup_insert_ne by done. apply Hw.
  - intros Hcl. destruct (Hb Hcl) as [Hcl' Hle]. specialize (Hcost Hcl). split; [done|]. rewrite Hth. simpl. unfold potential_of.
    destruct (decide (i0 ∈ fixed)) as [Hf|Hf].
    + pose proof (credit_but g (<[i0 := c']> g) i0 Hf (fun k Hk => lookup_insert_ne g i0 k c' (not_eq_sym Hk))) as Hsum.
      unfold credit in Hsum at 2 4. rewrite Hc, lookup_insert_eq in Hsum. clear -Hsum Hcost. set (r := round_cost _) in *. assert (is_fixed i0 * r <= r)%nat by (destruct i0; simpl; lia). lia.
    + destruct i0 as [|j|m]; [destruct Hf; by apply elem_of_fixed..|].
      rewrite (credit_caller g (<[TCaller m := c']> g) m) by (intros; by rewrite lookup_insert_ne).
      pose proof (inv_paid _ _ _ Hi _ c Hc) as Hp. simpl in Hp.
      pose proof (inv_paid _ _ _ Hi' (TCaller m) c' ltac:(apply lookup_insert_eq)) as Hp'. simpl in Hp'. simpl. lia.
Qed.

Lemma turn_ok g s i s' :
  machine_inv g s -> turn_step s i s' -> exists g', machine_inv g' s' /\ costs (is_fixed i) g s g' s'.
Proof.
  intros (He & Hi & Hw) Hst. destruct Hst as [i th e Hth Hcode|i th Hth Hcode];
    pose proof (Hw i) as Hwi; rewrite Hth in Hwi; (destruct (g !! i) as [c|] eqn:Hc; [|done]);
    destruct Hwi as [Hs Hdom]; rewrite Hcode in Hs; simpl in Hs; destruct Hs as [Hfree Hpost].
  - exists (<[i := idle_ghost i]> g). split; [split; [done|split]|].
    + apply inv_insert; [done|intros c0 Hc0; by simplify_eq| |destruct i; simpl; lia|done|done].
      intros l st Hl. simpl in Hl. by rewrite lookup_empty in Hl.
    + intros k. simpl. destruct (decide (i = k)) as [<-|Hne]; [|rewrite !lookup_insert_ne by done; apply Hw].
      rewrite !lookup_insert_eq. split; [apply turn_safe|]. simpl. rewrite dom_empty_L. set_solver.
    + intros Hcl. split; [done|]. simpl. unfold potential_of.
      assert (Hf : i ∈ fixed) by (apply elem_of_fixed; by intros m ->).
      pose proof (credit_but g (<[i := idle_ghost i]> g) i Hf (fun k Hk => lookup_insert_ne g i k _ (not_eq_sym Hk))) as Hsum.
      unfold credit in Hsum at 2 4. rewrite Hc, lookup_insert_eq in Hsum. simpl in Hsum.
      destruct i as [|j|m]; simpl in *; [lia..|done].
  - exists (delete i g). split; [split; [done|split]|].
    + eapply inv_delete; [done|done|done|]. destruct i as [|j|m]; [..|done];
        apply (inv_over _ _ _ Hi); unfold finished; by rewrite Hc.
    + intros k. simpl. destruct (decide (i = k)) as [<-|Hne]; [by rewrite !lookup_delete_eq|].
      rewrite !lookup_delete_ne by done. apply Hw.
    + intros Hcl. split; [done|]. simpl. unfold potential_of. destruct (decide (i ∈ fixed)) as [Hf|Hf].
      * pose proof (credit_but g (delete i g) i Hf (fun k Hk => lookup_delete_ne g i k (not_eq_sym Hk))) as Hsum.
        unfold credit in Hsum at 2 4. rewrite Hc, lookup_delete_eq in Hsum. destruct i; simpl in *; lia.
      * destruct i as [|j|m]; [destruct Hf; by apply elem_of_fixed..|].
        rewrite (credit_caller g (delete (TCaller m) g) m) by (intros; by rewrite lookup_delete_ne). simpl. lia.
Qed.

Lemma enter_ok g s m c (th : thread) :
  machine_inv g s -> pool s !! TCaller m = None -> free c ->
  (forall l st, hand c !! l = Some st -> st = Known /\ is_Some (heap (world s) !! l)) ->
  paid c = 0%nat -> over c = false -> slot c = false ->
  safe (R := R) (B := B) (n := n) (TCaller m) (code th) (turn_post (n := n) (TCaller m)) none c -> dom (hand c) ⊆ taken th ->
  let s' := mkMachine (world s) (<[TCaller m := th]> (pool s)) in
  exists g', machine_inv g' s' /\ costs 0 g s g' s'.
Proof.
  intros (He & Hi & Hw) Hnone Hfree Hhand Hp Ho Hs Hsafe Hdom s'.
  assert (Hg : g !! TCaller m = None).
  { specialize (Hw (TCaller m)). rewrite Hnone in Hw. by destruct (g !! TCaller m). }
  exists (<[TCaller m := c]> g). split; [split; [done|split]|].
  - apply inv_insert; [done| |done|simpl; lia|done|done]. intros c0 Hc0. congruence.
  - intros k. simpl. destruct (decide (TCaller m = k)) as [<-|Hne]; [by rewrite !lookup_insert_eq|].
    rewrite !lookup_insert_ne by done. apply Hw.
  - intros Hcl. split; [done|]. simpl. unfold potential_of.
    rewrite (credit_caller g (<[TCaller m := c]> g) m) by (intros; by rewrite lookup_insert_ne). lia.
Qed.

Lemma submit_safe m l c :
  at_least Known c l -> free c -> unstarted c ->
  safe (R := R) (B := B) (n := n) (TCaller m) (submit_code l) (turn_post (n := n) (TCaller m)) none c.
Proof.
  intros Hk Hf Hu. apply safe_prog_bind. eapply safe_mono; [|done|by apply safe_submit]. intros st c' Hf'. by split.
Qed.

Lemma stop_safe m : safe (R := R) (B := B) (n := n) (TCaller m) stop_code (turn_post (n := n) (TCaller m)) none (idle_ghost (TCaller m)).
Proof.
  apply safe_prog_bind. eapply safe_mono; [|done|apply safe_stop]. intros [] c' ->. split; [apply free_idle|done].
Qed.

Lemma caller_ok g s s' :
  machine_inv g s -> caller_step s s' -> exists g', machine_inv g' s' /\ costs 0 g s g' s'.
Proof.
  intros Hm Hst. pose proof Hm as (He & Hi & Hw).
  destruct Hst as [l r Hl Hr|a Ha|m l Hnone [r Hl]|m Hnone].
  - exists g. split; [split; [done|split; [by apply inv_fresh|done]]|]. intros Hcl. split; [done|simpl; lia].
  - exists g. destruct (inv_act g a (world s) Ha Hi) as (Hi' & Hs & He'). split; [split; [simpl; congruence|by split]|].
    unfold costs. simpl. rewrite Hs. intros Hcl. split; [done|lia].
  - apply (enter_ok g s m (mkGhost {[l := Known]} 0 false false)); try done; simpl.
    + intros l' (st & Hst & Hd). simpl in Hst. apply lookup_singleton_Some in Hst as [_ <-]. by destruct Hd.
    + intros l' st [<- <-]%lookup_singleton_Some. by split; [|exists r].
    + apply submit_safe.
      * exists Known. simpl. by rewrite lookup_singleton_eq.
      * intros l' (st & Hst & Hd). simpl in Hst. apply lookup_singleton_Some in Hst as [_ <-]. by destruct Hd.
      * intros l'. simpl. by intros [_ ?]%lookup_singleton_Some.
    + by rewrite dom_singleton_L.
  - apply (enter_ok g s m (idle_ghost (TCaller m))); try done; simpl.
    + apply free_idle.
    + apply stop_safe.
Qed.

Lemma initial_ok s : initial s -> exists g, machine_inv g s.
Proof.
  intros [He _ Hr Hp Hpool]. set (g := map_imap (fun i _ => Some (idle_ghost i)) (pool s)).
  assert (Hg : forall i, g !! i = (fun _ => idle_ghost i) <$> pool s !! i).
  { intros i. unfold g. rewrite map_lookup_imap. by destruct (pool s !! i). }
  assert (Hidle : forall i c, g !! i = Some c -> c = idle_ghost i).
  { intros i c. rewrite Hg. by destruct (pool s !! i); intros [= <-]. }
  exists g. split; [done|split].
  - split.
    + intros l r Hl. unfold covered. by rewrite (Hr l r Hl).
    + intros p. rewrite Hp. by intros ?%elem_of_nil.
    + intros i c l st ->%Hidle Hst. simpl in Hst. by rewrite lookup_empty in Hst.
    + intros i c l ->%Hidle Hst. simpl in Hst. by rewrite lookup_empty in Hst.
    + intros i c ->%Hidle. destruct i; simpl; lia.
    + intros i. unfold finished. rewrite Hg. specialize (Hpool i). destruct i as [|j|m]; [..|done].
      * by destruct Hpool as [e ->].
      * by destruct Hpool as [e ->].
    + intros j c ->%Hidle. done.
  - intros i. rewrite Hg. specialize (Hpool i). destruct i as [|j|m]; [..|by rewrite Hpool].
    + destruct Hpool as [e ->]. split; [apply (turn_safe TRouting)|]. simpl. rewrite dom_empty_L. set_solver.
    + destruct Hpool as [e ->]. split; [apply (turn_safe (TWorker j))|]. simpl. rewrite dom_empty_L. set_solver.
Qed.

Lemma step_ok g s s' : machine_inv g s -> step s s' -> exists g', machine_inv g' s'.
Proof.
  intros Hm [(i & [Hst|Hst])|Hst].
  - destruct (thread_ok g s i s' Hm Hst) as (g' & ? & _). by exists g'.
  - destruct (turn_ok g s i s' Hm Hst) as (g' & ? & _). by exists g'.
  - destruct (caller_ok g s s' Hm Hst) as (g' & ? & _). by exists g'.
Qed.

Lemma reachable_ok s : reachable s -> exists g, machine_inv g s.
Proof.
  intros (s0 & H0 & Hrtc). apply initial_ok in H0 as (g0 & H0). revert g0 H0.
  induction Hrtc as [s1|s1 s2 s3 Hst _ IH]; intros g Hg; [by exists g|].
  destruct (step_ok g s1 s2 Hg Hst) as (g' & Hg'). by apply (IH g').
Qed.

(** What a step does to the queues and the handles. *)
Lemma thread_steady s i s' : reachable s -> thread_step s i s' -> steady i (shared (world s)) (shared (world s')).
Proof.
  intros (g & He & Hi & Hw)%reachable_ok [i0 th w' p' Hth Hst]. specialize (Hw i0). rewrite Hth in Hw.
  destruct (g !! i0) as [c|] eqn:Hc; [|done]. destruct Hw as [Hs _].
  by destruct (safe_step i0 _ _ _ _ _ _ g c Hst Hs Hi Hc) as (c' & (_ & _ & _ & Hsteady) & _).
Qed.

Lemma act_shared s a : outside_act a -> shared (step_env a (world s)) = shared (world s).
Proof. destruct a as [l o|d|a]; simpl; [|done|done]. destruct (heap (world s) !! l) as [r|]; [|done]. by destruct (apply_op o r). Qed.

Lemma caller_shared s s' : caller_step s s' -> shared (world s') = shared (world s).
Proof. intros [l r _ _|a Ha|m l _ _|m _]; [done|by apply act_shared|done|done]. Qed.

Lemma turn_shared s i s' : turn_step s i s' -> world s' = world s.
Proof. by intros []. Qed.

(** ** No thread waits for what is closed *)

(** The turns of the threads, and the calls of the callers. *)
Section threads.
Context (P : forall A, prog X A -> Prop) `{HP : !Closed P}.

Lemma every_turn i e :
  (Every P (BoundedQueue.wait_pop Runtime.scheduler_of) (program_wait_pop _)) ->
  (forall j, Every P (BoundedQueue.wait_pop (Worker.lane_lens_of (Runtime.worker_of j))) (program_wait_pop _)) ->
  (forall j d, Every P (BoundedQueue.wait_pop_until (Worker.lane_lens_of (Runtime.worker_of j)) d)
     (program_wait_pop_until _ d)) ->
  P bool (turn_of i e).
Proof.
  intros Hs Hp Hu. destruct i as [|j|m]; [..|exact (closed_done P false)]; simpl turn_of.
  - exact (every_routing_once P _ (every_fifo_next P Runtime.scheduler_of Hs) e).
  - exact (every_run_once (Runtime.worker_of j) P (Hp j) (Hu j) e).
Qed.

Lemma every_submit_code l : P bool (submit_code l).
Proof.
  apply (every_bind P); [|intros st; apply (every_ret P)].
  apply (every_submit P). intros p. apply (every_fifo_enqueue P Runtime.scheduler_of).
Qed.

Lemma every_stop_code : P bool (stop_code (R := R) (B := B) (n := n)).
Proof.
  apply (every_bind P); [|intros u; apply (every_ret P)].
  pose proof (every_fifo_close P Runtime.scheduler_of) as Hclose.
  assert (Hs : Every P Runtime.stop program_stop); [|exact Hs].
  unfold Runtime.stop, program_stop, program_join. apply _.
Qed.
End threads.

Lemma opens_turn i e : opens (closing i) (turn_of (R := R) (B := B) i e).
Proof.
  destruct i as [|j|m]; [..|done]; simpl turn_of.
  - exact (every_routing_once (@opens X _ (closing TRouting)) _
      (every_fifo_next _ Runtime.scheduler_of (opens_wait_pop (closing TRouting) Runtime.scheduler_of (fun x H => H))) e).
  - exact (every_run_once (Runtime.worker_of j) (@opens X _ (closing (TWorker j)))
      (opens_wait_pop (closing (TWorker j)) (Worker.lane_lens_of (Runtime.worker_of j)) (fun x H => H))
      (opens_wait_pop_until (closing (TWorker j)) (Worker.lane_lens_of (Runtime.worker_of j)) (fun x H => H)) e).
Qed.

Lemma opens_submit_code l : opens (fun _ : X => True) (submit_code l).
Proof. exact (every_submit_code (@opens X _ (fun _ => True)) l). Qed.

Lemma opens_stop_code : opens (fun _ : X => True) (stop_code (R := R) (B := B) (n := n)).
Proof. exact (every_stop_code (@opens X _ (fun _ => True))). Qed.

Definition opened s : Prop := forall i th, pool s !! i = Some th -> opens (closing i) (code th).

Lemma initial_opened s : initial s -> opened s.
Proof.
  intros [_ _ _ _ Hpool] i th Hth. specialize (Hpool i). destruct i as [|j|m]; [..|congruence].
  - destruct Hpool as [e He]. rewrite He in Hth. injection Hth as <-. apply (opens_turn TRouting).
  - destruct Hpool as [e He]. rewrite He in Hth. injection Hth as <-. apply (opens_turn (TWorker j)).
Qed.

Lemma step_opened s s' : opened s -> step s s' -> opened s'.
Proof.
  intros Ho [(i & [Hst|Hst])|Hst].
  - destruct Hst as [i th w' p' Hth Hst]. intros k th'. simpl. intros Hk.
    apply lookup_insert_Some in Hk as [[<- <-]|[_ Hk]]; [|by apply Ho]. simpl. eapply opens_step; [done|by apply Ho].
  - destruct Hst as [i th e Hth Hcode|i th Hth Hcode]; intros k th'; simpl; intros Hk.
    + apply lookup_insert_Some in Hk as [[<- <-]|[_ Hk]]; [|by apply Ho]. apply opens_turn.
    + apply lookup_delete_Some in Hk as [_ Hk]. by apply Ho.
  - destruct Hst as [l r Hl Hr|a Ha|m l Hnone _|m Hnone]; [done|done|..]; intros k th'; simpl; intros Hk;
      (apply lookup_insert_Some in Hk as [[<- <-]|[_ Hk]]; [|by apply Ho]).
    + apply opens_submit_code.
    + apply opens_stop_code.
Qed.

Lemma reachable_opened s : reachable s -> opened s.
Proof.
  intros (s0 & H0 & Hrtc). apply initial_opened in H0. induction Hrtc as [s1|s1 s2 s3 Hst _ IH]; [done|].
  apply IH. by eapply step_opened.
Qed.
End proofs.
