(* ===== verification/Shutdown.v ===== *)
(** * The end of a shutdown

    Theorems about the runs of [Machine.v]: where every request is in every
    reachable state, what has become of it when the threads have ended, that no
    exception leaves a thread, and that a shutdown ends. Once the scheduler is
    closed there is no infinite run of the threads of the runtime: a turn of a
    thread and a round of a loop are paid for by the work that is left, and the
    steps in between go down a tree. *)

From stdpp Require Import vector finite relations.
From S2P Require Import Prelude Status Requests World Queue Registry Resources Eviction.
From S2P Require Import Backends Manager Router Batch Scheduler Admission Worker WorkerProofs.
From S2P Require Import Guarantee WorkerDrain Runtime RuntimeProofs Programs.
From S2P Require Import Progress Machine MachineLogic MachineRuns MachineThreads MachineProofs.
Import InferenceRequest.

#[local] Existing Instance machine_shared.
#[local] Existing Instance machine_scheduler.

(** ** Programs are well-founded between rounds *)

Section trees.
Context {X : Type} `{SX : !Shared X}.

(** What a critical section leaves to do. *)
Definition subtree {A} (q p : prog X A) : Prop :=
  match p with
  | Done _ | Raise _ | Loop _ _ _ => False
  | Now k => exists tp, q = k tp
  | Critical _ _ k => exists a, q = k a
  | Timed _ _ _ k => exists a, q = k a
  | OnRequest _ _ k => exists o, q = k o
  | Deliver _ _ k => q = k
  end.

Lemma subtree_acc {A} (p : prog X A) : Acc subtree p.
Proof.
  induction p as [A a|A e|A k IH|A T cond f k IH|A T cond d f k IH|A T f l k IH|A l ns k IH|A T fuel body _ k _];
    constructor; intros q Hq; simpl in Hq; [done|done|..|done]; first [destruct Hq as [? ->]|rewrite Hq]; apply IH.
Qed.

Lemma step_subtree {A} (w w' : World X) (p p' : prog X A) :
  prog_step w p w' p' -> round_cost p = 1%nat \/ subtree p' p.
Proof. intros []; simpl; eauto. Qed.
End trees.

(** One of finitely many descends, the others stay. *)
Section descent.
Context {I T : Type} `{!EqDecision I} (below : T -> T -> Prop).

Definition descends (l : list I) (f' f : I -> T) : Prop :=
  exists i, i ∈ l /\ below (f' i) (f i) /\ forall j, j ∈ l -> j <> i -> f' j = f j.

Lemma descends_acc l f : NoDup l -> (forall i, i ∈ l -> Acc below (f i)) -> Acc (descends l) f.
Proof.
  intros Hnd. revert f. induction Hnd as [|a l Ha Hnd IH]; intros f Hf.
  { constructor. intros f' (i & Hi & _). by apply elem_of_nil in Hi. }
  assert (Hl : Acc (descends l) f) by (apply IH; intros i Hi; apply Hf; by right).
  assert (Htop : Acc below (f a)) by (apply Hf; by left).
  remember (f a) as x eqn:Hx. revert f Hf Hl Hx. induction Htop as [x _ IHx]. intros f Hf Hl. revert Hf.
  induction Hl as [f _ IHf]. intros Hf Hx. constructor. intros f' (i & Hi & Hb & Hoth).
  assert (Hf' : forall j, j ∈ a :: l -> Acc below (f' j)).
  { intros j Hj. destruct (decide (j = i)) as [->|Hne]; [by apply (Acc_inv (Hf i Hi))|]. rewrite Hoth by done. by apply Hf. }
  destruct (decide (i = a)) as [->|Hia].
  - apply (IHx (f' a)); [by rewrite Hx|done| |done]. apply IH. intros j Hj. apply Hf'. by right.
  - apply IHf; [|done|rewrite Hoth; [done|by left|done]]. exists i. apply elem_of_cons in Hi as [?|Hi]; [done|].
    split; [done|]. split; [done|]. intros j Hj. apply Hoth. by right.
Qed.
End descent.

Section shutdown.
Context {R B : Type} {n : nat} `{!IWorkerRouter R} `{!IModelBackend B} `{HO : !HashOrder}.
Notation X := (FifoRuntime R B n).
#[local] Notation machine := (machine (R := R) (B := B) (n := n)).
#[local] Notation fixed := (fixed (n := n)).
Implicit Types (x : X) (g : gmap (tid n) ghost) (i : tid n) (s : machine).

(** ** No infinite run *)

Definition code_at s i : option (prog X bool) := code <$> pool s !! i.

Definition below (q p : option (prog X bool)) : Prop :=
  match q, p with Some q, Some p => subtree q p | _, _ => False end.

Lemma below_acc o : Acc below o.
Proof.
  destruct o as [p|]; [|by constructor; intros []]. induction (subtree_acc p) as [p _ IH].
  constructor. intros [q|] Hq; [by apply IH|done].
Qed.

Lemma in_fixed i : of_runtime i -> i ∈ fixed.
Proof. intros Hi. apply elem_of_fixed. by intros m ->. Qed.

Lemma caller_not_fixed m : TCaller m ∉ fixed.
Proof. intros Hin. by apply (proj1 (elem_of_fixed _) Hin m). Qed.

(** A step of a thread changes no other thread. *)
Lemma moves_of_other i s s' k : moves_of i s s' -> k <> i -> pool s' !! k = pool s !! k.
Proof.
  intros [[j th w' p' _ _]|[j th e _ _|j th _ _]] Hne; simpl;
    [by rewrite lookup_insert_ne|by rewrite lookup_insert_ne|by rewrite lookup_delete_ne].
Qed.

Lemma caller_move_fixed s s' k : caller_move s s' -> k ∈ fixed -> pool s' !! k = pool s !! k.
Proof.
  intros Hst Hk. assert (Hne : forall m, k <> TCaller m) by (intros m ->; by apply (caller_not_fixed m)).
  destruct Hst as [[l r _ _|a _|m l _ _|m _]|[m Hst]]; simpl; [done|done|..];
    [by rewrite lookup_insert_ne..|]. by eapply moves_of_other.
Qed.

(** Once the scheduler is closed the callers bring no work. *)
Definition idles g s g' s' : Prop :=
  machine_inv g' s' /\ sched_closed (shared (world s')) /\
  (potential_of g' (shared (world s')) <= potential_of g (shared (world s)))%nat.

Lemma caller_move_idles g s s' :
  machine_inv g s -> sched_closed (shared (world s)) -> caller_move s s' -> exists g', idles g s g' s'.
Proof.
  intros Hm Hcl Hst. cut (exists g', machine_inv g' s' /\ costs 0 g s g' s').
  { intros (g' & Hm' & Hc). destruct (Hc Hcl). exists g'. split; [done|]. split; [done|lia]. }
  destruct Hst as [Hst|[m [Hst|Hst]]].
  - by apply caller_ok.
  - by apply (thread_ok g s (TCaller m)).
  - by apply (turn_ok g s (TCaller m)).
Qed.

Lemma caller_moves_idle g s s' :
  machine_inv g s -> sched_closed (shared (world s)) -> rtc caller_move s s' ->
  exists g', idles g s g' s' /\ forall k, k ∈ fixed -> pool s' !! k = pool s !! k.
Proof.
  intros Hm Hcl Hrtc. revert g Hm Hcl. induction Hrtc as [s|s s1 s' Hst _ IH]; intros g Hm Hcl; [by exists g|].
  destruct (caller_move_idles g s s1 Hm Hcl Hst) as (g1 & Hm1 & Hcl1 & Hle1).
  destruct (IH g1 Hm1 Hcl1) as (g' & (Hm' & Hcl' & Hle') & Hpool). exists g'. split.
  - split; [done|]. split; [done|lia].
  - intros k Hk. rewrite Hpool by done. by eapply caller_move_fixed.
Qed.

(** A thread of the runtime works off what is left, or goes down its tree. *)
Lemma runtime_moves g s i s' :
  machine_inv g s -> sched_closed (shared (world s)) -> of_runtime i -> moves_of i s s' ->
  exists g', idles g s g' s' /\
    ((potential_of g' (shared (world s')) < potential_of g (shared (world s)))%nat \/
     descends below fixed (code_at s') (code_at s)).
Proof.
  intros Hm Hcl Hi Hst. destruct Hst as [Hst|Hst].
  - destruct (thread_ok g s i s' Hm Hst) as (g' & Hm' & Hc). destruct (Hc Hcl) as [Hcl' Hle]. clear Hc.
    exists g'. split; [split; [done|]; split; [done|lia]|].
    destruct Hst as [i th w' p' Hth Hst]. rewrite Hth in Hle. simpl in Hle.
    destruct (step_subtree _ _ _ _ Hst) as [Hr|Hsub].
    + left. rewrite Hr in Hle. destruct i; simpl in *; [lia|lia|done].
    + right. exists i. split; [by apply in_fixed|]. unfold code_at. simpl. rewrite lookup_insert_eq, Hth.
      split; [done|]. intros j _ Hne. by rewrite lookup_insert_ne.
  - destruct (turn_ok g s i s' Hm Hst) as (g' & Hm' & Hc). destruct (Hc Hcl) as [Hcl' Hle].
    exists g'. split; [split; [done|]; split; [done|lia]|]. left. destruct i; simpl in *; [lia|lia|done].
Qed.

Lemma advance_acc g s : machine_inv g s -> sched_closed (shared (world s)) -> Acc (flip advance) s.
Proof.
  remember (potential_of g (shared (world s))) as N eqn:HN. assert (HN' : (potential_of g (shared (world s)) <= N)%nat) by lia.
  clear HN. revert g s HN'. induction (lt_wf N) as [N _ IHN]. intros g s HN Hm Hcl.
  assert (Hacc : Acc (descends below fixed) (code_at s)).
  { apply descends_acc; [apply NoDup_fixed|]. intros i _. apply below_acc. }
  remember (code_at s) as f eqn:Hf. assert (Hf' : forall i, i ∈ fixed -> code_at s i = f i) by (by intros; rewrite Hf).
  clear Hf. revert g s HN Hm Hcl Hf'. induction Hacc as [f _ IHf]. intros g s HN Hm Hcl Hf.
  constructor. intros s' (s1 & i & Hcallers & Hi & Hst).
  destruct (caller_moves_idle g s s1 Hm Hcl Hcallers) as (g1 & (Hm1 & Hcl1 & Hle1) & Hpool).
  destruct (runtime_moves g1 s1 i s' Hm1 Hcl1 Hi Hst) as (g' & (Hm' & Hcl' & Hle') & [Hlt|Hd]).
  - apply (IHN (potential_of g' (shared (world s'))) ltac:(lia) g'); [lia|done|done].
  - apply (IHf (code_at s')) with (g := g'); [|lia|done|done|done].
    destruct Hd as (k & Hk & Hb & Hoth).
    assert (Hsame : forall j, j ∈ fixed -> code_at s1 j = f j) by (intros j Hj; rewrite <- Hf by done; unfold code_at; by rewrite Hpool).
    exists k. split; [done|]. split; [by rewrite <- Hsame|]. intros j Hj Hne. by rewrite Hoth, Hsame.
Qed.

(** ** A bound on the turns *)

Lemma turns_bound k s s' g :
  turns k s s' -> machine_inv g s -> sched_closed (shared (world s)) ->
  (k <= potential_of g (shared (world s)))%nat.
Proof.
  intros Hr. revert g. induction Hr as [s|k s s1 s' Hst _ IH|k i s s1 s' Hi Hst _ IH|k i s s1 s' Hi Hst _ IH];
    intros g Hm Hcl; [lia|..].
  - destruct (caller_move_idles g s s1 Hm Hcl Hst) as (g1 & Hm1 & Hcl1 & Hle). specialize (IH g1 Hm1 Hcl1). lia.
  - destruct (thread_ok g s i s1 Hm Hst) as (g1 & Hm1 & Hc). destruct (Hc Hcl) as [Hcl1 Hle].
    specialize (IH g1 Hm1 Hcl1). lia.
  - destruct (turn_ok g s i s1 Hm Hst) as (g1 & Hm1 & Hc). destruct (Hc Hcl) as [Hcl1 Hle].
    specialize (IH g1 Hm1 Hcl1). destruct i; simpl in *; [lia|lia|done].
Qed.

Lemma potential_running g s :
  machine_inv g s -> (potential_of g (shared (world s)) <= backlog (shared (world s)) + 5 * running s)%nat.
Proof.
  intros (_ & Hi & Hw). unfold potential_of, running. apply Nat.add_le_mono_l.
  induction fixed as [|i l IH]; [simpl; lia|]. csimpl. rewrite filter_cons.
  specialize (Hw i). unfold credit at 1. destruct (g !! i) as [c|] eqn:Hc.
  - pose proof (inv_paid _ _ _ Hi i c Hc) as Hp. destruct (pool s !! i) as [th|]; [|done].
    rewrite decide_True by (by exists th). simpl. destruct i; simpl in Hp; lia.
  - destruct (pool s !! i) as [th|]; [done|]. rewrite decide_False; [lia|]. by intros [].
Qed.

(** ** Threads that can get on *)

Lemma enabled i s th :
  reachable s -> pool s !! i = Some th -> closing i (shared (world s)) -> exists s', moves_of i s s'.
Proof.
  intros Hs Hth Hcl. pose proof (reachable_opened s Hs i th Hth) as Ho.
  destruct (reachable_ok s Hs) as (g & _ & _ & Hw). specialize (Hw i). rewrite Hth in Hw.
  destruct (g !! i) as [c|]; [|done]. destruct Hw as [Hsafe _].
  assert (Hgo : forall w' p', prog_step (world s) (code th) w' p' -> exists s', moves_of i s s')
    by (intros w' p' Hp; eexists; left; by econstructor).
  destruct (code th) as [[]|e|k|T cond f k|T cond d f k|T f l k|l ns k|T fuel body k] eqn:E.
  - eexists. right. by apply (turn_again s i th 0).
  - eexists. right. by apply (turn_ends s i th).
  - done.
  - eapply Hgo. constructor.
  - destruct Ho as [Ho _]. eapply Hgo. constructor. by apply Ho.
  - destruct Ho as [Ho _]. eapply Hgo. apply step_timely. by apply Ho.
  - destruct (heap (world s) !! l) as [r|] eqn:Hl; eapply Hgo; [by eapply step_request|by eapply step_dangling].
  - eapply Hgo. constructor.
  - eapply Hgo. constructor.
Qed.

(** ** Where the requests are *)

Lemma owner_handles g s i c l st :
  machine_inv g s -> g !! i = Some c -> hand c !! l = Some st -> duty st -> handles i s l.
Proof.
  intros (_ & _ & Hw) Hc Hl Hd. specialize (Hw i). rewrite Hc in Hw.
  destruct (pool s !! i) as [th|] eqn:Hth; [|done]. destruct Hw as [Hsafe Hdom]. exists th. split; [done|]. split.
  - apply Hdom, elem_of_dom. by eexists.
  - intros more Hcode. rewrite Hcode in Hsafe. destruct Hsafe as [Hfree _]. apply (Hfree l). by exists st.
Qed.

Lemma covered_located g s l r : machine_inv g s -> heap (world s) !! l = Some r -> located s l r.
Proof.
  intros Hm Hl. pose proof Hm as (_ & Hi & _). pose proof (inv_cover _ _ _ Hi l r Hl) as Hcov.
  unfold covered, located in *. destruct (state_ r); try done.
  - destruct Hcov as [?|(i & c & Hc & st & Hst & Hd)]; [by left|right]. exists i. by eapply owner_handles.
  - destruct Hcov as (i & c & Hc & Hst). destruct (inv_started _ _ _ Hi i c l Hc Hst) as [j ->]. exists j.
    by apply (owner_handles g s _ c l Started); [..|right].
Qed.

Lemma joined_empty g s : machine_inv g s -> joined s -> pointers (shared (world s)) = [].
Proof.
  intros (_ & Hi & Hw) [Hr Hj].
  assert (Hdr : forall i, pool s !! i = None -> drained_for i (shared (world s))).
  { intros i Hnone. apply (inv_over _ _ _ Hi). unfold finished. specialize (Hw i). rewrite Hnone in Hw.
    by destruct (g !! i). }
  destruct (Hdr TRouting Hr) as [_ Hq]. unfold pointers. rewrite Hq. simpl.
  assert (Hall : forall j, worker_pointers (Runtime.workers_ (shared (world s)) !!! j) = []).
  { intros j. destruct (Hdr (TWorker j) (Hj j)) as (_ & Hlane & Hdef). unfold worker_pointers. by rewrite Hlane, Hdef. }
  clear -Hall. induction (fin_enum n) as [|j js IH]; [done|]. csimpl. by rewrite Hall, IH.
Qed.
End shutdown.

(** C1: No request is ever lost. In every state the machine can reach from a
    started runtime with empty queues, with the critical sections of the
    routing thread, the workers, and any number of callers inside [submit] and
    [stop] interleaved in any order, for every backend, router and eviction
    policy: a request that is [Queued] is in the scheduler's queue, a worker's
    lane or a worker's deferred slot, or a thread in the middle of its turn has
    taken it; one that is [Running] was taken by a worker in the middle of its
    turn. *)
Theorem no_request_lost {R B n} `{!IWorkerRouter R} `{!IModelBackend B} `{HO : !HashOrder}
    (s : machine (R := R) (B := B) (n := n)) l r :
  reachable s -> heap (world s) !! l = Some r -> located s l r.
Proof. intros (g & Hm)%reachable_ok Hl. by eapply covered_located. Qed.

(** When the routing thread and the
    workers have ended, which is what the two joins of [Runtime::stop] wait
    for, every request that is not terminal was never submitted, or a caller
    is still inside [submit] with it. *)
Lemma joined_settles {R B n} `{!IWorkerRouter R} `{!IModelBackend B} `{HO : !HashOrder}
    (s : machine (R := R) (B := B) (n := n)) l r :
  reachable s -> joined s -> heap (world s) !! l = Some r ->
  state_ r = Received \/ terminal_req r \/ (state_ r = Queued /\ exists m, handles (TCaller m) s l).
Proof.
  intros (g & Hm)%reachable_ok Hj Hl. pose proof (covered_located g s l r Hm Hl) as Hloc.
  pose proof (joined_empty g s Hm Hj) as Hempty. destruct Hj as [Hr Hw].
  assert (Hgone : forall i, handles i s l -> exists m, i = TCaller m).
  { intros i (th & Hth & _). destruct i as [|j|m]; [congruence|by rewrite Hw in Hth|by exists m]. }
  unfold located in Hloc. unfold terminal_req, is_terminal.
  destruct (state_ r) eqn:Hst; [by left| | |by right; left..].
  - right. right. split; [done|]. rewrite Hempty in Hloc. destruct Hloc as [?%elem_of_nil|[i Hi]]; [done|].
    destruct (Hgone i Hi) as [m ->]. by exists m.
  - destruct Hloc as [j Hi]. by destruct (Hgone _ Hi).
Qed.

(** A shutdown ends. Once the scheduler is closed, whatever the callers
    do: there is no infinite run of the threads of the runtime; they end at
    most [4] turns per request in the scheduler, [2] per request with a worker
    and [5] per thread; and a thread that has not ended can always take its
    next step, the routing thread at once and a worker as soon as [stop] has
    closed its lane. *)
Lemma threads_wind_down {R B n} `{!IWorkerRouter R} `{!IModelBackend B} `{HO : !HashOrder}
    (s : machine (R := R) (B := B) (n := n)) :
  reachable s -> sched_closed (shared (world s)) ->
  Acc (flip advance) s /\
  (forall k s', turns k s s' -> (k <= backlog (shared (world s)) + 5 * running s)%nat) /\
  (forall i, of_runtime i -> is_Some (pool s !! i) -> closing i (shared (world s)) -> exists s', moves_of i s s').
Proof.
  intros Hs Hcl. destruct (reachable_ok s Hs) as (g & Hm). split; [by eapply advance_acc|]. split.
  - intros k s' Hr. pose proof (turns_bound k s s' g Hr Hm Hcl). pose proof (potential_running g s Hm). lia.
  - intros i _ [th Hth] Hi. by eapply enabled.
Qed.


(** ** A run of a small system *)

Definition demo_machine : machine (R := unit) (B := Synthetic.t) (n := 2) :=
  mkMachine (mkWorld ({[1%positive := demo_request "a" "m"; 2%positive := demo_request "b" "m"]}
              : gmap loc InferenceRequest.t) 0 [] demo_runtime []) (started_pool (HO := gmap_order) 0).

Lemma demo_initial : initial (HO := gmap_order) demo_machine.
Proof.
  split; [done|done|..|by vm_compute|].
  - intros l r Hl. simpl in Hl. apply lookup_insert_Some in Hl as [[_ <-]|[_ Hl]]; [done|].
    by apply lookup_singleton_Some in Hl as [_ <-].
  - intros i. simpl. rewrite started_pool_lookup. destruct i; [by eexists|by eexists|done].
Qed.

Notation demo_move := (move (R := unit) (B := Synthetic.t) (n := 2)).
Definition demo_run (mvs : list demo_move) (s : machine (R := unit) (B := Synthetic.t) (n := 2)) :=
  default s (exec_all (HO := gmap_order) mvs s).

(** Two callers submit at the same time, their critical sections interleaved;
    the scheduler has one place. Then the routing thread takes the request,
    and stops in the middle of its turn. *)
Definition demo_moves : list demo_move :=
  [MoveSubmit 0 1%positive; MoveSubmit 1 2%positive;
   MoveSections (TCaller 0) 3; MoveSections (TCaller 1) 4; MoveSections (TCaller 0) 100;
   MoveSections (TCaller 1) 100; MoveSections TRouting 4].
Definition demo_taken := demo_run demo_moves demo_machine.

(** [stop] closes the scheduler. *)
Definition demo_closing := demo_run
  [MoveTurn (TCaller 0) 0; MoveTurn (TCaller 1) 0; MoveStop 2; MoveSections (TCaller 2) 2] demo_taken.

Lemma demo_taken_reachable : reachable (HO := gmap_order) demo_taken.
Proof. apply exec_reachable; [exists demo_machine; by split; [apply demo_initial|]|by vm_compute]. Qed.

Lemma demo_closing_reachable : reachable (HO := gmap_order) demo_closing.
Proof. apply exec_reachable; [apply demo_taken_reachable|by vm_compute]. Qed.

(** The request is in no queue: the routing thread has it. *)
Lemma no_request_lost_witness : exists r,
  heap (world demo_taken) !! 1%positive = Some r /\ state_ r = Queued /\
  pointers (shared (world demo_taken)) = [] /\ located demo_taken 1%positive r.
Proof.
  assert (Hst : state_ <$> heap (world demo_taken) !! 1%positive = Some Queued) by (by vm_compute).
  apply fmap_Some in Hst as (r & Hr & Hq). exists r. split; [exact Hr|]. split; [by symmetry|].
  split; [by vm_compute|].
  exact (no_request_lost (HO := gmap_order) demo_taken 1%positive r demo_taken_reachable Hr).
Defined.

