(* ===== verification/Joins.v ===== *)
(** * Joining the threads

    [Runtime::stop] and [Worker::join] move the handle of a thread
    ([JoinThread], include/airuntime/threading.hpp) into a local variable whose
    destructor waits for the thread to end. This file adds that wait to the
    machine of [Machine.v]: a thread that took handles does nothing more until
    the threads they belong to are gone. Every step of this machine is a step
    of [Machine.v], so what holds there holds here. What the waits give is
    proved here: when [stop] has returned the threads of the runtime have ended
    and nobody is left waiting for a result, and [stop] does return. *)

From stdpp Require Import vector finite relations fin_sets.
From S2P Require Import Prelude Status Requests World Queue Registry Resources Eviction.
From S2P Require Import Backends Manager Router Batch Scheduler Admission Worker WorkerProofs.
From S2P Require Import Guarantee WorkerDrain Runtime RuntimeProofs Programs.
From S2P Require Import Progress Machine MachineLogic MachineRuns MachineThreads MachineProofs Shutdown.
Import InferenceRequest.

#[local] Existing Instance machine_shared.
#[local] Existing Instance machine_scheduler.

Section joins.
Context {R B : Type} {n : nat} `{!IWorkerRouter R} `{!IModelBackend B} `{HO : !HashOrder}.
Notation X := (FifoRuntime R B n).
#[local] Notation machine := (machine (R := R) (B := B) (n := n)).
#[local] Notation fixed := (fixed (n := n)).
Implicit Types (x : X) (i k : tid n) (c : nat).

(** ** The machine with joins *)

(** [owed] are the handles each thread holds. *)
Record joining := mkJoining { base : machine; owed : gmap (tid n) (gset (tid n)) }.
Implicit Types s : joining.

Definition state_of s : X := shared (world (base s)).
Definition owes s i : gset (tid n) := default ∅ (owed s !! i).

(** The handles a critical section moved out of their places. *)
Definition taken_handles x x' : gset (tid n) :=
  list_to_set (filter (fun i => handle i x = true /\ handle i x' = false) fixed).

(** [~JoinThread]: the threads whose handles thread [i] holds have ended. *)
Definition clear s i : Prop := set_Forall (fun k => pool (base s) !! k = None) (owes s i).

Inductive join_moves s i : joining -> Prop :=
  | join_section b :
      clear s i -> thread_step (base s) i b ->
      join_moves s i (mkJoining b (<[i := taken_handles (state_of s) (shared (world b))]> (owed s)))
  | join_turn b :
      clear s i -> turn_step (base s) i b -> join_moves s i (mkJoining b (delete i (owed s))).

Inductive join_caller s : joining -> Prop :=
  | join_calls b : caller_step (base s) b -> join_caller s (mkJoining b (owed s)).

Definition join_step s s' : Prop := (exists i, join_moves s i s') \/ join_caller s s'.

(** After [start], every handle is in its place. *)
Definition join_initial s : Prop :=
  initial (base s) /\ owed s = ∅ /\ forall i, of_runtime i -> handle i (state_of s) = true.

Definition join_reachable s : Prop := exists s0, join_initial s0 /\ rtc join_step s0 s.

(** Caller [c] calls [stop]; the call goes on; the call returns. *)
Definition calls_stop c s s' : Prop :=
  pool (base s) !! TCaller c = None /\
  s' = mkJoining (mkMachine (world (base s)) (<[TCaller c := mkThread stop_code ∅]> (pool (base s)))) (owed s).

Definition within c s s' : Prop := join_step s s' /\ is_Some (pool (base s') !! TCaller c).

Definition stopping c s s' : Prop := exists s1, calls_stop c s s1 /\ rtc (within c) s1 s'.

Definition stop_returned c s s' : Prop :=
  exists s1, stopping c s s1 /\ join_moves s1 (TCaller c) s' /\ pool (base s') !! TCaller c = None.

(** Another caller does something. *)
Definition other_caller c s s' : Prop := join_caller s s' \/ exists m, m <> c /\ join_moves s (TCaller m) s'.

(** A thread of the runtime or the call of [stop] gets on, after whatever the
    other callers do. *)
Definition call_step c s s' : Prop :=
  exists s1 i, rtc (other_caller c) s s1 /\ (of_runtime i \/ i = TCaller c) /\ join_moves s1 i s' /\
    is_Some (pool (base s') !! TCaller c).

(** ** It refines the machine without joins *)

Lemma join_moves_base s i s' : join_moves s i s' -> moves_of i (base s) (base s').
Proof. intros [b _ Hst|b _ Hst]; [by left|by right]. Qed.

Lemma join_step_base s s' : join_step s s' -> step (base s) (base s').
Proof. intros [[i Hst%join_moves_base]|[b Hst]]; [left; by exists i|by right]. Qed.

Lemma join_run_base s s' : rtc join_step s s' -> rtc step (base s) (base s').
Proof. induction 1; [done|]. eapply rtc_l; [by apply join_step_base|done]. Qed.

Lemma join_reachable_base s : join_reachable s -> reachable (base s).
Proof. intros (s0 & (H0 & _) & Hrun%join_run_base). by exists (base s0). Qed.

(** ** What only grows *)

(** What was closed stays closed, and no handle is put back. *)
Definition later x x' : Prop :=
  forall k, (closing k x -> closing k x') /\ (handle k x = false -> handle k x' = false).

#[local] Instance later_preorder : PreOrder later.
Proof. split; [by intros x k|]. intros x1 x2 x3 H1 H2 k. destruct (H1 k), (H2 k). auto. Qed.

Lemma steady_later i x x' : steady i x x' -> later x x'.
Proof. intros Hs k. destruct (Hs k) as [Hc [Hh|[Hh _]]]; split; [done|congruence|done|done]. Qed.

Lemma join_step_later s s' : reachable (base s) -> join_step s s' -> later (state_of s) (state_of s').
Proof.
  intros Hr [[i [b _ Hst|b _ Hst]]|[b Hst]]; unfold state_of; simpl.
  - by eapply steady_later, thread_steady.
  - by rewrite (turn_shared _ _ _ Hst).
  - by rewrite (caller_shared _ _ Hst).
Qed.

Definition grows (F : X -> Prop) : Prop := Proper (later ==> impl) F.

Lemma grows_closing k : grows (closing k).
Proof. intros x x' H. exact (proj1 (H k)). Qed.
Lemma grows_gone k : grows (fun x => handle k x = false).
Proof. intros x x' H. exact (proj2 (H k)). Qed.
Lemma grows_and F G : grows F -> grows G -> grows (fun x => F x /\ G x).
Proof. intros HF HG x x' H [H1 H2]. split; [by eapply HF|by eapply HG]. Qed.
#[local] Hint Resolve grows_closing grows_gone grows_and : core.

(** ** The call of [stop] *)

(** Whatever the others do in between, the program only waits for threads
    whose queue is closed, as the scheduler is, and ends with [Q]. *)
Fixpoint takes {A} (p : prog X A) (Q : A -> X -> Prop) x : Prop :=
  match p with
  | Done a => forall x1, later x x1 -> Q a x1
  | Critical cond f next => forall x1, later x x1 -> cond x1 = true ->
      (forall k, handle k x1 = true -> handle k (f x1).2 = false -> closing k x1 /\ closing TRouting x1) /\
      later x1 (f x1).2 /\ takes (next (f x1).1) Q (f x1).2
  | _ => False
  end.

Lemma takes_later {A} (p : prog X A) Q : grows (takes p Q).
Proof.
  intros x x' Hl. destruct p; simpl; try done.
  - intros H x1 H1. apply H. by transitivity x'.
  - intros H x1 H1. apply H. by transitivity x'.
Qed.

Lemma takes_bind {A A'} (p : prog X A) (q : A -> prog X A') Q x :
  takes p (fun a => takes (q a) Q) x -> takes (prog_bind p q) Q x.
Proof.
  revert x. induction p as [A a|A e|A k IH|A T cond f k IH|A T cond d f k IH|A T f l k IH|A l ns k IH|A T fuel body _ k IH];
    intros x; simpl; try done.
  - intros H. by apply H.
  - intros H x1 H1 Hc. destruct (H x1 H1 Hc) as (Hh & Hl & Ht). eauto.
Qed.

Lemma takes_mono {A} (p : prog X A) (Q Q' : A -> X -> Prop) x :
  (forall a x, Q a x -> Q' a x) -> takes p Q x -> takes p Q' x.
Proof.
  intros HQ. revert x. induction p as [A a|A e|A k IH|A T cond f k IH|A T cond d f k IH|A T f l k IH|A l ns k IH|A T fuel body _ k IH];
    intros x; simpl; try done.
  - intros H x1 H1. by apply HQ, H.
  - intros H x1 H1 Hc. destruct (H x1 H1 Hc) as (Hh & Hl & Ht). split; [done|]. split; [done|]. by eapply IH.
Qed.

Lemma takes_step {A} (w w' : World X) (p p' : prog X A) Q :
  prog_step w p w' p' -> takes p Q (shared w) ->
  (forall k, handle k (shared w) = true -> handle k (shared w') = false -> closing k (shared w) /\ closing TRouting (shared w)) /\
  later (shared w) (shared w') /\ takes p' Q (shared w') /\ subtree p' p.
Proof.
  intros Hp Ht. destruct Hp; try done. destruct (Ht (shared w)) as (Hh & Hl & Ht'); [done|done|].
  split; [done|]. split; [done|]. split; [done|]. by eexists.
Qed.

(** A critical section that knows [F] and achieves [G]. *)
Lemma takes_updating (f : X -> X) (F G : X -> Prop) x :
  grows F -> grows G -> F x -> (forall x, F x -> G (f x) /\ forall k, (closing k x -> closing k (f x)) /\
    (handle k (f x) = handle k x \/ (handle k (f x) = false /\ closing k x /\ closing TRouting x))) ->
  takes (prog_of (updating f)) (fun _ => G) x.
Proof.
  intros HF HG Hx Hf x1 H1 _. assert (Hx1 : F x1) by (by eapply HF). destruct (Hf x1 Hx1) as [Hg Hk].
  split; [|split].
  - intros k Ht Hn. simpl in Hn. destruct (Hk k) as [_ [Hh|(_ & ? & ?)]]; [congruence|done].
  - intros k. simpl. destruct (Hk k) as [Hc [Hh|(Hh & _)]]; (split; [done|congruence]).
  - intros x2 H2. by eapply HG.
Qed.

Lemma takes_steady (f : X -> X) (G : X -> Prop) x :
  grows G -> (forall x, G (f x) /\ steady TRouting x (f x)) -> takes (prog_of (updating f)) (fun _ => G) x.
Proof.
  intros HG Hf. apply (takes_updating _ (fun _ => True)); [done|done|done|]. intros y _.
  destruct (Hf y) as [Hg Hs]. split; [done|]. intros k. destruct (Hs k) as [Hc [Hh|[_ []]]]; [|done]. by split; [|left].
Qed.

(** What is known before is known after. *)
Lemma takes_frame {A} (p : prog X A) (Q : A -> X -> Prop) (G : X -> Prop) x :
  grows G -> G x -> takes p Q x -> takes p (fun a x => Q a x /\ G x) x.
Proof.
  intros HG. revert x. induction p as [A a|A e|A k IH|A T cond f k IH|A T cond d f k IH|A T f l k IH|A l ns k IH|A T fuel body _ k IH];
    intros x Hx; simpl; try done.
  - intros H x1 H1. split; [by apply H|by eapply HG].
  - intros H x1 H1 Hc. destruct (H x1 H1 Hc) as (Hh & Hl & Ht). split; [done|]. split; [done|]. apply IH; [|done].
    eapply HG; [|exact Hx]. by transitivity x1.
Qed.

Lemma takes_for_each {T} (f : T -> M X unit) (Hf : forall a, Program (f a)) (F : X -> Prop) (D : T -> X -> Prop) l x :
  grows F -> (forall a, grows (D a)) -> F x ->
  (forall a x, F x -> takes (prog_of (f a)) (fun _ => D a) x) ->
  takes (prog_of (for_each f l)) (fun _ x => F x /\ forall a, a ∈ l -> D a x) x.
Proof.
  intros HF HD Hx Hs. revert x Hx. induction l as [|a l IH]; intros x Hx.
  - intros x1 H1. split; [by eapply HF|]. by intros a ?%elem_of_nil.
  - apply (takes_bind (prog_of (f a)) (fun _ => prog_of (for_each f l))).
    eapply takes_mono; [|apply (takes_frame _ (fun _ => D a) F); [done|done|by apply Hs]]. intros [] x1 [Ha H1].
    eapply takes_mono; [|apply (takes_frame _ (fun _ x => F x /\ forall a, a ∈ l -> D a x) (D a)); [done|done|by apply IH]].
    intros _ x2 [[H2 Hl] Ha2]. split; [done|]. intros b [->|Hb]%elem_of_cons; [done|by apply Hl].
Qed.

(** Nothing more can enter, and no thread was left to itself. *)
Definition shut x : Prop := forall k, closing k x /\ handle k x = false.

(** The sections of [stop] that close the scheduler and take the handle of the
    routing thread, and those that close a lane and take the handle of a worker. *)
Lemma takes_close_scheduler x : takes (prog_of (sched_close (X := X))) (fun _ => closing TRouting) x.
Proof. apply takes_steady; [done|]. intros y. split; [done|]. by apply steady_scheduler. Qed.

Lemma takes_routing x :
  closing TRouting x ->
  takes (prog_of (updating (fun x : X => Runtime.set_thread false (Runtime.started_ x) x)))
    (fun _ x => handle TRouting x = false) x.
Proof.
  intros Hx. apply (takes_updating _ (closing TRouting)); [done|done|done|]. intros y Hy. split; [done|]. intros k.
  destruct k as [|j|m]; (split; [done|]); [by right|by left|by left].
Qed.

Lemma takes_close_lane j x :
  takes (prog_of (Worker.close (X := X) (Runtime.worker_of j))) (fun _ => closing (TWorker j)) x.
Proof.
  apply (takes_bind (prog_of (Worker.put _ _)) (fun _ => prog_of (updating _))).
  eapply takes_mono; [|apply (takes_steady _ (fun _ => True)); [done|]].
  - intros [] y _. apply takes_steady; [done|]. intros z. split; [|by apply steady_worker].
    change (closed_lane_of j (Runtime.over_worker j (Worker.over_lane BoundedQueue.close) z)).
    unfold closed_lane_of. by rewrite worker_here.
  - intros y. split; [done|]. by apply steady_worker.
Qed.

Lemma takes_join j x :
  closing (TWorker j) x -> closing TRouting x ->
  takes (prog_of (Worker.join (X := X) (Runtime.worker_of j))) (fun _ x => handle (TWorker j) x = false) x.
Proof.
  intros Hj Hr. apply (takes_updating _ (fun x => closing (TWorker j) x /\ closing TRouting x)); [auto|auto|done|].
  intros y [Hy Hy']. change (World.over (Runtime.worker_of j) ?f y) with (Runtime.over_worker j f y).
  split; [unfold handle; by rewrite worker_here|]. intros k.
  destruct k as [|k|m]; [by split; [|left]| |by split; [|left]]. unfold closing, closed_lane_of, handle in *.
  destruct (decide (k = j)) as [->|Hne]; [rewrite worker_here|rewrite worker_there by done];
    (split; [done|]); [by right|by left].
Qed.

Lemma in_positions (j : fin n) : j ∈ Runtime.worker_positions.
Proof. apply elem_of_enum. Qed.

Lemma stop_takes x : takes stop_code (fun more x => more = false /\ shut x) x.
Proof.
  apply takes_bind, takes_bind. eapply takes_mono; [|apply (takes_steady _ (fun _ => True)); [done|]].
  2: { intros y. split; [done|]. by apply neutral_steady. }
  intros [] x1 _. apply takes_bind. eapply takes_mono; [|apply takes_close_scheduler].
  intros [] x2 H2. apply takes_bind.
  eapply takes_mono; [|apply (takes_frame _ (fun _ x => handle TRouting x = false) (closing TRouting)); [done|done|by apply takes_routing]].
  intros [] x3 [H3 H3']. apply takes_bind.
  eapply takes_mono; [|apply (takes_for_each _ _ (fun x => handle TRouting x = false /\ closing TRouting x)
    (fun j => closing (TWorker j))); [auto|done|done|intros; apply takes_close_lane]].
  intros [] x4 [[H4 H4'] H4l].
  set (F := fun x => (handle TRouting x = false /\ closing TRouting x) /\ forall j, j ∈ Runtime.worker_positions -> closing (TWorker j) x).
  assert (HF : grows F).
  { intros y y' Hy [[Ha Hb] Hc]. split; [split; by apply (Hy TRouting)|]. intros j Hj. by apply (Hy (TWorker j)), Hc. }
  eapply takes_mono; [|apply (takes_for_each _ _ F (fun j x => handle (TWorker j) x = false)); [done|done|done|]].
  - intros [] x5 [[[H5 H5'] H5l] H5h] x6 H6. split; [done|]. intros [|j|m]; [| |done].
    + split; by apply (H6 TRouting).
    + split; apply (H6 (TWorker j)); [apply H5l|apply H5h]; apply in_positions.
  - intros j y [[_ Hy] Hl]. apply takes_join; [apply Hl, in_positions|done].
Qed.

(** ** Somebody waits for every thread *)

(** The handle of a thread that has not ended is in its place, or with a caller
    that waits for it. *)
Record watched s : Prop := {
  watched_reachable : reachable (base s);
  watched_thread i : of_runtime i -> is_Some (pool (base s) !! i) ->
    handle i (state_of s) = true \/ exists m, i ∈ owes s (TCaller m);
  watched_owes i k : k ∈ owes s i -> of_runtime k /\ ~ of_runtime i;
  watched_gone i : pool (base s) !! i = None -> owes s i = ∅
}.

Lemma elem_taken_handles x x' k :
  k ∈ taken_handles x x' <-> of_runtime k /\ handle k x = true /\ handle k x' = false.
Proof.
  unfold taken_handles. rewrite elem_of_list_to_set, list_elem_of_filter, elem_of_fixed.
  split.
  - intros [Hh Hk]. split; [|done]. destruct k as [|j|m]; [done|done|by destruct (Hk m)].
  - intros [Hk Hh]. split; [done|]. by intros m ->.
Qed.

Lemma owes_insert s b i hs k :
  owes (mkJoining b (<[i := hs]> (owed s))) k = if decide (i = k) then hs else owes s k.
Proof. unfold owes. simpl. destruct (decide (i = k)) as [->|Hne]; [by rewrite lookup_insert_eq|by rewrite lookup_insert_ne]. Qed.

Lemma owes_delete s b i k :
  owes (mkJoining b (delete i (owed s))) k = if decide (i = k) then ∅ else owes s k.
Proof. unfold owes. simpl. destruct (decide (i = k)) as [->|Hne]; [by rewrite lookup_delete_eq|by rewrite lookup_delete_ne]. Qed.

(** Which threads are there after a step. *)
Lemma thread_step_pool (b : machine) i b' k : thread_step b i b' -> is_Some (pool b' !! k) <-> is_Some (pool b !! k).
Proof.
  intros [i0 th w' p' Hth _]. simpl. destruct (decide (i0 = k)) as [->|Hne]; [|by rewrite lookup_insert_ne].
  rewrite lookup_insert_eq, Hth. by split; intros _; eexists.
Qed.

Lemma turn_step_pool (b : machine) i b' k : turn_step b i b' -> is_Some (pool b' !! k) -> is_Some (pool b !! k).
Proof.
  intros [i0 th e Hth _|i0 th Hth _]; simpl; destruct (decide (i0 = k)) as [->|Hne].
  - by intros _; eexists.
  - by rewrite lookup_insert_ne.
  - by rewrite lookup_delete_eq; intros [].
  - by rewrite lookup_delete_ne.
Qed.

Lemma caller_step_pool (b b' : machine) k :
  caller_step b b' -> pool b' !! k = pool b !! k \/ (pool b !! k = None /\ exists m, k = TCaller m).
Proof.
  intros [l r _ _|a _|m l Hn _|m Hn]; [by left|by left|..]; simpl;
    (destruct (decide (k = TCaller m)) as [->|Hne]; [right; eauto|left; by rewrite lookup_insert_ne]).
Qed.

Lemma join_initial_watched s : join_initial s -> watched s.
Proof.
  intros (Hi & Ho & Hh). split.
  - by exists (base s).
  - intros i Hr _. left. by apply Hh.
  - intros i k. unfold owes. rewrite Ho, lookup_empty. by intros ?%elem_of_empty.
  - intros i _. unfold owes. by rewrite Ho, lookup_empty.
Qed.

Lemma section_watched s i b :
  watched s -> clear s i -> thread_step (base s) i b ->
  watched (mkJoining b (<[i := taken_handles (state_of s) (shared (world b))]> (owed s))).
Proof.
  intros [Hr Ht Ho Hg] Hcl Hst. pose proof (thread_steady _ _ _ Hr Hst) as Hsteady. split.
  - destruct Hr as (s0 & H0 & Hrun). exists s0. split; [done|]. eapply rtc_r; [exact Hrun|]. left. exists i. by left.
  - intros k Hk Hin%(thread_step_pool _ _ _ _ Hst). destruct (Ht k Hk Hin) as [Hh|[m Hm]].
    + destruct (handle k (shared (world b))) eqn:Hh'; [by left|right].
      destruct (Hsteady k) as [_ [Heq|[_ Hnr]]]; [unfold state_of in Hh; congruence|].
      destruct i as [|j|m]; [by destruct Hnr..|]. exists m. rewrite owes_insert, decide_True by done.
      by apply elem_taken_handles.
    + right. exists m. rewrite owes_insert. destruct (decide (i = TCaller m)) as [->|Hne]; [|done].
      specialize (Hcl k Hm). destruct Hin as [th Hin]. simpl in Hcl. congruence.
  - intros k h. rewrite owes_insert. destruct (decide (i = k)) as [->|Hne]; [|apply Ho].
    intros (Hh & H1 & H2)%elem_taken_handles. split; [done|]. destruct (Hsteady h) as [_ [Heq|[_ Hnr]]]; [|done].
    unfold state_of in H1. congruence.
  - intros k Hk. rewrite owes_insert, decide_False.
    + apply Hg. apply eq_None_not_Some. intros Hin%(thread_step_pool _ _ _ _ Hst). simpl in Hk. rewrite Hk in Hin. by destruct Hin.
    + intros ->. destruct Hst as [i th w' p' Hth _]. simpl in Hk. by rewrite lookup_insert_eq in Hk.
Qed.

Lemma turn_watched s i b :
  watched s -> clear s i -> turn_step (base s) i b -> watched (mkJoining b (delete i (owed s))).
Proof.
  intros [Hr Ht Ho Hg] Hcl Hst. split.
  - destruct Hr as (s0 & H0 & Hrun). exists s0. split; [done|]. eapply rtc_r; [exact Hrun|]. left. exists i. by right.
  - intros k Hk Hin%(turn_step_pool _ _ _ _ Hst). unfold state_of. simpl. rewrite (turn_shared _ _ _ Hst).
    destruct (Ht k Hk Hin) as [Hh|[m Hm]]; [by left|right].
    exists m. rewrite owes_delete. destruct (decide (i = TCaller m)) as [->|Hne]; [|done].
    specialize (Hcl k Hm). destruct Hin as [th Hin]. simpl in Hcl. congruence.
  - intros k h. rewrite owes_delete. destruct (decide (i = k)); [by intros ?%elem_of_empty|apply Ho].
  - intros k Hk. rewrite owes_delete. destruct (decide (i = k)) as [->|Hne]; [done|]. apply Hg.
    destruct Hst as [i th e Hth _|i th Hth _]; simpl in Hk; [by rewrite lookup_insert_ne in Hk|by rewrite lookup_delete_ne in Hk].
Qed.

Lemma caller_watched s b : watched s -> caller_step (base s) b -> watched (mkJoining b (owed s)).
Proof.
  intros [Hr Ht Ho Hg] Hst. split.
  - destruct Hr as (s0 & H0 & Hrun). exists s0. split; [done|]. eapply rtc_r; [exact Hrun|]. by right.
  - intros k Hk Hin. unfold state_of. simpl. rewrite (caller_shared _ _ Hst). apply Ht; [done|].
    simpl in Hin. destruct (caller_step_pool _ _ k Hst) as [Heq|[_ [m ->]]]; [by rewrite <- Heq|done].
  - apply Ho.
  - intros k Hk. simpl in Hk. destruct (caller_step_pool _ _ k Hst) as [Heq|[Hn _]]; apply Hg; [by rewrite <- Heq|done].
Qed.

Lemma step_watched s s' : watched s -> join_step s s' -> watched s'.
Proof.
  intros Hw [[i [b Hcl Hst|b Hcl Hst]]|[b Hst]];
    [by apply section_watched|by apply turn_watched|by apply caller_watched].
Qed.

Lemma join_reachable_watched s : join_reachable s -> watched s.
Proof. intros (s0 & H0%join_initial_watched & Hrun). induction Hrun; [done|]. by eauto using step_watched. Qed.

(** ** During the call *)

(** Caller [c] is inside [stop], and waits only for threads that will end. *)
Record in_stop c s : Prop := {
  in_stop_code : exists th, pool (base s) !! TCaller c = Some th /\
    takes (code th) (fun more x => more = false /\ shut x) (state_of s);
  in_stop_waits k : k ∈ owes s (TCaller c) -> closing k (state_of s) /\ closing TRouting (state_of s)
}.

Lemma calls_stop_in c s s' : watched s -> calls_stop c s s' -> join_step s s' /\ in_stop c s'.
Proof.
  intros Hw (Hnone & ->). split; [right; constructor; by constructor|]. split.
  - exists (mkThread stop_code ∅). split; [apply lookup_insert_eq|apply stop_takes].
  - intros k. change (k ∈ owes s (TCaller c) -> closing k (state_of s) /\ closing TRouting (state_of s)).
    rewrite (watched_gone s Hw (TCaller c) Hnone). by intros ?%elem_of_empty.
Qed.

(** The others do not disturb the call. *)
Lemma in_stop_kept c s s' :
  in_stop c s -> later (state_of s) (state_of s') -> pool (base s') !! TCaller c = pool (base s) !! TCaller c ->
  owes s' (TCaller c) = owes s (TCaller c) -> in_stop c s'.
Proof.
  intros [(th & Hth & Ht) Hw] Hl Hp Ho. split.
  - exists th. rewrite Hp. split; [done|]. by eapply takes_later.
  - intros k. rewrite Ho. intros [H1 H2]%Hw. split; [by apply (Hl k)|by apply (Hl TRouting)].
Qed.

(** A section of the call itself. *)
Lemma in_stop_section c s b :
  in_stop c s -> thread_step (base s) (TCaller c) b ->
  in_stop c (mkJoining b (<[TCaller c := taken_handles (state_of s) (shared (world b))]> (owed s))) /\
  exists th th', pool (base s) !! TCaller c = Some th /\ pool b !! TCaller c = Some th' /\ subtree (code th') (code th).
Proof.
  intros [(th & Hth & Ht) _] Hst. inversion Hst as [i th0 w' p' Hth0 Hp]; subst i b. simplify_eq.
  destruct (takes_step _ _ _ _ _ Hp Ht) as (Hh & Hl & Ht' & Hsub). split.
  - split.
    + eexists. split; [apply lookup_insert_eq|exact Ht'].
    + intros k. rewrite owes_insert, decide_True by done. intros (_ & H1 & H2)%elem_taken_handles.
      destruct (Hh k H1 H2). split; [by apply (Hl k)|by apply (Hl TRouting)].
  - eexists _, _. split; [exact Hth|]. split; [apply lookup_insert_eq|exact Hsub].
Qed.

Lemma in_stop_moves c s i s' :
  watched s -> in_stop c s -> join_moves s i s' -> is_Some (pool (base s') !! TCaller c) ->
  in_stop c s' /\
  if decide (i = TCaller c)
  then exists th th', pool (base s) !! TCaller c = Some th /\ pool (base s') !! TCaller c = Some th' /\ subtree (code th') (code th)
  else pool (base s') !! TCaller c = pool (base s) !! TCaller c.
Proof.
  intros Hw Hin Hst Hc. destruct (decide (i = TCaller c)) as [->|Hne].
  - destruct Hst as [b Hcl Hst|b Hcl Hst]; [by apply in_stop_section|]. exfalso.
    destruct Hin as [(th & Hth & Ht) _]. inversion Hst as [i th0 e Hth0 Hcode|i th0 Hth0 Hcode]; subst; simplify_eq.
    + rewrite Hcode in Ht. by destruct (Ht (state_of s)).
    + simpl in Hc. rewrite lookup_delete_eq in Hc. by destruct Hc.
  - pose proof (moves_of_other i (base s) (base s') (TCaller c) (join_moves_base _ _ _ Hst) (not_eq_sym Hne)) as Hp.
    split; [|done]. apply (in_stop_kept c s); [done| |done|].
    + apply join_step_later; [apply Hw|]. left. by exists i.
    + destruct Hst as [b _ _|b _ _]; [by rewrite owes_insert, decide_False|by rewrite owes_delete, decide_False].
Qed.

Lemma in_stop_caller c s s' :
  watched s -> in_stop c s -> join_caller s s' -> in_stop c s' /\ pool (base s') !! TCaller c = pool (base s) !! TCaller c.
Proof.
  intros Hw Hin Hst. assert (Hp : pool (base s') !! TCaller c = pool (base s) !! TCaller c).
  { destruct Hst as [b Hst]. destruct (caller_step_pool _ _ (TCaller c) Hst) as [?|[Hn _]]; [done|].
    destruct Hin as [(th & Hth & _) _]. congruence. }
  split; [|done]. apply (in_stop_kept c s); [done| |done|by destruct Hst]. apply join_step_later; [apply Hw|by right].
Qed.

Lemma stopping_in c s s' : join_reachable s -> stopping c s s' -> watched s' /\ in_stop c s'.
Proof.
  intros Hs%join_reachable_watched (s1 & Hcall & Hrun). destruct (calls_stop_in c s s1 Hs Hcall) as [Hst Hin].
  apply (step_watched s s1 Hs) in Hst. clear Hcall Hs. induction Hrun as [|s1 s2 s3 [Hst' Hc] _ IH]; [done|].
  apply IH; [by eapply step_watched|]. destruct Hst' as [[i Hm]|Hm].
  - by destruct (in_stop_moves c s1 i s2 Hst Hin Hm Hc).
  - by destruct (in_stop_caller c s1 s2 Hst Hin Hm).
Qed.

(** ** The end of the call *)

(** The moves of the others leave the call where it is. *)
Lemma others_keep c s s' :
  watched s -> in_stop c s -> rtc (other_caller c) s s' ->
  watched s' /\ in_stop c s' /\ rtc caller_move (base s) (base s') /\
  pool (base s') !! TCaller c = pool (base s) !! TCaller c.
Proof.
  intros Hw Hin Hrun. induction Hrun as [s|s s1 s' Hst _ IH]; [done|].
  assert (H1 : watched s1 /\ in_stop c s1 /\ caller_move (base s) (base s1) /\
    pool (base s1) !! TCaller c = pool (base s) !! TCaller c).
  { destruct Hst as [Hst|(m & Hm & Hst)].
    - split; [eapply step_watched; [done|by right]|]. destruct (in_stop_caller c s s1 Hw Hin Hst) as [? ?].
      split; [done|]. split; [|done]. left. by destruct Hst.
    - assert (Hne : TCaller c <> TCaller (n := n) m) by congruence.
      pose proof (moves_of_other _ _ _ (TCaller c) (join_moves_base _ _ _ Hst) Hne) as Hp.
      split; [eapply step_watched; [done|left; by exists (TCaller m)]|]. split; [|split; [|done]].
      + destruct (in_stop_moves c s (TCaller m) s1 Hw Hin Hst) as [? _]; [|done]. rewrite Hp.
        destruct Hin as [(th & -> & _) _]. by eexists.
      + right. exists m. by apply join_moves_base. }
  destruct H1 as (Hw1 & Hin1 & Hm1 & Hp1). destruct (IH Hw1 Hin1) as (Hw' & Hin' & Hm' & Hp').
  split; [done|]. split; [done|]. split; [by eapply rtc_l|congruence].
Qed.

(** The call and the threads of the runtime make no infinite run: those end
    without it, and in between it goes down its tree. *)
Lemma call_acc c (b : machine) s :
  Acc (flip advance) b -> rtc caller_move b (base s) -> watched s -> in_stop c s -> Acc (flip (call_step c)) s.
Proof.
  intros Hb. revert s. induction Hb as [b _ IHb]. intros s Hrun Hw Hin.
  destruct Hin as [(th & Hth & Ht) Hwaits] eqn:Heq. clear Heq Ht Hwaits.
  pose proof (subtree_acc (code th)) as Hp. remember (code th) as p eqn:Ep. revert s Hrun Hw Hin th Hth Ep.
  induction Hp as [p _ IHp]. intros s Hrun Hw Hin th Hth ->. constructor.
  intros s' (s1 & i & Hothers & Hi & Hst & Hc).
  destruct (others_keep c s s1 Hw Hin Hothers) as (Hw1 & Hin1 & Hm1 & Hp1).
  destruct (in_stop_moves c s1 i s' Hw1 Hin1 Hst Hc) as [Hin' Hcase].
  assert (Hw' : watched s') by (eapply step_watched; [exact Hw1|left; by exists i]).
  assert (Hrun1 : rtc caller_move b (base s1)) by (by etrans).
  destruct Hi as [Hi| ->].
  - apply (IHb (base s')); [|done|done|done]. exists (base s1), i. split; [done|]. split; [done|]. by apply join_moves_base.
  - rewrite decide_True in Hcase by done. destruct Hcase as (th1 & th' & Hth1 & Hth' & Hsub).
    assert (th1 = th) as -> by congruence. eapply (IHp (code th')); [done| |done|done|exact Hth'|done].
    eapply rtc_r; [exact Hrun1|]. right. exists c. by apply join_moves_base.
Qed.

(** The call goes on, or a thread it waits for does. *)
Lemma call_goes_on c s :
  watched s -> in_stop c s ->
  (exists s', join_moves s (TCaller c) s') \/
  (sched_closed (state_of s) /\ exists k s', k ∈ owes s (TCaller c) /\ join_moves s k s').
Proof.
  intros Hw Hin. assert (Hgo : forall i th, pool (base s) !! i = Some th -> closing i (state_of s) -> clear s i ->
    exists s', join_moves s i s').
  { intros i th Hth Hi Hcl. destruct (enabled i (base s) th (watched_reachable s Hw) Hth Hi) as [b [Hst|Hst]]; eexists;
      [by apply join_section|by apply join_turn]. }
  destruct (decide (Exists (fun k => is_Some (pool (base s) !! k)) (elements (owes s (TCaller c))))) as [Hex|Hno].
  - right. apply Exists_exists in Hex as (k & Hk%elem_of_elements & th & Hth). destruct (in_stop_waits c s Hin k Hk) as [Hck Hcr].
    split; [done|]. destruct (Hgo k th Hth Hck) as [s' Hst]; [|by exists k, s'].
    intros h Hh. destruct (watched_owes s Hw k h Hh) as [_ Hnr]. by destruct (watched_owes s Hw _ k Hk).
  - left. destruct Hin as [(th & Hth & _) _]. apply (Hgo _ th); [done|done|]. intros k Hk. apply eq_None_not_Some. intros Hs.
    apply Hno, Exists_exists. exists k. split; [by apply elem_of_elements|done].
Qed.

(** What the waits achieve. *)
Lemma returned_joined c s s' :
  join_reachable s -> stop_returned c s s' -> (forall m, owes s' (TCaller m) = ∅) ->
  reachable (base s') /\ joined (base s') /\ shut (state_of s').
Proof.
  intros Hs (s1 & Hstop & Hst & Hgone) Hothers. destruct (stopping_in c s s1 Hs Hstop) as [Hw Hin].
  assert (Hw' : watched s') by (eapply step_watched; [exact Hw|left; by eexists]).
  assert (Hshut : shut (state_of s')).
  { destruct Hin as [(th & Hth & Ht) _]. destruct Hst as [b _ Hst|b _ Hst].
    - exfalso. inversion Hst; subst. simpl in Hgone. by rewrite lookup_insert_eq in Hgone.
    - unfold state_of. simpl. rewrite (turn_shared _ _ _ Hst).
      inversion Hst as [i th0 e Hth0 Hcode|i th0 Hth0 Hcode]; subst; simplify_eq; rewrite Hcode in Ht;
        by destruct (Ht (state_of s1)). }
  assert (Hall : forall i, of_runtime i -> pool (base s') !! i = None).
  { intros i Hi. apply eq_None_not_Some. intros Hin'. destruct (watched_thread s' Hw' i Hi Hin') as [Hh|[m Hm]].
    - destruct (Hshut i). congruence.
    - rewrite Hothers in Hm. by apply elem_of_empty in Hm. }
  split; [apply Hw'|]. split; [|done]. split; [by apply Hall|]. intros j. by apply Hall.
Qed.

(** Threads of the runtime do not come back. *)
Lemma joined_stays s s' : joined (base s) -> join_step s s' -> joined (base s').
Proof.
  intros [Hr Hj] Hst. assert (Hall : forall i, of_runtime i -> pool (base s) !! i = None) by (by intros [|j|m]).
  assert (Hall' : forall i, of_runtime i -> pool (base s') !! i = None).
  { intros i Hi. apply eq_None_not_Some. intros Hin. specialize (Hall i Hi).
    revert Hin. destruct Hst as [[k [b _ Hst|b _ Hst]]|[b Hst]]; simpl; intros Hin.
    - apply (thread_step_pool _ _ _ _ Hst) in Hin. rewrite Hall in Hin. by destruct Hin.
    - apply (turn_step_pool _ _ _ _ Hst) in Hin. rewrite Hall in Hin. by destruct Hin.
    - destruct (caller_step_pool _ _ i Hst) as [Heq|[_ [m ->]]]; [|done]. rewrite Heq, Hall in Hin. by destruct Hin. }
  split; [by apply Hall'|]. intros j. by apply Hall'.
Qed.

(** ** Executing it *)

#[global] Instance clear_dec s i : Decision (clear s i).
Proof. unfold clear. apply _. Defined.

Fixpoint join_sections i (fuel : nat) s : joining :=
  match fuel with
  | O => s
  | S fuel =>
      if decide (clear s i) then
        match pool (base s) !! i with
        | None => s
        | Some th =>
            match next_step (world (base s)) (code th) with
            | None => s
            | Some (w', p') =>
                join_sections i fuel (mkJoining
                  (mkMachine w' (<[i := mkThread p' (taken th ∪ freed (state_of s) (shared w'))]> (pool (base s))))
                  (<[i := taken_handles (state_of s) (shared w')]> (owed s)))
            end
        end
      else s
  end.

Definition join_exec (mv : move (R := R) (B := B) (n := n)) s : option joining :=
  match mv with
  | MoveSections i fuel => Some (join_sections i fuel s)
  | MoveTurn i _ =>
      if decide (clear s i) then (fun b => mkJoining b (delete i (owed s))) <$> exec mv (base s) else None
  | _ => (fun b => mkJoining b (owed s)) <$> exec mv (base s)
  end.

Fixpoint join_exec_all (mvs : list move) s : option joining :=
  match mvs with
  | [] => Some s
  | mv :: mvs => match join_exec mv s with Some s' => join_exec_all mvs s' | None => None end
  end.

(** The move is not the end of a turn of [i]. *)
Definition spares i (mv : move (R := R) (B := B) (n := n)) : bool :=
  match mv with MoveTurn k _ => bool_decide (k <> i) | _ => true end.

Lemma within_step c s s' i :
  is_Some (pool (base s) !! TCaller c) -> join_moves s i s' -> i <> TCaller c -> within c s s'.
Proof.
  intros Hc Hst Hne. split; [left; by exists i|].
  by rewrite (moves_of_other i (base s) (base s') (TCaller c) (join_moves_base _ _ _ Hst) (not_eq_sym Hne)).
Qed.

Lemma within_caller c s s' : is_Some (pool (base s) !! TCaller c) -> join_caller s s' -> within c s s'.
Proof.
  intros Hc Hst. split; [by right|]. destruct Hst as [b Hst]. simpl.
  destruct (caller_step_pool _ _ (TCaller c) Hst) as [->|[Hn _]]; [done|]. rewrite Hn in Hc. by destruct Hc.
Qed.

Lemma join_sections_within c i fuel s :
  is_Some (pool (base s) !! TCaller c) ->
  rtc (within c) s (join_sections i fuel s) /\ is_Some (pool (base (join_sections i fuel s)) !! TCaller c).
Proof.
  revert s. induction fuel as [|fuel IH]; intros s Hc; [done|]. simpl. destruct (decide (clear s i)) as [Hcl|]; [|done].
  destruct (pool (base s) !! i) as [th|] eqn:Hth; [|done].
  destruct (next_step (world (base s)) (code th)) as [[w' p']|] eqn:Hn; [|done].
  set (b := mkMachine w' _). assert (Hst : thread_step (base s) i b) by (econstructor; [done|by apply next_step_sound]).
  assert (Hc1 : is_Some (pool b !! TCaller c)) by (by apply (thread_step_pool _ _ _ _ Hst)).
  destruct (IH (mkJoining b (<[i := taken_handles (state_of s) (shared w')]> (owed s))) Hc1) as [Hrun Hc'].
  split; [|done]. eapply rtc_l; [|exact Hrun]. split; [|done]. left. exists i.
  exact (join_section s i b Hcl Hst).
Qed.

Lemma exec_caller_step mv (b b' : machine) :
  exec mv b = Some b' -> match mv with MoveSections _ _ | MoveTurn _ _ => True | _ => caller_step b b' end.
Proof.
  destruct mv as [i fuel|i e|a|m l|m]; simpl; [done|done|..].
  - destruct (decide (outside_act a)); [|done]. intros [= <-]. by constructor.
  - destruct (decide _) as [Hl|]; [|done]. unfold enter. destruct (pool b !! TCaller m) eqn:Hm; [done|].
    intros [= <-]. by constructor.
  - unfold enter. destruct (pool b !! TCaller m) eqn:Hm; [done|]. intros [= <-]. by constructor.
Qed.

Lemma exec_turn_step i e (b b' : machine) : exec (MoveTurn i e) b = Some b' -> turn_step b i b'.
Proof.
  simpl. destruct (pool b !! i) as [[p tk]|] eqn:Hth; [|done].
  destruct p as [[]|ex|k|T cond f k|T cond d f k|T f l k|l ns k|T fuel body k]; try done;
    intros [= <-]; by econstructor.
Qed.

Lemma join_exec_within c mv s s' :
  is_Some (pool (base s) !! TCaller c) -> spares (TCaller c) mv = true -> join_exec mv s = Some s' ->
  rtc (within c) s s' /\ is_Some (pool (base s') !! TCaller c).
Proof.
  intros Hc Hsp Hex. cut (rtc (within c) s s').
  { intros Hrun. split; [done|]. by apply rtc_inv_r in Hrun as [<-|(s1 & _ & _ & Hc')]. }
  destruct mv as [i fuel|i e|a|m l|m]; unfold join_exec in Hex.
  - injection Hex as <-. by apply join_sections_within.
  - destruct (decide (clear s i)) as [Hcl|]; [|done]. apply fmap_Some in Hex as (b & Hb & ->).
    apply exec_turn_step in Hb. apply rtc_once, (within_step c s _ i); [done|by apply join_turn|].
    by apply bool_decide_eq_true in Hsp.
  - apply fmap_Some in Hex as (b & Hb & ->). apply exec_caller_step in Hb. apply rtc_once, within_caller; [done|by constructor].
  - apply fmap_Some in Hex as (b & Hb & ->). apply exec_caller_step in Hb. apply rtc_once, within_caller; [done|by constructor].
  - apply fmap_Some in Hex as (b & Hb & ->). apply exec_caller_step in Hb. apply rtc_once, within_caller; [done|by constructor].
Qed.

Lemma join_exec_turn i e s :
  bool_decide (is_Some (join_exec_all [MoveTurn i e] s)) = true ->
  join_moves s i (default s (join_exec_all [MoveTurn i e] s)).
Proof.
  intros [s' Hs']%bool_decide_eq_true. rewrite Hs'. unfold join_exec_all, join_exec in Hs'.
  destruct (decide (clear s i)) as [Hcl|]; [|done]. destruct (exec (MoveTurn i e) (base s)) as [b|] eqn:Hb; [|done].
  injection Hs' as <-. apply join_turn; [done|by eapply exec_turn_step].
Qed.

(** A sequence of moves during the call. *)
Lemma join_exec_all_within c mvs s :
  is_Some (pool (base s) !! TCaller c) -> forallb (spares (TCaller c)) mvs = true ->
  bool_decide (is_Some (join_exec_all mvs s)) = true ->
  rtc (within c) s (default s (join_exec_all mvs s)) /\ is_Some (pool (base (default s (join_exec_all mvs s))) !! TCaller c).
Proof.
  intros Hc Hsp Hex%bool_decide_eq_true. destruct Hex as [s' Hs']. rewrite Hs'. simpl. revert s Hc Hs'.
  induction mvs as [|mv mvs IH]; intros s Hc; simpl in *; [by intros [= <-]|].
  destruct (join_exec mv s) as [s1|] eqn:E; [|done]. intros Hs'. apply andb_true_iff in Hsp as [H1 H2].
  destruct (join_exec_within c mv s s1 Hc H1 E) as [Hrun Hc1]. destruct (IH H2 s1 Hc1 Hs') as [Hrun' Hc'].
  split; [by etrans|done].
Qed.
End joins.

(** Nothing is left to do, and nobody is left waiting. *)
Definition settled {R B n} (s : joining (R := R) (B := B) (n := n)) : Prop :=
  joined (base s) /\ (forall i, closing i (state_of s)) /\
  forall l r, heap (world (base s)) !! l = Some r ->
    state_ r = Received \/ terminal_req r \/ (state_ r = Queued /\ exists m, handles (TCaller m) (base s) l).

Lemma returned_settled {R B n} `{!IWorkerRouter R} `{!IModelBackend B} `{HO : !HashOrder}
    (c : nat) (s s' s'' : joining (R := R) (B := B) (n := n)) :
  join_reachable s -> stop_returned c s s' -> (forall m, owes s' (TCaller m) = ∅) -> rtc join_step s' s'' -> settled s''.
Proof.
  intros Hs Hret Hothers Hrun. destruct (returned_joined c s s' Hs Hret Hothers) as (Hr & Hj & Hshut).
  assert (Hend : reachable (base s'') /\ joined (base s'') /\ later (state_of s') (state_of s'')).
  { clear Hret Hothers Hshut. induction Hrun as [s'|s1 s2 s3 Hst _ IH]; [by split; [|split]|].
    pose proof (join_step_later _ _ Hr Hst) as Hl. destruct IH as (Hr3 & Hj3 & Hl3); [|by eapply joined_stays|].
    - destruct Hr as (s0 & H0 & Hrun0). exists s0. split; [done|]. eapply rtc_r; [exact Hrun0|by apply join_step_base].
    - split; [done|]. split; [done|]. intros k. destruct (Hl k), (Hl3 k). auto. }
  destruct Hend as (Hr' & Hj' & Hl). split; [done|]. split; [intros i; apply (Hl i), Hshut|].
  intros l r Hlr. by eapply joined_settles.
Qed.

(** C2: When [stop] returns, nobody is left waiting. At the end of a call of
    [Runtime::stop], whatever happened meanwhile, and if no other call of it
    still waits for a thread: the routing thread and the workers have ended, the
    scheduler and every lane are closed, and from then on every request is
    terminal, was never submitted, or is with a caller that is still inside
    [submit]. *)
Theorem stop_settles_all {R B n} `{!IWorkerRouter R} `{!IModelBackend B} `{HO : !HashOrder}
    (c : nat) (s s' s'' : joining (R := R) (B := B) (n := n)) :
  join_reachable s -> stop_returned c s s' -> (forall m, owes s' (TCaller m) = ∅) -> rtc join_step s' s'' ->
  joined (base s'') /\ (forall i, closing i (state_of s'')) /\
  forall l r, heap (world (base s'')) !! l = Some r ->
    state_ r = Received \/ terminal_req r \/ (state_ r = Queued /\ exists m, handles (TCaller m) (base s'') l).
Proof. apply returned_settled. Qed.

(** C3: [stop] returns. At every moment of a call of [Runtime::stop] the call
    can take its next step, or the scheduler is closed and a thread the call
    waits for can take its own. Once the scheduler is closed there is no
    infinite run of the call and the threads of the runtime, whatever other
    callers do in between, and the threads end at most [4] turns per request in
    the scheduler, [2] per request with a worker and [5] per thread. *)
Theorem stop_returns {R B n} `{!IWorkerRouter R} `{!IModelBackend B} `{HO : !HashOrder}
    (c : nat) (s s' : joining (R := R) (B := B) (n := n)) :
  join_reachable s -> stopping c s s' ->
  ((exists s'', join_moves s' (TCaller c) s'') \/
   (sched_closed (state_of s') /\ exists k s'', k ∈ owes s' (TCaller c) /\ join_moves s' k s'')) /\
  (sched_closed (state_of s') ->
   Acc (flip (call_step c)) s' /\
   forall k b, turns k (base s') b -> (k <= backlog (state_of s') + 5 * running (base s'))%nat).
Proof.
  intros Hs Hstop. destruct (stopping_in c s s' Hs Hstop) as [Hw Hin]. split; [by apply call_goes_on|].
  intros Hcl. destruct (threads_wind_down (base s') (watched_reachable _ Hw) Hcl) as (Hacc & Hturns & _).
  split; [by apply (call_acc c (base s'))|done].
Qed.

(** ** A run of a small system *)

Definition demo_joining : joining (R := unit) (B := Synthetic.t) (n := 2) := mkJoining demo_machine ∅.

Lemma demo_join_initial : join_initial (HO := gmap_order) demo_joining.
Proof.
  split; [apply demo_initial|]. split; [done|]. intros [|j|m] Hi; [by vm_compute| |done].
  inv_fin j; [by vm_compute|]. intros j. inv_fin j; [by vm_compute|]. intros j. inv_fin j.
Qed.

Definition demo_join (mvs : list demo_move) (s : joining (R := unit) (B := Synthetic.t) (n := 2)) :=
  default s (join_exec_all (HO := gmap_order) mvs s).

(** Caller 2 calls [stop] while callers 0 and 1 submit. The scheduler is
    closed, the handle of the routing thread is taken, and [stop] waits. *)
Definition demo_called := mkJoining (mkMachine (world demo_machine)
  (<[TCaller 2 := mkThread stop_code ∅]> (pool demo_machine))) ∅.
Definition demo_waiting := demo_join
  [MoveSubmit 0 1%positive; MoveSections (TCaller 0) 100; MoveTurn (TCaller 0) 0;
   MoveSections (TCaller 2) 100; MoveSubmit 1 2%positive; MoveSections (TCaller 1) 100; MoveTurn (TCaller 1) 0] demo_called.

Lemma demo_calls : calls_stop 2 demo_joining demo_called.
Proof. split; [by vm_compute|done]. Qed.

Lemma demo_called_in : is_Some (pool (base demo_called) !! TCaller 2).
Proof. eexists. apply lookup_insert_eq. Qed.

(** The routing thread ends; [stop] closes the lanes and waits for the workers,
    which end. *)
Definition demo_stopped := demo_join
  [MoveSections TRouting 100; MoveTurn TRouting 0; MoveSections TRouting 100; MoveTurn TRouting 0;
   MoveSections (TCaller 2) 100; MoveSections (TWorker 0%fin) 50; MoveTurn (TWorker 0%fin) 0;
   MoveSections (TCaller 2) 100; MoveSections (TWorker 1%fin) 200; MoveTurn (TWorker 1%fin) 0;
   MoveSections (TWorker 1%fin) 200; MoveTurn (TWorker 1%fin) 0; MoveSections (TCaller 2) 100] demo_waiting.
Definition demo_returned := demo_join [MoveTurn (TCaller 2) 0] demo_stopped.

Lemma demo_join_within mvs s :
  is_Some (pool (base s) !! TCaller 2) -> forallb (spares (TCaller 2)) mvs = true ->
  bool_decide (is_Some (join_exec_all (HO := gmap_order) mvs s)) = true ->
  rtc (within (HO := gmap_order) 2) s (demo_join mvs s) /\ is_Some (pool (base (demo_join mvs s)) !! TCaller 2).
Proof. apply join_exec_all_within. Qed.

Lemma demo_waiting_in :
  rtc (within (HO := gmap_order) 2) demo_called demo_waiting /\ is_Some (pool (base demo_waiting) !! TCaller 2).
Proof. apply demo_join_within; [apply demo_called_in|done|by vm_compute]. Qed.

Lemma demo_stopping_waiting : stopping (HO := gmap_order) 2 demo_joining demo_waiting.
Proof. exists demo_called. split; [apply demo_calls|apply demo_waiting_in]. Qed.

Lemma demo_stopping_stopped : stopping (HO := gmap_order) 2 demo_joining demo_stopped.
Proof.
  exists demo_called. split; [apply demo_calls|]. etrans; [apply demo_waiting_in|].
  apply demo_join_within; [apply demo_waiting_in|done|by vm_compute].
Qed.

Lemma demo_returned_stop : stop_returned (HO := gmap_order) 2 demo_joining demo_returned.
Proof.
  exists demo_stopped. split; [apply demo_stopping_stopped|].
  split; [apply (join_exec_turn (TCaller 2) 0); by vm_compute|by vm_compute].
Qed.

Lemma demo_join_reachable : join_reachable (HO := gmap_order) demo_joining.
Proof. exists demo_joining. split; [apply demo_join_initial|apply rtc_refl]. Qed.

(** Request 1 was submitted before the shutdown and is completed, request 2 came
    too late and is rejected. *)
Lemma stop_settles_all_witness :
  joined (base demo_returned) /\ state_ <$> heap (world (base demo_returned)) !! (1%positive : loc) = Some Completed /\
  state_ <$> heap (world (base demo_returned)) !! (2%positive : loc) = Some Rejected.
Proof.
  assert (Hothers : forall m, owes demo_returned (TCaller m) = ∅).
  { intros m. assert (Ho : owed demo_returned = ∅) by (by vm_compute). unfold owes. by rewrite Ho, lookup_empty. }
  destruct (stop_settles_all (HO := gmap_order) 2 demo_joining demo_returned demo_returned
    demo_join_reachable demo_returned_stop Hothers (rtc_refl _ _)) as (Hj & _ & _).
  split; [exact Hj|]. split; by vm_compute.
Defined.

(** [stop] waits for the routing thread, which goes on. *)
Lemma stop_returns_witness :
  (exists k s', k ∈ owes demo_waiting (TCaller 2) /\ join_moves (HO := gmap_order) demo_waiting k s') /\
  Acc (flip (call_step (HO := gmap_order) 2)) demo_waiting.
Proof.
  assert (Hcl : sched_closed (state_of demo_waiting)) by (by vm_compute).
  destruct (stop_returns (HO := gmap_order) 2 demo_joining demo_waiting demo_join_reachable demo_stopping_waiting) as [Hgo Hend].
  split; [|exact (proj1 (Hend Hcl))]. destruct Hgo as [[s' Hst]|[_ Hgo]]; [exfalso|exact Hgo].
  assert (Hno : bool_decide (clear demo_waiting (TCaller 2)) = false) by (by vm_compute).
  apply bool_decide_eq_false in Hno. apply Hno. destruct Hst as [b Hcl' _|b Hcl' _]; exact Hcl'.
Defined.
