(* ===== verification/Reports.v ===== *)
(** * What observers are told

    Observers are called after the lock of the request was released, so other
    threads may get in between a change and its report. This file proves that
    the reports of the machine are true and complete nonetheless: every
    snapshot an observer is given was the request's at some time, and when a
    request has ended each of its observers was told how, or a thread is about
    to tell it. *)

From stdpp Require Import vector finite relations.
From S2P Require Import Prelude Status Requests World Queue Registry Resources Eviction.
From S2P Require Import Backends Manager Router Batch Scheduler Admission Worker WorkerProofs.
From S2P Require Import Guarantee WorkerDrain Runtime RuntimeProofs Programs.
From S2P Require Import Progress Machine MachineLogic MachineRuns MachineThreads MachineProofs Shutdown.
Import InferenceRequest.

#[local] Existing Instance machine_shared.
#[local] Existing Instance machine_scheduler.

(** ** Programs that report what they do *)

Section honest.
Context {X : Type} `{SX : !Shared X}.

(** What the program has to report at once. *)
Definition quiet (due : option (loc * list notification)) : Prop :=
  match due with Some (_, _ :: _) => False | _ => True end.

(** Requests are changed lawfully, and what a change has to report is reported
    next; nothing else is. *)
Fixpoint honest {A} (due : option (loc * list notification)) (p : prog X A) : Prop :=
  match p with
  | Done _ | Raise _ => quiet due
  | Now k => quiet due /\ forall tp, honest None (k tp)
  | Critical cond f k => quiet due /\ forall a, honest None (k a)
  | Timed cond d f k => quiet due /\ forall a, honest None (k a)
  | OnRequest f l k => quiet due /\ Lawful f /\ honest None (k None) /\
      forall r, honest (Some (l, (f r).2.2)) (k (Some ((f r).1, (f r).2.2)))
  | Deliver l ns k => due = Some (l, ns) /\ honest None k
  | Loop fuel body k => quiet due /\ honest None body /\ forall a, honest None (k a)
  end.

Lemma honest_quiet {A} due (p : prog X A) : quiet due -> honest None p -> honest due p.
Proof. intros Hd. destruct p; simpl; [done|done|..]; try (by intros [_ ?]). by intros [? _]. Qed.

Lemma honest_bind {A B} due (p : prog X A) (g : A -> prog X B) :
  honest due p -> (forall a, honest None (g a)) -> honest due (prog_bind p g).
Proof.
  intros Hp Hg. revert due Hp. induction p as [A a|A e|A k IH|A T cond f k IH|A T cond d f k IH|A T f l k IH|A l ns k IH|A T fuel body _ k IH];
    intros due; simpl.
  - intros Hd. by apply honest_quiet.
  - done.
  - intros [? ?]. by split; [|intros; apply IH].
  - intros [? ?]. by split; [|intros; apply IH].
  - intros [? ?]. by split; [|intros; apply IH].
  - intros (? & ? & ? & ?). split_and!; [done|done|by apply IH|intros r; by apply IH].
  - intros [? ?]. by split; [|apply IH].
  - intros (? & ? & ?). split_and!; [done|done|]. intros a. by apply IH.
Qed.

Lemma honest_try {A} due (p : prog X A) : honest due p -> honest due (prog_try p).
Proof.
  revert due. induction p as [A a|A e|A k IH|A T cond f k IH|A T cond d f k IH|A T f l k IH|A l ns k IH|A T fuel body IHb k IH];
    intros due; simpl; [done|done|..].
  - intros [? ?]. by split; [|intros; apply IH].
  - intros [? ?]. by split; [|intros; apply IH].
  - intros [? ?]. by split; [|intros; apply IH].
  - intros (? & ? & ? & ?). split_and!; [done|done|by apply IH|intros r; by apply IH].
  - intros [? ?]. by split; [|apply IH].
  - intros (? & Hb & Hk). split_and!; [done|apply honest_bind; [by apply IHb|done]|].
    intros [a|e]; [by apply IH|done].
Qed.

#[global] Instance honest_closed : Closed (fun A => honest (A := A) None).
Proof.
  split; try done.
  - intros A B p g. apply honest_bind.
  - intros A p. apply honest_try.
  - intros A f l. split_and!; [done| |done|done].
    split; intros r; simpl; [done|by intros ? ?%elem_of_nil|]. intros ob Ho Hr. by rewrite Hr.
Qed.

(** What has to be reported is reported by the next step. *)
Lemma honest_due {A} l ns (p : prog X A) : honest (Some (l, ns)) p -> ns <> [] -> exists k, p = Deliver l ns k.
Proof.
  intros Hp Hns. destruct ns as [|o ns]; [done|]. destruct p as [a|e|k|T cond f k|T cond d f k|T f l' k|l' ns' k|T fuel body k];
    simpl in Hp; try done; try (by destruct Hp). destruct Hp as [[= -> ->] _]. by exists k.
Qed.
End honest.

(** ** Reports are true *)

(** The snapshot was the request's, before it became what it is. *)
Definition told (h : gmap loc t) (e : loc * notification) : Prop :=
  exists r0 r, h !! e.1 = Some r /\ evolves r0 r /\ e.2.2 = snapshot r0.

Definition due_true (h : gmap loc t) (due : option (loc * list notification)) : Prop :=
  forall l ns o, due = Some (l, ns) -> o ∈ ns -> told h (l, o).

Lemma told_later h h' e : heap_le h h' -> told h e -> told h' e.
Proof.
  intros Hle (r0 & r & Hr & Hev & Hs). destruct (Hle _ _ Hr) as (r' & Hr' & Hev'). exists r0, r'.
  split; [done|]. split; [by etrans|done].
Qed.

Lemma told_final h l o r :
  told h (l, o) -> h !! l = Some r -> is_terminal_state (snap_state o.2) = true -> o.2 = snapshot r /\ is_terminal r = true.
Proof.
  intros (r0 & r' & Hr' & Hev & Hs) Hr Ht. simpl in *. assert (r' = r) as -> by congruence. rewrite Hs in Ht |- *.
  rewrite (evolves_snapshot r0 r Hev Ht). split; [done|]. unfold is_terminal. by rewrite (proj1 (ev_frozen _ _ Hev Ht)).
Qed.

Section steps.
Context {X : Type} `{SX : !Shared X}.

Lemma honest_step {A} (w w' : World X) (p p' : prog X A) due :
  prog_step w p w' p' -> honest due p -> due_true (heap w) due ->
  heap_le (heap w) (heap w') /\
  (exists new, log w' = log w ++ new /\ forall e, e ∈ new -> told (heap w') e) /\
  exists due', honest due' p' /\ due_true (heap w') due'.
Proof.
  intros Hst Hp Hd. assert (Hnone : due_true (heap w') None) by done.
  assert (Hsame : exists new, log w = log w ++ new /\ forall e, e ∈ new -> told (heap w') e)
    by (exists []; split; [by rewrite app_nil_r|by intros e ?%elem_of_nil]).
  destruct Hst as [w k|w T cond f k Hcond|w T cond d f k Hcond|w T cond d f k Hdl|w T f l k r Hr|w T f l k Hl|w l ns k|w T fuel body k];
    simpl in Hp; simpl.
  1, 2, 3, 4: destruct Hp as [_ Hp]; split; [done|]; split; [done|]; by exists None.
  - destruct Hp as (_ & Hf & _ & Hk). split; [eapply heap_le_insert; [done|apply Hf]|]. split; [done|].
    eexists. split; [apply Hk|]. intros l0 ns o [= <- <-] Ho. exists (f r).2.1, (f r).2.1. simpl. rewrite lookup_insert_eq.
    split; [done|]. split; [done|]. by apply Hf.
  - destruct Hp as (_ & _ & Hk & _). split; [done|]. split; [done|]. by exists None.
  - destruct Hp as [-> Hk]. split; [done|]. split; [|by exists None]. eexists. split; [done|].
    intros e (o & -> & Ho)%list_elem_of_fmap. by eapply Hd.
  - destruct Hp as (_ & Hb & Hk). split; [done|]. split; [done|]. exists None. split; [|done].
    apply honest_bind; [done|]. by intros [a|].
Qed.
End steps.

Section reports.
Context {R B : Type} {n : nat} `{!IWorkerRouter R} `{!IModelBackend B} `{HO : !HashOrder}.
Notation X := (FifoRuntime R B n).
#[local] Notation machine := (machine (R := R) (B := B) (n := n)).
Implicit Types (i : tid n) (s : machine).

Record truthful s : Prop := {
  true_log e : e ∈ log (world s) -> told (heap (world s)) e;
  true_threads i th : pool s !! i = Some th ->
    exists due, honest due (code th) /\ due_true (heap (world s)) due
}.

Lemma turn_honest i e : honest None (turn_of (R := R) (B := B) i e).
Proof. apply (every_turn (fun A => honest (A := A) None)); done. Qed.
Lemma submit_honest l : honest None (submit_code (R := R) (B := B) (n := n) l).
Proof. apply (every_submit_code (fun A => honest (A := A) None)). Qed.
Lemma stop_honest : honest None (stop_code (R := R) (B := B) (n := n)).
Proof. apply (every_stop_code (fun A => honest (A := A) None)). Qed.

(** A step of the world under threads that are not touched. *)
Lemma truthful_world s w' new :
  truthful s -> heap_le (heap (world s)) (heap w') -> log w' = log (world s) ++ new ->
  (forall e, e ∈ new -> told (heap w') e) -> truthful (mkMachine w' (pool s)).
Proof.
  intros [Hl Ht] Hle Hlog Hnew. split; simpl.
  - intros e. rewrite Hlog, elem_of_app. intros [He|He]; [|by apply Hnew]. by eapply told_later, Hl.
  - intros i th Hth. destruct (Ht i th Hth) as (due & Hh & Hd). exists due. split; [done|].
    intros l ns o Heq Ho. eapply told_later; [done|]. by eapply Hd.
Qed.

Lemma truthful_insert s i p tk due :
  truthful s -> honest due p -> due_true (heap (world s)) due ->
  truthful (mkMachine (world s) (<[i := mkThread p tk]> (pool s))).
Proof.
  intros [Hl Ht] Hp Hd. split; [done|]. simpl. intros k th Hk.
  apply lookup_insert_Some in Hk as [[<- <-]|[_ Hk]]; [by exists due|by eapply Ht].
Qed.

Lemma env_reports (a : env_act X) (w : World X) :
  heap_le (heap w) (heap (step_env a w)) /\
  exists new, log (step_env a w) = log w ++ new /\ forall e, e ∈ new -> told (heap (step_env a w)) e.
Proof.
  assert (Hsame : exists new, log w = log w ++ new /\ forall e, e ∈ new -> told (heap w) e)
    by (exists []; split; [by rewrite app_nil_r|by intros e ?%elem_of_nil]).
  destruct a as [l o|d|[]]; simpl; [|done].
  destruct (heap w !! l) as [r|] eqn:Hr; [|done]. pose proof (apply_op_evolves o r) as Hev.
  pose proof (apply_op_notes o r) as Hn. destruct (apply_op o r) as [r' ns]. simpl in *.
  split; [by eapply heap_le_insert|]. eexists. split; [done|]. intros e (ob & -> & Ho)%list_elem_of_fmap.
  exists r', r'. simpl. rewrite lookup_insert_eq. split; [done|]. split; [done|]. by apply Hn.
Qed.

Lemma step_truthful s s' : truthful s -> step s s' -> truthful s'.
Proof.
  intros Hs [(i & [Hst|Hst])|Hst].
  - destruct Hst as [i th w' p' Hth Hst]. destruct (true_threads s Hs i th Hth) as (due & Hh & Hd).
    destruct (honest_step _ _ _ _ due Hst Hh Hd) as (Hle & (new & Hlog & Hnew) & due' & Hh' & Hd').
    apply (truthful_insert (mkMachine w' (pool s)) i p' _ due'); [|done|done]. by eapply truthful_world.
  - destruct Hst as [i th e Hth _|i th Hth _].
    + eapply (truthful_insert s i _ _ None); [done|apply turn_honest|done].
    + destruct Hs as [Hl Ht]. split; [done|]. simpl. intros k th' [_ Hk]%lookup_delete_Some. by eapply Ht.
  - destruct Hst as [l r Hl _|a _|m l _ _|m _].
    + apply (truthful_world s _ []); [done| |by rewrite app_nil_r|by intros e ?%elem_of_nil].
      intros l' r' Hl'. exists r'. simpl. rewrite lookup_insert_ne; [done|]. intros ->. congruence.
    + destruct (env_reports a (world s)) as (Hle & new & Hlog & Hnew). by eapply truthful_world.
    + eapply (truthful_insert s _ _ _ None); [done|apply submit_honest|done].
    + eapply (truthful_insert s _ _ _ None); [done|apply stop_honest|done].
Qed.

(** Requests evolve and the reports stay, whatever is done. *)
Lemma step_heap s s' : truthful s -> step s s' -> heap_le (heap (world s)) (heap (world s')).
Proof.
  intros Hs [(i & [Hst|Hst])|Hst].
  - destruct Hst as [i th w' p' Hth Hst]. destruct (true_threads s Hs i th Hth) as (due & Hh & Hd).
    by destruct (honest_step _ _ _ _ due Hst Hh Hd) as [? _].
  - by destruct Hst.
  - destruct Hst as [l r Hl _|a _|m l _ _|m _]; [|apply env_reports|done|done].
    intros l' r' Hl'. exists r'. simpl. rewrite lookup_insert_ne; [done|]. intros ->. congruence.
Qed.

Lemma step_log_grows s s' : step s s' -> log (world s) `prefix_of` log (world s').
Proof.
  intros [(i & [Hst|Hst])|Hst].
  - destruct Hst as [i th w' p' Hth Hst]. simpl. destruct Hst; simpl; try done. by apply prefix_app_r.
  - by destruct Hst.
  - destruct Hst as [l r Hl _|a _|m l _ _|m _]; [done| |done|done].
    destruct (env_reports a (world s)) as (_ & new & Hlog & _). simpl. rewrite Hlog. by apply prefix_app_r.
Qed.

Lemma initial_truthful s : initial s -> truthful s.
Proof.
  intros [_ Hlog _ _ Hpool]. split; [rewrite Hlog; by intros e ?%elem_of_nil|].
  intros i th Hth. exists None. split; [|done]. specialize (Hpool i). destruct i as [|j|m]; [..|congruence];
    destruct Hpool as [e He]; rewrite He in Hth; injection Hth as <-; [apply (turn_honest TRouting)|apply (turn_honest (TWorker j))].
Qed.

Lemma reachable_truthful s : reachable s -> truthful s.
Proof.
  intros (s0 & H0 & Hrtc). apply initial_truthful in H0. induction Hrtc as [s1|s1 s2 s3 Hst _ IH]; [done|].
  apply IH. by eapply step_truthful.
Qed.

(** ** Reports are complete *)

(** A thread is about to call the observer. *)
Definition telling s l (o : notification) : Prop :=
  exists i th ns k, pool s !! i = Some th /\ code th = Deliver l ns k /\ o ∈ ns.

Definition heard s l (o : notification) : Prop := (l, o) ∈ log (world s) \/ telling s l o.

(** The observer is registered, or hears of the end. *)
Definition attended l (ob : RequestObserver) s : Prop :=
  exists r, heap (world s) !! l = Some r /\
    if is_terminal r then heard s l (ob, snapshot r) else ob ∈ observers_ r.

Lemma step_log {A} (w w' : World X) (p p' : prog X A) : prog_step w p w' p' -> log w `prefix_of` log w'.
Proof. intros []; simpl; try done. by apply prefix_app_r. Qed.

Lemma heard_thread s i th w' p' tk l o :
  pool s !! i = Some th -> prog_step (world s) (code th) w' p' -> heard s l o ->
  heard (mkMachine w' (<[i := mkThread p' tk]> (pool s))) l o.
Proof.
  intros Hth Hst [Hlog|(j & th' & ns & k & Hj & Hcode & Ho)].
  - left. simpl. destruct (step_log _ _ _ _ Hst) as [new ->]. apply elem_of_app. by left.
  - destruct (decide (i = j)) as [<-|Hne].
    + left. simplify_eq. rewrite Hcode in Hst. inversion Hst; subst. simpl. apply elem_of_app. right.
      apply list_elem_of_fmap. by exists o.
    + right. exists j, th', ns, k. simpl. by rewrite lookup_insert_ne.
Qed.

(** A thread that is not about to report comes, goes or starts over. *)
Lemma heard_pool s (pool' : gmap (tid n) thread) l o :
  (forall i th, pool s !! i = Some th -> pool' !! i = Some th \/ forall ns k, code th <> Deliver l ns k) ->
  heard s l o -> heard (mkMachine (world s) pool') l o.
Proof.
  intros Hp [?|(i & th & ns & k & Hi & Hcode & Ho)]; [by left|]. right. exists i, th, ns, k.
  destruct (Hp i th Hi) as [?|Hno]; [done|]. by destruct (Hno ns k).
Qed.

Lemma thread_attended s i s' l ob : truthful s -> thread_step s i s' -> attended l ob s -> attended l ob s'.
Proof.
  intros Hs Hst (r & Hr & Hheard). destruct Hst as [i th w' p' Hth Hst].
  set (tk := taken th ∪ _). clearbody tk.
  pose proof (fun o => heard_thread s i th w' p' tk l o Hth Hst) as Hkeep.
  destruct (true_threads s Hs i th Hth) as (due & Hh & _).
  assert (Hsame : heap w' !! l = heap (world s) !! l -> attended l ob (mkMachine w' (<[i := mkThread p' tk]> (pool s)))).
  { intros Heq. exists r. simpl. rewrite Heq. split; [done|]. destruct (is_terminal r); auto. }
  revert Hh Hkeep Hsame. destruct Hst as [w k|w T cond f k Hcond|w T cond d f k Hcond|w T cond d f k Hdl|w T f l0 k r0 Hr0|w T f l0 k Hl0|w l0 ns k|w T fuel body k];
    intros Hh Hkeep Hsame; try (by apply Hsame).
  destruct (decide (l0 = l)) as [->|Hne]; [|apply Hsame; simpl; by rewrite lookup_insert_ne].
  assert (r0 = r) as -> by congruence. destruct Hh as (_ & Hf & _ & Hk). exists (f r).2.1. simpl. rewrite lookup_insert_eq.
  split; [done|]. destruct (is_terminal r) eqn:Ht.
  - pose proof (lawful_evolves (f := f) r) as Hev. destruct (ev_frozen _ _ Hev Ht) as [Hst _].
    assert (is_terminal (f r).2.1 = true) as -> by (unfold is_terminal in *; congruence).
    rewrite (evolves_snapshot _ _ Hev Ht). by apply Hkeep.
  - pose proof (lawful_observers (f := f) r ob Hheard Ht) as Hobs. destruct (is_terminal (f r).2.1); [|done].
    right. destruct (honest_due _ _ _ (Hk r)) as (q & Hq); [intros Hnil; rewrite Hnil in Hobs; by apply elem_of_nil in Hobs|].
    exists i, (mkThread (k (Some ((f r).1, (f r).2.2))) tk), (f r).2.2, q. simpl. by rewrite lookup_insert_eq.
Qed.

Lemma act_attended s (a : env_act X) l ob :
  attended l ob s -> attended l ob (mkMachine (step_env a (world s)) (pool s)).
Proof.
  intros (r & Hr & Hheard). destruct a as [l0 o|d|[]]; simpl; [|by exists r].
  destruct (heap (world s) !! l0) as [r0|] eqn:Hr0; [|by exists r].
  assert (Hkeep : forall note w', log w' = log (world s) ++ map (pair l0) (apply_op o r0).2 ->
    heard s l note -> heard (mkMachine w' (pool s)) l note).
  { intros note w' Hlog [?|?]; [left; simpl; rewrite Hlog; apply elem_of_app; by left|by right]. }
  pose proof (apply_op_evolves o r0) as Hev. pose proof (apply_op_observers o r0 ob) as Hobs.
  destruct (apply_op o r0) as [r' ns]. simpl in *. destruct (decide (l0 = l)) as [->|Hne].
  - assert (r0 = r) as -> by congruence. exists r'. simpl. rewrite lookup_insert_eq. split; [done|].
    destruct (is_terminal r) eqn:Ht.
    + destruct (ev_frozen _ _ Hev Ht) as [Hst _].
      assert (is_terminal r' = true) as -> by (unfold is_terminal in *; congruence).
      rewrite (evolves_snapshot _ _ Hev Ht). by apply Hkeep.
    + specialize (Hobs Hheard eq_refl). destruct (is_terminal r'); [|done]. left. simpl. apply elem_of_app. right.
      apply list_elem_of_fmap. by eexists.
  - exists r. simpl. rewrite lookup_insert_ne by done. split; [done|]. destruct (is_terminal r); [|done]. by apply Hkeep.
Qed.

Lemma pool_attended s (pool' : gmap (tid n) thread) l ob :
  (forall i th, pool s !! i = Some th -> pool' !! i = Some th \/ forall ns k, code th <> Deliver l ns k) ->
  attended l ob s -> attended l ob (mkMachine (world s) pool').
Proof.
  intros Hp (r & Hr & Hheard). exists r. split; [done|]. destruct (is_terminal r); [by apply heard_pool|done].
Qed.

Lemma step_attended s s' l ob : truthful s -> step s s' -> attended l ob s -> attended l ob s'.
Proof.
  intros Hs [(i & [Hst|Hst])|Hst].
  - by apply (thread_attended s i).
  - destruct Hst as [i th e Hth Hcode|i th Hth Hcode]; apply pool_attended; intros k th' Hk;
      (destruct (decide (i = k)) as [<-|Hne]; [right; intros ns q; congruence|left]).
    + by rewrite lookup_insert_ne.
    + by rewrite lookup_delete_ne.
  - destruct Hst as [l0 r0 Hl0 _|a _|m l0 Hm _|m Hm].
    + intros (r & Hr & Hheard). exists r. simpl. rewrite lookup_insert_ne by (intros ->; congruence). by split.
    + apply act_attended.
    + apply pool_attended. intros k th Hk. left. rewrite lookup_insert_ne; [done|]. intros <-. congruence.
    + apply pool_attended. intros k th Hk. left. rewrite lookup_insert_ne; [done|]. intros <-. congruence.
Qed.

Lemma steps_attended s s' l ob : truthful s -> rtc step s s' -> attended l ob s -> attended l ob s'.
Proof.
  intros Hs Hrtc. induction Hrtc as [s|s s1 s' Hst _ IH]; [done|]. intros Ha.
  apply IH; [by eapply step_truthful|by eapply step_attended].
Qed.

(** Where no thread is left, nothing is under way. *)
Lemma emptied_located s l r :
  pointers (shared (world s)) = [] -> pool s = ∅ -> located s l r <-> state_ r = Received \/ is_terminal r = true.
Proof.
  intros Hp Hpool. assert (Hno : forall i, ~ handles i s l)
    by (intros i (th & Hth & _); by rewrite Hpool, lookup_empty in Hth).
  assert (Hnil : forall p : RequestPtr, p ∉ []) by (by intros p ?%elem_of_nil).
  unfold located, is_terminal. rewrite Hp. destruct (state_ r); simpl; naive_solver.
Qed.
End reports.

(** C8: Whoever waits for a request is told how it ended. Take any reachable
    state and an observer of a request that has not ended. Whatever happens
    then: a terminal snapshot it is called with is the final state of the
    request; when the request has ended it was called with its final state, or
    a thread is about to call it; and when all threads of a stopped runtime and
    all callers are done, the request was never submitted, or it has ended and
    the observer was called. *)
Theorem observers_hear_the_end {R B n} `{!IWorkerRouter R} `{!IModelBackend B} `{HO : !HashOrder}
    (s s' : machine (R := R) (B := B) (n := n)) l r ob :
  reachable s -> heap (world s) !! l = Some r -> is_terminal r = false -> ob ∈ observers_ r -> rtc step s s' ->
  exists r', heap (world s') !! l = Some r' /\
    (forall snap, (l, (ob, snap)) ∈ log (world s') -> is_terminal_state (snap_state snap) = true ->
       snap = snapshot r' /\ is_terminal r' = true) /\
    (is_terminal r' = true -> heard s' l (ob, snapshot r')) /\
    (pool s' = ∅ -> state_ r' = Received \/ (is_terminal r' = true /\ (l, (ob, snapshot r')) ∈ log (world s'))).
Proof.
  intros Hs Hr Hlive Hob Hrtc. pose proof (reachable_truthful s Hs) as Ht.
  assert (Hs' : reachable s') by (destruct Hs as (s0 & H0 & H1); exists s0; split; [done|by etrans]).
  pose proof (reachable_truthful s' Hs') as Ht'.
  assert (Ha : attended l ob s) by (exists r; split; [done|]; by rewrite Hlive).
  destruct (steps_attended s s' l ob Ht Hrtc Ha) as (r' & Hr' & Hheard). exists r'. split; [done|].
  assert (Hend : is_terminal r' = true -> heard s' l (ob, snapshot r')) by (intros Hend; by rewrite Hend in Hheard).
  split; [|split; [done|]].
  - intros snap Hin Hterm. exact (told_final _ l (ob, snap) r' (true_log s' Ht' _ Hin) Hr' Hterm).
  - intros Hpool. destruct (reachable_ok s' Hs') as (g & Hm). pose proof (covered_located g s' l r' Hm Hr') as Hloc.
    assert (Hj : joined s') by (split; [|intros j]; rewrite Hpool; apply lookup_empty).
    rewrite (emptied_located s' l r' (joined_empty g s' Hm Hj) Hpool) in Hloc.
    destruct Hloc as [?|Hterm]; [by left|right]. split; [done|]. destruct (Hend Hterm) as [?|(i & th & ? & ? & Hth & _)]; [done|].
    by rewrite Hpool, lookup_empty in Hth.
Qed.

(** ** A request with an observer, from its submission to the end of the runtime *)

Definition demo_observed : machine (R := unit) (B := Synthetic.t) (n := 2) :=
  mkMachine (mkWorld ({[1%positive := with_observers [7%nat] (demo_request "a" "m")]}
              : gmap loc InferenceRequest.t) 0 [] demo_runtime []) (started_pool (HO := gmap_order) 0).

Lemma demo_observed_initial : initial (HO := gmap_order) demo_observed.
Proof.
  split; [done|done|..|by vm_compute|].
  - intros l r Hl. simpl in Hl. by apply lookup_singleton_Some in Hl as [_ <-].
  - intros i. simpl. rewrite started_pool_lookup. destruct i; [by eexists|by eexists|done].
Qed.

Definition demo_life : list demo_move :=
  [MoveSubmit 0 1%positive; MoveSections (TCaller 0) 100; MoveTurn (TCaller 0) 0;
   MoveSections TRouting 100; MoveTurn TRouting 0; MoveSections (TWorker 1%fin) 200; MoveTurn (TWorker 1%fin) 0;
   MoveStop 1; MoveSections (TCaller 1) 100; MoveTurn (TCaller 1) 0;
   MoveSections TRouting 100; MoveTurn TRouting 0; MoveSections (TWorker 0%fin) 100; MoveTurn (TWorker 0%fin) 0;
   MoveSections (TWorker 1%fin) 200; MoveTurn (TWorker 1%fin) 0].
Definition demo_ended := demo_run demo_life demo_observed.

Lemma demo_life_steps : rtc (step (HO := gmap_order)) demo_observed demo_ended.
Proof. apply exec_default. by vm_compute. Qed.

Lemma observers_hear_the_end_witness : exists r',
  heap (world demo_ended) !! (1%positive : loc) = Some r' /\ is_terminal r' = true /\
  (1%positive, (7%nat, snapshot r')) ∈ log (world demo_ended).
Proof.
  assert (Hr : reachable (HO := gmap_order) demo_observed) by (exists demo_observed; split; [apply demo_observed_initial|done]).
  assert (Hend : state_ <$> heap (world demo_ended) !! (1%positive : loc) = Some Completed) by (by vm_compute).
  assert (Hpool : bool_decide (dom (pool demo_ended) = ∅) = true) by (by vm_compute).
  apply bool_decide_eq_true, dom_empty_inv_L in Hpool. apply fmap_Some in Hend as (r & Hheap & Hst).
  assert (Hob : 7%nat ∈ observers_ (with_observers [7%nat] (demo_request "a" "m"))) by (by left).
  destruct (observers_hear_the_end (HO := gmap_order) demo_observed demo_ended 1%positive _ 7%nat Hr eq_refl eq_refl
    Hob demo_life_steps) as (r' & Hr' & _ & _ & Hdone).
  exists r'. split; [exact Hr'|]. destruct (Hdone Hpool) as [Hrec|Hin]; [|exact Hin].
  assert (Heq : r = r') by (apply (inj Some); rewrite <- Hheap; exact Hr'). rewrite Heq, Hrec in Hst. discriminate Hst.
Defined.
