(* ===== verification/WorkloadScheduler.v ===== *)
(** * The workload-aware scheduler

    [include/airuntime/workload_aware_scheduler.hpp] and
    [src/workload_aware_scheduler.cpp]: requests are grouped by model; [next]
    prefers the largest group, unless a request has been passed over
    [max_bypass] times, in which case the oldest such request goes first.

    The functions the code calls with [mutex_] held take the scheduler as an
    argument and return it: while the mutex is held no other thread changes
    it, but other threads may still change the requests it holds, so liveness
    is read through [World]. [with_lock] takes the mutex, runs such a function
    and writes the scheduler back. *)

From S2P Require Import Prelude Status Requests World Queue Batch Scheduler.
Import InferenceRequest.

Module WorkloadAwareScheduler.

Record Config := mkConfig { cfg_capacity : Z; cfg_max_bypass : Z }.

Record Metrics := mkMetrics { reordered_dispatches : Z; starvation_promotions : Z }.

Record Entry := mkEntry {
  request : RequestPtr;
  enqueue_sequence : Z;
  bypass_count : Z
}.

(** [locked_] is the state of [mutex_]. *)
Record t := mk {
  capacity_ : Z;
  max_bypass_ : Z;
  by_model_ : gmap string (list Entry);
  size_ : Z;
  next_sequence_ : Z;
  closed_ : bool;
  metrics_ : Metrics;
  locked_ : bool
}.

Definition new (config : Config) : exn + t :=
  if cfg_capacity config =? 0
  then inl (StdException "WorkloadAwareScheduler capacity must be > 0")
  else if cfg_max_bypass config <? 1
  then inl (StdException "WorkloadAwareScheduler max_bypass must be >= 1")
  else inr (mk (cfg_capacity config) (cfg_max_bypass config) ∅ 0 0 false (mkMetrics 0 0) false).

Definition set_entries (m : gmap string (list Entry)) (size : Z) (s : t) : t :=
  mk (capacity_ s) (max_bypass_ s) m size (next_sequence_ s) (closed_ s) (metrics_ s) (locked_ s).
Definition set_metrics (m : Metrics) (s : t) : t :=
  mk (capacity_ s) (max_bypass_ s) (by_model_ s) (size_ s) (next_sequence_ s) (closed_ s) m (locked_ s).
Definition set_locked (b : bool) (s : t) : t :=
  mk (capacity_ s) (max_bypass_ s) (by_model_ s) (size_ s) (next_sequence_ s) (closed_ s)
     (metrics_ s) b.
Definition set_closed (s : t) : t :=
  mk (capacity_ s) (max_bypass_ s) (by_model_ s) (size_ s) (next_sequence_ s) true
     (metrics_ s) (locked_ s).

(** [if (size_ > 0) --size_;] *)
Definition dec_size (size : Z) : Z := if 0 <? size then size -! 1 else size.

(** Write a queue back, dropping the model when it is empty. *)
Definition put_queue (m : string) (q : list Entry) (ms : gmap string (list Entry))
  : gmap string (list Entry) :=
  match q with [] => delete m ms | _ => <[m := q]> ms end.

(** [push_back] on [by_model_[id]]. *)
Definition push_entry (id : string) (p : RequestPtr) (s : t) : t :=
  let entry := mkEntry p (next_sequence_ s) 0 in
  let q := default [] (by_model_ s !! id) in
  mk (capacity_ s) (max_bypass_ s) (<[id := q ++ [entry]]> (by_model_ s)) (size_ s +! 1)
     (next_sequence_ s +! 1) (closed_ s) (metrics_ s) (locked_ s).

Section scheduler.
Context {X : Type} `{!Shared X} `{HO : !HashOrder}.

(** The inner loop of the pruning. *)
Fixpoint prune_queue (q : list Entry) (size : Z) : M X (list Entry * Z) :=
  match q with
  | [] => mret ([], size)
  | e :: q =>
      dead ← is_dead_request (request e);
      if (dead : bool) then prune_queue q (dec_size size)
      else rest ← prune_queue q size; mret (e :: rest.1, rest.2)
  end.

Fixpoint prune_models (qs : list (string * list Entry)) (s : t) : M X t :=
  match qs with
  | [] => mret s
  | (m, q) :: qs =>
      out ← prune_queue q (size_ s);
      prune_models qs (set_entries (put_queue m out.1 (by_model_ s)) out.2 s)
  end.

Definition prune_dead_entries_locked (epoch : nat) (s : t) : M X t :=
  prune_models (hash_list epoch (by_model_ s)) s.

(** The sequence number of the oldest live front of a queue. *)
Fixpoint oldest_front (qs : list (string * list Entry)) (oldest : Z) : M X Z :=
  match qs with
  | [] => mret oldest
  | (_, []) :: qs => oldest_front qs oldest
  | (_, e :: _) :: qs =>
      dead ← is_dead_request (request e);
      oldest_front qs
        (if negb dead && (enqueue_sequence e <? oldest) then enqueue_sequence e else oldest)
  end.

(** A choice: model and index. *)
Definition choice : Type := option (string * nat).

(** Every entry with its model and index, in traversal order. *)
Definition slots (qs : list (string * list Entry)) : list (string * nat * Entry) :=
  concat (map (fun mq => imap (fun i e => (mq.1, i, e)) mq.2) qs).

(** The loop that looks for the oldest starved request. *)
Fixpoint find_starved (max_bypass : Z) (ss : list (string * nat * Entry)) (best : Z) (c : choice)
  : M X choice :=
  match ss with
  | [] => mret c
  | (m, i, e) :: ss =>
      dead ← is_dead_request (request e);
      if (dead : bool) then find_starved max_bypass ss best c
      else if (max_bypass <=? bypass_count e) && (enqueue_sequence e <? best)
      then find_starved max_bypass ss (enqueue_sequence e) (Some (m, i))
      else find_starved max_bypass ss best c
  end.

(** Live size and oldest live sequence number of a group. *)
Fixpoint measure_group (q : list Entry) (live oldest : Z) : M X (Z * Z) :=
  match q with
  | [] => mret (live, oldest)
  | e :: q =>
      dead ← is_dead_request (request e);
      if (dead : bool) then measure_group q live oldest
      else measure_group q (live + 1) (Z.min oldest (enqueue_sequence e))
  end.

(** The best group so far: size, oldest sequence number, model. *)
Definition group : Type := option (Z * Z * string).

Definition better_group (live oldest : Z) (m : string) (g : group) : bool :=
  match g with
  | None => true
  | Some (best_size, best_oldest, best_model) =>
      (best_size <? live) || ((live =? best_size) && (oldest <? best_oldest)) ||
      ((live =? best_size) && (oldest =? best_oldest) && str_ltb m best_model)
  end.

Fixpoint best_group (qs : list (string * list Entry)) (g : group) : M X group :=
  match qs with
  | [] => mret g
  | (_, []) :: qs => best_group qs g
  | (m, q) :: qs =>
      out ← measure_group q 0 u64_max;
      let '(live, oldest) := out in
      if live =? 0 then best_group qs g
      else best_group qs (if better_group live oldest m g then Some (live, oldest, m) else g)
  end.

(** [while (index < size && dead(q[index])) erase(index)] on what follows the
    index. *)
Fixpoint drop_dead (rest : list Entry) (size : Z) : M X (list Entry * Z) :=
  match rest with
  | [] => mret ([], size)
  | e :: rest =>
      dead ← is_dead_request (request e);
      if (dead : bool) then drop_dead rest (dec_size size) else mret (e :: rest, size)
  end.

(** [++bypass_count] for the live entries. *)
Fixpoint bump_queue (q : list Entry) : M X (list Entry) :=
  match q with
  | [] => mret []
  | e :: q =>
      dead ← is_dead_request (request e);
      rest ← bump_queue q;
      mret ((if negb dead then mkEntry (request e) (enqueue_sequence e) (bypass_count e +! 1) else e)
            :: rest)
  end.

Fixpoint bump_models (qs : list (string * list Entry)) (ms : gmap string (list Entry))
  : M X (gmap string (list Entry)) :=
  match qs with
  | [] => mret ms
  | (m, q) :: qs => q' ← bump_queue q; bump_models qs (<[m := q']> ms)
  end.

Definition count_dispatch (reordered starved : bool) (m : Metrics) : Metrics :=
  mkMetrics (if reordered then reordered_dispatches m +! 1 else reordered_dispatches m)
    (if starved then starvation_promotions m +! 1 else starvation_promotions m).

(** The choice of a model and an index, and whether it is a promotion. *)
Definition choose (epoch : nat) (s : t) : M X (choice * bool) :=
  starved ← find_starved (max_bypass_ s) (slots (hash_list (epoch + 2) (by_model_ s))) u64_max None;
  match starved with
  | Some c => mret (Some c, true)
  | None =>
      g ← best_group (hash_list (epoch + 3) (by_model_ s)) None;
      mret (match g with None => None | Some (_, _, m) => Some (m, 0%nat) end, false)
  end.

(** The recursion drops at least one entry each time: as much fuel as there
    are entries, and one more, is enough. *)
Fixpoint select_locked (fuel : nat) (epoch : nat) (s : t) : M X (option RequestPtr * t) :=
  match fuel with
  | O => fun w => (Blocked, w)
  | S fuel =>
      s ← prune_dead_entries_locked epoch s;
      if size_ s =? 0 then mret (None, s) else
      oldest_global_seq ← oldest_front (hash_list (epoch + 1) (by_model_ s)) u64_max;
      chosen ← choose epoch s;
      match chosen with
      | (None, _) => s ← prune_dead_entries_locked (epoch + 4) s; mret (None, s)
      | (Some (m, i), starvation) =>
          match by_model_ s !! m with
          | None => mret (None, s)
          | Some q =>
              out ← drop_dead (drop i q) (size_ s);
              match out with
              | ([], size) =>
                  select_locked fuel (epoch + 6)
                    (set_entries (put_queue m (take i q) (by_model_ s)) size s)
              | (selected :: rest, size) =>
                  let s := set_entries (put_queue m (take i q ++ rest) (by_model_ s)) (size -! 1) s in
                  dead ← is_dead_request (request selected);
                  if (dead : bool) then select_locked fuel (epoch + 6) s else
                  let s := set_metrics (count_dispatch
                    (negb (enqueue_sequence selected =? oldest_global_seq)) starvation (metrics_ s)) s in
                  ms ← bump_models (hash_list (epoch + 5) (by_model_ s)) (by_model_ s);
                  mret (Some (request selected), set_entries ms (size_ s) s)
              end
          end
      end
  end.

Definition entry_count (s : t) : nat := length (concat (map_to_list (by_model_ s)).*2).

(** [next] once its wait has ended, with the mutex held. *)
Definition next_locked (epoch : nat) (s : t) : M X (option RequestPtr * t) :=
  s ← prune_dead_entries_locked epoch s;
  if size_ s =? 0 then mret (None, s)
  else select_locked (S (entry_count s)) (epoch + 1) s.

Definition enqueue_locked (l : loc) (s : t) : M X (Status * t) :=
  if closed_ s then mret (Status.error QueueClosed "scheduler is closed", s) else
  if capacity_ s <=? size_ s then mret (Status.error QueueFull "scheduler is full", s) else
  id ← req_model_id l;
  mret (Status.success, push_entry id (Some l) s).

(** ** The mutex *)

Context (L : lens X t).

Definition acquire (x : X) : t * X := (view L x, over L (set_locked true) x).
Definition release (s : t) : M X unit := updating (over L (fun _ => set_locked false s)).

Definition with_lock {A} (body : t -> M X (A * t)) : M X A :=
  s ← atomically acquire;
  out ← body s;
  _ ← release out.2;
  mret out.1.

Definition enqueue (p : RequestPtr) : M X Status :=
  match p with
  | None => mret (Status.error InternalError "null request")
  | Some l => with_lock (enqueue_locked l)
  end.

(** [cv_.wait] returns with the mutex held. *)
Definition next (epoch : nat) : M X (option RequestPtr) :=
  s ← wait_then (fun x => (0 <? size_ (view L x)) || closed_ (view L x)) acquire;
  out ← next_locked epoch s;
  _ ← release out.2;
  mret out.1.

Definition close : M X unit := updating (over L set_closed).
Definition size : M X Z := reading (fun x => size_ (view L x)).
Definition capacity : M X Z := reading (fun x => capacity_ (view L x)).
Definition metrics : M X Metrics := reading (fun x => metrics_ (view L x)).
End scheduler.
End WorkloadAwareScheduler.
