(* ===== verification/WorkloadProofs.v ===== *)
(** * What the workload-aware scheduler guarantees

    Theorems about [WorkloadScheduler.v]. Under every schedule: [next]
    terminates, hands out a request it held, and drops only dead requests.
    And one defect: [next] answers nothing on an open scheduler when everything
    it holds is dead. The policy is in [WorkloadPolicy.v]. *)

From S2P Require Import Prelude Status Requests World Queue Registry Resources Eviction.
From S2P Require Import Backends Manager Router Batch Scheduler Admission Worker WorkerProofs.
From S2P Require Import Runtime RuntimeProofs WorkloadScheduler.
Import InferenceRequest.
Import WorkloadAwareScheduler.

(** ** The entries of a scheduler *)

Definition total (ms : gmap string (list Entry)) : Z :=
  msum (fun q => Z.of_nat (length q)) ms.

Definition holds (ms : gmap string (list Entry)) (e : Entry) : Prop :=
  exists m q, ms !! m = Some q /\ e ∈ q.

Lemma total_nonneg ms : 0 <= total ms.
Proof. apply msum_nonneg. intros. lia. Qed.

Lemma total_empty : total ∅ = 0.
Proof. apply msum_empty. Qed.

Lemma total_zero ms e : total ms = 0 -> ~ holds ms e.
Proof.
  intros Ht (m & q & Hq & He). pose proof (msum_lookup_le (fun q => Z.of_nat (length q)) ms m q) as Hle.
  simpl in Hle. specialize (Hle ltac:(intros; lia) Hq). unfold total in Ht.
  destruct q; [by apply elem_of_nil in He|simpl in Hle; lia].
Qed.

Lemma total_put m q q' ms :
  ms !! m = Some q -> total (put_queue m q' ms) = total ms - Z.of_nat (length q) + Z.of_nat (length q').
Proof.
  intros Hq. unfold total, put_queue. destruct q' as [|e q'].
  - rewrite (msum_delete _ ms m q Hq). simpl. lia.
  - rewrite msum_insert, Hq. simpl. lia.
Qed.

Lemma put_queue_ne m m' q ms : m <> m' -> put_queue m q ms !! m' = ms !! m'.
Proof.
  intros Hne. unfold put_queue. destruct q; [by rewrite lookup_delete_ne|by rewrite lookup_insert_ne].
Qed.

Lemma put_queue_eq m q ms : put_queue m q ms !! m = if decide (q = []) then None else Some q.
Proof.
  unfold put_queue. destruct q as [|e q]; [by rewrite lookup_delete_eq|by rewrite lookup_insert_eq].
Qed.

Lemma entry_count_total s : Z.of_nat (entry_count s) = total (by_model_ s).
Proof.
  unfold entry_count, total, msum. induction (map_to_list (by_model_ s)) as [|[m q] l IH]; [done|].
  cbn [fmap list_fmap concat sum_by foldr fst snd]. rewrite length_app. unfold sum_by in IH. lia.
Qed.

(** The counter agrees with the queues, none of which is empty. *)
Record entries_wf (s : t) : Prop := {
  ewf_size : size_ s = total (by_model_ s);
  ewf_range : size_ s < two64;
  ewf_nonempty m q : by_model_ s !! m = Some q -> q <> []
}.

Lemma dec_size_spec size : 0 <= size < two64 -> dec_size size = Z.max 0 (size - 1).
Proof.
  intros H. unfold dec_size. destruct (Z.ltb_spec 0 size); [|lia].
  rewrite u64_sub_small by (unfold is_u64; lia). lia.
Qed.

(** ** The loops neither write the shared state nor wait *)

Section effects.
Context {X : Type} `{!Shared X} `{HO : !HashOrder}.

Ltac by_list := intros; simpl; apply _.

#[global] Instance prune_queue_mono q n : Mono (X := X) (prune_queue q n).
Proof. revert n. induction q; by_list. Qed.
#[global] Instance prune_queue_quiet q n : Quiet (X := X) (prune_queue q n).
Proof. revert n. induction q; by_list. Qed.
#[global] Instance prune_queue_nb q n : NonBlocking (X := X) (prune_queue q n).
Proof. revert n. induction q; by_list. Qed.
#[global] Instance prune_models_mono qs s : Mono (X := X) (prune_models qs s).
Proof. revert s. induction qs as [|[]]; by_list. Qed.
#[global] Instance prune_models_quiet qs s : Quiet (X := X) (prune_models qs s).
Proof. revert s. induction qs as [|[]]; by_list. Qed.
#[global] Instance prune_models_nb qs s : NonBlocking (X := X) (prune_models qs s).
Proof. revert s. induction qs as [|[]]; by_list. Qed.
#[global] Instance prune_mono e s : Mono (X := X) (prune_dead_entries_locked e s).
Proof. unfold prune_dead_entries_locked. apply _. Qed.
#[global] Instance prune_quiet e s : Quiet (X := X) (prune_dead_entries_locked e s).
Proof. unfold prune_dead_entries_locked. apply _. Qed.
#[global] Instance prune_nb e s : NonBlocking (X := X) (prune_dead_entries_locked e s).
Proof. unfold prune_dead_entries_locked. apply _. Qed.
#[global] Instance oldest_mono qs n : Mono (X := X) (oldest_front qs n).
Proof. revert n. induction qs as [|[? []]]; by_list. Qed.
#[global] Instance oldest_quiet qs n : Quiet (X := X) (oldest_front qs n).
Proof. revert n. induction qs as [|[? []]]; by_list. Qed.
#[global] Instance oldest_nb qs n : NonBlocking (X := X) (oldest_front qs n).
Proof. revert n. induction qs as [|[? []]]; by_list. Qed.
#[global] Instance starved_mono b ss n c : Mono (X := X) (find_starved b ss n c).
Proof. revert n c. induction ss as [|[[] ]]; by_list. Qed.
#[global] Instance starved_quiet b ss n c : Quiet (X := X) (find_starved b ss n c).
Proof. revert n c. induction ss as [|[[] ]]; by_list. Qed.
#[global] Instance starved_nb b ss n c : NonBlocking (X := X) (find_starved b ss n c).
Proof. revert n c. induction ss as [|[[] ]]; by_list. Qed.
#[global] Instance measure_mono q a b : Mono (X := X) (measure_group q a b).
Proof. revert a b. induction q; by_list. Qed.
#[global] Instance measure_quiet q a b : Quiet (X := X) (measure_group q a b).
Proof. revert a b. induction q; by_list. Qed.
#[global] Instance measure_nb q a b : NonBlocking (X := X) (measure_group q a b).
Proof. revert a b. induction q; by_list. Qed.
#[global] Instance group_mono qs g : Mono (X := X) (best_group qs g).
Proof. revert g. induction qs as [|[? []]]; by_list. Qed.
#[global] Instance group_quiet qs g : Quiet (X := X) (best_group qs g).
Proof. revert g. induction qs as [|[? []]]; by_list. Qed.
#[global] Instance group_nb qs g : NonBlocking (X := X) (best_group qs g).
Proof. revert g. induction qs as [|[? []]]; by_list. Qed.
#[global] Instance choose_mono e s : Mono (X := X) (choose e s).
Proof. unfold choose. apply _. Qed.
#[global] Instance choose_quiet e s : Quiet (X := X) (choose e s).
Proof. unfold choose. apply _. Qed.
#[global] Instance choose_nb e s : NonBlocking (X := X) (choose e s).
Proof. unfold choose. apply _. Qed.
#[global] Instance drop_mono q n : Mono (X := X) (drop_dead q n).
Proof. revert n. induction q; by_list. Qed.
#[global] Instance drop_quiet q n : Quiet (X := X) (drop_dead q n).
Proof. revert n. induction q; by_list. Qed.
#[global] Instance drop_nb q n : NonBlocking (X := X) (drop_dead q n).
Proof. revert n. induction q; by_list. Qed.
#[global] Instance bump_mono q : Mono (X := X) (bump_queue q).
Proof. induction q; by_list. Qed.
#[global] Instance bump_quiet q : Quiet (X := X) (bump_queue q).
Proof. induction q; by_list. Qed.
#[global] Instance bump_nb q : NonBlocking (X := X) (bump_queue q).
Proof. induction q; by_list. Qed.
#[global] Instance bumps_mono qs ms : Mono (X := X) (bump_models qs ms).
Proof. revert ms. induction qs as [|[]]; by_list. Qed.
#[global] Instance bumps_quiet qs ms : Quiet (X := X) (bump_models qs ms).
Proof. revert ms. induction qs as [|[]]; by_list. Qed.
#[global] Instance bumps_nb qs ms : NonBlocking (X := X) (bump_models qs ms).
Proof. revert ms. induction qs as [|[]]; by_list. Qed.
#[global] Instance select_mono fuel e s : Mono (X := X) (select_locked fuel e s).
Proof. revert e s. induction fuel; intros; simpl; [by intros w|]. apply _. Qed.
#[global] Instance select_quiet fuel e s : Quiet (X := X) (select_locked fuel e s).
Proof. revert e s. induction fuel; intros; simpl; [by intros P w|]. apply _. Qed.
End effects.

(** ** Pruning *)

Section prune.
Context {X : Type} `{!Shared X} `{HO : !HashOrder}.
Implicit Types (w : World X) (s : t).

(** Every pointer is null or to a request of the heap. *)
Definition entries_valid (ms : gmap string (list Entry)) w : Prop :=
  forall e, holds ms e -> valid_ptr (request e) w.

#[global] Instance entries_valid_upward ms : Upward (entries_valid ms).
Proof. unfold entries_valid. apply _. Qed.

(** [s'] is [s] without some dead entries. *)
Record shrinks s s' w : Prop := {
  sh_capacity : capacity_ s' = capacity_ s;
  sh_max_bypass : max_bypass_ s' = max_bypass_ s;
  sh_sequence : next_sequence_ s' = next_sequence_ s;
  sh_closed : closed_ s' = closed_ s;
  sh_wf : entries_wf s';
  sh_total : total (by_model_ s') <= total (by_model_ s);
  sh_from e : holds (by_model_ s') e -> holds (by_model_ s) e;
  sh_kept e : holds (by_model_ s) e -> holds (by_model_ s') e \/ dead_ptr (request e) w
}.

#[global] Instance shrinks_upward s s' : Upward (shrinks s s').
Proof.
  intros w w' Hle [? ? ? ? ? ? ? Hk]. split; try done.
  intros e He. destruct (Hk e He); [by left|right]. by eapply upward.
Qed.

Lemma shrinks_refl s w : entries_wf s -> shrinks s s w.
Proof. intros Hwf. split; auto. lia. Qed.

Lemma shrinks_trans s1 s2 s3 w : shrinks s1 s2 w -> shrinks s2 s3 w -> shrinks s1 s3 w.
Proof.
  intros [? ? ? ? ? ? ? Hk1] [? ? ? ? ? ? ? Hk2]. split; try congruence; try lia; try done; auto.
  intros e He. destruct (Hk1 e He) as [H1|]; [|by right]. by apply Hk2.
Qed.

Lemma shrinks_valid s s' w : shrinks s s' w -> entries_valid (by_model_ s) w -> entries_valid (by_model_ s') w.
Proof. intros Hs Hv e He. by apply Hv, (sh_from _ _ _ Hs). Qed.

(** [q'] is [q] without some dead entries. *)
Definition queue_shrinks (q q' : list Entry) w : Prop :=
  (forall e, e ∈ q' -> e ∈ q) /\ (length q' <= length q)%nat /\
  forall e, e ∈ q -> e ∈ q' \/ dead_ptr (request e) w.

#[global] Instance queue_shrinks_upward q q' : Upward (queue_shrinks q q').
Proof.
  intros w w' Hle (? & ? & Hk). repeat split; try done.
  intros e He. destruct (Hk e He); [by left|right]. by eapply upward.
Qed.

(** Replacing one queue by a shrunk one. *)
Lemma shrinks_put s m q q' size w :
  entries_wf s -> by_model_ s !! m = Some q -> queue_shrinks q q' w ->
  size = size_ s - (Z.of_nat (length q) - Z.of_nat (length q')) ->
  shrinks s (set_entries (put_queue m q' (by_model_ s)) size s) w.
Proof.
  intros Hwf Hq (Hfrom & Hlen & Hkept) ->. pose proof (total_put m q q' _ Hq) as Ht.
  pose proof (ewf_size s Hwf) as Hsize. pose proof (ewf_range s Hwf).
  split; try done; simpl; [split; simpl; [lia|lia|]|lia|..].
  - intros m' q0. destruct (decide (m = m')) as [<-|Hne].
    + rewrite put_queue_eq. destruct (decide (q' = [])); [done|]. by intros [= <-].
    + rewrite put_queue_ne by done. apply (ewf_nonempty s Hwf).
  - intros e (m' & q0 & Hm' & He). destruct (decide (m = m')) as [<-|Hne].
    + rewrite put_queue_eq in Hm'. destruct (decide (q' = [])); [done|]. injection Hm' as <-.
      exists m, q. split; [done|]. by apply Hfrom.
    + rewrite put_queue_ne in Hm' by done. by exists m', q0.
  - intros e (m' & q0 & Hm' & He). destruct (decide (m = m')) as [<-|Hne].
    + assert (q0 = q) as -> by congruence. destruct (Hkept e He) as [Hin|]; [left|by right].
      exists m, q'. split; [|done]. rewrite put_queue_eq.
      destruct (decide (q' = [])) as [->|]; [by apply elem_of_nil in Hin|done].
    + left. exists m', q0. by rewrite put_queue_ne.
Qed.

Lemma triple_prune_queue q size :
  Z.of_nat (length q) <= size < two64 ->
  triple (X := X) (fun w => forall e, e ∈ q -> valid_ptr (request e) w) (prune_queue q size)
    (fun out w => queue_shrinks q out.1 w /\
       out.2 = size - (Z.of_nat (length q) - Z.of_nat (length out.1))) no_throw.
Proof.
  revert size. induction q as [|e q IH]; intros size Hsize; simpl.
  { apply triple_ret. intros w _. split; [|simpl; lia]. repeat split; auto. }
  simpl in Hsize.
  eapply triple_bind.
  { eapply triple_pre; [|apply (triple_framed _ _ _ (triple_dead_check any_req (request e) _)
      (fun w => forall e', e' ∈ q -> valid_ptr (request e') w))].
    intros w Hv. split; [by apply Hv; left|]. intros e' He'. apply Hv. by right. }
  intros [|].
  - assert (Hdec : Z.of_nat (length q) <= dec_size size < two64) by (rewrite dec_size_spec; lia).
    eapply triple_conseq;
      [apply (triple_framed _ _ _ (IH (dec_size size) Hdec) (dead_ptr (request e)) no_throw)|..|done].
    + by intros w [].
    + intros [q' n] w [[(Hf & Hl & Hk) Hn] Hd]. simpl in *. rewrite dec_size_spec in Hn by lia.
      split; [|lia]. repeat split; [intros; right; auto|simpl; lia|].
      intros e' [->|He']%elem_of_cons; [by right|]. by apply Hk.
  - eapply triple_bind.
    { eapply triple_pre; [|apply (IH size); lia]. by intros w []. }
    intros [q' n]. apply triple_ret. intros w [(Hf & Hl & Hk) Hn]. simpl in *. split; [|lia].
    repeat split; [|simpl; lia|].
    + intros e' [->|He']%elem_of_cons; [left|right; auto].
    + intros e' [->|He']%elem_of_cons; [left; left|]. destruct (Hk e' He'); [left; by right|by right].
Qed.

Lemma queue_le_total s m q : entries_wf s -> by_model_ s !! m = Some q -> Z.of_nat (length q) <= size_ s.
Proof.
  intros Hwf Hq. rewrite (ewf_size s Hwf).
  apply (msum_lookup_le (fun q => Z.of_nat (length q)) _ m q); [intros; lia|done].
Qed.

Lemma triple_prune_models qs s :
  entries_wf s -> NoDup qs.*1 -> (forall m q, (m, q) ∈ qs -> by_model_ s !! m = Some q) ->
  triple (X := X) (entries_valid (by_model_ s)) (prune_models qs s) (shrinks s) no_throw.
Proof.
  revert s. induction qs as [|[m q] qs IH]; intros s Hwf Hnd Hqs; simpl.
  { apply triple_ret. intros w _. by apply shrinks_refl. }
  pose proof (Hqs m q ltac:(left)) as Hq. apply NoDup_cons in Hnd as [Hm Hnd].
  pose proof (queue_le_total s m q Hwf Hq) as Hle. pose proof (ewf_range s Hwf).
  assert (Hrange : Z.of_nat (length q) <= size_ s < two64) by lia.
  eapply triple_bind.
  { eapply triple_pre; [|apply (triple_framed _ _ _ (triple_prune_queue q (size_ s) Hrange)
      (entries_valid (by_model_ s)))].
    intros w Hv. split; [|done]. intros e He. apply Hv. by exists m, q. }
  intros [q' n]. cbn [fst snd].
  set (s1 := set_entries (put_queue m q' (by_model_ s)) n s).
  intros w [[Hsh Hn] Hv]. pose proof (shrinks_put s m q q' n w Hwf Hq Hsh Hn) as H1. fold s1 in H1.
  assert (Hqs1 : forall m' q0, (m', q0) ∈ qs -> by_model_ s1 !! m' = Some q0).
  { intros m' q0 Hin. unfold s1. simpl. rewrite put_queue_ne; [apply Hqs; by right|].
    intros ->. apply Hm. apply list_elem_of_fmap. by exists (m', q0). }
  pose proof (triple_framed _ _ _ (IH s1 (sh_wf _ _ _ H1) Hnd Hqs1) (shrinks s s1) no_throw
    w (conj (shrinks_valid _ _ _ H1 Hv) H1)) as Hrun.
  destruct (prune_models qs s1 w) as [[s2|e|] w2]; try done. destruct Hrun as [H2 H1'].
  by eapply shrinks_trans.
Qed.

Lemma triple_prune epoch s :
  entries_wf s ->
  triple (X := X) (entries_valid (by_model_ s)) (prune_dead_entries_locked epoch s) (shrinks s) no_throw.
Proof.
  intros Hwf. apply triple_prune_models; [done|apply NoDup_hash_list|].
  intros m q. by rewrite elem_of_hash_list.
Qed.
End prune.

(** ** Choosing *)

Section choosing.
Context {X : Type} `{!Shared X} `{HO : !HashOrder}.
Implicit Types (w : World X) (s : t).

Lemma elem_of_slots qs m i e :
  (m, i, e) ∈ slots qs <-> exists q, (m, q) ∈ qs /\ q !! i = Some e.
Proof.
  unfold slots. induction qs as [|[m0 q0] qs IH]; cbn [map concat fst snd].
  - split; [by intros ?%elem_of_nil|]. by intros (q & ?%elem_of_nil & _).
  - rewrite elem_of_app, IH. split.
    + intros [Hin|(q & Hq & Hi)]; [|exists q; split; [by right|done]].
      apply elem_of_lookup_imap in Hin as (i' & e' & [= -> -> ->] & Hi). exists q0. split; [left|done].
    + intros (q & [[= -> ->]|Hq]%elem_of_cons & Hi); [left|right; by exists q].
      apply elem_of_lookup_imap. by exists i, e.
Qed.

Lemma triple_find_starved b ss best c :
  triple (X := X) (fun w => forall m i e, (m, i, e) ∈ ss -> valid_ptr (request e) w)
    (find_starved b ss best c)
    (fun c' _ => c' = c \/ exists m i e, (m, i, e) ∈ ss /\ c' = Some (m, i)) no_throw.
Proof.
  revert best c. induction ss as [|[[m i] e] ss IH]; intros best c; simpl; [apply triple_ret; by left|].
  eapply triple_bind.
  { eapply triple_pre; [|apply (triple_framed _ _ _ (triple_dead_check any_req (request e) _)
      (fun w => forall m' i' e', (m', i', e') ∈ ss -> valid_ptr (request e') w))].
    intros w Hv. split; [by apply (Hv m i); left|]. intros m' i' e' Hin. apply (Hv m' i'). by right. }
  assert (Hgo : forall best' c', (c' = c \/ c' = Some (m, i)) ->
    triple (X := X) (fun w => forall m' i' e', (m', i', e') ∈ ss -> valid_ptr (request e') w)
      (find_starved b ss best' c')
      (fun c'' _ => c'' = c \/ exists m' i' e', (m', i', e') ∈ (m, i, e) :: ss /\ c'' = Some (m', i')) no_throw).
  { intros best' c' Hc'. eapply triple_post; [|apply IH].
    intros c'' w [->|(m' & i' & e' & Hin & ->)]; [|right; exists m', i', e'; split; [by right|done]].
    destruct Hc' as [->|Hc']; [by left|right]. exists m, i, e. split; [left|done]. }
  intros [|]; [eapply triple_pre; [|by apply Hgo; left]; by intros w []|].
  destruct (_ && _); (eapply triple_pre; [|by apply Hgo; auto]); by intros w [].
Qed.

Lemma triple_measure q live oldest :
  triple (X := X) (fun w => forall e, e ∈ q -> valid_ptr (request e) w) (measure_group q live oldest)
    (fun out w => live <= out.1 /\ (out.1 = live -> forall e, e ∈ q -> dead_ptr (request e) w)) no_throw.
Proof.
  revert live oldest. induction q as [|e q IH]; intros live oldest; simpl.
  { apply triple_ret. intros w _. simpl. split; [lia|]. by intros _ e ?%elem_of_nil. }
  eapply triple_bind.
  { eapply triple_pre; [|apply (triple_framed _ _ _ (triple_dead_check any_req (request e) _)
      (fun w => forall e', e' ∈ q -> valid_ptr (request e') w))].
    intros w Hv. split; [by apply Hv; left|]. intros e' He'. apply Hv. by right. }
  intros [|].
  - eapply triple_conseq; [apply (triple_framed _ _ _ (IH live oldest) (dead_ptr (request e)) no_throw)
      |by intros w []| |done].
    intros [n o] w [[Hle Hd] He]. simpl in *. split; [done|]. intros Heq e' [->|He']%elem_of_cons; auto.
  - eapply triple_conseq; [apply (IH (live + 1))|by intros w []| |done].
    intros [n o] w [Hle _]. simpl in *. split; lia.
Qed.

Definition group_model (g : group) : option string :=
  match g with None => None | Some (_, _, m) => Some m end.

Lemma triple_best_group qs g :
  triple (X := X) (fun w => forall m q e, (m, q) ∈ qs -> e ∈ q -> valid_ptr (request e) w)
    (best_group qs g)
    (fun g' w => match group_model g' with
       | None => g = None /\ forall m q e, (m, q) ∈ qs -> e ∈ q -> dead_ptr (request e) w
       | Some m => group_model g = Some m \/ exists q, (m, q) ∈ qs /\ q <> [] end) no_throw.
Proof.
  revert g. induction qs as [|[m q] qs IH]; intros g; simpl.
  { apply triple_ret. intros w _. destruct g as [[[? ?] ?]|]; simpl; [by left|].
    split; [done|]. by intros ? ? ? ?%elem_of_nil. }
  assert (Hskip : forall w, (forall e, e ∈ q -> dead_ptr (request e) w) -> forall g',
    match group_model g' with
    | None => g = None /\ forall m q e, (m, q) ∈ qs -> e ∈ q -> dead_ptr (request e) w
    | Some m => group_model g = Some m \/ exists q, (m, q) ∈ qs /\ q <> [] end ->
    match group_model g' with
    | None => g = None /\ forall m' q' e, (m', q') ∈ (m, q) :: qs -> e ∈ q' -> dead_ptr (request e) w
    | Some m' => group_model g = Some m' \/ exists q', (m', q') ∈ (m, q) :: qs /\ q' <> [] end).
  { intros w Hd g'. destruct (group_model g') as [m'|].
    - intros [?|(q' & ? & ?)]; [by left|right]. exists q'. split; [by right|done].
    - intros [-> Hall]. split; [done|]. intros m' q' e [[= -> ->]|Hin]%elem_of_cons He; [by apply Hd|].
      by eapply Hall. }
  destruct q as [|e0 q0].
  { eapply triple_conseq; [apply (IH g)|..|done].
    - intros w Hv m' q' e Hin. eapply Hv. by right.
    - intros g' w. apply Hskip. by intros e ?%elem_of_nil. }
  assert (Hne : e0 :: q0 <> []) by done. revert Hskip Hne. generalize (e0 :: q0). intros q Hskip Hne.
  eapply triple_bind.
  { eapply triple_pre; [|apply (triple_framed _ _ _ (triple_measure q 0 u64_max)
      (fun w => forall m' q' e, (m', q') ∈ qs -> e ∈ q' -> valid_ptr (request e) w))].
    intros w Hv. split; [intros e He; by eapply Hv; [left|]|]. intros m' q' e Hin. apply (Hv m' q'). by right. }
  intros [live oldest]. cbn [fst snd]. destruct (Z.eqb_spec live 0) as [->|Hlive].
  - eapply triple_conseq; [apply (triple_framed _ _ _ (IH g)
      (fun w => forall e, e ∈ q -> dead_ptr (request e) w) no_throw)|..|done].
    + intros w [[_ Hd] Hv]. split; [done|]. by apply Hd.
    + intros g' w [Hg Hd]. by apply Hskip.
  - eapply triple_conseq; [apply (IH (if better_group live oldest m g then Some (live, oldest, m) else g))|..|done].
    + by intros w [].
    + intros g' w. cbv beta. destruct (group_model g') as [m'|].
      * intros [Hm|(q' & ? & ?)]; [|right; exists q'; split; [by right|done]].
        destruct (better_group live oldest m g); [|by left]. simpl in Hm. injection Hm as <-.
        right. exists q. split; [left|done].
      * intros [Hg _]. by destruct (better_group live oldest m g) eqn:Hb; [|subst g; simpl in Hb].
Qed.

Lemma triple_choose epoch s :
  entries_wf s ->
  triple (X := X) (entries_valid (by_model_ s)) (choose epoch s)
    (fun c w => match c.1 with
       | Some (m, i) => exists q, by_model_ s !! m = Some q /\ (i < length q)%nat
       | None => forall e, holds (by_model_ s) e -> dead_ptr (request e) w end) no_throw.
Proof.
  intros Hwf. unfold choose. eapply triple_bind.
  { eapply triple_pre; [|apply (triple_framed _ _ _ (triple_find_starved (max_bypass_ s)
      (slots (hash_list (epoch + 2) (by_model_ s))) u64_max None) (entries_valid (by_model_ s)))].
    intros w Hv. split; [|done]. intros m i e (q & Hq & Hi)%elem_of_slots. apply Hv.
    rewrite elem_of_hash_list in Hq. exists m, q. split; [done|]. by eapply list_elem_of_lookup_2. }
  intros [[m i]|].
  { apply triple_ret. intros w [[?|(m' & i' & e & Hin & [= -> ->])] _]; [done|]. simpl.
    apply elem_of_slots in Hin as (q & Hq & Hi). rewrite elem_of_hash_list in Hq.
    exists q. split; [done|]. by eapply lookup_lt_Some. }
  eapply triple_bind.
  { eapply triple_pre; [|apply (triple_best_group (hash_list (epoch + 3) (by_model_ s)) None)].
    intros w [_ Hv] m q e Hin He. apply Hv. rewrite elem_of_hash_list in Hin. by exists m, q. }
  intros g. apply triple_ret. intros w Hg. destruct g as [[[? ?] m]|]; simpl in *.
  - destruct Hg as [?|(q & Hq & Hne)]; [done|]. rewrite elem_of_hash_list in Hq. exists q.
    split; [done|]. destruct q; [done|simpl; lia].
  - intros e (m & q & Hq & He). destruct Hg as [_ Hall]. eapply Hall; [by apply elem_of_hash_list|done].
Qed.

(** ** Dispatching *)

Lemma triple_drop_dead rest size :
  Z.of_nat (length rest) <= size < two64 ->
  triple (X := X) (fun w => forall e, e ∈ rest -> valid_ptr (request e) w) (drop_dead rest size)
    (fun out w => exists gone, rest = gone ++ out.1 /\
       (forall e, e ∈ gone -> dead_ptr (request e) w) /\
       out.2 = size - Z.of_nat (length gone)) no_throw.
Proof.
  revert size. induction rest as [|e rest IH]; intros size Hsize; simpl.
  { apply triple_ret. intros w _. exists []. split; [done|]. split; [by intros ? ?%elem_of_nil|]. simpl. lia. }
  simpl in Hsize. eapply triple_bind.
  { eapply triple_pre; [|apply (triple_framed _ _ _ (triple_dead_check any_req (request e) _)
      (fun w => forall e', e' ∈ rest -> valid_ptr (request e') w))].
    intros w Hv. split; [by apply Hv; left|]. intros e' He'. apply Hv. by right. }
  intros [|].
  - assert (Hdec : Z.of_nat (length rest) <= dec_size size < two64) by (rewrite dec_size_spec; lia).
    eapply triple_conseq; [apply (triple_framed _ _ _ (IH (dec_size size) Hdec) (dead_ptr (request e)) no_throw)
      |by intros w []| |done].
    intros [rest' n] w [(gone & -> & Hg & Hn) Hd]. simpl in *. exists (e :: gone). split; [done|].
    split; [intros e' [->|?]%elem_of_cons; auto|]. rewrite dec_size_spec in Hn by lia. simpl. lia.
  - apply triple_ret. intros w _. exists []. split; [done|]. split; [by intros ? ?%elem_of_nil|]. simpl. lia.
Qed.

(** The same request, passed over at most once more. *)
Definition same_request (e e' : Entry) : Prop :=
  request e' = request e /\ enqueue_sequence e' = enqueue_sequence e.

Lemma triple_bump q :
  triple (X := X) (fun w => forall e, e ∈ q -> valid_ptr (request e) w) (bump_queue q)
    (fun q' _ => Forall2 same_request q q') no_throw.
Proof.
  induction q as [|e q IH]; simpl; [apply triple_ret; constructor|].
  eapply triple_bind.
  { eapply triple_pre; [|apply (triple_framed _ _ _ (triple_dead_check any_req (request e) _)
      (fun w => forall e', e' ∈ q -> valid_ptr (request e') w))].
    intros w Hv. split; [by apply Hv; left|]. intros e' He'. apply Hv. by right. }
  intros d. eapply triple_bind; [eapply triple_pre; [|exact IH]; by intros w []|].
  intros q'. apply triple_ret. intros w Hq. constructor; [|done]. by destruct d.
Qed.

(** [ms'] has the queues of [ms], entry by entry the same requests. *)
Definition same_queues (ms ms' : gmap string (list Entry)) : Prop :=
  forall m, option_relation (Forall2 same_request) (const False) (const False) (ms !! m) (ms' !! m).

Lemma same_queues_insert ms ms' m q q' :
  same_queues ms ms' -> ms !! m = Some q -> Forall2 same_request q q' ->
  same_queues ms (<[m := q']> ms').
Proof.
  intros Hs Hm Hq m'. destruct (decide (m = m')) as [<-|Hne].
  - by rewrite Hm, lookup_insert_eq.
  - rewrite lookup_insert_ne by done. apply Hs.
Qed.

Lemma same_queues_refl ms : same_queues ms ms.
Proof.
  intros m. destruct (ms !! m) as [q|]; simpl; [|done]. induction q; by constructor.
Qed.

Lemma same_queues_lookup ms ms' m q' :
  same_queues ms ms' -> ms' !! m = Some q' -> exists q, ms !! m = Some q /\ Forall2 same_request q q'.
Proof.
  intros Hs Hm. specialize (Hs m). rewrite Hm in Hs. destruct (ms !! m) as [q|]; [by exists q|done].
Qed.

Lemma triple_bump_models qs ms ms0 :
  same_queues ms0 ms -> (forall m q, (m, q) ∈ qs -> ms0 !! m = Some q) ->
  triple (X := X) (entries_valid ms0) (bump_models qs ms) (fun ms' _ => same_queues ms0 ms') no_throw.
Proof.
  revert ms. induction qs as [|[m q] qs IH]; intros ms Hs Hqs; simpl; [by apply triple_ret|].
  pose proof (Hqs m q ltac:(left)) as Hq.
  eapply triple_bind.
  { eapply triple_pre; [|apply (triple_framed _ _ _ (triple_bump q) (entries_valid ms0))].
    intros w Hv. split; [|done]. intros e He. apply Hv. by exists m, q. }
  intros q'. apply triple_pull. intros Hq'. apply IH; [by eapply same_queues_insert|].
  intros m' q0 Hin. apply Hqs. by right.
Qed.
End choosing.

(** ** Selection *)

Section selection.
Context {X : Type} `{!Shared X} `{HO : !HashOrder}.
Implicit Types (w : World X) (s : t).

Lemma total_fmap ms : total ms = msum Z.of_nat (length <$> ms).
Proof.
  unfold total, msum. rewrite map_to_list_fmap.
  induction (map_to_list ms) as [|[m q] l IH]; [done|].
  cbn [fmap list_fmap sum_by foldr fst snd prod_map] in *. unfold sum_by in IH. by rewrite IH.
Qed.

Lemma same_queues_total ms ms' : same_queues ms ms' -> total ms' = total ms.
Proof.
  intros Hs. rewrite !total_fmap. f_equal. apply map_eq. intros m. rewrite !lookup_fmap.
  specialize (Hs m). destruct (ms !! m) as [q|], (ms' !! m) as [q'|]; simpl in *; try done.
  f_equal. symmetry. by eapply Forall2_length.
Qed.

Lemma same_queues_holds ms ms' e' :
  same_queues ms ms' -> holds ms' e' -> exists e, holds ms e /\ same_request e e'.
Proof.
  intros Hs (m & q' & Hm & [i Hi]%list_elem_of_lookup).
  destruct (same_queues_lookup _ _ _ _ Hs Hm) as (q & Hq & Hall).
  destruct (Forall2_lookup_r _ _ _ _ _ Hall Hi) as (e & He & Hsame).
  exists e. split; [|done]. exists m, q. split; [done|]. by eapply list_elem_of_lookup_2.
Qed.

Lemma same_queues_held ms ms' e :
  same_queues ms ms' -> holds ms e -> exists e', holds ms' e' /\ same_request e e'.
Proof.
  intros Hs (m & q & Hm & [i Hi]%list_elem_of_lookup). pose proof (Hs m) as Hq. rewrite Hm in Hq.
  destruct (ms' !! m) as [q'|] eqn:Hm'; [|done].
  destruct (Forall2_lookup_l _ _ _ _ _ Hq Hi) as (e' & He & Hsame).
  exists e'. split; [|done]. exists m, q'. split; [done|]. by eapply list_elem_of_lookup_2.
Qed.

(** The scheduler after [next] answered [o]. *)
Record dispatched s (o : option RequestPtr) s' w : Prop := {
  di_capacity : capacity_ s' = capacity_ s;
  di_max_bypass : max_bypass_ s' = max_bypass_ s;
  di_sequence : next_sequence_ s' = next_sequence_ s;
  di_closed : closed_ s' = closed_ s;
  di_wf : entries_wf s';
  di_total : total (by_model_ s') + (match o with Some _ => 1 | None => 0 end) <= total (by_model_ s);
  di_from e' : holds (by_model_ s') e' -> exists e, holds (by_model_ s) e /\ same_request e e';
  di_out : match o with
           | Some p => exists e l, holds (by_model_ s) e /\ request e = p /\
               p = Some l /\ req_at any_req l w /\
               forall e0, holds (by_model_ s) e0 ->
                 e0 = e \/ (exists e1, holds (by_model_ s') e1 /\ same_request e0 e1) \/
                 dead_ptr (request e0) w
           | None => forall e0, holds (by_model_ s) e0 -> dead_ptr (request e0) w
           end
}.

Lemma dispatched_shrinks s s1 o s' w : shrinks s s1 w -> dispatched s1 o s' w -> dispatched s o s' w.
Proof.
  intros [? ? ? ? ? ? Hfrom Hkept] [? ? ? ? ? ? Hf Hout].
  split; try congruence; try done; [lia|..].
  - intros e' He'. destruct (Hf e' He') as (e & He & ?). exists e. split; [by apply Hfrom|done].
  - destruct o as [p|].
    + destruct Hout as (e & l & He & Hp & Hl & Hr & Hall). exists e, l. split; [by apply Hfrom|].
      do 3 (split; [done|]). intros e0 He0. destruct (Hkept e0 He0) as [H1|]; [|by right; right].
      by apply Hall.
    + intros e0 He0. destruct (Hkept e0 He0) as [H1|]; [|done]. by apply Hout.
Qed.

Lemma dispatched_none s s' w :
  shrinks s s' w -> (forall e, holds (by_model_ s) e -> dead_ptr (request e) w) -> dispatched s None s' w.
Proof.
  intros [? ? ? ? ? ? Hfrom _] Hd. split; try done; [lia|].
  intros e' He'. exists e'. split; [by apply Hfrom|done].
Qed.

(** Taking [selected] out of its queue. *)
Lemma take_selected s m q i gone selected rest w :
  entries_wf s -> by_model_ s !! m = Some q -> drop i q = gone ++ selected :: rest ->
  (forall e, e ∈ gone -> dead_ptr (request e) w) ->
  let ms := put_queue m (take i q ++ rest) (by_model_ s) in
  let size := (size_ s - Z.of_nat (length gone)) -! 1 in
  entries_wf (set_entries ms size s) /\ total ms + 1 <= total (by_model_ s) /\
  holds (by_model_ s) selected /\ (forall e, holds ms e -> holds (by_model_ s) e) /\
  forall e, holds (by_model_ s) e -> e = selected \/ holds ms e \/ dead_ptr (request e) w.
Proof.
  intros Hwf Hq Hdrop Hgone ms size.
  assert (Hsplit : q = take i q ++ gone ++ selected :: rest) by (by rewrite <- Hdrop, take_drop).
  pose proof (total_put m q (take i q ++ rest) _ Hq) as Ht. fold ms in Ht.
  pose proof (ewf_size s Hwf) as Hsz. pose proof (ewf_range s Hwf). pose proof (total_nonneg ms).
  assert (Hlen : length q = (length (take i q ++ rest) + length gone + 1)%nat).
  { rewrite Hsplit at 1. rewrite !length_app. simpl. lia. }
  assert (Hsize : size = total ms).
  { unfold size. rewrite u64_sub_small; [lia|lia|lia|unfold is_u64; lia]. }
  assert (Hin : forall e, e ∈ take i q ++ rest -> e ∈ q).
  { intros e He. rewrite Hsplit. apply elem_of_app in He as [?|?]; set_solver. }
  split; [split; simpl; [done|lia|]|split; [lia|split; [|split]]].
  - intros m' q0. unfold ms. destruct (decide (m = m')) as [<-|Hne].
    + rewrite put_queue_eq. destruct (decide _); [done|]. by intros [= <-].
    + rewrite put_queue_ne by done. apply (ewf_nonempty s Hwf).
  - exists m, q. split; [done|]. rewrite Hsplit. set_solver.
  - intros e (m' & q0 & Hm' & He). unfold ms in Hm'. destruct (decide (m = m')) as [<-|Hne].
    + rewrite put_queue_eq in Hm'. destruct (decide _); [done|]. injection Hm' as <-.
      exists m, q. auto.
    + rewrite put_queue_ne in Hm' by done. by exists m', q0.
  - intros e (m' & q0 & Hm' & He). destruct (decide (m = m')) as [<-|Hne].
    + assert (q0 = q) as -> by congruence. rewrite Hsplit in He.
      apply elem_of_app in He as [He|He]; [|apply elem_of_app in He as [He|He]].
      * right. left. exists m, (take i q ++ rest). split; [|by apply elem_of_app; left].
        unfold ms. rewrite put_queue_eq. destruct (decide _) as [Hnil|]; [|done].
        apply app_eq_nil in Hnil as [Hnil _]. rewrite Hnil in He. by apply elem_of_nil in He.
      * right. right. by apply Hgone.
      * apply elem_of_cons in He as [->|He]; [by left|]. right. left.
        exists m, (take i q ++ rest). split; [|by apply elem_of_app; right].
        unfold ms. rewrite put_queue_eq. destruct (decide _) as [Hnil|]; [|done].
        apply app_eq_nil in Hnil as [_ Hnil]. rewrite Hnil in He. by apply elem_of_nil in He.
    + right. left. exists m', q0. unfold ms. by rewrite put_queue_ne.
Qed.

(** A step whose result is described by a triple, keeping [R]. *)
Lemma ttriple_step {A C} P (m : M X A) Q (Hm : triple P m Q no_throw) R {HR : Upward R}
    {Hmono : Mono m} {Hnb : NonBlocking m} (k : A -> M X C) Q' :
  (forall a, ttriple (fun w => Q a w /\ R w) (k a) Q') ->
  ttriple (fun w => P w /\ R w) (m ≫= k) Q'.
Proof.
  intros Hk. eapply ttriple_bind; [|exact Hk]. apply ttriple_of; [done|]. by apply triple_framed.
Qed.

(** The end of a round, with the chosen queue. *)
Definition round_end (fuel epoch : nat) (s : t) (oldest : Z) (starvation : bool) (m : string)
    (i : nat) (q : list Entry) : M X (option RequestPtr * t) :=
  out ← drop_dead (drop i q) (size_ s);
  match out with
  | ([], size) =>
      select_locked fuel (epoch + 6) (set_entries (put_queue m (take i q) (by_model_ s)) size s)
  | (selected :: rest, size) =>
      let s := set_entries (put_queue m (take i q ++ rest) (by_model_ s)) (size -! 1) s in
      dead ← is_dead_request (request selected);
      if (dead : bool) then select_locked fuel (epoch + 6) s else
      let s := set_metrics (count_dispatch
        (negb (enqueue_sequence selected =? oldest)) starvation (metrics_ s)) s in
      ms ← bump_models (hash_list (epoch + 5) (by_model_ s)) (by_model_ s);
      mret (Some (request selected), set_entries ms (size_ s) s)
  end.

(** The recursive calls are on fewer entries. *)
Definition select_ok (fuel : nat) : Prop := forall epoch s,
  entries_wf s -> total (by_model_ s) < Z.of_nat fuel ->
  ttriple (entries_valid (by_model_ s)) (select_locked fuel epoch s)
    (fun out w => dispatched s out.1 out.2 w).

Lemma ttriple_round_end fuel epoch s oldest starvation m i q :
  select_ok fuel -> entries_wf s -> total (by_model_ s) <= Z.of_nat fuel ->
  by_model_ s !! m = Some q -> (i < length q)%nat ->
  ttriple (entries_valid (by_model_ s)) (round_end fuel epoch s oldest starvation m i q)
    (fun out w => dispatched s out.1 out.2 w).
Proof.
  intros IH Hwf Hfuel Hq Hi. unfold round_end.
  pose proof (queue_le_total s m q Hwf Hq) as Hle. pose proof (ewf_range s Hwf).
  assert (Hrange : Z.of_nat (length (drop i q)) <= size_ s < two64) by (rewrite length_drop; lia).
  apply (ttriple_pre _ (fun w => (forall e, e ∈ drop i q -> valid_ptr (request e) w) /\
    entries_valid (by_model_ s) w)).
  { intros w Hv. split; [|done]. intros e He. apply Hv. exists m, q. split; [done|].
      rewrite <- (take_drop i q). by apply elem_of_app; right. }
  apply (ttriple_step _ _ _ (triple_drop_dead (drop i q) (size_ s) Hrange)
    (entries_valid (by_model_ s))).
  intros [[|selected rest] size].
  - intros w [(gone & Hdrop & Hgone & Hsize) Hv]. simpl in Hdrop, Hsize. rewrite app_nil_r in Hdrop.
    assert (Hsh : shrinks s (set_entries (put_queue m (take i q) (by_model_ s)) size s) w).
    { apply (shrinks_put s m q); [done|done| |rewrite Hsize, <- Hdrop, length_take, length_drop; lia].
      split; [|split]; [intros e He; rewrite <- (take_drop i q); by apply elem_of_app; left|
        rewrite length_take; lia|].
      intros e He. rewrite <- (take_drop i q) in He. apply elem_of_app in He as [?|He]; [by left|right].
      rewrite Hdrop in He. by apply Hgone. }
    assert (Hlt : total (put_queue m (take i q) (by_model_ s)) < Z.of_nat fuel).
    { rewrite (total_put m q) by done. rewrite length_take. lia. }
    destruct (IH (epoch + 6)%nat _ (sh_wf _ _ _ Hsh) Hlt w (shrinks_valid _ _ _ Hsh Hv))
      as (out & w' & Hrun & Hd). exists out, w'. split; [done|].
    eapply dispatched_shrinks; [|exact Hd]. eapply upward; [|exact Hsh].
    pose proof (select_mono fuel (epoch + 6) (set_entries (put_queue m (take i q) (by_model_ s)) size s) w) as Hm.
    by rewrite Hrun in Hm.
  - apply (ttriple_pre _ (fun w => exists gone, (drop i q = gone ++ selected :: rest /\
      size = size_ s - Z.of_nat (length gone)) /\
      (valid_ptr (request selected) w /\ (entries_valid (by_model_ s) w /\
       forall e, e ∈ gone -> dead_ptr (request e) w)))).
    { intros w [(gone & Hdrop & Hgone & Hsize) Hv]. exists gone. split; [done|].
        split; [|done]. apply Hv. exists m, q. split; [done|].
      rewrite <- (take_drop i q), Hdrop, !elem_of_app. right. right. left. }
    apply ttriple_exists. intros gone. apply ttriple_pull. intros [Hdrop ->].
    set (ms := put_queue m (take i q ++ rest) (by_model_ s)).
    set (s1 := set_entries ms ((size_ s - Z.of_nat (length gone)) -! 1) s).
    apply (ttriple_step _ _ _ (triple_dead_check any_req (request selected) _)
      (fun w => entries_valid (by_model_ s) w /\ forall e, e ∈ gone -> dead_ptr (request e) w)).
    intros d w [Hsel [Hv Hgone]].
    destruct (take_selected s m q i gone selected rest w Hwf Hq Hdrop Hgone)
      as (Hwf1 & Htot & Hholds & Hfrom & Hkept).
    change (total ms + 1 <= total (by_model_ s)) in Htot.
    assert (Hv1 : entries_valid ms w) by (intros e He; by apply Hv, Hfrom).
    destruct d.
    + assert (Hsh : shrinks s s1 w).
      { split; try done; [change (total ms <= total (by_model_ s)); lia|]. intros e He.
        destruct (Hkept e He) as [->|[?|?]]; auto. }
      assert (Hlt : total (by_model_ s1) < Z.of_nat fuel) by (change (total ms < Z.of_nat fuel); lia).
      destruct (IH (epoch + 6)%nat s1 Hwf1 Hlt w Hv1) as (out & w' & Hrun & Hd).
      exists out, w'. split; [done|]. eapply dispatched_shrinks; [|exact Hd].
      eapply upward; [|exact Hsh]. pose proof (select_mono fuel (epoch + 6) s1 w) as Hm.
      by rewrite Hrun in Hm.
    + destruct Hsel as (l & Hl & Hreq).
      assert (Hpre : forall m' q0, (m', q0) ∈ hash_list (epoch + 5) ms -> ms !! m' = Some q0)
        by (intros m' q0; by rewrite elem_of_hash_list).
      destruct (ttriple_of _ _ _ (bumps_nb _ _)
        (triple_bump_models (X := X) (hash_list (epoch + 5) ms) ms ms (same_queues_refl ms) Hpre) w Hv1)
        as (ms' & w' & Hrun & Hsame). cbv zeta. cbn [by_model_ set_metrics set_entries s1] in *.
      unfold mbind, M_bind. rewrite Hrun. eexists _, w'. split; [done|]. cbn [fst snd].
      pose proof (bumps_mono (X := X) (hash_list (epoch + 5) ms) ms w) as Hmono. rewrite Hrun in Hmono.
      split; try done; simpl.
      * split; simpl; [rewrite (same_queues_total _ _ Hsame); apply (ewf_size _ Hwf1)|
          apply (ewf_range _ Hwf1)|].
        intros m' q' Hm'. destruct (same_queues_lookup _ _ _ _ Hsame Hm') as (q0 & Hq0 & Hall).
        intros ->. apply Forall2_nil_inv_r in Hall. by apply (ewf_nonempty _ Hwf1 m' q0).
      * rewrite (same_queues_total _ _ Hsame). lia.
      * intros e' He'. destruct (same_queues_holds _ _ _ Hsame He') as (e & He & ?).
        exists e. split; [by apply Hfrom|done].
      * exists selected, l. do 2 (split; [done|]). split; [done|]. split; [by eapply upward|].
        intros e0 He0. destruct (Hkept e0 He0) as [->|[Hin|Hd]]; [by left|..].
        -- right. left. by eapply same_queues_held.
        -- right. right. by eapply upward.
Qed.

Lemma triple_oldest qs s oldest :
  (forall m q, (m, q) ∈ qs -> by_model_ s !! m = Some q) ->
  triple (X := X) (entries_valid (by_model_ s)) (oldest_front qs oldest) (fun _ _ => True) no_throw.
Proof.
  revert oldest. induction qs as [|[m q] qs IH]; intros oldest Hqs; simpl; [by apply triple_ret|].
  assert (Hqs' : forall m' q', (m', q') ∈ qs -> by_model_ s !! m' = Some q')
    by (intros; apply Hqs; by right).
  destruct q as [|e q]; [by apply IH|].
  eapply triple_bind.
  { eapply triple_pre; [|apply (triple_framed _ _ _ (triple_dead_check any_req (request e) _)
      (entries_valid (by_model_ s)))].
    intros w Hv. split; [|done]. apply Hv. exists m, (e :: q). split; [apply Hqs; left|left]. }
  intros d. eapply triple_pre; [|by apply IH]. by intros w [].
Qed.

Lemma ttriple_select fuel : select_ok fuel.
Proof.
  induction fuel as [|fuel IH]; intros epoch s Hwf Hfuel.
  { pose proof (total_nonneg (by_model_ s)). lia. }
  cbn [select_locked].
  eapply ttriple_bind; [apply ttriple_of; [apply _|]; eapply triple_conseq;
    [apply (triple_framed _ _ _ (triple_prune epoch s Hwf) (entries_valid (by_model_ s)) no_throw)
    |by intros w Hv|done|done]|].
  intros s1. apply (ttriple_know (entries_wf s1 /\ total (by_model_ s1) <= total (by_model_ s))).
  { intros w [Hsh _]. split; [apply Hsh|apply Hsh]. }
  intros [Hwf1 Htot].
  apply (ttriple_pre _ (fun w => True /\ (entries_valid (by_model_ s1) w /\ shrinks s s1 w))).
  { intros w [Hsh Hv]. split; [done|]. split; [by eapply shrinks_valid|done]. }
  destruct (Z.eqb_spec (size_ s1) 0) as [Hzero|Hsize].
  { apply ttriple_ret. intros w (_ & _ & Hsh). eapply dispatched_shrinks; [exact Hsh|].
    apply dispatched_none; [by apply shrinks_refl|]. intros e He. destruct (total_zero (by_model_ s1) e); [|done].
    by rewrite <- (ewf_size s1 Hwf1). }
  apply (ttriple_pre _ (fun w => entries_valid (by_model_ s1) w /\ (entries_valid (by_model_ s1) w /\ shrinks s s1 w))).
  { by intros w (_ & ? & ?). }
  apply (ttriple_step _ _ _ (triple_oldest (hash_list (epoch + 1) (by_model_ s1)) s1 u64_max
    (fun m q => proj1 (elem_of_hash_list (epoch + 1) (by_model_ s1) m q)))
    (fun w => entries_valid (by_model_ s1) w /\ shrinks s s1 w)).
  intros oldest.
  apply (ttriple_pre _ (fun w => entries_valid (by_model_ s1) w /\ (entries_valid (by_model_ s1) w /\ shrinks s s1 w))).
  { by intros w (_ & ? & ?). }
  apply (ttriple_step _ _ _ (triple_choose epoch s1 Hwf1)
    (fun w => entries_valid (by_model_ s1) w /\ shrinks s s1 w)).
  intros [[[m i]|] starvation]; cbn [fst].
  - apply ttriple_know with (C := exists q, by_model_ s1 !! m = Some q /\ (i < length q)%nat).
    { by intros w [? _]. }
    intros (q & Hq & Hi). rewrite Hq.
    apply (ttriple_pre _ (fun w => entries_valid (by_model_ s1) w /\ shrinks s s1 w)); [by intros w []|].
    eapply ttriple_conseq; [apply (ttriple_frame (entries_valid (by_model_ s1)) (shrinks s s1)); [apply _| |
      apply (ttriple_round_end fuel epoch s1 oldest starvation m i q IH Hwf1 ltac:(lia) Hq Hi)]|done|].
    { unfold round_end. apply _. }
    intros [o s'] w [Hd Hsh]. by eapply dispatched_shrinks.
  - apply (ttriple_pre _ (fun w => entries_valid (by_model_ s1) w /\
      ((forall e, holds (by_model_ s1) e -> dead_ptr (request e) w) /\ shrinks s s1 w))).
    { by intros w (? & ? & ?). }
    apply (ttriple_step _ _ _ (triple_prune (epoch + 4) s1 Hwf1)
      (fun w => (forall e, holds (by_model_ s1) e -> dead_ptr (request e) w) /\ shrinks s s1 w)).
    intros s2. apply ttriple_ret. intros w (Hsh2 & Hdead & Hsh). cbn [fst snd].
    eapply dispatched_shrinks; [exact Hsh|]. by apply dispatched_none.
Qed.

(** [next] after its wait: it returns, and what it returns. *)
Lemma ttriple_next epoch s :
  entries_wf s ->
  ttriple (entries_valid (by_model_ s)) (next_locked epoch s)
    (fun out w => dispatched s out.1 out.2 w).
Proof.
  intros Hwf. unfold next_locked.
  eapply ttriple_bind; [apply ttriple_of; [apply _|]; eapply triple_conseq;
    [apply (triple_framed _ _ _ (triple_prune epoch s Hwf) (entries_valid (by_model_ s)) no_throw)
    |by intros w Hv|done|done]|].
  intros s1. apply (ttriple_know (entries_wf s1)). { intros w [Hsh _]. apply Hsh. }
  intros Hwf1.
  apply (ttriple_pre _ (fun w => entries_valid (by_model_ s1) w /\ shrinks s s1 w)).
  { intros w [Hsh Hv]. split; [by eapply shrinks_valid|done]. }
  destruct (Z.eqb_spec (size_ s1) 0) as [Hzero|Hsize].
  { apply ttriple_ret. intros w (_ & Hsh). eapply dispatched_shrinks; [exact Hsh|].
    apply dispatched_none; [by apply shrinks_refl|]. intros e He. destruct (total_zero (by_model_ s1) e); [|done].
    by rewrite <- (ewf_size s1 Hwf1). }
  eapply ttriple_conseq; [apply (ttriple_frame (entries_valid (by_model_ s1)) (shrinks s s1)); [apply _|apply _|
    apply (ttriple_select (S (entry_count s1)) (epoch + 1)%nat s1 Hwf1)]|done|].
  { rewrite <- entry_count_total. lia. }
  intros [o s'] w [Hd Hsh]. by eapply dispatched_shrinks.
Qed.
End selection.

(** ** The scheduler behind its interface *)

Section interface.
Context {X : Type} `{!Shared X} `{HO : !HashOrder} (L : lens X t) (epoch : nat).

#[export] Instance workload_scheduler : IRequestScheduler X := {|
  sched_enqueue := enqueue L;
  sched_next := next L epoch;
  sched_close := close L;
  sched_size := size L;
  sched_capacity := capacity L
|}.

#[global] Instance enqueue_locked_mono l s : Mono (X := X) (enqueue_locked l s).
Proof. unfold enqueue_locked, req_model_id. apply _. Qed.
#[global] Instance enqueue_locked_nb l s : NonBlocking (X := X) (enqueue_locked l s).
Proof. unfold enqueue_locked, req_model_id. apply _. Qed.
#[global] Instance next_locked_mono s : Mono (X := X) (next_locked epoch s).
Proof. unfold next_locked. apply _. Qed.

Definition not_null (o : option RequestPtr) (w : World X) : Prop :=
  forall p, o = Some p -> exists l, p = Some l /\ req_at any_req l w.

#[global] Instance not_null_upward o : Upward (not_null o).
Proof.
  intros w w' Hle H p Hp. destruct (H p Hp) as (l & -> & Hl). exists l. split; [done|]. by eapply upward.
Qed.

(** What is handed out has just been found live. *)
Lemma select_not_null fuel e s :
  triple (X := X) (fun _ => True) (select_locked fuel e s) (fun out => not_null out.1) (fun _ _ => True).
Proof.
  revert e s. induction fuel as [|fuel IH]; intros e s; simpl; [done|].
  assert (Hstep : forall A C (m : M X A) (k : A -> M X C) Q, Mono m ->
    (forall a, triple (fun _ => True) (k a) Q (fun _ _ => True)) ->
    triple (fun _ => True) (m ≫= k) Q (fun _ _ => True)).
  { intros A C m k Q Hm Hk. eapply triple_bind; [by apply (triple_mono (fun _ => True)); apply _|exact Hk]. }
  apply Hstep; [apply _|]. intros s1. destruct (size_ s1 =? 0); [by apply triple_ret|].
  apply Hstep; [apply _|]. intros oldest. apply Hstep; [apply _|]. intros [[[m i]|] st].
  2:{ apply Hstep; [apply _|]. intros s2. by apply triple_ret. }
  destruct (by_model_ s1 !! m) as [q|]; [|by apply triple_ret].
  apply Hstep; [apply _|]. intros [[|sel rest] n]; [apply IH|].
  eapply (triple_bind _ _ (fun d w => d = false -> exists l, request sel = Some l /\ req_at any_req l w)).
  { intros w _. destruct (request sel) as [l|] eqn:Hr; [|done].
    destruct (is_dead_request (Some l) w) as [[d|ex|] w'] eqn:E; try done. intros ->.
    exists l. split; [done|]. by eapply is_dead_valid. }
  intros [|]; [by eapply triple_pre; [|apply IH]|].
  eapply triple_bind.
  { eapply triple_pre; [|eapply triple_conseq; [apply (triple_mono (not_null (Some (request sel)))); apply _|
      done|done|done]]. intros w H p [= <-]. by apply H. }
  intros ms. by apply triple_ret.
Qed.

#[export] Instance workload_laws : SchedulerLaws X.
Proof.
  split; simpl.
  - intros [l|]; simpl; unfold with_lock, release; apply _.
  - intros [l|]; simpl; unfold with_lock, release; apply _.
  - intros l. unfold with_lock. eapply triple_bind.
    { by apply (triple_atomically_stable (req_at any_req l) _ (fun _ => req_at any_req l)); [apply _|]. }
    intros s. eapply (triple_bind _ _ (fun out _ => enqueue_report out.1)).
    + unfold enqueue_locked, enqueue_report. destruct (closed_ s); [by apply triple_ret; auto|].
      destruct (_ <=? _); [by apply triple_ret; auto|].
      eapply triple_bind; [apply triple_read_model|]. intros id. by apply triple_ret; auto.
    + intros out. eapply (triple_bind _ _ (fun _ _ => enqueue_report out.1)).
      * apply triple_atomically_stable; [apply _|]. done.
      * intros []. by apply triple_ret.
  - unfold next, release. apply _.
  - unfold next. eapply triple_bind; [by apply triple_wait_then with (Q := fun _ _ => True); [apply _|]|].
    intros s. eapply (triple_bind _ _ (fun out => not_null out.1)).
    + unfold next_locked. eapply triple_bind; [by apply (triple_mono (fun _ => True)); apply _|].
      intros s1. destruct (size_ s1 =? 0); [by apply triple_ret|]. apply select_not_null.
    + intros out. eapply triple_bind.
      * apply (triple_atomically_stable (not_null out.1) _ (fun _ => not_null out.1)); [apply _|].
        intros w Hw. eapply upward; [apply set_shared_le|exact Hw].
      * intros []. by apply triple_ret.
Qed.
End interface.

(** C16: The workload-aware scheduler loses nothing. For every traversal
    order of its hash map and every schedule of the other threads, [next]
    returns once it holds the mutex; the counter [size_] agrees with the
    queues afterwards; a request it hands out is one it held, not null, and
    every other entry is still queued or its request is dead; it answers
    nothing only if every request it held is dead. *)
Theorem workload_next_safe {X} `{!Shared X} `{HO : !HashOrder} epoch s (w : World X) :
  entries_wf s -> entries_valid (by_model_ s) w ->
  exists o s' w', next_locked epoch s w = (Ret (o, s'), w') /\ dispatched s o s' w'.
Proof.
  intros Hwf Hv. destruct (ttriple_next epoch s Hwf w Hv) as ([o s'] & w' & Hrun & Hd).
  by exists o, s', w'.
Qed.

(** Other threads enqueue and close; they wait while the mutex is held. *)
Inductive workload_act := WorkloadEnqueue (id : string) (p : RequestPtr) | WorkloadClose.

Definition workload_step (a : workload_act) (s : t) : t :=
  if locked_ s then s else
  match a with
  | WorkloadEnqueue id p =>
      if closed_ s || (capacity_ s <=? size_ s) then s else push_entry id p s
  | WorkloadClose => set_closed s
  end.

#[export] Instance workload_shared : Shared t := {| act := workload_act; act_step := workload_step |}.

Definition demo_entries : gmap string (list Entry) :=
  {["m" := [mkEntry (Some 1%positive) 0 0; mkEntry (Some 2%positive) 2 0];
    "n" := [mkEntry (Some 3%positive) 1 3]]}.

Definition demo_scheduler : t :=
  mk 8 3 demo_entries 3 3 false (mkMetrics 0 0) false.

Definition demo_scheduler_world : World t :=
  mkWorld ({[1%positive := demo_queued "a" "m"; 2%positive := demo_queued "b" "m";
             3%positive := demo_queued "c" "n"]} : gmap loc InferenceRequest.t) 0 []
    demo_scheduler [[]; [EnvRequest 3%positive OpCancel]].

Lemma demo_entries_wf : entries_wf demo_scheduler.
Proof.
  split; [reflexivity|reflexivity|]. intros m q. simpl. unfold demo_entries.
  intros [[<- <-]|[_ [<- <-]%lookup_singleton_Some]]%lookup_insert_Some; done.
Qed.

Lemma demo_entries_valid : entries_valid demo_entries demo_scheduler_world.
Proof.
  intros e (m & q & Hq & He). unfold demo_entries in Hq.
  apply lookup_insert_Some in Hq as [[<- <-]|[_ Hq]].
  - repeat (apply elem_of_cons in He as [->|He]; [intros l [= <-]; by eexists|]). by apply elem_of_nil in He.
  - apply lookup_singleton_Some in Hq as [<- <-].
    apply list_elem_of_singleton in He as ->. intros l [= <-]. by eexists.
Qed.

Lemma workload_next_safe_witness :
  exists o s' w', next_locked (HO := gmap_order) 0 demo_scheduler demo_scheduler_world = (Ret (o, s'), w') /\
    dispatched demo_scheduler o s' w'.
Proof.
  exact (workload_next_safe (HO := gmap_order) 0 demo_scheduler demo_scheduler_world
           demo_entries_wf demo_entries_valid).
Defined.

(** ** The routing thread behind a workload-aware scheduler *)

Definition WorkloadRuntime : Type := Runtime.t t unit Synthetic.t 2.

#[export] Instance workload_runtime_shared : Shared WorkloadRuntime := {|
  act := workload_act;
  act_step a x := Runtime.over_scheduler (workload_step a) x
|}.

#[export] Instance workload_runtime_scheduler : IRequestScheduler WorkloadRuntime :=
  workload_scheduler (HO := gmap_order) Runtime.scheduler_of 0.

(** A runtime in service whose scheduler holds one cancelled request. *)
Definition dead_backlog : World WorkloadRuntime :=
  mkWorld ({[1%positive := (try_cancel (demo_queued "a" "m")).2.1;
             2%positive := demo_request "b" "m"]} : gmap loc InferenceRequest.t) 0 []
    (Runtime.mk (mk 8 3 {["m" := [mkEntry (Some 1%positive) 0 0]]} 1 1 false (mkMetrics 0 0) false) tt
       (Runtime.workers_ demo_runtime) (Runtime.worker_index_ demo_runtime)
       (Runtime.registry_ demo_runtime) true true true) [].

(** The state of the runtime after its routing thread has returned, and what
    becomes of a request submitted then. *)
Definition after_routing : option (bool * bool * Status * option RequestState) :=
  match Runtime.routing_loop (HO := gmap_order) 5 dead_backlog with
  | (Ret _, w) =>
      match Runtime.submit (Some 2%positive) w with
      | (Ret st, w') => Some (Runtime.accepting_ (shared w), closed_ (Runtime.scheduler_ (shared w)),
                              st, state_ <$> heap w' !! 2%positive)
      | _ => None
      end
  | _ => None
  end.

