(* ===== verification/WorkloadPolicy.v ===== *)
(** * The policy of the workload-aware scheduler

    While the requests it holds stay live, [next] is a function of the queues:
    this file computes it, states the policy it implements, and bounds how
    often a request can be passed over. *)

From S2P Require Import Prelude Status Requests World Queue Batch Scheduler WorkerProofs.
From S2P Require Import WorkloadScheduler WorkloadProofs.
Import InferenceRequest.
Import WorkloadAwareScheduler.

Definition bump (e : Entry) : Entry :=
  mkEntry (request e) (enqueue_sequence e) (bypass_count e +! 1).

Definition starved (b : Z) (e : Entry) : Prop := b <= bypass_count e.

(** The least sequence number of a queue. *)
Definition oldest_in (q : list Entry) : Z := foldr (fun e o => Z.min (enqueue_sequence e) o) u64_max q.

(** Groups in order of preference: larger first, then older, then by model. *)
Record group_key := mkGroup { g_size : Z; g_oldest : Z; g_model : string }.

Definition key_of (mq : string * list Entry) : group_key :=
  mkGroup (Z.of_nat (length mq.2)) (oldest_in mq.2) mq.1.

Definition group_lt : group_key -> group_key -> bool :=
  lex_z (fun g => - g_size g) (lex_z g_oldest (by_string g_model)).

Section live.
Context {X : Type} `{!Shared X} `{HO : !HashOrder}.
Context (w : World X).

(** The request is live and reading it changes nothing. *)
Definition live_entry (e : Entry) : Prop := is_dead_request (request e) w = (Ret false, w).

Definition all_live (ms : gmap string (list Entry)) : Prop := forall e, holds ms e -> live_entry e.

(** A live request on a quiet system. *)
Lemma live_entry_solo e l r :
  solo w -> request e = Some l -> heap w !! l = Some r -> fresh_req (clock w) r -> live_entry e.
Proof. intros Hw He Hr Hf. unfold live_entry. rewrite He. by eapply is_dead_solo. Qed.

Lemma prune_queue_live q n :
  (forall e, e ∈ q -> live_entry e) -> prune_queue q n w = (Ret (q, n), w).
Proof.
  induction q as [|e q IH]; intros Hq; simpl; [done|]. unfold mbind, M_bind.
  rewrite (Hq e) by left. rewrite IH; [done|]. intros e' He'. apply Hq. by right.
Qed.

Lemma put_queue_id m q ms : ms !! m = Some q -> q <> [] -> put_queue m q ms = ms.
Proof. intros Hm Hq. unfold put_queue. destruct q; [done|]. by rewrite insert_id. Qed.

Lemma prune_models_live qs s :
  (forall m q, (m, q) ∈ qs -> by_model_ s !! m = Some q /\ q <> []) -> all_live (by_model_ s) ->
  prune_models qs s w = (Ret s, w).
Proof.
  intros Hqs Hl. induction qs as [|[m q] qs IH]; simpl; [done|]. unfold mbind, M_bind.
  destruct (Hqs m q) as [Hm Hne]; [left|].
  rewrite prune_queue_live by (intros e He; apply Hl; by exists m, q). simpl.
  rewrite put_queue_id by done. destruct s. simpl in *. apply IH. intros m' q' Hin. apply Hqs. by right.
Qed.

Lemma prune_live epoch s :
  entries_wf s -> all_live (by_model_ s) -> prune_dead_entries_locked epoch s w = (Ret s, w).
Proof.
  intros Hwf Hl. apply prune_models_live; [|done]. intros m q. rewrite elem_of_hash_list. intros Hm.
  split; [done|]. by eapply ewf_nonempty.
Qed.

Lemma oldest_front_live qs o :
  (forall m q e, (m, q) ∈ qs -> e ∈ q -> live_entry e) ->
  exists o', oldest_front qs o w = (Ret o', w).
Proof.
  revert o. induction qs as [|[m [|e q]] qs IH]; intros o Hq; simpl; [by eexists|..].
  - apply IH. intros m' q' e' Hin. apply (Hq m' q'). by right.
  - unfold mbind, M_bind. rewrite (Hq m (e :: q) e) by left. apply IH.
    intros m' q' e' Hin. apply (Hq m' q'). by right.
Qed.

(** The oldest starved entry. *)
Lemma find_starved_live b ss best c :
  (forall m i e, (m, i, e) ∈ ss -> live_entry e) ->
  exists c', find_starved b ss best c w = (Ret c', w) /\
    ((c' = c /\ forall m i e, (m, i, e) ∈ ss -> starved b e -> best <= enqueue_sequence e) \/
     exists m i e, (m, i, e) ∈ ss /\ c' = Some (m, i) /\ starved b e /\ enqueue_sequence e < best /\
       forall m' i' e', (m', i', e') ∈ ss -> starved b e' -> enqueue_sequence e <= enqueue_sequence e').
Proof.
  revert best c. induction ss as [|[[m i] e] ss IH]; intros best c Hl; simpl.
  { exists c. split; [done|]. left. split; [done|]. by intros ? ? ? ?%elem_of_nil. }
  unfold mbind, M_bind. rewrite (Hl m i e) by left. cbv beta iota.
  assert (Hl' : forall m i e, (m, i, e) ∈ ss -> live_entry e) by (intros m' i' e' Hin; apply (Hl m' i'); by right).
  destruct (Z.leb_spec b (bypass_count e)) as [Hs|Hs]; simpl;
    [destruct (Z.ltb_spec (enqueue_sequence e) best) as [Hb|Hb]|].
  - destruct (IH (enqueue_sequence e) (Some (m, i)) Hl') as (c' & Hrun & Hc'). exists c'. split; [done|].
    right. destruct Hc' as [[-> Hall]|(m' & i' & e' & Hin & -> & Hs' & Hlt & Hall)].
    + exists m, i, e. split; [left|]. do 3 (split; [done|]).
      intros m' i' e' [[= -> -> ->]|Hin]%elem_of_cons Hs'; [lia|]. by eapply Hall.
    + exists m', i', e'. split; [by right|]. do 2 (split; [done|]). split; [lia|].
      intros m2 i2 e2 [[= -> -> ->]|Hin2]%elem_of_cons Hs2; [lia|]. by eapply Hall.
  - destruct (IH best c Hl') as (c' & Hrun & Hc'). exists c'. split; [done|].
    destruct Hc' as [[-> Hall]|(m' & i' & e' & Hin & -> & Hs' & Hlt & Hall)]; [left|right].
    + split; [done|]. intros m' i' e' [[= -> -> ->]|Hin]%elem_of_cons Hs'; [done|]. by eapply Hall.
    + exists m', i', e'. split; [by right|]. do 3 (split; [done|]).
      intros m2 i2 e2 [[= -> -> ->]|Hin2]%elem_of_cons Hs2; [lia|]. by eapply Hall.
  - destruct (IH best c Hl') as (c' & Hrun & Hc'). exists c'. split; [done|].
    destruct Hc' as [[-> Hall]|(m' & i' & e' & Hin & -> & Hs' & Hlt & Hall)]; [left|right].
    + split; [done|]. intros m' i' e' [[= -> -> ->]|Hin]%elem_of_cons Hs'; [unfold starved in Hs'; lia|].
      by eapply Hall.
    + exists m', i', e'. split; [by right|]. do 3 (split; [done|]).
      intros m2 i2 e2 [[= -> -> ->]|Hin2]%elem_of_cons Hs2; [unfold starved in Hs2; lia|]. by eapply Hall.
Qed.

Lemma measure_group_live q live oldest :
  (forall e, e ∈ q -> live_entry e) ->
  measure_group q live oldest w =
    (Ret (live + Z.of_nat (length q), foldr (fun e o => Z.min (enqueue_sequence e) o) oldest q), w).
Proof.
  revert live oldest. induction q as [|e q IH]; intros live oldest Hl; simpl.
  { unfold mret, M_ret. do 3 f_equal. lia. }
  unfold mbind, M_bind. rewrite (Hl e) by left.
  rewrite IH by (intros; apply Hl; by right). do 3 f_equal; [lia|].
  clear. revert oldest. induction q as [|e' q IH]; intros oldest; simpl; [lia|]. rewrite IH. lia.
Qed.

Lemma better_group_lt live oldest m bs bo bm :
  better_group live oldest m (Some (bs, bo, bm)) = group_lt (mkGroup live oldest m) (mkGroup bs bo bm).
Proof.
  unfold better_group, group_lt, lex_z, by_string. simpl.
  zcases; try lia; try done; by destruct (str_ltb m bm).
Qed.

(** The first of the groups in the order of preference. *)
Lemma best_group_live qs (g : option group_key) :
  (forall m q e, (m, q) ∈ qs -> e ∈ q -> live_entry e) -> (forall m q, (m, q) ∈ qs -> q <> []) ->
  best_group qs ((fun g => (g_size g, g_oldest g, g_model g)) <$> g) w =
    (Ret ((fun g => (g_size g, g_oldest g, g_model g)) <$> select_min group_lt (map key_of qs) g), w).
Proof.
  revert g. induction qs as [|[m q] qs IH]; intros g Hl Hne; simpl; [done|].
  destruct q as [|e q]; [exfalso; apply (Hne m []); [left|done]|].
  set (q0 := e :: q). unfold mbind, M_bind.
  rewrite (measure_group_live q0) by (intros e' He'; apply (Hl m q0); [left|done]).
  assert (Hpos : (0 + Z.of_nat (length q0) =? 0) = false) by (apply Z.eqb_neq; simpl; lia).
  rewrite Hpos.
  assert (Hg : (if better_group (g_size (key_of (m, q0))) (g_oldest (key_of (m, q0))) m
      ((fun g => (g_size g, g_oldest g, g_model g)) <$> g)
    then Some (g_size (key_of (m, q0)), g_oldest (key_of (m, q0)), m)
    else (fun g => (g_size g, g_oldest g, g_model g)) <$> g)
    = (fun g => (g_size g, g_oldest g, g_model g)) <$>
      match g with None => Some (key_of (m, q0))
      | Some y => if group_lt (key_of (m, q0)) y then Some (key_of (m, q0)) else Some y end).
  { destruct g as [[bs bo bm]|]; [|done]. cbn [fmap option_fmap option_map].
    change (better_group _ _ m _) with
      (better_group (g_size (key_of (m, q0))) (g_oldest (key_of (m, q0))) m (Some (bs, bo, bm))).
    rewrite better_group_lt.
    change (mkGroup (g_size (key_of (m, q0))) (g_oldest (key_of (m, q0))) m) with (key_of (m, q0)).
    by destruct (group_lt (key_of (m, q0)) (mkGroup bs bo bm)). }
  assert (Hl' : forall m q e, (m, q) ∈ qs -> e ∈ q -> live_entry e)
    by (intros m' q' e' Hin; apply (Hl m' q'); by right).
  assert (Hne' : forall m q, (m, q) ∈ qs -> q <> []) by (intros m' q' Hin; apply (Hne m'); by right).
  pose proof (IH (match g with None => Some (key_of (m, q0))
    | Some y => if group_lt (key_of (m, q0)) y then Some (key_of (m, q0)) else Some y end) Hl' Hne') as Hrun. rewrite <- Hg in Hrun. exact Hrun.
Qed.

Lemma bump_queue_live q : (forall e, e ∈ q -> live_entry e) -> bump_queue q w = (Ret (map bump q), w).
Proof.
  induction q as [|e q IH]; intros Hl; simpl; [done|]. unfold mbind, M_bind.
  rewrite (Hl e) by left. rewrite IH by (intros; apply Hl; by right). done.
Qed.

Lemma bump_models_live qs ms ms0 :
  NoDup qs.*1 -> (forall m q, (m, q) ∈ qs -> ms0 !! m = Some q) -> all_live ms0 ->
  exists ms', bump_models qs ms w = (Ret ms', w) /\
    forall m, ms' !! m = if decide (m ∈ qs.*1) then map bump <$> ms0 !! m else ms !! m.
Proof.
  revert ms. induction qs as [|[m q] qs IH]; intros ms Hnd Hqs Hl; simpl.
  { exists ms. split; [done|]. intros m. by destruct (decide (m ∈ ([] : list string))) as [Hin%elem_of_nil|]. }
  apply NoDup_cons in Hnd as [Hm Hnd]. pose proof (Hqs m q ltac:(left)) as Hq.
  unfold mbind, M_bind. rewrite bump_queue_live by (intros e He; apply Hl; by exists m, q).
  destruct (IH (<[m := map bump q]> ms) Hnd) as (ms' & Hrun & Hms'); [|done|].
  { intros m' q' Hin. apply Hqs. by right. }
  exists ms'. split; [done|]. intros m'. rewrite Hms'. cbn [fmap list_fmap fst].
  destruct (decide (m = m')) as [<-|Hne].
  - case_decide as H1; [done|]. case_decide as H2; [by rewrite lookup_insert_eq, Hq|]. destruct H2. left.
  - rewrite lookup_insert_ne by done. case_decide as H1; case_decide as H2; try done.
    + destruct H2. by right.
    + by apply elem_of_cons in H2 as [->|?].
Qed.

Lemma bump_all_live epoch ms :
  all_live ms -> bump_models (hash_list epoch ms) ms w = (Ret (map bump <$> ms), w).
Proof.
  intros Hl. destruct (bump_models_live (hash_list epoch ms) ms ms) as (ms' & Hrun & Hms'); try done.
  { apply NoDup_hash_list. } { intros m q. by rewrite elem_of_hash_list. }
  rewrite Hrun. do 2 f_equal. apply map_eq. intros m. rewrite Hms', lookup_fmap.
  destruct (decide (m ∈ (hash_list epoch ms).*1)) as [|Hno]; [done|].
  destruct (ms !! m) as [q|] eqn:Hq; [|done]. destruct Hno. apply list_elem_of_fmap.
  exists (m, q). split; [done|]. by apply elem_of_hash_list.
Qed.

(** ** The policy *)

(** Entry [e], at index [i] of the queue [q] of model [m], goes first. *)
Definition preferred (s : t) (m : string) (i : nat) (q : list Entry) (e : Entry) (promoted : bool) : Prop :=
  by_model_ s !! m = Some q /\ q !! i = Some e /\
  if promoted
  then starved (max_bypass_ s) e /\
       forall e', holds (by_model_ s) e' -> starved (max_bypass_ s) e' ->
         enqueue_sequence e <= enqueue_sequence e'
  else (forall e', holds (by_model_ s) e' -> ~ starved (max_bypass_ s) e') /\ i = 0%nat /\
       forall m' q', by_model_ s !! m' = Some q' -> group_lt (key_of (m', q')) (key_of (m, q)) = false.

(** The scheduler after it went: out of its queue, the others passed over
    once more. *)
Definition dispatch (s : t) (m : string) (i : nat) (q : list Entry) (reordered promoted : bool) : t :=
  set_entries (map bump <$> put_queue m (take i q ++ drop (S i) q) (by_model_ s)) (size_ s -! 1)
    (set_metrics (count_dispatch reordered promoted (metrics_ s)) s).

(** Sequence numbers below the sentinel of the code's searches. *)
Definition sequences_ok (s : t) : Prop :=
  forall e, holds (by_model_ s) e -> 0 <= enqueue_sequence e < u64_max.

Lemma choose_live epoch s :
  entries_wf s -> all_live (by_model_ s) -> sequences_ok s -> size_ s <> 0 ->
  exists m i q e promoted, choose epoch s w = (Ret (Some (m, i), promoted), w) /\
    preferred s m i q e promoted.
Proof.
  intros Hwf Hl Hseq Hsize. unfold choose, mbind, M_bind.
  assert (Hslots : forall n m i e, (m, i, e) ∈ slots (hash_list n (by_model_ s)) ->
    exists q, by_model_ s !! m = Some q /\ q !! i = Some e).
  { intros n m i e (q & Hq & Hi)%elem_of_slots. rewrite elem_of_hash_list in Hq. by exists q. }
  assert (Hall : forall n e, holds (by_model_ s) e ->
    exists m i, (m, i, e) ∈ slots (hash_list n (by_model_ s))).
  { intros n e (m & q & Hq & [i Hi]%list_elem_of_lookup). exists m, i. apply elem_of_slots.
    exists q. split; [by apply elem_of_hash_list|done]. }
  destruct (find_starved_live (max_bypass_ s) (slots (hash_list (epoch + 2) (by_model_ s))) u64_max None)
    as (c & -> & Hc).
  { intros m i e (q & Hq & Hi)%Hslots. apply Hl. exists m, q. split; [done|]. by eapply list_elem_of_lookup_2. }
  destruct Hc as [[-> Hno]|(m & i & e & Hin & -> & Hs & _ & Hmin)].
  - assert (Hqs : forall m q, (m, q) ∈ hash_list (epoch + 3) (by_model_ s) -> by_model_ s !! m = Some q)
      by (intros m q; by rewrite elem_of_hash_list).
    pose proof (best_group_live (hash_list (epoch + 3) (by_model_ s)) None) as Hg.
    cbn [fmap option_fmap option_map] in Hg. rewrite Hg; clear Hg.
    2:{ intros m q e Hin He. apply Hl. exists m, q. auto. }
    2:{ intros m q Hin. by eapply ewf_nonempty; [|apply Hqs]. }
    assert (Hsw : StrictWeak group_lt) by (unfold group_lt; apply _).
    pose proof (select_min_spec group_lt (map key_of (hash_list (epoch + 3) (by_model_ s)))) as Hsel.
    destruct (select_min group_lt _ None) as [g|].
    + destruct Hsel as [([m q] & -> & Hin)%list_elem_of_fmap Hmin]. pose proof (Hqs m q Hin) as Hq.
      destruct q as [|e q]; [by destruct (ewf_nonempty s Hwf m [])|].
      exists m, 0%nat, (e :: q), e, false. split; [done|]. split; [done|]. split; [done|].
      split; [|split; [done|]].
      * intros e' He' Hs. destruct (Hall (epoch + 2)%nat e' He') as (m' & i' & Hin').
        specialize (Hno m' i' e' Hin' Hs). specialize (Hseq e' He'). lia.
      * intros m' q' Hq'. apply Hmin. apply list_elem_of_fmap. exists (m', q'). split; [done|].
        by apply elem_of_hash_list.
    + exfalso. apply Hsize. rewrite (ewf_size s Hwf). destruct (decide (by_model_ s = ∅)) as [->|Hne]; [apply total_empty|].
      apply map_choose in Hne as (m & q & Hq). apply (elem_of_hash_list (epoch + 3)) in Hq.
      destruct (hash_list (epoch + 3) (by_model_ s)); [by apply elem_of_nil in Hq|done].
  - destruct (Hslots _ _ _ _ Hin) as (q & Hq & Hi). exists m, i, q, e, true. split; [done|].
    do 3 (split; [done|]). intros e' He' Hs'. destruct (Hall (epoch + 2)%nat e' He') as (m' & i' & Hin').
    by apply (Hmin m' i').
Qed.

Lemma put_queue_live s m i q :
  by_model_ s !! m = Some q -> all_live (by_model_ s) ->
  all_live (put_queue m (take i q ++ drop (S i) q) (by_model_ s)).
Proof.
  intros Hq Hl e (m' & q' & Hm' & He). apply Hl. destruct (decide (m = m')) as [<-|Hne].
  - rewrite put_queue_eq in Hm'. destruct (decide _); [done|]. injection Hm' as <-. exists m, q.
    split; [done|]. rewrite <- (take_drop i q). apply elem_of_app in He as [He|He]; apply elem_of_app; [by left|].
    right. replace (S i) with (i + 1)%nat in He by lia. rewrite <- drop_drop in He.
    rewrite <- (take_drop 1 (drop i q)). apply elem_of_app. by right.
  - rewrite put_queue_ne in Hm' by done. by exists m', q'.
Qed.

Lemma select_live fuel epoch s :
  entries_wf s -> all_live (by_model_ s) -> sequences_ok s -> size_ s <> 0 ->
  exists m i q e reordered promoted, preferred s m i q e promoted /\
    select_locked (S fuel) epoch s w = (Ret (Some (request e), dispatch s m i q reordered promoted), w).
Proof.
  intros Hwf Hl Hseq Hsize.
  destruct (choose_live epoch s Hwf Hl Hseq Hsize) as (m & i & q & e & promoted & Hch & Hpref).
  destruct (oldest_front_live (hash_list (epoch + 1) (by_model_ s)) u64_max) as (oldest & Hold).
  { intros m' q' e' Hin He'. apply Hl. exists m', q'. split; [by apply elem_of_hash_list in Hin|done]. }
  pose proof Hpref as (Hq & Hi & _).
  assert (He : live_entry e).
  { apply Hl. exists m, q. split; [done|]. by eapply list_elem_of_lookup_2. }
  exists m, i, q, e, (negb (enqueue_sequence e =? oldest)), promoted. split; [done|].
  cbn [select_locked]. unfold mbind, M_bind. rewrite prune_live by done.
  destruct (Z.eqb_spec (size_ s) 0) as [|_]; [done|]. rewrite Hold, Hch, Hq.
  rewrite (drop_S q e i Hi). cbn [drop_dead]. unfold mbind, M_bind. rewrite He. cbn [mret M_ret].
  unfold mret, M_ret. cbv beta iota zeta. rewrite He. cbv beta iota.
  cbn [by_model_ set_metrics set_entries]. rewrite bump_all_live by (by apply put_queue_live).
  done.
Qed.

Lemma next_live epoch s :
  entries_wf s -> all_live (by_model_ s) -> sequences_ok s -> size_ s <> 0 ->
  exists m i q e reordered promoted, preferred s m i q e promoted /\
    next_locked epoch s w = (Ret (Some (request e), dispatch s m i q reordered promoted), w).
Proof.
  intros Hwf Hl Hseq Hsize. unfold next_locked, mbind, M_bind. rewrite prune_live by done.
  destruct (Z.eqb_spec (size_ s) 0) as [|_]; [done|]. by apply select_live.
Qed.
End live.

(** C17: The policy. While the requests a workload-aware scheduler holds are
    live and no other thread is running, [next] picks, for every traversal
    order of its hash map: the oldest request passed over at least
    [max_bypass] times if there is one, and otherwise the front of the largest
    group, the one with the oldest request among equally large ones, and the
    first by name among those. The request leaves its queue, the others are
    counted as passed over once more, and the promotion counter moves exactly
    when a starved request was picked. *)
Theorem workload_policy {X} `{!Shared X} `{HO : !HashOrder} (w : World X) epoch s :
  entries_wf s -> all_live w (by_model_ s) -> sequences_ok s -> size_ s <> 0 ->
  exists m i q e reordered promoted, preferred s m i q e promoted /\
    next_locked epoch s w = (Ret (Some (request e), dispatch s m i q reordered promoted), w).
Proof. apply next_live. Qed.

(** A quiet system holding the requests of [demo_scheduler]. *)
Definition quiet_scheduler_world : World t :=
  mkWorld (heap demo_scheduler_world) 0 [] demo_scheduler [].

Lemma holds_demo e : holds demo_entries e ->
  e = mkEntry (Some 1%positive) 0 0 \/ e = mkEntry (Some 2%positive) 2 0 \/ e = mkEntry (Some 3%positive) 1 3.
Proof.
  intros (m & q & Hq & He). unfold demo_entries in Hq.
  apply lookup_insert_Some in Hq as [[<- <-]|[_ [<- <-]%lookup_singleton_Some]];
    repeat (apply elem_of_cons in He as [->|He]; [tauto|]); by apply elem_of_nil in He.
Qed.

Lemma workload_policy_witness :
  exists m i q e reordered promoted, preferred demo_scheduler m i q e promoted /\
    next_locked (HO := gmap_order) 0 demo_scheduler quiet_scheduler_world =
      (Ret (Some (request e), dispatch demo_scheduler m i q reordered promoted), quiet_scheduler_world).
Proof.
  apply (workload_policy (HO := gmap_order)).
  - exact demo_entries_wf.
  - intros e [->|[->| ->]]%holds_demo; (eapply live_entry_solo; [done..|]); split; reflexivity.
  - intros e [->|[->| ->]]%holds_demo; cbv; split; congruence.
  - discriminate.
Defined.

(** ** The starvation bound *)

(** All entries, in no particular order. *)
Definition entries (ms : gmap string (list Entry)) : list Entry := concat (map_to_list ms).*2.

Lemma elem_of_entries ms e : e ∈ entries ms <-> holds ms e.
Proof.
  unfold entries. split.
  - intros (q & Hq & He)%list_elem_of_In%in_concat. apply list_elem_of_In, list_elem_of_fmap in Hq as ([m q'] & -> & Hin).
    exists m, q'. split; [by apply elem_of_map_to_list|by apply list_elem_of_In].
  - intros (m & q & Hq & He). apply list_elem_of_In, in_concat. exists q. split; [|by apply list_elem_of_In].
    apply list_elem_of_In, list_elem_of_fmap. exists (m, q). split; [done|]. by apply elem_of_map_to_list.
Qed.

Lemma concat_perm {A} (l l' : list (list A)) : l ≡ₚ l' -> concat l ≡ₚ concat l'.
Proof. intros H. induction H; simpl; [done|by f_equiv| |by etrans]. by rewrite !app_assoc, (Permutation_app_comm y). Qed.

Lemma entries_insert m q ms : ms !! m = None -> entries (<[m := q]> ms) ≡ₚ q ++ entries ms.
Proof.
  intros Hm. unfold entries. change (q ++ concat (map_to_list ms).*2) with (concat ((m, q) :: map_to_list ms).*2).
  apply concat_perm. by rewrite map_to_list_insert.
Qed.

Lemma entries_split m q ms : ms !! m = Some q -> entries ms ≡ₚ q ++ entries (delete m ms).
Proof.
  intros Hm. rewrite <- entries_insert by apply lookup_delete_eq. by rewrite insert_delete_id.
Qed.

Lemma entries_put m q q' ms : ms !! m = Some q -> entries (put_queue m q' ms) ≡ₚ q' ++ entries (delete m ms).
Proof.
  intros Hm. unfold put_queue. destruct q' as [|e q']; [done|].
  rewrite <- entries_insert by apply lookup_delete_eq. by rewrite insert_delete_eq.
Qed.

Lemma entries_take m q i e ms :
  ms !! m = Some q -> q !! i = Some e ->
  entries ms ≡ₚ e :: entries (put_queue m (take i q ++ drop (S i) q) ms).
Proof.
  intros Hm Hi. rewrite (entries_put m q) by done. rewrite (entries_split m q) by done.
  rewrite <- (take_drop_middle q i e Hi) at 1. by rewrite <- !app_assoc, Permutation_middle.
Qed.

Lemma entries_bump ms : entries (map bump <$> ms) ≡ₚ map bump (entries ms).
Proof.
  unfold entries. etrans; [apply concat_perm; by rewrite map_to_list_fmap|].
  induction (map_to_list ms) as [|[m q] l IH]; simpl; [done|]. rewrite map_app. by f_equiv.
Qed.

Lemma entries_push id p s :
  entries (by_model_ (push_entry id p s)) ≡ₚ mkEntry p (next_sequence_ s) 0 :: entries (by_model_ s).
Proof.
  simpl. destruct (by_model_ s !! id) as [q|] eqn:Hq; simpl.
  - rewrite <- insert_delete_eq, entries_insert by apply lookup_delete_eq.
    rewrite (entries_split id q (by_model_ s)) by done. rewrite <- app_assoc. symmetry. apply Permutation_middle.
  - by rewrite entries_insert.
Qed.

Lemma entries_total ms : total ms = Z.of_nat (length (entries ms)).
Proof.
  unfold entries, total, msum. induction (map_to_list ms) as [|[m q] l IH]; [done|].
  cbn [fmap list_fmap concat sum_by foldr fst snd]. rewrite length_app. unfold sum_by in IH. lia.
Qed.

(** How many entries were enqueued before [e]. *)
Definition older (es : list Entry) (e : Entry) : Z :=
  Z.of_nat (length (filter (fun e' => enqueue_sequence e' < enqueue_sequence e) es)).

Lemma older_perm es es' e : es ≡ₚ es' -> older es e = older es' e.
Proof. intros H. unfold older. by rewrite H. Qed.

Lemma older_cons e0 es e :
  older (e0 :: es) e = older es e + (if enqueue_sequence e0 <? enqueue_sequence e then 1 else 0).
Proof. unfold older. rewrite filter_cons. case_decide; zcases; simpl; lia. Qed.

Lemma older_le es e : older es e <= Z.of_nat (length es).
Proof. unfold older. pose proof (length_filter (fun e' => enqueue_sequence e' < enqueue_sequence e) es). lia. Qed.

Lemma older_bump es e : older (map bump es) (bump e) = older es e.
Proof. induction es as [|e0 es IH]; [done|]. simpl map. by rewrite !older_cons, IH. Qed.

(** An entry is not starved yet, or what it has been passed over and what may
    still go before it stay within the bound. *)
Definition within (b cap : Z) (es : list Entry) (e : Entry) : Prop :=
  0 <= bypass_count e /\ (bypass_count e < b \/ bypass_count e + older es e <= b + cap - 2).

Definition fair (b cap : Z) (es : list Entry) : Prop :=
  NoDup (enqueue_sequence <$> es) /\ forall e, e ∈ es -> within b cap es e.

Lemma fair_perm b cap es es' : es ≡ₚ es' -> fair b cap es -> fair b cap es'.
Proof.
  intros H [Hnd Hw]. split; [by rewrite <- H|]. intros e He. unfold within.
  rewrite <- (older_perm es es') by done. apply Hw. by rewrite H.
Qed.

Lemma fair_push b cap es p n :
  1 <= b -> (forall e, e ∈ es -> enqueue_sequence e < n) -> fair b cap es -> fair b cap (mkEntry p n 0 :: es).
Proof.
  intros Hb Hn [Hnd Hw]. split.
  - simpl. apply NoDup_cons. split; [|done]. intros (e & He & Hin)%list_elem_of_fmap.
    specialize (Hn e Hin). lia.
  - intros e [->|He]%elem_of_cons; unfold within; [simpl; lia|]. rewrite older_cons. simpl.
    specialize (Hn e He). zcases; [lia|]. rewrite Z.add_0_r. by apply Hw.
Qed.

Lemma fair_dispatch b cap e0 es :
  b + cap < two64 -> Z.of_nat (length (e0 :: es)) <= cap -> fair b cap (e0 :: es) ->
  (forall e, e ∈ es -> starved b e -> starved b e0 /\ enqueue_sequence e0 <= enqueue_sequence e) ->
  fair b cap (map bump es).
Proof.
  intros Hb Hlen [Hnd Hw] Hpref. apply NoDup_cons in Hnd as [Hnew Hnd]. split.
  { replace (enqueue_sequence <$> map bump es) with (enqueue_sequence <$> es); [done|].
    clear. induction es as [|e es IH]; simpl; [done|]. by f_equal. }
  intros e' (e & -> & He)%list_elem_of_fmap. destruct (Hw e ltac:(by right)) as [Hpos Hin].
  rewrite older_cons in Hin. pose proof (older_le es e). simpl in Hlen.
  assert (Hdiff : enqueue_sequence e0 <> enqueue_sequence e).
  { intros Heq. apply Hnew. rewrite Heq. by apply list_elem_of_fmap_2. }
  assert (0 <= older es e) by (unfold older; lia).
  assert (Hold : older es e < Z.of_nat (length es)).
  { unfold older. apply Nat2Z.inj_lt. apply length_filter_lt with e; [done|lia]. }
  unfold within. rewrite older_bump. unfold bump; cbn [bypass_count].
  rewrite u64_add_small by (destruct Hin; zcases; lia). split; [lia|].
  destruct (Z.lt_ge_cases (bypass_count e) b) as [Hlt|Hge]; [lia|].
  destruct (Hpref e He Hge) as [_ Hle]. revert Hin. zcases; lia.
Qed.

(** ** Runs of the scheduler *)

(** What callers do to the scheduler, each with the mutex held. *)
Inductive sched_op := SchedEnqueue (l : loc) | SchedNext (epoch : nat).

Section runs.
Context {X : Type} `{!Shared X} `{HO : !HashOrder}.

Definition sched_step (o : sched_op) (s : t) : M X t :=
  match o with
  | SchedEnqueue l => out ← enqueue_locked l s; mret out.2
  | SchedNext epoch => out ← next_locked epoch s; mret out.2
  end.

Fixpoint sched_run (os : list sched_op) (s : t) : M X t :=
  match os with [] => mret s | o :: os => s ← sched_step o s; sched_run os s end.

Context (w : World X).
Hypothesis quiet : solo w.

Definition fresh_op (o : sched_op) : Prop :=
  match o with
  | SchedEnqueue l => exists r, heap w !! l = Some r /\ fresh_req (clock w) r
  | SchedNext _ => True
  end.

(** [k] more enqueues are possible before the sequence numbers run out. *)
Record sched_inv (b cap k : Z) (s : t) : Prop := {
  si_bypass : max_bypass_ s = b;
  si_capacity : capacity_ s = cap;
  si_wf : entries_wf s;
  si_size : size_ s <= cap;
  si_live : all_live w (by_model_ s);
  si_seq e : e ∈ entries (by_model_ s) -> 0 <= enqueue_sequence e < next_sequence_ s;
  si_next : 0 <= next_sequence_ s <= u64_max - k;
  si_fair : fair b cap (entries (by_model_ s))
}.

Section bound.
Context (b cap : Z).
Hypothesis (Hb : 1 <= b) (Hcap : 1 <= cap) (Hbc : b + cap < two64).

Lemma sched_inv_weaken k k' s : k' <= k -> sched_inv b cap k s -> sched_inv b cap k' s.
Proof. intros Hk []. split; try done. lia. Qed.

Lemma sched_inv_push k s id l r :
  sched_inv b cap (k + 1) s -> 0 <= k -> size_ s < cap -> heap w !! l = Some r -> fresh_req (clock w) r ->
  sched_inv b cap k (push_entry id (Some l) s).
Proof.
  intros [Hmb Hc Hwf Hs Hl Hseq Hn Hf] Hk Hroom Hr Hfr. pose proof (entries_push id (Some l) s) as Hp.
  pose proof (ewf_size s Hwf) as Hsz. pose proof (total_nonneg (by_model_ s)).
  assert (Hu : u64_max = two64 - 1) by done.
  assert (Hs1 : size_ s +! 1 = size_ s + 1) by (apply u64_add_small; lia).
  assert (Hn1 : next_sequence_ s +! 1 = next_sequence_ s + 1) by (apply u64_add_small; lia).
  split; try done.
  - split.
    + rewrite entries_total, Hp. simpl size_. rewrite Hs1, Hsz, entries_total. simpl length. lia.
    + simpl. lia.
    + intros m q. simpl. intros [[<- <-]|[_ Hq]]%lookup_insert_Some; [by destruct (default [] _)|].
      by eapply ewf_nonempty.
  - simpl. lia.
  - intros e. rewrite <- elem_of_entries, Hp. intros [->|He]%elem_of_cons.
    + by eapply live_entry_solo.
    + apply Hl. by apply elem_of_entries.
  - intros e. rewrite Hp. simpl next_sequence_. rewrite Hn1.
    intros [->|He%Hseq]%elem_of_cons; simpl; lia.
  - simpl. lia.
  - eapply fair_perm; [symmetry; exact Hp|]. apply fair_push; [done| |done]. intros e He%Hseq. lia.
Qed.

Lemma sched_inv_dispatch k s m i q e reordered promoted :
  sched_inv b cap k s -> preferred s m i q e promoted ->
  sched_inv b cap k (dispatch s m i q reordered promoted).
Proof.
  intros [Hmb Hc Hwf Hs Hl Hseq Hn Hf] (Hq & Hi & Hpref).
  pose proof (entries_take m q i e (by_model_ s) Hq Hi) as Hp.
  set (ms := put_queue m (take i q ++ drop (S i) q) (by_model_ s)) in *.
  pose proof (ewf_size s Hwf) as Hsz. rewrite entries_total, Hp in Hsz. simpl length in Hsz.
  pose proof (ewf_range s Hwf) as Hrange.
  assert (Hs1 : size_ s -! 1 = size_ s - 1) by (apply u64_sub_small; unfold is_u64; lia).
  assert (Hsub : forall e', holds ms e' -> holds (by_model_ s) e').
  { intros e' He'. apply elem_of_entries. rewrite Hp. right. by apply elem_of_entries. }
  split; try done.
  - split.
    + rewrite entries_total. simpl. fold ms. rewrite entries_bump, length_map, Hs1. lia.
    + simpl. lia.
    + simpl. fold ms. intros m' q'. rewrite lookup_fmap. intros (q0 & Hq0 & ->)%fmap_Some.
      assert (q0 <> []) by (unfold ms in Hq0; destruct (decide (m = m')) as [<-|Hne];
        [rewrite put_queue_eq in Hq0; by case_decide; simplify_eq|
         rewrite put_queue_ne in Hq0 by done; by eapply ewf_nonempty]).
      by destruct q0.
  - simpl. lia.
  - intros e'. rewrite <- elem_of_entries. simpl. fold ms. rewrite entries_bump.
    intros (e0 & -> & He0)%list_elem_of_fmap. apply (Hl e0), Hsub. by apply elem_of_entries.
  - intros e'. simpl. fold ms. rewrite entries_bump. intros (e0 & -> & He0)%list_elem_of_fmap.
    apply (Hseq e0). rewrite Hp. by right.
  - simpl. fold ms. eapply fair_perm; [symmetry; apply entries_bump|].
    eapply fair_dispatch; [done| |by eapply fair_perm|]; [simpl; lia|].
    intros e' He' Hst. assert (Hh : holds (by_model_ s) e') by (apply Hsub; by apply elem_of_entries).
    rewrite Hmb in Hpref. destruct promoted.
    + destruct Hpref as [? Hmin]. split; [done|]. by apply Hmin.
    + destruct Hpref as [Hno _]. by destruct (Hno e').
Qed.

Lemma sched_step_inv k o s :
  0 <= k -> fresh_op o -> sched_inv b cap (k + 1) s ->
  exists s', sched_step o s w = (Ret s', w) /\ sched_inv b cap k s'.
Proof.
  intros Hk Ho Hs. assert (Hs' : sched_inv b cap k s) by (eapply sched_inv_weaken; [|done]; lia).
  destruct o as [l|epoch]; simpl; unfold mbind, M_bind.
  - destruct Ho as (r & Hr & Hf). unfold enqueue_locked. destruct (closed_ s); [by exists s|].
    rewrite (si_capacity _ _ _ _ Hs). destruct (Z.leb_spec cap (size_ s)); [by exists s|].
    unfold req_model_id, mbind, M_bind. rewrite (inspect_solo _ l r) by done.
    eexists. split; [done|]. by eapply sched_inv_push.
  - destruct (decide (size_ s = 0)) as [Hz|Hz].
    + exists s. split; [|done]. unfold next_locked, mbind, M_bind.
      rewrite prune_live by apply Hs. by rewrite Hz.
    + destruct (next_live w epoch s) as (m & i & q & e & ro & pr & Hpref & ->); try done; try apply Hs.
      { intros e He%elem_of_entries. pose proof (si_seq _ _ _ _ Hs e He). pose proof (si_next _ _ _ _ Hs). lia. }
      eexists. split; [done|]. by eapply sched_inv_dispatch.
Qed.

Lemma sched_run_inv os s :
  Forall fresh_op os -> sched_inv b cap (Z.of_nat (length os)) s ->
  exists s', sched_run os s w = (Ret s', w) /\ sched_inv b cap 0 s'.
Proof.
  intros Hos. revert s. induction Hos as [|o os Ho Hos IH]; intros s Hs; simpl; [by exists s|].
  unfold mbind, M_bind.
  destruct (sched_step_inv (Z.of_nat (length os)) o s) as (s1 & -> & Hs1); try done; try lia.
  { eapply sched_inv_weaken; [|exact Hs]. simpl. lia. }
  by apply IH.
Qed.
End bound.

Lemma sched_inv_new config s k :
  1 <= cfg_capacity config -> cfg_capacity config < two64 -> k <= u64_max -> new config = inr s ->
  sched_inv (cfg_max_bypass config) (cfg_capacity config) k s.
Proof.
  intros Hc Hc' Hk. unfold new. destruct (_ =? _); [done|]. destruct (_ <? _); [done|]. intros [= <-].
  assert (Hno : entries ∅ = []) by (unfold entries; by rewrite map_to_list_empty).
  split; simpl; try done; try lia.
  - intros e He. exfalso. by apply (total_zero ∅ e).
  - rewrite Hno. intros e He. by apply elem_of_nil in He.
  - rewrite Hno. split; [constructor|]. by intros e ?%elem_of_nil.
Qed.
End runs.


(** Three requests for one model keep one for another waiting. *)
Definition sched_demo : list sched_op :=
  [SchedEnqueue 3; SchedEnqueue 1; SchedEnqueue 2; SchedNext 0; SchedEnqueue 1; SchedNext 0]%positive.

