(* ===== verification/WorkloadFifo.v ===== *)
(** * On one model the workload-aware scheduler is the FIFO scheduler

    The two schedulers of the runtime behind their common interface: as long
    as the requests are for one model and live, every sequence of calls is
    answered by both in the same way. *)

From S2P Require Import Prelude Status Requests World Queue Batch Scheduler WorkerProofs.
From S2P Require Import WorkloadScheduler WorkloadProofs WorkloadPolicy.
Import InferenceRequest.
Import WorkloadAwareScheduler.

(** Calls of [IRequestScheduler] and their answers. *)
Inductive sched_call := CallEnqueue (l : loc) | CallNext | CallClose | CallSize.
Inductive sched_answer :=
  | AnsEnqueue (c : ErrorCode)
  | AnsNext (o : option RequestPtr)
  | AnsClose
  | AnsSize (n : Z).

Section serve.
Context {X : Type} `{!Shared X} `{!IRequestScheduler X}.

Definition serve_one (call : sched_call) : M X sched_answer :=
  match call with
  | CallEnqueue l => st ← sched_enqueue (Some l); mret (AnsEnqueue (code st))
  | CallNext => o ← sched_next; mret (AnsNext o)
  | CallClose => _ ← sched_close; mret AnsClose
  | CallSize => n ← sched_size; mret (AnsSize n)
  end.

(** The answers to a sequence of calls; it ends where a call blocks. *)
Fixpoint serve (calls : list sched_call) : M X (list sched_answer) :=
  match calls with
  | [] => mret []
  | call :: calls => a ← serve_one call; rest ← serve calls; mret (a :: rest)
  end.
End serve.

(** ** The simulation *)

Section simulation.
Context `{HO : !HashOrder} (epoch : nat).
Context (h : gmap loc InferenceRequest.t) (c : time_point) (m : string) (b cap : Z).
Hypothesis (Hb : 1 <= b) (Hcap : 1 <= cap) (Hbc : b + cap < two64).

Definition before (e e' : Entry) : Prop :=
  enqueue_sequence e < enqueue_sequence e' /\ bypass_count e' <= bypass_count e.

(** A quiet world with these requests. *)
Definition at_rest {X} `{!Shared X} (w : World X) : Prop := env w = [] /\ heap w = h /\ clock w = c.

Record sim (k : Z) (s : t) (q : BoundedQueue.t RequestPtr) : Prop := {
  sim_capacity : BoundedQueue.capacity_ q = cap;
  sim_closed : closed_ s = BoundedQueue.closed_ q;
  sim_queue : exists es, by_model_ s = put_queue m es ∅ /\
    request <$> es = BoundedQueue.queue_ q /\ StronglySorted before es;
  sim_inv (w : World t) : at_rest w -> sched_inv w b cap k s;
  sim_live p : p ∈ BoundedQueue.queue_ q -> exists l r, p = Some l /\ h !! l = Some r /\ fresh_req c r
}.

Lemma sched_inv_field (w : World t) k s s' :
  by_model_ s' = by_model_ s -> size_ s' = size_ s -> capacity_ s' = capacity_ s ->
  max_bypass_ s' = max_bypass_ s -> next_sequence_ s' = next_sequence_ s ->
  sched_inv w b cap k s -> sched_inv w b cap k s'.
Proof.
  intros H1 H2 H3 H4 H5 [Hmb Hc [Hs Hr Hn] Hsz Hl Hseq Hnx Hf]. split; rewrite ?H1, ?H2, ?H3, ?H4, ?H5; try done.
  split; rewrite ?H1, ?H2; done.
Qed.

Lemma sim_total k s q : sim k s q -> size_ s = Z.of_nat (length (BoundedQueue.queue_ q)).
Proof.
  intros [_ _ (es & Hes & Hq & _) Hinv _].
  assert (Hs : sched_inv (mkWorld h c [] s []) b cap k s) by (by apply Hinv).
  rewrite (ewf_size s (si_wf _ _ _ _ _ Hs)), entries_total, Hes, <- Hq, length_fmap.
  destruct es as [|e es]; unfold entries, put_queue.
  - by rewrite delete_empty, map_to_list_empty.
  - rewrite insert_empty, map_to_list_singleton. simpl. by rewrite app_nil_r.
Qed.

Lemma put_queue_one es m' (q' : list Entry) :
  put_queue m es ∅ !! m' = Some q' -> m' = m /\ q' = es /\ es <> [].
Proof.
  destruct es as [|e es]; simpl; [by rewrite delete_empty, lookup_empty|].
  rewrite insert_empty. by intros [-> <-]%lookup_singleton_Some.
Qed.

Lemma put_queue_twice es es' : put_queue m es' (put_queue m es ∅) = put_queue m es' ∅.
Proof.
  destruct es as [|e es]; simpl; [by rewrite delete_empty|].
  destruct es'; simpl; [by rewrite delete_insert_eq, delete_empty|by rewrite insert_insert_eq].
Qed.

Lemma put_queue_bump es : map bump <$> put_queue m es ∅ = put_queue m (map bump es) ∅.
Proof.
  destruct es as [|e es]; simpl; [by rewrite delete_empty, fmap_empty|]. by rewrite !insert_empty, map_fmap_singleton.
Qed.

(** The oldest request goes first, promoted or not. *)
Lemma preferred_front k s q m' i q' e promoted es :
  sim k s q -> by_model_ s = put_queue m es ∅ -> StronglySorted before es ->
  preferred s m' i q' e promoted -> m' = m /\ q' = es /\ i = 0%nat /\ es !! 0%nat = Some e.
Proof.
  intros Hsim Hes Hord (Hq & Hi & Hpref). rewrite Hes in Hq. apply put_queue_one in Hq as (-> & -> & Hne).
  destruct promoted; [|by destruct Hpref as (_ & -> & _)].
  destruct Hpref as [Hst Hmin]. destruct i as [|i]; [done|exfalso].
  destruct es as [|e0 es]; [done|]. simpl in Hi. apply StronglySorted_inv in Hord as [_ Hall].
  assert (Hin : e ∈ es) by (by eapply list_elem_of_lookup_2). rewrite Forall_forall in Hall.
  destruct (Hall e Hin) as [Hlt Hle]. unfold starved in *.
  assert (Hh : holds (by_model_ s) e0).
  { exists m, (e0 :: es). rewrite Hes. split; [simpl; by rewrite insert_empty, lookup_singleton_eq|left]. }
  specialize (Hmin e0 Hh). lia.
Qed.

Lemma sorted_bump es :
  (forall e, e ∈ es -> 0 <= bypass_count e /\ bypass_count e + 1 < two64) ->
  StronglySorted before es -> StronglySorted before (map bump es).
Proof.
  intros Hw Hs. induction Hs as [|e es Hs IH Hall]; simpl; constructor.
  - apply IH. intros e' He'. apply Hw. by right.
  - rewrite Forall_forall in *. intros e' (e0 & -> & He0)%list_elem_of_fmap.
    destruct (Hall e0 He0) as [Hlt Hle]. destruct (Hw e) as [? ?]; [left|].
    destruct (Hw e0) as [? ?]; [by right|]. split; simpl; [done|]. rewrite !u64_add_small by lia. lia.
Qed.

Lemma sorted_snoc es e : StronglySorted before es -> (forall e', e' ∈ es -> before e' e) ->
  StronglySorted before (es ++ [e]).
Proof.
  intros Hs He. induction Hs as [|e0 es Hs IH Hall]; simpl; [by repeat constructor|]. constructor.
  - apply IH. intros e' He'. apply He. by right.
  - apply Forall_app. split; [done|]. constructor; [|constructor]. apply He. left.
Qed.

(** ** One call on each side *)

Lemma sim_next k s q p rest (w : World t) :
  0 <= k -> sim k s q -> BoundedQueue.queue_ q = p :: rest -> at_rest w ->
  exists s', next_locked epoch s w = (Ret (Some p, s'), w) /\
    sim k s' (BoundedQueue.mk (BoundedQueue.capacity_ q) rest (BoundedQueue.closed_ q)).
Proof.
  intros Hk Hsim Hq Hw. pose proof (sim_total k s q Hsim) as Htot. rewrite Hq in Htot.
  destruct (sim_queue k s q Hsim) as (es & Hes & Hreq & Hord).
  pose proof (sim_inv k s q Hsim w Hw) as Hs.
  destruct (next_live w epoch s) as (m' & i & q' & e & ro & pr & Hpref & Hrun); try apply Hs.
  { intros e He%elem_of_entries. pose proof (si_seq _ _ _ _ _ Hs e He). pose proof (si_next _ _ _ _ _ Hs). lia. }
  { rewrite Htot. simpl. lia. }
  destruct (preferred_front k s q m' i q' e pr es Hsim Hes Hord Hpref) as (-> & -> & -> & He).
  destruct es as [|e0 es]; [done|]. injection He as ->. rewrite Hq in Hreq. injection Hreq as Hp Hrest.
  exists (dispatch s m 0 (e :: es) ro pr). split; [by rewrite Hrun, Hp|]. split; simpl.
  - apply (sim_capacity k s q Hsim).
  - apply (sim_closed k s q Hsim).
  - exists (map bump es). rewrite Hes, put_queue_twice. split; [apply put_queue_bump|].
    split; [rewrite <- Hrest; clear; induction es; simpl; by f_equal|].
    apply sorted_bump; [|by apply StronglySorted_inv in Hord as [? _]].
    intros e1 He1. destruct (proj2 (si_fair _ _ _ _ _ Hs) e1) as [? Hin].
    { apply elem_of_entries. exists m, (e :: es). rewrite Hes. split; [simpl; by rewrite insert_empty, lookup_singleton_eq|by right]. }
    pose proof (older_le (entries (by_model_ s)) e1). assert (0 <= older (entries (by_model_ s)) e1) by (unfold older; lia).
    lia.
  - intros w0 Hw0. eapply sched_inv_dispatch; [done..|by apply (sim_inv k s q Hsim)|exact Hpref].
  - intros p' Hp'. apply (sim_live k s q Hsim). rewrite Hq. by right.
Qed.

Lemma sim_push k s q l r :
  sim (k + 1) s q -> 0 <= k -> h !! l = Some r -> model_id_ r = m -> fresh_req c r ->
  BoundedQueue.full q = false -> sim k (push_entry m (Some l) s) (BoundedQueue.push_back (Some l) q).
Proof.
  intros Hsim Hk Hr Hm Hf Hfull. pose proof (sim_total _ _ _ Hsim) as Htot.
  destruct (sim_queue _ s q Hsim) as (es & Hes & Hreq & Hord). split; simpl.
  - apply (sim_capacity _ s q Hsim).
  - apply (sim_closed _ s q Hsim).
  - exists (es ++ [mkEntry (Some l) (next_sequence_ s) 0]). split; [|split].
    + rewrite Hes. destruct es as [|e es]; simpl.
      * by rewrite delete_empty, lookup_empty.
      * by rewrite insert_empty, lookup_singleton_eq, insert_singleton_eq, insert_empty.
    + by rewrite fmap_app, Hreq.
    + apply sorted_snoc; [done|]. intros e He.
      pose proof (sim_inv _ s q Hsim (mkWorld h c [] s []) ltac:(done)) as Hs.
      assert (Hin : e ∈ entries (by_model_ s)).
      { apply elem_of_entries. exists m, es. rewrite Hes. split; [|done].
        destruct es; [by apply elem_of_nil in He|]. simpl. by rewrite insert_empty, lookup_singleton_eq. }
      split; simpl; [by apply (si_seq _ _ _ _ _ Hs)|]. by destruct (proj2 (si_fair _ _ _ _ _ Hs) e Hin).
  - intros w Hw. destruct Hw as (He & Hh & Hc). eapply sched_inv_push; try done.
    + by apply (sim_inv _ s q Hsim).
    + unfold BoundedQueue.full, BoundedQueue.size in Hfull. rewrite (sim_capacity _ s q Hsim) in Hfull. lia.
    + by rewrite Hh.
    + by rewrite Hc.
  - intros p [Hp|Hp%list_elem_of_singleton]%elem_of_app; [by apply (sim_live _ s q Hsim)|]. subst p. by exists l, r.
Qed.

Lemma sim_field k k' s s' q :
  k' <= k -> by_model_ s' = by_model_ s -> size_ s' = size_ s -> capacity_ s' = capacity_ s ->
  max_bypass_ s' = max_bypass_ s -> next_sequence_ s' = next_sequence_ s -> closed_ s' = closed_ s ->
  sim k s q -> sim k' s' q.
Proof.
  intros Hk H1 H2 H3 H4 H5 H6 [Hc Hcl Hq Hi Hl]. split; [done|by rewrite H6|by rewrite H1| |done].
  intros w Hw. eapply sched_inv_weaken; [exact Hk|]. eapply sched_inv_field; [done..|by apply Hi].
Qed.

Lemma sim_locked k k' s q v : k' <= k -> sim k s q -> sim k' (set_locked v s) q.
Proof. intros Hk. by apply sim_field. Qed.

(** The two schedulers at rest, with [k] calls to come. *)
Definition paired (k : Z) (w1 : World t) (w2 : World Lane) : Prop :=
  at_rest w1 /\ at_rest w2 /\ sim k (shared w1) (lane (shared w2)).

Lemma paired_set k w1 w2 s q :
  at_rest w1 -> at_rest w2 -> sim k s q ->
  paired k (set_shared (set_locked false s) w1) (set_shared (mkLane q) w2).
Proof. intros H1 H2 Hs. split; [done|]. split; [done|]. by eapply sim_locked. Qed.

Definition workload : IRequestScheduler t := workload_scheduler lens_id epoch.
Definition fifo : IRequestScheduler Lane := fifo_scheduler lane_lens.

(** What the mutex adds. *)
Lemma with_lock_run {A} (body : t -> M t (A * t)) a s' (w : World t) :
  at_rest w -> (forall w', at_rest w' -> body (shared w) w' = (Ret (a, s'), w')) ->
  with_lock lens_id body w = (Ret a, set_shared (set_locked false s') w).
Proof.
  intros Hw Hbody. unfold with_lock. erewrite bind_run by (apply atomically_solo, Hw). simpl.
  rewrite (bind_run _ _ (a, s') _ (set_shared (set_locked true (shared w)) w)) by (by apply Hbody).
  unfold release, updating. by erewrite bind_run by (by apply atomically_solo, Hw).
Qed.

Lemma enqueue_agrees k w1 w2 l r :
  0 <= k -> paired (k + 1) w1 w2 -> h !! l = Some r -> model_id_ r = m -> fresh_req c r ->
  exists st1 st2 w1' w2', @sched_enqueue t _ workload (Some l) w1 = (Ret st1, w1') /\
    @sched_enqueue Lane _ fifo (Some l) w2 = (Ret st2, w2') /\ code st1 = code st2 /\ paired k w1' w2'.
Proof.
  intros Hk (Hw1 & Hw2 & Hsim) Hr Hm Hf. set (s := shared w1) in *. set (q := lane (shared w2)) in *.
  set (out := if closed_ s then (Status.error QueueClosed "scheduler is closed", s)
    else if capacity_ s <=? size_ s then (Status.error QueueFull "scheduler is full", s)
    else (Status.success, push_entry m (Some l) s)).
  eexists out.1, _, _, _. split; [|split; [by apply atomically_solo, Hw2|]].
  - apply (with_lock_run _ out.1 out.2 w1 Hw1). intros w' (He & Hh & Hc). unfold enqueue_locked. fold s.
    unfold out. destruct (closed_ s); [done|]. destruct (capacity_ s <=? size_ s); [done|].
    unfold req_model_id. erewrite bind_run by (apply (inspect_solo _ l r); [done|by rewrite Hh]). by rewrite Hm.
  - assert (Hsame : sim k s q) by (by eapply (sim_field (k + 1) k s s); [lia|..]).
    pose proof (sim_total _ _ _ Hsim) as Htot. fold s q in Htot.
    pose proof (sim_inv _ _ _ Hsim w1 Hw1) as Hs. fold s in Hs.
    assert (Hfull : BoundedQueue.full q = (capacity_ s <=? size_ s)).
    { unfold BoundedQueue.full, BoundedQueue.size. fold q in Hsim. rewrite (sim_capacity _ _ _ Hsim).
      by rewrite (si_capacity _ _ _ _ _ Hs), Htot. }
    assert (Hout : code out.1 = code (BoundedQueue.try_push (Some l) q).1 /\
      sim k out.2 (BoundedQueue.try_push (Some l) q).2).
    { unfold BoundedQueue.try_push, out. rewrite <- (sim_closed _ _ _ Hsim). fold s. destruct (closed_ s); [done|].
      rewrite Hfull. destruct (capacity_ s <=? size_ s) eqn:E; [done|]. split; [done|]. by eapply sim_push. }
    split; [apply Hout|]. apply (paired_set k w1 w2 out.2); [done|done|apply Hout].
Qed.

(** Waiting alone: the condition holds or nobody will make it hold. *)
Lemma wait_then_solo {X A} `{!Shared X} cond (f : X -> A * X) (w : World X) :
  env w = [] ->
  wait_then cond f w = if cond (shared w) then (Ret (f (shared w)).1, set_shared (f (shared w)).2 w)
                       else (Blocked, w).
Proof.
  intros Hw. unfold wait_then. rewrite interfere_solo by done. rewrite Hw. simpl.
  destruct w as [h0 c0 g0 x0 e0]. simpl in *. subst e0. destruct (cond x0); simpl; [|done]. by destruct (f x0).
Qed.

(** The FIFO scheduler hands out the head, which is live. *)
Lemma fifo_next_run (w : World Lane) q :
  at_rest w -> lane (shared w) = q ->
  (forall p, p ∈ BoundedQueue.queue_ q -> exists l r, p = Some l /\ h !! l = Some r /\ fresh_req c r) ->
  @sched_next Lane _ fifo w =
    if BoundedQueue.pop_ready q
    then (Ret (BoundedQueue.pop_body q).1, set_shared (mkLane (BoundedQueue.pop_body q).2) w)
    else (Blocked, w).
Proof.
  intros (He & Hh & Hc) Hq Hlive. simpl. unfold FifoScheduler.next.
  generalize (potential (lane_length lane_lens) w). intros fuel. simpl.
  unfold mbind, M_bind, BoundedQueue.wait_pop. rewrite wait_then_solo by done. simpl. rewrite Hq.
  destruct (BoundedQueue.pop_ready q); [|done]. unfold BoundedQueue.pop_body.
  destruct (BoundedQueue.queue_ q) as [|p rest]; simpl; [done|].
  destruct (Hlive p) as (l & r & -> & Hr & Hf); [left|]. rewrite (is_dead_solo l r); [done|done|by simpl; rewrite Hh|].
  simpl. by rewrite Hc.
Qed.

Lemma workload_next_run o s' (w : World t) :
  let locked := set_shared (set_locked true (shared w)) w in
  at_rest w -> next_locked epoch (shared w) locked = (Ret (o, s'), locked) ->
  @sched_next t _ workload w =
    if (0 <? size_ (shared w)) || closed_ (shared w)
    then (Ret o, set_shared (set_locked false s') w) else (Blocked, w).
Proof.
  intros locked Hw Hbody. simpl. unfold next.
  pose proof (wait_then_solo (fun x => (0 <? size_ (view lens_id x)) || closed_ (view lens_id x))
    (acquire lens_id) w ltac:(apply Hw)) as Hwait.
  cbv beta in Hwait. change (view lens_id (shared w)) with (shared w) in Hwait.
  destruct ((0 <? size_ (shared w)) || closed_ (shared w)).
  - rewrite (bind_run _ _ _ _ _ Hwait). simpl. rewrite (bind_run _ _ (o, s') _ locked) by exact Hbody.
    unfold release, updating. by erewrite bind_run by (by apply atomically_solo, Hw).
  - unfold mbind, M_bind. by rewrite Hwait.
Qed.

Lemma next_agrees k w1 w2 :
  0 <= k -> paired k w1 w2 ->
  match @sched_next t _ workload w1, @sched_next Lane _ fifo w2 with
  | (Ret o1, w1'), (Ret o2, w2') => o1 = o2 /\ paired k w1' w2'
  | (Blocked, _), (Blocked, _) => True
  | _, _ => False
  end.
Proof.
  intros Hk (Hw1 & Hw2 & Hsim). rewrite (fifo_next_run w2 (lane (shared w2))) by (done || apply (sim_live _ _ _ Hsim)).
  set (s := shared w1) in *. set (q := lane (shared w2)) in *.
  pose proof (sim_total _ _ _ Hsim) as Htot.
  assert (Hready : BoundedQueue.pop_ready q = (0 <? size_ s) || closed_ s).
  { unfold BoundedQueue.pop_ready, BoundedQueue.empty. rewrite (sim_closed _ _ _ Hsim), Htot. f_equal.
    by destruct (BoundedQueue.queue_ q). }
  assert (Hlock : forall w : World t, at_rest w -> exists s', next_locked epoch s w =
      (Ret ((BoundedQueue.pop_body q).1, s'), w) /\ sim k s' (BoundedQueue.pop_body q).2).
  { intros w Hw. unfold BoundedQueue.pop_body. destruct (BoundedQueue.queue_ q) as [|p rest] eqn:Eq.
    - exists s. split; [|done]. unfold next_locked, mbind, M_bind.
      rewrite prune_live by apply (sim_inv _ _ _ Hsim w Hw). by rewrite Htot.
    - destruct (sim_next k s q p rest w Hk Hsim Eq Hw) as (s' & Hrun & Hs'). by exists s'. }
  destruct (Hlock (set_shared (set_locked true s) w1) Hw1) as (s' & Hrun & Hs').
  rewrite (workload_next_run (BoundedQueue.pop_body q).1 s' w1 Hw1 Hrun).
  fold s. rewrite <- Hready. destruct (BoundedQueue.pop_ready q); [|done]. split; [done|].
  by apply (paired_set k w1 w2 s').
Qed.

(** The calls this is about: requests of the model that are live. *)
Definition plain_call (call : sched_call) : Prop :=
  match call with
  | CallEnqueue l => exists r, h !! l = Some r /\ model_id_ r = m /\ fresh_req c r
  | _ => True
  end.

Lemma call_agrees k w1 w2 call :
  0 <= k -> paired (k + 1) w1 w2 -> plain_call call ->
  match @serve_one t _ workload call w1, @serve_one Lane _ fifo call w2 with
  | (Ret a1, w1'), (Ret a2, w2') => a1 = a2 /\ paired k w1' w2'
  | (Blocked, _), (Blocked, _) => True
  | _, _ => False
  end.
Proof.
  intros Hk Hp Hcall.
  assert (Hp' : paired k w1 w2).
  { destruct Hp as (? & ? & Hsim). split; [done|]. split; [done|]. eapply sim_field, Hsim; done || lia. }
  destruct call as [l| | |].
  - destruct Hcall as (r & Hr & Hm & Hf). unfold serve_one, mbind, M_bind.
    destruct (enqueue_agrees k w1 w2 l r Hk Hp Hr Hm Hf) as (st1 & st2 & w1' & w2' & -> & -> & Hc & Hp2).
    by rewrite Hc.
  - pose proof (next_agrees k w1 w2 Hk Hp') as Hn. unfold serve_one, mbind, M_bind.
    destruct (@sched_next t _ workload w1) as [[o1|e1|] w1'], (@sched_next Lane _ fifo w2) as [[o2|e2|] w2']; try done.
    by destruct Hn as [-> ?].
  - destruct Hp' as (Hw1 & Hw2 & Hsim).
    assert (H1 : @sched_close t _ workload w1 = (Ret tt, set_shared (set_closed (shared w1)) w1)).
    { apply (atomically_solo (fun x => (tt, over lens_id set_closed x))), Hw1. }
    assert (H2 : @sched_close Lane _ fifo w2 =
      (Ret tt, set_shared (mkLane (BoundedQueue.close (lane (shared w2)))) w2)).
    { apply (atomically_solo (fun x => (tt, over lane_lens BoundedQueue.close x))), Hw2. }
    unfold serve_one, mbind, M_bind. rewrite H1, H2. split; [done|]. split; [done|]. split; [done|].
    destruct Hsim as [Hc Hcl Hq Hi Hl]. split; [done|done|done| |done].
    intros w Hw. apply (sched_inv_field w k (shared w1)); [done..|by apply Hi].
  - destruct Hp' as (Hw1 & Hw2 & Hsim).
    assert (H1 : @sched_size t _ workload w1 = (Ret (size_ (shared w1)), w1)) by (apply reading_solo, Hw1).
    assert (H2 : @sched_size Lane _ fifo w2 = (Ret (BoundedQueue.size (lane (shared w2))), w2))
      by (apply (reading_solo (fun x => BoundedQueue.size (view lane_lens x))), Hw2).
    unfold serve_one, mbind, M_bind. rewrite H1, H2, (sim_total _ _ _ Hsim). done.
Qed.

Lemma serve_agrees calls w1 w2 :
  Forall plain_call calls -> paired (Z.of_nat (length calls)) w1 w2 ->
  (@serve t _ workload calls w1).1 = (@serve Lane _ fifo calls w2).1.
Proof.
  intros Hc. revert w1 w2. induction Hc as [|call calls Hcall Hc IH]; intros w1 w2 Hp; [done|].
  assert (Hp' : paired (Z.of_nat (length calls) + 1) w1 w2) by (by rewrite Z.add_1_r, <- Nat2Z.inj_succ).
  pose proof (call_agrees (Z.of_nat (length calls)) w1 w2 call ltac:(lia) Hp' Hcall) as Ha.
  cbn [serve]. unfold mbind, M_bind.
  destruct (@serve_one t _ workload call w1) as [[a1|e1|] w1'], (@serve_one Lane _ fifo call w2) as [[a2|e2|] w2']; try done.
  destruct Ha as [-> Hn]. specialize (IH w1' w2' Hn).
  destruct (@serve t _ workload calls w1') as [[r1|e1|] w1''], (@serve Lane _ fifo calls w2') as [[r2|e2|] w2'']; simpl in *; congruence.
Qed.
End simulation.

(** C19: On one model the two schedulers are the same. Take a new
    workload-aware scheduler and a FIFO scheduler of the same capacity, and any
    sequence of [enqueue], [next], [close] and [size] calls in which the
    enqueued requests are live and for one model. For every traversal order of
    the hash map and every [max_bypass], both give the same answers (the same
    error codes, the same requests in the same order, the same sizes), and if
    one blocks in a call the other blocks in the same call. *)
Theorem one_model_is_fifo `{HO : !HashOrder} epoch config s0 h c g m calls :
  new config = inr s0 -> 1 <= cfg_capacity config -> cfg_max_bypass config + cfg_capacity config < two64 ->
  Forall (plain_call h c m) calls -> Z.of_nat (length calls) <= u64_max ->
  (@serve t _ (workload epoch) calls (mkWorld h c g s0 [])).1 =
  (@serve Lane _ fifo calls (mkWorld h c g (mkLane (BoundedQueue.mk (cfg_capacity config) [] false)) [])).1.
Proof.
  intros Hnew Hc Hbc Hcalls Hlen. pose proof Hnew as Hnew'. unfold new in Hnew'.
  destruct (_ =? _); [done|]. destruct (Z.ltb_spec (cfg_max_bypass config) 1) as [|Hb]; [done|]. injection Hnew' as Hs0.
  apply (serve_agrees epoch h c m (cfg_max_bypass config) (cfg_capacity config) Hb Hc Hbc); [done|].
  split; [done|]. split; [done|]. split; simpl.
  - done.
  - by rewrite <- Hs0.
  - exists []. split; [by rewrite <- Hs0; simpl; rewrite delete_empty|]. split; [done|constructor].
  - intros w (He & _ & _). apply sched_inv_new; [done..|lia|done|done].
  - by intros p ?%elem_of_nil.
Qed.

(** Three requests of one model; the scheduler has two places. *)
Definition fifo_calls : list sched_call :=
  [CallEnqueue 1; CallEnqueue 2; CallEnqueue 3; CallSize; CallNext; CallEnqueue 3; CallClose; CallNext;
   CallEnqueue 1; CallNext; CallNext]%positive.

Definition fifo_heap : gmap loc InferenceRequest.t :=
  {[1%positive := demo_queued "a" "m"; 2%positive := demo_queued "b" "m"; 3%positive := demo_queued "c" "m"]}.

Lemma one_model_is_fifo_witness : exists s0, new (mkConfig 2 1) = inr s0 /\
  (@serve t _ (workload (HO := gmap_order) 0) fifo_calls (mkWorld fifo_heap 0 [] s0 [])).1 =
    Ret [AnsEnqueue ENone; AnsEnqueue ENone; AnsEnqueue QueueFull; AnsSize 2; AnsNext (Some (Some 1%positive));
         AnsEnqueue ENone; AnsClose; AnsNext (Some (Some 2%positive)); AnsEnqueue QueueClosed;
         AnsNext (Some (Some 3%positive)); AnsNext None].
Proof.
  destruct (new (mkConfig 2 1)) as [|s0] eqn:Hnew; [discriminate|]. exists s0. split; [reflexivity|].
  rewrite (one_model_is_fifo (HO := gmap_order) 0 (mkConfig 2 1) s0 fifo_heap 0 [] "m" fifo_calls);
    [vm_compute; reflexivity|done|simpl; lia|reflexivity| |vm_compute; congruence].
  repeat constructor; (eexists; split; [reflexivity|]; split; [reflexivity|]; split; reflexivity).
Defined.
