(* ===== verification/Llama.v ===== *)
(** * The llama.cpp backend

    [include/airuntime/llama/] and [src/llama/]: the backend that runs models
    with llama.cpp. llama.cpp and the file system are not part of the runtime:
    they are the class [LlamaApi], whose operations thread an abstract state
    [G], and every definition here is parametric in it.

    A call may throw; it may also read or write outside an array, or exceed
    the bound of a loop, which are outcomes of their own so that the theorems
    of [LlamaProofs.v] can exclude them. *)

From S2P Require Import Prelude Status Requests World Backends.
Import InferenceRequest.

(** ** Machine integers of the llama interface *)

Definition two32 : Z := 4294967296.
Definition u32 (z : Z) : Z := z mod two32.
Definition i32 (z : Z) : Z := (z + 2147483648) mod two32 - 2147483648.

Lemma i32_small z : - 2147483648 <= z < 2147483648 -> i32 z = z.
Proof. intros H. unfold i32, two32. rewrite Z.mod_small by lia. lia. Qed.

Lemma i32_range z : - 2147483648 <= i32 z < 2147483648.
Proof. unfold i32. pose proof (Z.mod_pos_bound (z + 2147483648) two32 ltac:(done)). unfold two32 in *. lia. Qed.

Lemma u32_small z : 0 <= z < two32 -> u32 z = z.
Proof. intros H. by apply Z.mod_small. Qed.

(** [std::nullopt] is "use the default". *)
Record context_params := mkContextParams {
  cp_n_ctx : Z; cp_n_batch : Z; cp_n_ubatch : Z; cp_n_seq_max : Z;
  cp_n_threads : option Z; cp_n_threads_batch : option Z
}.

(** One slot of a [llama_batch]. *)
Record batch_entry := mkSlot { b_token : Z; b_pos : Z; b_seq : Z; b_logits : bool }.

(** A batch with room for [n_alloc] tokens. *)
Record llama_batch := mkBatch { n_alloc : Z; slots_ : list batch_entry }.

Definition n_tokens (b : llama_batch) : Z := Z.of_nat (length (slots_ b)).

(** The functions of llama.cpp and of [std::filesystem] the backend calls.
    [llama_tokenize] and [llama_token_to_piece] return their [int32_t] and
    what they wrote into the caller's buffer of the given size. *)
Class LlamaApi (G : Type) := {
  llama_model : Type;
  llama_context : Type;
  llama_vocab : Type;
  llama_sampler : Type;
  fs_exists : string -> G -> bool;
  fs_is_regular_file : string -> G -> bool;
  llama_supports_gpu_offload : G -> bool;
  llama_model_load_from_file : string -> Z -> G -> option llama_model * G;
  llama_model_has_decoder : llama_model -> bool;
  llama_model_is_diffusion : llama_model -> bool;
  llama_init_from_model : llama_model -> context_params -> G -> option llama_context * G;
  llama_model_get_vocab : llama_model -> option llama_vocab;
  llama_get_memory : llama_context -> G -> bool;
  llama_memory_clear : llama_context -> G -> G;
  llama_free : llama_context -> G -> G;
  llama_model_free : llama_model -> G -> G;
  llama_tokenize : llama_vocab -> string -> Z -> Z -> Z * list Z;
  llama_token_to_piece : llama_vocab -> Z -> Z -> Z * string;
  llama_vocab_is_eog : llama_vocab -> Z -> bool;
  llama_sampler_chain_init : G -> option llama_sampler * G;
  llama_sampler_chain_add_greedy : llama_sampler -> G -> G;
  llama_sampler_sample : llama_sampler -> llama_context -> Z -> G -> (exn + Z) * G;
  llama_sampler_accept : llama_sampler -> Z -> G -> G;
  llama_decode : llama_context -> llama_batch -> G -> (exn + Z) * G
}.

(** What the backend relies on: the [int32_t] that counts the bytes of a piece
    does not exceed the buffer. *)
Class LlamaLaws (G : Type) `{LlamaApi G} : Prop :=
  piece_fits v tok size : - 2147483648 <= size < 2147483648 ->
    - 2147483648 <= (llama_token_to_piece v tok size).1 <= size.

(** ** Outcomes *)

Inductive result (A : Type) :=
  | Ok (a : A)
  | Thrown (e : exn)
  | OutOfBounds
  | OutOfFuel.
Arguments Ok {A} _.
Arguments Thrown {A} _.
Arguments OutOfBounds {A}.
Arguments OutOfFuel {A}.

Definition E (G A : Type) : Type := G -> result A * G.

#[export] Instance E_ret G : MRet (E G) := fun A a g => (Ok a, g).
#[export] Instance E_bind G : MBind (E G) := fun A B k m g =>
  match m g with
  | (Ok a, g) => k a g
  | (Thrown e, g) => (Thrown e, g)
  | (OutOfBounds, g) => (OutOfBounds, g)
  | (OutOfFuel, g) => (OutOfFuel, g)
  end.

Definition pure_out {G A} (r : result A) : E G A := fun g => (r, g).
Definition call {G A} (f : G -> (exn + A) * G) : E G A := fun g =>
  match f g with (inl e, g) => (Thrown e, g) | (inr a, g) => (Ok a, g) end.
Definition ask {G A} (f : G -> A * G) : E G A := fun g => let '(a, g) := f g in (Ok a, g).
Definition query {G A} (f : G -> A) : E G A := fun g => (Ok (f g), g).
Definition effect {G} (f : G -> G) : E G unit := fun g => (Ok tt, f g).

(** How an outcome other than a value leaves the backend. The last two are
    undefined behaviour and non-termination, which [LlamaProofs.v] excludes. *)
Definition escaped {A} (r : result A) : exn :=
  match r with Thrown e => e | _ => UnknownException end.

(** ** Configuration *)

Record LlamaModelConfig := mkModelConfig {
  gguf_path : string;
  context_tokens_per_sequence : Z;
  cfg_n_batch : Z;
  cfg_n_ubatch : Z;
  n_gpu_layers : option Z;
  n_threads : option Z;
  n_threads_batch : option Z
}.

Module LlamaCppBackendConfig.

Record t := mk { models : gmap string LlamaModelConfig; max_sequences : Z }.

(** [o.has_value() && *o <= 0] *)
Definition nonpositive (o : option Z) : bool := match o with Some z => z <=? 0 | None => false end.

(** The body of the loop of [validate]: the first complaint about a model. *)
Definition check_model (max_seq : Z) (model_id : string) (m : LlamaModelConfig) : option string :=
  if bool_decide (model_id = "") then Some "empty model_id in llama config" else
  if bool_decide (gguf_path m = "") then Some "empty gguf_path in llama config" else
  if context_tokens_per_sequence m =? 0 then Some "context_tokens_per_sequence must be > 0" else
  if cfg_n_batch m =? 0 then Some "n_batch must be > 0" else
  if cfg_n_ubatch m =? 0 then Some "n_ubatch must be > 0" else
  if cfg_n_batch m <? cfg_n_ubatch m then Some "n_ubatch must be <= n_batch" else
  if cfg_n_batch m <? max_seq then Some "n_batch must be >= max_sequences" else
  if nonpositive (n_threads m) then Some "n_threads must be > 0" else
  if nonpositive (n_threads_batch m) then Some "n_threads_batch must be > 0" else
  None.

Fixpoint check_models (max_seq : Z) (ms : list (string * LlamaModelConfig)) : Status :=
  match ms with
  | [] => Status.success
  | (id, m) :: ms =>
      match check_model max_seq id m with
      | Some msg => Status.error InternalError msg
      | None => check_models max_seq ms
      end
  end.

Definition validate `{HashOrder} (epoch : nat) (c : t) : Status :=
  if max_sequences c <? 1 then Status.error InternalError "max_sequences must be >= 1" else
  if bool_decide (models c = ∅) then Status.error InternalError "llama backend config has no models" else
  check_models (max_sequences c) (hash_list epoch (models c)).
End LlamaCppBackendConfig.

Notation LlamaConfig := LlamaCppBackendConfig.t.

Module LlamaCppBackend.
Section backend.
Context {G : Type} `{API : !LlamaApi G}.

Record LoadedModel := mkLoaded {
  model_config : LlamaModelConfig;
  model : llama_model;
  context : llama_context;
  vocab : llama_vocab
}.

(** The state behind [Impl]; [ext_] is the state of llama.cpp and of the
    file system. *)
Record t := mk { config_ : LlamaConfig; loaded_ : gmap string LoadedModel; ext_ : G }.

Definition new `{HashOrder} (epoch : nat) (runtime : option unit) (config : LlamaConfig) (g : G) : exn + t :=
  match runtime with
  | None => inl (StdException "LlamaCppBackend requires LlamaBackendRuntime")
  | Some _ =>
      let status := LlamaCppBackendConfig.validate epoch config in
      if negb (Status.ok status)
      then inl (StdException (if bool_decide (message status = "")
                              then "invalid LlamaCppBackendConfig" else message status))
      else inr (mk config ∅ g)
  end.

(** ** Loading *)

Definition clear_memory_locked (entry : LoadedModel) : E G unit :=
  mem ← query (llama_get_memory (context entry));
  if (mem : bool) then effect (llama_memory_clear (context entry)) else mret tt.

Definition checked_mul_u32 (a b : Z) : option Z :=
  if (a =? 0) || (b =? 0) then Some 0 else
  if (two32 - 1) `div` b <? a then None else Some (u32 (a * b)).

Definition load_failed (msg : string) : E G (Status * option LoadedModel) :=
  mret (Status.error ModelLoadFailed msg, None).

(** From the model file to the entry of [loaded]; what was created is freed
    on the way out of a failure. *)
Definition open_model (mcfg : LlamaModelConfig) (max_seq n_ctx : Z) : E G (Status * option LoadedModel) :=
  offload ← query llama_supports_gpu_offload;
  let layers := match n_gpu_layers mcfg with
                | Some n => n
                | None => if (offload : bool) then -1 else 0
                end in
  model_ptr ← ask (llama_model_load_from_file (gguf_path mcfg) layers);
  match model_ptr with
  | None => load_failed "llama_model_load_from_file failed"
  | Some mdl =>
      if negb (llama_model_has_decoder mdl) || llama_model_is_diffusion mdl then
        _ ← effect (llama_model_free mdl);
        load_failed "unsupported model architecture for M5 text generation"
      else
      let params := mkContextParams n_ctx (cfg_n_batch mcfg) (cfg_n_ubatch mcfg) (u32 max_seq)
                      (n_threads mcfg) (n_threads_batch mcfg) in
      ctx_ptr ← ask (llama_init_from_model mdl params);
      match ctx_ptr with
      | None => _ ← effect (llama_model_free mdl); load_failed "llama_init_from_model failed"
      | Some ctx =>
          match llama_model_get_vocab mdl with
          | None =>
              _ ← effect (llama_free ctx);
              _ ← effect (llama_model_free mdl);
              load_failed "llama_model_get_vocab failed"
          | Some v =>
              let entry := mkLoaded mcfg mdl ctx v in
              _ ← clear_memory_locked entry;
              mret (Status.success, Some entry)
          end
      end
  end.

Definition load_from (mcfg : LlamaModelConfig) (max_seq : Z) : E G (Status * option LoadedModel) :=
  exists_ ← query (fs_exists (gguf_path mcfg));
  regular ← query (fs_is_regular_file (gguf_path mcfg));
  if negb exists_ || negb regular then load_failed "gguf path missing or not a regular file" else
  match checked_mul_u32 (context_tokens_per_sequence mcfg) (u32 max_seq) with
  | None => load_failed "n_ctx overflow"
  | Some n_ctx => open_model mcfg max_seq n_ctx
  end.

Definition load_locked (spec : ModelSpec) (b : t) : (exn + Status) * t :=
  match LlamaCppBackendConfig.models (config_ b) !! spec_model_id spec with
  | None => (inr (Status.error ModelNotFound "model not configured for llama backend"), b)
  | Some mcfg =>
      match loaded_ b !! spec_model_id spec with
      | Some _ => (inr Status.success, b)
      | None =>
          match load_from mcfg (LlamaCppBackendConfig.max_sequences (config_ b)) (ext_ b) with
          | (Ok (status, entry), g) =>
              (inr status,
               mk (config_ b) (match entry with
                               | Some entry => <[spec_model_id spec := entry]> (loaded_ b)
                               | None => loaded_ b
                               end) g)
          | (r, g) => (inl (escaped r), mk (config_ b) (loaded_ b) g)
          end
      end
  end.

Definition load (spec : ModelSpec) (b : t) : (exn + Status) * t := load_locked spec b.

Definition unload (model_id : string) (b : t) : Status * t :=
  match loaded_ b !! model_id with
  | None => (Status.error ModelNotFound "model not loaded", b)
  | Some entry =>
      (Status.success,
       mk (config_ b) (delete model_id (loaded_ b))
          (llama_model_free (model entry) (llama_free (context entry) (ext_ b))))
  end.

Definition supports_gpu_offload (b : t) : bool := llama_supports_gpu_offload (ext_ b).

Definition is_loaded (model_id : string) (b : t) : bool := bool_decide (is_Some (loaded_ b !! model_id)).

(** ** Batches and text *)

Definition batch_clear (b : llama_batch) : llama_batch := mkBatch (n_alloc b) [].

Definition batch_add (b : llama_batch) (token pos seq_id : Z) (logits : bool) : E G llama_batch :=
  if n_tokens b <? n_alloc b
  then mret (mkBatch (n_alloc b) (slots_ b ++ [mkSlot token pos seq_id logits]))
  else pure_out OutOfBounds.

(** A vector of [n] zeros overwritten from the front. *)
Definition filled {A} (zero : A) (n : nat) (written : list A) : list A :=
  take n (written ++ replicate n zero).

Definition tokenize_prompt (v : llama_vocab) (prompt : string) : E G (list Z) :=
  let len := i32 (Z.of_nat (String.length prompt)) in
  let n_prompt := i32 (- i32 (llama_tokenize v prompt len 0).1) in
  if n_prompt <? 0 then pure_out (Thrown (StdException "llama_tokenize size probe failed")) else
  if n_prompt =? 0 then mret [] else
  let out := llama_tokenize v prompt len n_prompt in
  let written := i32 out.1 in
  if written <? 0 then pure_out (Thrown (StdException "llama_tokenize failed")) else
  mret (resize (Z.to_nat written) 0 (filled 0 (Z.to_nat n_prompt) out.2)).

Fixpoint nuls (n : nat) : string := match n with O => "" | S n => String Ascii.zero (nuls n) end.

(** The first [n] bytes of a buffer of [size] bytes. *)
Definition read_buffer (size n : Z) (written : string) : E G string :=
  if n <=? size
  then mret (String.substring 0 (Z.to_nat n)
               (String.substring 0 (Z.to_nat size) (written +:+ nuls (Z.to_nat size))))
  else pure_out OutOfBounds.

Definition token_to_piece (v : llama_vocab) (token : Z) : E G string :=
  let out := llama_token_to_piece v token 256 in
  let n := i32 out.1 in
  if n <? 0 then
    let size := - n in
    let out := llama_token_to_piece v token (i32 size) in
    let n := i32 out.1 in
    if n <? 0 then pure_out (Thrown (StdException "llama_token_to_piece failed"))
    else read_buffer size n out.2
  else read_buffer 256 n out.2.

(** ** Inference *)

Record LiveSeq := mkSeq {
  result_index : nat;
  seq_id : Z;
  prompt_tokens : list Z;
  n_past : Z;
  generated : Z;
  max_output : Z;
  text : string;
  sampler : llama_sampler;
  active : bool;
  logits_batch_index : Z
}.

Definition set_past (n : Z) (s : LiveSeq) : LiveSeq :=
  mkSeq (result_index s) (seq_id s) (prompt_tokens s) n (generated s) (max_output s) (text s)
    (sampler s) (active s) (logits_batch_index s).
Definition set_logits (i : Z) (s : LiveSeq) : LiveSeq :=
  mkSeq (result_index s) (seq_id s) (prompt_tokens s) (n_past s) (generated s) (max_output s) (text s)
    (sampler s) (active s) i.
Definition retire (s : LiveSeq) : LiveSeq :=
  mkSeq (result_index s) (seq_id s) (prompt_tokens s) (n_past s) (generated s) (max_output s) (text s)
    (sampler s) false (logits_batch_index s).
Definition set_text (txt : string) (n : Z) (s : LiveSeq) : LiveSeq :=
  mkSeq (result_index s) (seq_id s) (prompt_tokens s) (n_past s) n (max_output s) txt
    (sampler s) (active s) (logits_batch_index s).

Definition failed (c : ErrorCode) (msg : string) : InferenceResult :=
  InferenceResult.failure (Status.error c msg).

(** The checks and the construction of one [LiveSeq]: a failure, or the
    sequence. *)
Definition open_seq (entry : LoadedModel) (i : nat) (id : Z) (req : InferenceRequest.t)
  : E G (InferenceResult + LiveSeq) := fun g =>
  match tokenize_prompt (vocab entry) (prompt_ req) g with
  | (Thrown (StdException what), g) => (Ok (inl (failed InferenceFailed what)), g)
  | (Ok tokens, g) =>
      let needed := u64 (Z.of_nat (length tokens) + max_output_tokens_ req) in
      if context_tokens_per_sequence (model_config entry) <? needed
      then (Ok (inl (failed ContextLengthExceeded
              "prompt + max_output_tokens exceeds context_tokens_per_sequence")), g)
      else if bool_decide (tokens = [])
      then (Ok (inl (failed InferenceFailed "empty tokenization result")), g)
      else match llama_sampler_chain_init g with
      | (None, g) => (Ok (inl (failed InferenceFailed "sampler init failed")), g)
      | (Some smp, g) =>
          (Ok (inr (mkSeq i id tokens 0 0 (max_output_tokens_ req) "" smp true (-1))),
           llama_sampler_chain_add_greedy smp g)
      end
  | (Thrown e, g) => (Thrown e, g)
  | (OutOfBounds, g) => (OutOfBounds, g)
  | (OutOfFuel, g) => (OutOfFuel, g)
  end.

Fixpoint open_seqs (entry : LoadedModel) (i : nat) (reqs : list InferenceRequest.t)
    (live : list LiveSeq) (results : list InferenceResult)
  : E G (list LiveSeq * list InferenceResult) :=
  match reqs with
  | [] => mret (live, results)
  | req :: reqs =>
      out ← open_seq entry i (i32 (Z.of_nat (length live))) req;
      match out with
      | inl r => open_seqs entry (S i) reqs live (<[i := r]> results)
      | inr seq => open_seqs entry (S i) reqs (live ++ [seq]) results
      end
  end.

(** [fail_live] *)
Definition fail_live (status : Status) (live : list LiveSeq) (results : list InferenceResult)
  : list InferenceResult :=
  foldl (fun results s =>
           if active s then <[result_index s := InferenceResult.failure status]> results else results)
    results live.

(** *** The prefix: all tokens but the last *)

Fixpoint fill_seq (fuel : nat) (cap : Z) (s : LiveSeq) (batch : llama_batch) (more : bool)
  : E G (LiveSeq * llama_batch * bool) :=
  match fuel with
  | O => pure_out OutOfFuel
  | S fuel =>
      if n_past s + 1 <? i32 (Z.of_nat (length (prompt_tokens s))) then
        if cap <=? n_tokens batch then mret (s, batch, true) else
        match prompt_tokens s !! Z.to_nat (n_past s) with
        | None => pure_out OutOfBounds
        | Some tok =>
            batch ← batch_add batch tok (n_past s) (seq_id s) false;
            fill_seq fuel cap (set_past (n_past s + 1) s) batch more
        end
      else mret (s, batch, more)
  end.

Fixpoint fill_all (cap : Z) (live : list LiveSeq) (batch : llama_batch) (more : bool)
  : E G (list LiveSeq * llama_batch * bool) :=
  match live with
  | [] => mret ([], batch, more)
  | s :: live =>
      first ← (if active s
               then fill_seq (S (length (prompt_tokens s))) cap s batch more
               else mret (s, batch, more));
      let '(s, batch, more) := first in
      rest ← fill_all cap live batch more;
      let '(live, batch, more) := rest in
      mret (s :: live, batch, more)
  end.

(** The results if a decode failed, otherwise the sequences. *)
Definition stage : Type := list InferenceResult + list LiveSeq.

Definition decode_or_fail (ctx : llama_context) (batch : llama_batch) (what : string)
    (live : list LiveSeq) (results : list InferenceResult) : E G stage :=
  rc ← call (llama_decode ctx batch);
  mret (if negb ((rc : Z) =? 0)
        then inl (fail_live (Status.error InferenceFailed what) live results)
        else inr live).

Fixpoint prefix_loop (fuel : nat) (ctx : llama_context) (cap : Z) (batch : llama_batch)
    (live : list LiveSeq) (results : list InferenceResult) : E G stage :=
  match fuel with
  | O => pure_out OutOfFuel
  | S fuel =>
      filled ← fill_all cap live (batch_clear batch) false;
      let '(live, batch, more) := filled in
      if n_tokens batch =? 0 then mret (inr live) else
      out ← decode_or_fail ctx batch "llama_decode prefix failed" live results;
      match out with
      | inl results => mret (inl results)
      | inr live => if (more : bool) then prefix_loop fuel ctx cap batch live results else mret (inr live)
      end
  end.

(** *** The bootstrap: the last prompt token of every sequence *)

Fixpoint bootstrap_all (live : list LiveSeq) (batch : llama_batch) : E G (list LiveSeq * llama_batch) :=
  match live with
  | [] => mret ([], batch)
  | s :: live =>
      first ← (if active s then
                 match prompt_tokens s !! (length (prompt_tokens s) - 1)%nat with
                 | None => pure_out OutOfBounds
                 | Some last =>
                     added ← batch_add batch last (n_past s) (seq_id s) true;
                     mret (set_past (n_past s + 1) (set_logits (n_tokens batch) s), added)
                 end
               else mret (s, batch));
      let '(s, batch) := first in
      rest ← bootstrap_all live batch;
      mret (s :: rest.1, rest.2)
  end.

(** *** Generation *)

(** One turn of the loop over the sequences. *)
Definition generate_one (entry : LoadedModel) (s : LiveSeq) (batch : llama_batch)
    (results : list InferenceResult) : E G (LiveSeq * llama_batch * list InferenceResult) :=
  id ← call (llama_sampler_sample (sampler s) (context entry) (logits_batch_index s));
  _ ← effect (llama_sampler_accept (sampler s) id);
  if llama_vocab_is_eog (vocab entry) id then
    mret (retire s, batch,
          <[result_index s := InferenceResult.success (mkOutput (text s) (generated s))]> results)
  else fun g =>
  match token_to_piece (vocab entry) id g with
  | (Thrown (StdException what), g) =>
      (Ok (retire s, batch, <[result_index s := failed InferenceFailed what]> results), g)
  | (Ok piece, g) =>
      let s := set_text (text s +:+ piece) (generated s +! 1) s in
      if max_output s <=? generated s then
        (Ok (retire s, batch,
             <[result_index s := InferenceResult.success (mkOutput (text s) (generated s))]> results), g)
      else
        (added ← batch_add batch id (n_past s) (seq_id s) true;
         mret (set_past (n_past s + 1) (set_logits (n_tokens batch) s), added, results)) g
  | (Thrown e, g) => (Thrown e, g)
  | (OutOfBounds, g) => (OutOfBounds, g)
  | (OutOfFuel, g) => (OutOfFuel, g)
  end.

Fixpoint generate_all (entry : LoadedModel) (live : list LiveSeq) (batch : llama_batch)
    (results : list InferenceResult) : E G (list LiveSeq * llama_batch * list InferenceResult) :=
  match live with
  | [] => mret ([], batch, results)
  | s :: live =>
      first ← (if active s then generate_one entry s batch results else mret (s, batch, results));
      let '(s, batch, results) := first in
      rest ← generate_all entry live batch results;
      let '(live, batch, results) := rest in
      mret (s :: live, batch, results)
  end.

(** What the loop leaves active, which is nothing, is completed as it is. *)
Definition finish_live (live : list LiveSeq) (results : list InferenceResult) : list InferenceResult :=
  foldl (fun results s =>
           if active s
           then <[result_index s := InferenceResult.success (mkOutput (text s) (generated s))]> results
           else results) results live.

Fixpoint generate_loop (fuel : nat) (entry : LoadedModel) (batch : llama_batch)
    (live : list LiveSeq) (results : list InferenceResult) : E G (list InferenceResult) :=
  match fuel with
  | O => pure_out OutOfFuel
  | S fuel =>
      round ← generate_all entry live (batch_clear batch) results;
      let '(live, batch, results) := round in
      if negb (existsb active live) then mret (finish_live live results) else
      out ← decode_or_fail (context entry) batch "llama_decode generation failed" live results;
      match out with
      | inl results => mret results
      | inr live => generate_loop fuel entry batch live results
      end
  end.

(** *** The whole *)

Definition prefix_fuel (live : list LiveSeq) : nat := S (sum_list (map (fun s => length (prompt_tokens s)) live)).
Definition generate_fuel (live : list LiveSeq) : nat :=
  S (Z.to_nat (foldr (fun s m => Z.max (max_output s) m) 0 live)).

(** From the live sequences to the results. *)
Definition run_live (entry : LoadedModel) (live : list LiveSeq)
    (results : list InferenceResult) : E G (list InferenceResult) :=
  let cap := i32 (cfg_n_batch (model_config entry)) in
  let batch := mkBatch cap [] in
  prefixed ← prefix_loop (prefix_fuel live) (context entry) cap batch live results;
  match prefixed with
  | inl results => mret results
  | inr live =>
      booted ← bootstrap_all live (batch_clear batch);
      let '(live, batch) := booted in
      if n_tokens batch =? 0 then mret results else
      out ← decode_or_fail (context entry) batch "llama_decode bootstrap failed" live results;
      match out with
      | inl results => mret results
      | inr live => generate_loop (generate_fuel live) entry batch live results
      end
  end.

(** After the checks: the memory is cleared before and, whatever happens,
    after. *)
Definition infer_loaded (entry : LoadedModel) (reqs : list InferenceRequest.t)
    (results : list InferenceResult) : E G (list InferenceResult) := fun g =>
  match (_ ← clear_memory_locked entry;
         opened ← open_seqs entry 0 reqs [] results;
         let '(live, results) := opened in
         match live with
         | [] => mret results
         | _ => run_live entry live results
         end) g with
  | (out, g) => (out, (clear_memory_locked entry g).2)
  end.

Definition fail_all (reqs : batch_view) (c : ErrorCode) (msg : string) : list InferenceResult :=
  map (fun _ => failed c msg) reqs.

(** The initial results: a failure for a null pointer, [InferenceResult{}]
    otherwise. *)
Definition initial_results (reqs : batch_view) : list InferenceResult :=
  map (fun r => match r with
                | None => failed InternalError "null request in batch"
                | Some _ => mkResult Status.success None
                end) reqs.

(** The requests of a batch without null pointers. *)
Fixpoint all_present (reqs : batch_view) : option (list InferenceRequest.t) :=
  match reqs with
  | [] => Some []
  | None :: _ => None
  | Some r :: reqs => cons r <$> all_present reqs
  end.

Definition infer_batch_locked (reqs : batch_view) (b : t) : E G (list InferenceResult) :=
  match all_present reqs with
  | None => mret (initial_results reqs)
  | Some [] => mret []
  | Some (first :: rest) =>
      if negb (forallb (fun r => bool_decide (model_id_ r = model_id_ first)) rest)
      then mret (fail_all reqs InternalError "incompatible batch member") else
      if LlamaCppBackendConfig.max_sequences (config_ b) <? Z.of_nat (length reqs)
      then mret (fail_all reqs InternalError "batch exceeds max_sequences") else
      match loaded_ b !! model_id_ first with
      | None => mret (fail_all reqs InferenceFailed "model is not loaded")
      | Some entry =>
          infer_loaded entry (first :: rest) (initial_results reqs)
      end
  end.

(** [infer_batch] turns every exception into failures. *)
Definition infer_batch (reqs : batch_view) (b : t) : (exn + list InferenceResult) * t :=
  let '(out, g) := infer_batch_locked reqs b (ext_ b) in
  (match out with
   | Ok rs => inr rs
   | Thrown (StdException what) => inr (fail_all reqs InferenceFailed what)
   | Thrown UnknownException => inr (fail_all reqs InferenceFailed "unknown llama backend exception")
   | r => inl (escaped r)
   end, mk (config_ b) (loaded_ b) g).

Definition infer (r : InferenceRequest.t) (b : t) : (exn + InferenceResult) * t :=
  let '(out, b) := infer_batch [Some r] b in
  (match out with
   | inr [x] => inr x
   | inr _ => inr (failed InternalError "infer_batch cardinality error")
   | inl e => inl e
   end, b).

End backend.
Arguments t G {API}.
End LlamaCppBackend.
