(* ===== verification/LlamaFeed.v ===== *)
(** * What the llama.cpp backend feeds to the model

    A [Traced] instance of the llama.cpp interface records the batches decoded
    and the tokens sampled. [replay] is the specification of such a record:
    every sequence is fed its prompt and then the tokens sampled for it, at
    consecutive positions, logits are requested from the last prompt token on
    and read only where they were requested, and batches and positions stay
    within their bounds. The backend produces only records that [replay]
    accepts, returns a settled result for every request, and never leaves an
    array or loops for ever. *)

From S2P Require Import Prelude Status Requests World Backends Llama LlamaProofs.
Import InferenceRequest.
Import LlamaCppBackend.

(** ** Records of calls *)

Inductive event := Decoded (slots : list batch_entry) | Sampled (index token : Z).

Class Traced (G : Type) `{LlamaApi G} := {
  trace : G -> list event;
  trace_decode c b g : trace (llama_decode c b g).2 = trace g ++ [Decoded (slots_ b)];
  trace_sample s c i g :
    trace (llama_sampler_sample s c i g).2 =
      trace g ++ match (llama_sampler_sample s c i g).1 with inr tok => [Sampled i tok] | inl _ => [] end;
  trace_clear c g : trace (llama_memory_clear c g) = trace g;
  trace_init g : trace (llama_sampler_chain_init g).2 = trace g;
  trace_greedy s g : trace (llama_sampler_chain_add_greedy s g) = trace g;
  trace_accept s tok g : trace (llama_sampler_accept s tok g) = trace g
}.

(** ** The specification of a record *)

(** What every sequence has been fed, the slots of the last batch, and the
    token sampled for a sequence since then. *)
Record feed := mkFeed { hist : gmap Z (list Z); last : list batch_entry; fresh : gmap Z Z }.

Definition hist_of (h : gmap Z (list Z)) (j : Z) : list Z := default [] (h !! j).

Section spec.
Context (ps : list (list Z)) (n_batch ctx : Z).

Definition prompt_of (j : Z) : list Z := default [] (ps !! Z.to_nat j).

(** The token a sequence is due: the next of its prompt, then what was sampled. *)
Definition due (fr : gmap Z Z) (h : gmap Z (list Z)) (j : Z) : option Z :=
  if (length (hist_of h j) <? length (prompt_of j))%nat
  then prompt_of j !! length (hist_of h j) else fr !! j.

Definition slot_ok (fr : gmap Z Z) (h : gmap Z (list Z)) (e : batch_entry) : bool :=
  let j := b_seq e in
  (0 <=? j) && (j <? Z.of_nat (length ps)) &&
  (b_pos e =? Z.of_nat (length (hist_of h j))) && (b_pos e <? ctx) &&
  bool_decide (due fr h j = Some (b_token e)) &&
  eqb (b_logits e) (length (prompt_of j) <=? S (length (hist_of h j)))%nat.

Definition feed_slot (fr : gmap Z Z) (h : gmap Z (list Z)) (e : batch_entry) : option (gmap Z (list Z)) :=
  if slot_ok fr h e then Some (<[b_seq e := hist_of h (b_seq e) ++ [b_token e]]> h) else None.

Fixpoint feed_slots (fr : gmap Z Z) (h : gmap Z (list Z)) (es : list batch_entry)
  : option (gmap Z (list Z)) :=
  match es with
  | [] => Some h
  | e :: es => match feed_slot fr h e with Some h => feed_slots fr h es | None => None end
  end.

Definition replay_event (st : feed) (ev : event) : option feed :=
  match ev with
  | Decoded es =>
      if Z.of_nat (length es) <=? n_batch
      then match feed_slots (fresh st) (hist st) es with
           | Some h => Some (mkFeed h es ∅)
           | None => None
           end
      else None
  | Sampled i tok =>
      match last st !! Z.to_nat i with
      | Some e =>
          if (0 <=? i) && b_logits e && bool_decide (fresh st !! b_seq e = None)
          then Some (mkFeed (hist st) (last st) (<[b_seq e := tok]> (fresh st))) else None
      | None => None
      end
  end.

Fixpoint replay (st : feed) (evs : list event) : option feed :=
  match evs with
  | [] => Some st
  | ev :: evs => match replay_event st ev with Some st => replay st evs | None => None end
  end.

Definition start_feed : feed := mkFeed ∅ [] ∅.

(** [replay] accepts the record. *)
Definition accepted (evs : list event) : Prop := is_Some (replay start_feed evs).

Lemma replay_app st evs evs' :
  replay st (evs ++ evs') = match replay st evs with Some st => replay st evs' | None => None end.
Proof. revert st. induction evs as [|ev evs IH]; intros st; simpl; [done|]. by destruct (replay_event st ev). Qed.

Lemma feed_slots_app fr h es es' :
  feed_slots fr h (es ++ es') = match feed_slots fr h es with Some h => feed_slots fr h es' | None => None end.
Proof. revert h. induction es as [|e es IH]; intros h; simpl; [done|]. by destruct (feed_slot fr h e). Qed.

Lemma slot_ok_mono fr fr' h e : fr ⊆ fr' -> slot_ok fr h e = true -> slot_ok fr' h e = true.
Proof.
  intros Hsub. unfold slot_ok. rewrite !andb_true_iff, !bool_decide_eq_true. intros [[H1 H2] H3].
  split; [split; [done|]|done]. unfold due in *. destruct (_ <? _)%nat; [done|].
  by eapply lookup_weaken.
Qed.

(** More sampled tokens do not disturb what has been fed. *)
Lemma feed_slots_mono fr fr' h es h' :
  fr ⊆ fr' -> feed_slots fr h es = Some h' -> feed_slots fr' h es = Some h'.
Proof.
  intros Hsub. revert h. induction es as [|e es IH]; intros h; simpl; [done|].
  unfold feed_slot. destruct (slot_ok fr h e) eqn:E; [|done]. rewrite (slot_ok_mono fr fr') by done. apply IH.
Qed.

Lemma hist_of_push h j l k : hist_of (<[j := l]> h) k = if decide (j = k) then l else hist_of h k.
Proof. unfold hist_of. rewrite lookup_insert. by destruct (decide (j = k)). Qed.

(** Feeding a sequence the token it is due. *)
Lemma feed_due fr h j tok logits :
  0 <= j < Z.of_nat (length ps) -> Z.of_nat (length (hist_of h j)) < ctx -> due fr h j = Some tok ->
  logits = (length (prompt_of j) <=? S (length (hist_of h j)))%nat ->
  feed_slot fr h (mkSlot tok (Z.of_nat (length (hist_of h j))) j logits) =
    Some (<[j := hist_of h j ++ [tok]]> h).
Proof.
  intros Hj Hc Hd ->. unfold feed_slot, slot_ok. cbn [b_seq b_pos b_token b_logits].
  rewrite (proj2 (Z.leb_le 0 j)) by lia. rewrite (proj2 (Z.ltb_lt j _)) by lia. rewrite Z.eqb_refl.
  rewrite (proj2 (Z.ltb_lt _ ctx)) by lia. rewrite bool_decide_true by done. by rewrite eqb_reflx.
Qed.
End spec.

(** ** Safe computations *)

Section safety.
Context {G : Type} `{API : !LlamaApi G} `{LAWS : !LlamaLaws G} `{TR : !Traced G}.

(** From [P], the computation returns a value in [Q] or throws in [X]; it
    leaves no array and exhausts no loop. *)
Definition safe {A} (P : G -> Prop) (m : E G A) (Q : A -> G -> Prop) (X : G -> Prop) : Prop :=
  forall g, P g -> match m g with
  | (Ok a, g') => Q a g'
  | (Thrown _, g') => X g'
  | (OutOfBounds, _) | (OutOfFuel, _) => False
  end.

Lemma safe_ret {A} (P : G -> Prop) (a : A) Q X : (forall g, P g -> Q a g) -> safe P (mret a) Q X.
Proof. intros H g Hg. by apply H. Qed.

Lemma safe_bind {A B} P (m : E G A) (k : A -> E G B) R Q X :
  safe P m R X -> (forall a, safe (R a) (k a) Q X) -> safe P (m ≫= k) Q X.
Proof.
  intros Hm Hk g Hg. specialize (Hm g Hg). unfold mbind, E_bind.
  destruct (m g) as [[a|e| |] g1]; try done. by apply Hk.
Qed.

Lemma safe_pre {A} (P P' : G -> Prop) (m : E G A) Q X :
  (forall g, P g -> P' g) -> safe P' m Q X -> safe P m Q X.
Proof. intros HP Hm g Hg. by apply Hm, HP. Qed.

(** A computation that leaves the state alone. *)
Lemma safe_pure {A B} (P : G -> Prop) (m : E G A) (k : A -> E G B) a Q X :
  (forall g, P g -> m g = (Ok a, g)) -> safe P (k a) Q X -> safe P (m ≫= k) Q X.
Proof. intros Hm Hk g Hg. unfold mbind, E_bind. rewrite Hm by done. by apply Hk. Qed.

Lemma safe_pull {A} (C : Prop) (P : G -> Prop) (m : E G A) Q X :
  (C -> safe P m Q X) -> safe (fun g => C /\ P g) m Q X.
Proof. intros H g [Hc Hg]. by apply H. Qed.

Lemma safe_keep {A} (C : Prop) (P : G -> Prop) (m : E G A) Q X :
  (C -> safe P m Q X) -> safe (fun g => P g /\ C) m Q X.
Proof. intros H g [Hg Hc]. by apply H. Qed.

Lemma safe_exists {A I} (P : I -> G -> Prop) (m : E G A) Q X :
  (forall i, safe (P i) m Q X) -> safe (fun g => exists i, P i g) m Q X.
Proof. intros H g [i Hg]. by apply (H i). Qed.

(** ** Sequences *)

Context (ps : list (list Z)) (n_batch ctx : Z).
Hypothesis (cap_pos : 1 <= n_batch).
Implicit Types (s : LiveSeq) (live : list LiveSeq) (h : gmap Z (list Z)).

Record seq_wf s : Prop := {
  sw_id : 0 <= seq_id s < Z.of_nat (length ps);
  sw_prompt : prompt_tokens s = prompt_of ps (seq_id s);
  sw_nonempty : prompt_tokens s <> [];
  sw_small : Z.of_nat (length (prompt_tokens s)) < 2147483648;
  sw_max : 0 <= max_output s;
  sw_fits : Z.of_nat (length (prompt_tokens s)) + max_output s <= ctx
}.

Notation plen s := (Z.of_nat (length (prompt_tokens s))).

(** The sequence has been fed [n_past] tokens. *)
Definition past_ok h s : Prop := n_past s = Z.of_nat (length (hist_of h (seq_id s))).

(** Nothing but [n_past] differs. *)
Definition moved s s' : Prop := s' = set_past (n_past s') s.

Lemma moved_refl s : moved s s.
Proof. by destruct s. Qed.

Lemma moved_trans s1 s2 s3 : moved s1 s2 -> moved s2 s3 -> moved s1 s3.
Proof. unfold moved. intros -> ->. done. Qed.

Lemma moved_wf s s' : moved s s' -> seq_wf s -> seq_wf s'.
Proof. intros -> []. by split. Qed.

Lemma plen_pos s : seq_wf s -> 1 <= plen s.
Proof. intros Hs. pose proof (sw_nonempty s Hs). destruct (prompt_tokens s); [done|]. simpl. lia. Qed.

Lemma batch_add_ok b tok pos id lg (g : G) :
  n_tokens b < n_alloc b ->
  batch_add b tok pos id lg g = (Ok (mkBatch (n_alloc b) (slots_ b ++ [mkSlot tok pos id lg])), g).
Proof. intros H. unfold batch_add. by rewrite (proj2 (Z.ltb_lt _ _)). Qed.

Lemma n_tokens_app n es es' : n_tokens (mkBatch n (es ++ es')) = n_tokens (mkBatch n es) + Z.of_nat (length es').
Proof. unfold n_tokens. simpl. rewrite length_app. lia. Qed.

(** *** The prefix *)

Record filled_seq (fr : gmap Z Z) s batch more h s' batch' more' h' (extra : list batch_entry) : Prop := {
  fs_batch : batch' = mkBatch n_batch (slots_ batch ++ extra);
  fs_room : n_tokens batch' <= n_batch;
  fs_feed : feed_slots ps ctx fr h extra = Some h';
  fs_moved : moved s s';
  fs_count : n_past s' = n_past s + Z.of_nat (length extra);
  fs_past : past_ok h' s';
  fs_limit : n_past s' <= plen s - 1;
  fs_other j : j <> seq_id s -> hist_of h' j = hist_of h j;
  fs_more : (more' = more /\ n_past s' = plen s - 1) \/ (more' = true /\ n_batch <= n_tokens batch')
}.

Lemma fill_seq_spec fuel fr s batch more h (g : G) :
  seq_wf s -> n_alloc batch = n_batch -> n_tokens batch <= n_batch -> past_ok h s ->
  n_past s <= plen s - 1 -> (Z.to_nat (plen s - n_past s) <= fuel)%nat ->
  exists s' batch' more' h' extra,
    fill_seq fuel n_batch s batch more g = (Ok (s', batch', more'), g) /\
    filled_seq fr s batch more h s' batch' more' h' extra.
Proof.
  intros Hs Ha. revert s batch h Hs Ha.
  induction fuel as [|fuel IH]; intros s batch h Hs Ha Hroom Hpast Hlim Hfuel; [pose proof (plen_pos s Hs); lia|].
  pose proof Hpast as Hp. unfold past_ok in Hp. assert (Hn0 : 0 <= n_past s) by lia.
  assert (Hb : batch = mkBatch n_batch (slots_ batch)) by (destruct batch; simpl in *; by subst).
  cbn [fill_seq]. rewrite i32_small by (pose proof (sw_small s Hs); lia).
  destruct (Z.ltb_spec (n_past s + 1) (plen s)) as [Hlt|Hge].
  2:{ exists s, batch, more, h, []. split; [done|]. split; rewrite ?app_nil_r; simpl; try done;
        [apply moved_refl|lia|left; split; [done|lia]]. }
  destruct (Z.leb_spec n_batch (n_tokens batch)) as [Hfull|Hfree].
  { exists s, batch, true, h, []. split; [done|]. split; rewrite ?app_nil_r; simpl; try done;
      [apply moved_refl|lia|right; split; [done|lia]]. }
  destruct (lookup_lt_is_Some_2 (prompt_tokens s) (Z.to_nat (n_past s))) as [tok Htok]; [lia|].
  rewrite Htok. unfold mbind, E_bind. rewrite batch_add_ok by lia.
  set (e := mkSlot tok (n_past s) (seq_id s) false).
  set (h1 := <[seq_id s := hist_of h (seq_id s) ++ [tok]]> h).
  assert (Hfeed : feed_slot ps ctx fr h e = Some h1).
  { unfold e. rewrite Hpast. pose proof (sw_fits s Hs). pose proof (sw_max s Hs).
    apply feed_due; [apply Hs|lia| |].
    - unfold due. rewrite <- (sw_prompt s Hs). rewrite (proj2 (Nat.ltb_lt _ _)) by lia.
      rewrite <- Htok. f_equal. lia.
    - symmetry. apply Nat.leb_gt. rewrite <- (sw_prompt s Hs). lia. }
  destruct (IH (set_past (n_past s + 1) s) (mkBatch (n_alloc batch) (slots_ batch ++ [e])) h1)
    as (s' & batch' & more' & h' & extra & Hrun & [F1 F2 F3 F4 F5 F6 F7 F8 F9]); try done; simpl; try lia.
  - destruct Hs. by split.
  - rewrite n_tokens_app. unfold n_tokens in *. simpl. lia.
  - unfold past_ok, h1. simpl. rewrite hist_of_push, decide_True by done. rewrite length_app. simpl. lia.
  - exists s', batch', more', h', (e :: extra). split; [exact Hrun|]. split; try done.
    + rewrite F1. f_equal. simpl. by rewrite <- app_assoc.
    + simpl. by rewrite Hfeed.
    + simpl in F5 |- *. lia.
    + intros j Hj. rewrite F8 by done. unfold h1. by rewrite hist_of_push, decide_False.
Qed.

(** Prompt tokens still to feed before the last. *)
Definition rem live : Z := sum_by (fun s => plen s - 1 - n_past s) live.

(** All sequences active, fed [n_past] tokens and not past their prompts. *)
Record prefix_ok h live : Prop := {
  po_wf : Forall seq_wf live;
  po_active : Forall (fun s => active s = true) live;
  po_past : Forall (past_ok h) live;
  po_limit : Forall (fun s => n_past s <= plen s - 1) live
}.

Record filled_live (fr : gmap Z Z) live batch more h live' batch' more' h' (extra : list batch_entry) : Prop := {
  fl_batch : batch' = mkBatch n_batch (slots_ batch ++ extra);
  fl_room : n_tokens batch' <= n_batch;
  fl_feed : feed_slots ps ctx fr h extra = Some h';
  fl_moved : Forall2 moved live live';
  fl_ok : prefix_ok h' live';
  fl_rem : rem live' = rem live - Z.of_nat (length extra);
  fl_other j : j ∉ (seq_id <$> live) -> hist_of h' j = hist_of h j;
  fl_more : (more' = more /\ Forall (fun s => n_past s = plen s - 1) live') \/
            (more' = true /\ n_batch <= n_tokens batch')
}.

Lemma past_other h h' live :
  (forall s, s ∈ live -> hist_of h' (seq_id s) = hist_of h (seq_id s)) ->
  Forall (past_ok h) live -> Forall (past_ok h') live.
Proof.
  rewrite !Forall_forall. intros Ho Hp s Hs. unfold past_ok. rewrite Ho by done. by apply Hp.
Qed.

Lemma fill_all_spec fr live batch more h (g : G) :
  NoDup (seq_id <$> live) -> n_alloc batch = n_batch -> n_tokens batch <= n_batch -> prefix_ok h live ->
  exists live' batch' more' h' extra,
    fill_all n_batch live batch more g = (Ok (live', batch', more'), g) /\
    filled_live fr live batch more h live' batch' more' h' extra.
Proof.
  revert batch more h. induction live as [|s live IH]; intros batch more h Hnd Ha Hroom [Hwf Hact Hpast Hlim].
  { exists [], batch, more, h, []. split; [done|].
    split; rewrite ?app_nil_r; simpl; try done; [by destruct batch; simpl in *; subst|by left]. }
  apply NoDup_cons in Hnd as [Hnew Hnd]. apply Forall_cons in Hwf as [Hs Hwf].
  apply Forall_cons in Hact as [Has Hact]. apply Forall_cons in Hpast as [Hps Hpast].
  apply Forall_cons in Hlim as [Hls Hlim].
  assert (Hfuel : (Z.to_nat (plen s - n_past s) <= S (length (prompt_tokens s)))%nat)
    by (unfold past_ok in Hps; lia).
  destruct (fill_seq_spec (S (length (prompt_tokens s))) fr s batch more h g Hs Ha Hroom Hps Hls Hfuel)
    as (s1 & batch1 & more1 & h1 & ex1 & Hrun1 & [F1 F2 F3 F4 F5 F6 F7 F8 F9]).
  destruct (IH batch1 more1 h1) as (live2 & batch2 & more2 & h2 & ex2 & Hrun2 & [L1 L2 L3 L4 L5 L6 L7 L8]); try done.
  { by rewrite F1. }
  { split; try done. eapply past_other; [|exact Hpast]. intros s' Hs'. apply F8. intros Heq.
    apply Hnew. rewrite <- Heq. by apply list_elem_of_fmap_2. }
  assert (Hid : seq_id s1 = seq_id s) by (by rewrite F4).
  assert (Hpl : prompt_tokens s1 = prompt_tokens s) by (by rewrite F4).
  exists (s1 :: live2), batch2, more2, h2, (ex1 ++ ex2). split.
  { cbn [fill_all]. rewrite Has. unfold mbind, E_bind. rewrite Hrun1. cbv beta iota zeta. rewrite Hrun2. done. }
  destruct L5 as [O1 O2 O3 O4]. split; try done.
  - rewrite L1, F1. simpl. by rewrite app_assoc.
  - rewrite feed_slots_app. by rewrite F3.
  - by constructor.
  - split; constructor; try done; [by eapply moved_wf|by rewrite F4| |by rewrite Hpl].
    unfold past_ok in *. rewrite Hid in *. rewrite L7 by done. done.
  - unfold rem in *. cbn [sum_by foldr] in *. rewrite Hpl, F5, length_app.
    unfold sum_by in L6. rewrite L6. lia.
  - intros j Hj. rewrite L7 by (intros Hin; apply Hj; by right). apply F8. intros ->. apply Hj. left.
  - destruct L8 as [[-> Hall]|Hfull]; [|by right]. destruct F9 as [[-> Hd]|[-> Hfull]].
    + left. split; [done|]. constructor; [by rewrite Hpl|done].
    + right. split; [done|]. rewrite L1. unfold n_tokens in *. simpl. rewrite length_app. rewrite F1 in *. simpl in *. lia.
Qed.

(** ** Results *)

Context (reqs : list InferenceRequest.t).

(** A failure, or an output within the limit of the request. *)
Definition settled (r : InferenceRequest.t) (x : InferenceResult) : Prop :=
  InferenceResult.ok x = false \/
  exists o, output x = Some o /\ 0 <= output_tokens o <= Z.max 1 (max_output_tokens_ r).

(** Every result is settled or awaits an active sequence. *)
Record tracked live (results : list InferenceResult) : Prop := {
  tk_length : length results = length reqs;
  tk_result i r x : reqs !! i = Some r -> results !! i = Some x ->
    settled r x \/ exists s, s ∈ live /\ active s = true /\ result_index s = i;
  tk_seq s : s ∈ live -> exists r, reqs !! result_index s = Some r /\ max_output s = max_output_tokens_ r
}.

Definition all_settled (results : list InferenceResult) : Prop :=
  length results = length reqs /\ forall i r x, reqs !! i = Some r -> results !! i = Some x -> settled r x.

Lemma tracked_idle live results :
  Forall (fun s => active s = false) live -> tracked live results -> all_settled results.
Proof.
  intros Hidle [Hlen Hres _]. split; [done|]. intros i r x Hr Hx.
  destruct (Hres i r x Hr Hx) as [?|(s & Hs & Ha & _)]; [done|].
  eapply Forall_forall in Hidle; [|exact Hs]. simpl in Hidle. congruence.
Qed.

(** Sequences replaced by ones with the same result, request and activity. *)
Definition same_slot s s' : Prop :=
  result_index s' = result_index s /\ max_output s' = max_output s /\ active s' = active s.

Lemma moved_same s s' : moved s s' -> same_slot s s'.
Proof. by intros ->. Qed.

Lemma tracked_same live live' results :
  Forall2 same_slot live live' -> tracked live results -> tracked live' results.
Proof.
  intros H2 [Hlen Hres Hseq]. split; [done|..].
  - intros i r x Hr Hx. destruct (Hres i r x Hr Hx) as [?|(s & Hs & Ha & Hi)]; [by left|].
    apply list_elem_of_lookup in Hs as [k Hk]. eapply Forall2_lookup_l in H2 as (s' & Hk' & E1 & E2 & E3); [|exact Hk].
    right. exists s'. split; [by eapply list_elem_of_lookup_2|]. by rewrite E3, E1.
  - intros s' Hs'. apply list_elem_of_lookup in Hs' as [k Hk'].
    eapply Forall2_lookup_r in H2 as (s & Hk & E1 & E2 & E3); [|exact Hk'].
    destruct (Hseq s) as (r & Hr & Hm); [by eapply list_elem_of_lookup_2|]. exists r. by rewrite E1, E2.
Qed.

Lemma same_slots_refl live : Forall2 same_slot live live.
Proof. by induction live; constructor. Qed.

Lemma tracked_swap pre s s' post results :
  same_slot s s' -> tracked (pre ++ s :: post) results -> tracked (pre ++ s' :: post) results.
Proof.
  intros Hs. apply tracked_same. apply Forall2_app; [apply same_slots_refl|].
  constructor; [done|]. apply same_slots_refl.
Qed.

(** A sequence leaves with its result. *)
Lemma tracked_retire pre s post results x s' :
  active s' = false -> result_index s' = result_index s -> max_output s' = max_output s ->
  (forall r, reqs !! result_index s = Some r -> settled r x) ->
  tracked (pre ++ s :: post) results ->
  tracked (pre ++ s' :: post) (<[result_index s := x]> results).
Proof.
  intros Ha Hi Hm Hx [Hlen Hres Hseq]. split.
  - by rewrite length_insert.
  - intros i r y Hr Hy. apply list_lookup_insert_Some in Hy as [(<- & <- & _)|[Hne Hy]]; [left; auto|].
    destruct (Hres i r y Hr Hy) as [?|(s0 & Hs0 & Ha0 & Hi0)]; [by left|]. right. exists s0.
    split; [|done]. apply elem_of_app in Hs0 as [|[->|?]%elem_of_cons]; [apply elem_of_app; by left|done|].
    apply elem_of_app. right. by right.
  - intros s0 [Hs0|[->|Hs0]%elem_of_cons]%elem_of_app.
    + apply Hseq, elem_of_app. by left.
    + rewrite Hi, Hm. apply Hseq, elem_of_app. right. left.
    + apply Hseq, elem_of_app. right. by right.
Qed.

(** [fail_live] settles what is left. *)
Lemma fail_live_settled st live pre results :
  Status.ok st = false -> Forall (fun s => active s = false) pre -> tracked (pre ++ live) results ->
  all_settled (fail_live st live results).
Proof.
  intros Hst. revert pre results. unfold fail_live.
  induction live as [|s live IH]; intros pre results Hpre Ht; simpl.
  { rewrite app_nil_r in Ht. by eapply tracked_idle. }
  assert (Hone : forall x, active x = false -> Forall (fun s => active s = false) (pre ++ [x])).
  { intros x Hx. apply Forall_app. split; [done|by constructor]. }
  destruct (active s) eqn:Ha.
  - apply (IH (pre ++ [retire s])); [by apply Hone|]. rewrite <- app_assoc. simpl.
    eapply tracked_retire; [done..| |exact Ht]. intros r _. by left.
  - apply (IH (pre ++ [s])); [by apply Hone|]. by rewrite <- app_assoc.
Qed.

Lemma finish_live_idle live results :
  existsb active live = false -> finish_live live results = results.
Proof.
  unfold finish_live. revert results. induction live as [|s live IH]; intros results; simpl; [done|].
  intros [-> Hl]%orb_false_iff. by apply IH.
Qed.

(** ** Decoding *)

Context (t0 : list event).

(** The record since [t0] is accepted and leads to [st]. *)
Definition acc (st : feed) (g : G) : Prop :=
  exists evs, trace g = t0 ++ evs /\ replay ps n_batch ctx start_feed evs = Some st.

Definition on_record (g : G) : Prop := exists st, acc st g.

Lemma acc_event st st' ev g g' :
  acc st g -> trace g' = trace g ++ [ev] -> replay_event ps n_batch ctx st ev = Some st' -> acc st' g'.
Proof.
  intros (evs & Ht & Hr) Htr Hev. exists (evs ++ [ev]). rewrite Htr, Ht, app_assoc. split; [done|].
  rewrite replay_app, Hr. simpl. by rewrite Hev.
Qed.

Lemma acc_same st g g' : acc st g -> trace g' = trace g -> acc st g'.
Proof. intros (evs & Ht & Hr) Htr. exists evs. by rewrite Htr. Qed.

Lemma safe_decode c batch what live results st h' :
  feed_slots ps ctx (fresh st) (hist st) (slots_ batch) = Some h' -> n_tokens batch <= n_batch ->
  tracked live results ->
  safe (acc st) (decode_or_fail c batch what live results)
    (fun out g => match out with
                  | inl rs => all_settled rs /\ on_record g
                  | inr live' => live' = live /\ acc (mkFeed h' (slots_ batch) ∅) g
                  end) on_record.
Proof.
  intros Hf Hn Ht g Hg. unfold decode_or_fail, mbind, E_bind, call.
  assert (Hacc : acc (mkFeed h' (slots_ batch) ∅) (llama_decode c batch g).2).
  { eapply acc_event; [exact Hg|apply trace_decode|]. simpl. unfold n_tokens in Hn.
    rewrite (proj2 (Z.leb_le _ _)) by lia. by rewrite Hf. }
  destruct (llama_decode c batch g) as [[e|rc] g']; simpl in *; [by eexists|].
  destruct (negb (rc =? 0)); [|done]. split; [|by eexists].
  by apply (fail_live_settled _ live []).
Qed.

Lemma safe_prefix fuel c batch live results st :
  NoDup (seq_id <$> live) -> n_alloc batch = n_batch -> prefix_ok (hist st) live -> tracked live results ->
  rem live < Z.of_nat fuel ->
  safe (acc st) (prefix_loop fuel c n_batch batch live results)
    (fun out g => match out with
                  | inl rs => all_settled rs /\ on_record g
                  | inr live' => exists st', acc st' g /\ prefix_ok (hist st') live' /\
                      Forall (fun s => n_past s = plen s - 1) live' /\ Forall2 moved live live'
                  end) on_record.
Proof.
  revert batch live st. induction fuel as [|fuel IH]; intros batch live st Hnd Ha Hpo Ht Hfuel.
  { exfalso. enough (0 <= rem live) by lia. apply sum_by_nonneg. intros s Hs.
    pose proof (po_limit _ _ Hpo) as Hl. eapply Forall_forall in Hl; [|exact Hs]. simpl in Hl. lia. }
  cbn [prefix_loop]. intros g Hg.
  destruct (fill_all_spec (fresh st) live (batch_clear batch) false (hist st) g Hnd)
    as (live1 & batch1 & more1 & h1 & extra & Hrun & [L1 L2 L3 L4 L5 L6 L7 L8]); try done.
  { unfold n_tokens. simpl. lia. }
  unfold mbind, E_bind at 1. rewrite Hrun. cbv beta iota zeta.
  assert (Hsl : slots_ batch1 = extra) by (by rewrite L1).
  assert (Ht1 : tracked live1 results).
  { eapply tracked_same; [|exact Ht]. eapply Forall2_impl; [exact L4|]. apply moved_same. }
  destruct (Z.eqb_spec (n_tokens batch1) 0) as [Hz|Hnz].
  - destruct L8 as [[_ Hdone]|[_ Hfull]]; [|lia]. unfold n_tokens in Hz. rewrite Hsl in Hz.
    destruct extra as [|e extra]; [|simpl in Hz; lia]. simpl in L3. injection L3 as <-.
    exists st. done.
  - revert g Hg Hrun. rewrite <- Hsl in L3.
    pose proof (safe_decode c batch1 "llama_decode prefix failed" live1 results st h1 L3 L2 Ht1) as Hdec.
    intros g Hg _. revert g Hg.
    apply (safe_bind _ _ _ _ _ _ Hdec). intros [rs|live2].
    { by apply safe_ret. }
    apply safe_pull. intros ->.
    assert (Hnd1 : NoDup (seq_id <$> live1)).
    { replace (seq_id <$> live1) with (seq_id <$> live); [done|]. clear -L4.
      induction L4 as [|s s' l l' -> _ IH]; simpl; [done|]. by f_equal. }
    destruct more1.
    + destruct L8 as [[? _]|_]; [done|]. unfold n_tokens in Hnz. rewrite Hsl in Hnz.
      assert (Hrec : safe (acc (mkFeed h1 (slots_ batch1) ∅)) (prefix_loop fuel c n_batch batch1 live1 results)
        (fun out g => match out with
                  | inl rs => all_settled rs /\ on_record g
                  | inr live' => exists st', acc st' g /\ prefix_ok (hist st') live' /\
                      Forall (fun s => n_past s = plen s - 1) live' /\ Forall2 moved live1 live'
                  end) on_record).
      { apply IH; try done; [by rewrite L1|lia]. }
      intros g Hg. specialize (Hrec g Hg).
      destruct (prefix_loop fuel c n_batch batch1 live1 results g) as [[[rs|live3]|e| |] g']; try done.
      destruct Hrec as (st' & ? & ? & ? & Hm). exists st'. do 3 (split; [done|]).
      clear -L4 Hm. revert live3 Hm. induction L4; intros live3 Hm; inversion Hm; subst; constructor; eauto using moved_trans.
    + destruct L8 as [[_ Hdone]|[? _]]; [|done]. apply safe_ret. intros g Hg. eexists. done.
Qed.

(** ** Generation *)

(** The logits a sequence will sample from are those of its own slot. *)
Definition reads (slots : list batch_entry) s : Prop :=
  0 <= logits_batch_index s /\
  exists e, slots !! Z.to_nat (logits_batch_index s) = Some e /\ b_seq e = seq_id s /\ b_logits e = true.

Record gen_ok (slots : list batch_entry) h s : Prop := {
  go_wf : seq_wf s;
  go_past : past_ok h s;
  go_count : n_past s = plen s + generated s;
  go_low : 0 <= generated s;
  go_high : generated s = 0 \/ generated s < max_output s;
  go_reads : reads slots s
}.

Definition all_gen (slots : list batch_entry) h live : Prop :=
  Forall (fun s => active s = true -> gen_ok slots h s) live.

Lemma reads_app slots extra s : reads slots s -> reads (slots ++ extra) s.
Proof. intros [Hi (e & He & H)]. split; [done|]. exists e. split; [|done]. by apply lookup_app_l_Some. Qed.

Lemma gen_ok_other slots extra h h' s :
  hist_of h' (seq_id s) = hist_of h (seq_id s) -> gen_ok slots h s -> gen_ok (slots ++ extra) h' s.
Proof.
  intros Hh []. split; try done; [|by apply reads_app]. unfold past_ok in *. by rewrite Hh.
Qed.

(** The slot just added is the one the sequence reads. *)
Lemma reads_new n slots tok pos id s :
  logits_batch_index s = n_tokens (mkBatch n slots) -> seq_id s = id ->
  reads (slots ++ [mkSlot tok pos id true]) s.
Proof.
  intros Hi <-. split; [rewrite Hi; unfold n_tokens; lia|].
  exists (mkSlot tok pos (seq_id s) true). split; [|done].
  rewrite Hi. unfold n_tokens. simpl. rewrite Nat2Z.id. by apply list_lookup_middle.
Qed.

Record booted live batch h live' batch' h' (extra : list batch_entry) : Prop := {
  bo_batch : batch' = mkBatch n_batch (slots_ batch ++ extra);
  bo_count : length extra = length live;
  bo_feed : feed_slots ps ctx ∅ h extra = Some h';
  bo_same : Forall2 same_slot live live';
  bo_ids : seq_id <$> live' = seq_id <$> live;
  bo_gen : all_gen (slots_ batch') h' live';
  bo_other j : j ∉ (seq_id <$> live) -> hist_of h' j = hist_of h j
}.

Lemma bootstrap_spec live batch h (g : G) :
  NoDup (seq_id <$> live) -> n_alloc batch = n_batch -> prefix_ok h live ->
  Forall (fun s => n_past s = plen s - 1 /\ generated s = 0) live ->
  n_tokens batch + Z.of_nat (length live) <= n_batch ->
  exists live' batch' h' extra, bootstrap_all live batch g = (Ok (live', batch'), g) /\
    booted live batch h live' batch' h' extra.
Proof.
  revert batch h. induction live as [|s live IH]; intros batch h Hnd Ha [Hwf Hact Hpast Hlim] Hdone Hroom.
  { exists [], batch, h, []. split; [done|]. split; rewrite ?app_nil_r; try done;
      [by destruct batch; simpl in *; subst|constructor]. }
  apply NoDup_cons in Hnd as [Hnew Hnd]. apply Forall_cons in Hwf as [Hs Hwf].
  apply Forall_cons in Hact as [Has Hact]. apply Forall_cons in Hpast as [Hps Hpast].
  apply Forall_cons in Hlim as [Hls Hlim]. apply Forall_cons in Hdone as [[Hds Hgs] Hdone].
  pose proof (plen_pos s Hs) as Hpos. pose proof Hps as Hp. unfold past_ok in Hp. simpl length in Hroom.
  destruct (lookup_lt_is_Some_2 (prompt_tokens s) (length (prompt_tokens s) - 1)) as [tok Htok]; [lia|].
  set (e := mkSlot tok (n_past s) (seq_id s) true).
  set (h1 := <[seq_id s := hist_of h (seq_id s) ++ [tok]]> h).
  set (s1 := set_past (n_past s + 1) (set_logits (n_tokens batch) s)).
  set (batch1 := mkBatch (n_alloc batch) (slots_ batch ++ [e])).
  assert (Hb1 : n_tokens batch1 = n_tokens batch + 1) by (unfold batch1; rewrite n_tokens_app; destruct batch; done).
  assert (Hfeed : feed_slot ps ctx ∅ h e = Some h1).
  { unfold e. rewrite Hp. pose proof (sw_fits s Hs). pose proof (sw_max s Hs).
    apply feed_due; [apply Hs|lia| |].
    - unfold due. rewrite <- (sw_prompt s Hs). rewrite (proj2 (Nat.ltb_lt _ _)) by lia.
      rewrite <- Htok. f_equal. lia.
    - symmetry. apply Nat.leb_le. rewrite <- (sw_prompt s Hs). lia. }
  assert (Hgen1 : gen_ok (slots_ batch1) h1 s1).
  { split; simpl; try lia.
    - destruct Hs. by split.
    - unfold past_ok, h1. simpl. rewrite hist_of_push, decide_True by done. rewrite length_app. simpl. lia.
    - eapply (reads_new (n_alloc batch)); [|done]. by destruct batch. }
  destruct (IH batch1 h1) as (live2 & batch2 & h2 & extra & Hrun & [B1 B2 B3 B4 B5 B6 B7]); try done; [|lia|].
  { split; try done. eapply past_other; [|exact Hpast]. intros s' Hs'. unfold h1.
    rewrite hist_of_push, decide_False; [done|]. intros Heq. apply Hnew. rewrite Heq.
    by apply list_elem_of_fmap_2. }
  exists (s1 :: live2), batch2, h2, (e :: extra). split.
  { cbn [bootstrap_all]. rewrite Has. unfold mbind, E_bind. rewrite Htok.
    rewrite batch_add_ok by lia. cbv beta iota zeta. unfold mret, E_ret. fold s1 e batch1.
    rewrite Hrun. done. }
  split.
  - rewrite B1. unfold batch1. simpl. by rewrite <- app_assoc.
  - simpl. by rewrite B2.
  - simpl. by rewrite Hfeed.
  - by constructor.
  - rewrite !fmap_cons. by rewrite B5.
  - constructor; [|done]. intros _. rewrite B1. simpl. apply gen_ok_other with (h := h1); [|done].
    apply B7. done.
  - intros j Hj. rewrite B7 by (intros Hin; apply Hj; by right). unfold h1. rewrite hist_of_push, decide_False; [done|].
    intros <-. apply Hj. left.
Qed.

Lemma read_buffer_ok size n w (g : G) : n <= size -> exists p, read_buffer size n w g = (Ok p, g).
Proof. intros Hn. unfold read_buffer. rewrite (proj2 (Z.leb_le n size)) by done. by eexists. Qed.

Lemma token_to_piece_safe v tok (g : G) :
  match token_to_piece v tok g with
  | (Ok _, g') | (Thrown _, g') => g' = g
  | (OutOfBounds, _) | (OutOfFuel, _) => False
  end.
Proof.
  unfold token_to_piece. pose proof (piece_fits v tok 256 ltac:(lia)) as H1.
  set (out := llama_token_to_piece v tok 256) in *. rewrite (i32_small out.1) by lia.
  destruct (Z.ltb_spec out.1 0) as [Hneg|Hpos].
  2:{ destruct (read_buffer_ok 256 out.1 out.2 g) as [p ->]; [lia|done]. }
  pose proof (i32_range (- out.1)) as Hr. pose proof (piece_fits v tok (i32 (- out.1)) Hr) as H2.
  set (out2 := llama_token_to_piece v tok (i32 (- out.1))) in *. rewrite (i32_small out2.1) by lia.
  destruct (Z.ltb_spec out2.1 0) as [Hneg2|Hpos2]; [done|].
  destruct (read_buffer_ok (- out.1) out2.1 out2.2 g) as [p ->]; [|done].
  destruct (Z.eq_dec out.1 (-2147483648)) as [Heq|Hne]; [lia|]. rewrite i32_small in H2 by lia. lia.
Qed.

(** A sequence after its turn: retired with a settled result, or active with
    one token more. *)
Record turned s s' : Prop := {
  tu_id : seq_id s' = seq_id s;
  tu_index : result_index s' = result_index s;
  tu_max : max_output s' = max_output s;
  tu_more : active s' = true -> active s = true /\ generated s' = generated s + 1 /\ generated s' < max_output s'
}.

Lemma turned_idle s : active s = false -> turned s s.
Proof. intros Ha. split; try done. congruence. Qed.

(** What one turn leaves: the record, the slots, and the results. *)
Record turn_post (pre post : list LiveSeq) (st : feed) h s batch s' batch' (results' : list InferenceResult)
    (st' : feed) h' (extra : list batch_entry) : Prop := {
  tp_hist : hist st' = hist st;
  tp_last : last st' = last st;
  tp_fresh : fresh st ⊆ fresh st';
  tp_fresh_other j : j <> seq_id s -> fresh st' !! j = fresh st !! j;
  tp_batch : batch' = mkBatch n_batch (slots_ batch ++ extra);
  tp_few : (length extra <= 1)%nat;
  tp_feed : feed_slots ps ctx (fresh st') h extra = Some h';
  tp_turned : turned s s';
  tp_gen : active s' = true -> gen_ok (slots_ batch ++ extra) h' s';
  tp_other j : j <> seq_id s -> hist_of h' j = hist_of h j;
  tp_tracked : tracked (pre ++ s' :: post) results'
}.

Lemma safe_generate_one entry pre post s batch results st h :
  active s = true -> n_alloc batch = n_batch -> n_tokens batch < n_batch ->
  gen_ok (last st) h s -> fresh st !! seq_id s = None -> max_output s < two64 ->
  tracked (pre ++ s :: post) results ->
  safe (acc st) (generate_one entry s batch results)
    (fun out g => exists st' h' extra, acc st' g /\
       turn_post pre post st h s batch out.1.1 out.1.2 out.2 st' h' extra) on_record.
Proof.
  intros Hact Ha Hroom [Hwf Hpast Hcount Hlow Hhigh [Hi (e & He & Hse & Hle)]] Hfr Hmax Ht g Hg.
  assert (Hb : batch = mkBatch n_batch (slots_ batch)) by (destruct batch; simpl in *; by subst).
  unfold generate_one, mbind, E_bind at 1, call.
  pose proof (trace_sample (sampler s) (context entry) (logits_batch_index s) g) as Htr.
  destruct (llama_sampler_sample (sampler s) (context entry) (logits_batch_index s) g) as [[ex|tok] g1];
    simpl in Htr.
  { exists st. eapply acc_same; [exact Hg|]. by rewrite Htr, app_nil_r. }
  set (st1 := mkFeed (hist st) (last st) (<[seq_id s := tok]> (fresh st))).
  assert (Hg1 : acc st1 (llama_sampler_accept (sampler s) tok g1)).
  { eapply acc_same; [|apply trace_accept]. eapply acc_event; [exact Hg|exact Htr|]. simpl.
    rewrite He, Hle, Hse. rewrite (proj2 (Z.leb_le _ _)) by done. by rewrite bool_decide_true. }
  unfold effect, E_bind. set (g2 := llama_sampler_accept (sampler s) tok g1) in *.
  assert (Hsub : fresh st ⊆ fresh st1) by (by apply insert_subseteq).
  assert (Hoth : forall j, j <> seq_id s -> fresh st1 !! j = fresh st !! j).
  { intros j Hj. by apply lookup_insert_ne. }
  assert (Hret : forall x s', active s' = false -> seq_id s' = seq_id s -> result_index s' = result_index s ->
    max_output s' = max_output s -> (forall r, reqs !! result_index s = Some r -> settled r x) ->
    exists st' h' extra, acc st' g2 /\
      turn_post pre post st h s batch s' batch (<[result_index s := x]> results) st' h' extra).
  { intros x s' Hs' Hid Hix Hm Hx. exists st1, h, []. split; [done|]. split; try done.
    - by rewrite app_nil_r.
    - simpl. lia.
    - split; try done. congruence.
    - congruence.
    - by eapply tracked_retire. }
  destruct (tk_seq _ _ Ht s) as (r & Hr & Hmr); [apply elem_of_app; right; left|].
  destruct (llama_vocab_is_eog (vocab entry) tok).
  { apply Hret; try done. intros r' Hr'. simplify_eq. right. eexists. split; [done|]. simpl. lia. }
  pose proof (token_to_piece_safe (vocab entry) tok g2) as Hpiece.
  destruct (token_to_piece (vocab entry) tok g2) as [[piece|[what|]| |] g3]; try done; subst g3.
  2:{ apply Hret; try done. intros r' _. by left. }
  2:{ by exists st1. }
  cbv zeta. rewrite u64_add_small by (unfold two64 in *; lia). cbn [max_output generated set_text].
  destruct (Z.leb_spec (max_output s) (generated s + 1)) as [Hend|Hgo].
  { apply (Hret _ (retire (set_text (text s +:+ piece) (generated s + 1) s))); try done.
    intros r' Hr'. simplify_eq. right. eexists. split; [done|]. simpl. lia. }
  unfold mbind, E_bind. cbn [n_past seq_id set_text]. rewrite batch_add_ok by lia. cbn [fst snd mret E_ret].
  unfold mret, E_ret. cbn [fst snd].
  set (sl := mkSlot tok (n_past s) (seq_id s) true).
  set (h1 := <[seq_id s := hist_of h (seq_id s) ++ [tok]]> h).
  set (s1 := set_past _ _). pose proof Hpast as Hp. unfold past_ok in Hp.
  exists st1, h1, [sl]. split; [done|]. split; try done.
  - by rewrite Ha.
  - simpl. unfold sl. rewrite Hp. rewrite feed_due; [done|apply Hwf| | |].
    + pose proof (sw_fits s Hwf). lia.
    + unfold due. rewrite <- (sw_prompt s Hwf). rewrite (proj2 (Nat.ltb_ge _ _)) by lia. apply lookup_insert_eq.
    + symmetry. apply Nat.leb_le. rewrite <- (sw_prompt s Hwf). lia.
  - intros _. split; simpl; try lia.
    + destruct Hwf. by split.
    + unfold past_ok, h1. simpl. rewrite hist_of_push, decide_True by done. rewrite length_app. simpl. lia.
    + eapply (reads_new (n_alloc batch)); [|done]. by destruct batch.
  - intros j Hj. unfold h1. by rewrite hist_of_push, decide_False.
  - eapply (tracked_swap pre s); [|exact Ht]. done.
Qed.

Record round_post (pre : list LiveSeq) (st : feed) h live batch live' batch' (results' : list InferenceResult)
    (st' : feed) h' (extra : list batch_entry) : Prop := {
  rp_hist : hist st' = hist st;
  rp_last : last st' = last st;
  rp_batch : batch' = mkBatch n_batch (slots_ batch ++ extra);
  rp_few : (length extra <= length live)%nat;
  rp_feed : feed_slots ps ctx (fresh st') h extra = Some h';
  rp_fresh : fresh st ⊆ fresh st';
  rp_turned : Forall2 turned live live';
  rp_gen : all_gen (slots_ batch ++ extra) h' live';
  rp_other j : j ∉ (seq_id <$> live) -> hist_of h' j = hist_of h j;
  rp_tracked : tracked (pre ++ live') results'
}.

Lemma gen_ok_hist slots h h' s :
  hist_of h' (seq_id s) = hist_of h (seq_id s) -> gen_ok slots h s -> gen_ok slots h' s.
Proof. intros Hh Hs. rewrite <- (app_nil_r slots). by eapply gen_ok_other. Qed.

Lemma safe_generate_all entry live pre batch results st h :
  NoDup (seq_id <$> live) -> n_alloc batch = n_batch ->
  n_tokens batch + Z.of_nat (length live) <= n_batch ->
  all_gen (last st) h live -> Forall (fun s => max_output s < two64) live ->
  Forall (fun s => fresh st !! seq_id s = None) live ->
  tracked (pre ++ live) results ->
  safe (acc st) (generate_all entry live batch results)
    (fun out g => exists st' h' extra, acc st' g /\
       round_post pre st h live batch out.1.1 out.1.2 out.2 st' h' extra) on_record.
Proof.
  revert pre batch results st h. induction live as [|s live IH];
    intros pre batch results st h Hnd Ha Hroom Hgen Hmax Hfr Ht.
  { rewrite app_nil_r in Ht. apply safe_ret. intros g Hg. exists st, h, []. split; [done|].
    split; rewrite ?app_nil_r; simpl; try done; [by destruct batch; simpl in *; subst|constructor..]. }
  apply NoDup_cons in Hnd as [Hnew Hnd]. apply Forall_cons in Hgen as [Hgs Hgen].
  apply Forall_cons in Hmax as [Hms Hmax]. apply Forall_cons in Hfr as [Hfs Hfr]. simpl length in Hroom.
  assert (Hne : forall s', s' ∈ live -> seq_id s' <> seq_id s).
  { intros s' Hs' Heq. apply Hnew. rewrite <- Heq. by apply list_elem_of_fmap_2. }
  cbn [generate_all]. eapply (safe_bind _ _ _ (fun out g => exists st' h' extra, acc st' g /\
       turn_post pre live st h s batch out.1.1 out.1.2 out.2 st' h' extra)).
  { destruct (active s) eqn:Hact.
    - apply safe_generate_one; try done; [lia|by apply Hgs].
    - apply safe_ret. intros g Hg. exists st, h, []. split; [done|].
      split; rewrite ?app_nil_r; simpl; try done; try congruence; try lia;
        [by destruct batch; simpl in *; subst|by apply turned_idle]. }
  intros [[s1 batch1] results1]. cbn [fst snd]. apply safe_exists. intros st1. apply safe_exists. intros h1.
  apply safe_exists. intros ex1. apply safe_keep. intros [T1 T2 T3 T4 T5 T6 T7 T8 T9 T10 T11].
  eapply safe_bind.
  { apply (IH (pre ++ [s1]) batch1 results1 st1 h1); try done.
    - by rewrite T5.
    - rewrite T5. unfold n_tokens in *. simpl. rewrite length_app. lia.
    - rewrite T2. eapply Forall_impl; [apply Forall_and; split; [exact Hgen|apply Forall_forall; exact Hne]|].
      intros s' [Hs' Hd] Ha'. eapply gen_ok_hist; [|by apply Hs']. by apply T10.
    - apply Forall_forall. intros s' Hs'. rewrite T4 by (by apply Hne).
      by eapply (proj1 (Forall_forall _ _) Hfr).
    - by rewrite <- app_assoc. }
  intros [[live2 batch2] results2]. cbn [fst snd]. apply safe_exists. intros st2. apply safe_exists. intros h2.
  apply safe_exists. intros ex2. apply safe_keep. intros [R1 R2 R3 R4 R5 R6 R7 R8 R9 R10].
  apply safe_ret. intros g Hg. exists st2, h2, (ex1 ++ ex2). split; [done|]. cbn [fst snd]. split.
  - by rewrite R1.
  - by rewrite R2.
  - rewrite R3, T5. simpl. by rewrite <- app_assoc.
  - rewrite length_app. simpl. lia.
  - rewrite feed_slots_app. by rewrite (feed_slots_mono _ _ (fresh st1) (fresh st2) h ex1 h1).
  - by etrans.
  - by constructor.
  - rewrite T5 in R8. simpl in R8. rewrite app_assoc. constructor; [|done]. intros Ha1.
    apply gen_ok_other with (h := h1); [|by apply T9]. apply R9. by rewrite (tu_id _ _ T8).
  - intros j Hj. rewrite R9 by (intros Hin; apply Hj; by right). apply T10. intros ->. apply Hj. left.
  - by rewrite <- app_assoc in R10.
Qed.

Lemma turned_ids live live' : Forall2 turned live live' -> seq_id <$> live' = seq_id <$> live.
Proof. induction 1 as [|s s' l l' Hs _ IH]; [done|]. rewrite !fmap_cons, IH. by rewrite (tu_id _ _ Hs). Qed.

(** One more token for whoever is still active. *)
Lemma turned_fuel fuel live live' :
  Forall2 turned live live' ->
  Forall (fun s => active s = true -> max_output s - generated s < Z.of_nat (S fuel)) live ->
  Forall (fun s => active s = true -> 1 <= max_output s - generated s < Z.of_nat fuel) live'.
Proof.
  induction 1 as [|s s' l l' Hs _ IH]; [by constructor|]. intros [Hf Hl]%Forall_cons. constructor; [|by apply IH].
  intros Ha. destruct (tu_more _ _ Hs Ha) as (Ha0 & Hg & Hlt). rewrite (tu_max _ _ Hs) in *.
  specialize (Hf Ha0). lia.
Qed.

Lemma safe_generate fuel entry batch live results st :
  NoDup (seq_id <$> live) -> n_alloc batch = n_batch -> Z.of_nat (length live) <= n_batch ->
  fresh st = ∅ -> all_gen (last st) (hist st) live -> Forall (fun s => max_output s < two64) live ->
  tracked live results -> (1 <= fuel)%nat ->
  Forall (fun s => active s = true -> max_output s - generated s < Z.of_nat fuel) live ->
  safe (acc st) (generate_loop fuel entry batch live results) (fun rs g => all_settled rs /\ on_record g) on_record.
Proof.
  revert batch live results st. induction fuel as [|fuel IH];
    intros batch live results st Hnd Ha Hlen Hfr Hgen Hmax Ht Hpos Hfuel; [lia|].
  cbn [generate_loop]. eapply safe_bind.
  { apply (safe_generate_all entry live [] (batch_clear batch) results st (hist st)); try done.
    apply Forall_forall. intros s _. by rewrite Hfr. }
  intros [[live1 batch1] results1]. cbn [fst snd]. apply safe_exists. intros st1. apply safe_exists. intros h1.
  apply safe_exists. intros extra. apply safe_keep. intros [R1 R2 R3 R4 R5 R6 R7 R8 R9 R10].
  simpl in R3, R8, R10. pose proof (turned_fuel fuel live live1 R7 Hfuel) as Hfuel1.
  assert (Hids : seq_id <$> live1 = seq_id <$> live) by (by apply turned_ids).
  assert (Hl1 : length live1 = length live) by (symmetry; by eapply Forall2_length).
  destruct (existsb active live1) eqn:Hany; cbn [negb].
  - eapply safe_bind.
    { apply (safe_decode _ _ _ _ _ st1 h1); [by rewrite R3, R1| |done].
      rewrite R3. unfold n_tokens. simpl. lia. }
    intros [rs|live2]; [by apply safe_ret|]. apply safe_pull. intros ->.
    apply existsb_exists in Hany as (s & Hs & Hact). apply list_elem_of_In in Hs.
    assert (1 <= fuel)%nat.
    { eapply Forall_forall in Hfuel1; [|exact Hs]. specialize (Hfuel1 Hact). lia. }
    apply IH; try done.
    + by rewrite Hids.
    + by rewrite R3.
    + lia.
    + simpl. by rewrite R3.
    + clear -R7 Hmax. revert Hmax. induction R7 as [|s s' l l' Hs _ IH]; [done|]. intros [? ?]%Forall_cons.
      constructor; [by rewrite (tu_max _ _ Hs)|by apply IH].
    + eapply Forall_impl; [exact Hfuel1|]. simpl. intros s' Hs' Ha'. specialize (Hs' Ha'). lia.
  - apply safe_ret. intros g Hg. split; [|by exists st1]. rewrite finish_live_idle by done.
    eapply tracked_idle; [|exact R10]. apply Forall_forall. intros s Hs.
    destruct (active s) eqn:Hact; [|done]. exfalso. apply not_true_iff_false in Hany. apply Hany.
    apply existsb_exists. exists s. split; [by apply list_elem_of_In|done].
Qed.

(** A sequence as [open_seq] builds it. *)
Record opened s : Prop := {
  op_wf : seq_wf s;
  op_past : n_past s = 0;
  op_generated : generated s = 0;
  op_active : active s = true;
  op_max : max_output s < two64
}.

Lemma opened_prefix live : Forall opened live -> prefix_ok ∅ live.
Proof.
  intros H. split; (eapply Forall_impl; [exact H|]); intros s Hs; try apply Hs.
  rewrite (op_past s Hs). pose proof (plen_pos s (op_wf s Hs)). lia.
Qed.

Lemma opened_rem live : Forall opened live -> rem live < Z.of_nat (prefix_fuel live).
Proof.
  unfold prefix_fuel, rem. induction 1 as [|s live Hs _ IH]; [simpl; lia|].
  cbn [sum_by foldr map sum_list] in *. rewrite (op_past s Hs). unfold sum_by in IH. simpl in *. lia.
Qed.

Lemma moved_opened live live' :
  Forall2 moved live live' -> Forall opened live ->
  Forall (fun s => generated s = 0 /\ max_output s < two64) live' /\
  seq_id <$> live' = seq_id <$> live /\ Forall2 same_slot live live'.
Proof.
  induction 1 as [|s s' l l' Hs _ IH]; [repeat split; constructor|]. intros [Ho Hl]%Forall_cons.
  destruct (IH Hl) as (H1 & H2 & H3). split; [|split].
  - constructor; [|done]. rewrite Hs. simpl. split; apply Ho.
  - rewrite !fmap_cons, H2. by rewrite Hs.
  - constructor; [by apply moved_same|done].
Qed.

Lemma generate_fuel_enough live s :
  s ∈ live -> 0 <= max_output s -> max_output s < Z.of_nat (generate_fuel live).
Proof.
  intros Hs H0. unfold generate_fuel.
  enough (max_output s <= foldr (fun s m => Z.max (max_output s) m) 0 live) by lia.
  induction live as [|s0 live IH]; [by apply elem_of_nil in Hs|]. simpl.
  apply elem_of_cons in Hs as [->|Hs]; [lia|]. specialize (IH Hs). lia.
Qed.

Lemma safe_run_live entry live results :
  i32 (cfg_n_batch (model_config entry)) = n_batch -> Z.of_nat (length live) <= n_batch -> live <> [] ->
  NoDup (seq_id <$> live) -> Forall opened live -> tracked live results ->
  safe (acc start_feed) (run_live entry live results) (fun rs g => all_settled rs /\ on_record g) on_record.
Proof.
  intros Hcap Hlen Hne Hnd Hop Ht. unfold run_live. rewrite Hcap. cbv zeta.
  eapply safe_bind.
  { apply (safe_prefix _ _ _ _ _ start_feed); try done; [by apply opened_prefix|by apply opened_rem]. }
  intros [rs|live1]; [by apply safe_ret|]. apply safe_exists. intros st1.
  intros g (Hg & Hpo & Hdone & Hmv). revert g Hg.
  destruct (moved_opened live live1 Hmv Hop) as (Hg1 & Hid1 & Hsame1).
  assert (Hl1 : length live1 = length live) by (symmetry; by eapply Forall2_length).
  assert (Hnd1 : NoDup (seq_id <$> live1)) by (by rewrite Hid1).
  assert (Hready : Forall (fun s => n_past s = plen s - 1 /\ generated s = 0) live1).
  { eapply Forall_impl; [apply Forall_and; split; [exact Hdone|exact Hg1]|]. simpl. tauto. }
  assert (Ht1 : tracked live1 results) by (by eapply tracked_same).
  intros g Hg.
  destruct (bootstrap_spec live1 (mkBatch n_batch []) (hist st1) g)
    as (live2 & batch2 & h2 & extra & Hrun & [B1 B2 B3 B4 B5 B6 B7]); try done.
  { unfold n_tokens. simpl. lia. }
  simpl in B1. change (batch_clear _) with (mkBatch n_batch []).
  unfold mbind, E_bind at 1. rewrite Hrun. cbv beta iota zeta.
  assert (Hn2 : n_tokens batch2 = Z.of_nat (length live)) by (rewrite B1; unfold n_tokens; simpl; lia).
  destruct (Z.eqb_spec (n_tokens batch2) 0) as [Hz|_]; [destruct live; [done|simpl in Hn2; lia]|].
  assert (Ht2 : tracked live2 results) by (by eapply tracked_same).
  assert (Hfeed : feed_slots ps ctx (fresh st1) (hist st1) (slots_ batch2) = Some h2).
  { rewrite B1. eapply feed_slots_mono; [|exact B3]. apply map_empty_subseteq. }
  clear Hrun. revert g Hg. eapply safe_bind.
  { apply (safe_decode _ batch2 _ _ _ st1 h2); [done|lia|done]. }
  intros [rs|live3]; [by apply safe_ret|]. apply safe_pull. intros ->.
  assert (Hmax2 : Forall (fun s => max_output s < two64) live2).
  { clear -B4 Hg1. revert Hg1. induction B4 as [|s s' l l' (_ & Hm & _) _ IH]; [done|].
    intros [[_ Hs] Hl]%Forall_cons. constructor; [by rewrite Hm|by apply IH]. }
  apply safe_generate; try done.
  - by rewrite B5.
  - by rewrite B1.
  - rewrite B1 in Hn2. apply Forall2_length in B4. lia.
  - unfold generate_fuel. lia.
  - apply Forall_forall. intros s Hs Hact. eapply (proj1 (Forall_forall _ _) B6) in Hact as Hgen; [|exact Hs].
    pose proof (go_low _ _ _ Hgen). pose proof (sw_max s (go_wf _ _ _ Hgen)).
    pose proof (generate_fuel_enough live2 s Hs). lia.
Qed.
End safety.

(** ** Opening the sequences *)

Section opening.
Context {G : Type} `{API : !LlamaApi G} `{LAWS : !LlamaLaws G} `{TR : !Traced G}.
Context (entry : @LoadedModel G API) (reqs : list InferenceRequest.t).
Hypothesis reqs_small :
  Forall (fun r => 0 <= max_output_tokens_ r /\ max_output_tokens_ r + 2147483648 <= two64) reqs.
Hypothesis reqs_few : Z.of_nat (length reqs) < 2147483648.

Notation ctx := (context_tokens_per_sequence (model_config entry)).

(** Tokenization reads only the vocabulary. *)
Lemma tokenize_cases v p (g : G) :
  (exists what, tokenize_prompt v p g = (Thrown (StdException what), g)) \/
  exists toks, tokenize_prompt v p g = (Ok toks, g) /\ Z.of_nat (length toks) < 2147483648.
Proof.
  unfold tokenize_prompt. destruct (_ <? 0); [left; by eexists|]. destruct (_ =? 0).
  { right. exists []. split; [done|]. simpl. lia. }
  destruct (Z.ltb_spec (i32 (llama_tokenize v p (i32 (Z.of_nat (String.length p)))
    (i32 (- i32 (llama_tokenize v p (i32 (Z.of_nat (String.length p))) 0).1))).1) 0) as [|Hpos];
    [left; by eexists|]. right. eexists. split; [done|]. rewrite length_resize.
  pose proof (i32_range (llama_tokenize v p (i32 (Z.of_nat (String.length p)))
    (i32 (- i32 (llama_tokenize v p (i32 (Z.of_nat (String.length p))) 0).1))).1). lia.
Qed.

(** What is known of the [k]-th sequence, opened for request [r]. *)
Record opened_for (k : nat) (s : @LiveSeq G API) (r : InferenceRequest.t) : Prop := {
  of_id : seq_id s = Z.of_nat k;
  of_req : reqs !! result_index s = Some r;
  of_max : max_output s = max_output_tokens_ r;
  of_tokens g : tokenize_prompt (vocab entry) (prompt_ r) g = (Ok (prompt_tokens s), g);
  of_nonempty : prompt_tokens s <> [];
  of_small : Z.of_nat (length (prompt_tokens s)) < 2147483648;
  of_fits : Z.of_nat (length (prompt_tokens s)) + max_output s <= ctx;
  of_past : n_past s = 0;
  of_generated : generated s = 0;
  of_active : active s = true
}.

Lemma open_seq_cases i k r (g : G) :
  reqs !! i = Some r -> (k <= i)%nat -> (exists x, (open_seq entry i (i32 (Z.of_nat k)) r g).1 = Ok (inl x) /\
      InferenceResult.ok x = false /\ trace (open_seq entry i (i32 (Z.of_nat k)) r g).2 = trace g) \/
  exists s, (open_seq entry i (i32 (Z.of_nat k)) r g).1 = Ok (inr s) /\
      trace (open_seq entry i (i32 (Z.of_nat k)) r g).2 = trace g /\ opened_for k s r /\ result_index s = i.
Proof.
  intros Hr Hk. pose proof (proj1 (Forall_lookup _ _) reqs_small i r Hr) as [Hm0 Hm1].
  pose proof (lookup_lt_Some _ _ _ Hr) as Hi. unfold open_seq.
  destruct (tokenize_cases (vocab entry) (prompt_ r) g) as [[what ->]|(toks & Htok & Hsmall)].
  { left. by eexists. }
  rewrite Htok. cbv zeta. rewrite u64_small by (unfold is_u64, two64 in *; lia).
  destruct (Z.ltb_spec ctx (Z.of_nat (length toks) + max_output_tokens_ r)) as [|Hfit]; [left; by eexists|].
  destruct (bool_decide (toks = [])) eqn:Hnil; [left; by eexists|]. apply bool_decide_eq_false in Hnil.
  pose proof (trace_init g) as Hinit. destruct (llama_sampler_chain_init g) as [[smp|] g1]; simpl in Hinit.
  2:{ left. by eexists. }
  right. eexists. split; [done|]. split; [simpl; by rewrite trace_greedy|]. split; [|done].
  split; simpl; try done; [apply i32_small; lia|].
  intros g'. destruct (tokenize_cases (vocab entry) (prompt_ r) g') as [[what Hw]|(toks' & Hw & _)].
  - revert Htok Hw. unfold tokenize_prompt. repeat (destruct (_ <? 0) || destruct (_ =? 0)); done.
  - revert Htok Hw. unfold tokenize_prompt. repeat (destruct (_ <? 0) || destruct (_ =? 0)); by intros [= <-] [= <-].
Qed.

(** After [i] requests. *)
Record open_inv (i : nat) (live : list (@LiveSeq G API)) (results : list InferenceResult) : Prop := {
  oi_length : length results = length reqs;
  oi_few : (length live <= i)%nat;
  oi_result j r x : (j < i)%nat -> reqs !! j = Some r -> results !! j = Some x ->
    settled r x \/ exists s, s ∈ live /\ active s = true /\ result_index s = j;
  oi_seq k s : live !! k = Some s -> exists r, opened_for k s r
}.

Lemma open_inv_fail i live results r x :
  reqs !! i = Some r -> InferenceResult.ok x = false -> open_inv i live results ->
  open_inv (S i) live (<[i := x]> results).
Proof.
  intros Hr Hx [Hl Hf Hres Hseq]. split; [by rewrite length_insert|lia| |done].
  intros j r' y Hj Hr' Hy. apply list_lookup_insert_Some in Hy as [(<- & <- & _)|[Hne Hy]]; [left; by left|].
  apply (Hres j r' y); [lia|done..].
Qed.

Lemma open_inv_push i live results r s :
  reqs !! i = Some r -> opened_for (length live) s r -> result_index s = i -> open_inv i live results ->
  open_inv (S i) (live ++ [s]) results.
Proof.
  intros Hr Hs Hi [Hl Hf Hres Hseq]. split; [done|rewrite length_app; simpl; lia|..].
  - intros j r' y Hj Hr' Hy. destruct (decide (j = i)) as [->|Hne].
    + right. exists s. split; [apply elem_of_app; right; left|]. split; [apply Hs|done].
    + destruct (Hres j r' y) as [?|(s' & Hs' & ?)]; [lia|done..|by left|]. right. exists s'.
      split; [apply elem_of_app; by left|done].
  - intros k s' [Hk|[Hk Hs']]%lookup_app_Some; [by apply Hseq|].
    apply list_lookup_singleton_Some in Hs' as [Hz <-]. exists r. by replace k with (length live) by lia.
Qed.

Lemma open_seqs_spec todo i live results (g : G) :
  drop i reqs = todo -> open_inv i live results ->
  exists live' results' g', open_seqs entry i todo live results g = (Ok (live', results'), g') /\
    trace g' = trace g /\ open_inv (i + length todo) live' results'.
Proof.
  revert i live results g. induction todo as [|r todo IH]; intros i live results g Hd Hinv.
  { exists live, results, g. simpl. by rewrite Nat.add_0_r. }
  assert (Hr : reqs !! i = Some r) by (rewrite <- (Nat.add_0_r i), <- lookup_drop, Hd; done).
  assert (Hd' : drop (S i) reqs = todo).
  { replace (S i) with (i + 1)%nat by lia. by rewrite <- drop_drop, Hd. }
  cbn [open_seqs]. unfold mbind, E_bind at 1. simpl length. rewrite <- Nat.add_succ_comm.
  destruct (open_seq_cases i (length live) r g Hr (oi_few _ _ _ Hinv)) as [(x & Hx & Hok & Htr)|(s & Hs & Htr & Ho & Hi)];
    destruct (open_seq entry i _ r g) as [out g1]; simpl in *; subst out.
  - destruct (IH (S i) live (<[i := x]> results) g1 Hd') as (live' & results' & g' & Hrun & Ht & Hi');
      [by eapply open_inv_fail|]. exists live', results', g'. split; [exact Hrun|]. split; [congruence|done].
  - destruct (IH (S i) (live ++ [s]) results g1 Hd') as (live' & results' & g' & Hrun & Ht & Hi');
      [by eapply open_inv_push|]. exists live', results', g'. split; [exact Hrun|]. split; [congruence|done].
Qed.

(** ** A batch on a loaded model *)

Hypothesis batch_cap : 1 <= cfg_n_batch (model_config entry) < 2147483648.
Hypothesis batch_room : Z.of_nat (length reqs) <= cfg_n_batch (model_config entry).

Lemma opened_ids live k0 :
  (forall k s, live !! k = Some s -> seq_id (API := API) s = Z.of_nat (k0 + k)) -> NoDup (seq_id <$> live).
Proof.
  intros H. apply NoDup_alt. intros i j x Hi Hj. rewrite list_lookup_fmap in Hi, Hj.
  destruct (live !! i) as [si|] eqn:Ei; [|done]. destruct (live !! j) as [sj|] eqn:Ej; [|done].
  simpl in *. injection Hi as <-. injection Hj as Hj. rewrite (H i si Ei), (H j sj Ej) in Hj. lia.
Qed.

Lemma opened_all live results :
  open_inv (length reqs) live results ->
  Forall (opened (API := API) (map prompt_tokens live) ctx) live /\ NoDup (seq_id <$> live) /\
  tracked reqs live results.
Proof.
  intros [Hl Hf Hres Hseq]. split; [|split].
  - apply Forall_lookup. intros k s Hk. destruct (Hseq k s Hk) as [r []].
    pose proof (proj1 (Forall_lookup _ _) reqs_small _ _ of_req0) as [? ?]. pose proof (lookup_lt_Some _ _ _ Hk).
    split; try done; [|lia]. split; try done; try lia.
    + rewrite length_map. lia.
    + unfold prompt_of. rewrite of_id0, Nat2Z.id. rewrite list_lookup_fmap, Hk. done.
  - apply (opened_ids live 0). intros k s Hk. destruct (Hseq k s Hk) as [r []]. done.
  - split; [done|..].
    + intros i r x Hr Hx. apply (Hres i r x); [by eapply lookup_lt_Some|done..].
    + intros s [k Hk]%list_elem_of_lookup. destruct (Hseq k s Hk) as [r []]. by exists r.
Qed.

(** The sequences fed are those of some of the requests. *)
Definition prompts_of (ps : list (list Z)) : Prop :=
  (length ps <= length reqs)%nat /\
  forall p, p ∈ ps -> exists r, r ∈ reqs /\ forall g, tokenize_prompt (vocab entry) (prompt_ r) g = (Ok p, g).

Definition fed_correctly (g g' : G) : Prop :=
  exists ps evs, trace g' = trace g ++ evs /\ prompts_of ps /\
    accepted ps (cfg_n_batch (model_config entry)) ctx evs.

Lemma fed_nothing g g' : trace g' = trace g -> fed_correctly g g'.
Proof.
  intros H. exists [], []. rewrite app_nil_r. split; [done|]. split; [|by eexists].
  split; [simpl; lia|]. by intros p ?%elem_of_nil.
Qed.

Lemma clear_memory_trace (g : G) :
  exists g', clear_memory_locked entry g = (Ok tt, g') /\ trace g' = trace g.
Proof.
  unfold clear_memory_locked, mbind, E_bind, query. destruct (llama_get_memory _ _); eexists; (split; [done|]);
    [apply trace_clear|done].
Qed.

Lemma infer_loaded_spec (g : G) :
  match infer_loaded entry reqs (initial_results (Some <$> reqs)) g with
  | (Ok rs, g') => all_settled reqs rs /\ fed_correctly g g'
  | (Thrown _, g') => fed_correctly g g'
  | (OutOfBounds, _) | (OutOfFuel, _) => False
  end.
Proof.
  unfold infer_loaded. destruct (clear_memory_trace g) as (g1 & Hc & Ht1).
  unfold mbind, E_bind at 1. rewrite Hc.
  destruct (open_seqs_spec reqs 0 [] (initial_results (Some <$> reqs)) g1) as (live & results & g2 & Hrun & Ht2 & Hinv).
  { done. }
  { split; [unfold initial_results; by rewrite length_map, length_fmap|done|lia|done]. }
  unfold E_bind at 1. rewrite Hrun. cbv beta iota zeta. simpl in Hinv.
  destruct (opened_all live results Hinv) as (Hop & Hnd & Htk).
  assert (Hend : forall g3, fed_correctly g g3 ->
    fed_correctly g (clear_memory_locked entry g3).2).
  { intros g3 (ps & evs & Hevs & Hps). destruct (clear_memory_trace g3) as (g4 & -> & Ht4).
    exists ps, evs. simpl. by rewrite Ht4. }
  destruct live as [|s0 live0] eqn:Hlive; cbn [fst snd].
  { split; [|apply Hend, fed_nothing; congruence]. by eapply tracked_idle. }
  rewrite <- Hlive in *.
  assert (Hps : prompts_of (map prompt_tokens live)).
  { split; [rewrite length_map; apply Hinv|]. intros p (s & -> & Hs)%list_elem_of_fmap.
    apply list_elem_of_lookup in Hs as [k Hk]. destruct (oi_seq _ _ _ Hinv k s Hk) as [r Hr].
    exists r. split; [by eapply list_elem_of_lookup_2, Hr|apply Hr]. }
  pose proof (oi_few _ _ _ Hinv) as Hfew.
  assert (Hsafe : safe (acc (map prompt_tokens live) (cfg_n_batch (model_config entry)) ctx (trace g2) start_feed)
    (run_live entry live results)
    (fun rs g => all_settled reqs rs /\ on_record (map prompt_tokens live) (cfg_n_batch (model_config entry)) ctx (trace g2) g)
    (on_record (map prompt_tokens live) (cfg_n_batch (model_config entry)) ctx (trace g2))).
  { apply safe_run_live; try done; [lia|apply i32_small; lia|lia|by rewrite Hlive]. }
  assert (Hrec : forall g3, on_record (map prompt_tokens live) (cfg_n_batch (model_config entry)) ctx (trace g2) g3 ->
    fed_correctly g (clear_memory_locked entry g3).2).
  { intros g3 (st & evs & Hevs & Hst). apply Hend. exists (map prompt_tokens live), evs.
    split; [congruence|]. split; [done|by eexists]. }
  specialize (Hsafe g2). destruct (run_live entry live results g2) as [[rs|e| |] g3]; cbn [fst snd].
  - destruct Hsafe as [Hs Ho]; [by exists []; rewrite app_nil_r|]. split; [done|by apply Hrec].
  - apply Hrec, Hsafe. exists []. by rewrite app_nil_r.
  - destruct Hsafe. exists []. by rewrite app_nil_r.
  - destruct Hsafe. exists []. by rewrite app_nil_r.
Qed.
End opening.

(** ** Backends in service *)

Section service.
Context {G : Type} `{API : !LlamaApi G} `{HO : !HashOrder}.
Implicit Types b : LlamaCppBackend.t G.

(** What a caller can reach from a configuration. *)
Inductive in_service (config : LlamaConfig) : LlamaCppBackend.t G -> Prop :=
  | is_new epoch rt g b : LlamaCppBackend.new epoch rt config g = inr b -> in_service config b
  | is_load b spec : in_service config b -> in_service config (LlamaCppBackend.load spec b).2
  | is_unload b id : in_service config b -> in_service config (LlamaCppBackend.unload id b).2
  | is_infer b reqs : in_service config b -> in_service config (LlamaCppBackend.infer_batch reqs b).2.

(** The configuration is kept, it was validated, and what is loaded is configured. *)
Record service_inv (config : LlamaConfig) b : Prop := {
  sv_config : config_ b = config;
  sv_room id m : LlamaCppBackendConfig.models config !! id = Some m ->
    LlamaCppBackendConfig.max_sequences config <= cfg_n_batch m;
  sv_seqs : 1 <= LlamaCppBackendConfig.max_sequences config;
  sv_loaded id e : loaded_ b !! id = Some e ->
    LlamaCppBackendConfig.models config !! id = Some (model_config e)
}.

Lemma check_models_all n ms :
  Status.ok (LlamaCppBackendConfig.check_models n ms) = true ->
  forall id m, (id, m) ∈ ms -> LlamaCppBackendConfig.check_model n id m = None.
Proof.
  induction ms as [|[id0 m0] ms IH]; simpl; [by intros _ id m ?%elem_of_nil|].
  destruct (LlamaCppBackendConfig.check_model n id0 m0) eqn:E; [done|].
  intros Hok id m [[= -> ->]|Hin]%elem_of_cons; [done|]. by apply IH.
Qed.

Lemma check_model_room n id m :
  LlamaCppBackendConfig.check_model n id m = None -> n <= cfg_n_batch m.
Proof.
  unfold LlamaCppBackendConfig.check_model. do 6 (case_match; [done|]).
  destruct (Z.ltb_spec (cfg_n_batch m) n); [done|]. done.
Qed.

Lemma load_from_config mcfg n (g : G) st e g' :
  load_from mcfg n g = (Ok (st, Some e), g') -> model_config e = mcfg.
Proof.
  unfold load_from, open_model, load_failed, mbind, E_bind, query, ask, effect, clear_memory_locked, mbind, E_bind.
  repeat (case_match; simplify_eq/=; try done); by intros [= <- <- <-].
Qed.

Lemma in_service_inv config b : in_service config b -> service_inv config b.
Proof.
  induction 1 as [epoch [rt|] g b Hnew|b spec _ [H1 H3 H4 H5]|b id _ [H1 H3 H4 H5]|b reqs _ [H1 H3 H4 H5]].
  - unfold LlamaCppBackend.new, LlamaCppBackendConfig.validate in Hnew.
    destruct (Z.ltb_spec (LlamaCppBackendConfig.max_sequences config) 1) as [|Hseq]; [done|].
    destruct (bool_decide _); [done|].
    destruct (Status.ok (LlamaCppBackendConfig.check_models _ _)) eqn:Hok; [|done]. injection Hnew as <-.
    assert (Hall : forall id m, LlamaCppBackendConfig.models config !! id = Some m ->
      LlamaCppBackendConfig.max_sequences config <= cfg_n_batch m).
    { intros id m Hm. eapply check_model_room. eapply check_models_all; [exact Hok|]. by apply elem_of_hash_list. }
    by split.
  - done.
  - unfold LlamaCppBackend.load, LlamaCppBackend.load_locked.
    destruct (LlamaCppBackendConfig.models (config_ b) !! spec_model_id spec) as [mcfg|] eqn:Hm; [|by split].
    destruct (loaded_ b !! spec_model_id spec) as [e|]; [by split|].
    destruct (load_from mcfg _ _) as [[[st [e|]]|ex| |] g] eqn:Hl; simpl; try by split.
    split; try done. simpl. intros id e'. rewrite lookup_insert. destruct (decide (spec_model_id spec = id)) as [<-|Hne]; [|apply H5].
    intros [= <-]. apply load_from_config in Hl as ->. by rewrite <- H1.
  - unfold LlamaCppBackend.unload. destruct (loaded_ b !! id) as [e|]; [|by split]. split; try done. simpl.
    intros id' e'. by intros [_ ?%H5]%lookup_delete_Some.
  - unfold LlamaCppBackend.infer_batch. destruct (infer_batch_locked reqs b (ext_ b)) as [r g]. by split.
Qed.

Lemma all_present_some (reqs : list InferenceRequest.t) : all_present (Some <$> reqs) = Some reqs.
Proof. induction reqs as [|r reqs IH]; [done|]. rewrite fmap_cons. cbn [all_present]. by rewrite IH. Qed.

(** What the backend does with a batch without null members: nothing, or a run
    on the loaded model of its first request. *)
Lemma infer_locked_cases config b reqs :
  service_inv config b -> reqs <> [] ->
  (exists c msg, c <> ENone /\
     infer_batch_locked (Some <$> reqs) b = mret (fail_all (Some <$> reqs) c msg)) \/
  exists first entry, first ∈ reqs /\ loaded_ b !! model_id_ first = Some entry /\
    Z.of_nat (length reqs) <= LlamaCppBackendConfig.max_sequences config /\
    infer_batch_locked (Some <$> reqs) b = infer_loaded entry reqs (initial_results (Some <$> reqs)).
Proof.
  intros Hs Hne. unfold infer_batch_locked. rewrite all_present_some. destruct reqs as [|first rest]; [done|].
  destruct (negb _); [left; do 2 eexists; by (split; [|reflexivity])|]. rewrite length_fmap, (sv_config _ _ Hs).
  destruct (Z.ltb_spec (LlamaCppBackendConfig.max_sequences config) (Z.of_nat (length (first :: rest))));
    [left; do 2 eexists; by (split; [|reflexivity])|].
  destruct (loaded_ b !! model_id_ first) as [entry|] eqn:Hl; [|left; do 2 eexists; by (split; [|reflexivity])].
  right. exists first, entry. split; [left|]. done.
Qed.

Context `{LAWS : !LlamaLaws G} `{TR : !Traced G}.

(** Requests whose token counts do not wrap, on a configuration whose batch
    sizes fit an [int32_t]. *)
Definition sane_requests (reqs : list InferenceRequest.t) : Prop :=
  Forall (fun r => 0 <= max_output_tokens_ r /\ max_output_tokens_ r + 2147483648 <= two64) reqs.

Definition sane_config (config : LlamaConfig) : Prop :=
  forall id m, LlamaCppBackendConfig.models config !! id = Some m -> 0 <= cfg_n_batch m < 2147483648.

Lemma all_settled_forall reqs rs : all_settled reqs rs -> Forall2 settled reqs rs.
Proof.
  intros [Hl H]. apply Forall2_same_length_lookup. split; [done|]. intros i r x Hr Hx. by eapply H.
Qed.

Lemma fail_all_settled reqs c msg :
  c <> ENone -> Forall2 settled reqs (fail_all (Some <$> reqs) c msg).
Proof.
  intros Hc. unfold fail_all. induction reqs as [|r reqs IH]; simpl; [constructor|]. constructor; [|done].
  left. unfold InferenceResult.ok. simpl. unfold Status.ok. simpl. by apply bool_decide_false.
Qed.

Lemma infer_service config b reqs :
  in_service config b -> sane_config config -> sane_requests reqs -> reqs <> [] ->
  exists rs b', LlamaCppBackend.infer_batch (Some <$> reqs) b = (inr rs, b') /\ Forall2 settled reqs rs /\
    (ext_ b' = ext_ b \/ exists first entry, first ∈ reqs /\ loaded_ b !! model_id_ first = Some entry /\
       fed_correctly entry reqs (ext_ b) (ext_ b')).
Proof.
  intros Hin Hc Hr Hne. pose proof (in_service_inv _ _ Hin) as Hs. unfold LlamaCppBackend.infer_batch.
  destruct (infer_locked_cases config b reqs Hs Hne) as [(c & msg & Hcode & ->)|(first & entry & Hf & Hl & Hlen & ->)].
  { do 2 eexists. split; [done|]. split; [by apply fail_all_settled|by left]. }
  pose proof (sv_loaded _ _ Hs _ _ Hl) as Hm. pose proof (sv_room _ _ Hs _ _ Hm) as Hroom.
  pose proof (sv_seqs _ _ Hs) as Hseqs. pose proof (Hc _ _ Hm) as Hcap.
  pose proof (infer_loaded_spec entry reqs Hr ltac:(lia) ltac:(lia) ltac:(lia) (ext_ b)) as Hrun.
  destruct (infer_loaded entry reqs (initial_results (Some <$> reqs)) (ext_ b)) as [[rs|[what|]| |] g]; try done.
  - destruct Hrun as [Hset Hfed]. do 2 eexists. split; [done|]. split; [by apply all_settled_forall|].
    right. by exists first, entry.
  - do 2 eexists. split; [done|]. split; [by apply fail_all_settled|]. right. by exists first, entry.
  - do 2 eexists. split; [done|]. split; [by apply fail_all_settled|]. right. by exists first, entry.
Qed.
End service.

(** Any implementation of the interface can be observed. *)
Definition spied {G} (A : LlamaApi G) : LlamaApi (G * list event) := {|
  llama_model := @llama_model G A;
  llama_context := @llama_context G A;
  llama_vocab := @llama_vocab G A;
  llama_sampler := @llama_sampler G A;
  fs_exists p g := fs_exists p g.1;
  fs_is_regular_file p g := fs_is_regular_file p g.1;
  llama_supports_gpu_offload g := llama_supports_gpu_offload g.1;
  llama_model_load_from_file p n g := let '(m, g1) := llama_model_load_from_file p n g.1 in (m, (g1, g.2));
  llama_model_has_decoder := llama_model_has_decoder;
  llama_model_is_diffusion := llama_model_is_diffusion;
  llama_init_from_model m p g := let '(c, g1) := llama_init_from_model m p g.1 in (c, (g1, g.2));
  llama_model_get_vocab := llama_model_get_vocab;
  llama_get_memory c g := llama_get_memory c g.1;
  llama_memory_clear c g := (llama_memory_clear c g.1, g.2);
  llama_free c g := (llama_free c g.1, g.2);
  llama_model_free m g := (llama_model_free m g.1, g.2);
  llama_tokenize := llama_tokenize;
  llama_token_to_piece := llama_token_to_piece;
  llama_vocab_is_eog := llama_vocab_is_eog;
  llama_sampler_chain_init g := let '(s, g1) := llama_sampler_chain_init g.1 in (s, (g1, g.2));
  llama_sampler_chain_add_greedy s g := (llama_sampler_chain_add_greedy s g.1, g.2);
  llama_sampler_sample s c i g :=
    let '(out, g1) := llama_sampler_sample s c i g.1 in
    (out, (g1, g.2 ++ match out with inr tok => [Sampled i tok] | inl _ => [] end));
  llama_sampler_accept s tok g := (llama_sampler_accept s tok g.1, g.2);
  llama_decode c b g := let '(out, g1) := llama_decode c b g.1 in (out, (g1, g.2 ++ [Decoded (slots_ b)]))
|}.

#[export] Instance spied_traced {G} (A : LlamaApi G) : @Traced _ (spied A).
Proof.
  refine (@Build_Traced _ (spied A) snd _ _ _ _ _ _); simpl; try done.
  - intros c b g. by destruct (llama_decode c b g.1).
  - intros s c i g. by destruct (llama_sampler_sample s c i g.1).
  - intros g. by destruct (llama_sampler_chain_init g.1).
Defined.

#[export] Instance spied_laws {G} (A : LlamaApi G) : @LlamaLaws _ A -> @LlamaLaws _ (spied A).
Proof. intros HL v tok size. apply HL. Qed.

(** A small implementation: a token per character, and as many tokens sampled
    as its state counts down. *)
Definition codes (s : string) : list Z := map (fun c => Z.of_nat (Ascii.nat_of_ascii c)) (String.list_ascii_of_string s).

#[export] Instance toy_llama : LlamaApi nat := {|
  llama_model := unit; llama_context := unit; llama_vocab := unit; llama_sampler := unit;
  fs_exists _ _ := true;
  fs_is_regular_file _ _ := true;
  llama_supports_gpu_offload _ := false;
  llama_model_load_from_file _ _ g := (Some tt, g);
  llama_model_has_decoder _ := true;
  llama_model_is_diffusion _ := false;
  llama_init_from_model _ _ g := (Some tt, g);
  llama_model_get_vocab _ := Some tt;
  llama_get_memory _ _ := true;
  llama_memory_clear _ g := g;
  llama_free _ g := g;
  llama_model_free _ g := g;
  llama_tokenize _ s _ n := if n =? 0 then (- Z.of_nat (String.length s), []) else (Z.of_nat (String.length s), codes s);
  llama_token_to_piece _ _ size := (Z.min 1 size, "x");
  llama_vocab_is_eog _ tok := tok =? 0;
  llama_sampler_chain_init g := (Some tt, g);
  llama_sampler_chain_add_greedy _ g := g;
  llama_sampler_sample _ _ _ g := (inr (Z.of_nat g), Nat.pred g);
  llama_sampler_accept _ _ g := g;
  llama_decode _ _ g := (inr 0, g)
|}.

#[export] Instance toy_laws : LlamaLaws nat.
Proof. intros v tok size Hsize. simpl. lia. Qed.

(** ** The theorems *)

(** C27: The llama.cpp backend settles every batch. For every implementation
    of llama.cpp whose pieces fit their buffers, and a backend in service: a
    batch without null members returns one result per request, each a failure
    or an output of at most the requested number of tokens (at least one).
    No exception escapes, no batch or buffer is accessed out of bounds, and
    every loop ends. *)
Theorem llama_infer_settles {G} `{API : !LlamaApi G} `{!LlamaLaws G} `{!Traced G} `{HO : !HashOrder}
    config (b : LlamaCppBackend.t G) reqs :
  in_service config b -> sane_config config -> sane_requests reqs -> reqs <> [] ->
  exists rs b', LlamaCppBackend.infer_batch (Some <$> reqs) b = (inr rs, b') /\ Forall2 settled reqs rs.
Proof.
  intros Hin Hc Hr Hne. destruct (infer_service config b reqs Hin Hc Hr Hne) as (rs & b' & Hrun & Hs & _).
  by exists rs, b'.
Qed.


(** A null member makes the others succeed with nothing. A batch that
    holds a null pointer is answered without inference, and every other member
    gets [InferenceResult{}]: a success without output, where the synthetic
    backend reports a failure. *)
Theorem llama_null_member_succeeds {G} `{API : !LlamaApi G} (b : LlamaCppBackend.t G) r :
  exists b', LlamaCppBackend.infer_batch [Some r; None] b =
    (inr [mkResult Status.success None; failed InternalError "null request in batch"], b').
Proof. by eexists. Qed.

(** Two prompts share a batch of two tokens at a time. *)
Definition toy_config : LlamaConfig :=
  LlamaCppBackendConfig.mk {["m" := mkModelConfig "m.gguf" 16 2 2 None None None]} 2.

Definition toy_backend : LlamaCppBackend.t (nat * list event) (API := spied toy_llama) :=
  (LlamaCppBackend.load (API := spied toy_llama) (mkSpec "m" 1 1)
     (LlamaCppBackend.mk (API := spied toy_llama) toy_config ∅ (5%nat, []))).2.

Definition toy_requests : list InferenceRequest.t := [InferenceRequest.new "a" "m" "hello" 3; InferenceRequest.new "b" "m" "hi" 8].

Lemma toy_in_service : in_service (API := spied toy_llama) (HO := gmap_order) toy_config toy_backend.
Proof.
  apply (is_load (API := spied toy_llama) (HO := gmap_order)).
  by apply (is_new (API := spied toy_llama) (HO := gmap_order) toy_config 0 (Some tt) (5%nat, [])).
Qed.

Lemma toy_sane : sane_config toy_config /\ sane_requests toy_requests.
Proof.
  split.
  - intros id m. unfold toy_config. simpl. intros [<- <-]%lookup_singleton_Some. simpl. lia.
  - repeat constructor; done.
Qed.

Lemma llama_infer_settles_witness :
  exists rs b', LlamaCppBackend.infer_batch (API := spied toy_llama) (Some <$> toy_requests) toy_backend = (inr rs, b') /\
    Forall2 settled toy_requests rs.
Proof.
  exact (llama_infer_settles (API := spied toy_llama) (HO := gmap_order) toy_config toy_backend toy_requests
    toy_in_service (proj1 toy_sane) (proj2 toy_sane) ltac:(discriminate)).
Defined.


(** The run itself: the prefix in two-token batches, then both sequences
    sampled until one reaches its limit and the other the end of generation. *)
Example toy_run :
  let '(out, b) := LlamaCppBackend.infer_batch (API := spied toy_llama) (Some <$> toy_requests) toy_backend in
  out = inr [InferenceResult.success (mkOutput "xxx" 3); InferenceResult.success (mkOutput "xx" 2)] /\
  length (ext_ b).2 = 12%nat.
Proof. vm_compute. done. Qed.
