(* ===== verification/LlamaLibrary.v ===== *)
(** * The lifetime of the llama library

    [src/llama/llama_backend_runtime.cpp]: [LlamaBackendRuntime] initialises
    the library when it is made and frees it when it is destroyed. [main] makes
    one, hands a [shared_ptr] to it to every backend it constructs
    ([LlamaCppBackend::Impl::runtime]) and lets go of its own. The state is the
    set of the pointers and the calls of the library in their order. *)

From S2P Require Import Prelude Llama.
From stdpp Require Import relations.

Module LlamaBackendRuntime.

(** The calls of the library; [backend_call b] is any call of backend [b]. *)
Inductive library_call := ggml_backend_load_all | llama_backend_init | llama_backend_free | backend_call (b : nat).

(** Who holds a [shared_ptr]: the variable of [main], or a backend. *)
Inductive owner := Local | Backend (b : nat).

#[export] Instance owner_eq_dec : EqDecision owner.
Proof. solve_decision. Defined.
#[export] Instance owner_countable : Countable owner.
Proof.
  refine (inj_countable' (fun o => match o with Local => None | Backend b => Some b end)
    (fun o => match o with None => Local | Some b => Backend b end) _).
  by intros [].
Defined.

Record t := mk { calls : list library_call; owners : gset owner }.

(** The constructor, and [create]. *)
Definition new : list library_call := [ggml_backend_load_all; llama_backend_init].
Definition create : t := mk new {[Local]}.

(** [~LlamaBackendRuntime] *)
Definition destroy (l : list library_call) : list library_call := l ++ [llama_backend_free].

(** A copy of the pointer, for backend [b]. *)
Definition share (b : nat) (s : t) : t := mk (calls s) ({[Backend b]} ∪ owners s).

(** A backend at work. *)
Definition use (b : nat) (s : t) : t := mk (calls s ++ [backend_call b]) (owners s).

(** A pointer is given up; the last one destroys the object. *)
Definition release (o : owner) (s : t) : t :=
  let rest := owners s ∖ {[o]} in
  mk (if decide (rest = ∅) then destroy (calls s) else calls s) rest.

(** Backends are constructed from a pointer that is there, work while they
    have theirs, and give it up when they are destroyed, after the models they
    loaded ([runtime] is the first member of [Impl], so the last destroyed). *)
Inductive step (s : t) : t -> Prop :=
  | step_share b : Local ∈ owners s -> Backend b ∉ owners s -> step s (share b s)
  | step_use b : Backend b ∈ owners s -> step s (use b s)
  | step_release o : o ∈ owners s -> step s (release o s).

Definition reachable (s : t) : Prop := rtc step create s.

(** [main]: one backend per worker, then the variable goes out of scope. *)
Definition main_shares (count : nat) : t := release Local (foldr share create (seq 0 count)).

(** [~Runtime] destroys the workers and their backends, in order. *)
Definition destroy_workers (count : nat) (s : t) : t := foldl (fun s b => release (Backend b) s) s (seq 0 count).

Definition llama_runtime_supports_gpu_offload {G} `{!LlamaApi G} (g : G) : bool := llama_supports_gpu_offload g.

(** ** The library is there while it is used *)

Definition is_use (c : library_call) : bool := match c with backend_call _ => true | _ => false end.

(** First the initialisation, then the work of backends, then, when nobody
    holds the object any more, the end. *)
Definition orderly (s : t) : Prop :=
  exists work, forallb is_use work = true /\
    calls s = new ++ work ++ (if decide (owners s = ∅) then [llama_backend_free] else []).

Lemma orderly_create : orderly create.
Proof. exists []. split; [done|]. simpl. by rewrite decide_False. Qed.

Lemma orderly_held s work o : o ∈ owners s ->
  calls s = new ++ work ++ (if decide (owners s = ∅) then [llama_backend_free] else []) -> calls s = new ++ work.
Proof. intros Ho. rewrite decide_False by set_solver. by rewrite app_nil_r. Qed.

Lemma orderly_release s o : o ∈ owners s -> orderly s -> orderly (release o s).
Proof.
  intros Ho (work & Hw & Hc). pose proof (orderly_held s work o Ho Hc) as Hc'. exists work. split; [done|].
  unfold release, destroy. simpl. destruct (decide (owners s ∖ {[o]} = ∅)); rewrite Hc'; [done|by rewrite app_nil_r].
Qed.

Lemma orderly_share s b : Local ∈ owners s -> orderly s -> orderly (share b s).
Proof.
  intros Ho (work & Hw & Hc). exists work. split; [done|]. simpl. rewrite decide_False by set_solver.
  by rewrite (orderly_held s work Local Ho Hc), app_nil_r.
Qed.

Lemma step_orderly s s' : orderly s -> step s s' -> orderly s'.
Proof.
  intros Hs [b Ho _|b Ho|o Ho]; [by apply orderly_share| |by apply orderly_release].
  destruct Hs as (work & Hw & Hc). exists (work ++ [backend_call b]). split; [by rewrite forallb_app, Hw|].
  simpl. rewrite decide_False by set_solver. rewrite (orderly_held s work _ Ho Hc), app_nil_r. by rewrite <- app_assoc.
Qed.

Lemma main_shares_owners count : owners (main_shares count) = list_to_set (Backend <$> seq 0 count).
Proof.
  unfold main_shares. simpl. assert (H : forall l, owners (foldr share create l) = list_to_set (Backend <$> l) ∪ {[Local]}).
  { induction l as [|b l IH]; csimpl; [set_solver|]. rewrite IH. set_solver. }
  rewrite H. apply set_eq. intros o. rewrite elem_of_difference, elem_of_union, !elem_of_list_to_set, elem_of_singleton.
  split; [tauto|]. intros Hin. split; [by left|]. apply list_elem_of_fmap in Hin as (b & -> & _). done.
Qed.

Lemma main_shares_run count : rtc step create (main_shares count).
Proof.
  unfold main_shares. assert (H : forall l, NoDup l -> rtc step create (foldr share create l) /\
    forall o, o ∈ owners (foldr share create l) <-> o = Local \/ exists b, o = Backend b /\ b ∈ l).
  { induction 1 as [|b l Hb _ [IH Ho]]; simpl.
    - split; [done|]. set_solver.
    - split.
      + eapply rtc_r; [exact IH|]. apply step_share; [apply Ho; by left|]. intros [?|(b' & [= <-] & ?)]%Ho; done.
      + intros o. rewrite elem_of_union, elem_of_singleton, Ho. set_solver. }
  destruct (H (seq 0 count) (NoDup_seq 0 count)) as [Hrun Ho]. eapply rtc_r; [exact Hrun|]. apply step_release, Ho. by left.
Qed.

Lemma destroy_owners l s :
  NoDup l -> owners s = list_to_set (Backend <$> l) -> orderly s ->
  orderly (foldl (fun s b => release (Backend b) s) s l) /\ owners (foldl (fun s b => release (Backend b) s) s l) = ∅.
Proof.
  intros Hnd. revert s. induction Hnd as [|b l Hb Hnd IH]; intros s Ho Hs; [done|]. simpl. apply IH.
  - simpl. rewrite Ho. csimpl. apply set_eq. intros o.
    rewrite elem_of_difference, elem_of_union, !elem_of_singleton, elem_of_list_to_set. split; [tauto|]. intros Hin.
    split; [by right|]. intros ->. apply list_elem_of_fmap in Hin as (b' & [= <-] & ?). done.
  - apply orderly_release; [|done]. rewrite Ho. csimpl. set_solver.
Qed.

(** The library is initialised before the first call of a backend and freed
    after the last one, once: in every state the calls are the initialisation,
    calls of backends, and the end exactly when no pointer is left. With at
    least one worker it is still there when [main] has let go of its pointer,
    and the destruction of the workers frees it. *)
Theorem library_outlives_backends s count :
  reachable s -> orderly s /\
  ((0 < count)%nat -> ~ In llama_backend_free (calls (main_shares count))) /\
  exists work, calls (destroy_workers count (main_shares count)) = new ++ work ++ [llama_backend_free] /\
    forallb is_use work = true.
Proof.
  assert (Hall : forall s, reachable s -> orderly s).
  { intros s0 Hrun. unfold reachable in Hrun. pose proof orderly_create as Hc. induction Hrun; [done|]. eauto using step_orderly. }
  intros Hs. split; [by apply Hall|]. pose proof (main_shares_owners count) as Ho.
  pose proof (Hall _ (main_shares_run count)) as Hm. split.
  - intros Hpos. destruct Hm as (work & Hw & ->). rewrite decide_False.
    + rewrite app_nil_r. intros [?|[?|Hin]]; [done|done|]. rewrite forallb_forall in Hw. by specialize (Hw _ Hin).
    + rewrite Ho. destruct count; [lia|]. csimpl. set_solver.
  - destruct (destroy_owners (seq 0 count) _ (NoDup_seq 0 count) Ho Hm) as [(work & Hw & Hc) He].
    exists work. split; [|done]. unfold destroy_workers. by rewrite Hc, decide_True.
Qed.

End LlamaBackendRuntime.
