(* ===== verification/Handler.v ===== *)
(** * The request handler

    [include/airuntime/serving/request_handler.hpp] and
    [src/serving/request_handler.cpp]: the JSON front end. The JSON library
    is not part of the runtime: [json] is the type of its values, and the
    class [JsonLib] its parser and printer, both of which may fail. *)

From stdpp Require Import pretty.
From S2P Require Import Prelude Status Requests World Queue Registry Resources Eviction Backends.
From S2P Require Import Manager Router Batch Scheduler Admission Worker Runtime.
Import InferenceRequest.

(** ** JSON values *)

(** Numbers keep the kind the library gives them; objects are ordered by
    key. *)
Inductive json :=
  | JNull
  | JBool (b : bool)
  | JInt (z : Z)
  | JUnsigned (z : Z)
  | JFloat (repr : string)
  | JString (s : string)
  | JArray (l : list json)
  | JObject (fields : list (string * json)).

(** [j[key]] on an object, and [j[key] = v]. *)
Fixpoint obj_get (key : string) (fs : list (string * json)) : option json :=
  match fs with
  | [] => None
  | (k, v) :: fs => if bool_decide (k = key) then Some v else obj_get key fs
  end.

Fixpoint obj_set (key : string) (v : json) (fs : list (string * json)) : list (string * json) :=
  match fs with
  | [] => [(key, v)]
  | (k, u) :: fs' =>
      if bool_decide (k = key) then (key, v) :: fs'
      else if str_ltb key k then (key, v) :: fs else (k, u) :: obj_set key v fs'
  end.

(** The assignments [body[k1] = v1; body[k2] = v2; ...] to an empty value. *)
Definition obj (assignments : list (string * json)) : json :=
  JObject (foldl (fun fs kv => obj_set kv.1 kv.2 fs) [] assignments).

(** [json::parse], with what the exception says, and [dump], which throws on
    strings that are not UTF-8. *)
Class JsonLib := {
  json_parse : string -> string + json;
  json_dump : json -> exn + string
}.

(** The integers of a parsed value fit the library's 64-bit types. *)
Fixpoint numbers_fit (j : json) : Prop :=
  match j with
  | JInt z => - 9223372036854775808 <= z < 9223372036854775808
  | JUnsigned z => 0 <= z < two64
  | JArray l => (fix go l := match l with [] => True | j :: l => numbers_fit j /\ go l end) l
  | JObject fs => (fix go fs := match fs with [] => True | kv :: fs => numbers_fit kv.2 /\ go fs end) fs
  | _ => True
  end.

Class JsonLaws `{JsonLib} : Prop :=
  parse_numbers s j : json_parse s = inr j -> numbers_fit j.

(** ** Requests *)

Record InferRequestSpec := mkInferSpec {
  is_model_id : string;
  is_prompt : string;
  is_max_output_tokens : Z;
  is_timeout : Z
}.

Record HandlerResponse := mkResponse { status_code : Z; content_type : string; body : string }.

Module RequestHandler.

Definition kMaxOutputTokensDefault : Z := 16.
Definition kMaxOutputTokensMin : Z := 1.
Definition kMaxOutputTokensMax : Z := 4096.
Definition kTimeoutMsDefault : Z := 30000.
Definition kTimeoutMsMin : Z := 1.
Definition kTimeoutMsMax : Z := 300000.

(** The handler's own state. *)
Record t := mk { next_id_ : Z }.

Definition new : t := mk 1.

Definition next_request_id (h : t) : string * t :=
  ("req-" +:+ pretty (Z.to_N (next_id_ h)), mk (next_id_ h +! 1)).

Definition state_to_string (s : RequestState) : string :=
  match s with
  | Received => "Received" | Queued => "Queued" | Running => "Running"
  | Completed => "Completed" | Rejected => "Rejected" | Failed => "Failed"
  | Cancelled => "Cancelled" | TimedOut => "TimedOut"
  end.

Definition error_code_to_string (c : ErrorCode) : string :=
  match c with
  | ENone => "None"
  | InvalidStateTransition => "InvalidStateTransition"
  | QueueFull => "QueueFull"
  | QueueClosed => "QueueClosed"
  | ModelNotFound => "ModelNotFound"
  | ModelLoadFailed => "ModelLoadFailed"
  | InferenceFailed => "InferenceFailed"
  | RuntimeStopped => "RuntimeStopped"
  | InternalError => "InternalError"
  | InsufficientMemory => "InsufficientMemory"
  | NoFeasibleWorker => "NoFeasibleWorker"
  | ECancelled => "Cancelled"
  | ETimedOut => "TimedOut"
  | ContextLengthExceeded => "ContextLengthExceeded"
  end.

(** *** Parsing *)

Definition known_field (key : string) : bool :=
  bool_decide (key = "model_id") || bool_decide (key = "prompt") ||
  bool_decide (key = "max_output_tokens") || bool_decide (key = "timeout_ms").

(** The first field the handler does not know. *)
Fixpoint unknown_field (fs : list (string * json)) : option string :=
  match fs with
  | [] => None
  | (k, _) :: fs => if known_field k then unknown_field fs else Some k
  end.

Definition string_field (key : string) (fs : list (string * json)) : option string :=
  match obj_get key fs with Some (JString s) => Some s | _ => None end.

(** [is_number_integer] and [get<std::int64_t>]. *)
Definition get_int64 (j : json) : option Z :=
  match j with JInt z => Some z | JUnsigned z => Some (i64 z) | _ => None end.

(** An optional integer field with its default and range. *)
Definition int_field (key : string) (default lo hi : Z) (fs : list (string * json)) : string + Z :=
  match obj_get key fs with
  | None => inr default
  | Some j =>
      match get_int64 j with
      | None => inl (key +:+ " must be an integer")
      | Some v => if (v <? lo) || (hi <? v) then inl (key +:+ " out of range") else inr v
      end
  end.

Definition parse_fields (fs : list (string * json)) : string + InferRequestSpec :=
  match unknown_field fs with
  | Some key => inl ("unknown field: " +:+ key)
  | None =>
  match string_field "model_id" fs with
  | None => inl "model_id is required"
  | Some model_id =>
  match string_field "prompt" fs with
  | None => inl "prompt is required"
  | Some prompt =>
  if bool_decide (model_id = "") then inl "model_id must be non-empty" else
  if bool_decide (prompt = "") then inl "prompt must be non-empty" else
  match int_field "max_output_tokens" kMaxOutputTokensDefault kMaxOutputTokensMin kMaxOutputTokensMax fs with
  | inl msg => inl msg
  | inr tokens =>
  match int_field "timeout_ms" kTimeoutMsDefault kTimeoutMsMin kTimeoutMsMax fs with
  | inl msg => inl msg
  | inr timeout => inr (mkInferSpec model_id prompt tokens timeout)
  end end end end end.

Definition parse_infer_request `{JsonLib} (text : string) : string + InferRequestSpec :=
  match json_parse text with
  | inl what => inl what
  | inr (JObject fs) => parse_fields fs
  | inr _ => inl "request body must be a JSON object"
  end.

(** *** Responses *)

(** The [output] and [error] members. *)
Definition outcome_members (snap : RequestSnapshot) : list (string * json) :=
  match snap_state snap, snap_result snap with
  | Completed, Some (mkResult _ (Some o)) =>
      [("output", obj [("text", JString (text o)); ("output_tokens", JUnsigned (output_tokens o))]);
       ("error", JNull)]
  | _, _ =>
      [("output", JNull);
       ("error", match snap_result snap with
                 | Some res =>
                     if negb (Status.ok (status res))
                     then obj [("code", JString (error_code_to_string (code (status res))));
                               ("message", JString (message (status res)))]
                     else JNull
                 | None => JNull
                 end)]
  end.

Definition infer_response_json (snap : RequestSnapshot) : json :=
  obj ([("request_id", JString (snap_request_id snap)); ("model_id", JString (snap_model_id snap));
        ("state", JString (state_to_string (snap_state snap)))] ++ outcome_members snap).

Definition state_event_json (snap : RequestSnapshot) : json :=
  obj [("event", JString "state"); ("request_id", JString (snap_request_id snap));
       ("state", JString (state_to_string (snap_state snap)))].

Definition terminal_event_json (snap : RequestSnapshot) : json :=
  obj ([("event", JString "terminal"); ("request_id", JString (snap_request_id snap));
        ("model_id", JString (snap_model_id snap)); ("state", JString (state_to_string (snap_state snap)))]
       ++ outcome_members snap).

Definition http_status_for_snapshot (snap : RequestSnapshot) : Z :=
  if bool_decide (snap_state snap = Completed) then 200 else
  if bool_decide (snap_state snap = Cancelled) then 409 else
  if bool_decide (snap_state snap = TimedOut) then 504 else
  match snap_result snap with
  | None => 500
  | Some res =>
      match code (status res) with
      | ModelNotFound => 404
      | ContextLengthExceeded => 400
      | QueueFull | RuntimeStopped | NoFeasibleWorker | InsufficientMemory => 503
      | _ => 500
      end
  end.

Definition newline : string := String (Ascii.ascii_of_nat 10) "".

Section printing.
Context `{!JsonLib}.

Definition serialize_infer_response (snap : RequestSnapshot) : exn + HandlerResponse :=
  match json_dump (infer_response_json snap) with
  | inl e => inl e
  | inr s => inr (mkResponse (http_status_for_snapshot snap) "application/json" s)
  end.

Definition line_of (j : json) : exn + string :=
  match json_dump j with inl e => inl e | inr s => inr (s +:+ newline) end.

Definition serialize_state_event (snap : RequestSnapshot) : exn + string := line_of (state_event_json snap).
Definition serialize_terminal_event (snap : RequestSnapshot) : exn + string := line_of (terminal_event_json snap).
End printing.

(** *** [GET] *)

Section get.
Context {S R B : Type} {n : nat}.
Notation X := (Runtime.t S R B n).
Context `{!Shared X} `{!IRequestScheduler X} `{!IWorkerRouter R} `{!IModelBackend B} `{HO : !HashOrder}.
Context `{!JsonLib}.

Definition dump (j : json) : M X string :=
  match json_dump j with inl e => throw e | inr s => mret s end.

Definition respond (code : Z) (j : json) : M X HandlerResponse :=
  s ← dump j; mret (mkResponse code "application/json" s).

Definition handle_health (epoch : nat) : M X HandlerResponse :=
  healthy ← Runtime.is_healthy epoch;
  if (healthy : bool) then respond 200 (obj [("status", JString "healthy")]) else
  acc ← Runtime.is_accepting;
  if negb acc then respond 503 (obj [("status", JString "shutting_down")])
  else respond 503 (obj [("status", JString "unhealthy")]).

Definition model_json (m : ModelRuntimeSnapshot) : json :=
  obj [("model_id", JString (spec_model_id (ms_spec m)));
       ("estimated_memory_bytes", JUnsigned (spec_memory_bytes (ms_spec m)));
       ("estimated_load_cost", JUnsigned (spec_load_cost (ms_spec m)));
       ("resident_worker_ids", JArray (map JUnsigned (resident_worker_ids m)))].

Definition batch_metrics_json (m : WorkerBatchMetrics) : json :=
  obj [("batches_executed", JUnsigned (batches_executed m));
       ("requests_executed_via_batches", JUnsigned (requests_executed_via_batches m));
       ("multi_request_batches", JUnsigned (multi_request_batches m));
       ("max_batch_size_observed", JUnsigned (max_batch_size_observed m))].

Definition residency_metrics_json (m : ModelManager.ResidencyMetrics) : json :=
  obj [("loads", JUnsigned (ModelManager.loads m)); ("reloads", JUnsigned (ModelManager.reloads m));
       ("evictions", JUnsigned (ModelManager.evictions m));
       ("residency_hits", JUnsigned (ModelManager.residency_hits m));
       ("residency_misses", JUnsigned (ModelManager.residency_misses m))].

Definition worker_json (w : WorkerRuntimeSnapshot) : json :=
  let s := ws_worker w in
  obj [("worker_id", JUnsigned (worker_id s)); ("queue_depth", JUnsigned (queue_depth s));
       ("queue_capacity", JUnsigned (queue_capacity s)); ("active_count", JUnsigned (active_count s));
       ("accepting", JBool (accepting s)); ("memory_budget_bytes", JUnsigned (memory_budget_bytes s));
       ("memory_used_bytes", JUnsigned (memory_used_bytes s));
       ("resident_model_ids", JArray (map JString (resident_model_ids s)));
       ("batch_metrics", batch_metrics_json (ws_batch_metrics w));
       ("residency_metrics", residency_metrics_json (ws_residency_metrics w))].

Definition worker_metrics_json (w : WorkerRuntimeSnapshot) : json :=
  let s := ws_worker w in
  obj [("worker_id", JUnsigned (worker_id s)); ("queue_depth", JUnsigned (queue_depth s));
       ("active_count", JUnsigned (active_count s)); ("memory_budget_bytes", JUnsigned (memory_budget_bytes s));
       ("memory_used_bytes", JUnsigned (memory_used_bytes s));
       ("batch_metrics", batch_metrics_json (ws_batch_metrics w));
       ("residency_metrics", residency_metrics_json (ws_residency_metrics w))].

Definition runtime_json (s : RuntimeSnapshot) : json :=
  obj [("accepting", JBool (rs_accepting s)); ("started", JBool (rs_started s));
       ("scheduler_depth", JUnsigned (rs_scheduler_depth s));
       ("scheduler_capacity", JUnsigned (rs_scheduler_capacity s));
       ("worker_count", JUnsigned (rs_worker_count s));
       ("workers", JArray (map worker_json (rs_workers s)))].

Definition metrics_json (s : MetricsSnapshot) : json :=
  obj [("scheduler_depth", JUnsigned (mx_scheduler_depth s));
       ("scheduler_capacity", JUnsigned (mx_scheduler_capacity s));
       ("workers", JArray (map worker_metrics_json (mx_workers s)))].

Definition quote : string := String (Ascii.ascii_of_nat 34) "".

(** [{"error":"..."}], assembled from strings. *)
Definition error_body (msg : string) : string :=
  "{" +:+ quote +:+ "error" +:+ quote +:+ ":" +:+ quote +:+ msg +:+ quote +:+ "}".

Definition handle_get (epoch : nat) (target : string) : M X HandlerResponse :=
  if bool_decide (target = "/health") then handle_health epoch else
  if bool_decide (target = "/v1/models") then
    models ← Runtime.model_snapshots epoch;
    respond 200 (obj [("models", JArray (map model_json models))])
  else if bool_decide (target = "/v1/runtime") then
    snap ← Runtime.snapshot epoch; respond 200 (runtime_json snap)
  else if bool_decide (target = "/metrics") then
    snap ← Runtime.metrics_snapshot epoch; respond 200 (metrics_json snap)
  else mret (mkResponse 404 "application/json" (error_body "not found")).
End get.
End RequestHandler.
Import RequestHandler.

(** ** Request ids *)

(** [k] calls of [next_request_id]. *)
Fixpoint ids (k : nat) (h : RequestHandler.t) : list string :=
  match k with
  | O => []
  | S k => let '(id, h) := next_request_id h in id :: ids k h
  end.

(** ** Bodies of inference requests *)

(** The integer a JSON number denotes. *)
Definition json_integer (j : json) : option Z :=
  match j with JInt z | JUnsigned z => Some z | _ => None end.

Definition in_field (key : string) (default lo hi : Z) (fs : list (string * json)) (v : Z) : Prop :=
  match obj_get key fs with
  | None => v = default
  | Some j => json_integer j = Some v /\ lo <= v <= hi
  end.

(** What a body has to be, and the request it stands for. *)
Record valid_body (fs : list (string * json)) (spec : InferRequestSpec) : Prop := {
  vb_fields k v : (k, v) ∈ fs -> k ∈ ["model_id"; "prompt"; "max_output_tokens"; "timeout_ms"];
  vb_model : obj_get "model_id" fs = Some (JString (is_model_id spec)) /\ is_model_id spec <> "";
  vb_prompt : obj_get "prompt" fs = Some (JString (is_prompt spec)) /\ is_prompt spec <> "";
  vb_tokens : in_field "max_output_tokens" 16 1 4096 fs (is_max_output_tokens spec);
  vb_timeout : in_field "timeout_ms" 30000 1 300000 fs (is_timeout spec)
}.

Lemma known_field_spec k :
  known_field k = true <-> k ∈ ["model_id"; "prompt"; "max_output_tokens"; "timeout_ms"].
Proof.
  unfold known_field. rewrite !orb_true_iff, !bool_decide_eq_true.
  rewrite !elem_of_cons, elem_of_nil. tauto.
Qed.

Lemma unknown_field_none fs : unknown_field fs = None <-> forall k v, (k, v) ∈ fs -> known_field k = true.
Proof.
  induction fs as [|[k v] fs IH]; simpl.
  { split; [by intros _ k v ?%elem_of_nil|done]. }
  destruct (known_field k) eqn:E.
  - rewrite IH. split; [|intros H k' v' Hin; by apply (H k' v'); right].
    intros H k' v' [[= -> ->]|Hin]%elem_of_cons; [done|by eapply H].
  - split; [done|]. intros H. rewrite (H k v) in E; [done|left].
Qed.

Lemma string_field_some key fs s : string_field key fs = Some s <-> obj_get key fs = Some (JString s).
Proof. unfold string_field. destruct (obj_get key fs) as [[]|]; split; congruence. Qed.

Lemma numbers_fit_field key fs j : numbers_fit (JObject fs) -> obj_get key fs = Some j -> numbers_fit j.
Proof.
  induction fs as [|[k v] fs IH]; [done|]. intros [Hv Hfs]. simpl. destruct (bool_decide _); [by intros [= <-]|].
  by apply IH.
Qed.

(** Conversion to [std::int64_t] does not let a number back into a range of
    small positive values. *)
Lemma int_field_spec key default lo hi fs v :
  numbers_fit (JObject fs) -> 0 <= lo -> hi < 9223372036854775808 ->
  int_field key default lo hi fs = inr v <-> in_field key default lo hi fs v.
Proof.
  intros Hfit Hlo Hhi. unfold int_field, in_field. destruct (obj_get key fs) as [j|] eqn:Hj; [|split; congruence].
  apply numbers_fit_field in Hj; [|done].
  assert (Hcase : forall z, (if (z <? lo) || (hi <? z) then inl (key +:+ " out of range") else inr z) = inr v <->
    z = v /\ lo <= v <= hi).
  { intros z. destruct (Z.ltb_spec z lo), (Z.ltb_spec hi z); simpl; (split; [intros H'|intros [? ?]]); try done;
      try lia; [injection H' as ->; lia|congruence]. }
  destruct j; simpl in *; try (split; [done|by intros []]).
  - rewrite Hcase. split; intros [H ?]; (split; [congruence|done]).
  - rewrite Hcase. destruct (Z.lt_ge_cases z 9223372036854775808) as [Hz|Hz].
    + rewrite i64_small by lia. split; intros [H ?]; (split; [congruence|done]).
    + assert (i64 z < 0).
      { unfold i64, two64 in *. rewrite <- (Z.mod_add _ (-1)) by lia. rewrite Z.mod_small by lia. lia. }
      split; [lia|]. intros [[= <-] ?]. lia.
Qed.

Lemma parse_fields_spec fs spec :
  numbers_fit (JObject fs) -> parse_fields fs = inr spec <-> valid_body fs spec.
Proof.
  intros Hfit. unfold parse_fields. split.
  - destruct (unknown_field fs) eqn:Hu; [done|]. destruct (string_field "model_id" fs) as [m|] eqn:Hm; [|done].
    destruct (string_field "prompt" fs) as [p|] eqn:Hp; [|done].
    destruct (bool_decide (m = "")) eqn:Hm0; [done|]. destruct (bool_decide (p = "")) eqn:Hp0; [done|].
    destruct (int_field "max_output_tokens" _ _ _ fs) as [|tok] eqn:Ht; [done|].
    destruct (int_field "timeout_ms" _ _ _ fs) as [|tm] eqn:Htm; [done|]. intros [= <-].
    apply bool_decide_eq_false in Hm0, Hp0. apply string_field_some in Hm, Hp.
    apply int_field_spec in Ht, Htm; [|done..]. split; try done.
    intros k v Hin. apply known_field_spec. by eapply unknown_field_none.
  - intros [Hf [Hm Hm0] [Hp Hp0] Ht Htm].
    rewrite (proj2 (unknown_field_none fs)) by (intros k v Hin; apply known_field_spec; by eapply Hf).
    rewrite (proj2 (string_field_some _ _ _) Hm), (proj2 (string_field_some _ _ _) Hp).
    rewrite !bool_decide_false by done.
    rewrite (proj2 (int_field_spec "max_output_tokens" kMaxOutputTokensDefault kMaxOutputTokensMin
      kMaxOutputTokensMax fs _ Hfit ltac:(done) ltac:(done)) Ht).
    rewrite (proj2 (int_field_spec "timeout_ms" kTimeoutMsDefault kTimeoutMsMin kTimeoutMsMax fs _ Hfit
      ltac:(done) ltac:(done)) Htm). by destruct spec.
Qed.

(** C29: Exactly the documented bodies are accepted. An inference request is
    built from a body if and only if it parses to an object that has no
    unknown field, a non-empty [model_id] and [prompt], and, where they are
    given, an integer [max_output_tokens] between 1 and 4096 and an integer
    [timeout_ms] between 1 and 300000; the request carries those values and
    the defaults for what is absent. *)
Theorem infer_body_accepted `{!JsonLib} `{!JsonLaws} text spec :
  parse_infer_request text = inr spec <->
  exists fs, json_parse text = inr (JObject fs) /\ valid_body fs spec.
Proof.
  unfold parse_infer_request. destruct (json_parse text) as [what|j] eqn:Hp.
  { split; [done|by intros (fs & ? & _)]. }
  pose proof (parse_numbers text j Hp) as Hfit.
  destruct j as [| | | | | | |fs]; try (split; [done|intros (fs & ? & _); congruence]).
  rewrite parse_fields_spec by done. split; [by exists fs|]. by intros (fs' & [= <-] & Hv).
Qed.

(** A library that knows one document. *)
Definition demo_fields : list (string * json) :=
  [("max_output_tokens", JUnsigned 8); ("model_id", JString "m"); ("prompt", JString "hi")].

Definition demo_json : JsonLib := {|
  json_parse s := if bool_decide (s = "demo") then inr (JObject demo_fields) else inl "parse error";
  json_dump _ := inr "{}"
|}.

Lemma demo_json_laws : @JsonLaws demo_json.
Proof. intros s j. simpl. destruct (bool_decide _); [|done]. intros [= <-]. simpl. unfold two64. repeat split; lia. Qed.

Lemma infer_body_accepted_witness :
  exists fs, @json_parse demo_json "demo" = inr (JObject fs) /\ valid_body fs (mkInferSpec "m" "hi" 8 30000).
Proof.
  apply (proj1 (@infer_body_accepted demo_json demo_json_laws "demo" (mkInferSpec "m" "hi" 8 30000))).
  reflexivity.
Defined.

(** ** Responses *)

Definition member (key : string) (j : json) : option json :=
  match j with JObject fs => obj_get key fs | _ => None end.

Lemma state_to_string_inj s s' : state_to_string s = state_to_string s' -> s = s'.
Proof. by destruct s, s'. Qed.

Definition error_json (e : Status) : json :=
  obj [("code", JString (error_code_to_string (code e))); ("message", JString (message e))].

Definition output_json (o : InferenceOutput) : json :=
  obj [("text", JString (text o)); ("output_tokens", JUnsigned (output_tokens o))].

Lemma response_members snap :
  let j := infer_response_json snap in
  member "request_id" j = Some (JString (snap_request_id snap)) /\
  member "model_id" j = Some (JString (snap_model_id snap)) /\
  member "state" j = Some (JString (state_to_string (snap_state snap))) /\
  member "output" j = obj_get "output" (outcome_members snap) /\
  member "error" j = obj_get "error" (outcome_members snap).
Proof.
  unfold infer_response_json, outcome_members.
  destruct (snap_state snap), (snap_result snap) as [[st [o|]]|]; repeat split.
Qed.

Lemma terminal_event_members snap key :
  key ∈ ["request_id"; "model_id"; "state"; "output"; "error"] ->
  member key (terminal_event_json snap) = member key (infer_response_json snap).
Proof.
  unfold terminal_event_json, infer_response_json, outcome_members. intros Hkey.
  destruct (snap_state snap), (snap_result snap) as [[st [o|]]|];
    repeat (apply elem_of_cons in Hkey as [->|Hkey]; [reflexivity|]); by apply elem_of_nil in Hkey.
Qed.

Lemma http_status_200 snap : http_status_for_snapshot snap = 200 <-> snap_state snap = Completed.
Proof.
  unfold http_status_for_snapshot. case_bool_decide as Hc; [done|]. split; [|done].
  do 2 (case_bool_decide; [done|]). destruct (snap_result snap) as [res|]; [|done]. by destruct (code (status res)).
Qed.

(** C30: A response reports what became of the request. For every history of
    operations on a request that has ended: the body names the request, its
    model and its final state; the HTTP status is 200 exactly for a completed
    request; a completed request with an output reports its text and token
    count and no error; any other ended request reports no output and, when
    its status is an error, that error's code and message. The terminal event
    of a stream has the same members. *)
Theorem response_reports_outcome id model prompt tokens os :
  Forall caller_op os ->
  let r := (run_ops os (InferenceRequest.new id model prompt tokens)).1 in
  let snap := InferenceRequest.snapshot r in
  let j := infer_response_json snap in
  is_terminal r = true ->
  member "request_id" j = Some (JString id) /\ member "model_id" j = Some (JString model) /\
  (forall s, member "state" j = Some (JString (state_to_string s)) <-> s = state_ r) /\
  (http_status_for_snapshot snap = 200 <-> state_ r = Completed) /\
  (forall res o, state_ r = Completed -> result_ r = Some res -> output res = Some o ->
     member "output" j = Some (output_json o) /\ member "error" j = Some JNull) /\
  (state_ r <> Completed -> member "output" j = Some JNull /\
     exists e, result_ r = Some (InferenceResult.failure e) /\
       (Status.ok e = false -> member "error" j = Some (error_json e))) /\
  (forall key, key ∈ ["request_id"; "model_id"; "state"; "output"; "error"] ->
     member key (terminal_event_json snap) = member key j).
Proof.
  intros Hos r snap j Hterm. pose proof (run_ops_result_matches os (InferenceRequest.new id model prompt tokens) Hos eq_refl) as Hm.
  fold r in Hm. destruct (response_members snap) as (M1 & M2 & M3 & M4 & M5). fold j in M1, M2, M3, M4, M5.
  pose proof (run_ops_evolves os (InferenceRequest.new id model prompt tokens)) as Hev. fold r in Hev.
  split; [rewrite M1; simpl; by rewrite (ev_request_id _ _ Hev)|].
  split; [rewrite M2; simpl; by rewrite (ev_model_id _ _ Hev)|].
  split; [|split; [apply http_status_200|split; [|split; [|apply terminal_event_members]]]].
  - intros s. rewrite M3. split; [|by intros ->]. intros [= Heq]. symmetry. by apply state_to_string_inj.
  - intros res o Hc Hr Ho. rewrite M4, M5. unfold outcome_members. simpl. rewrite Hc, Hr.
    destruct res as [st [o'|]]; simpl in Ho; [|done]. by injection Ho as ->.
  - intros Hnc. rewrite M4, M5. unfold outcome_members. simpl. unfold result_matches, is_terminal in *.
    assert (He : exists e, result_ r = Some (InferenceResult.failure e)) by (destruct (state_ r); by eauto).
    destruct He as [e He]. rewrite He. destruct (state_ r); try done; (split; [done|]);
      exists e; (split; [done|]); simpl; by intros ->.
Qed.

Lemma response_reports_outcome_witness :
  let r := (run_ops [OpTransition Queued; OpTransition Running; OpComplete (InferenceResult.success (mkOutput "hi" 1))]
              (InferenceRequest.new "req-1" "m" "p" 4)).1 in
  member "output" (infer_response_json (InferenceRequest.snapshot r)) = Some (output_json (mkOutput "hi" 1)).
Proof.
  set (os := [OpTransition Queued; OpTransition Running; OpComplete (InferenceResult.success (mkOutput "hi" 1))]).
  assert (Hos : Forall caller_op os) by (repeat constructor; simpl; auto).
  destruct (response_reports_outcome "req-1" "m" "p" 4 os Hos eq_refl) as (_ & _ & _ & _ & H & _).
  exact (proj1 (H _ _ eq_refl eq_refl eq_refl)).
Defined.

(** ** Ids *)

Lemma ids_from k z :
  0 <= z -> z + Z.of_nat k <= two64 ->
  ids k (RequestHandler.mk z) = map (fun i => "req-" +:+ pretty (Z.to_N z + N.of_nat i)%N) (seq 0 k).
Proof.
  revert z. induction k as [|k IH]; intros z Hz Hk; [done|].
  cbn [ids next_request_id next_id_]. rewrite <- cons_seq. cbn [map]. rewrite N.add_0_r. f_equal.
  destruct k as [|k]; [done|].
  rewrite u64_add_small by lia. rewrite IH by lia. rewrite <- fmap_S_seq.
  rewrite <- list_fmap_compose. apply list_fmap_ext. intros i j _. simpl. do 2 f_equal. lia.
Qed.

Lemma prefix_inj s a b : s +:+ a = s +:+ b -> a = b.
Proof. induction s as [|c s IH]; simpl; [done|]. intros [= H]. by apply IH. Qed.

Lemma ids_distinct k : Z.of_nat k < two64 -> NoDup (ids k RequestHandler.new).
Proof.
  intros Hk. unfold RequestHandler.new. rewrite ids_from by lia. apply NoDup_fmap_2_strong; [|apply NoDup_seq].
  intros i j _ _ Heq. apply prefix_inj in Heq. apply (inj pretty) in Heq. lia.
Qed.
