(* ===== verification/Session.v ===== *)
(** * HTTP sessions

    [include/airuntime/serving/http_session.hpp] and
    [src/serving/http_session.cpp]: one connection, one request, one response.
    The handlers of a session run one at a time on the I/O thread; each is a
    function of the session's state that returns the new state and the calls
    it makes, in order. What those calls answer is an argument. The socket,
    the HTTP library and the timers are not part of the runtime: they are the
    actions a handler requests and the completions it receives. *)

From S2P Require Import Prelude Status Requests World Handler.
Import InferenceRequest.
Import RequestHandler.

(** The error codes of [boost::asio::error] the session distinguishes. *)
Inductive error_code :=
  | NoError | OperationAborted | WouldBlock | TryAgain
  | Eof | ConnectionReset | ConnectionAborted | BrokenPipe | BadDescriptor | NetworkReset
  | OtherError.
#[export] Instance error_code_eq : EqDecision error_code.
Proof. solve_decision. Defined.

Definition is_peer_gone (ec : error_code) : bool :=
  match ec with
  | Eof | ConnectionReset | ConnectionAborted | BrokenPipe | BadDescriptor | NetworkReset => true
  | _ => false
  end.

Inductive verb := Get | Post | OtherVerb.

(** A new request: its id and its specification. *)
Inductive action :=
  | AsyncRead
  | NewRequest (l : loc) (id : string) (spec : InferRequestSpec) (deadline : time_point)
  | ArmTimer (deadline : time_point)
  | Submit (l : loc) (updates : list RequestSnapshot) (terminal : bool)
  | AsyncWrite (data : string) (final : bool)
  | AsyncRespond (code : Z) (text : string)
  | WaitPeer
  | CancelTimer
  | CancelIfLive (l : loc)
  | TimeoutIfLive (l : loc)
  | ShutdownSend
  | CloseSocket
  | Unregister.

Module HttpSession.

Record t := mk {
  active_request_ : option loc;
  stream_mode_ : bool;
  response_started_ : bool;
  json_response_started_ : bool;
  closed_ : bool;
  disconnect_watch_armed_ : bool;
  disconnect_watch_active_ : bool;
  write_queue_ : list string;
  write_in_progress_ : bool
}.

Definition new : t := mk None false false false false false false [] false.

Definition set_request (p : option loc) (stream : bool) (s : t) : t :=
  mk p stream (response_started_ s) (json_response_started_ s) (closed_ s) (disconnect_watch_armed_ s)
    (disconnect_watch_active_ s) (write_queue_ s) (write_in_progress_ s).
Definition set_stream (b : bool) (s : t) : t := set_request (active_request_ s) b s.
Definition set_response (s : t) : t :=
  mk (active_request_ s) (stream_mode_ s) true (json_response_started_ s) (closed_ s)
    (disconnect_watch_armed_ s) (disconnect_watch_active_ s) (write_queue_ s) (write_in_progress_ s).
Definition set_json (s : t) : t :=
  mk (active_request_ s) (stream_mode_ s) (response_started_ s) true (closed_ s)
    (disconnect_watch_armed_ s) (disconnect_watch_active_ s) (write_queue_ s) (write_in_progress_ s).
Definition set_closed (s : t) : t :=
  mk (active_request_ s) (stream_mode_ s) (response_started_ s) (json_response_started_ s) true
    (disconnect_watch_armed_ s) (disconnect_watch_active_ s) (write_queue_ s) (write_in_progress_ s).
Definition set_watch (armed watching : bool) (s : t) : t :=
  mk (active_request_ s) (stream_mode_ s) (response_started_ s) (json_response_started_ s) (closed_ s)
    armed watching (write_queue_ s) (write_in_progress_ s).
Definition set_writes (q : list string) (busy : bool) (s : t) : t :=
  mk (active_request_ s) (stream_mode_ s) (response_started_ s) (json_response_started_ s) (closed_ s)
    (disconnect_watch_armed_ s) (disconnect_watch_active_ s) q busy.

(** ** Handlers *)

(** A handler: the state, the actions so far, and whether it threw. *)
Definition H (A : Type) : Type := t -> (exn + A) * (t * list action).

#[global] Instance H_ret : MRet H := fun A a s => (inr a, (s, [])).
#[global] Instance H_bind : MBind H := fun A B k m s =>
  match m s with
  | (inl e, out) => (inl e, out)
  | (inr a, (s, acts)) => let '(b, (s, acts')) := k a s in (b, (s, acts ++ acts'))
  end.

Definition emit (a : action) : H unit := fun s => (inr tt, (s, [a])).
Definition update (f : t -> t) : H unit := fun s => (inr tt, (f s, [])).
Definition get {A} (f : t -> A) : H A := fun s => (inr (f s), (s, [])).
Definition lift {A} (r : exn + A) : H A := fun s => (r, (s, [])).

(** The parser is made anew, with its limit on the body. *)
Definition do_read : H unit := emit AsyncRead.

Definition start : H unit := do_read.

Definition stop_disconnect_watch : H unit := update (fun s => set_watch (disconnect_watch_armed_ s) false s).

Definition close : H unit :=
  is_closed ← get closed_;
  if (is_closed : bool) then mret tt else
  _ ← update set_closed;
  _ ← stop_disconnect_watch;
  _ ← emit CancelTimer;
  _ ← emit CloseSocket;
  emit Unregister.

(** [if (active_request_ && !active_request_->is_terminal()) try_cancel()] *)
Definition cancel_active : H unit :=
  p ← get active_request_;
  match p with Some l => emit (CancelIfLive l) | None => mret tt end.

Definition shutdown : H unit := _ ← cancel_active; close.

Definition on_disconnect : H unit :=
  _ ← stop_disconnect_watch;
  _ ← cancel_active;
  is_closed ← get closed_;
  if (is_closed : bool) then mret tt else close.

Definition arm_disconnect_watch : H unit :=
  is_closed ← get closed_;
  armed ← get disconnect_watch_armed_;
  if is_closed || armed then mret tt else
  _ ← update (set_watch true true);
  emit WaitPeer.

Definition send_json_response (code : Z) (text : string) : H unit :=
  is_closed ← get closed_;
  started ← get json_response_started_;
  if is_closed || started then mret tt else
  _ ← update set_json;
  _ ← stop_disconnect_watch;
  _ ← emit CancelTimer;
  emit (AsyncRespond code text).

(** The completion of [send_json_response]. *)
Definition on_responded (ec : error_code) : H unit :=
  if bool_decide (ec <> NoError) then _ ← cancel_active; close else
  _ ← emit ShutdownSend; close.

(** *** Writing a stream *)

Definition crlf : string := String (Ascii.ascii_of_nat 13) (String (Ascii.ascii_of_nat 10) "").

Definition kHeaders : string :=
  "HTTP/1.1 200 OK" +:+ crlf +:+ "Content-Type: application/x-ndjson" +:+ crlf +:+
  "Transfer-Encoding: chunked" +:+ crlf +:+ "Connection: close" +:+ crlf +:+ crlf.

Definition terminator : string := "0" +:+ crlf +:+ crlf.

Definition hex_digit (d : N) : Ascii.ascii :=
  Ascii.ascii_of_N (if (d <? 10)%N then 48 + d else 87 + d).

(** [std::hex]: as many digits as the fuel allows. *)
Fixpoint hex_digits (fuel : nat) (x : N) (acc : string) : string :=
  match fuel with
  | O => acc
  | S fuel =>
      let acc := String (hex_digit (x mod 16)) acc in
      if (x / 16 =? 0)%N then acc else hex_digits fuel (x / 16) acc
  end.

Definition to_hex (x : N) : string := hex_digits (S (N.size_nat x)) x "".

(** What [do_write] sends for an element of the queue. *)
Definition frame (started : bool) (chunk : string) : string :=
  if started && String.prefix "HTTP/1.1" chunk then chunk
  else to_hex (N.of_nat (String.length chunk)) +:+ crlf +:+ chunk +:+ crlf.

Definition do_write : H unit :=
  q ← get write_queue_;
  match q with
  | [] => update (fun s => set_writes [] false s)
  | chunk :: q =>
      _ ← update (set_writes q true);
      started ← get response_started_;
      if bool_decide (chunk = "") then emit (AsyncWrite terminator true)
      else emit (AsyncWrite (frame started chunk) false)
  end.

(** The completions of the two kinds of write. *)
Definition on_written (ec : error_code) (final : bool) : H unit :=
  if bool_decide (ec <> NoError) then on_disconnect else
  if final then _ ← emit ShutdownSend; close else do_write.

Definition queue_write (data : string) (is_terminal : bool) : H unit :=
  _ ← (if negb (bool_decide (data = ""))
       then update (fun s => set_writes (write_queue_ s ++ [data]) (write_in_progress_ s) s) else mret tt);
  _ ← (if is_terminal
       then update (fun s => set_writes (write_queue_ s ++ [""]) (write_in_progress_ s) s) else mret tt);
  busy ← get write_in_progress_;
  if negb busy then do_write else mret tt.

(** *** The request *)

Section handlers.
Context `{!JsonLib}.

Definition on_state_update (snap : RequestSnapshot) : H unit :=
  is_closed ← get closed_;
  if (is_closed : bool) then mret tt else
  streaming ← get stream_mode_;
  if (streaming : bool) then
    started ← get response_started_;
    _ ← (if negb started then
           _ ← update set_response;
           _ ← stop_disconnect_watch;
           queue_write kHeaders false
         else mret tt);
    if is_terminal_state (snap_state snap) then
      _ ← stop_disconnect_watch;
      line ← lift (serialize_terminal_event snap);
      _ ← queue_write line true;
      emit CancelTimer
    else if bool_decide (snap_state snap = Queued) || bool_decide (snap_state snap = Running) then
      line ← lift (serialize_state_event snap);
      queue_write line false
    else mret tt
  else if negb (is_terminal_state (snap_state snap)) then mret tt else
  _ ← stop_disconnect_watch;
  _ ← emit CancelTimer;
  response ← lift (serialize_infer_response snap);
  send_json_response (status_code response) (body response).

(** What the handler, the runtime and the clock answer to a request. *)
Record answers := mkAnswers {
  ans_get : exn + HandlerResponse;
  ans_loc : loc;
  ans_id : string;
  ans_now : time_point;
  ans_updates : list RequestSnapshot;
  ans_terminal : bool
}.

(** [Submit] stands for the submission and, if it failed and left the request
    live, its rejection; [ans_updates] are the updates posted from the
    registration of the observer on, [ans_terminal] whether the request is
    terminal when the handler asks. *)
Definition start_infer (a : answers) (stream : bool) (spec : InferRequestSpec) : H unit :=
  _ ← update (set_request (Some (ans_loc a)) stream);
  let deadline := ans_now a + is_timeout spec * 1000000 in
  _ ← emit (NewRequest (ans_loc a) (ans_id a) spec deadline);
  _ ← emit (ArmTimer deadline);
  _ ← emit (Submit (ans_loc a) (ans_updates a) (ans_terminal a));
  if ans_terminal a then mret tt else arm_disconnect_watch.

Definition handle_request (a : answers) (method : verb) (target body_text : string) : H unit :=
  match method with
  | Get => response ← lift (ans_get a); send_json_response (status_code response) (body response)
  | OtherVerb => send_json_response 405 (error_body "method not allowed")
  | Post =>
      let stream := bool_decide (target = "/v1/infer/stream") in
      _ ← update (set_stream stream);
      if negb (bool_decide (target = "/v1/infer")) && negb stream
      then send_json_response 404 (error_body "not found") else
      match parse_infer_request body_text with
      | inl msg => send_json_response 400 (error_body msg)
      | inr spec => start_infer a stream spec
      end
  end.

Inductive read_outcome :=
  | BodyTooLarge
  | ReadFailed
  | ReadOk (method : verb) (target body_text : string).

Definition on_read (a : answers) (out : read_outcome) : H unit :=
  match out with
  | BodyTooLarge => send_json_response 413 (error_body "request body too large")
  | ReadFailed => close
  | ReadOk method target text => handle_request a method target text
  end.

(** The readiness wait, then the probe: its error code and how much it read. *)
Definition on_peer_wait (wait_ec read_ec : error_code) (n : Z) : H unit :=
  _ ← update (fun s => set_watch false (disconnect_watch_active_ s) s);
  is_closed ← get closed_;
  watching ← get disconnect_watch_active_;
  if is_closed || negb watching then mret tt else
  if bool_decide (wait_ec = OperationAborted) then mret tt else
  if is_peer_gone read_ec || (bool_decide (read_ec = NoError) && (n =? 0)) ||
     is_peer_gone wait_ec then on_disconnect else
  if bool_decide (read_ec = WouldBlock) || bool_decide (read_ec = TryAgain) then arm_disconnect_watch else
  if bool_decide (read_ec = NoError) && (0 <? n) then on_disconnect else
  if bool_decide (read_ec <> NoError) then on_disconnect else
  arm_disconnect_watch.

(** The deadline timer. *)
Definition on_deadline (ec : error_code) (l : loc) : H unit :=
  if bool_decide (ec <> NoError) then mret tt else emit (TimeoutIfLive l).
End handlers.
End HttpSession.
Import HttpSession.

(** ** Connections *)

(** What reached the socket, in the order it was handed to it. *)
Inductive wire := WData (data : string) | WResponse (code : Z) (text : string).

(** A session with its operations in flight: [writing] says whether the write
    in flight is the last; [overlapped] whether a write was ever started while
    another was in flight; [seen] are the updates delivered while it was
    open. *)
Record conn := mkConn {
  ses : HttpSession.t;
  is_open : bool;
  reading_ : bool;
  writing : option bool;
  responding : bool;
  waiting : bool;
  overlapped : bool;
  sent : list wire;
  log_ : list action;
  seen : list RequestSnapshot;
  stopped : bool;
  posted : list RequestSnapshot
}.

Definition busy_wire (c : conn) : bool := responding c || bool_decide (is_Some (writing c)).

Definition put_wire (x : wire) (w : option bool) (r : bool) (c : conn) : conn :=
  mkConn (ses c) (is_open c) (reading_ c) w r (waiting c) (overlapped c || busy_wire c)
    (if is_open c then sent c ++ [x] else sent c) (log_ c) (seen c) (stopped c) (posted c).

(** The effect of an action on the connection. *)
Definition perform (c : conn) (a : action) : conn :=
  let c := mkConn (ses c) (is_open c) (reading_ c) (writing c) (responding c) (waiting c) (overlapped c)
             (sent c) (log_ c ++ [a]) (seen c) (stopped c) (posted c) in
  match a with
  | AsyncRead =>
      mkConn (ses c) (is_open c) true (writing c) (responding c) (waiting c) (overlapped c) (sent c)
        (log_ c) (seen c) (stopped c) (posted c)
  | AsyncWrite data final => put_wire (WData data) (Some final) (responding c) c
  | AsyncRespond code text => put_wire (WResponse code text) (writing c) true c
  | Submit _ updates _ =>
      mkConn (ses c) (is_open c) (reading_ c) (writing c) (responding c) (waiting c) (overlapped c) (sent c)
        (log_ c) (seen c) (stopped c) (posted c ++ updates)
  | WaitPeer =>
      mkConn (ses c) (is_open c) (reading_ c) (writing c) (responding c) true (overlapped c) (sent c)
        (log_ c) (seen c) (stopped c) (posted c)
  | CloseSocket =>
      mkConn (ses c) false (reading_ c) (writing c) (responding c) (waiting c) (overlapped c) (sent c)
        (log_ c) (seen c) (stopped c) (posted c)
  | _ => c
  end.

Definition with_ses (s : HttpSession.t) (c : conn) : conn :=
  mkConn s (is_open c) (reading_ c) (writing c) (responding c) (waiting c) (overlapped c) (sent c)
    (log_ c) (seen c) (stopped c) (posted c).

(** Run a handler; an exception leaves the I/O thread, and no connection. *)
Definition run (h : H unit) (c : conn) : option conn :=
  match h (ses c) with
  | (inl _, _) => None
  | (inr _, (s, acts)) => Some (foldl perform (with_ses s c) acts)
  end.

Definition done_read (c : conn) : conn :=
  mkConn (ses c) (is_open c) false (writing c) (responding c) (waiting c) (overlapped c) (sent c) (log_ c) (seen c) (stopped c) (posted c).
Definition done_write (c : conn) : conn :=
  mkConn (ses c) (is_open c) (reading_ c) None (responding c) (waiting c) (overlapped c) (sent c) (log_ c) (seen c) (stopped c) (posted c).
Definition done_respond (c : conn) : conn :=
  mkConn (ses c) (is_open c) (reading_ c) (writing c) false (waiting c) (overlapped c) (sent c) (log_ c) (seen c) (stopped c) (posted c).
Definition done_wait (c : conn) : conn :=
  mkConn (ses c) (is_open c) (reading_ c) (writing c) (responding c) false (overlapped c) (sent c) (log_ c) (seen c) (stopped c) (posted c).
Definition see (snap : RequestSnapshot) (c : conn) : conn :=
  mkConn (ses c) (is_open c) (reading_ c) (writing c) (responding c) (waiting c) (overlapped c) (sent c) (log_ c)
    (if closed_ (ses c) then seen c else seen c ++ [snap]) (stopped c) (tail (posted c)).
Definition stop_conn (c : conn) : conn :=
  mkConn (ses c) (is_open c) (reading_ c) (writing c) (responding c) (waiting c) (overlapped c) (sent c) (log_ c) (seen c) true (posted c).
Definition post (snaps : list RequestSnapshot) (c : conn) : conn :=
  mkConn (ses c) (is_open c) (reading_ c) (writing c) (responding c) (waiting c) (overlapped c) (sent c) (log_ c)
    (seen c) (stopped c) (posted c ++ snaps).

(** The session is kept by the operations in flight and by the updates posted
    to it; nothing else owns it. *)
Definition alive (c : conn) : bool :=
  reading_ c || bool_decide (is_Some (writing c)) || responding c || waiting c || negb (bool_decide (posted c = [])).

Definition fresh_conn : conn :=
  mkConn HttpSession.new true false None false false false [] [] [] false [].

Section connections.
Context `{!JsonLib}.

(** Completions and updates, in any order the I/O library may deliver them.
    The wait for the peer is aborted by closing the socket only. The server
    stops its sessions from the I/O thread and then stops the thread: nothing
    follows [step_stop]. *)
Inductive step (c : conn) : conn -> Prop :=
  | step_read a out c' : stopped c = false -> reading_ c = true -> run (on_read a out) (done_read c) = Some c' -> step c c'
  | step_written ec final c' : stopped c = false -> writing c = Some final ->
      run (on_written ec final) (done_write c) = Some c' -> step c c'
  | step_responded ec c' : stopped c = false -> responding c = true ->
      run (on_responded ec) (done_respond c) = Some c' -> step c c'
  | step_peer wait_ec read_ec n c' : stopped c = false -> waiting c = true ->
      (wait_ec = OperationAborted -> closed_ (ses c) = true) ->
      run (on_peer_wait wait_ec read_ec n) (done_wait c) = Some c' -> step c c'
  | step_notify snap : stopped c = false -> active_request_ (ses c) <> None -> alive c = true ->
      step c (post [snap] c)
  | step_update snap rest c' : stopped c = false -> posted c = snap :: rest ->
      run (on_state_update snap) (see snap c) = Some c' -> step c c'
  | step_deadline ec l c' : stopped c = false -> active_request_ (ses c) = Some l -> alive c = true ->
      run (on_deadline ec l) c = Some c' -> step c c'
  | step_stop c' : stopped c = false -> alive c = true -> run shutdown (stop_conn c) = Some c' -> step c c'.

Inductive reachable : conn -> Prop :=
  | reach_start c : run start fresh_conn = Some c -> reachable c
  | reach_step c c' : reachable c -> step c c' -> reachable c'.
End connections.
