(* ===== verification/SessionProofs.v ===== *)
(** * What a session sends, and when it ends

    The invariant of the connections of [Session]: a weakest-precondition
    calculus for the handlers, the account of the writer ([pumping]), the
    states of the wire ([silent], [answered], [streaming]), and who keeps a
    session alive ([kept]). *)

From S2P Require Import Prelude Status Requests World Handler Session.
Import InferenceRequest.
Import RequestHandler.
Import HttpSession.

Section connections.
Context `{!JsonLib}.

(** ** What a stream consists of *)

Definition terminal_snap (snap : RequestSnapshot) : bool := is_terminal_state (snap_state snap).

(** The line of an event; a serialization that throws ends the connection. *)
Definition line_text (r : exn + string) : string := match r with inr line => line | inl _ => newline end.

(** The events of the updates, up to the first terminal one and the mark that
    ends the stream. *)
Fixpoint event_chunks (snaps : list RequestSnapshot) : list string :=
  match snaps with
  | [] => []
  | snap :: snaps =>
      if terminal_snap snap then [line_text (serialize_terminal_event snap); ""]
      else if bool_decide (snap_state snap = Queued) || bool_decide (snap_state snap = Running)
      then line_text (serialize_state_event snap) :: event_chunks snaps
      else event_chunks snaps
  end.

Definition stream_chunks (snaps : list RequestSnapshot) : list string :=
  match snaps with [] => [] | _ => kHeaders :: event_chunks snaps end.

Definition render (chunk : string) : wire :=
  if bool_decide (chunk = "") then WData terminator else WData (frame true chunk).

Lemma line_text_nonempty j : line_text (line_of j) <> "".
Proof. unfold line_of. destruct (json_dump j) as [e|[|c s]]; done. Qed.

Definition has_terminal (snaps : list RequestSnapshot) : bool := existsb terminal_snap snaps.

Lemma chunks_end snaps : "" ∈ stream_chunks snaps <-> has_terminal snaps = true.
Proof.
  assert (H : "" ∈ event_chunks snaps <-> has_terminal snaps = true).
  { induction snaps as [|x snaps IH]; simpl; [by rewrite elem_of_nil|].
    destruct (terminal_snap x); simpl; [split; [done|]; intros _; right; left|].
    destruct (_ || _); [|done]. rewrite elem_of_cons, IH. split; [|by right]. intros [Heq|?]; [|done].
    by destruct (line_text_nonempty (state_event_json x)). }
  destruct snaps as [|x snaps]; simpl; [by rewrite elem_of_nil|]. rewrite elem_of_cons.
  split; [intros [?|?]; [done|by apply H]|]. intros ?. right. by apply H.
Qed.

Lemma event_chunks_app snaps x :
  event_chunks (snaps ++ [x]) = event_chunks snaps ++ (if has_terminal snaps then [] else event_chunks [x]).
Proof.
  induction snaps as [|y snaps IH]; [done|]. cbn [app event_chunks]. rewrite IH. simpl has_terminal.
  destruct (terminal_snap y); [done|]. simpl. by destruct (_ || _).
Qed.

(** Nothing follows the end mark. *)
Lemma chunks_last snaps l1 l2 : stream_chunks snaps = l1 ++ "" :: l2 -> l2 = [].
Proof.
  assert (H : forall l1, event_chunks snaps = l1 ++ "" :: l2 -> l2 = []).
  { induction snaps as [|x snaps IH]; intros l; simpl.
    - intros Heq. symmetry in Heq. by apply app_eq_nil in Heq as [_ ?].
    - destruct (terminal_snap x).
      + destruct l as [|y [|z [|z' l]]]; simpl; try done.
        * intros [= Heq _]. by destruct (line_text_nonempty (terminal_event_json x)).
        * by intros [= _ <-].
      + destruct (_ || _); [|apply IH]. destruct l as [|y l]; simpl.
        * intros [= Heq _]. by destruct (line_text_nonempty (state_event_json x)).
        * intros [= _ Heq]. by eapply IH. }
  destruct snaps as [|x snaps]; unfold stream_chunks.
  - intros Heq. symmetry in Heq. by apply app_eq_nil in Heq as [_ ?].
  - destruct l1 as [|y l1]; [done|]. cbn [app]. intros [= _ Heq]. by eapply H.
Qed.

(** ** Running a handler *)

(** What holds after a handler that returns. *)
Definition wp {A} (h : H A) (c : conn) (Q : A -> conn -> Prop) : Prop :=
  match h (ses c) with
  | (inl _, _) => True
  | (inr a, (s, acts)) => Q a (foldl perform (with_ses s c) acts)
  end.

Lemma wp_run h c c' (Q : unit -> conn -> Prop) : wp h c Q -> run h c = Some c' -> Q tt c'.
Proof. unfold wp, run. destruct (h (ses c)) as [[e|[]] [s acts]]; [done|]. by intros ? [= <-]. Qed.

Lemma with_ses_foldl s acts c : with_ses s (foldl perform c acts) = foldl perform (with_ses s c) acts.
Proof.
  revert c. induction acts as [|a acts IH]; intros c; [done|]. cbn [foldl]. rewrite IH. f_equal. by destruct a.
Qed.

Lemma ses_foldl acts c : ses (foldl perform c acts) = ses c.
Proof. revert c. induction acts as [|a acts IH]; intros c; [done|]. cbn [foldl]. rewrite IH. by destruct a. Qed.

Lemma log_foldl acts c : log_ (foldl perform c acts) = log_ c ++ acts.
Proof.
  revert c. induction acts as [|a acts IH]; intros c; [by rewrite app_nil_r|]. cbn [foldl]. rewrite IH.
  destruct a; simpl; by rewrite <- app_assoc.
Qed.

Lemma wp_bind {A B} (m : H A) (k : A -> H B) c Q : wp m c (fun a c => wp (k a) c Q) -> wp (m ≫= k) c Q.
Proof.
  unfold wp, mbind, H_bind. destruct (m (ses c)) as [[e|a] [s acts]]; [done|]. rewrite ses_foldl. cbn [ses with_ses].
  destruct (k a s) as [[e|b] [s' acts']]; [done|]. by rewrite with_ses_foldl, foldl_app.
Qed.

Lemma wp_ret {A} (a : A) c (Q : A -> conn -> Prop) : Q a c -> wp (mret a) c Q.
Proof. by destruct c. Qed.
Lemma wp_get {A} (f : HttpSession.t -> A) c (Q : A -> conn -> Prop) : Q (f (ses c)) c -> wp (get f) c Q.
Proof. by destruct c. Qed.
Lemma wp_update f c (Q : unit -> conn -> Prop) : Q tt (with_ses (f (ses c)) c) -> wp (update f) c Q.
Proof. done. Qed.
Lemma wp_emit a c (Q : unit -> conn -> Prop) : Q tt (perform c a) -> wp (emit a) c Q.
Proof. by destruct c. Qed.
Lemma wp_lift {A} (r : exn + A) c (Q : A -> conn -> Prop) : (forall a, r = inr a -> Q a c) -> wp (lift r) c Q.
Proof. unfold wp, lift. destruct r, c; naive_solver. Qed.

Lemma wp_mono {A} (h : H A) c (Q R : A -> conn -> Prop) : (forall a c, Q a c -> R a c) -> wp h c Q -> wp h c R.
Proof. unfold wp. destruct (h (ses c)) as [[e|a] [s acts]]; auto. Qed.

(** ** Writing *)

(** All of [L] has been queued; [pre] of it has been handed to the socket, up
    to the end mark at most; a write is in flight or there is nothing to
    write. *)
Definition pumping (L : list string) (c : conn) : Prop :=
  exists pre, sent c = map render pre /\ pre ++ write_queue_ (ses c) = L /\
    (forall l1 l2, pre = l1 ++ "" :: l2 -> l2 = []) /\
    ((write_in_progress_ (ses c) = true /\ writing c = Some (bool_decide ("" ∈ pre))) \/
     (write_queue_ (ses c) = [] /\ write_in_progress_ (ses c) = false /\ writing c = None /\ "" ∉ pre)).

(** [do_write] on a connection with no write in flight. *)
Definition pump (c : conn) : conn :=
  match write_queue_ (ses c) with
  | [] => with_ses (set_writes [] false (ses c)) c
  | chunk :: q => perform (with_ses (set_writes q true (ses c)) c)
                    (if bool_decide (chunk = "") then AsyncWrite terminator true
                     else AsyncWrite (frame (response_started_ (ses c)) chunk) false)
  end.

Lemma wp_do_write c (Q : unit -> conn -> Prop) : Q tt (pump c) -> wp do_write c Q.
Proof.
  unfold wp, do_write, pump, mbind, H_bind, get, update, emit.
  destruct (write_queue_ (ses c)) as [|chunk q]; [done|].
  by destruct (bool_decide (chunk = "")).
Qed.

Lemma stops_snoc (pre : list string) x :
  "" ∉ pre -> forall l1 l2, pre ++ [x] = l1 ++ "" :: l2 -> l2 = [].
Proof.
  intros Hno l1 l2 Heq. destruct l2 as [|y l2 _] using rev_ind; [done|]. exfalso. apply Hno.
  rewrite app_comm_cons, app_assoc in Heq. apply app_inj_tail in Heq as [-> _].
  apply elem_of_app. right. left.
Qed.

Lemma pump_pumping L c pre :
  is_open c = true -> response_started_ (ses c) = true -> sent c = map render pre -> "" ∉ pre ->
  writing c = None -> pre ++ write_queue_ (ses c) = L -> pumping L (pump c).
Proof.
  intros Ho Hr Hs Hno Hw HL. unfold pump. destruct (write_queue_ (ses c)) as [|chunk q] eqn:Hq.
  { exists pre. simpl. split; [done|]. split; [done|]. split; [|by right].
    intros l1 l2 ->. destruct Hno. apply elem_of_app. right. left. }
  exists (pre ++ [chunk]). split; [|split; [|split; [by apply stops_snoc|left]]].
  - rewrite map_app. simpl. unfold render at 2. rewrite <- Hs. destruct (bool_decide (chunk = "")); simpl.
    + by rewrite Ho.
    + by rewrite Ho, Hr.
  - destruct (bool_decide (chunk = "")); simpl; by rewrite <- app_assoc.
  - assert (He : bool_decide ("" ∈ pre ++ [chunk]) = bool_decide (chunk = "")).
    { apply bool_decide_ext. rewrite elem_of_app, elem_of_cons, elem_of_nil. naive_solver. }
    rewrite He. by destruct (bool_decide (chunk = "")).
Qed.

(** A step of the writer: only the queue, the watch, the write in flight, the
    log and what was sent change. *)
Definition wrote (c c' : conn) : Prop :=
  (exists q b d w, ses c' = set_writes q b (set_watch d w (ses c))) /\ is_open c' = is_open c /\ reading_ c' = reading_ c /\
  responding c' = responding c /\ seen c' = seen c /\ posted c' = posted c /\ log_ c `prefix_of` log_ c' /\
  stopped c' = stopped c /\ (overlapped c = false -> responding c = false -> overlapped c' = false).

Lemma wrote_refl c q b : wrote c (with_ses (set_writes q b (ses c)) c).
Proof.
  unfold wrote. simpl. split; [|done].
  by exists q, b, (disconnect_watch_armed_ (ses c)), (disconnect_watch_active_ (ses c)).
Qed.

Lemma wrote_watch c d w : wrote c (with_ses (set_watch d w (ses c)) c).
Proof.
  unfold wrote. simpl. split; [|done]. by exists (write_queue_ (ses c)), (write_in_progress_ (ses c)), d, w.
Qed.

Lemma wrote_same c : wrote c c.
Proof.
  pose proof (wrote_watch c (disconnect_watch_armed_ (ses c)) (disconnect_watch_active_ (ses c))) as Hw.
  by destruct c as [[]].
Qed.

Lemma wrote_timer c : wrote c (perform c CancelTimer).
Proof.
  destruct (wrote_same c) as [? _]. unfold wrote. simpl. repeat (split; [done|]). split; [by eexists|done].
Qed.

Lemma wrote_trans c1 c2 c3 : wrote c1 c2 -> wrote c2 c3 -> wrote c1 c3.
Proof.
  intros ((q & b & d & w & Hq) & ? & ? & Hr & ? & ? & Hl & ? & ?)
    ((q' & b' & d' & w' & Hq') & ? & ? & ? & ? & ? & Hl' & ? & ?).
  unfold wrote. rewrite Hq', Hq. simpl.
  split; [by exists q', b', d', w'|]. repeat (split; [congruence|]). split; [by etrans|]. split; [congruence|].
  intros ? Hf. assert (responding c2 = false) by congruence. auto.
Qed.

Lemma pump_wrote c : writing c = None -> wrote c (pump c).
Proof.
  intros Hw. unfold pump. destruct (write_queue_ (ses c)) as [|chunk q]; [apply wrote_refl|].
  unfold wrote. destruct (bool_decide (chunk = "")); simpl;
    (split; [by exists q, true, (disconnect_watch_armed_ (ses c)), (disconnect_watch_active_ (ses c))|]);
    repeat (split; [done|]); (split; [by eexists|]); (split; [done|]);
    intros -> ->; unfold busy_wire; simpl; by rewrite Hw.
Qed.

Definition added (data : string) (is_terminal : bool) : list string :=
  (if bool_decide (data = "") then [] else [data]) ++ (if is_terminal then [""] else []).

Lemma wp_queue_write L c data is_terminal (Q : unit -> conn -> Prop) :
  is_open c = true -> response_started_ (ses c) = true -> pumping L c ->
  (forall c', wrote c c' -> pumping (L ++ added data is_terminal) c' -> Q tt c') ->
  wp (queue_write data is_terminal) c Q.
Proof.
  intros Ho Hr Hp HQ. unfold queue_write. apply wp_bind.
  set (q' := write_queue_ (ses c) ++ added data is_terminal).
  set (c1 := with_ses (set_writes q' (write_in_progress_ (ses c)) (ses c)) c).
  assert (Hgo : wp (busy ← get write_in_progress_; if negb busy then do_write else mret tt) c1 Q).
  { apply wp_bind, wp_get. destruct Hp as (pre & Hs & HL & Hend & Hst).
    destruct Hst as [[Hb Hw] | (Hq & Hb & Hw & Hno)]; simpl; rewrite Hb; simpl.
    - apply wp_ret, HQ; [apply wrote_refl|]. exists pre. unfold c1, q'. simpl. rewrite app_assoc, HL. naive_solver.
    - apply wp_do_write, HQ.
      + eapply wrote_trans; [apply wrote_refl|]. by apply pump_wrote.
      + eapply pump_pumping; try done. unfold c1, q'. simpl. by rewrite app_assoc, HL. }
  unfold added in *. case_bool_decide as Hd; simpl in *.
  - apply wp_ret, wp_bind. destruct is_terminal; [by apply wp_update|]. apply wp_ret.
    unfold c1, q' in Hgo. rewrite app_nil_r in Hgo. by destruct c as [[] ? ? ? ? ? ? ? ? ? ?].
  - apply wp_update, wp_bind. destruct is_terminal; [|by apply wp_ret]. apply wp_update.
    unfold c1, q' in Hgo. simpl in *. by rewrite <- app_assoc.
Qed.

(** The end mark is reached before anything queued after it. *)
Lemma pumped_prefix snaps junk pre q :
  pre ++ q = stream_chunks snaps ++ junk -> (junk <> [] -> has_terminal snaps = true) ->
  (forall l1 l2, pre = l1 ++ "" :: l2 -> l2 = []) -> pre `prefix_of` stream_chunks snaps.
Proof.
  intros Heq Hj Hend. destruct (decide (junk = [])) as [->|Hne].
  { rewrite app_nil_r in Heq. by exists q. }
  apply Hj, chunks_end, list_elem_of_split in Hne as (l1 & l2 & Hsp). pose proof (chunks_last _ _ _ Hsp) as ->.
  rewrite Hsp in *. apply app_eq_inv in Heq as [(k & Hpre & Hk) | (k & -> & _)]; [|by apply prefix_app_r].
  rewrite Hpre, <- app_assoc in Hend. simpl in Hend. specialize (Hend l1 k eq_refl) as ->.
  rewrite app_nil_r in Hpre. by rewrite Hpre.
Qed.

(** ** The invariant *)

(** The request is cancelled or its end was delivered. *)
Definition settled_for (c : conn) : Prop :=
  forall l, active_request_ (ses c) = Some l -> CancelIfLive l ∈ log_ c \/ has_terminal (seen c) = true.

(** Nothing was sent. *)
Definition silent (c : conn) : Prop :=
  sent c = [] /\ writing c = None /\ responding c = false /\ write_queue_ (ses c) = [] /\
  write_in_progress_ (ses c) = false /\ json_response_started_ (ses c) = false /\
  response_started_ (ses c) = false /\
  (reading_ c = true -> active_request_ (ses c) = None /\ (stopped c = true \/ closed_ (ses c) = false)) /\
  (if stream_mode_ (ses c) then seen c = [] else has_terminal (seen c) = false).

(** A response was sent: the outcome of the request, if there is one. *)
Definition answered (c : conn) : Prop :=
  (exists r, sent c = [WResponse (status_code r) (body r)] /\
     (active_request_ (ses c) = None \/ stream_mode_ (ses c) = false /\
        exists snap, snap ∈ seen c /\ terminal_snap snap = true /\ serialize_infer_response snap = inr r)) /\
  writing c = None /\ write_queue_ (ses c) = [] /\ write_in_progress_ (ses c) = false /\
  json_response_started_ (ses c) = true /\ reading_ c = false.

(** A stream was started. *)
Definition streamed (c : conn) : Prop :=
  response_started_ (ses c) = true /\ stream_mode_ (ses c) = true /\ reading_ c = false /\
  responding c = false /\ json_response_started_ (ses c) = false /\ active_request_ (ses c) <> None /\ seen c <> [].

Definition wire_prefix (c : conn) : Prop :=
  exists pre, sent c = map render pre /\ pre `prefix_of` stream_chunks (seen c).

Definition streaming (c : conn) : Prop :=
  streamed c /\
  (if closed_ (ses c) then wire_prefix c
   else exists junk, (junk <> [] -> has_terminal (seen c) = true) /\ pumping (stream_chunks (seen c) ++ junk) c).

(** What holds of every connection, and, with a weaker account of the writer,
    when a connection is about to be closed. *)
Record conn_ok (stream_ok : conn -> Prop) (c : conn) : Prop := {
  ci_open : is_open c = negb (closed_ (ses c));
  ci_over : overlapped c = false;
  ci_seen : active_request_ (ses c) = None -> seen c = [] /\ posted c = [];
  ci_mode : silent c \/ answered c \/ stream_ok c;
  ci_settled : closed_ (ses c) = true -> settled_for c
}.
Notation cinv := (conn_ok streaming).
Notation closable := (conn_ok (fun c => streamed c /\ wire_prefix c)).

Lemma streaming_wire c : streaming c -> wire_prefix c.
Proof.
  intros [_ Hp]. destruct (closed_ (ses c)); [done|].
  destruct Hp as (junk & Hj & pre & Hs & HL & Hend & _). exists pre. split; [done|]. by eapply pumped_prefix.
Qed.

Lemma cinv_closable c : cinv c -> closable c.
Proof.
  intros [Ho Hov Hse Hm Hst]. split; try done. destruct Hm as [Hm|[Hm|Hm]]; [by left|by right; left|right; right].
  split; [by destruct Hm|by apply streaming_wire].
Qed.

Lemma closed_cinv c : closable c -> closed_ (ses c) = true -> cinv c.
Proof.
  intros [Ho Hov Hse Hm Hst] Hc. split; try done. destruct Hm as [Hm|[Hm|[Hm Hw]]]; [by left|by right; left|right; right].
  split; [done|]. by rewrite Hc.
Qed.

Ltac wps :=
  repeat (first [ simple apply wp_bind | simple apply wp_get | simple apply wp_update | simple apply wp_emit
                | simple apply wp_ret ]; cbv beta).

(** Actions that send nothing and keep the socket. *)
Definition quiet (a : action) : bool :=
  match a with AsyncRead | AsyncWrite _ _ | AsyncRespond _ _ | CloseSocket | Submit _ _ _ => false | _ => true end.

Lemma cinv_quiet c a : quiet a = true -> cinv c -> cinv (perform c a).
Proof.
  intros Hq [Ho Hov Hse Hm Hst]. destruct a; try done; (split; [done..|]);
    intros Hc k Hl; destruct (Hst Hc k Hl); ((left; simpl; set_solver) || by right).
Qed.

Lemma closable_quiet c a : quiet a = true -> closable c -> closable (perform c a).
Proof.
  intros Hq [Ho Hov Hse Hm Hst]. destruct a; try done; (split; [done..|]);
    intros Hc k Hl; destruct (Hst Hc k Hl); ((left; simpl; set_solver) || by right).
Qed.

Lemma cinv_watch c d w : cinv c -> cinv (with_ses (set_watch d w (ses c)) c).
Proof. by intros [Ho Hov Hse Hm Hst]. Qed.

Lemma closable_watch c d w : closable c -> closable (with_ses (set_watch d w (ses c)) c).
Proof. by intros [Ho Hov Hse Hm Hst]. Qed.

(** Closing keeps what was sent; the request must be accounted for. *)
Lemma wp_close c :
  closable c -> settled_for c -> (reading_ c = true -> stopped c = true) ->
  wp close c (fun _ c' => cinv c' /\ closed_ (ses c') = true).
Proof.
  intros Hi Hset Hrd. unfold close, stop_disconnect_watch. wps.
  destruct (closed_ (ses c)) eqn:Hc; wps; [split; [by apply closed_cinv|done]|].
  split; [|done]. apply closed_cinv; [|done]. destruct Hi as [Ho Hov Hse Hm Hst]. split; try done.
  - destruct Hm as [Hm|[Hm|Hm]]; [left|right; left|right; right]; [|done..].
    unfold silent in *. simpl. naive_solver.
  - intros _ l Hl. destruct (Hset l Hl); [left|by right]. simpl. set_solver.
Qed.

Lemma wp_cancel_active c (Q : unit -> conn -> Prop) :
  closable c ->
  (forall c', closable c' -> settled_for c' -> reading_ c' = reading_ c -> stopped c' = stopped c -> Q tt c') ->
  wp cancel_active c Q.
Proof.
  intros Hi HQ. unfold cancel_active. wps. destruct (active_request_ (ses c)) as [l|] eqn:Ha; wps; apply HQ; try done.
  - by apply closable_quiet.
  - intros l' Hl'. left. simpl in *. assert (l' = l) as -> by congruence. set_solver.
  - intros l' Hl'. congruence.
Qed.

Lemma wp_cancel_close c :
  closable c -> (reading_ c = true -> stopped c = true) ->
  wp (_ ← cancel_active; close) c (fun _ c' => cinv c' /\ closed_ (ses c') = true).
Proof.
  intros Hi Hrd. apply wp_bind, wp_cancel_active; [done|]. intros c' Hi' Hs Hr Ht. apply wp_close; [done..|]. by rewrite Hr, Ht.
Qed.

Lemma wp_on_disconnect c :
  closable c -> (reading_ c = true -> stopped c = true) ->
  wp on_disconnect c (fun _ c' => cinv c' /\ closed_ (ses c') = true).
Proof.
  intros Hi Hrd. unfold on_disconnect, stop_disconnect_watch. wps. apply wp_cancel_active; [by apply closable_watch|].
  intros c' Hi' Hs Hr Ht. wps. destruct (closed_ (ses c')) eqn:Hc; wps; [split; [by apply closed_cinv|done]|].
  apply wp_close; [done..|]. by rewrite Hr, Ht.
Qed.

Lemma wp_arm c : cinv c -> wp arm_disconnect_watch c (fun _ c' => cinv c').
Proof.
  intros Hi. unfold arm_disconnect_watch. wps. destruct (_ || _); wps; [done|]. by apply cinv_quiet, cinv_watch.
Qed.

(** What a response may be. *)
Definition may_respond (c : conn) (r : HandlerResponse) : Prop :=
  reading_ c = false /\
  (active_request_ (ses c) = None \/ stream_mode_ (ses c) = false /\
     exists snap, snap ∈ seen c /\ terminal_snap snap = true /\ serialize_infer_response snap = inr r).

Lemma wp_respond c r :
  sent c = [] -> writing c = None -> responding c = false -> write_queue_ (ses c) = [] ->
  write_in_progress_ (ses c) = false -> json_response_started_ (ses c) = false -> closed_ (ses c) = false ->
  is_open c = true -> overlapped c = false -> (active_request_ (ses c) = None -> seen c = [] /\ posted c = []) ->
  may_respond c r -> wp (send_json_response (status_code r) (body r)) c (fun _ c' => cinv c').
Proof.
  intros Hs Hw Hr Hq Hb Hj Hc Ho Hov Hse [Hrd Hm]. unfold send_json_response, stop_disconnect_watch. wps.
  rewrite Hc, Hj. cbn [orb]. wps. split; simpl.
  - by rewrite Ho, Hc.
  - rewrite Hov. unfold busy_wire. simpl. by rewrite Hr, Hw.
  - done.
  - right. left. unfold answered. simpl. rewrite Ho, Hs. split; [|done]. by exists r.
  - rewrite Hc. done.
Qed.

(** ** Steps *)

(** The part of an update that follows the headers. *)
Definition send_event (snap : RequestSnapshot) : H unit :=
  if is_terminal_state (snap_state snap) then
    _ ← stop_disconnect_watch;
    line ← lift (serialize_terminal_event snap);
    _ ← queue_write line true;
    emit CancelTimer
  else if bool_decide (snap_state snap = Queued) || bool_decide (snap_state snap = Running) then
    line ← lift (serialize_state_event snap);
    queue_write line false
  else mret tt.

Lemma added_line j line b : line_of j = inr line -> added line b = line :: (if b then [""] else []).
Proof.
  intros Hl. unfold added. rewrite bool_decide_false; [done|]. intros ->. destruct (line_text_nonempty j). by rewrite Hl.
Qed.

Lemma pumping_frame L c d w : pumping L c -> pumping L (with_ses (set_watch d w (ses c)) c).
Proof. done. Qed.

Lemma wp_send_event snap old junk c (Q : unit -> conn -> Prop) :
  is_open c = true -> response_started_ (ses c) = true -> (junk <> [] -> has_terminal old = true) ->
  pumping (kHeaders :: event_chunks old ++ junk) c ->
  (forall c' junk', wrote c c' -> (junk' <> [] -> has_terminal (old ++ [snap]) = true) ->
     pumping (kHeaders :: event_chunks (old ++ [snap]) ++ junk') c' -> Q tt c') ->
  wp (send_event snap) c Q.
Proof.
  intros Ho Hr Hj Hp HQ.
  assert (Hnew : exists junk', (junk' <> [] -> has_terminal (old ++ [snap]) = true) /\
    kHeaders :: event_chunks (old ++ [snap]) ++ junk' = (kHeaders :: event_chunks old ++ junk) ++ event_chunks [snap]).
  { unfold has_terminal in *. rewrite existsb_app, event_chunks_app. unfold has_terminal.
    destruct (existsb terminal_snap old) eqn:Ht.
    - exists (junk ++ event_chunks [snap]). split; [done|]. simpl. by rewrite app_nil_r, app_assoc.
    - exists []. assert (junk = []) as -> by (destruct junk; [done|]; by discriminate Hj).
      split; [done|]. simpl. by rewrite !app_nil_r. }
  destruct Hnew as (junk' & Hj' & Heq). unfold send_event, stop_disconnect_watch. simpl in Heq. unfold terminal_snap in Heq.
  destruct (is_terminal_state (snap_state snap)).
  - wps. apply wp_lift. intros line Hl. wps. eapply wp_queue_write; [done..|by apply pumping_frame|].
    intros c' Hw Hp'. wps. eapply (HQ _ junk'); [|done|].
    + eapply wrote_trans; [apply wrote_watch|]. eapply wrote_trans; [exact Hw|apply wrote_timer].
    + rewrite Heq. unfold serialize_terminal_event in *. rewrite (added_line _ _ _ Hl) in Hp'. by rewrite Hl.
  - destruct (_ || _).
    + wps. apply wp_lift. intros line Hl. eapply wp_queue_write; [done..|].
      intros c' Hw Hp'. eapply (HQ _ junk'); [done..|].
      rewrite Heq. unfold serialize_state_event in *. rewrite (added_line _ _ _ Hl) in Hp'. by rewrite Hl.
    + wps. eapply (HQ _ junk'); [apply wrote_same|done|]. by rewrite Heq, app_nil_r.
Qed.

(** A stream that wrote more is a stream. *)
Lemma cinv_wrote c c' junk :
  is_open c = true -> closed_ (ses c) = false -> overlapped c = false -> response_started_ (ses c) = true ->
  stream_mode_ (ses c) = true -> reading_ c = false -> responding c = false ->
  json_response_started_ (ses c) = false -> active_request_ (ses c) <> None -> seen c <> [] ->
  wrote c c' -> (junk <> [] -> has_terminal (seen c) = true) -> pumping (stream_chunks (seen c) ++ junk) c' -> cinv c'.
Proof.
  intros Ho Hc Hov Hr Hm Hrd Hrs Hjs Ha Hne ((q & b & d & w & Hses) & Ho' & Hrd' & Hrs' & Hse & _ & Hl & _ & Hov') Hj Hp.
  split; rewrite ?Hses; simpl; rewrite ?Ho', ?Hc; try done.
  - auto.
  - right. right. unfold streaming, streamed. rewrite Hses. simpl. rewrite Hc, Hrd', Hrs', Hse.
    repeat (split; [done|]). by exists junk.
Qed.

(** A connection whose request was read and not answered. *)
Record unanswered (c : conn) : Prop := {
  un_sent : sent c = []; un_writing : writing c = None; un_responding : responding c = false;
  un_queue : write_queue_ (ses c) = []; un_busy : write_in_progress_ (ses c) = false;
  un_json : json_response_started_ (ses c) = false; un_started : response_started_ (ses c) = false;
  un_closed : closed_ (ses c) = false; un_open : is_open c = true; un_over : overlapped c = false;
  un_seen : seen c = []; un_posted : active_request_ (ses c) = None -> posted c = []; un_reading : reading_ c = false
}.

Lemma unanswered_cinv c : unanswered c -> cinv c.
Proof.
  intros []. split; try done.
  - by rewrite un_open0, un_closed0.
  - auto.
  - left. unfold silent. rewrite un_reading0, un_seen0. repeat (split; [done|]). by destruct (stream_mode_ (ses c)).
  - by rewrite un_closed0.
Qed.

Lemma unanswered_respond c r :
  unanswered c -> active_request_ (ses c) = None ->
  wp (send_json_response (status_code r) (body r)) c (fun _ c' => cinv c').
Proof. intros [] Ha. apply wp_respond; try done; [by auto|]. split; [done|by left]. Qed.

Lemma cinv_reading c :
  cinv c -> stopped c = false -> reading_ c = true -> active_request_ (ses c) = None /\ unanswered (done_read c).
Proof.
  intros [Ho Hov Hse Hm Hst] Hs Hr. destruct Hm as [Hm|[Hm|Hm]].
  - destruct Hm as (? & ? & ? & ? & ? & ? & ? & Hrd & _). destruct (Hrd Hr) as [Ha [?|Hc]]; [congruence|].
    destruct (Hse Ha). rewrite Hc in Ho. by split.
  - destruct Hm as (_ & _ & _ & _ & _ & Hrd). congruence.
  - destruct Hm as [(_ & _ & Hrd & _) _]. congruence.
Qed.

Lemma cinv_read a out c :
  cinv c -> stopped c = false -> reading_ c = true -> wp (on_read a out) (done_read c) (fun _ c' => cinv c').
Proof.
  intros Hi Hs Hr. destruct (cinv_reading c Hi Hs Hr) as [Ha Hu].
  assert (Hu' : forall b, unanswered (with_ses (set_stream b (ses c)) (done_read c))) by (intros b; by destruct Hu).
  assert (Hresp : forall r, wp (send_json_response (status_code r) (body r)) (done_read c) (fun _ c' => cinv c'))
    by (intros r; by apply unanswered_respond).
  assert (Hresp' : forall b r, wp (send_json_response (status_code r) (body r)) (with_ses (set_stream b (ses c)) (done_read c))
    (fun _ c' => cinv c')) by (intros b r; by apply unanswered_respond).
  destruct out as [| |method target text]; cbn [on_read].
  - apply (Hresp (mkResponse 413 "" _)).
  - eapply wp_mono; [|apply wp_close; [by apply cinv_closable, unanswered_cinv| |done]]; [by intros ? ? []|].
    intros l Hl. simpl in Hl. congruence.
  - destruct method; cbn [handle_request].
    + wps. apply wp_lift. intros r _. apply Hresp.
    + wps. destruct (_ && _); [apply (Hresp' _ (mkResponse 404 "" _))|].
      destruct (parse_infer_request text) as [msg|spec]; [apply (Hresp' _ (mkResponse 400 "" _))|].
      unfold start_infer. wps.
      match goal with |- wp _ ?c' _ => assert (Hi' : cinv c') end.
      { apply unanswered_cinv. specialize (Hu' true). by destruct Hu'. }
      destruct (ans_terminal a); wps; [done|by apply wp_arm].
    + apply (Hresp (mkResponse 405 "" _)).
Qed.

(** A write in flight is a write of a stream. *)
Lemma writing_streaming c final : cinv c -> writing c = Some final -> streaming c.
Proof. intros [_ _ _ Hm _] Hw. destruct Hm as [(_ & ? & _)|[(_ & ? & _)|?]]; [congruence..|done]. Qed.

Lemma done_write_closable c final : cinv c -> writing c = Some final -> closable (done_write c).
Proof.
  intros Hi Hw. pose proof (writing_streaming _ _ Hi Hw) as Hm. destruct Hi as [Ho Hov Hse _ Hst].
  split; try done. right. right. split; [by destruct Hm|exact (streaming_wire c Hm)].
Qed.

(** A closed session may still drain its queue: nothing reaches the wire. *)
Lemma cinv_drain c : closable c -> closed_ (ses c) = true -> streamed c -> writing c = None -> cinv (pump c).
Proof.
  intros Hi Hc Hsd Hw.
  destruct (pump_wrote c Hw) as ((q & b & d & w & Hses) & Ho' & Hrd' & Hrs' & Hse' & Hpo & [k Hl] & _ & Hov').
  pose proof Hi as [Ho Hov Hse Hm Hst]. rewrite Hc in Ho.
  assert (Hsent : sent (pump c) = sent c).
  { unfold pump. destruct (write_queue_ (ses c)); [done|]. destruct (bool_decide _); simpl; by rewrite Ho. }
  apply closed_cinv; [|by rewrite Hses]. destruct Hsd as (? & ? & ? & Hrs & ? & Ha & ?).
  split; rewrite ?Hses; simpl; rewrite ?Ho', ?Hc, ?Hse', ?Hpo; try done.
  - by apply Hov'.
  - right. right. unfold streamed, wire_prefix. rewrite Hses, Hrd', Hrs', Hse', Hsent. simpl.
    split; [done|]. destruct Hm as [(Hs & _)|[(_ & _ & _ & _ & ? & _)|[_ ?]]]; [|congruence|done].
    exists []. split; [done|]. apply prefix_nil.
  - intros _ l. rewrite Hses, Hl, Hse'. simpl. intros Hl'. destruct (Hst Hc l Hl'); [left; set_solver|by right].
Qed.

Lemma cinv_written ec final c :
  cinv c -> writing c = Some final -> wp (on_written ec final) (done_write c) (fun _ c' => cinv c').
Proof.
  intros Hi Hw. pose proof (done_write_closable _ _ Hi Hw) as Hd. destruct (writing_streaming _ _ Hi Hw) as [Hsd Hp].
  pose proof Hsd as (Hr & Hsm & Hrd & Hrs & Hjs & Ha & Hne). destruct Hi as [Ho Hov Hse _ Hst].
  unfold on_written. destruct (bool_decide (ec <> NoError)).
  { eapply wp_mono; [|apply wp_on_disconnect; [done|simpl; by rewrite Hrd]]. by intros ? ? []. }
  destruct final; [wps; eapply wp_mono; [|apply wp_close; [by apply closable_quiet| |simpl; by rewrite Hrd]];
    [by intros ? ? []|]|apply wp_do_write].
  - intros l Hl. destruct (closed_ (ses c)).
    { destruct (Hst eq_refl l Hl); [left; simpl; set_solver|by right]. }
    right. simpl. destruct Hp as (junk & Hj & pre & Hs & HL & Hend & [[_ Hw']|(_ & _ & ? & _)]); [|congruence].
    rewrite Hw' in Hw. injection Hw as He. apply bool_decide_eq_true in He. apply chunks_end.
    eapply elem_of_prefix; [done|]. by eapply pumped_prefix.
  - destruct (closed_ (ses c)) eqn:Hc; [by apply cinv_drain|].
    destruct Hp as (junk & Hj & pre & Hs & HL & Hend & [[_ Hw']|(_ & _ & ? & _)]); [|congruence].
    eapply (cinv_wrote (done_write c) _ junk); try done; [by apply pump_wrote|].
    rewrite Hw' in Hw. injection Hw as He. apply bool_decide_eq_false in He. by eapply pump_pumping.
Qed.

Lemma responding_answered c : cinv c -> responding c = true -> answered c.
Proof. intros [_ _ _ Hm _] Hr. destruct Hm as [(_ & _ & ? & _)|[?|[(_ & _ & _ & ? & _) _]]]; [congruence|done|congruence]. Qed.

Lemma answered_settled c : answered c -> settled_for c.
Proof.
  intros [(r & _ & [Ha|(_ & snap & Hin & Ht & _)]) _] l Hl; [congruence|right].
  apply existsb_exists. exists snap. by rewrite <- list_elem_of_In.
Qed.

Lemma cinv_responded ec c :
  cinv c -> responding c = true ->
  wp (on_responded ec) (done_respond c) (fun _ c' => cinv c' /\ closed_ (ses c') = true).
Proof.
  intros Hi Hr. pose proof (responding_answered c Hi Hr) as Ha. pose proof Ha as (_ & _ & _ & _ & _ & Hrd).
  assert (Hd : closable (done_respond c)) by (destruct Hi; split; try done; right; left; done).
  unfold on_responded. destruct (bool_decide (ec <> NoError)).
  - apply wp_cancel_close; [done|simpl; by rewrite Hrd].
  - wps. apply wp_close; [by apply closable_quiet| |simpl; by rewrite Hrd].
    intros l Hl. destruct (answered_settled c Ha l Hl); [left; simpl; set_solver|by right].
Qed.

Lemma cinv_peer wait_ec read_ec n c :
  cinv c -> (reading_ c = true -> stopped c = true \/ waiting c = false) -> waiting c = true ->
  wp (on_peer_wait wait_ec read_ec n) (done_wait c) (fun _ c' => cinv c').
Proof.
  intros Hi Hrd Hw. assert (Hd : cinv (done_wait c)) by (by destruct Hi).
  assert (Hrd' : reading_ c = true -> stopped c = true) by (intros ?; destruct Hrd; [done|done|congruence]).
  pose proof (cinv_watch (done_wait c) false (disconnect_watch_active_ (ses c)) Hd) as Hi'. simpl in Hi'.
  unfold on_peer_wait. wps. cbn [ses done_wait].
  match goal with |- context [wp _ ?x _] => set (c' := x) in * end.
  assert (Hgone : wp on_disconnect c' (fun _ c' => cinv c')).
  { eapply wp_mono; [|apply wp_on_disconnect; [by apply cinv_closable|done]]. by intros ? ? []. }
  pose proof (wp_arm c' Hi') as Harm. repeat case_match; try done; by wps.
Qed.

Lemma cinv_post c snaps : cinv c -> active_request_ (ses c) <> None -> cinv (post snaps c).
Proof. intros [Ho Hov Hse Hm Hst] Ha. by split. Qed.

(** *** Updates *)

Lemma see_closed c snap rest : closed_ (ses c) = true -> posted c = snap :: rest -> cinv c -> cinv (see snap c).
Proof.
  intros Hc Hp Hi. destruct Hi as [Ho Hov Hse Hm Hst].
  assert (Hseen : seen (see snap c) = seen c) by (simpl; by rewrite Hc).
  split; try done.
  - rewrite Hseen. intros Ha. destruct (Hse Ha). simpl. by rewrite Hp in *.
  - unfold silent, answered, streaming, streamed, wire_prefix, pumping in *. by rewrite Hseen.
  - unfold settled_for in *. by rewrite Hseen.
Qed.

Lemma has_terminal_snoc snaps snap : has_terminal (snaps ++ [snap]) = has_terminal snaps || terminal_snap snap.
Proof. unfold has_terminal. rewrite existsb_app. simpl. by rewrite orb_false_r. Qed.

(** A session that answers with one response. *)
Lemma cinv_update_json c snap :
  cinv c -> closed_ (ses c) = false -> active_request_ (ses c) <> None -> stream_mode_ (ses c) = false ->
  wp (on_state_update snap) (see snap c) (fun _ c' => cinv c').
Proof.
  intros Hi Hc Ha Hsm. pose proof Hi as [Ho Hov Hse Hm Hst]. unfold on_state_update. wps. cbn [ses see]. rewrite Hc in *.
  wps. cbn [ses see]. rewrite Hsm.
  assert (Hseen : seen (see snap c) = seen c ++ [snap]) by (simpl; by rewrite Hc).
  destruct Hm as [Hm|[Hm|[(_ & ? & _) _]]]; [| |congruence].
  - destruct Hm as (? & ? & ? & ? & ? & ? & ? & Hrd & Ht). rewrite Hsm in Ht.
    assert (Hrd' : reading_ c = false) by (destruct (reading_ c); [|done]; by destruct Hrd).
    destruct (is_terminal_state (snap_state snap)) eqn:Hts; simpl; wps.
    + unfold stop_disconnect_watch. wps. apply wp_lift. intros r Hs.
      apply wp_respond; simpl; try done.
      split; [done|right]. split; [done|]. exists snap. simpl. rewrite Hc. split; [set_solver|done].
    + split; simpl; rewrite ?Hc; try done. left. unfold silent. simpl. rewrite Hc, Hsm, has_terminal_snoc, Ht.
      unfold terminal_snap. rewrite Hts. by rewrite Hrd'.
  - assert (Hi' : cinv (see snap c)).
    { split; simpl; rewrite ?Hc; try done. right. left. unfold answered in *. rewrite Hseen. simpl.
      destruct Hm as [(r & Hs & Hr) Hm]. split; [|done]. exists r. split; [done|].
      destruct Hr as [?|(? & x & ? & ? & ?)]; [by left|right]. split; [done|]. exists x. set_solver. }
    destruct (is_terminal_state (snap_state snap)) eqn:Hts; simpl; wps; [|done].
    unfold stop_disconnect_watch. wps. apply wp_lift. intros r Hs. unfold send_json_response. wps. simpl.
    destruct Hm as (_ & _ & _ & _ & -> & _). rewrite orb_true_r. wps.
    exact (cinv_quiet _ CancelTimer eq_refl (cinv_watch (see snap c) _ _ Hi')).
Qed.

(** A session that streams. *)
Lemma cinv_update_stream c snap :
  cinv c -> closed_ (ses c) = false -> active_request_ (ses c) <> None -> stream_mode_ (ses c) = true ->
  wp (on_state_update snap) (see snap c) (fun _ c' => cinv c').
Proof.
  intros Hi Hc Ha Hsm. pose proof Hi as [Ho Hov Hse Hm Hst]. rewrite Hc in *.
  assert (Hseen : seen (see snap c) = seen c ++ [snap]) by (simpl; by rewrite Hc).
  assert (Hshape : forall junk, stream_chunks (seen c ++ [snap]) ++ junk = kHeaders :: event_chunks (seen c ++ [snap]) ++ junk)
    by (intros junk; by destruct (seen c)).
  unfold on_state_update. wps. cbn [ses see]. rewrite Hc. wps. cbn [ses see]. rewrite Hsm. wps. cbn [ses see].
  destruct Hm as [Hm|[Hm|[Hsd Hp]]].
  - destruct Hm as (Hs & Hw & Hrs & Hq & Hb & Hj & Hr & Hrd & Ht). rewrite Hsm in Ht. rewrite Hr. cbn [negb].
    assert (Hrd' : reading_ c = false) by (destruct (reading_ c); [|done]; by destruct Hrd).
    unfold stop_disconnect_watch. wps.
    eapply (wp_queue_write []); [done|done| |].
    { exists []. simpl. rewrite Hs, Hq, Hb, Hw. split; [done|]. split; [done|]. split; [by intros [|? ?] l2|].
      right. repeat (split; [done|]). apply not_elem_of_nil. }
    intros c1 Hw1 Hp1. eapply (wp_send_event snap [] []); [by destruct Hw1 as (_ & -> & _)| |done|done|].
    { destruct Hw1 as ((? & ? & ? & ? & ->) & _). done. }
    intros c2 junk Hw2 Hj2 Hp2. eapply (cinv_wrote _ _ junk); [..|exact (wrote_trans _ _ _ Hw1 Hw2)| |]; try done.
    + cbn [seen see with_ses]. by rewrite Hc, Ht.
    + cbn [seen see with_ses]. by rewrite Hc, Ht.
    + cbn [seen see with_ses]. by rewrite Hc, Ht.
  - destruct Hm as ((r & _ & [?|[? _]]) & _); congruence.
  - rewrite Hc in Hp. destruct Hp as (junk & Hj & Hp). pose proof Hsd as (Hr & _ & Hrd & Hrs & Hjs & _ & Hne). rewrite Hr. cbn [negb]. wps.
    eapply (wp_send_event snap (seen c) junk); [done..| |].
    { revert Hp. unfold stream_chunks. by destruct (seen c). }
    intros c2 junk' Hw2 Hj2 Hp2. eapply (cinv_wrote _ _ junk'); [..|exact Hw2| |]; try done.
    + rewrite Hseen. by destruct (seen c).
    + by rewrite Hseen.
    + by rewrite Hseen, Hshape.
Qed.

(** ** Who keeps a session *)

(** Something will run that answers the request: the wait for the peer, or the
    delivery of its end. The last case is a request found terminal before its
    end was posted. *)
Definition attended (c : conn) : Prop :=
  (waiting c = true /\ disconnect_watch_active_ (ses c) = true) \/ has_terminal (posted c) = true \/
  exists l updates, Submit l updates true ∈ log_ c /\ has_terminal updates = false.

Definition tidy (c : conn) : Prop :=
  disconnect_watch_armed_ (ses c) = waiting c /\ (reading_ c = true -> waiting c = false).

Definition started (c : conn) : Prop :=
  tidy c /\ response_started_ (ses c) = true /\ json_response_started_ (ses c) = false.

Definition finished (c : conn) : Prop := tidy c /\ closed_ (ses c) = true.

Record kept (c : conn) : Prop := {
  kp_tidy : tidy c;
  kp_attended : closed_ (ses c) = false -> response_started_ (ses c) = false ->
    json_response_started_ (ses c) = false -> reading_ c = true \/ attended c;
  kp_responding : closed_ (ses c) = false -> json_response_started_ (ses c) = true -> responding c = true
}.

Lemma started_kept c : started c -> kept c.
Proof. intros (? & ? & ?). split; [done|congruence..]. Qed.

Lemma finished_kept c : finished c -> kept c.
Proof. intros (? & ?). split; [done|congruence..]. Qed.

Lemma wp_close_tidy c : tidy c -> wp close c (fun _ c' => finished c').
Proof.
  intros Ht. unfold close, stop_disconnect_watch. wps. destruct (closed_ (ses c)) eqn:Hc; by wps.
Qed.

Lemma wp_cancel_tidy c (Q : unit -> conn -> Prop) :
  tidy c -> (forall c', tidy c' -> ses c' = ses c -> Q tt c') -> wp cancel_active c Q.
Proof. intros Ht HQ. unfold cancel_active. wps. destruct (active_request_ (ses c)); wps; by apply HQ. Qed.

Lemma wp_disconnect_tidy c : tidy c -> wp on_disconnect c (fun _ c' => finished c').
Proof.
  intros Ht. unfold on_disconnect, stop_disconnect_watch. wps. apply wp_cancel_tidy; [done|]. intros c' Ht' _. wps.
  destruct (closed_ (ses c')) eqn:Hc; wps; [done|]. by apply wp_close_tidy.
Qed.

Lemma wp_respond_kept c code text :
  tidy c -> (closed_ (ses c) = false -> json_response_started_ (ses c) = true -> responding c = true) ->
  wp (send_json_response code text) c (fun _ c' => kept c').
Proof.
  intros Ht Hr. unfold send_json_response, stop_disconnect_watch. wps.
  destruct (closed_ (ses c)) eqn:Hc; [wps; by apply finished_kept|].
  destruct (json_response_started_ (ses c)) eqn:Hj; wps; (split; [done| |]); simpl; rewrite ?Hc, ?Hj; try done; auto.
Qed.

Lemma pump_started c : started c -> started (pump c).
Proof. unfold pump. destruct (write_queue_ (ses c)); [done|]. by destruct (bool_decide _). Qed.

Lemma wp_queue_started c data b : started c -> wp (queue_write data b) c (fun _ c' => started c').
Proof.
  intros Hs. unfold queue_write.
  assert (Hend : forall x, started x ->
    wp (if negb (write_in_progress_ (ses x)) then do_write else mret tt) x (fun _ c' => started c')).
  { intros x Hx. destruct (write_in_progress_ (ses x)); simpl; [by wps|]. by apply wp_do_write, pump_started. }
  wps. destruct (negb _); wps; destruct b; wps; by apply Hend.
Qed.

Lemma wp_event_started snap c : started c -> wp (send_event snap) c (fun _ c' => started c').
Proof.
  intros Hs. unfold send_event, stop_disconnect_watch. destruct (is_terminal_state (snap_state snap)).
  - wps. apply wp_lift. intros line _. wps. eapply wp_mono; [|by apply wp_queue_started]. intros ? ? ?. by wps.
  - destruct (_ || _); [|by wps]. wps. apply wp_lift. intros line _. by apply wp_queue_started.
Qed.

Lemma kept_read a out c :
  cinv c -> stopped c = false -> reading_ c = true -> kept c ->
  wp (on_read a out) (done_read c) (fun _ c' => kept c').
Proof.
  intros Hi Hs Hr [[Harm Hrd] _ _]. specialize (Hrd Hr). rewrite Hrd in Harm.
  destruct (cinv_reading c Hi Hs Hr) as [Ha []]. simpl in *.
  assert (Ht : forall b, tidy (with_ses (set_stream b (ses c)) (done_read c))) by (intros b; by split; simpl; rewrite Hrd).
  assert (Hresp : forall b code text, wp (send_json_response code text) (with_ses (set_stream b (ses c)) (done_read c))
    (fun _ c' => kept c')) by (intros; apply wp_respond_kept; [done|simpl; congruence]).
  assert (Hsame : with_ses (set_stream (stream_mode_ (ses c)) (ses c)) (done_read c) = done_read c) by (by destruct c as [[]]).
  destruct out as [| |method target text]; cbn [on_read].
  - rewrite <- Hsame. apply Hresp.
  - eapply wp_mono; [|apply wp_close_tidy; rewrite <- Hsame; apply Ht]. intros ? ?. apply finished_kept.
  - destruct method; cbn [handle_request].
    + wps. apply wp_lift. intros r _. rewrite <- Hsame. apply Hresp.
    + wps. destruct (_ && _); [apply Hresp|]. destruct (parse_infer_request text) as [msg|spec]; [apply Hresp|].
      unfold start_infer. wps. destruct (ans_terminal a) eqn:Hterm; wps.
      * split; [split; simpl; congruence| |simpl; congruence]. intros _ _ _. right. right. simpl. rewrite un_posted0 by done. simpl.
        destruct (has_terminal (ans_updates a)) eqn:Hup; [by left|right].
        exists (ans_loc a), (ans_updates a). set_solver.
      * unfold arm_disconnect_watch. wps. simpl. rewrite un_closed0, Harm. simpl. wps. split; simpl; [|auto..|congruence].
        -- split; [done|]. simpl. congruence.
        -- intros _ _ _. right. by left.
    + rewrite <- Hsame. apply Hresp.
Qed.

Lemma kept_written ec final c :
  cinv c -> writing c = Some final -> kept c -> wp (on_written ec final) (done_write c) (fun _ c' => kept c').
Proof.
  intros Hi Hw [Ht _ _]. destruct (writing_streaming _ _ Hi Hw) as [(Hr & _ & _ & _ & Hj & _) _].
  unfold on_written. destruct (bool_decide (ec <> NoError)).
  { eapply wp_mono; [|by apply wp_disconnect_tidy]. intros ? ?. apply finished_kept. }
  destruct final; wps.
  - eapply wp_mono; [|by apply wp_close_tidy]. intros ? ?. apply finished_kept.
  - apply wp_do_write, started_kept, pump_started. done.
Qed.

Lemma kept_responded ec c : kept c -> wp (on_responded ec) (done_respond c) (fun _ c' => kept c').
Proof.
  intros [Ht _ _]. eapply wp_mono; [intros ? ?; apply finished_kept|]. unfold on_responded.
  destruct (bool_decide (ec <> NoError)); wps; [|by apply wp_close_tidy].
  apply wp_cancel_tidy; [done|]. intros c' ? _. by apply wp_close_tidy.
Qed.

Lemma kept_peer wait_ec read_ec n c :
  waiting c = true -> (wait_ec = OperationAborted -> closed_ (ses c) = true) -> kept c ->
  wp (on_peer_wait wait_ec read_ec n) (done_wait c) (fun _ c' => kept c').
Proof.
  intros Hw Hab [[Harm Hrd] Hatt Hresp]. unfold on_peer_wait. wps. cbn [ses done_wait].
  match goal with |- context [wp _ ?x _] => set (c' := x) in * end.
  assert (Ht : tidy c') by (by split).
  assert (Hgone : wp on_disconnect c' (fun _ c' => kept c')).
  { eapply wp_mono; [|by apply wp_disconnect_tidy]. intros ? ?. apply finished_kept. }
  assert (Hcl : closed_ (ses c) = false -> wp arm_disconnect_watch c' (fun _ c' => kept c')).
  { intros Hc. unfold arm_disconnect_watch. wps. simpl. rewrite Hc. simpl. wps. split; simpl; [|intros _ _ _; right; by left|done].
    split; [done|]. simpl. intros Hr. rewrite Hrd in Hw by done. done. }
  simpl. destruct (closed_ (ses c)) eqn:Hc; [wps; by apply finished_kept|].
  destruct (disconnect_watch_active_ (ses c)) eqn:Hwa; simpl.
  - rewrite bool_decide_false by (intros ?; by discriminate Hab). repeat case_match; try done; auto.
  - wps. split; [done| |intros _; by apply Hresp]. intros _ Hrs Hjs. simpl in Hrs, Hjs.
    destruct (Hatt eq_refl Hrs Hjs) as [?|[[_ ?]|?]]; [by left|congruence|right; by right].
Qed.

Lemma kept_post c snaps : kept c -> kept (post snaps c).
Proof.
  intros [Ht Hatt Hresp]. split; [done| |done]. simpl. intros Hc Hrs Hjs.
  destruct (Hatt Hc Hrs Hjs) as [?|[?|[Hp|?]]]; [by left|right..].
  - by left.
  - right. left. simpl. unfold has_terminal in *. by rewrite existsb_app, Hp.
  - by right; right.
Qed.

Lemma kept_update c snap rest :
  cinv c -> posted c = snap :: rest -> kept c -> wp (on_state_update snap) (see snap c) (fun _ c' => kept c').
Proof.
  intros Hi Hp [Ht Hatt Hresp]. unfold on_state_update. wps. cbn [ses see].
  destruct (closed_ (ses c)) eqn:Hc; [wps; by apply finished_kept|].
  assert (Ha : active_request_ (ses c) <> None).
  { intros Ha. destruct (ci_seen _ _ Hi Ha) as [_ ?]. congruence. }
  wps. cbn [ses see]. destruct (stream_mode_ (ses c)) eqn:Hsm.
  - assert (Hj : json_response_started_ (ses c) = false).
    { destruct (ci_mode _ _ Hi) as [(_ & _ & _ & _ & _ & ? & _)|[((r & _ & [?|[? _]]) & _)|[(_ & _ & _ & _ & ? & _) _]]]; congruence. }
    assert (Hev : forall x, started x -> wp (send_event snap) x (fun _ c' => kept c')).
    { intros x Hx. eapply wp_mono; [|by apply wp_event_started]. intros ? ?. apply started_kept. }
    wps. cbn [ses see]. destruct (response_started_ (ses c)) eqn:Hr; cbn [negb]; wps; [by apply Hev|].
    unfold stop_disconnect_watch. wps. eapply wp_mono; [|by apply wp_queue_started]. intros [] c' Hs. by apply Hev.
  - destruct (is_terminal_state (snap_state snap)) eqn:Hts; simpl.
    + unfold stop_disconnect_watch. wps. apply wp_lift. intros r _. apply wp_respond_kept; [done|]. simpl. auto.
    + wps. split; [done| |intros _; by apply Hresp]. intros _ Hrs Hjs. destruct (Hatt eq_refl Hrs Hjs) as [?|[?|[Hpt|?]]]; [by left|right..].
      * by left.
      * right. left. simpl. rewrite Hp in *. simpl in *. unfold terminal_snap in Hpt. by rewrite Hts in Hpt.
      * by right; right.
Qed.

(** ** Every connection *)

Lemma step_inv c c' : step c c' -> cinv c -> kept c -> cinv c' /\ kept c'.
Proof.
  intros Hst Hi Hk. destruct Hst.
  - split; (eapply (wp_run _ _ _ (fun _ => _)); [|eassumption]); [by apply cinv_read|by apply kept_read].
  - split; (eapply (wp_run _ _ _ (fun _ => _)); [|eassumption]); [by apply cinv_written|by apply kept_written].
  - split; (eapply (wp_run _ _ _ (fun _ => _)); [|eassumption]); [|by apply kept_responded].
    eapply wp_mono; [|by apply cinv_responded]. by intros ? ? [].
  - split; (eapply (wp_run _ _ _ (fun _ => _)); [|eassumption]); [|by apply kept_peer].
    apply cinv_peer; [done| |done]. destruct (kp_tidy _ Hk). auto.
  - split; [by apply cinv_post|by apply kept_post].
  - split; (eapply (wp_run _ _ _ (fun _ => _)); [|eassumption]); [|by eapply kept_update].
    destruct (closed_ (ses c)) eqn:Hc.
    { unfold on_state_update. wps. simpl. rewrite Hc. wps. by eapply see_closed. }
    assert (active_request_ (ses c) <> None).
    { intros Ha. destruct (ci_seen _ _ Hi Ha) as [_ ?]. congruence. }
    destruct (stream_mode_ (ses c)) eqn:?; [by apply cinv_update_stream|by apply cinv_update_json].
  - split; (eapply (wp_run _ _ _ (fun _ => _)); [|eassumption]); unfold on_deadline; destruct (bool_decide _); wps; try done.
    + by apply cinv_quiet.
    + destruct Hk as [Ht Hatt Hresp]. split; [done| |done]. intros Hc Hrs Hjs.
      destruct (Hatt Hc Hrs Hjs) as [?|[?|[?|(l' & ups & Hin & ?)]]]; [by left|right..]; [by left|by right; left|].
      right. right. exists l', ups. simpl. set_solver.
  - split; (eapply (wp_run _ _ _ (fun _ => _)); [|eassumption]); unfold shutdown.
    + eapply wp_mono; [|apply wp_cancel_close; [|done]]; [by intros ? ? []|]. apply cinv_closable. destruct Hi as [Ho Hov Hse Hm Hst].
      split; try done. destruct Hm as [Hm|?]; [left|by right]. unfold silent in *. simpl. naive_solver.
    + wps. apply wp_cancel_tidy; [by destruct Hk|]. intros x Hx _. eapply wp_mono; [|by apply wp_close_tidy].
      intros ? ?. apply finished_kept.
Qed.

Lemma reachable_inv c : reachable c -> cinv c /\ kept c.
Proof.
  induction 1 as [c Hrun | c c' _ [Hi Hk] Hst]; [|by eapply step_inv].
  injection Hrun as <-. split.
  - split; try done. left. unfold silent. simpl. repeat (split; [done|]). split; [|done]. intros _. split; [done|by right].
  - split; try done. intros _ _ _. by left.
Qed.

(** An open stream with no write in flight has sent all there is. *)
Lemma streaming_idle c :
  streaming c -> closed_ (ses c) = false -> writing c = None -> sent c = map render (stream_chunks (seen c)).
Proof.
  intros [_ Hp] Hc Hw. rewrite Hc in Hp. destruct Hp as (junk & Hj & pre & Hs & HL & _ & Hst).
  destruct Hst as [[_ ?]|(Hq & _ & _ & Hno)]; [congruence|]. rewrite Hq, app_nil_r in HL. rewrite Hs. f_equal.
  destruct junk as [|x junk]; [by rewrite app_nil_r in HL|]. destruct Hno. rewrite HL. apply elem_of_app. left.
  by apply chunks_end, Hj.
Qed.

Lemma session_wire_cases c :
  reachable c ->
  sent c = [] \/
   (exists r, sent c = [WResponse (status_code r) (body r)] /\
      (active_request_ (ses c) = None \/
       exists snap, snap ∈ seen c /\ terminal_snap snap = true /\ serialize_infer_response snap = inr r)) \/
   (active_request_ (ses c) <> None /\ stream_mode_ (ses c) = true /\
    (exists pre, sent c = map render pre /\ pre `prefix_of` stream_chunks (seen c)) /\
    (is_open c = true -> writing c = None -> sent c = map render (stream_chunks (seen c)))).
Proof.
  intros [[Ho _ _ Hm _] _]%reachable_inv.
  destruct Hm as [[Hs _]|[[(r & Hs & Hr) _]|Hm]]; [by left|right; left|right; right].
  - exists r. split; [done|]. destruct Hr as [?|[_ ?]]; [by left|by right].
  - pose proof Hm as [(_ & ? & _ & _ & _ & ? & _) _]. split; [done|]. split; [done|]. split; [by apply streaming_wire|].
    intros Hopen. apply streaming_idle; [done|]. rewrite Hopen in Ho. by destruct (closed_ (ses c)).
Qed.

(** C22: What a connection sends. In every reachable state no write was started
    while another was in flight, and what was handed to the socket is nothing;
    or one response, which for an accepted request is the serialized end of
    that request; or a stream of that request: a prefix of the headers, the
    events of the updates delivered, in their order and up to the first
    terminal one, and the end mark, and all of it when the connection is open
    and no write is in flight. *)
Theorem session_wire c :
  reachable c ->
  overlapped c = false /\
  (sent c = [] \/
   (exists r, sent c = [WResponse (status_code r) (body r)] /\
      (active_request_ (ses c) = None \/
       exists snap, snap ∈ seen c /\ terminal_snap snap = true /\ serialize_infer_response snap = inr r)) \/
   (active_request_ (ses c) <> None /\ stream_mode_ (ses c) = true /\
    (exists pre, sent c = map render pre /\ pre `prefix_of` stream_chunks (seen c)) /\
    (is_open c = true -> writing c = None -> sent c = map render (stream_chunks (seen c))))).
Proof.
  intros Hc. split; [|by apply session_wire_cases]. by apply (ci_over _ _ (proj1 (reachable_inv c Hc))).
Qed.

(** C24: Closing never abandons a request. When a session has closed its
    connection, its socket is closed and its request, if it accepted one, was
    asked to cancel, or a terminal update of it was delivered. *)
Theorem session_settles c l :
  reachable c -> closed_ (ses c) = true -> active_request_ (ses c) = Some l ->
  is_open c = false /\ (CancelIfLive l ∈ log_ c \/ has_terminal (seen c) = true).
Proof. intros [[Ho _ _ _ Hst] _]%reachable_inv Hc Hl. rewrite Hc in Ho. split; [done|]. by apply Hst. Qed.

End connections.

(** ** Concrete sessions *)

#[local] Existing Instance demo_json.

Definition demo_snap (s : RequestState) : RequestSnapshot := mkSnapshot "http-1" "m" s None.
Definition demo_answers : answers := mkAnswers (inr (mkResponse 200 "" "")) 1%positive "http-1" 0 [demo_snap Queued] false.

(** A connection after a handler, evaluated. *)
Definition after (h : H unit) (c : conn) : conn := default c (run h c).

Definition demo_started : conn := Eval vm_compute in after start fresh_conn.
Definition demo_accepted (target : string) : conn :=
  after (on_read demo_answers (ReadOk Post target "demo")) (done_read demo_started).
Definition demo_headers : conn :=
  Eval vm_compute in
    after (on_state_update (demo_snap Queued)) (see (demo_snap Queued) (demo_accepted "/v1/infer/stream")).
Definition demo_streaming : conn := Eval vm_compute in after (on_written NoError false) (done_write demo_headers).
Definition demo_idle : conn := Eval vm_compute in after (on_written NoError false) (done_write demo_streaming).
Definition demo_dropped : conn := Eval vm_compute in after (on_peer_wait NoError Eof 0) (done_wait demo_idle).

Lemma demo_started_reachable : reachable demo_started.
Proof. by apply reach_start. Qed.

Lemma demo_accepted_reachable target : target ∈ ["/v1/infer"; "/v1/infer/stream"] -> reachable (demo_accepted target).
Proof.
  intros Hin. eapply reach_step; [apply demo_started_reachable|].
  apply (step_read _ demo_answers (ReadOk Post target "demo")); [done..|].
  repeat (apply elem_of_cons in Hin as [->|Hin]; [by vm_compute|]). by apply elem_of_nil in Hin.
Qed.

Lemma demo_idle_reachable : reachable demo_idle.
Proof.
  apply (reach_step demo_streaming); [|by apply (step_written _ NoError false)].
  apply (reach_step demo_headers); [|by apply (step_written _ NoError false)].
  apply (reach_step (demo_accepted "/v1/infer/stream")); [apply demo_accepted_reachable; set_solver|].
  by apply (step_update _ (demo_snap Queued) []).
Qed.

(** A stream is not always kept. A client that closes or half-closes its side
    after the first event of its stream ends the wait for the peer, which is no
    longer watched and not armed again: with no write in flight nothing owns
    the session, although its connection is open and its request is live and
    was not cancelled. *)
Theorem stream_session_dropped :
  exists c, reachable c /\ alive c = false /\ closed_ (ses c) = false /\
    active_request_ (ses c) = Some 1%positive /\ has_terminal (seen c) = false /\
    CancelIfLive 1%positive ∉ log_ c.
Proof.
  exists demo_dropped. split.
  { apply (reach_step demo_idle); [apply demo_idle_reachable|]. by apply (step_peer _ NoError Eof 0). }
  split_and!; try done. vm_compute. set_solver.
Qed.

Lemma session_wire_witness :
  reachable demo_idle /\ overlapped demo_idle = false /\ sent demo_idle <> [].
Proof. split; [apply demo_idle_reachable|]. split; [apply (session_wire demo_idle), demo_idle_reachable|done]. Defined.

Definition demo_closed : conn := Eval vm_compute in after (on_peer_wait NoError Eof 0) (done_wait (demo_accepted "/v1/infer")).

Lemma demo_closed_reachable : reachable demo_closed.
Proof.
  apply (reach_step (demo_accepted "/v1/infer")); [apply demo_accepted_reachable; set_solver|].
  by apply (step_peer _ NoError Eof 0).
Qed.

Lemma session_settles_witness :
  is_open demo_closed = false /\
  (CancelIfLive 1%positive ∈ log_ demo_closed \/ has_terminal (seen demo_closed) = true).
Proof. apply (session_settles demo_closed 1%positive demo_closed_reachable); reflexivity. Defined.

