(* ===== verification/Service.v ===== *)
(** * A connection and the runtime

    The runtime of [Machine.v] with one connection of [Session.v]. The request
    of an accepted body is a request of the runtime; the session's observer
    posts to the session what the runtime reports of it, in order, while the
    session is there. Everything else the session does with its request
    (submitting, cancelling, timing out) is done by callers of the machine, as
    are all other connections: they may do it at any time. *)

From stdpp Require Import vector finite relations.
From S2P Require Import Prelude Status Requests World Queue Registry Resources Eviction.
From S2P Require Import Backends Manager Router Batch Scheduler Admission Worker Runtime Programs.
From S2P Require Import RuntimeProofs Machine MachineRuns MachineProofs Shutdown Reports Handler Session SessionProofs.
Import InferenceRequest.
Import RequestHandler.
Import HttpSession.

#[local] Existing Instance machine_shared.
#[local] Existing Instance machine_scheduler.

#[local] Instance snapshot_eq : EqDecision RequestSnapshot.
Proof. solve_decision. Defined.

Section service.
Context {R B : Type} {n : nat} `{!IWorkerRouter R} `{!IModelBackend B} `{HO : !HashOrder} `{JL : !JsonLib}.
(** The identity of the session's observer. *)
Context (observer : RequestObserver).
#[local] Notation machine := (machine (R := R) (B := B) (n := n)).

(** [told_updates] counts the reports the observer was called with. *)
Record service := mkService { runtime : machine; connection : conn; told_updates : nat }.

(** The request [start_infer] makes. *)
Definition infer_request (id : string) (spec : InferRequestSpec) (deadline : time_point) : InferenceRequest.t :=
  (add_observer (Some observer) (set_deadline (Some deadline)
    (InferenceRequest.new id (is_model_id spec) (is_prompt spec) (is_max_output_tokens spec)))).1.

(** What the runtime reported of the request to the observer. *)
Definition updates_for (l : loc) (log : list (loc * notification)) : list RequestSnapshot :=
  omap (fun e => if decide (e.1 = l /\ e.2.1 = observer) then Some e.2.2 else None) log.

Definition add_request (l : loc) (r : InferenceRequest.t) (m : machine) : machine :=
  mkMachine (set_heap (<[l := r]> (heap (world m))) (world m)) (pool m).

Definition posts_nothing (c c' : conn) : Prop :=
  posted c' = posted c \/ exists snap, posted c = snap :: posted c'.

Inductive service_step (s : service) : service -> Prop :=
  | service_runtime m' :
      Machine.step (runtime s) m' -> service_step s (mkService m' (connection s) (told_updates s))
  | service_session c' :
      Session.step (connection s) c' -> posts_nothing (connection s) c' ->
      active_request_ (ses c') = active_request_ (ses (connection s)) ->
      service_step s (mkService (runtime s) c' (told_updates s))
  | service_infer a target text spec c' :
      stopped (connection s) = false -> reading_ (connection s) = true ->
      target = "/v1/infer" \/ target = "/v1/infer/stream" -> parse_infer_request text = inr spec ->
      ans_updates a = [] -> heap (world (runtime s)) !! ans_loc a = None ->
      Session.run (on_read a (ReadOk Post target text)) (done_read (connection s)) = Some c' ->
      service_step s (mkService
        (add_request (ans_loc a) (infer_request (ans_id a) spec (ans_now a + is_timeout spec * 1000000)) (runtime s))
        c' 0)
  | service_post l snap :
      active_request_ (ses (connection s)) = Some l -> stopped (connection s) = false ->
      updates_for l (log (world (runtime s))) !! told_updates s = Some snap -> alive (connection s) = true ->
      service_step s (mkService (runtime s) (post [snap] (connection s)) (S (told_updates s)))
  | service_drop l snap :
      active_request_ (ses (connection s)) = Some l ->
      updates_for l (log (world (runtime s))) !! told_updates s = Some snap ->
      alive (connection s) = false \/ stopped (connection s) = true ->
      service_step s (mkService (runtime s) (connection s) (S (told_updates s))).

Inductive service_reachable : service -> Prop :=
  | service_start m c :
      initial m -> Session.run start fresh_conn = Some c -> service_reachable (mkService m c 0)
  | service_next s s' : service_reachable s -> service_step s s' -> service_reachable s'.

(** ** The connection and the runtime agree *)

(** What the session got is what the runtime reported of its request. *)
Record agrees (s : service) : Prop := {
  ag_machine : Machine.reachable (runtime s);
  ag_connection : Session.reachable (connection s);
  ag_request l : active_request_ (ses (connection s)) = Some l ->
    exists id spec d r, NewRequest l id spec d ∈ log_ (connection s) /\
      heap (world (runtime s)) !! l = Some r /\ evolves (infer_request id spec d) r /\ Reports.attended l observer (runtime s);
  ag_updates l snap : active_request_ (ses (connection s)) = Some l ->
    snap ∈ seen (connection s) ++ posted (connection s) -> (l, (observer, snap)) ∈ log (world (runtime s))
}.

Lemma elem_of_updates l log snap : snap ∈ updates_for l log -> (l, (observer, snap)) ∈ log.
Proof.
  intros ([l' [o s']] & Hin & Hs)%list_elem_of_omap. simpl in Hs. destruct (decide _) as [[-> ->]|]; [|done].
  by injection Hs as <-.
Qed.

Lemma seen_foldl acts c : seen (foldl perform c acts) = seen c.
Proof. revert c. induction acts as [|a acts IH]; intros c; [done|]. cbn [foldl]. rewrite IH. by destruct a. Qed.

Lemma run_keeps h c c' : Session.run h c = Some c' -> seen c' = seen c /\ log_ c `prefix_of` log_ c'.
Proof.
  unfold Session.run. destruct (h (ses c)) as [[e|u] [s acts]]; [done|]. intros [= <-].
  rewrite seen_foldl, log_foldl. split; [done|]. by apply prefix_app_r.
Qed.

(** A step of a session only sees what was posted to it. *)
Lemma step_keeps c c' :
  Session.step c c' ->
  log_ c `prefix_of` log_ c' /\
  (seen c' = seen c \/ exists snap, snap ∈ posted c /\ seen c' = seen c ++ [snap]).
Proof.
  destruct 1 as [a out c' _ _ Hr|ec final c' _ _ Hr|ec c' _ _ Hr|we re k c' _ _ _ Hr|snap _ _ _|snap rest c' _ Hp Hr|ec l c' _ _ _ Hr|c' _ _ Hr];
    try (apply run_keeps in Hr as [Hs Hl]; simpl in *; by split; [|left]).
  - by split; [|left].
  - apply run_keeps in Hr as [Hs Hl]. split; [done|]. rewrite Hs. simpl. destruct (closed_ (ses c)); [by left|right].
    exists snap. rewrite Hp. split; [by left|done].
Qed.

Lemma step_sees c c' snap :
  Session.step c c' -> posts_nothing c c' -> snap ∈ seen c' ++ posted c' -> snap ∈ seen c ++ posted c.
Proof.
  intros [_ Hs]%step_keeps Hp. rewrite !elem_of_app. intros [Hin|Hin].
  - destruct Hs as [Hs|(x & Hx & Hs)]; rewrite Hs in Hin; [by left|].
    apply elem_of_app in Hin as [?|Hin]; [by left|right]. apply list_elem_of_singleton in Hin. by subst.
  - right. destruct Hp as [Hp|(x & Hp)]; [by rewrite <- Hp|rewrite Hp; by right].
Qed.

Lemma reading_inactive c : Session.reachable c -> reading_ c = true -> active_request_ (ses c) = None.
Proof.
  intros [[_ _ _ Hm _] _]%reachable_inv Hr. destruct Hm as [Hs|[Ha|Hs]].
  - destruct Hs as (_ & _ & _ & _ & _ & _ & _ & Hs & _). by destruct (Hs Hr).
  - destruct Ha as (_ & _ & _ & _ & _ & Ha). congruence.
  - destruct Hs as [(_ & _ & Hs & _) _]. congruence.
Qed.

(** The handler of an accepted body. *)
Lemma infer_run a target text spec c c' :
  target = "/v1/infer" \/ target = "/v1/infer/stream" -> parse_infer_request text = inr spec ->
  Session.run (on_read a (ReadOk Post target text)) c = Some c' ->
  active_request_ (ses c') = Some (ans_loc a) /\ posted c' = posted c ++ ans_updates a /\
  NewRequest (ans_loc a) (ans_id a) spec (ans_now a + is_timeout spec * 1000000) ∈ log_ c'.
Proof.
  intros Ht Hp Hr. set (d := ans_now a + _).
  refine (wp_run _ c c' (fun _ c1 => active_request_ (ses c1) = Some (ans_loc a) /\
    posted c1 = posted c ++ ans_updates a /\ NewRequest (ans_loc a) (ans_id a) spec d ∈ log_ c1) _ Hr). clear Hr.
  unfold on_read, handle_request. apply wp_bind, wp_update.
  assert (Hgo : negb (bool_decide (target = "/v1/infer")) && negb (bool_decide (target = "/v1/infer/stream")) = false)
    by (by destruct Ht as [-> | ->]). rewrite Hgo, Hp. unfold start_infer.
  apply wp_bind, wp_update, wp_bind, wp_emit, wp_bind, wp_emit, wp_bind, wp_emit.
  destruct (ans_terminal a).
  - apply wp_ret. simpl. split; [done|]. split; [done|]. set_solver.
  - unfold arm_disconnect_watch. apply wp_bind, wp_get, wp_bind, wp_get. destruct (_ || _).
    + apply wp_ret. simpl. split; [done|]. split; [done|]. set_solver.
    + apply wp_bind, wp_update, wp_emit. simpl. split; [done|]. split; [done|]. set_solver.
Qed.

Lemma infer_request_received id spec d : state_ (infer_request id spec d) = Received.
Proof. done. Qed.

Lemma agrees_runtime s m' :
  agrees s -> Machine.step (runtime s) m' -> agrees (mkService m' (connection s) (told_updates s)).
Proof.
  intros [Hm Hc Hr Hu] Hst. assert (Hm' : Machine.reachable m').
  { destruct Hm as (s0 & H0 & Hrtc). exists s0. split; [done|]. by eapply rtc_r. }
  pose proof (reachable_truthful _ Hm) as Ht. split; simpl; [done|done|..].
  - intros l Hl. destruct (Hr l Hl) as (id & spec & d & r & Hlog & Hheap & Hev & Ha).
    destruct (step_heap _ _ Ht Hst l r Hheap) as (r' & Hr' & Hev'). exists id, spec, d, r'.
    split_and!; [done|done|by etrans|by eapply step_attended].
  - intros l snap Hl Hin. destruct (step_log_grows _ _ Hst) as [new ->]. apply elem_of_app. left. by eapply Hu.
Qed.

Lemma agrees_post s l snap k :
  agrees s -> active_request_ (ses (connection s)) = Some l -> stopped (connection s) = false ->
  (l, (observer, snap)) ∈ log (world (runtime s)) -> alive (connection s) = true ->
  agrees (mkService (runtime s) (post [snap] (connection s)) k).
Proof.
  intros [Hm Hc Hr Hu] Hl Hs Hin Ha. split; simpl; [done| |done|].
  - eapply reach_step; [done|]. apply step_notify; [done|congruence|done].
  - intros l' snap' Hl' Hin'. rewrite !elem_of_app in Hin'. assert (l' = l) as -> by congruence.
    destruct Hin' as [Hin'|[Hin'|Hin']].
    + eapply Hu; [done|]. apply elem_of_app. by left.
    + eapply Hu; [done|]. apply elem_of_app. by right.
    + apply list_elem_of_singleton in Hin' as ->. done.
Qed.

Lemma agrees_infer s a target text spec c' :
  agrees s -> stopped (connection s) = false -> reading_ (connection s) = true ->
  target = "/v1/infer" \/ target = "/v1/infer/stream" -> parse_infer_request text = inr spec ->
  ans_updates a = [] -> heap (world (runtime s)) !! ans_loc a = None ->
  Session.run (on_read a (ReadOk Post target text)) (done_read (connection s)) = Some c' ->
  agrees (mkService
    (add_request (ans_loc a) (infer_request (ans_id a) spec (ans_now a + is_timeout spec * 1000000)) (runtime s)) c' 0).
Proof.
  intros [Hm Hc _ _] Hst Hread Ht Hp Hnone Hfresh Hrun.
  pose proof (reading_inactive _ Hc Hread) as Hact. destruct (reachable_inv _ Hc) as [[_ _ Hse _ _] _].
  destruct (Hse Hact) as [Hseen Hposted]. pose proof (run_keeps _ _ _ Hrun) as [Hseen' _]. simpl in Hseen'.
  destruct (infer_run a target text spec _ _ Ht Hp Hrun) as (Hact' & Hposted' & Hnew). simpl in Hposted'. split; simpl.
  - destruct Hm as (s0 & H0 & Hrtc). exists s0. split; [done|]. eapply rtc_r; [done|]. right.
    apply caller_new; [done|apply infer_request_received].
  - eapply reach_step; [done|]. by apply (step_read _ a (ReadOk Post target text)).
  - intros l Hl. assert (l = ans_loc a) as -> by congruence. eexists _, _, _, _. split; [done|].
    rewrite lookup_insert_eq. split; [done|]. split; [done|]. eexists. simpl. rewrite lookup_insert_eq.
    split; [done|]. simpl. by left.
  - intros l snap _. rewrite Hseen', Hseen, Hposted', Hposted, Hnone. by intros ?%elem_of_nil.
Qed.

Lemma step_agrees s s' : agrees s -> service_step s s' -> agrees s'.
Proof.
  intros Hag Hst. destruct Hst as [m' Hst|c' Hst Hp Hact|a target text spec c' H1 H2 H3 H4 H5 H6 Hrun|l snap Hl Hs Hin Ha|l snap Hl Hin Ha].
  - by apply agrees_runtime.
  - destruct Hag as [Hm Hc Hr Hu]. split; simpl; [done|by eapply reach_step|..]; rewrite Hact.
    + intros l Hl. destruct (Hr l Hl) as (id & spec & d & r & Hlog & Hrest). exists id, spec, d, r. split; [|done].
      destruct (step_keeps _ _ Hst) as [[new Hnew] _]. rewrite Hnew. apply elem_of_app. by left.
    + intros l snap Hl Hin. eapply Hu; [done|]. by eapply step_sees.
  - by eapply agrees_infer.
  - eapply agrees_post; try done. apply elem_of_updates. by eapply list_elem_of_lookup_2.
  - by destruct Hag as [Hm Hc Hr Hu].
Qed.

Lemma reachable_agrees s : service_reachable s -> agrees s.
Proof.
  induction 1 as [m c Hm Hrun|s s' _ IH Hst]; [|by eapply step_agrees].
  injection Hrun as <-. split; simpl; [by exists m|by apply reach_start|done|done].
Qed.

(** The events of a stream whose terminal updates are all the same. *)
Lemma event_chunks_final snaps final :
  has_terminal snaps = true -> (forall snap, snap ∈ snaps -> terminal_snap snap = true -> snap = final) ->
  exists pre, event_chunks snaps = pre ++ [line_text (serialize_terminal_event final); ""].
Proof.
  intros Ht Hall. induction snaps as [|x snaps IH]; [done|]. simpl in *. destruct (terminal_snap x) eqn:Hx.
  - exists []. rewrite (Hall x); [done|by left|done].
  - destruct IH as [pre Hpre]; [done|intros snap Hin; apply Hall; by right|]. rewrite Hpre. clear Ht.
    destruct (_ || _); [by exists (line_text (serialize_state_event x) :: pre)|by exists pre].
Qed.

(** ** Executing steps *)

Lemma service_runs s m' :
  service_reachable s -> rtc Machine.step (runtime s) m' -> service_reachable (mkService m' (connection s) (told_updates s)).
Proof.
  destruct s as [m c k]. simpl. intros Hs Hrtc. revert Hs. induction Hrtc as [m|m m1 m' Hst _ IH]; intros Hs; [done|].
  apply IH. eapply service_next; [done|]. by apply service_runtime.
Qed.

(** The observer is called with the next report. *)
Definition post_next (s : service) : option service :=
  l ← active_request_ (ses (connection s));
  snap ← updates_for l (log (world (runtime s))) !! told_updates s;
  if alive (connection s) && negb (stopped (connection s))
  then Some (mkService (runtime s) (post [snap] (connection s)) (S (told_updates s))) else None.

(** The session handles the first update posted to it. *)
Definition update_next (s : service) : option service :=
  match posted (connection s) with
  | [] => None
  | snap :: rest =>
      if stopped (connection s) then None else
      c' ← Session.run (on_state_update snap) (see snap (connection s));
      if decide (posted c' = rest /\ active_request_ (ses c') = active_request_ (ses (connection s)))
      then Some (mkService (runtime s) c' (told_updates s)) else None
  end.

Lemma post_next_step s s' : post_next s = Some s' -> service_step s s'.
Proof.
  intros Hp. unfold post_next in Hp.
  destruct (active_request_ (ses (connection s))) as [l|] eqn:Hl; [|done]. simpl in Hp.
  destruct (updates_for l _ !! told_updates s) as [snap|] eqn:Hu; [|done]. simpl in Hp.
  destruct (alive (connection s)) eqn:Ha; [|done]. destruct (stopped (connection s)) eqn:Ht; [done|].
  injection Hp as <-. by apply (service_post s l snap).
Qed.

Lemma update_next_step s s' : update_next s = Some s' -> service_step s s'.
Proof.
  intros Hp. unfold update_next in Hp.
  destruct (posted (connection s)) as [|snap rest] eqn:Hposted; [done|]. destruct (stopped (connection s)) eqn:Ht; [done|].
  destruct (Session.run _ _) as [c'|] eqn:Hrun; [|done]. simpl in Hp.
  destruct (decide _) as [[Hrest Hact]|]; [|done]. injection Hp as <-. apply service_session; [|right|done].
  - by apply (step_update _ snap rest).
  - exists snap. by rewrite Hrest.
Qed.
End service.
#[global] Arguments service_reachable {R B n _ _ HO JL} observer _.


(** ** A request over HTTP, to its response *)

#[local] Existing Instance demo_json.

Definition demo_reply : answers := mkAnswers (inr (mkResponse 200 "" "")) 1%positive "http-1" 0 [] false.
Notation demo_service := (service (R := unit) (B := Synthetic.t) (n := 2)).

Definition demo_idle_machine : Machine.machine (R := unit) (B := Synthetic.t) (n := 2) :=
  mkMachine (mkWorld ∅ 0 [] demo_runtime []) (started_pool (HO := gmap_order) 0).

(** The body is accepted, and the runtime serves the request. *)
Definition demo_posted : demo_service :=
  mkService (add_request 1%positive (infer_request 7%nat "http-1" (mkInferSpec "m" "hi" 8 30000) 30000000000) demo_idle_machine)
    (after (on_read demo_reply (ReadOk Post "/v1/infer" "demo")) (done_read demo_started)) 0.
Definition demo_serve : list demo_move :=
  [MoveSubmit 0 1%positive; MoveSections (TCaller 0) 100; MoveSections TRouting 100; MoveSections (TWorker 1%fin) 200].
Definition demo_served : demo_service :=
  mkService (demo_run demo_serve (runtime demo_posted)) (connection demo_posted) 0.

(** It is told three times, and the session handles what it is told. *)
Definition demo_answered : demo_service := default demo_served (
  s ← post_next 7%nat demo_served; s ← post_next 7%nat s; s ← post_next 7%nat s;
  s ← update_next s; s ← update_next s; update_next s).

Lemma demo_idle_initial : initial (HO := gmap_order) demo_idle_machine.
Proof.
  split; [done|done|..|by vm_compute|].
  - intros l r Hl. simpl in Hl. by rewrite lookup_empty in Hl.
  - intros i. simpl. rewrite started_pool_lookup. destruct i; [by eexists|by eexists|done].
Qed.

Lemma demo_posted_reachable : service_reachable (HO := gmap_order) 7%nat demo_posted.
Proof.
  eapply service_next; [by apply (service_start _ demo_idle_machine demo_started); [apply demo_idle_initial|]|].
  apply (service_infer 7%nat (mkService demo_idle_machine demo_started 0) demo_reply "/v1/infer" "demo"
    (mkInferSpec "m" "hi" 8 30000) (connection demo_posted)); try done. by left.
Qed.

Lemma demo_served_reachable : service_reachable (HO := gmap_order) 7%nat demo_served.
Proof.
  apply (service_runs 7%nat demo_posted); [apply demo_posted_reachable|]. apply exec_default. by vm_compute.
Qed.

(** A chain of steps that went through. *)
Lemma chain_default (f : demo_service -> option demo_service) s :
  service_reachable (HO := gmap_order) 7%nat s ->
  (forall s', f s = Some s' -> service_reachable (HO := gmap_order) 7%nat s') ->
  service_reachable (HO := gmap_order) 7%nat (default s (f s)).
Proof. intros Hs Hf. destruct (f s) as [s'|]; [by apply Hf|done]. Qed.

Lemma demo_answered_reachable : service_reachable (HO := gmap_order) 7%nat demo_answered.
Proof.
  apply (chain_default (fun s => s ← post_next 7%nat s; s ← post_next 7%nat s; s ← post_next 7%nat s;
    s ← update_next s; s ← update_next s; update_next s)); [apply demo_served_reachable|].
  intros s (s1 & H1 & (s2 & H2 & (s3 & H3 & (s4 & H4 & (s5 & H5 & H6)%bind_Some)%bind_Some)%bind_Some)%bind_Some)%bind_Some.
  eapply service_next, update_next_step, H6. eapply service_next, update_next_step, H5. eapply service_next, update_next_step, H4.
  eapply service_next, post_next_step, H3. eapply service_next, post_next_step, H2. eapply service_next, post_next_step, H1. apply demo_served_reachable.
Qed.

