(* ===== verification/Answered.v ===== *)
(** * Every accepted request is answered

    The completeness of [Service.v]: a connection that waits for the response
    to its request misses no report of it. When the request has ended, calling
    the observer with the reports it was not called with and handling the
    updates posted to the session, in their order, is all that is needed for
    the response to be sent. *)

From stdpp Require Import vector finite relations.
From S2P Require Import Prelude Status Requests World Queue Registry Resources Eviction.
From S2P Require Import Backends Manager Router Batch Scheduler Admission Worker Runtime Programs.
From S2P Require Import RuntimeProofs Machine MachineRuns MachineProofs Shutdown Reports Handler Session SessionProofs Service.
Import InferenceRequest.
Import RequestHandler.
Import HttpSession.

#[local] Existing Instance machine_shared.
#[local] Existing Instance machine_scheduler.

(** ** Handlers that keep the request *)

(** A change of a connection that keeps its request, the mode and the updates
    posted to it. *)
Definition keeps_request (c c' : conn) : Prop :=
  active_request_ (ses c') = active_request_ (ses c) /\ stream_mode_ (ses c') = stream_mode_ (ses c) /\
  posted c' = posted c.

#[global] Instance keeps_request_preorder : PreOrder keeps_request.
Proof. split; [done|]. intros c1 c2 c3 (? & ? & ?) (? & ? & ?). split_and!; congruence. Qed.

Definition modest {A} (h : H A) : Prop := forall c, wp h c (fun _ c' => keeps_request c c').

Lemma modest_bind {A B} (m : H A) (k : A -> H B) : modest m -> (forall a, modest (k a)) -> modest (m ≫= k).
Proof.
  intros Hm Hk c. apply wp_bind. eapply wp_mono; [|apply Hm]. intros a c1 H1. eapply wp_mono; [|apply Hk].
  intros b c2 H2. by transitivity c1.
Qed.
Lemma modest_ret {A} (a : A) : modest (mret a).
Proof. intros c. by apply wp_ret. Qed.
Lemma modest_get {A} (f : HttpSession.t -> A) : modest (get f).
Proof. intros c. by apply wp_get. Qed.
Lemma modest_lift {A} (r : exn + A) : modest (lift r).
Proof. intros c. by apply wp_lift. Qed.
Lemma modest_update f :
  (forall s, active_request_ (f s) = active_request_ s /\ stream_mode_ (f s) = stream_mode_ s) -> modest (update f).
Proof. intros Hf c. apply wp_update. destruct (Hf (ses c)). by split_and!. Qed.
Lemma modest_emit a : (forall l us b, a <> Submit l us b) -> modest (emit a).
Proof. intros Ha c. apply wp_emit. destruct a; try done. by destruct (Ha l updates terminal). Qed.

Create HintDb modest.
#[local] Hint Resolve modest_bind modest_ret modest_get modest_lift modest_update modest_emit : modest.

(** Decompose a handler into its primitive steps. *)
Ltac modesty :=
  repeat first
    [ simple apply modest_ret | simple apply modest_get | simple apply modest_lift
    | apply modest_update; by intros [] | apply modest_emit; by intros
    | simple apply modest_bind; [|intros ?] | by auto with modest nocore | case_match ].

Lemma modest_stop_watch : modest stop_disconnect_watch.
Proof. unfold stop_disconnect_watch. modesty. Qed.
#[local] Hint Resolve modest_stop_watch : modest.
Lemma modest_close : modest close.
Proof. unfold close. modesty. Qed.
Lemma modest_cancel : modest cancel_active.
Proof. unfold cancel_active. modesty. Qed.
#[local] Hint Resolve modest_close modest_cancel : modest.
Lemma modest_disconnect : modest on_disconnect.
Proof. unfold on_disconnect. modesty. Qed.
Lemma modest_arm : modest arm_disconnect_watch.
Proof. unfold arm_disconnect_watch. modesty. Qed.
Lemma modest_do_write : modest do_write.
Proof. unfold do_write. modesty. Qed.
#[local] Hint Resolve modest_disconnect modest_arm modest_do_write : modest.
Lemma modest_queue_write data b : modest (queue_write data b).
Proof. unfold queue_write. modesty. Qed.
Lemma modest_respond code text : modest (send_json_response code text).
Proof. unfold send_json_response. modesty. Qed.
#[local] Hint Resolve modest_queue_write modest_respond : modest.

Section answered.
Context `{JL : !JsonLib}.

Lemma modest_on_update snap : modest (on_state_update snap).
Proof. unfold on_state_update. modesty. Qed.
Lemma modest_on_written ec b : modest (on_written ec b).
Proof. unfold on_written. modesty. Qed.
Lemma modest_on_responded ec : modest (on_responded ec).
Proof. unfold on_responded. modesty. Qed.
Lemma modest_on_peer we re k : modest (on_peer_wait we re k).
Proof. unfold on_peer_wait. modesty. Qed.
Lemma modest_on_deadline ec l : modest (on_deadline ec l).
Proof. unfold on_deadline. modesty. Qed.
Lemma modest_shutdown : modest shutdown.
Proof. unfold shutdown. modesty. Qed.

(** ** Connections that wait for their response *)

(** The connection is open, its request was accepted for a response and was not
    terminal yet right after its submission. *)
Record awaiting (l : loc) (c : conn) : Prop := {
  aw_request : active_request_ (ses c) = Some l;
  aw_mode : stream_mode_ (ses c) = false;
  aw_open : closed_ (ses c) = false;
  aw_running : stopped c = false;
  aw_watched l' us : Submit l' us true ∉ log_ c
}.

Lemma open_foldl acts c : is_open (foldl perform c acts) = true -> is_open c = true.
Proof.
  revert c. induction acts as [|a acts IH]; intros c; [done|]. cbn [foldl]. intros Ho%IH. by destruct a.
Qed.

Lemma run_open h c c' : Session.run h c = Some c' -> is_open c' = true -> is_open c = true.
Proof.
  unfold Session.run. destruct (h (ses c)) as [[e|u] [s acts]]; [done|]. intros [= <-] Ho.
  exact (open_foldl acts (with_ses s c) Ho).
Qed.

Lemma step_open c c' : Session.step c c' -> is_open c' = true -> is_open c = true.
Proof.
  destruct 1 as [a out c' _ _ Hr|ec final c' _ _ Hr|ec c' _ _ Hr|we re k c' _ _ _ Hr|snap _ _ _|snap rest c' _ _ Hr|ec l c' _ _ _ Hr|c' _ _ Hr];
    try exact (run_open _ _ _ Hr). done.
Qed.

Lemma run_modest h c c' : modest h -> Session.run h c = Some c' -> keeps_request c c' /\ seen c' = seen c.
Proof.
  intros Hm Hr. split; [|by apply run_keeps in Hr as [? _]].
  exact (wp_run h c c' (fun _ => keeps_request c) (Hm c) Hr).
Qed.

(** A waiting connection is owned by something. *)
Lemma awaiting_alive l c : Session.reachable c -> awaiting l c -> alive c = true.
Proof.
  intros [Hi [_ Hatt Hresp]]%reachable_inv [Hl Hsm Hc _ Hno].
  destruct (json_response_started_ (ses c)) eqn:Hj.
  { unfold alive. rewrite Hresp by done. by rewrite !orb_true_r. }
  assert (Hr : response_started_ (ses c) = false).
  { destruct (ci_mode _ _ Hi) as [(_ & _ & _ & _ & _ & _ & ? & _)|[(_ & _ & _ & _ & ? & _)|[(_ & ? & _) _]]]; congruence. }
  unfold alive. destruct (Hatt Hc Hr eq_refl) as [->|[[-> _]|[Hp|(l' & us & Hin & _)]]]; [done|by rewrite !orb_true_r| |].
  - destruct (posted c) as [|x ?]; [done|]. rewrite (bool_decide_false (_ = [])) by done. by rewrite !orb_true_r.
  - by destruct (Hno l' us).
Qed.

(** It has answered as soon as it was told of the end. *)
Lemma awaiting_answered l c :
  Session.reachable c -> awaiting l c -> has_terminal (seen c) = true ->
  exists resp snap, sent c = [WResponse (status_code resp) (body resp)] /\
    snap ∈ seen c /\ terminal_snap snap = true /\ serialize_infer_response snap = inr resp.
Proof.
  intros [Hi _]%reachable_inv [Hl Hsm Hc _ _] Ht.
  destruct (ci_mode _ _ Hi) as [(_ & _ & _ & _ & _ & _ & _ & _ & Hs)|[((resp & Hs & Hr) & _)|[(_ & ? & _) _]]].
  - rewrite Hsm in Hs. congruence.
  - destruct Hr as [?|(_ & snap & ? & ? & ?)]; [congruence|]. by exists resp, snap.
  - congruence.
Qed.

(** A step of the session hands on what was posted, in its order. *)
Lemma step_awaiting l c c' :
  Session.reachable c -> Session.step c c' -> posts_nothing c c' -> active_request_ (ses c) = Some l -> awaiting l c' ->
  awaiting l c /\ seen c' ++ posted c' = seen c ++ posted c.
Proof.
  intros Hc Hst Hp Hl [Hl' Hsm Hop Hrun Hno].
  assert (Hopen : closed_ (ses c) = false).
  { destruct (reachable_inv _ Hc) as [Hi _]. destruct (reachable_inv _ (reach_step _ _ Hc Hst)) as [Hi' _].
    pose proof (ci_open _ _ Hi) as Ho. pose proof (ci_open _ _ Hi') as Ho'. rewrite Hop in Ho'.
    rewrite (step_open _ _ Hst Ho') in Ho. by destruct (closed_ (ses c)). }
  assert (Hw : stopped c = false -> stream_mode_ (ses c) = false -> awaiting l c).
  { intros. split; try done. intros l' us Hin. destruct (step_keeps _ _ Hst) as [[new Heq] _].
    apply (Hno l' us). rewrite Heq. apply elem_of_app. by left. }
  assert (Hgo : forall h d, modest h -> Session.run h d = Some c' -> stopped c = false ->
    stream_mode_ (ses d) = stream_mode_ (ses c) -> seen d ++ posted d = seen c ++ posted c ->
    awaiting l c /\ seen c' ++ posted c' = seen c ++ posted c).
  { intros h d Hm Hr Hs Hd Hsp. destruct (run_modest _ _ _ Hm Hr) as [(_ & Hk & Hpo) Hse].
    rewrite Hpo, Hse. split; [|done]. apply Hw; [done|congruence]. }
  destruct Hst as [a out c' Hs Hread Hr|ec final c' Hs _ Hr|ec c' Hs _ Hr|we re k c' Hs _ _ Hr|snap Hs _ _|snap rest c' Hs Hpo Hr|ec l' c' Hs _ _ Hr|c' Hs _ Hr].
  - by rewrite (reading_inactive _ Hc Hread) in Hl.
  - exact (Hgo _ _ (modest_on_written ec final) Hr Hs eq_refl eq_refl).
  - exact (Hgo _ _ (modest_on_responded ec) Hr Hs eq_refl eq_refl).
  - exact (Hgo _ _ (modest_on_peer we re k) Hr Hs eq_refl eq_refl).
  - destruct Hp as [Hp|(x & Hp)]; apply (f_equal length) in Hp; simpl in Hp; rewrite length_app in Hp; simpl in Hp; lia.
  - apply (Hgo _ _ (modest_on_update snap) Hr Hs eq_refl). simpl. by rewrite Hopen, Hpo, <- app_assoc.
  - exact (Hgo _ _ (modest_on_deadline ec l') Hr Hs eq_refl eq_refl).
  - exact (Hgo _ _ modest_shutdown Hr Hs eq_refl eq_refl).
Qed.
End answered.

(** ** The reports reach the session *)

Section service.
Context {R B : Type} {n : nat} `{!IWorkerRouter R} `{!IModelBackend B} `{HO : !HashOrder} `{JL : !JsonLib}.
Context (observer : RequestObserver).
#[local] Notation service := (service (R := R) (B := B) (n := n)).

Definition reports_of (l : loc) (s : service) : list RequestSnapshot :=
  updates_for observer l (log (world (runtime s))).

(** A waiting session was handed the reports its observer was called with, all
    of them and in their order. *)
Record caught_up (s : service) : Prop := {
  cu_told l : active_request_ (ses (connection s)) = Some l -> (told_updates s <= length (reports_of l s))%nat;
  cu_order l : awaiting l (connection s) ->
    seen (connection s) ++ posted (connection s) = take (told_updates s) (reports_of l s)
}.

Lemma caught_up_runtime s m' :
  caught_up s -> Machine.step (runtime s) m' -> caught_up (mkService m' (connection s) (told_updates s)).
Proof.
  intros [Ht Ho] Hst. destruct (step_log_grows _ _ Hst) as [new Hnew].
  assert (Hr : forall l, reports_of l (mkService m' (connection s) (told_updates s)) = reports_of l s ++ updates_for observer l new).
  { intros l. unfold reports_of, updates_for. simpl. by rewrite Hnew, omap_app. }
  split; intros l Hl; rewrite Hr; simpl in *.
  - rewrite length_app. specialize (Ht l Hl). lia.
  - rewrite (Ho l Hl), take_app_le; [done|]. by apply Ht, aw_request.
Qed.

Lemma caught_up_post s l snap :
  caught_up s -> active_request_ (ses (connection s)) = Some l -> reports_of l s !! told_updates s = Some snap ->
  caught_up (mkService (runtime s) (post [snap] (connection s)) (S (told_updates s))).
Proof.
  intros [Ht Ho] Hl Hin. split; intros l' Hl'; simpl in *.
  - assert (l' = l) as -> by congruence. by apply lookup_lt_Some in Hin.
  - pose proof (aw_request _ _ Hl') as Ha. simpl in Ha. assert (l' = l) as -> by congruence.
    change (reports_of l (mkService _ _ _)) with (reports_of l s). rewrite (take_S_r _ _ _ Hin), app_assoc. f_equal.
    apply Ho. destruct Hl'. by split.
Qed.

Lemma step_caught_up s s' : agrees observer s -> caught_up s -> service_step observer s s' -> caught_up s'.
Proof.
  intros [Hm Hc Hr Hu] [Ht Ho] Hst.
  destruct Hst as [m' Hst|c' Hst Hp Hact|a target text spec c' H1 H2 H3 H4 H5 H6 Hrun|l snap Hl Hs Hin Ha|l snap Hl Hin Ha].
  - by apply caught_up_runtime.
  - split; intros l; simpl; [rewrite Hact; apply Ht|]. intros Hl. pose proof (aw_request _ _ Hl) as Hl'. rewrite Hact in Hl'.
    destruct (step_awaiting l _ _ Hc Hst Hp Hl' Hl) as [Hw ->]. by apply Ho.
  - split; intros l Hl; simpl; [lia|]. destruct (reachable_inv _ Hc) as [[_ _ Hse _ _] _].
    destruct (Hse (reading_inactive _ Hc H2)) as [Hseen Hposted]. pose proof (run_keeps _ _ _ Hrun) as [Hs _]. simpl in Hs.
    destruct (infer_run a target text spec _ _ H3 H4 Hrun) as (_ & Hp & _). simpl in Hp. by rewrite Hs, Hseen, Hp, Hposted, H5.
  - by eapply caught_up_post.
  - split; intros l' Hl'; simpl in *.
    + assert (l' = l) as -> by congruence. by apply lookup_lt_Some in Hin.
    + pose proof (awaiting_alive l' _ Hc Hl') as Hal. pose proof (aw_running _ _ Hl'). destruct Ha; congruence.
Qed.

Lemma reachable_caught_up s : service_reachable observer s -> caught_up s.
Proof.
  induction 1 as [m c Hm Hrun|s s' Hs IH Hst]; [|eapply step_caught_up; [by apply reachable_agrees|done..]].
  injection Hrun as <-. split; intros l Hl; [done|]. by destruct (aw_request _ _ Hl).
Qed.

(** ** Delivering *)

(** The observer is called with the next report, or the session handles the
    next update. *)
Definition deliver (s : service) : option service :=
  match post_next observer s with Some s' => Some s' | None => update_next s end.

(** What is left to deliver; a report is posted and then handled. *)
Definition pending (l : loc) (s : service) : nat :=
  2 * (length (reports_of l s) - told_updates s) + length (posted (connection s)).

Lemma deliver_step s s' : deliver s = Some s' -> service_step observer s s'.
Proof.
  unfold deliver. destruct (post_next observer s) as [x|] eqn:Hp; [intros [= <-]; by apply post_next_step|].
  apply update_next_step.
Qed.

(** The session can always handle an update of a request with a response. *)
Lemma update_runs l c snap rest resp :
  awaiting l c -> posted c = snap :: rest -> (terminal_snap snap = true -> serialize_infer_response snap = inr resp) ->
  exists c', Session.run (on_state_update snap) (see snap c) = Some c' /\ awaiting l c' /\ posted c' = rest.
Proof.
  intros [Hl Hsm Hc Hs Hno] Hp Hser.
  assert (Hgo : exists c', Session.run (on_state_update snap) (see snap c) = Some c' /\ closed_ (ses c') = false /\
    stopped c' = false /\ (forall l us, Submit l us true ∉ log_ c')).
  { unfold Session.run, on_state_update, mbind, H_bind, get. cbn [ses see]. rewrite Hc. cbn -[serialize_infer_response].
    rewrite Hsm. cbn -[serialize_infer_response]. destruct (is_terminal_state (snap_state snap)) eqn:Ht.
    - cbn -[serialize_infer_response]. rewrite (Hser Ht). cbn.
      unfold send_json_response, mbind, H_bind, get. cbn. rewrite Hc. cbn.
      destruct (json_response_started_ (ses c)); cbn; (eexists; split; [done|]; cbn; split; [done|]; split; [done|]; set_solver).
    - cbn. eexists. split; [done|]. cbn. split; [done|]. split; [done|]. done. }
  destruct Hgo as (c' & Hrun & Hc' & Hs' & Hno'). exists c'. split; [done|].
  destruct (run_modest _ _ _ (modest_on_update snap) Hrun) as [(Ha & Hm & Hpo) _]. simpl in *. rewrite Hp in Hpo.
  split; [|done]. split; [congruence|congruence|done|done|done].
Qed.

(** Something can be delivered while something is left, and less is left then. *)
Lemma deliver_progress s l r resp :
  service_reachable observer s -> awaiting l (connection s) -> heap (world (runtime s)) !! l = Some r ->
  serialize_infer_response (snapshot r) = inr resp -> pending l s <> 0%nat ->
  exists s', deliver s = Some s' /\ runtime s' = runtime s /\ awaiting l (connection s') /\ pending l s = S (pending l s').
Proof.
  intros Hs Hw Hr Hser Hne. destruct (reachable_agrees observer s Hs) as [Hm Hc _ Hu].
  destruct (reachable_caught_up s Hs) as [Ht _]. specialize (Ht l (aw_request _ _ Hw)).
  pose proof (awaiting_alive l _ Hc Hw) as Hal. pose proof (aw_request _ _ Hw) as Hl. pose proof (aw_running _ _ Hw) as Hst.
  unfold deliver, post_next. rewrite Hl. cbn [mbind option_bind]. fold (reports_of l s). rewrite Hal, Hst. cbn [andb negb].
  destruct (reports_of l s !! told_updates s) as [snap|] eqn:Hin; cbn [mbind option_bind].
  - eexists. split; [done|]. simpl. split; [done|]. split; [destruct Hw; by split|]. apply lookup_lt_Some in Hin.
    unfold pending, reports_of in *. simpl. rewrite length_app. simpl. lia.
  - apply lookup_ge_None in Hin. unfold pending in Hne |- *. destruct (posted (connection s)) as [|snap rest] eqn:Hp; [simpl in Hne; lia|].
    destruct (update_runs l (connection s) snap rest resp Hw Hp) as (c' & Hrun & Hw' & Hrest).
    { intros Hterm. destruct (told_final (heap (world (runtime s))) l (observer, snap) r) as [Hsnap _]; [|done|done|].
      - apply (true_log _ (reachable_truthful _ Hm)), Hu; [done|]. rewrite ?Hp. apply elem_of_app. right. by left.
      - simpl in Hsnap. by rewrite Hsnap. }
    exists (mkService (runtime s) c' (told_updates s)). unfold update_next. rewrite Hp, Hst, Hrun. cbn [mbind option_bind].
    rewrite decide_True by (split; [done|]; by rewrite (aw_request _ _ Hw')). split; [done|]. split; [done|]. split; [done|].
    simpl. rewrite Hrest. unfold reports_of. simpl. lia.
Qed.

Lemma updates_of_log l log snap : (l, (observer, snap)) ∈ log -> snap ∈ updates_for observer l log.
Proof. intros Hin. apply list_elem_of_omap. eexists. split; [done|]. simpl. by rewrite decide_True. Qed.

(** With nothing left, the response was sent. *)
Lemma nothing_pending s l r resp :
  service_reachable observer s -> awaiting l (connection s) -> heap (world (runtime s)) !! l = Some r ->
  (l, (observer, snapshot r)) ∈ log (world (runtime s)) -> is_terminal r = true ->
  serialize_infer_response (snapshot r) = inr resp -> pending l s = 0%nat ->
  sent (connection s) = [WResponse (status_code resp) (body resp)].
Proof.
  intros Hs Hw Hr Hin Hend Hser Hp. destruct (reachable_agrees observer s Hs) as [Hm Hc _ Hu].
  destruct (reachable_caught_up s Hs) as [_ Ho]. specialize (Ho l Hw). unfold pending in Hp.
  destruct (posted (connection s)) eqn:Hpo; [|simpl in Hp; lia]. rewrite app_nil_r, take_ge in Ho by lia.
  assert (Hseen : snapshot r ∈ seen (connection s)) by (rewrite Ho; by apply updates_of_log).
  destruct (awaiting_answered l _ Hc Hw) as (resp' & snap & -> & Hsnap & Hterm & Hser').
  { apply existsb_exists. exists (snapshot r). split; [by apply list_elem_of_In|done]. }
  destruct (told_final (heap (world (runtime s))) l (observer, snap) r) as [Heq _]; [|done|done|].
  { apply (true_log _ (reachable_truthful _ Hm)), Hu; [by apply aw_request|]. apply elem_of_app. by left. }
  simpl in Heq. rewrite Heq, Hser in Hser'. by injection Hser' as <-.
Qed.

(** Deliver as much as [k] times. *)
Fixpoint deliveries (k : nat) (s : service) : service :=
  match k with O => s | S k => deliveries k (default s (deliver s)) end.

Lemma deliveries_run s l r resp :
  service_reachable observer s -> awaiting l (connection s) -> heap (world (runtime s)) !! l = Some r ->
  serialize_infer_response (snapshot r) = inr resp ->
  let s' := deliveries (pending l s) s in
  rtc (service_step observer) s s' /\ runtime s' = runtime s /\ awaiting l (connection s') /\ pending l s' = 0%nat.
Proof.
  intros Hs Hw Hr Hser. remember (pending l s) as k eqn:Hk. revert s Hs Hw Hr Hk.
  induction k as [|k IH]; intros s Hs Hw Hr Hk; [by simpl|].
  destruct (deliver_progress s l r resp Hs Hw Hr Hser) as (s' & Hd & Hrt & Hw' & Hp); [lia|]. simpl. rewrite Hd. simpl.
  pose proof (deliver_step s s' Hd) as Hst.
  destruct (IH s') as (Hrun & Hrt' & ? & ?); [by eapply service_next|done|by rewrite Hrt|lia|].
  split; [by eapply rtc_l|]. split; [congruence|done].
Qed.
End service.

(** C7: An accepted request is answered. Take any connection that waits for the
    response to its request (open, with the request live right after its
    submission), beside the whole runtime. Once the request has ended and no
    thread is still about to call its observer, the session is there and the
    calls of the observer and of [on_state_update] that are left, at most
    [pending] of them, can be made; when they are made the response was sent,
    and it is the serialized outcome of the request. *)
Theorem accepted_is_answered {R B n} `{!IWorkerRouter R} `{!IModelBackend B} `{HO : !HashOrder} `{!JsonLib}
    observer (s : service (R := R) (B := B) (n := n)) l r resp :
  service_reachable observer s -> awaiting l (connection s) ->
  heap (world (runtime s)) !! l = Some r -> is_terminal r = true ->
  ~ telling (runtime s) l (observer, snapshot r) -> serialize_infer_response (snapshot r) = inr resp ->
  let s' := deliveries observer (pending observer l s) s in
  alive (connection s) = true /\ rtc (service_step observer) s s' /\ runtime s' = runtime s /\
  pending observer l s' = 0%nat /\ sent (connection s') = [WResponse (status_code resp) (body resp)].
Proof.
  intros Hs Hw Hr Hend Hno Hser s'. pose proof (reachable_agrees observer s Hs) as [_ Hc Hreq _].
  destruct (Hreq l (aw_request _ _ Hw)) as (_ & _ & _ & r' & _ & Hr' & _ & (r'' & Hr'' & Hatt)).
  assert (r'' = r) as -> by congruence. rewrite Hend in Hatt. destruct Hatt as [Hlog|?]; [|done].
  destruct (deliveries_run observer s l r resp Hs Hw Hr Hser) as (Hrun & Hrt & Hw' & Hp). fold s' in Hrun, Hrt, Hw', Hp.
  split; [by eapply awaiting_alive|]. split; [done|]. split; [done|]. split; [done|].
  apply (nothing_pending observer s' l r resp); [|done|by rewrite Hrt|by rewrite Hrt|done..].
  clear -Hs Hrun. induction Hrun as [|x y z Hxy _ IH]; [done|]. apply IH. by eapply service_next.
Qed.

(** ** The request of [Service], delivered *)

#[local] Existing Instance demo_json.

Lemma nobody_telling {R B n} (m : machine (R := R) (B := B) (n := n)) l o :
  forallb (fun e => match code e.2 with Deliver _ _ _ => false | _ => true end) (map_to_list (pool m)) = true ->
  ~ telling m l o.
Proof.
  intros Hall (i & th & ns & k & Hi & Hcode & _). rewrite forallb_forall in Hall.
  specialize (Hall (i, th)). simpl in Hall. rewrite Hcode in Hall. discriminate Hall. apply list_elem_of_In.
  by apply elem_of_map_to_list.
Qed.

Lemma demo_served_awaiting : awaiting 1%positive (connection demo_served).
Proof. split; try done. intros l us. vm_compute. set_solver. Qed.

(** Three reports to be told and handled. *)
Lemma accepted_is_answered_witness : exists r resp,
  heap (world (runtime demo_served)) !! (1%positive : loc) = Some r /\
  serialize_infer_response (snapshot r) = inr resp /\ status_code resp = 200 /\
  pending 7%nat 1%positive demo_served = 6%nat /\
  sent (connection (deliveries 7%nat 6 demo_served)) = [WResponse (status_code resp) (body resp)].
Proof.
  destruct (heap (world (runtime demo_served)) !! (1%positive : loc)) as [r|] eqn:Hr; [|vm_compute in Hr; discriminate Hr].
  assert (Hend : is_terminal r = true) by (vm_compute in Hr; injection Hr as <-; reflexivity).
  assert (Hp : pending 7%nat 1%positive demo_served = 6%nat) by (vm_compute; reflexivity).
  assert (Hser : exists resp, serialize_infer_response (snapshot r) = inr resp /\ status_code resp = 200)
    by (vm_compute in Hr; injection Hr as <-; eexists; split; vm_compute; reflexivity).
  destruct Hser as (resp & Hser & Hcode). exists r, resp. split; [reflexivity|]. split; [exact Hser|]. split; [exact Hcode|].
  split; [exact Hp|]. rewrite <- Hp.
  apply (accepted_is_answered (HO := gmap_order) 7%nat demo_served 1%positive r resp demo_served_reachable
    demo_served_awaiting Hr Hend); [|exact Hser].
  apply nobody_telling. vm_compute. reflexivity.
Defined.
