(* ===== verification/StreamCodec.v ===== *)
(** * Reading a stream back

    A reference decoder of the chunked transfer coding, and the round trip: a
    client that decodes what a session of [Session] has sent reads the events
    of the updates, in order, and sees the end of the stream exactly when the
    session sent its end mark. *)

From S2P Require Import Prelude Status Requests World Handler Session SessionProofs.
Import InferenceRequest.
Import RequestHandler.
Import HttpSession.

(** ** The decoder *)

Definition hex_value (c : Ascii.ascii) : option N :=
  let n := Ascii.N_of_ascii c in
  if ((48 <=? n) && (n <=? 57))%N then Some (n - 48)%N
  else if ((97 <=? n) && (n <=? 102))%N then Some (n - 87)%N else None.

(** The text after a prefix. *)
Fixpoint strip (pre s : string) : option string :=
  match pre, s with
  | "", _ => Some s
  | String c pre, String d s => if bool_decide (c = d) then strip pre s else None
  | _, _ => None
  end.

(** A chunk size: hexadecimal digits up to the end of the line. *)
Fixpoint read_size (s : string) (acc : N) (some_digit : bool) : option (N * string) :=
  match s with
  | "" => None
  | String c s' =>
      match hex_value c with
      | Some d => read_size s' (acc * 16 + d) true
      | None => if some_digit then option_map (pair acc) (strip crlf s) else None
      end
  end.

(** The first [n] characters and the rest. *)
Fixpoint split_at (n : nat) (s : string) : option (string * string) :=
  match n, s with
  | O, _ => Some ("", s)
  | S n, String c s => prod_map (String c) id <$> split_at n s
  | S _, "" => None
  end.

(** The chunks of a text, and whether it ends with the last chunk; [None] if
    it is not a sequence of complete chunks. *)
Fixpoint decode_chunks (fuel : nat) (s : string) : option (list string * bool) :=
  match fuel with
  | O => None
  | S fuel =>
      if bool_decide (s = "") then Some ([], false) else
      '(n, s) ← read_size s 0 false;
      if (n =? 0)%N then s ← strip crlf s; if bool_decide (s = "") then Some ([], true) else None
      else
        '(chunk, s) ← split_at (N.to_nat n) s;
        s ← strip crlf s;
        '(chunks, finished) ← decode_chunks fuel s;
        Some (chunk :: chunks, finished)
  end.

(** Every chunk takes some characters. *)
Definition decode (s : string) : option (list string * bool) := decode_chunks (S (String.length s)) s.

(** ** Round trip of a chunk *)

Lemma app_cons_str c (s1 s2 : string) : String c s1 +:+ s2 = String c (s1 +:+ s2).
Proof. reflexivity. Qed.

Lemma app_assoc_str (s1 s2 s3 : string) : (s1 +:+ s2) +:+ s3 = s1 +:+ (s2 +:+ s3).
Proof. induction s1 as [|c s1 IH]; [done|]. rewrite !app_cons_str. simpl. by rewrite IH. Qed.

Lemma app_nil_str (s : string) : s +:+ "" = s.
Proof. induction s as [|c s IH]; [done|]. rewrite !app_cons_str. simpl. by rewrite IH. Qed.

Lemma length_app_str (s1 s2 : string) : String.length (s1 +:+ s2) = (String.length s1 + String.length s2)%nat.
Proof. induction s1 as [|c s1 IH]; [done|]. rewrite !app_cons_str. simpl. by rewrite IH. Qed.

Lemma strip_app pre s : strip pre (pre +:+ s) = Some s.
Proof. induction pre as [|c pre IH]; [done|]. rewrite app_cons_str. simpl. by rewrite bool_decide_true. Qed.

Lemma split_at_app s rest : split_at (String.length s) (s +:+ rest) = Some (s, rest).
Proof. induction s as [|c s IH]; [done|]. rewrite !app_cons_str. simpl. by rewrite IH. Qed.

Lemma hex_value_digit d : (d < 16)%N -> hex_value (hex_digit d) = Some d.
Proof.
  intros Hd. unfold hex_value, hex_digit. rewrite Ascii.N_ascii_embedding by (destruct (d <? 10)%N eqn:?; lia).
  destruct (N.ltb_spec d 10).
  - rewrite (proj2 (N.leb_le 48 _)), (proj2 (N.leb_le _ 57)) by lia. simpl. f_equal. lia.
  - rewrite (proj2 (N.leb_gt _ 57)) by lia. rewrite andb_false_r.
    rewrite (proj2 (N.leb_le 97 _)), (proj2 (N.leb_le _ 102)) by lia. simpl. f_equal. lia.
Qed.

(** Reading printed digits: they shift what was read by their number. *)
Lemma read_hex_digits fuel x acc :
  (x < 16 ^ N.of_nat fuel)%N -> (0 < fuel)%nat ->
  exists k, forall a b, read_size (hex_digits fuel x acc) a b = read_size acc (a * 16 ^ k + x) true.
Proof.
  revert x acc. induction fuel as [|fuel IH]; intros x acc Hx Hf; [lia|]. cbn [hex_digits].
  pose proof (N.div_mod x 16 ltac:(done)) as Hdiv. pose proof (N.mod_lt x 16 ltac:(done)) as Hmod.
  assert (Hd : forall a b, read_size (String (hex_digit (x mod 16)) acc) a b = read_size acc (a * 16 + x mod 16) true).
  { intros a b. cbn [read_size]. by rewrite hex_value_digit. }
  destruct (N.eqb_spec (x / 16) 0) as [H0|H0].
  - exists 1%N. intros a b. rewrite Hd. f_equal. lia.
  - destruct (IH (x / 16)%N (String (hex_digit (x mod 16)) acc)) as [k Hk].
    + rewrite Nat2N.inj_succ, N.pow_succ_r' in Hx. apply N.Div0.div_lt_upper_bound. lia.
    + destruct fuel; [|lia]. simpl in Hx. exfalso. apply H0. apply N.div_small. lia.
    + exists (N.succ k). intros a b. rewrite Hk, Hd. f_equal. rewrite N.pow_succ_r'. lia.
Qed.

Lemma size_nat_size x : N.of_nat (N.size_nat x) = N.size x.
Proof. destruct x as [|p]; [done|]. simpl. induction p as [p IH|p IH|]; simpl; lia. Qed.

Lemma read_to_hex x rest : read_size (to_hex x +:+ crlf +:+ rest) 0 false = Some (x, rest).
Proof.
  assert (Happ : forall fuel y acc s, hex_digits fuel y acc +:+ s = hex_digits fuel y (acc +:+ s)).
  { induction fuel as [|fuel IH]; intros y acc s; [done|]. cbn [hex_digits]. by destruct (_ =? _)%N. }
  unfold to_hex. rewrite Happ. change ("" +:+ ?s) with s.
  destruct (read_hex_digits (S (N.size_nat x)) x (crlf +:+ rest)) as [k Hk]; [|lia|].
  - apply N.lt_le_trans with (2 ^ N.of_nat (N.size_nat x))%N.
    + rewrite size_nat_size. apply N.size_gt.
    + transitivity (16 ^ N.of_nat (N.size_nat x))%N; [apply N.pow_le_mono_l; lia|apply N.pow_le_mono_r; lia].
  - rewrite Hk, N.mul_0_l, N.add_0_l. reflexivity.
Qed.

Definition body_of (chunks : list string) : string :=
  foldr (fun chunk s => (if bool_decide (chunk = "") then terminator else frame true chunk) +:+ s) "" chunks.

(** Chunks that are framed, unlike the headers. *)
Definition framed (chunk : string) : Prop := chunk <> "" /\ String.prefix "HTTP/1.1" chunk = false.

Lemma frame_framed chunk rest :
  framed chunk ->
  frame true chunk +:+ rest = to_hex (N.of_nat (String.length chunk)) +:+ crlf +:+ (chunk +:+ crlf +:+ rest).
Proof. intros [_ Hp]. unfold frame. rewrite Hp. simpl. by rewrite !app_assoc_str. Qed.

Lemma hex_digits_length fuel x acc :
  (String.length acc + (if fuel is O then 0 else 1) <= String.length (hex_digits fuel x acc))%nat.
Proof.
  revert x acc. induction fuel as [|fuel IH]; intros x acc; [simpl; lia|]. cbn [hex_digits].
  destruct (_ =? _)%N; [simpl; lia|]. specialize (IH (x / 16)%N (String (hex_digit (x mod 16)) acc)).
  cbn [String.length] in IH. lia.
Qed.

Lemma to_hex_nonempty x s : to_hex x +:+ s <> "".
Proof.
  intros Heq. apply (f_equal String.length) in Heq. rewrite length_app_str in Heq. unfold to_hex in Heq.
  pose proof (hex_digits_length (S (N.size_nat x)) x "") as Hle. cbv beta iota in Hle. lia.
Qed.

Lemma decode_step fuel chunk rest :
  framed chunk ->
  decode_chunks (S fuel) (frame true chunk +:+ rest) =
    '(chunks, finished) ← decode_chunks fuel rest; Some (chunk :: chunks, finished).
Proof.
  intros Hf. rewrite frame_framed by done. cbn [decode_chunks]. rewrite bool_decide_false by apply to_hex_nonempty.
  unfold mbind, option_bind. rewrite read_to_hex. cbv beta iota. destruct Hf as [Hne _].
  rewrite (proj2 (N.eqb_neq _ 0)) by (destruct chunk; [done|simpl; lia]).
  rewrite Nat2N.id, split_at_app. cbv beta iota. by rewrite strip_app.
Qed.

Lemma decode_body fuel chunks (last : bool) :
  Forall framed chunks -> (length chunks < fuel)%nat ->
  decode_chunks fuel (body_of (chunks ++ if last then [""] else [])) = Some (chunks, last).
Proof.
  intros Hf. revert fuel. induction Hf as [|chunk chunks Hc _ IH]; intros [|fuel] Hlt; simpl in Hlt; try lia.
  - by destruct last.
  - cbn [app body_of foldr]. rewrite bool_decide_false by apply Hc. rewrite decode_step by done.
    change (foldr _ _ _) with (body_of (chunks ++ if last then [""] else [])). by rewrite IH by lia.
Qed.

Lemma body_length chunks : Forall framed chunks -> (length chunks <= String.length (body_of chunks))%nat.
Proof.
  induction 1 as [|chunk chunks Hc _ IH]; [done|]. cbn [body_of foldr length]. rewrite bool_decide_false by apply Hc.
  change (foldr _ _ _) with (body_of chunks). rewrite length_app_str.
  destruct (frame true chunk) eqn:Hfr; [|simpl; lia]. exfalso. apply (to_hex_nonempty (N.of_nat (String.length chunk)) (crlf +:+ (chunk +:+ crlf +:+ ""))).
  rewrite <- frame_framed by done. by rewrite Hfr.
Qed.

Lemma body_of_app l1 l2 : body_of (l1 ++ l2) = body_of l1 +:+ body_of l2.
Proof.
  induction l1 as [|x l1 IH]; [done|]. cbn [app body_of foldr].
  change (foldr _ _ (l1 ++ l2)) with (body_of (l1 ++ l2)). rewrite IH. by rewrite app_assoc_str.
Qed.

Lemma decode_text chunks (last : bool) :
  Forall framed chunks -> decode (body_of (chunks ++ if last then [""] else [])) = Some (chunks, last).
Proof.
  intros Hf. apply decode_body; [done|]. rewrite body_of_app, length_app_str. pose proof (body_length chunks Hf). lia.
Qed.

(** ** Round trip of a stream *)

(** The text of an object starts with a brace. *)
Class JsonText `{JsonLib} : Prop :=
  dump_object fs s : json_dump (JObject fs) = inr s -> exists s', s = "{" +:+ s'.

Section streams.
Context `{!JsonLib} `{!JsonText}.

(** The lines a client should read. *)
Fixpoint event_lines (snaps : list RequestSnapshot) : list string :=
  match snaps with
  | [] => []
  | snap :: snaps =>
      if terminal_snap snap then [line_text (serialize_terminal_event snap)]
      else if bool_decide (snap_state snap = Queued) || bool_decide (snap_state snap = Running)
      then line_text (serialize_state_event snap) :: event_lines snaps
      else event_lines snaps
  end.

Lemma event_chunks_lines snaps :
  event_chunks snaps = event_lines snaps ++ (if has_terminal snaps then [""] else []).
Proof.
  induction snaps as [|x snaps IH]; [done|]. simpl. destruct (terminal_snap x); [done|].
  destruct (_ || _); simpl; by rewrite IH.
Qed.

(** What the socket received, as text. *)
Definition wire_text (l : list wire) : string :=
  foldr (fun x s => match x with WData d => d +:+ s | WResponse _ _ => s end) "" l.

Lemma wire_text_render chunks : wire_text (map render chunks) = body_of chunks.
Proof.
  induction chunks as [|x chunks IH]; [done|]. cbn [map wire_text foldr body_of].
  change (foldr _ _ (map render chunks)) with (wire_text (map render chunks)). rewrite IH.
  unfold render. by destruct (bool_decide (x = "")).
Qed.

Lemma line_framed j : (exists fs, j = JObject fs) -> framed (line_text (line_of j)).
Proof.
  intros [fs ->]. split; [apply line_text_nonempty|]. unfold line_of.
  destruct (json_dump (JObject fs)) as [e|s] eqn:Hd; [done|]. by destruct (dump_object fs s Hd) as [s' ->].
Qed.

Lemma lines_framed snaps : Forall framed (event_lines snaps).
Proof.
  induction snaps as [|x snaps IH]; simpl; [done|]. destruct (terminal_snap x).
  - constructor; [|done]. apply line_framed. by eexists.
  - destruct (_ || _); [|done]. constructor; [|done]. apply line_framed. by eexists.
Qed.

(** A prefix of a stream: some of its lines, and the end mark after all. *)
Lemma stream_prefix snaps pre :
  pre `prefix_of` stream_chunks snaps -> pre <> [] ->
  exists lines (last : bool), pre = kHeaders :: lines ++ (if last then [""] else []) /\
    lines `prefix_of` event_lines snaps /\
    (last = true -> lines = event_lines snaps /\ has_terminal snaps = true) /\
    (pre = stream_chunks snaps -> lines = event_lines snaps).
Proof.
  intros [rest Hpre] Hne.
  assert (Hshape : stream_chunks snaps = kHeaders :: event_chunks snaps) by (destruct snaps; by destruct pre).
  rewrite Hshape in *. destruct pre as [|h pre]; [done|]. injection Hpre as <- Hpre.
  rewrite event_chunks_lines in *. symmetry in Hpre.
  apply app_eq_inv in Hpre as [(k & -> & Hk) | (k & Hk & Hr)].
  - destruct (has_terminal snaps) eqn:Ht; [|symmetry in Hk; apply app_eq_nil in Hk as [-> ->]].
    + destruct k as [|y k]; [|injection Hk as <- Hk; symmetry in Hk; apply app_eq_nil in Hk as [-> ->]].
      * exists (event_lines snaps), false. by rewrite !app_nil_r.
      * by exists (event_lines snaps), true.
    + exists (event_lines snaps), false. by rewrite !app_nil_r.
  - exists pre, false. rewrite app_nil_r. split; [done|]. split; [by exists k|]. split; [done|].
    intros [= Heq]. rewrite Hk in *. destruct k; [by rewrite app_nil_r|].
    apply (f_equal length) in Heq. rewrite !length_app in Heq. simpl in Heq. lia.
Qed.

(** C23: A client reads back the events. What a session has sent of a stream is
    the headers followed by a text that decodes, under the chunked coding, to a
    prefix of the events of the updates delivered to it, in their order and up
    to the first terminal one: to all of them when the connection is open and
    no write is in flight. The decoded text is finished only after the terminal
    event of the request. *)
Theorem stream_roundtrip c :
  reachable c -> active_request_ (ses c) <> None -> stream_mode_ (ses c) = true -> sent c <> [] ->
  exists text lines finished,
    wire_text (sent c) = kHeaders +:+ text /\ decode text = Some (lines, finished) /\
    lines `prefix_of` event_lines (seen c) /\
    (finished = true -> lines = event_lines (seen c) /\ has_terminal (seen c) = true) /\
    (is_open c = true -> writing c = None -> lines = event_lines (seen c)).
Proof.
  intros [[Ho _ _ Hm _] _]%reachable_inv Ha Hsm Hne.
  assert (Hst : streaming c) by (destruct Hm as [[? _]|[[(r & _ & [?|[? _]]) _]|?]]; [done|done|congruence|done]).
  destruct (streaming_wire c Hst) as (pre & Hs & Hpre).
  destruct (stream_prefix _ _ Hpre) as (lines & last & Heq & Hl & Hlast & Hall); [by intros ->; rewrite Hs in Hne|].
  exists (body_of (lines ++ if last then [""] else [])), lines, last.
  split; [rewrite Hs, wire_text_render, Heq; reflexivity|]. split; [apply decode_text|].
  { destruct Hl as [k Hk]. pose proof (lines_framed (seen c)) as Hf. rewrite Hk in Hf. by apply Forall_app in Hf as [? _]. }
  split; [done|]. split; [done|]. intros Hopen Hw. apply Hall, prefix_length_eq; [done|].
  rewrite Hopen in Ho. assert (Hc : closed_ (ses c) = false) by (by destruct (closed_ (ses c))).
  rewrite <- (length_map render pre), <- Hs, (streaming_idle c) by done. by rewrite length_map.
Qed.
End streams.

(** ** A concrete stream *)

#[local] Existing Instance demo_json.

#[local] Instance demo_text : JsonText.
Proof. intros fs s [= <-]. by exists "}". Qed.

Lemma stream_roundtrip_witness :
  exists text lines finished,
    wire_text (sent demo_idle) = kHeaders +:+ text /\ decode text = Some (lines, finished) /\
    lines = event_lines (seen demo_idle).
Proof.
  destruct (stream_roundtrip demo_idle demo_idle_reachable) as (text & lines & finished & Ht & Hd & _ & _ & Hall);
    [done|reflexivity|done|].
  exists text, lines, finished. split; [exact Ht|]. split; [exact Hd|]. apply Hall; reflexivity.
Defined.

(** The text of one event and of the end, decoded. *)
Example decode_demo :
  decode ("3" +:+ crlf +:+ "{}" +:+ newline +:+ crlf +:+ terminator) = Some (["{}" +:+ newline], true).
Proof. reflexivity. Qed.
