(* ===== verification/Server.v ===== *)
(** * The HTTP server

    [HttpServer] of [include/airuntime/serving/http_session.hpp] and
    [src/serving/http_server.cpp]: it accepts connections, starts a session
    for each and keeps a weak reference to it until the session closes.
    [system] is the server with the connections it accepted; its steps are
    those of the I/O thread, one handler at a time. *)

From S2P Require Import Prelude Status Requests World Handler Session SessionProofs.
Import InferenceRequest.
Import RequestHandler.
Import HttpSession.

(** ** The server *)

Module HttpServer.

Record t := mk {
  stopping_ : bool;
  ready_ : bool;
  acceptor_open : bool;
  work_guard_ : bool;
  sessions_ : list nat
}.

(** The constructor, from the results of opening, binding and listening; the
    result of setting the option is ignored. *)
Definition new (open_ok bind_ok listen_ok : bool) : exn + t :=
  if negb open_ok then inl (StdException "failed to open acceptor") else
  if negb bind_ok then inl (StdException "failed to bind acceptor") else
  if negb listen_ok then inl (StdException "failed to listen on acceptor") else
  inr (mk false false true false []).

Definition set_sessions (l : list nat) (s : t) : t :=
  mk (stopping_ s) (ready_ s) (acceptor_open s) (work_guard_ s) l.

(** References to sessions that are gone are dropped on the way. *)
Definition unregister_session (lock : nat -> bool) (session : nat) (s : t) : t :=
  set_sessions (filter (fun i => lock i = true /\ i <> session) (sessions_ s)) s.

Definition is_ready (s : t) : bool := ready_ s.

(** The port of the local endpoint, when there is one. *)
Definition port (local_endpoint : option Z) : Z := default 0 local_endpoint.
End HttpServer.
Import HttpServer.

(** ** The I/O thread *)

Record system := mkSystem {
  srv : HttpServer.t;
  conns : gmap nat conn;
  accepting : bool;
  next_conn : nat;
  io_running : bool
}.

Definition set_srv (s : HttpServer.t) (w : system) : system :=
  mkSystem s (conns w) (accepting w) (next_conn w) (io_running w).
Definition set_conns (m : gmap nat conn) (w : system) : system :=
  mkSystem (srv w) m (accepting w) (next_conn w) (io_running w).
Definition set_accepting (b : bool) (w : system) : system :=
  mkSystem (srv w) (conns w) b (next_conn w) (io_running w).

(** [weak.lock()]: a session is there while something owns it. *)
Definition locks (w : system) (i : nat) : bool :=
  match conns w !! i with Some c => alive c | None => false end.

Definition do_accept (w : system) : system :=
  let s := srv w in
  if stopping_ s then w else
  set_accepting true (set_srv (HttpServer.mk (stopping_ s) true (acceptor_open s) (work_guard_ s) (sessions_ s)) w).

(** A connection whose session has started. *)
Definition started_conn : option conn := run start fresh_conn.

Definition register (c : conn) (w : system) : system :=
  mkSystem (set_sessions (sessions_ (srv w) ++ [next_conn w]) (srv w)) (<[next_conn w := c]> (conns w))
    (accepting w) (S (next_conn w)) (io_running w).

Definition on_accept (failed : bool) (w : system) : option system :=
  let w := if negb (stopping_ (srv w)) then do_accept w else w in
  if failed || stopping_ (srv w) then Some w else
  c ← started_conn; Some (register c w).

(** [run]: from here on the handlers run. *)
Definition run_server (w : system) : system :=
  let s := srv w in
  let w := set_srv (HttpServer.mk (stopping_ s) (ready_ s) (acceptor_open s) true (sessions_ s)) w in
  let w := do_accept w in
  mkSystem (srv w) (conns w) (accepting w) (next_conn w) true.

(** [session->shutdown()] of the sessions that are there; each unregisters
    itself from a list that is already empty. *)
Definition shutdown_one (m : gmap nat conn) (i : nat) : option (gmap nat conn) :=
  match m !! i with
  | Some c => c' ← run shutdown (stop_conn c); Some (<[i := c']> m)
  | None => Some m
  end.

Fixpoint shutdown_each (l : list nat) (m : gmap nat conn) : option (gmap nat conn) :=
  match l with [] => Some m | i :: l => m ← shutdown_one m i; shutdown_each l m end.

Definition stop (w : system) : option system :=
  let active := filter (fun i => locks w i = true) (sessions_ (srv w)) in
  m ← shutdown_each active (conns w);
  Some (mkSystem (HttpServer.mk true (ready_ (srv w)) false false []) m false (next_conn w) false).

Definition is_unregister (a : action) : bool := match a with Unregister => true | _ => false end.

(** A session's handler ran: it may have unregistered itself. *)
Definition session_ran (i : nat) (c c' : conn) (w : system) : system :=
  let w' := set_conns (<[i := c']> (conns w)) w in
  if existsb is_unregister (drop (length (log_ c)) (log_ c'))
  then set_srv (unregister_session (locks w) i (srv w)) w' else w'.

Definition idle_system (s : HttpServer.t) : system := mkSystem s ∅ false 0 false.

Section server.
Context `{!JsonLib}.

Inductive sys_step (w : system) : system -> Prop :=
  | sys_accept failed w' : io_running w = true -> accepting w = true ->
      on_accept failed (set_accepting false w) = Some w' -> sys_step w w'
  | sys_session i c c' : io_running w = true -> conns w !! i = Some c -> stopped c' = false -> step c c' ->
      sys_step w (session_ran i c c' w)
  | sys_stop w' : io_running w = true -> stop w = Some w' -> sys_step w w'.

Inductive sys_reachable : system -> Prop :=
  | sys_start s : HttpServer.new true true true = inr s -> sys_reachable (run_server (idle_system s))
  | sys_next w w' : sys_reachable w -> sys_step w w' -> sys_reachable w'.

(** ** What the server knows of its sessions *)

(** A handler that unregisters its session has closed it. *)
Definition unregisters {A} (h : H A) : Prop :=
  forall s a s' acts, h s = (inr a, (s', acts)) ->
    (closed_ s = true -> closed_ s' = true) /\ (Unregister ∈ acts -> closed_ s' = true).

Lemma unregisters_bind {A B} (m : H A) (k : A -> H B) :
  unregisters m -> (forall a, unregisters (k a)) -> unregisters (m ≫= k).
Proof.
  intros Hm Hk s b s' acts. unfold mbind, H_bind. destruct (m s) as [[e|a] [s1 acts1]] eqn:Hms; [done|].
  destruct (k a s1) as [r [s2 acts2]] eqn:Hks. intros [= -> <- <-].
  destruct (Hm _ _ _ _ Hms), (Hk _ _ _ _ _ Hks). split; [by auto|]. intros [?|?]%elem_of_app; auto.
Qed.

Lemma unregisters_ret {A} (a : A) : unregisters (mret a).
Proof. intros s b s' acts [= _ <- <-]. split; [done|by intros ?%elem_of_nil]. Qed.
Lemma unregisters_get {A} (f : HttpSession.t -> A) : unregisters (get f).
Proof. intros s b s' acts [= _ <- <-]. split; [done|by intros ?%elem_of_nil]. Qed.
Lemma unregisters_lift {A} (r : exn + A) : unregisters (lift r).
Proof. intros s b s' acts [= _ <- <-]. split; [done|by intros ?%elem_of_nil]. Qed.
Lemma unregisters_update f : (forall s, closed_ s = true -> closed_ (f s) = true) -> unregisters (update f).
Proof. intros Hf s b s' acts [= _ <- <-]. split; [by apply Hf|by intros ?%elem_of_nil]. Qed.
Lemma unregisters_emit a : a <> Unregister -> unregisters (emit a).
Proof. intros Ha s b s' acts [= _ <- <-]. split; [done|]. intros Hin. apply elem_of_cons in Hin as [<-|?%elem_of_nil]; done. Qed.

Lemma unregisters_close : unregisters close.
Proof.
  intros s a s' acts. unfold close, stop_disconnect_watch, mbind, H_bind, get, update, emit.
  destruct (closed_ s) eqn:Hc; intros [= _ <- <-]; [|done]. split; [done|by intros ?%elem_of_nil].
Qed.

Create HintDb unreg.
#[local] Hint Resolve unregisters_ret unregisters_get unregisters_lift unregisters_close : unreg.

(** Walk through a handler. *)
Ltac walk :=
  repeat first
    [ done | progress intros | simple apply unregisters_bind | simple apply unregisters_update
    | by simple apply unregisters_emit
    | solve [auto with unreg] | case_match ].

Lemma unregisters_cancel : unregisters cancel_active.
Proof. unfold cancel_active. walk. Qed.
Lemma unregisters_watch : unregisters stop_disconnect_watch.
Proof. unfold stop_disconnect_watch. walk. Qed.
#[local] Hint Resolve unregisters_cancel unregisters_watch : unreg.

Lemma unregisters_disconnect : unregisters on_disconnect.
Proof. unfold on_disconnect. walk. Qed.
Lemma unregisters_arm : unregisters arm_disconnect_watch.
Proof. unfold arm_disconnect_watch. walk. Qed.
Lemma unregisters_respond code text : unregisters (send_json_response code text).
Proof. unfold send_json_response. walk. Qed.
Lemma unregisters_do_write : unregisters do_write.
Proof. unfold do_write. walk. Qed.
#[local] Hint Resolve unregisters_disconnect unregisters_arm unregisters_respond unregisters_do_write : unreg.

Lemma unregisters_queue data b : unregisters (queue_write data b).
Proof. unfold queue_write. walk. Qed.
#[local] Hint Resolve unregisters_queue : unreg.

Lemma unregisters_read a out : unregisters (on_read a out).
Proof. unfold on_read, handle_request, start_infer. walk. Qed.
Lemma unregisters_written ec final : unregisters (on_written ec final).
Proof. unfold on_written. walk. Qed.
Lemma unregisters_responded ec : unregisters (on_responded ec).
Proof. unfold on_responded. walk. Qed.
Lemma unregisters_peer wait_ec read_ec n : unregisters (on_peer_wait wait_ec read_ec n).
Proof. unfold on_peer_wait. walk. Qed.
Lemma unregisters_state snap : unregisters (on_state_update snap).
Proof. unfold on_state_update. walk. Qed.
Lemma unregisters_deadline ec l : unregisters (on_deadline ec l).
Proof. unfold on_deadline. walk. Qed.
Lemma unregisters_shutdown : unregisters shutdown.
Proof. unfold shutdown. walk. Qed.
#[local] Hint Resolve unregisters_read unregisters_written unregisters_responded unregisters_peer unregisters_state
  unregisters_deadline unregisters_shutdown : unreg.

Lemma run_unregisters h c c' :
  unregisters h -> run h c = Some c' -> Unregister ∈ drop (length (log_ c)) (log_ c') -> closed_ (ses c') = true.
Proof.
  intros Hh. unfold run. destruct (h (ses c)) as [[e|[]] [s acts]] eqn:Hs; [done|]. intros [= <-].
  rewrite log_foldl, ses_foldl. simpl. rewrite drop_app_length. by apply (Hh _ _ _ _ Hs).
Qed.

Lemma step_unregisters c c' :
  step c c' -> Unregister ∈ drop (length (log_ c)) (log_ c') -> closed_ (ses c') = true.
Proof.
  destruct 1; intros Hin;
    try (match goal with Hrun : run ?h ?x = Some _ |- _ => apply (run_unregisters h x _ ltac:(auto with unreg) Hrun Hin) end).
  simpl in Hin. rewrite drop_all in Hin. by apply elem_of_nil in Hin.
Qed.

(** Only a session that something owns has a step. *)
Lemma step_alive c c' : step c c' -> alive c = true.
Proof.
  destruct 1 as [? ? ? ? Hr|? ? ? ? Hw|? ? ? Hr|? ? ? ? ? Hw| | ? ? ? ? Hp| |]; try done; unfold alive.
  - by rewrite Hr.
  - rewrite Hw. by rewrite orb_true_r.
  - rewrite Hr. by rewrite !orb_true_r.
  - rewrite Hw. by rewrite !orb_true_r.
  - rewrite Hp, (bool_decide_false (_ = [])) by done. by rewrite !orb_true_r.
Qed.

Lemma step_closed c c' : step c c' -> closed_ (ses c) = true -> closed_ (ses c') = true.
Proof.
  assert (Hrun : forall h x x', unregisters h -> run h x = Some x' -> closed_ (ses x) = true -> closed_ (ses x') = true).
  { intros h x x' Hh. unfold run. destruct (h (ses x)) as [[e|[]] [s acts]] eqn:Hs; [done|]. intros [= <-].
    rewrite ses_foldl. simpl. by apply (Hh _ _ _ _ Hs). }
  destruct 1; intros Hc;
    try (match goal with Hr : run ?h ?x = Some _ |- _ => apply (Hrun h x _ ltac:(auto with unreg) Hr Hc) end).
  done.
Qed.

(** Every session that is there and has not closed is known to the server. *)
Record sys_inv (w : system) : Prop := {
  si_conns : forall i c, conns w !! i = Some c -> reachable c;
  si_fresh : forall i, i ∈ sessions_ (srv w) \/ is_Some (conns w !! i) -> (i < next_conn w)%nat;
  si_nodup : NoDup (sessions_ (srv w));
  si_running : io_running w = true -> stopping_ (srv w) = false /\
    forall i c, conns w !! i = Some c -> stopped c = false /\
      (alive c = true -> closed_ (ses c) = false -> i ∈ sessions_ (srv w))
}.

Lemma session_ran_sessions i c c' w :
  sessions_ (srv (session_ran i c c' w)) =
    if existsb is_unregister (drop (length (log_ c)) (log_ c'))
    then filter (fun j => locks w j = true /\ j <> i) (sessions_ (srv w)) else sessions_ (srv w).
Proof. unfold session_ran. by destruct (existsb _ _). Qed.

Lemma session_ran_other i c c' w :
  conns (session_ran i c c' w) = <[i := c']> (conns w) /\ next_conn (session_ran i c c' w) = next_conn w /\
  io_running (session_ran i c c' w) = io_running w /\ stopping_ (srv (session_ran i c c' w)) = stopping_ (srv w).
Proof. unfold session_ran. by destruct (existsb _ _). Qed.

Lemma unregister_in acts : existsb is_unregister acts = true -> Unregister ∈ acts.
Proof. intros (a & Hin & Ha)%existsb_exists. destruct a; try done. by apply list_elem_of_In. Qed.

Lemma sys_inv_session w i c c' :
  sys_inv w -> conns w !! i = Some c -> stopped c' = false -> step c c' -> sys_inv (session_ran i c c' w).
Proof.
  intros [Hc Hf Hn Hr] Hi Hs Hst. destruct (session_ran_other i c c' w) as (Ec & En & Eio & Est).
  split; rewrite ?session_ran_sessions, ?Ec, ?En, ?Eio, ?Est.
  - intros j cj [[<- <-]|[_ Hj]]%lookup_insert_Some; [|by eapply Hc]. eapply reach_step; [by eapply Hc|done].
  - intros j Hj. apply Hf. destruct Hj as [Hj|Hj].
    + left. destruct (existsb _ _); [by apply list_elem_of_filter in Hj as [_ ?]|done].
    + right. destruct Hj as [cj [[<- _]|[_ Hj]]%lookup_insert_Some]; [by rewrite Hi|by rewrite Hj].
  - destruct (existsb _ _); [by apply NoDup_filter|done].
  - intros Hrun. destruct (Hr Hrun) as [Hstop Hall]. split; [done|].
    intros j cj [[<- <-]|[Hne Hj]]%lookup_insert_Some.
    + split; [done|]. intros _ Hcl.
      destruct (existsb _ _) eqn:Hu. { apply unregister_in, (step_unregisters _ _ Hst) in Hu. congruence. }
      apply (Hall i c Hi); [by eapply step_alive|]. destruct (closed_ (ses c)) eqn:?; [|done].
      rewrite (step_closed _ _ Hst) in Hcl by done. done.
    + destruct (Hall j cj Hj) as [? Hin]. split; [done|]. intros Ha Hcl. specialize (Hin Ha Hcl).
      destruct (existsb _ _); [|done]. apply list_elem_of_filter. unfold locks. rewrite Hj. done.
Qed.

Lemma started_conn_ok : exists c, started_conn = Some c /\ reachable c /\ stopped c = false.
Proof. eexists. split; [reflexivity|]. split; [by apply reach_start|done]. Qed.

Lemma sys_inv_accept failed w w' :
  sys_inv w -> io_running w = true -> on_accept failed (set_accepting false w) = Some w' -> sys_inv w'.
Proof.
  intros [Hc Hf Hn Hr] Hrun. destruct (Hr Hrun) as [Hstop Hall]. destruct started_conn_ok as (c & Hsc & Hre & Hst). unfold on_accept, do_accept. rewrite Hsc. simpl. rewrite !Hstop. simpl.
  destruct failed; simpl; intros [= <-]; [by split|]. split; simpl.
  - intros i ci [[<- <-]|[_ Hi]]%lookup_insert_Some; [done|by eapply Hc].
  - intros i [[Hi|Hi%list_elem_of_singleton]%elem_of_app|[ci [[<- _]|[_ Hi]]%lookup_insert_Some]].
    + pose proof (Hf i (or_introl Hi)). lia.
    + lia.
    + lia.
    + assert (i < next_conn w)%nat by (apply Hf; right; by rewrite Hi). lia.
  - apply NoDup_app. split; [done|]. split; [|apply NoDup_singleton].
    intros i Hi Hi'%list_elem_of_singleton. subst i. pose proof (Hf _ (or_introl Hi)). lia.
  - intros _. split; [done|]. intros i ci [[<- <-]|[_ Hi]]%lookup_insert_Some.
    + split; [done|]. intros _ _. apply elem_of_app. right. by apply list_elem_of_singleton.
    + destruct (Hall i ci Hi) as [? Hin]. split; [done|]. intros ? ?. apply elem_of_app. left. by apply Hin.
Qed.

(** Shutting a session down never throws, and closes it. *)
Lemma run_shutdown c :
  reachable c -> stopped c = false -> alive c = true ->
  exists c', run shutdown (stop_conn c) = Some c' /\ reachable c' /\ closed_ (ses c') = true.
Proof.
  intros Hre Hs Ha. destruct (run shutdown (stop_conn c)) as [c'|] eqn:Hrun.
  - exists c'. split; [done|]. assert (Hre' : reachable c') by (eapply reach_step; [done|by eapply step_stop]). split; [done|].
    destruct (reachable_inv c Hre) as [_ Hk]. revert Hrun. apply (wp_run _ _ _ (fun _ c' => closed_ (ses c') = true)).
    unfold shutdown. apply wp_bind, wp_cancel_tidy; [apply Hk|]. intros x Hx _.
    eapply wp_mono; [|by apply wp_close_tidy]. by intros ? ? [].
  - exfalso. revert Hrun. unfold run, shutdown, cancel_active, close, stop_disconnect_watch, mbind, H_bind, get, update, emit, mret, H_ret.
    destruct (active_request_ (ses (stop_conn c))), (closed_ (ses (stop_conn c))); done.
Qed.

Definition quiet_conn (c : conn) : Prop := reachable c /\ stopped c = false /\ alive c = true.

Lemma shutdown_each_spec l m :
  NoDup l -> (forall i, i ∈ l -> exists c, m !! i = Some c /\ quiet_conn c) ->
  exists m', shutdown_each l m = Some m' /\ forall i,
    (i ∉ l -> m' !! i = m !! i) /\
    (i ∈ l -> exists c', m' !! i = Some c' /\ reachable c' /\ closed_ (ses c') = true).
Proof.
  intros Hn. revert m. induction Hn as [|i l Hni Hn IH]; intros m Hm.
  { exists m. split; [done|]. intros i. split; [done|]. by intros ?%elem_of_nil. }
  destruct (Hm i) as (c & Hi & Hre & Hs & Ha); [left|]. destruct (run_shutdown c Hre Hs Ha) as (c' & Hrun & Hre' & Hc').
  destruct (IH (<[i := c']> m)) as (m' & Hm' & Hspec).
  { intros j Hj. rewrite lookup_insert_ne by (intros ->; done). apply Hm. by right. }
  exists m'. cbn [shutdown_each]. unfold shutdown_one. rewrite Hi, Hrun. simpl. split; [done|].
  intros j. destruct (Hspec j) as [Hout Hin]. rewrite elem_of_cons. split.
  - intros Hj. rewrite Hout by tauto. rewrite lookup_insert_ne by (intros ->; tauto). done.
  - intros [->|Hj]; [|by apply Hin]. exists c'. rewrite Hout by done. by rewrite lookup_insert_eq.
Qed.


Lemma stop_spec w :
  sys_inv w -> io_running w = true -> exists m',
    stop w = Some (mkSystem (HttpServer.mk true (ready_ (srv w)) false false []) m' false (next_conn w) false) /\
    forall i, match conns w !! i with
              | Some c => exists c', m' !! i = Some c' /\ reachable c' /\
                  if alive c then closed_ (ses c') = true else c' = c
              | None => m' !! i = None
              end.
Proof.
  intros [Hc Hf Hn Hr] Hrun. destruct (Hr Hrun) as [_ Hall]. unfold stop.
  set (l := filter (fun i => locks w i = true) (sessions_ (srv w))).
  assert (Hl : forall i, i ∈ l <-> i ∈ sessions_ (srv w) /\ exists c, conns w !! i = Some c /\ alive c = true).
  { intros i. unfold l, locks. rewrite list_elem_of_filter. destruct (conns w !! i); naive_solver. }
  destruct (shutdown_each_spec l (conns w)) as (m' & Hm' & Hspec); [by apply NoDup_filter| |].
  { intros i (_ & c & Hi & Ha)%Hl. exists c. split; [done|]. split; [by eapply Hc|]. by destruct (Hall i c Hi). }
  exists m'. rewrite Hm'. split; [done|]. intros i. destruct (Hspec i) as [Hout Hin].
  destruct (conns w !! i) as [c|] eqn:Hi; [|apply Hout; rewrite Hl; naive_solver].
  destruct (decide (i ∈ l)) as [Hil|Hil].
  - destruct (Hin Hil) as (c' & ? & ? & ?). exists c'. split; [done|]. split; [done|].
    apply Hl in Hil as (_ & c0 & ? & Ha). simplify_eq. by rewrite Ha.
  - exists c. rewrite Hout by done. split; [done|]. split; [by eapply Hc|]. destruct (alive c) eqn:Ha; [|done].
    destruct (closed_ (ses c)) eqn:Hcl; [done|]. destruct Hil. apply Hl. split; [by apply (Hall i c Hi)|by exists c].
Qed.

Lemma sys_inv_reachable w : sys_reachable w -> sys_inv w.
Proof.
  induction 1 as [s [= <-]|w w' _ IH Hst].
  { split; simpl; try done; [|constructor]. intros i [?%elem_of_nil|[? ?]]; done. }
  destruct Hst as [failed w' Hrun _ Hacc|i c c' Hrun Hi Hs Hst|w' Hrun Hstop].
  - by eapply sys_inv_accept.
  - by apply sys_inv_session.
  - destruct (stop_spec w IH Hrun) as (m' & Hm' & Hspec). rewrite Hm' in Hstop. injection Hstop as <-.
    split; simpl; [| |constructor|done].
    + intros i c' Hi. specialize (Hspec i). destruct (conns w !! i); [|congruence]. destruct Hspec as (? & ? & ? & _). congruence.
    + intros i [?%elem_of_nil|[c' Hi]]; [done|]. apply IH. right. specialize (Hspec i). destruct (conns w !! i); [done|congruence].
Qed.

(** When the I/O thread has stopped, every session is closed or gone. *)
Lemma stopped_sessions w :
  sys_reachable w -> io_running w = false ->
  stopping_ (srv w) = true /\ sessions_ (srv w) = [] /\
  forall i c, conns w !! i = Some c -> closed_ (ses c) = true \/ alive c = false.
Proof.
  intros Hw. destruct Hw as [s _|w w' Hw Hst]; [done|]. pose proof (sys_inv_reachable w Hw) as Hinv.
  destruct Hst as [failed w' Hrun _ Hacc|i c c' Hrun Hi Hs Hst|w' Hrun Hstop]; intros Hio.
  - exfalso. assert (io_running w' = io_running w); [|congruence]. revert Hacc. unfold on_accept, do_accept.
    intros Hacc. repeat case_match; simplify_eq/=; try done.
    all: destruct started_conn as [c|]; simplify_eq/=; done.
  - exfalso. revert Hio. unfold session_ran. destruct (existsb _ _); simpl; congruence.
  - destruct (stop_spec w Hinv Hrun) as (m' & Hm' & Hspec). rewrite Hm' in Hstop. injection Hstop as <-.
    split; [done|]. split; [done|]. simpl. intros i c' Hi. specialize (Hspec i).
    destruct (conns w !! i) as [c|]; [|congruence]. destruct Hspec as (c0 & Hc0 & _ & Hcase). simplify_eq.
    destruct (alive c) eqn:Ha; [by left|right; congruence].
Qed.

(** C26: Stopping the server ends every session. In every reachable state of
    the running server, [stop] returns without an exception, refuses further
    connections and leaves no session registered and no handler to run; and
    every session that was still there is closed then, its request asked to
    cancel unless its end had been delivered. *)
Theorem server_stop_settles w :
  sys_reachable w -> io_running w = true -> exists w', stop w = Some w' /\
    stopping_ (srv w') = true /\ acceptor_open (srv w') = false /\ sessions_ (srv w') = [] /\ io_running w' = false /\
    forall i c, conns w !! i = Some c -> alive c = true -> exists c', conns w' !! i = Some c' /\
      closed_ (ses c') = true /\ is_open c' = false /\
      forall l, active_request_ (ses c') = Some l -> CancelIfLive l ∈ log_ c' \/ has_terminal (seen c') = true.
Proof.
  intros Hw Hrun. destruct (stop_spec w (sys_inv_reachable w Hw) Hrun) as (m' & Hstop & Hspec).
  eexists. split; [exact Hstop|]. repeat (split; [done|]). intros i c Hi Ha. specialize (Hspec i). rewrite Hi in Hspec.
  destruct Hspec as (c' & Hi' & Hre & Hcl). exists c'. split; [done|]. rewrite Ha in Hcl. split; [done|].
  destruct (reachable_inv c' Hre) as [[Ho _ _ _ Hst] _]. rewrite Hcl in Ho. split; [done|]. by apply Hst.
Qed.
End server.

(** A server that accepted one connection. *)
#[local] Existing Instance demo_json.

Definition demo_server : system := default (idle_system (HttpServer.mk false false true false []))
  (on_accept false (set_accepting false (run_server (idle_system (HttpServer.mk false false true false []))))).

Lemma demo_server_reachable : sys_reachable demo_server.
Proof.
  eapply sys_next; [by apply sys_start|]. by apply (sys_accept _ false).
Qed.

Lemma server_stop_settles_witness :
  exists w', stop demo_server = Some w' /\ exists c', conns w' !! 0%nat = Some c' /\ closed_ (ses c') = true.
Proof.
  destruct (server_stop_settles demo_server demo_server_reachable eq_refl) as (w' & Hs & _ & _ & _ & _ & Hall).
  exists w'. split; [exact Hs|]. destruct (Hall 0%nat (after start fresh_conn)) as (c' & Hc & Hcl & _); [reflexivity..|].
  by exists c'.
Defined.
