(* ===== verification/Options.v ===== *)
(** * Options and wiring of the server

    [apps/runtime-server/main.cpp]: the command line, and the runtime built
    from it. The integer readers of the standard library are modelled as the
    language defines them: leading white space and a sign are accepted, what
    follows the digits is ignored, and an unsigned reader negates modulo
    2^64. *)

From Stdlib Require Import Ascii.
From S2P Require Import Prelude Status Requests World Queue Registry Resources Eviction Backends.
From S2P Require Import Manager Router Batch Scheduler Admission Worker Runtime WorkloadScheduler Llama.
Import InferenceRequest.

(** ** Reading integers *)

Definition is_space (c : Ascii.ascii) : bool :=
  let n := Ascii.N_of_ascii c in ((n =? 32) || ((9 <=? n) && (n <=? 13)))%N.

Definition digit (c : Ascii.ascii) : option Z :=
  let n := Ascii.N_of_ascii c in
  if ((48 <=? n) && (n <=? 57))%N then Some (Z.of_N n - 48) else None.

Fixpoint skip_spaces (s : string) : string :=
  match s with String c s' => if is_space c then skip_spaces s' else s | "" => "" end.

(** The value of the leading digits; [None] if there is none. *)
Fixpoint digits (s : string) (acc : option Z) : option Z :=
  match s with
  | String c s =>
      match digit c with Some d => digits s (Some (default 0 acc * 10 + d)) | None => acc end
  | "" => acc
  end.

(** An optional sign, then digits: whether it is negative, and the magnitude. *)
Definition scan_integer (s : string) : option (bool * Z) :=
  match skip_spaces s with
  | String "-"%char s => pair true <$> digits s None
  | String "+"%char s => pair false <$> digits s None
  | s => pair false <$> digits s None
  end.

Definition stoull (s : string) : exn + Z :=
  match scan_integer s with
  | None => inl (StdException "stoull")
  | Some (neg, v) =>
      if two64 <=? v then inl (StdException "stoull") else inr (if neg then u64 (- v) else v)
  end.

Definition stoi (s : string) : exn + Z :=
  match scan_integer s with
  | None => inl (StdException "stoi")
  | Some (neg, v) =>
      let z := if (neg : bool) then - v else v in
      if (z <? -2147483648) || (2147483647 <? z) then inl (StdException "stoi") else inr z
  end.

(** ** The command line *)

Record ServerOptions := mkOptions {
  host : string;
  opt_port : Z;
  backend : string;
  model_id : string;
  model_path : string;
  ctx_size : Z;
  gpu_layers : option Z;
  threads : option Z;
  workers : option Z;
  opt_max_batch_size : Z;
  max_batch_wait_ms : Z;
  scheduler_capacity : Z;
  worker_queue_capacity : Z;
  scheduler : string
}.

Definition default_options : ServerOptions :=
  mkOptions "127.0.0.1" 8080 "synthetic" "" "" 2048 None None None 4 0 32 8 "workload".

(** A leading minus is refused before the text is read. *)
Definition minus_or_empty (text : string) : bool :=
  match text with "" => true | String "-"%char _ => true | _ => false end.

(** The diagnostic, or the value. *)
Definition parse_positive_size (name text : string) : string + Z :=
  if minus_or_empty text then inl (name +:+ " must be a positive integer") else
  match stoull text with
  | inl _ => inl ("malformed value for " +:+ name)
  | inr value =>
      if (value =? 0) || (u64_max <? value) then inl (name +:+ " must be a positive integer") else inr value
  end.

Definition parse_nonnegative_u64 (name text : string) : string + Z :=
  if minus_or_empty text then inl (name +:+ " must be a nonnegative integer") else
  match stoull text with
  | inl _ => inl ("malformed value for " +:+ name)
  | inr value => inr value
  end.

Definition parse_port (v : string) : string + Z :=
  match stoi v with
  | inl _ => inl "malformed value for --port"
  | inr port => if (port <? 0) || (65535 <? port) then inl "--port out of range" else inr port
  end.

Definition parse_gpu_layers (v : string) : string + Z :=
  match stoi v with inl _ => inl "malformed value for --gpu-layers" | inr n => inr n end.

Definition parse_threads (v : string) : string + Z :=
  match stoi v with
  | inl _ => inl "malformed value for --threads"
  | inr n => if n <=? 0 then inl "--threads must be > 0" else inr n
  end.

(** The options that take a value. *)
Inductive option_name :=
  | OHost | OPort | OBackend | OModelId | OModelPath | OCtxSize | OGpuLayers | OThreads | OWorkers
  | OMaxBatchSize | OMaxBatchWaitMs | OSchedulerCapacity | OWorkerQueueCapacity | OScheduler.
#[export] Instance option_name_eq : EqDecision option_name.
Proof. solve_decision. Defined.

Definition option_flag (o : option_name) : string :=
  match o with
  | OHost => "--host" | OPort => "--port" | OBackend => "--backend" | OModelId => "--model-id"
  | OModelPath => "--model-path" | OCtxSize => "--ctx-size" | OGpuLayers => "--gpu-layers"
  | OThreads => "--threads" | OWorkers => "--workers" | OMaxBatchSize => "--max-batch-size"
  | OMaxBatchWaitMs => "--max-batch-wait-ms" | OSchedulerCapacity => "--scheduler-capacity"
  | OWorkerQueueCapacity => "--worker-queue-capacity" | OScheduler => "--scheduler"
  end.

(** In the order of the comparisons of [parse_args]. *)
Definition option_names : list option_name :=
  [OHost; OPort; OBackend; OModelId; OModelPath; OCtxSize; OGpuLayers; OThreads; OWorkers;
   OMaxBatchSize; OMaxBatchWaitMs; OSchedulerCapacity; OWorkerQueueCapacity; OScheduler].

Definition find_option (arg : string) : option option_name :=
  List.find (fun o => bool_decide (arg = option_flag o)) option_names.

#[export] Instance diag_bind : MBind (sum string) :=
  fun A B k m => match m with inl e => inl e | inr a => k a end.

(** The assignment to [opts] of an option's value. *)
Definition set_option (o : option_name) (v : string) (s : ServerOptions) : string + ServerOptions :=
  let '(mkOptions h p b mi mp cs gl th wk mb mw sc wq sch) := s in
  match o with
  | OHost => inr (mkOptions v p b mi mp cs gl th wk mb mw sc wq sch)
  | OPort => p ← parse_port v; inr (mkOptions h p b mi mp cs gl th wk mb mw sc wq sch)
  | OBackend => inr (mkOptions h p v mi mp cs gl th wk mb mw sc wq sch)
  | OModelId => inr (mkOptions h p b v mp cs gl th wk mb mw sc wq sch)
  | OModelPath => inr (mkOptions h p b mi v cs gl th wk mb mw sc wq sch)
  | OCtxSize =>
      ctx ← parse_positive_size "--ctx-size" v; inr (mkOptions h p b mi mp (u32 ctx) gl th wk mb mw sc wq sch)
  | OGpuLayers => n ← parse_gpu_layers v; inr (mkOptions h p b mi mp cs (Some n) th wk mb mw sc wq sch)
  | OThreads => n ← parse_threads v; inr (mkOptions h p b mi mp cs gl (Some n) wk mb mw sc wq sch)
  | OWorkers => n ← parse_positive_size "--workers" v; inr (mkOptions h p b mi mp cs gl th (Some n) mb mw sc wq sch)
  | OMaxBatchSize =>
      n ← parse_positive_size "--max-batch-size" v; inr (mkOptions h p b mi mp cs gl th wk n mw sc wq sch)
  | OMaxBatchWaitMs =>
      n ← parse_nonnegative_u64 "--max-batch-wait-ms" v; inr (mkOptions h p b mi mp cs gl th wk mb n sc wq sch)
  | OSchedulerCapacity =>
      n ← parse_positive_size "--scheduler-capacity" v; inr (mkOptions h p b mi mp cs gl th wk mb mw n wq sch)
  | OWorkerQueueCapacity =>
      n ← parse_positive_size "--worker-queue-capacity" v; inr (mkOptions h p b mi mp cs gl th wk mb mw sc n sch)
  | OScheduler => inr (mkOptions h p b mi mp cs gl th wk mb mw sc wq v)
  end.

Definition is_help (arg : string) : bool := bool_decide (arg = "--help") || bool_decide (arg = "-h").

(** The loop of [parse_args] over the arguments after the program's name. *)
Fixpoint parse_loop (args : list string) (opts : ServerOptions) : string + ServerOptions :=
  match args with
  | [] => inr opts
  | arg :: rest =>
      if is_help arg then inl "usage" else
      match find_option arg with
      | None => inl ("unknown argument: " +:+ arg)
      | Some o =>
          match rest with
          | [] => inl ("missing value for " +:+ option_flag o)
          | v :: rest => match set_option o v opts with inl e => inl e | inr opts => parse_loop rest opts end
          end
      end
  end.

Definition parse_args (args : list string) (opts : ServerOptions) : string + ServerOptions :=
  match parse_loop args opts with
  | inl e => inl e
  | inr opts =>
      if bool_decide (scheduler opts <> "fifo") && bool_decide (scheduler opts <> "workload")
      then inl "unknown --scheduler (expected fifo|workload)" else inr opts
  end.

(** ** Wiring *)

Definition make_batch_config (opts : ServerOptions) : exn + BatchBuilderConfig :=
  if 9223372036854775807 / 1000 <? max_batch_wait_ms opts
  then inl (StdException "--max-batch-wait-ms too large")
  else inr (mkBatchConfig (opt_max_batch_size opts) (max_batch_wait_ms opts * 1000)).

(** [if (!builder.add(spec).ok()) return nullptr; ...; return builder.build()] *)
Fixpoint build_registry (specs : list ModelSpec) (b : gmap string ModelSpec) : option ModelRegistry :=
  match specs with
  | [] => let '(status, r) := Builder.build b in if Status.ok status then r else None
  | spec :: specs => let '(status, b) := Builder.add spec b in if Status.ok status then build_registry specs b else None
  end.

Definition make_synthetic_registry : option ModelRegistry :=
  build_registry [mkSpec "model-a" (5 * 1024 * 1024 * 1024) 10; mkSpec "model-b" (6 * 1024 * 1024 * 1024) 20] ∅.

Definition make_synthetic_worker (id : WorkerId) (registry : option ModelRegistry) (budget : Z)
    (opts : ServerOptions) : exn + Worker.WorkerConfig SyntheticModelBackend.t :=
  let config := SyntheticModelBackend.mkConfig 10 5 1 false false in
  let b := SyntheticModelBackend.register_model "model-b" config
             (SyntheticModelBackend.register_model "model-a" config SyntheticModelBackend.new) in
  match make_batch_config opts with
  | inl e => inl e
  | inr batch =>
      inr (Worker.mkConfig _ id (worker_queue_capacity opts) budget batch registry (Some b)
             (Some CostAwareEvictionPolicy))
  end.

Definition make_llama_registry (opts : ServerOptions) (estimate_bytes : Z) : option ModelRegistry :=
  build_registry [mkSpec (model_id opts) estimate_bytes 1] ∅.

Definition llama_config (opts : ServerOptions) : LlamaConfig :=
  let n_batch := Z.max 512 (u32 (opt_max_batch_size opts)) in
  LlamaCppBackendConfig.mk
    {[ model_id opts := mkModelConfig (model_path opts) (ctx_size opts) n_batch n_batch (gpu_layers opts)
                          (threads opts) (threads opts) ]}
    (opt_max_batch_size opts).

Section llama.
Context {G : Type} `{API : !LlamaApi G} `{HO : !HashOrder}.

(** [epoch] is the traversal of the configuration, [g] what the library and
    the file system hold. *)
Definition make_llama_worker (epoch : nat) (id : WorkerId) (registry : option ModelRegistry) (budget : Z)
    (runtime : option unit) (opts : ServerOptions) (g : G)
    : exn + Worker.WorkerConfig (LlamaCppBackend.t G) :=
  match make_batch_config opts with
  | inl e => inl e
  | inr batch =>
      match LlamaCppBackend.new epoch runtime (llama_config opts) g with
      | inl e => inl e
      | inr b =>
          inr (Worker.mkConfig _ id (worker_queue_capacity opts) budget batch registry (Some b)
                 (Some CostAwareEvictionPolicy))
      end
  end.
End llama.

(** The two schedulers behind the interface. *)
Inductive any_scheduler :=
  | UseFifo (s : BoundedQueue.t RequestPtr)
  | UseWorkload (s : WorkloadAwareScheduler.t).

Definition make_scheduler (opts : ServerOptions) : exn + any_scheduler :=
  if bool_decide (scheduler opts = "fifo")
  then match FifoScheduler.new (scheduler_capacity opts) with inl e => inl e | inr s => inr (UseFifo s) end
  else match WorkloadAwareScheduler.new (WorkloadAwareScheduler.mkConfig (scheduler_capacity opts) 8) with
       | inl e => inl e
       | inr s => inr (UseWorkload s)
       end.

Definition kBudget : Z := 12 * 1024 * 1024 * 1024.

(** How [main] goes on after the options were read: it exits, an exception
    leaves it, or the runtime is built. *)
Inductive startup (B : Type) :=
  | ExitCode (code : Z)
  | Uncaught (e : exn)
  | Built (rt : { n & Runtime.t any_scheduler ResidencyAwareRouter.Metrics B n }).
Arguments ExitCode {B}.
Arguments Uncaught {B}.
Arguments Built {B}.

Section wiring.
Context {B : Type}.

(** The loop that fills the vector of workers. *)
Fixpoint make_workers (make : WorkerId -> exn + Worker.WorkerConfig B) (i : Z) (count : nat)
    : exn + list (Worker.t B) :=
  match count with
  | O => inr []
  | S count =>
      match make i with
      | inl e => inl e
      | inr config =>
          match Worker.new config with
          | inl e => inl e
          | inr w => match make_workers make (i + 1) count with inl e => inl e | inr ws => inr (w :: ws) end
          end
      end
  end.

(** From the workers on nothing is caught. *)
Definition build_runtime (opts : ServerOptions) (made : exn + list (Worker.t B)) (registry : option ModelRegistry)
    : startup B :=
  match made with
  | inl _ => ExitCode 1
  | inr ws =>
      match make_scheduler opts with
      | inl e => Uncaught e
      | inr s =>
          match Runtime.new (Some s) (Some (ResidencyAwareRouter.mkMetrics 0 0 0)) (map Some ws) registry with
          | inl e => Uncaught e
          | inr rt => Built rt
          end
      end
  end.
End wiring.

Definition main_synthetic (opts : ServerOptions) : startup SyntheticModelBackend.t :=
  match make_synthetic_registry with
  | None => ExitCode 1
  | Some registry =>
      build_runtime opts
        (make_workers (fun i => make_synthetic_worker i (Some registry) kBudget opts) 0
           (Z.to_nat (default 2 (workers opts))))
        (Some registry)
  end.

(** [file_size] is what the file system answers; [None] is an error. *)
Definition main_llama {G} `{API : !LlamaApi G} `{HO : !HashOrder} (enabled : bool) (epoch : nat) (file_size : option Z)
    (opts : ServerOptions) (g : G) : startup (LlamaCppBackend.t G) :=
  if negb enabled then ExitCode 1 else
  if bool_decide (model_id opts = "") || bool_decide (model_path opts = "") then ExitCode 1 else
  if ctx_size opts =? 0 then ExitCode 1 else
  if negb (fs_exists (model_path opts) g) || negb (fs_is_regular_file (model_path opts) g) then ExitCode 1 else
  match file_size with
  | None => ExitCode 1
  | Some estimate =>
      if estimate =? 0 then ExitCode 1 else
      match make_llama_registry opts estimate with
      | None => ExitCode 1
      | Some registry =>
          build_runtime opts
            (make_workers (fun i => make_llama_worker epoch i (Some registry) kBudget (Some tt) opts g) 0
               (Z.to_nat (default 1 (workers opts))))
            (Some registry)
      end
  end.

(** The command line's own exit: 0 if help was asked for anywhere. *)
Definition options_exit (args : list string) : Z := if existsb is_help args then 0 else 1.

(** [main] up to the runtime, from the arguments after the program's name. *)
Section main.
Context {G : Type} `{API : !LlamaApi G} `{HO : !HashOrder}.
Context (enabled : bool) (epoch : nat) (file_size : option Z) (g : G).

Definition main_build (opts : ServerOptions) : startup SyntheticModelBackend.t + startup (LlamaCppBackend.t G) :=
  if bool_decide (backend opts = "synthetic") then inl (main_synthetic opts)
  else if bool_decide (backend opts = "llama") then inr (main_llama enabled epoch file_size opts g)
  else inl (ExitCode 1).

Definition server_startup (args : list string) : startup SyntheticModelBackend.t + startup (LlamaCppBackend.t G) :=
  match parse_args args default_options with
  | inl _ => inl (ExitCode (options_exit args))
  | inr opts => main_build opts
  end.
End main.
