(* ===== verification/OptionsProofs.v ===== *)
(** * What the command line accepts, and what is built from it

    The values of the options the command line can produce, exactly, through a
    reference printer; and that a server whose options were accepted builds
    its runtime or exits in order. *)

From Stdlib Require Import Ascii.
From stdpp Require Import vector.
From S2P Require Import Prelude Status Requests World Queue Registry Resources Eviction Backends.
From S2P Require Import Manager Router Batch Scheduler Admission Worker Runtime WorkloadScheduler Llama.
From S2P Require Import LlamaFeed Options.
Import InferenceRequest.

(** ** Printing *)

Definition dec_digit (d : N) : ascii := ascii_of_N (48 + d).

Fixpoint dec_digits (fuel : nat) (x : N) (acc : string) : string :=
  match fuel with
  | O => acc
  | S fuel =>
      let acc := String (dec_digit (x mod 10)) acc in
      if (x / 10 =? 0)%N then acc else dec_digits fuel (x / 10) acc
  end.

Definition print_nat (x : N) : string := dec_digits (S (N.size_nat x)) x "".

Definition print_int (z : Z) : string :=
  if z <? 0 then String "-"%char (print_nat (Z.to_N (- z))) else print_nat (Z.to_N z).

Definition print_opt (o : option_name) (v : option Z) : list string :=
  match v with Some z => [option_flag o; print_int z] | None => [] end.

(** A context size of zero is reached through the truncation to 32 bits. *)
Definition print_options (o : ServerOptions) : list string :=
  [option_flag OHost; host o; option_flag OPort; print_int (opt_port o); option_flag OBackend; backend o;
   option_flag OModelId; model_id o; option_flag OModelPath; model_path o;
   option_flag OCtxSize; print_int (if ctx_size o =? 0 then two32 else ctx_size o)] ++
  print_opt OGpuLayers (gpu_layers o) ++ print_opt OThreads (threads o) ++ print_opt OWorkers (workers o) ++
  [option_flag OMaxBatchSize; print_int (opt_max_batch_size o);
   option_flag OMaxBatchWaitMs; print_int (max_batch_wait_ms o);
   option_flag OSchedulerCapacity; print_int (scheduler_capacity o);
   option_flag OWorkerQueueCapacity; print_int (worker_queue_capacity o); option_flag OScheduler; scheduler o].

(** ** Valid options *)

Definition positive_size (z : Z) : Prop := 1 <= z < two64.

Record numbers_ok (o : ServerOptions) : Prop := {
  vo_port : 0 <= opt_port o <= 65535;
  vo_ctx : 0 <= ctx_size o < two32;
  vo_gpu : forall z, gpu_layers o = Some z -> -2147483648 <= z <= 2147483647;
  vo_threads : forall z, threads o = Some z -> 1 <= z <= 2147483647;
  vo_workers : forall z, workers o = Some z -> positive_size z;
  vo_batch : positive_size (opt_max_batch_size o);
  vo_wait : 0 <= max_batch_wait_ms o < two64;
  vo_sched_cap : positive_size (scheduler_capacity o);
  vo_queue_cap : positive_size (worker_queue_capacity o)
}.

Definition valid_options (o : ServerOptions) : Prop :=
  numbers_ok o /\ (scheduler o = "fifo" \/ scheduler o = "workload").

(** ** Reading back what was printed *)

Lemma digit_dec d : (d < 10)%N -> digit (dec_digit d) = Some (Z.of_N d).
Proof.
  intros Hd. unfold digit, dec_digit. rewrite N_ascii_embedding by lia.
  rewrite (proj2 (N.leb_le 48 _)), (proj2 (N.leb_le _ 57)) by lia. simpl. f_equal. lia.
Qed.

Lemma digits_dec fuel x acc :
  (x < 10 ^ N.of_nat fuel)%N -> (0 < fuel)%nat ->
  exists k, 0 <= k /\ forall a, digits (dec_digits fuel x acc) a = digits acc (Some (default 0 a * 10 ^ k + Z.of_N x)).
Proof.
  revert x acc. induction fuel as [|fuel IH]; intros x acc Hx Hf; [lia|]. cbn [dec_digits].
  pose proof (N.div_mod x 10 ltac:(done)) as Hdiv. pose proof (N.mod_lt x 10 ltac:(done)) as Hmod.
  assert (Hd : forall a, digits (String (dec_digit (x mod 10)) acc) a = digits acc (Some (default 0 a * 10 + Z.of_N (x mod 10)))).
  { intros a. cbn [digits]. by rewrite digit_dec. }
  destruct (N.eqb_spec (x / 10) 0) as [H0|H0].
  - exists 1. split; [lia|]. intros a. rewrite Hd. do 2 f_equal. lia.
  - destruct (IH (x / 10)%N (String (dec_digit (x mod 10)) acc)) as (k & Hk0 & Hk).
    + rewrite Nat2N.inj_succ, N.pow_succ_r' in Hx. apply N.Div0.div_lt_upper_bound. lia.
    + destruct fuel; [|lia]. simpl in Hx. exfalso. apply H0. apply N.div_small. lia.
    + exists (k + 1). split; [lia|]. intros a. rewrite Hk, Hd. cbn [default]. do 2 f_equal.
      rewrite Z.pow_add_r by lia. unfold default, id. lia.
Qed.

Lemma size_bound x : (x < 10 ^ N.of_nat (S (N.size_nat x)))%N.
Proof.
  assert (Hs : N.of_nat (N.size_nat x) = N.size x).
  { destruct x as [|p]; [done|]. simpl. induction p as [p IH|p IH|]; simpl; lia. }
  apply N.lt_le_trans with (2 ^ N.of_nat (N.size_nat x))%N; [rewrite Hs; apply N.size_gt|].
  transitivity (10 ^ N.of_nat (N.size_nat x))%N; [apply N.pow_le_mono_l; lia|apply N.pow_le_mono_r; lia].
Qed.

Lemma digits_print x : digits (print_nat x) None = Some (Z.of_N x).
Proof.
  destruct (digits_dec (S (N.size_nat x)) x "" (size_bound x)) as (k & _ & Hk); [lia|].
  unfold print_nat. rewrite Hk. by rewrite Z.mul_0_l.
Qed.

(** A printed number starts with a digit. *)
Lemma print_head x : exists c s, print_nat x = String c s /\ is_Some (digit c).
Proof.
  assert (Hgo : forall fuel y acc, (exists c s, acc = String c s /\ is_Some (digit c)) ->
    exists c s, dec_digits fuel y acc = String c s /\ is_Some (digit c)).
  { induction fuel as [|fuel IH]; intros y acc Hacc; [done|]. cbn [dec_digits].
    assert (Hc : exists c s, String (dec_digit (y mod 10)) acc = String c s /\ is_Some (digit c)).
    { do 2 eexists. split; [done|]. rewrite digit_dec by (by apply N.mod_lt). by eexists. }
    destruct (_ =? _)%N; [done|by apply IH]. }
  unfold print_nat. cbn [dec_digits].
  assert (Hc : exists c s, String (dec_digit (x mod 10)) "" = String c s /\ is_Some (digit c)).
  { do 2 eexists. split; [done|]. rewrite digit_dec by (by apply N.mod_lt). by eexists. }
  destruct (_ =? _)%N; [done|by apply Hgo].
Qed.

Lemma scan_digit c s : is_Some (digit c) -> scan_integer (String c s) = pair false <$> digits (String c s) None.
Proof. destruct c as [[] [] [] [] [] [] [] []]; intros [z Hz]; (discriminate Hz || reflexivity). Qed.

Lemma minus_digit c s : is_Some (digit c) -> minus_or_empty (String c s) = false.
Proof. destruct c as [[] [] [] [] [] [] [] []]; intros [z Hz]; (discriminate Hz || reflexivity). Qed.

Lemma scan_print z : scan_integer (print_int z) = Some (z <? 0, Z.abs z).
Proof.
  unfold print_int. destruct (Z.ltb_spec z 0).
  - change (scan_integer _) with (pair true <$> digits (print_nat (Z.to_N (- z))) None). rewrite digits_print. simpl.
    do 2 f_equal. lia.
  - destruct (print_head (Z.to_N z)) as (c & s & Hp & Hd). rewrite Hp, scan_digit, <- Hp, digits_print by done. simpl.
    do 2 f_equal. lia.
Qed.

Lemma minus_print z : 0 <= z -> minus_or_empty (print_int z) = false.
Proof.
  intros Hz. unfold print_int. rewrite (proj2 (Z.ltb_ge z 0)) by done.
  destruct (print_head (Z.to_N z)) as (c & s & -> & Hd). by apply minus_digit.
Qed.

Lemma stoull_print z : 0 <= z < two64 -> stoull (print_int z) = inr z.
Proof.
  intros [H1 H2]. unfold stoull. rewrite scan_print, (proj2 (Z.ltb_ge z 0)), Z.abs_eq, (proj2 (Z.leb_gt _ _)) by done. done.
Qed.

Lemma stoi_print z : -2147483648 <= z <= 2147483647 -> stoi (print_int z) = inr z.
Proof.
  intros Hz. unfold stoi. rewrite scan_print. assert (Heq : (if z <? 0 then - Z.abs z else Z.abs z) = z).
  { destruct (Z.ltb_spec z 0); lia. }
  rewrite Heq. rewrite (proj2 (Z.ltb_ge z _)), (proj2 (Z.ltb_ge _ z)) by lia. done.
Qed.

Lemma positive_print name z : positive_size z -> parse_positive_size name (print_int z) = inr z.
Proof.
  intros [H1 H2]. unfold parse_positive_size. rewrite minus_print, stoull_print by lia.
  rewrite (proj2 (Z.eqb_neq z 0)), (proj2 (Z.ltb_ge u64_max z)) by (unfold two64, u64_max in *; lia). done.
Qed.

(** ** What is accepted is valid *)

Lemma digits_nonneg s acc v : 0 <= default 0 acc -> digits s acc = Some v -> 0 <= v.
Proof.
  revert acc. induction s as [|c s IH]; intros acc Ha; simpl; [by intros ->|].
  destruct (digit c) as [d|] eqn:Hd; [|by intros ->]. apply IH. simpl.
  unfold digit in Hd. destruct (N.leb_spec 48 (N_of_ascii c)); [|done]. simpl in Hd. destruct (_ <=? _)%N; [|done].
  injection Hd as <-. destruct acc; simpl in *; unfold id in *; lia.
Qed.

Lemma scan_nonneg s neg v : scan_integer s = Some (neg, v) -> 0 <= v.
Proof.
  assert (Hd : forall b t, pair b <$> digits t None = Some (neg, v) -> 0 <= v).
  { intros b t. destruct (digits t None) eqn:Ht; [|done]. intros [= _ <-]. eapply (digits_nonneg t None); [by simpl|done]. }
  unfold scan_integer. repeat case_match; apply Hd.
Qed.

Lemma stoull_range s z : stoull s = inr z -> 0 <= z < two64.
Proof.
  unfold stoull. destruct (scan_integer s) as [[neg v]|] eqn:Hs; [|done]. apply scan_nonneg in Hs.
  destruct (Z.leb_spec two64 v); [done|]. intros [= <-]. destruct neg; [apply u64_range|lia].
Qed.

Lemma stoi_range s z : stoi s = inr z -> -2147483648 <= z <= 2147483647.
Proof.
  unfold stoi. destruct (scan_integer s) as [[neg v]|]; [|done]. set (w := if neg then _ else _).
  destruct (Z.ltb_spec w (-2147483648)); [done|]. destruct (Z.ltb_spec 2147483647 w); [done|]. intros [= <-]. lia.
Qed.

Lemma parse_positive_ok name text z : parse_positive_size name text = inr z -> positive_size z.
Proof.
  unfold parse_positive_size. destruct (minus_or_empty text); [done|].
  destruct (stoull text) as [e|w] eqn:Hs; [done|]. apply stoull_range in Hs.
  destruct (Z.eqb_spec w 0); [done|]. destruct (Z.ltb_spec u64_max w); [done|]. intros [= <-].
  unfold positive_size. lia.
Qed.

Lemma parse_nonnegative_ok name text z : parse_nonnegative_u64 name text = inr z -> 0 <= z < two64.
Proof.
  unfold parse_nonnegative_u64. destruct (minus_or_empty text); [done|].
  destruct (stoull text) as [e|w] eqn:Hs; [done|]. intros [= <-]. by eapply stoull_range.
Qed.

Lemma parse_port_ok v z : parse_port v = inr z -> 0 <= z <= 65535.
Proof.
  unfold parse_port. destruct (stoi v) as [e|w]; [done|].
  destruct (Z.ltb_spec w 0); [done|]. destruct (Z.ltb_spec 65535 w); [done|]. intros [= <-]. lia.
Qed.

Lemma parse_threads_ok v z : parse_threads v = inr z -> 1 <= z <= 2147483647.
Proof.
  unfold parse_threads. destruct (stoi v) as [e|w] eqn:Hs; [done|]. apply stoi_range in Hs.
  destruct (Z.leb_spec w 0); [done|]. intros [= <-]. lia.
Qed.

Lemma set_option_ok op v o o' : numbers_ok o -> set_option op v o = inr o' -> numbers_ok o'.
Proof.
  intros Ho. destruct o as [h p b mi mp cs gl th wk mb mw sc wq sch].
  destruct Ho as [H1 H2 H3 H4 H5 H6 H7 H8 H9]; simpl in *.
  destruct op; cbn [set_option]; unfold mbind, diag_bind;
    try (intros [= <-]; by split).
  - destruct (parse_port v) eqn:Hp; [done|]. intros [= <-]. apply parse_port_ok in Hp. by split.
  - destruct (parse_positive_size _ v) eqn:Hp; [done|]. intros [= <-]. split; try done. simpl. apply Z.mod_pos_bound. done.
  - destruct (parse_gpu_layers v) as [|z] eqn:Hp; [done|]. intros [= <-]. split; try done. simpl. intros ? [= <-].
    unfold parse_gpu_layers in Hp. destruct (stoi v) eqn:Hs; [done|]. injection Hp as <-. by eapply stoi_range.
  - destruct (parse_threads v) eqn:Hp; [done|]. intros [= <-]. apply parse_threads_ok in Hp. split; try done. by intros ? [= <-].
  - destruct (parse_positive_size _ v) eqn:Hp; [done|]. intros [= <-]. apply parse_positive_ok in Hp. split; try done. by intros ? [= <-].
  - destruct (parse_positive_size _ v) eqn:Hp; [done|]. intros [= <-]. apply parse_positive_ok in Hp. by split.
  - destruct (parse_nonnegative_u64 _ v) eqn:Hp; [done|]. intros [= <-]. apply parse_nonnegative_ok in Hp. by split.
  - destruct (parse_positive_size _ v) eqn:Hp; [done|]. intros [= <-]. apply parse_positive_ok in Hp. by split.
  - destruct (parse_positive_size _ v) eqn:Hp; [done|]. intros [= <-]. apply parse_positive_ok in Hp. by split.
Qed.

Lemma parse_loop_ok args o o' : numbers_ok o -> parse_loop args o = inr o' -> numbers_ok o'.
Proof.
  revert o. induction args as [args IH] using (induction_ltof1 _ length). intros o Ho.
  destruct args as [|arg [|v rest]]; cbn [parse_loop].
  - by intros [= <-].
  - destruct (is_help arg); [done|]. by destruct (find_option arg).
  - destruct (is_help arg); [done|]. destruct (find_option arg) as [op|]; [|done].
    destruct (set_option op v o) as [e|o1] eqn:Hs; [done|]. apply IH; [unfold ltof; simpl; lia|]. by eapply set_option_ok.
Qed.

Lemma default_ok : numbers_ok default_options.
Proof. split; unfold default_options, positive_size, two64, two32; cbn; (lia || (intros; discriminate)). Qed.

Lemma parse_args_valid args o : parse_args args default_options = inr o -> valid_options o.
Proof.
  unfold parse_args. destruct (parse_loop args default_options) as [e|o1] eqn:Hp; [done|].
  apply parse_loop_ok in Hp; [|apply default_ok].
  destruct (decide (scheduler o1 = "fifo")) as [Hs|Hs].
  { rewrite (bool_decide_false (_ <> "fifo")) by tauto. intros [= <-]. split; [done|by left]. }
  rewrite (bool_decide_true (_ <> "fifo")) by done. simpl. case_bool_decide as Hw; [done|]. intros [= <-].
  split; [done|]. by right.
Qed.

Lemma parse_flag op v rest o o' : set_option op v o = inr o' -> parse_loop (option_flag op :: v :: rest) o = parse_loop rest o'.
Proof. intros Hs. assert (Hf : find_option (option_flag op) = Some op) by (by destruct op).
  assert (Hh : is_help (option_flag op) = false) by (by destruct op). cbn [parse_loop]. by rewrite Hh, Hf, Hs.
Qed.

Lemma parse_opt op v rest o o' :
  (forall z, v = Some z -> set_option op (print_int z) o = inr o') -> (v = None -> o' = o) ->
  parse_loop (print_opt op v ++ rest) o = parse_loop rest o'.
Proof. intros Hs Hn. destruct v as [z|]; simpl; [by apply parse_flag, Hs|]. by rewrite Hn. Qed.

Lemma ctx_print cs : 0 <= cs < two32 ->
  exists z, parse_positive_size "--ctx-size" (print_int (if cs =? 0 then two32 else cs)) = inr z /\ u32 z = cs.
Proof.
  intros Hc. exists (if cs =? 0 then two32 else cs). unfold u32, two32 in *.
  destruct (Z.eqb_spec cs 0) as [->|Hne]; (split; [apply positive_print; unfold positive_size, two64; lia|]); [done|].
  apply Z.mod_small. lia.
Qed.

Lemma parse_print o : valid_options o -> parse_args (print_options o) default_options = inr o.
Proof.
  intros [[Hp Hc Hg Ht Hw Hb Hm Hsc Hq] Hs]. destruct o as [h p b mi mp cs gl th wk mb mw sc wq sch]. simpl in *.
  assert (Hloop : parse_loop (print_options (mkOptions h p b mi mp cs gl th wk mb mw sc wq sch)) default_options =
    inr (mkOptions h p b mi mp cs gl th wk mb mw sc wq sch)).
  { unfold print_options, default_options. cbn [app host opt_port backend model_id model_path ctx_size gpu_layers threads workers
      opt_max_batch_size max_batch_wait_ms scheduler_capacity worker_queue_capacity scheduler].
    erewrite parse_flag by reflexivity. erewrite parse_flag.
    2: { cbn [set_option]. unfold parse_port. rewrite stoi_print by lia.
         rewrite (proj2 (Z.ltb_ge p 0)), (proj2 (Z.ltb_ge 65535 p)) by lia. reflexivity. }
    do 3 (erewrite parse_flag by reflexivity).
    destruct (ctx_print cs Hc) as (ctx & Hctx & Hu).
    erewrite parse_flag by (cbn [set_option]; rewrite Hctx; cbn [mbind diag_bind]; rewrite Hu; reflexivity).
    erewrite parse_opt with (o' := mkOptions h p b mi mp cs gl None None 4 0 32 8 "workload").
    2: { intros z ->. cbn [set_option]. unfold parse_gpu_layers. by rewrite stoi_print by (by apply Hg). }
    2: { by intros ->. }
    erewrite parse_opt with (o' := mkOptions h p b mi mp cs gl th None 4 0 32 8 "workload").
    2: { intros z ->. cbn [set_option]. unfold parse_threads. specialize (Ht z eq_refl). rewrite stoi_print by lia.
         by rewrite (proj2 (Z.leb_gt z 0)) by lia. }
    2: { by intros ->. }
    erewrite parse_opt with (o' := mkOptions h p b mi mp cs gl th wk 4 0 32 8 "workload").
    2: { intros z ->. cbn [set_option]. by rewrite positive_print by (by apply Hw). }
    2: { by intros ->. }
    erewrite parse_flag by (cbn [set_option]; rewrite positive_print by done; reflexivity).
    erewrite parse_flag by (cbn [set_option]; unfold parse_nonnegative_u64; rewrite minus_print, stoull_print by lia; reflexivity).
    erewrite parse_flag by (cbn [set_option]; rewrite positive_print by done; reflexivity).
    erewrite parse_flag by (cbn [set_option]; rewrite positive_print by done; reflexivity).
    by erewrite parse_flag by reflexivity. }
  unfold parse_args. rewrite Hloop. simpl. by destruct Hs as [->| ->].
Qed.



(** A minus sign is refused only as the first character: after a space it
    wraps. *)
Theorem spaced_minus_wraps name : parse_positive_size name " -5" = inr (two64 - 5).
Proof. reflexivity. Qed.

(** A context size of more than 32 bits loses its high bits. *)
Theorem ctx_size_truncated :
  parse_args ["--ctx-size"; "4294967297"] default_options =
    inr (mkOptions "127.0.0.1" 8080 "synthetic" "" "" 1 None None None 4 0 32 8 "workload").
Proof. reflexivity. Qed.

(** ** Building the runtime *)

Section build.
Context {B : Type}.
Implicit Types w : Worker.t B.

Definition consecutive (i : Z) (ws : list (Worker.t B)) : Prop :=
  forall k w, ws !! k = Some w -> Worker.worker_id_ w = i + Z.of_nat k.

Lemma consecutive_cons i w ws : consecutive i (w :: ws) <-> Worker.worker_id_ w = i /\ consecutive (i + 1) ws.
Proof.
  split.
  - intros Hc. split; [rewrite (Hc 0%nat w) by done; lia|]. intros k w' Hk. rewrite (Hc (S k) w') by done. lia.
  - intros [Hw Hc] [|k] w' Hk; [injection Hk as <-; lia|]. rewrite (Hc k w' Hk). lia.
Qed.

(** Consecutive identifiers are distinct: the index is built. *)
Lemma index_workers_ok ws i k index :
  consecutive i ws -> (forall id p, index !! id = Some p -> id < i) ->
  exists index', Runtime.index_workers (map Some ws) k index = inr (ws, index') /\
    (forall id, id < i -> index' !! id = index !! id) /\
    forall j w, ws !! j = Some w -> index' !! (i + Z.of_nat j) = Some (k + j)%nat.
Proof.
  revert i k index. induction ws as [|w ws IH]; intros i k index Hc Hidx; [by exists index|].
  apply consecutive_cons in Hc as [Hw Hc]. cbn [map Runtime.index_workers]. rewrite Hw.
  rewrite bool_decide_false by (intros [p Hp]; specialize (Hidx _ _ Hp); lia).
  destruct (IH (i + 1) (k + 1)%nat (<[(i : WorkerId) := k]> index)) as (index' & Hix & Hold & Hnew).
  { done. }
  { intros id p [[<- _]|[_ Hp]]%lookup_insert_Some; [lia|]. specialize (Hidx _ _ Hp). lia. }
  exists index'. rewrite Hix. split; [done|]. split.
  - intros id Hid. rewrite Hold by lia. by rewrite lookup_insert_ne by lia.
  - intros [|j] w' Hj.
    + rewrite Z.add_0_r, Nat.add_0_r, Hold by lia. by rewrite lookup_insert_eq.
    + specialize (Hnew j w' Hj). replace (i + Z.of_nat (S j)) with (i + 1 + Z.of_nat j) by lia. rewrite Hnew. f_equal. lia.
Qed.

Lemma make_workers_consecutive make i count ws :
  (forall i cfg, make i = inr cfg -> Worker.cfg_worker_id cfg = i) ->
  make_workers (B := B) make i count = inr ws -> consecutive i ws /\ length ws = count.
Proof.
  intros Hmake. revert i ws. induction count as [|count IH]; intros i ws; cbn [make_workers]; [by intros [= <-]|].
  destruct (make i) as [e|cfg] eqn:Hm; [done|]. destruct (Worker.new cfg) as [e|w] eqn:Hw; [done|].
  destruct (make_workers make (i + 1) count) as [e|ws'] eqn:Hr; [done|]. intros [= <-].
  destruct (IH _ _ Hr) as [Hc Hl]. split; [|simpl; by rewrite Hl]. apply consecutive_cons. split; [|done].
  apply Hmake in Hm. revert Hw. unfold Worker.new. repeat case_match; try done. by intros [= <-].
Qed.

Lemma make_scheduler_ok o : valid_options o -> exists s, make_scheduler o = inr s.
Proof.
  intros [[] _]. unfold make_scheduler, FifoScheduler.new, BoundedQueue.new, WorkloadAwareScheduler.new. simpl.
  rewrite (proj2 (Z.eqb_neq (scheduler_capacity o) 0)) by (unfold positive_size in *; lia).
  destruct (bool_decide _); by eexists.
Qed.

Lemma build_runtime_ok o registry ws :
  valid_options o -> consecutive 0 ws -> ws <> [] ->
  exists rt, build_runtime o (inr ws) (Some registry) = Built rt /\
    vec_to_list (Runtime.workers_ (projT2 rt)) = ws /\ Runtime.registry_ (projT2 rt) = registry /\
    forall j w, ws !! j = Some w -> Runtime.worker_index_ (projT2 rt) !! Z.of_nat j = Some j.
Proof.
  intros Hv Hc Hne. unfold build_runtime. destruct (make_scheduler_ok o Hv) as [s ->]. unfold Runtime.new.
  destruct (index_workers_ok ws 0 0 ∅ Hc) as (index & Hix & _ & Hnew); [by intros ? ? ?%lookup_empty_Some|]. rewrite Hix.
  destruct ws as [|w ws']; [done|]. eexists. split; [reflexivity|]. split; [apply vec_to_list_to_vec|]. split; [done|].
  intros j w' Hj. exact (Hnew j w' Hj).
Qed.

(** No exception leaves [main]. *)
Lemma build_runtime_caught o made registry count :
  valid_options o -> (0 < count)%nat -> (forall ws, made = inr ws -> consecutive 0 ws /\ length ws = count) ->
  forall e, build_runtime (B := B) o made (Some registry) <> Uncaught e.
Proof.
  intros Hv Hn Hmade e. destruct made as [e'|ws]; [done|]. destruct (Hmade ws eq_refl) as [Hc Hl].
  destruct (build_runtime_ok o registry ws Hv Hc) as (rt & -> & _); [by intros ->; simpl in Hl; lia|done].
Qed.
End build.

Lemma synthetic_registry :
  make_synthetic_registry = Some (mkRegistry (<["model-b" := mkSpec "model-b" 6442450944 20]>
    {["model-a" := mkSpec "model-a" 5368709120 10]})).
Proof. reflexivity. Qed.

(** The worker built for position [i]. *)
Definition synthetic_worker_ok (o : ServerOptions) (i : Z) (w : Worker.t SyntheticModelBackend.t) : Prop :=
  Worker.worker_id_ w = i /\ Worker.queue_capacity_ w = worker_queue_capacity o /\
  BatchBuilder.config_ (Worker.batch_builder_ w) = mkBatchConfig (opt_max_batch_size o) (max_batch_wait_ms o * 1000) /\
  ResourceManager.budget_ (ModelManager.resources_ (Worker.model_manager_ w)) = kBudget.

Definition wait_limit : Z := 9223372036854775807 / 1000.

Lemma make_workers_synthetic o registry i count :
  valid_options o -> max_batch_wait_ms o <= wait_limit ->
  exists ws, make_workers (fun i => make_synthetic_worker i (Some registry) kBudget o) i count = inr ws /\
    forall k w, ws !! k = Some w -> synthetic_worker_ok o (i + Z.of_nat k) w.
Proof.
  intros [[] _] Hw. unfold positive_size in *. revert i. induction count as [|count IH]; intros i; [by exists []|].
  cbn [make_workers]. unfold make_synthetic_worker at 1, make_batch_config at 1.
  rewrite (proj2 (Z.ltb_ge _ _)) by done. unfold Worker.new. cbn [Worker.cfg_queue_capacity Worker.cfg_memory_budget_bytes
    Worker.cfg_batch_config Worker.cfg_backend Worker.cfg_registry Worker.cfg_eviction_policy Worker.cfg_worker_id].
  rewrite (proj2 (Z.eqb_neq (worker_queue_capacity o) 0)) by lia. cbn [orb]. change (kBudget =? 0) with false. cbn [orb].
  unfold BatchBuilder.new, BoundedQueue.new. cbn [max_batch_size max_batch_wait].
  rewrite (proj2 (Z.ltb_ge (opt_max_batch_size o) 1)), (proj2 (Z.ltb_ge (max_batch_wait_ms o * 1000) 0)) by lia.
  cbn [ModelManager.new]. rewrite (proj2 (Z.eqb_neq (worker_queue_capacity o) 0)) by lia.
  destruct (IH (i + 1)) as (ws & -> & Hok). eexists. split; [reflexivity|].
  intros [|k] w Hk; [injection Hk as <-; unfold synthetic_worker_ok; simpl; by rewrite Z.add_0_r|].
  replace (i + Z.of_nat (S k)) with (i + 1 + Z.of_nat k) by lia. by apply Hok.
Qed.

Lemma worker_count_pos o d : valid_options o -> 0 < d -> (0 < Z.to_nat (default d (workers o)))%nat.
Proof.
  intros [[] _] Hd. destruct (workers o) as [z|]; simpl; [|lia]. destruct (vo_workers0 z eq_refl). lia.
Qed.

(** What the synthetic branch builds from valid options. *)
Lemma main_synthetic_spec o :
  valid_options o ->
  if max_batch_wait_ms o <=? wait_limit
  then exists rt registry, main_synthetic o = Built rt /\ make_synthetic_registry = Some registry /\
    Runtime.registry_ (projT2 rt) = registry /\ projT1 rt = Z.to_nat (default 2 (workers o)) /\
    forall k w, vec_to_list (Runtime.workers_ (projT2 rt)) !! k = Some w ->
      synthetic_worker_ok o (Z.of_nat k) w /\ Runtime.worker_index_ (projT2 rt) !! Z.of_nat k = Some k
  else main_synthetic o = ExitCode 1.
Proof.
  intros Hv. unfold main_synthetic. rewrite synthetic_registry.
  destruct (Z.leb_spec (max_batch_wait_ms o) wait_limit) as [Hw|Hw].
  - match goal with |- context [Some (mkRegistry ?m)] => set (registry := mkRegistry m) end.
    destruct (make_workers_synthetic o registry 0 (Z.to_nat (default 2 (workers o))) Hv Hw) as (ws & Hmk & Hok).
    pose proof Hmk as Hcl. apply make_workers_consecutive in Hcl as [Hc Hl].
    2: { intros i cfg. unfold make_synthetic_worker. destruct (make_batch_config o); [done|]. by intros [= <-]. }
    destruct (build_runtime_ok o registry ws Hv Hc) as (rt & Hrt & Hws & Hreg & Hix).
    { intros ->. pose proof (worker_count_pos o 2 Hv ltac:(lia)). simpl in Hl. lia. }
    exists rt, registry. rewrite Hmk, Hrt, Hws. split_and!; try done.
    + rewrite <- Hl, <- Hws. symmetry. apply length_vec_to_list.
    + intros k w Hk. split; [exact (Hok k w Hk)|by eapply Hix].
  - destruct (Z.to_nat (default 2 (workers o))) eqn:Hn; [pose proof (worker_count_pos o 2 Hv ltac:(lia)); lia|].
    cbn [make_workers]. unfold make_synthetic_worker at 1, make_batch_config at 1. fold wait_limit.
    by rewrite (proj2 (Z.ltb_lt _ _)) by done.
Qed.

Lemma main_llama_caught {G} `{API : !LlamaApi G} `{HO : !HashOrder} enabled epoch file_size o (g : G) e :
  valid_options o -> main_llama enabled epoch file_size o g <> Uncaught e.
Proof.
  intros Hv. unfold main_llama. repeat (case_match; [done|]).
  destruct file_size as [sz|]; [|done]. destruct (sz =? 0); [done|]. destruct (make_llama_registry o sz) as [registry|]; [|done].
  eapply build_runtime_caught; [done|by apply (worker_count_pos o 1)|]. intros ws. apply make_workers_consecutive.
  intros i cfg. unfold make_llama_worker. destruct (make_batch_config o); [done|].
  destruct (LlamaCppBackend.new _ _ _ _); [done|]. by intros [= <-].
Qed.

(** C32: Starting the server never fails by accident. Whatever the arguments,
    the backend and the answers of the file system, no exception leaves the
    start of the server up to its runtime. When the arguments are accepted for
    the synthetic backend the runtime is built, unless the batch wait does not
    fit its type, when the server exits with 1; it has the number of workers
    asked for, two by default, numbered from 0 and found under their numbers,
    each with the queue, batch and memory limits asked for, and the registry of
    the two built-in models. *)
Theorem accepted_options_build {G} `{API : !LlamaApi G} `{HO : !HashOrder} enabled epoch file_size (g : G) args :
  let started := server_startup enabled epoch file_size g args in
  (forall e, started <> inl (Uncaught e) /\ started <> inr (Uncaught e)) /\
  forall o, parse_args args default_options = inr o -> backend o = "synthetic" ->
    if max_batch_wait_ms o <=? wait_limit
    then exists rt registry, started = inl (Built rt) /\ make_synthetic_registry = Some registry /\
      Runtime.registry_ (projT2 rt) = registry /\ projT1 rt = Z.to_nat (default 2 (workers o)) /\
      forall k w, vec_to_list (Runtime.workers_ (projT2 rt)) !! k = Some w ->
        synthetic_worker_ok o (Z.of_nat k) w /\ Runtime.worker_index_ (projT2 rt) !! Z.of_nat k = Some k
    else started = inl (ExitCode 1).
Proof.
  unfold server_startup, main_build. destruct (parse_args args default_options) as [msg|o] eqn:Hp; [done|].
  apply parse_args_valid in Hp. pose proof (main_synthetic_spec o Hp) as Hs. split.
  - intros e. case_bool_decide.
    + destruct (max_batch_wait_ms o <=? wait_limit); [destruct Hs as (rt & ? & -> & _)|rewrite Hs]; done.
    + case_bool_decide; [|done]. split; [done|]. intros [= Hu]. by eapply main_llama_caught.
  - intros ? [= <-] Hb. rewrite bool_decide_true by done. destruct (max_batch_wait_ms o <=? wait_limit); [|by rewrite Hs].
    destruct Hs as (rt & registry & -> & Hrest). by exists rt, registry.
Qed.

Lemma accepted_options_build_witness :
  exists rt, @server_startup nat toy_llama gmap_order true 0 None 0%nat ["--workers"; "3"] = inl (Built rt) /\ projT1 rt = 3%nat.
Proof.
  destruct (proj2 (@accepted_options_build nat toy_llama gmap_order true 0 None 0%nat ["--workers"; "3"])
    (mkOptions "127.0.0.1" 8080 "synthetic" "" "" 2048 None None (Some 3) 4 0 32 8 "workload") eq_refl eq_refl)
    as (rt & registry & Hb & _ & _ & Hn & _).
  exists rt. split; [exact Hb|exact Hn].
Defined.
