(* ===== verification/Main.v ===== *)
(** * The process

    [main] of [apps/runtime-server/main.cpp] from the runtime on: it starts the
    runtime, listens, runs the handlers of the server until a signal stops it,
    stops the runtime and returns, which destroys the runtime. A process is
    where [main] is, the server with its connections ([Server.v]) and the
    runtime with its threads and their joins ([Joins.v]). Its main thread runs
    the handlers one after the other and is the only one that calls [submit] and
    [stop]; here it is caller 0. *)

From stdpp Require Import vector finite relations.
From S2P Require Import Prelude Status Requests World Queue Registry Resources Eviction.
From S2P Require Import Backends Manager Router Batch Scheduler Admission Worker WorkerProofs.
From S2P Require Import Llama LlamaProofs LlamaFeed.
From S2P Require Import Guarantee WorkerDrain Runtime RuntimeProofs Programs.
From S2P Require Import Progress Machine MachineLogic MachineRuns MachineThreads MachineProofs Shutdown Joins.
From S2P Require Import WorkloadScheduler Handler Session SessionProofs Server Options OptionsProofs.
Import InferenceRequest.

#[local] Existing Instance machine_shared.
#[local] Existing Instance machine_scheduler.

(** ** Listening *)

Section listening.
(** [boost::asio::ip::make_address], and what the system answers to opening,
    binding and listening. *)
Context {A : Type} (make_address : string -> exn + A) (listen : A -> Z -> bool * bool * bool).

(** The endpoint and the server; nothing of this is caught. *)
Definition serve_setup (opts : ServerOptions) : exn + HttpServer.t :=
  match make_address (host opts) with
  | inl e => inl e
  | inr address =>
      let '(open_ok, bind_ok, listen_ok) := listen address (opt_port opts) in
      HttpServer.new open_ok bind_ok listen_ok
  end.
End listening.

(** ** The process *)

(** [Serving]: in [server.run()]; [Stopping]: in [runtime.stop()]; [Leaving]: in
    [~Runtime], which calls [stop] again. *)
Inductive main_phase := Serving | Stopping | Leaving | Exited (code : Z) | Terminated (e : exn).

Section process.
Context {R B : Type} {n : nat} `{!IWorkerRouter R} `{!IModelBackend B} `{HO : !HashOrder} `{!JsonLib}.
Notation X := (FifoRuntime R B n).
#[local] Notation joining := (joining (R := R) (B := B) (n := n)).

Record process := mkProcess { main_at : main_phase; io : Server.system; rt : joining }.
Implicit Types p : process.

(** The threads of a runtime that was just started. *)
Definition started_runtime (w : World X) (epoch : nat) : joining := mkJoining (mkMachine w (started_pool epoch)) ∅.

(** From [runtime.start()] to [server.run()]. *)
Definition launch (setup : exn + HttpServer.t) (started : Status) (s : joining) : process :=
  if negb (Status.ok started)
  then mkProcess (Exited 1) (Server.idle_system (HttpServer.mk false false false false [])) s
  else match setup with
       | inl e => mkProcess (Terminated e) (Server.idle_system (HttpServer.mk false false false false [])) s
       | inr srv => mkProcess Serving (run_server (Server.idle_system srv)) s
       end.

(** The main thread is not inside a call to the runtime. *)
Definition outside_calls p : Prop := pool (base (rt p)) !! TCaller 0 = None.

Definition live p : Prop := match main_at p with Serving | Stopping | Leaving => True | _ => False end.

Definition calls_submit (l : loc) (s s' : joining) : Prop :=
  is_Some (heap (world (base s)) !! l) /\
  s' = mkJoining (mkMachine (world (base s)) (<[TCaller 0 := mkThread (submit_code l) {[l]}]> (pool (base s)))) (owed s).

(** What the main thread does on its own. *)
Inductive main_step p : process -> Prop :=
  | run_handler io' :
      main_at p = Serving -> outside_calls p -> sys_step (io p) io' -> main_step p (mkProcess Serving io' (rt p))
  | handler_submits l s' :
      main_at p = Serving -> io_running (io p) = true -> outside_calls p -> calls_submit l (rt p) s' ->
      main_step p (mkProcess Serving (io p) s')
  | run_returns s' :
      main_at p = Serving -> io_running (io p) = false -> calls_stop 0 (rt p) s' ->
      main_step p (mkProcess Stopping (io p) s')
  | stop_done s' :
      main_at p = Stopping -> calls_stop 0 (rt p) s' -> main_step p (mkProcess Leaving (io p) s')
  | main_returns :
      main_at p = Leaving -> outside_calls p -> main_step p (mkProcess (Exited 0) (io p) (rt p))
  | inside_call s' :
      live p -> join_moves (rt p) (TCaller 0) s' -> main_step p (mkProcess (main_at p) (io p) s').

Inductive thread_moves p : process -> Prop :=
  | runtime_thread i s' :
      live p -> of_runtime i -> join_moves (rt p) i s' -> thread_moves p (mkProcess (main_at p) (io p) s').

(** Requests that handlers create and act on, and time. *)
Inductive surroundings p : process -> Prop :=
  | new_request l r :
      live p -> heap (world (base (rt p))) !! l = None -> state_ r = Received ->
      surroundings p (mkProcess (main_at p) (io p) (mkJoining
        (mkMachine (set_heap (<[l := r]> (heap (world (base (rt p))))) (world (base (rt p)))) (pool (base (rt p)))) (owed (rt p))))
  | outside_action a :
      live p -> outside_act a ->
      surroundings p (mkProcess (main_at p) (io p) (mkJoining
        (mkMachine (step_env a (world (base (rt p)))) (pool (base (rt p)))) (owed (rt p)))).

Definition process_step p p' : Prop := main_step p p' \/ thread_moves p p' \/ surroundings p p'.

(** The main thread or a thread of the runtime gets on. *)
Definition process_advance p p' : Prop :=
  exists p1, rtc surroundings p p1 /\ (main_step p1 p' \/ thread_moves p1 p').

(** ** What holds of it *)

(** A call of [stop] by the main thread goes on; one has returned before. *)
Definition in_call (s : joining) : Prop := exists s0, join_reachable s0 /\ stopping 0 s0 s.
Definition stopped_before (s : joining) : Prop :=
  exists s0 s1, join_reachable s0 /\ stop_returned 0 s0 s1 /\ (forall m, owes s1 (TCaller m) = ∅) /\ rtc join_step s1 s.

Definition stop_call (s : joining) : Prop :=
  in_call s \/ (stopped_before s /\ pool (base s) !! TCaller 0 = None).

Record process_inv p : Prop := {
  pi_runtime : join_reachable (rt p);
  pi_callers m : (m <> 0)%nat -> pool (base (rt p)) !! TCaller m = None;
  pi_server : match main_at p with Terminated _ => True | _ => sys_reachable (io p) end;
  pi_phase : match main_at p with
    | Serving => True
    | Stopping => io_running (io p) = false /\ stop_call (rt p)
    | Leaving => io_running (io p) = false /\ stopped_before (rt p) /\ stop_call (rt p)
    | Exited code => code = 0 /\ io_running (io p) = false /\ stopped_before (rt p) /\ outside_calls p
    | Terminated _ => True
    end
}.

Lemma stopped_settled (s : joining) : stopped_before s -> settled s.
Proof. intros (s0 & s1 & Hs & Hret & Ho & Hrun). by eapply returned_settled. Qed.

Lemma stopped_step (s s' : joining) : stopped_before s -> join_step s s' -> stopped_before s'.
Proof.
  intros (s0 & s1 & Hs & Hret & Ho & Hrun) Hst. exists s0, s1. split; [done|]. split; [done|]. split; [done|]. by eapply rtc_r.
Qed.

Lemma reachable_step (s s' : joining) : join_reachable s -> join_step s s' -> join_reachable s'.
Proof. intros (s0 & H0 & Hrun) Hst. exists s0. split; [done|]. by eapply rtc_r. Qed.

(** The steps of the others leave the main thread where it is. *)
Lemma stop_call_kept (s s' : joining) :
  stop_call s -> join_step s s' -> pool (base s') !! TCaller 0 = pool (base s) !! TCaller 0 -> stop_call s'.
Proof.
  intros [(s0 & H0 & s1 & Hc & Hrun)|[Hst Hn]] Hst' Hp.
  - left. exists s0. split; [done|]. exists s1. split; [done|]. eapply rtc_r; [exact Hrun|]. split; [done|]. rewrite Hp.
    destruct (stopping_in 0 s0 s H0 (ex_intro _ s1 (conj Hc Hrun))) as [_ [(th & -> & _) _]]. by eexists.
  - right. split; [by eapply stopped_step|congruence].
Qed.

(** Its own steps bring it to the end of the call. *)
Lemma stop_call_moves (s s' : joining) :
  stop_call s -> join_moves s (TCaller 0) s' -> (forall m, (m <> 0)%nat -> pool (base s') !! TCaller m = None) -> stop_call s'.
Proof.
  intros Hcall Hst Hothers. assert (Hstep : join_step s s') by (left; by exists (TCaller 0)). destruct Hcall as [(s0 & H0 & Hin)|[_ Hn]].
  - destruct (pool (base s') !! TCaller 0) as [th|] eqn:Hp.
    + left. exists s0. split; [done|]. destruct Hin as (s1 & Hc & Hrun). exists s1. split; [done|].
      eapply rtc_r; [exact Hrun|]. split; [done|]. by rewrite Hp.
    + right. split; [|done]. exists s0, s'. split; [done|]. split; [by exists s|]. split; [|done].
      destruct (stopping_in 0 s0 s H0 Hin) as [Hw _]. pose proof (step_watched s s' Hw Hstep) as Hw'.
      intros m. apply (watched_gone _ Hw'). destruct (decide (m = 0%nat)) as [->|Hne]; [done|by apply Hothers].
  - exfalso. destruct Hst as [b _ Hst|b _ Hst]; inversion Hst; congruence.
Qed.

Lemma calls_stop_step c (s s' : joining) : calls_stop c s s' -> join_step s s'.
Proof. intros (Hn & ->). right. constructor. by constructor. Qed.

Lemma calls_stop_in_call (s s' : joining) : join_reachable s -> calls_stop 0 s s' -> in_call s'.
Proof. intros Hs Hc. exists s. split; [done|]. by exists s'. Qed.

Lemma process_inv_rt p s' :
  process_inv p -> live p -> join_step (rt p) s' -> (forall m, (m <> 0)%nat -> pool (base s') !! TCaller m = None) ->
  (stop_call (rt p) -> stop_call s') -> process_inv (mkProcess (main_at p) (io p) s').
Proof.
  intros [Hr Hc Hs Hp] Hl Hst Hothers Hcall. split; simpl; [by eapply reachable_step|done|done|].
  unfold live in Hl. destruct (main_at p); [done| | |done|done].
  - destruct Hp as [? ?]. split; [done|by apply Hcall].
  - destruct Hp as (? & ? & ?). split; [done|]. split; [by eapply stopped_step|by apply Hcall].
Qed.

Lemma process_inv_acts p b :
  caller_step (base (rt p)) b -> pool b = pool (base (rt p)) -> process_inv p -> live p ->
  process_inv (mkProcess (main_at p) (io p) (mkJoining b (owed (rt p)))).
Proof.
  intros Hst Hp Hinv Hl. apply process_inv_rt; [done|done|right; by constructor|..].
  - intros k Hk. simpl. rewrite Hp. by apply (pi_callers p Hinv).
  - intros Hcall. eapply stop_call_kept; [exact Hcall|right; by constructor|]. simpl. by rewrite Hp.
Qed.

Lemma moves_callers (s s' : joining) i m :
  join_moves s i s' -> i <> TCaller m -> pool (base s) !! TCaller m = None -> pool (base s') !! TCaller m = None.
Proof. intros Hst Hne Hn. by rewrite (moves_of_other i _ _ (TCaller m) (join_moves_base _ _ _ Hst) (not_eq_sym Hne)). Qed.

Lemma thread_moves_inv p p' : process_inv p -> thread_moves p p' -> process_inv p'.
Proof.
  intros Hinv [i s' Hl Hi Hst]. assert (Hne : forall m, i <> TCaller m) by (by intros m ->).
  apply process_inv_rt; [done|done|left; by exists i|..].
  - intros m Hm. eapply moves_callers; [done|done|]. by apply (pi_callers p Hinv).
  - intros Hcall. eapply stop_call_kept; [exact Hcall|left; by exists i|].
    by apply (moves_of_other i _ _ (TCaller 0) (join_moves_base _ _ _ Hst)).
Qed.

Lemma surroundings_inv p p' : process_inv p -> surroundings p p' -> process_inv p'.
Proof.
  intros Hinv [l r Hl Hn Hr|a Hl Ha]; apply process_inv_acts; try done; by constructor.
Qed.

Lemma main_step_inv p p' : process_inv p -> main_step p p' -> process_inv p'.
Proof.
  intros Hinv Hst. pose proof Hinv as [Hr Hc Hs Hp].
  destruct Hst as [io' Hat Hout Hst|l s' Hat Hio Hout [Hl ->]|s' Hat Hio Hst|s' Hat Hst|Hat Hout|s' Hl Hst]; try rewrite Hat in *.
  - split; simpl; [done|done|by eapply sys_next|done].
  - split; simpl; [|intros m Hm; rewrite lookup_insert_ne by congruence; by apply Hc|done|done].
    eapply reachable_step; [exact Hr|]. right. constructor. by constructor.
  - split; simpl; [by eapply reachable_step, calls_stop_step| |done|].
    + intros m Hm. destruct Hst as (_ & ->). simpl. rewrite lookup_insert_ne by congruence. by apply Hc.
    + split; [done|]. left. by eapply calls_stop_in_call.
  - destruct Hp as [Hio [(s0 & H0 & Hin)|[Hb Hn]]].
    { exfalso. destruct (stopping_in 0 s0 _ H0 Hin) as [_ [(th & Hth & _) _]]. destruct Hst as [Hn _]. congruence. }
    split; simpl; [by eapply reachable_step, calls_stop_step| |done|].
    + intros m Hm. destruct Hst as (_ & ->). simpl. rewrite lookup_insert_ne by congruence. by apply Hc.
    + split; [done|]. split; [by eapply stopped_step, calls_stop_step|]. left. by eapply calls_stop_in_call.
  - destruct Hp as (Hio & Hb & _). by split.
  - apply process_inv_rt; [done|done|left; by eexists|..].
    + intros m Hm. eapply moves_callers; [done|congruence|by apply Hc].
    + intros Hcall. eapply stop_call_moves; [done|done|]. intros m Hm. eapply moves_callers; [done|congruence|by apply Hc].
Qed.

Lemma process_step_inv p p' : process_inv p -> process_step p p' -> process_inv p'.
Proof.
  intros Hinv [Hst|[Hst|Hst]]; [by eapply main_step_inv|by eapply thread_moves_inv|by eapply surroundings_inv].
Qed.

(** ** It ends *)

Lemma in_call_facts (s : joining) : in_call s -> watched s /\ in_stop 0 s /\ is_Some (pool (base s) !! TCaller 0).
Proof.
  intros (s0 & H0 & Hin). destruct (stopping_in 0 s0 s H0 Hin) as [Hw Hi]. split; [done|]. split; [done|].
  destruct Hi as [(th & Hth & _) _]. by exists th.
Qed.

Lemma in_call_acc (s : joining) : in_call s -> sched_closed (state_of s) -> Acc (flip (call_step 0)) s.
Proof.
  intros (Hw & Hin & _)%in_call_facts Hcl.
  destruct (threads_wind_down (base s) (watched_reachable _ Hw) Hcl) as (Hacc & _). by apply (call_acc 0 (base s)).
Qed.

(** The surroundings are other callers; they change neither the phase nor the
    main thread. *)
Lemma surroundings_others p p' :
  rtc surroundings p p' -> rtc (other_caller 0) (rt p) (rt p') /\ main_at p' = main_at p /\ io p' = io p /\
    pool (base (rt p')) = pool (base (rt p)).
Proof.
  induction 1 as [p|p p1 p' Hst _ IH]; [done|]. destruct IH as (Hrun & Hm & Hi & Hp).
  assert (H1 : other_caller 0 (rt p) (rt p1) /\ main_at p1 = main_at p /\ io p1 = io p /\ pool (base (rt p1)) = pool (base (rt p))).
  { destruct Hst as [l r Hl Hn Hr|a Hl Ha]; (split; [|done]); left; constructor; by constructor. }
  destruct H1 as (H1 & Hm1 & Hi1 & Hp1). split; [by eapply rtc_l|]. split_and!; congruence.
Qed.

Lemma surroundings_run_inv p p' : process_inv p -> rtc surroundings p p' -> process_inv p'.
Proof. intros Hinv Hrun. induction Hrun; [done|]. eauto using surroundings_inv. Qed.

(** No thread of the runtime is left to move. *)
Lemma settled_no_thread (s s' : joining) i : settled s -> of_runtime i -> join_moves s i s' -> False.
Proof.
  intros ([Hr Hj] & _) Hi Hst. assert (Hn : pool (base s) !! i = None) by (by destruct i).
  destruct Hst as [b _ Hst|b _ Hst]; inversion Hst; congruence.
Qed.

Lemma gone_no_move (s s' : joining) i : pool (base s) !! i = None -> join_moves s i s' -> False.
Proof. intros Hn [b _ Hst|b _ Hst]; inversion Hst; congruence. Qed.

Lemma exited_acc p code : main_at p = Exited code -> Acc (flip process_advance) p.
Proof.
  intros Hat. constructor. intros p' (p1 & Hrun & Hst). exfalso.
  destruct (surroundings_others p p1 Hrun) as (_ & Hm & _). rewrite Hat in Hm. unfold live in *.
  destruct Hst as [Hst|Hst]; destruct Hst; unfold live in *; try congruence; by rewrite Hm in *.
Qed.

(** While [stop] runs, the process ends if it does so after the call. *)
Lemma call_process_acc (s : joining) ph :
  ph = Stopping \/ ph = Leaving -> Acc (flip (call_step 0)) s ->
  (forall q, main_at q = ph -> process_inv q -> stopped_before (rt q) -> outside_calls q -> Acc (flip process_advance) q) ->
  forall p, rt p = s -> main_at p = ph -> process_inv p -> in_call (rt p) -> Acc (flip process_advance) p.
Proof.
  intros Hph Hacc Hafter. induction Hacc as [s _ IH]. intros p <- Hat Hinv Hin. constructor.
  intros p' (p1 & Hrun & Hst). destruct (surroundings_others p p1 Hrun) as (Hothers & Hm & _ & Hpool).
  pose proof (surroundings_run_inv p p1 Hinv Hrun) as Hinv1.
  destruct (in_call_facts _ Hin) as (_ & _ & [th Hth]). rewrite <- Hpool in Hth.
  assert (Hgo : forall i s', of_runtime i \/ i = TCaller 0 -> join_moves (rt p1) i s' ->
    process_inv (mkProcess ph (io p1) s') -> Acc (flip process_advance) (mkProcess ph (io p1) s')).
  { intros i s' Hi Hst' Hinv'. destruct (pool (base s') !! TCaller 0) as [th'|] eqn:Hp'.
    - apply (IH s'); [|done|done|done|].
      + exists (rt p1), i. split; [done|]. split; [done|]. split; [done|by rewrite Hp'].
      + pose proof (pi_phase _ Hinv') as Hph'. simpl in Hph'. destruct Hph as [-> | ->];
          [destruct Hph' as (_ & [?|[_ Hn]])|destruct Hph' as (_ & _ & [?|[_ Hn]])]; try done; congruence.
    - apply Hafter; [done|done| |done]. pose proof (pi_phase _ Hinv') as Hph'. simpl in Hph'.
      destruct Hph as [-> | ->]; [|by destruct Hph' as (_ & ? & _)]. destruct Hph' as (_ & [Hin'|[? _]]); [|done].
      destruct (in_call_facts _ Hin') as (_ & _ & [th' Hth']). simpl in Hth'. congruence. }
  rewrite Hat in Hm. destruct Hst as [Hst|Hst].
  - pose proof (main_step_inv p1 p' Hinv1 Hst) as Hinv'.
    destruct Hst as [io' Ha _ _|l s' Ha _ _ _|s' Ha _ _|s' Ha [Hn _]|Ha Hn|s' Hl Hst]; unfold outside_calls in *;
      try congruence; try (destruct Hph; congruence).
    rewrite Hm in *. apply (Hgo (TCaller 0)); auto.
  - pose proof (thread_moves_inv p1 p' Hinv1 Hst) as Hinv'. destruct Hst as [i s' Hl Hi Hst]. rewrite Hm in *.
    apply (Hgo i); auto.
Qed.

Lemma leaving_acc p : main_at p = Leaving -> process_inv p -> Acc (flip process_advance) p.
Proof.
  assert (Hafter : forall q, main_at q = Leaving -> process_inv q -> stopped_before (rt q) -> outside_calls q ->
    Acc (flip process_advance) q).
  { intros q Hat Hinv Hb Hout. constructor. intros p' (p1 & Hrun & Hst).
    destruct (surroundings_others q p1 Hrun) as (_ & Hm & _ & Hpool).
    pose proof (surroundings_run_inv q p1 Hinv Hrun) as Hinv1. rewrite Hat in Hm. unfold outside_calls in Hout. rewrite <- Hpool in Hout.
    destruct Hst as [Hst|Hst].
    - destruct Hst as [io' Ha _ _|l s' Ha _ _ _|s' Ha _ _|s' Ha [Hn _]|Ha Hn|s' Hl Hst]; try congruence.
      + by eapply exited_acc.
      + exfalso. by eapply gone_no_move.
    - destruct Hst as [i s' Hl Hi Hst]. exfalso. pose proof (pi_phase _ Hinv1) as Hph. rewrite Hm in Hph.
      destruct Hph as (_ & Hb1 & _). by eapply settled_no_thread; [apply stopped_settled|..]. }
  intros Hat Hinv. pose proof (pi_phase _ Hinv) as Hph. rewrite Hat in Hph. destruct Hph as (_ & Hb & [Hin|[_ Hn]]); [|by apply Hafter].
  apply (call_process_acc (rt p) Leaving); auto. apply in_call_acc; [done|].
  destruct (stopped_settled _ Hb) as (_ & Hcl & _). apply (Hcl TRouting).
Qed.

Lemma stopping_acc p :
  main_at p = Stopping -> process_inv p -> sched_closed (state_of (rt p)) -> Acc (flip process_advance) p.
Proof.
  assert (Hafter : forall q, main_at q = Stopping -> process_inv q -> stopped_before (rt q) -> outside_calls q ->
    Acc (flip process_advance) q).
  { intros q Hat Hinv Hb Hout. constructor. intros p' (p1 & Hrun & Hst).
    destruct (surroundings_others q p1 Hrun) as (_ & Hm & _ & Hpool).
    pose proof (surroundings_run_inv q p1 Hinv Hrun) as Hinv1. rewrite Hat in Hm. unfold outside_calls in Hout. rewrite <- Hpool in Hout.
    destruct Hst as [Hst|Hst].
    - pose proof (main_step_inv p1 p' Hinv1 Hst) as Hinv'.
      destruct Hst as [io' Ha _ _|l s' Ha _ _ _|s' Ha _ _|s' Ha [Hn _]|Ha Hn|s' Hl Hst]; try congruence.
      + by apply leaving_acc.
      + exfalso. by eapply gone_no_move.
    - destruct Hst as [i s' Hl Hi Hst]. exfalso. pose proof (pi_phase _ Hinv1) as Hph. rewrite Hm in Hph.
      destruct Hph as (_ & [Hin|[Hb1 _]]).
      + destruct (in_call_facts _ Hin) as (_ & _ & [th Hth]). congruence.
      + by eapply settled_no_thread; [apply stopped_settled|..]. }
  intros Hat Hinv Hcl. pose proof (pi_phase _ Hinv) as Hph. rewrite Hat in Hph. destruct Hph as (_ & [Hin|[Hb Hn]]); [|by apply Hafter].
  apply (call_process_acc (rt p) Stopping); auto. by apply in_call_acc.
Qed.

Lemma stop_phases_go_on p :
  main_at p = Stopping \/ main_at p = Leaving -> process_inv p -> exists p', main_step p p' \/ thread_moves p p'.
Proof.
  intros Hat Hinv. assert (Hl : live p) by (unfold live; by destruct Hat as [-> | ->]).
  assert (Hcall : stop_call (rt p)).
  { pose proof (pi_phase _ Hinv) as Hph. destruct Hat as [Hat|Hat]; rewrite Hat in Hph; by destruct_and?. }
  destruct Hcall as [Hin|[_ Hn]].
  - destruct (in_call_facts _ Hin) as (Hw & Hi & _).
    destruct (call_goes_on 0 (rt p) Hw Hi) as [[s' Hst]|(_ & k & s' & Hk & Hst)]; eexists.
    + left. by apply inside_call.
    + right. apply (runtime_thread p k); [done| |done]. by destruct (watched_owes _ Hw _ k Hk).
  - destruct Hat as [Hat|Hat]; eexists; left; [by apply stop_done|by apply main_returns].
Qed.
End process.

(** ** From the command line *)

(** The runtime, when its scheduler is the FIFO scheduler. *)
Definition fifo_of {R B n} (x : Runtime.t any_scheduler R B n) : option (FifoRuntime R B n) :=
  match Runtime.scheduler_ x with
  | UseFifo q => Some (Runtime.mk q (Runtime.router_ x) (Runtime.workers_ x) (Runtime.worker_index_ x) (Runtime.registry_ x)
                         (Runtime.routing_thread_ x) (Runtime.accepting_ x) (Runtime.started_ x))
  | UseWorkload _ => None
  end.

Section launch.
Context {B : Type} {n : nat} `{!IModelBackend B} `{HO : !HashOrder} `{!JsonLib}.
Notation R := ResidencyAwareRouter.Metrics.
#[local] Notation process := (process (R := R) (B := B) (n := n)).
Implicit Types (x : FifoRuntime R B n) (p : process).

(** The runtime was built from the options. *)
Definition built_by (opts : ServerOptions) (build : startup B) : Prop :=
  exists make i count registry, build = build_runtime opts (make_workers make i count) registry.

(** [main] started this runtime and went on to listen. *)
Definition launched (build : startup B) (setup : exn + HttpServer.t) p : Prop :=
  exists made x clock w started epoch, build = Built (existT n made) /\ fifo_of made = Some x /\
    Runtime.start (mkWorld ∅ clock [] x []) = (Ret started, w) /\ p = launch setup started (started_runtime w epoch).

Definition process_reachable (build : startup B) (setup : exn + HttpServer.t) p : Prop :=
  exists p0, launched build setup p0 /\ rtc process_step p0 p.

(** Workers that were just made. *)
Lemma worker_new_fresh cfg (w : Worker.t B) :
  Worker.new cfg = inr w -> worker_pointers w = [] /\ Worker.started_ w = false.
Proof.
  unfold Worker.new. destruct (_ || _); [done|]. destruct (BatchBuilder.new _); [done|]. destruct (Worker.cfg_backend cfg); [|done].
  destruct (ModelManager.new _ _ _ _); [done|]. unfold BoundedQueue.new. destruct (_ =? 0); [done|]. by intros [= <-].
Qed.

Lemma make_workers_fresh make i count (ws : list (Worker.t B)) :
  make_workers make i count = inr ws -> forall w, w ∈ ws -> worker_pointers w = [] /\ Worker.started_ w = false.
Proof.
  revert i ws. induction count as [|count IH]; intros i ws; simpl.
  - intros [= <-] w ?%elem_of_nil. done.
  - destruct (make i) as [e|cfg]; [done|]. destruct (Worker.new _) as [e|w0] eqn:Hw; [done|].
    destruct (make_workers make (i + 1) count) as [e|l] eqn:Hl; [done|]. intros [= <-] w [->|Hin]%elem_of_cons.
    + by eapply worker_new_fresh.
    + by eapply IH.
Qed.

Lemma built_fresh opts build made x :
  built_by opts build -> build = Built (existT n made) -> fifo_of made = Some x ->
  no_work x /\ Runtime.started_ x = false /\ forall j, Worker.started_ (Runtime.workers_ x !!! j) = false.
Proof.
  intros (make & i & count & registry & ->). unfold build_runtime.
  destruct (make_workers make i count) as [e|ws] eqn:Hws; [done|]. pose proof (make_workers_fresh _ _ _ _ Hws) as Hfresh.
  destruct (make_scheduler opts) as [e|sch] eqn:Hsch; [done|].
  destruct (Runtime.new _ _ _ _) as [e|u] eqn:Hnew; [done|]. intros Hb.
  assert (u = existT n made) as ->.
  { apply (f_equal (fun b => match b with Built rt => rt | _ => u end)) in Hb. exact Hb. }
  apply new_fields in Hnew as (Hs & Hst & Hin).
  assert (Hw : forall j, worker_pointers (Runtime.workers_ made !!! j) = [] /\ Worker.started_ (Runtime.workers_ made !!! j) = false).
  { intros j. apply Hfresh. specialize (Hin j). apply list_elem_of_fmap in Hin as (w & [= ->] & ?). done. }
  unfold fifo_of. rewrite Hs. destruct sch as [q|]; [|done]. intros [= <-].
  assert (Hq : BoundedQueue.queue_ q = []).
  { unfold make_scheduler in Hsch. case_bool_decide; [|destruct (WorkloadAwareScheduler.new _); done].
    unfold FifoScheduler.new, BoundedQueue.new in Hsch. destruct (_ =? 0); [done|]. by injection Hsch as <-. }
  split; [split; [done|]|split; [done|]]; intros j; apply Hw.
Qed.

Lemma launched_inv opts build setup p :
  built_by opts build -> launched build setup p -> (forall srv, setup = inr srv -> HttpServer.new true true true = inr srv) ->
  process_inv p /\ forall e, main_at p = Terminated e -> setup = inl e.
Proof.
  intros Hby (made & x & clock & w & started & epoch & Hb & Hf & Hst & ->) Hsetup.
  destruct (built_fresh opts build made x Hby Hb Hf) as (Hn & Hs & Hw).
  destruct (start_initial n x clock epoch Hn Hs Hw) as (w' & Hst' & Hinit & Hh). rewrite Hst in Hst'. injection Hst' as -> ->.
  assert (Hr : join_reachable (started_runtime w' epoch)).
  { exists (started_runtime w' epoch). split; [|apply rtc_refl]. exact (conj Hinit (conj eq_refl Hh)). }
  assert (Hc : forall m, pool (base (started_runtime w' epoch)) !! TCaller m = None).
  { intros m. simpl. by rewrite started_pool_lookup. }
  unfold launch. simpl. destruct setup as [e|srv]; simpl.
  - split; [by split|]. by intros e' [= ->].
  - split; [|done]. split; simpl; [done|done| |done]. by apply sys_start, Hsetup.
Qed.

Lemma step_not_terminated p p' e : process_step p p' -> main_at p' = Terminated e -> False.
Proof.
  intros [Hst|[Hst|Hst]]; destruct Hst; simpl; try congruence; unfold live in *; intros Hm; by rewrite Hm in *.
Qed.

Lemma process_reachable_inv opts build setup p :
  built_by opts build -> (forall srv, setup = inr srv -> HttpServer.new true true true = inr srv) ->
  process_reachable build setup p -> process_inv p /\ forall e, main_at p = Terminated e -> setup = inl e.
Proof.
  intros Hby Hsetup (p0 & Hl & Hrun). destruct (launched_inv opts build setup p0 Hby Hl Hsetup) as [H0 Ht0]. clear Hl.
  induction Hrun as [p|p p1 p' Hst _ IH]; [done|]. apply IH; [by eapply process_step_inv|].
  intros e He. exfalso. by eapply step_not_terminated.
Qed.
End launch.

Lemma serve_setup_listens {A} (make_address : string -> exn + A) listen opts srv :
  serve_setup make_address listen opts = inr srv -> HttpServer.new true true true = inr srv.
Proof.
  unfold serve_setup. destruct (make_address _) as [e|a]; [done|]. destruct (listen a _) as [[[] []] []]; try done.
Qed.


(** What [main] makes of its options is built by them. *)
Lemma exit_built {B} opts : built_by opts (ExitCode 1 : startup B).
Proof. by exists (fun _ => inl (StdException "")), 0, 1%nat, None. Qed.

Lemma main_built {G} `{API : !LlamaApi G} `{HO : !HashOrder} enabled epoch file_size (g : G) opts :
  match main_build enabled epoch file_size g opts with inl b => built_by opts b | inr b => built_by opts b end.
Proof.
  unfold main_build, main_synthetic, main_llama.
  repeat case_match; simplify_eq; first [by eexists _, _, _, _|apply exit_built].
Qed.

(** An address that is not one, or a port that is taken: the exception is not
    caught, while the threads of the runtime run. *)
Lemma cannot_listen {A R B n} `{!IWorkerRouter R} `{!IModelBackend B} `{HO : !HashOrder}
    (make_address : string -> exn + A) listen opts e (w : World (FifoRuntime R B n)) epoch :
  serve_setup make_address listen opts = inl e ->
  let p := launch (serve_setup make_address listen opts) Status.success (started_runtime w epoch) in
  main_at p = Terminated e /\ forall i, of_runtime i -> is_Some (pool (base (rt p)) !! i).
Proof.
  intros He p. unfold p, launch. simpl. rewrite He. simpl. split; [done|]. intros i Hi. rewrite started_pool_lookup. by destruct i.
Qed.

(** ** A run of the process *)

Section exec.
Context {R B : Type} {n : nat} `{!IWorkerRouter R} `{!IModelBackend B} `{HO : !HashOrder} `{!JsonLib}.
#[local] Notation joining := (joining (R := R) (B := B) (n := n)).

(** Moves of the main thread inside a call, and of the threads of the runtime. *)
Definition own_move (mv : move (R := R) (B := B) (n := n)) : bool :=
  match mv with
  | MoveSections (TCaller (S _)) _ | MoveTurn (TCaller (S _)) _ => false
  | MoveSections _ _ | MoveTurn _ _ => true
  | _ => false
  end.

Lemma moves_process ph io i (s s' : joining) :
  live (mkProcess ph io s) -> (of_runtime i \/ i = TCaller 0) -> join_moves s i s' ->
  process_step (mkProcess ph io s) (mkProcess ph io s').
Proof.
  intros Hl [Hi| ->] Hst; [right; left; by apply (runtime_thread (mkProcess ph io s) i)|].
  left. by apply (inside_call (mkProcess ph io s)).
Qed.

Lemma sections_process ph io i fuel (s : joining) :
  live (mkProcess ph io s) -> (of_runtime i \/ i = TCaller 0) ->
  rtc process_step (mkProcess ph io s) (mkProcess ph io (join_sections i fuel s)).
Proof.
  intros Hl Hi. revert s Hl. induction fuel as [|fuel IH]; intros s Hl; [done|]. simpl.
  destruct (decide (clear s i)) as [Hcl|]; [|done]. destruct (pool (base s) !! i) as [th|] eqn:Hth; [|done].
  destruct (next_step (world (base s)) (code th)) as [[w' p']|] eqn:Hn; [|done].
  eapply rtc_l; [|by apply IH]. apply (moves_process ph io i); [done|done|].
  refine (join_section s i (mkMachine w' _) Hcl _). econstructor; [done|by apply next_step_sound].
Qed.

Lemma run_process ph io mvs (s s' : joining) :
  live (mkProcess ph io s) -> forallb own_move mvs = true -> join_exec_all mvs s = Some s' ->
  rtc process_step (mkProcess ph io s) (mkProcess ph io s').
Proof.
  revert s. induction mvs as [|mv mvs IH]; intros s Hl Hown; simpl; [by intros [= <-]|].
  simpl in Hown. apply andb_true_iff in Hown as [Hmv Hown]. destruct (join_exec mv s) as [s1|] eqn:E; [|done]. intros Hrun.
  etrans; [|exact (IH s1 Hl Hown Hrun)]. destruct mv as [i fuel|i e|a|m l|m]; try done; unfold join_exec in E.
  - injection E as <-. apply sections_process; [done|]. destruct i as [| |[|m]]; [by left|by left|by right|done].
  - destruct (decide (clear s i)) as [Hcl|]; [|done]. apply fmap_Some in E as (b & Hb & ->). apply exec_turn_step in Hb.
    apply rtc_once, (moves_process ph io i); [done| |by apply join_turn].
    destruct i as [| |[|m]]; [by left|by left|by right|done].
Qed.

Lemma run_process_default ph io mvs (s : joining) :
  live (mkProcess ph io s) -> forallb own_move mvs = true -> bool_decide (is_Some (join_exec_all mvs s)) = true ->
  rtc process_step (mkProcess ph io s) (mkProcess ph io (default s (join_exec_all mvs s))).
Proof. intros Hl Hown [s' Hs']%bool_decide_eq_true. rewrite Hs'. by eapply run_process. Qed.
End exec.

#[local] Existing Instance demo_json.
#[local] Existing Instance gmap_order.

Definition demo_opts : ServerOptions :=
  mkOptions "127.0.0.1" 8080 "synthetic" "" "" 2048 None None (Some 1) 4 0 32 8 "fifo".

Definition demo_made : Runtime.t any_scheduler ResidencyAwareRouter.Metrics Synthetic.t 1 :=
  match main_synthetic demo_opts as b
    return match b with Built made => Runtime.t any_scheduler ResidencyAwareRouter.Metrics Synthetic.t (projT1 made) | _ => unit end
  with Built made => projT2 made | _ => tt end.

Definition demo_fifo : FifoRuntime ResidencyAwareRouter.Metrics Synthetic.t 1 :=
  default (Runtime.mk (BoundedQueue.mk 0 [] true) (Runtime.router_ demo_made) (Runtime.workers_ demo_made) ∅
    (Runtime.registry_ demo_made) false false false) (fifo_of demo_made).

Definition demo_setup := serve_setup (fun _ => inr tt : exn + unit) (fun _ _ => (true, true, true)) demo_opts.
Definition demo_started : World (FifoRuntime ResidencyAwareRouter.Metrics Synthetic.t 1) :=
  (Runtime.start (mkWorld ∅ 0 [] demo_fifo [])).2.

#[local] Notation demo_joining_of := (joining (R := ResidencyAwareRouter.Metrics) (B := Synthetic.t) (n := 1)).
#[local] Notation demo_state := (process (R := ResidencyAwareRouter.Metrics) (B := Synthetic.t) (n := 1)).

Definition demo_process : demo_state := launch demo_setup Status.success (started_runtime demo_started 0).

(** A handler creates a request and submits it. *)
Definition demo_rt1 : demo_joining_of := mkJoining
  (mkMachine (set_heap (<[1%positive := demo_request "a" "model-a"]> (heap demo_started)) demo_started) (started_pool 0)) ∅.
Definition demo_enter (code : prog _ bool) (held : gset loc) (s : demo_joining_of) : demo_joining_of :=
  mkJoining (mkMachine (world (base s)) (<[TCaller 0 := mkThread code held]> (pool (base s)))) (owed s).
Definition demo_moved (mvs : list move) (s : demo_joining_of) : demo_joining_of := default s (join_exec_all mvs s).

Definition demo_rt2 : demo_joining_of :=
  demo_moved [MoveSections (TCaller 0) 100; MoveTurn (TCaller 0) 0] (demo_enter (submit_code 1%positive) {[1%positive]} demo_rt1).

(** A signal stops the server, and [main] stops the runtime, twice. *)
Definition demo_io : Server.system := default (io demo_process) (Server.stop (io demo_process)).
Definition demo_rt3 : demo_joining_of :=
  demo_moved [MoveSections (TCaller 0) 100; MoveSections TRouting 100; MoveTurn TRouting 0; MoveSections TRouting 100; MoveTurn TRouting 0;
    MoveSections (TCaller 0) 100; MoveSections (TWorker 0%fin) 200; MoveTurn (TWorker 0%fin) 0; MoveSections (TWorker 0%fin) 200;
    MoveTurn (TWorker 0%fin) 0; MoveSections (TCaller 0) 100; MoveTurn (TCaller 0) 0] (demo_enter stop_code ∅ demo_rt2).
Definition demo_rt4 : demo_joining_of :=
  demo_moved [MoveSections (TCaller 0) 100; MoveTurn (TCaller 0) 0] (demo_enter stop_code ∅ demo_rt3).
Definition demo_exited : demo_state := mkProcess (Exited 0) demo_io demo_rt4.

Lemma demo_built : built_by demo_opts (main_synthetic demo_opts).
Proof. exact (@main_built nat toy_llama gmap_order true 0 None 0%nat demo_opts). Qed.

Lemma demo_launched : launched (main_synthetic demo_opts) demo_setup demo_process.
Proof.
  exists demo_made, demo_fifo, 0, demo_started, Status.success, 0%nat.
  split; [reflexivity|]. split; [reflexivity|]. split; [|reflexivity].
  rewrite (surjective_pairing (Runtime.start _)). apply (f_equal (fun o => (o, demo_started))). by vm_compute.
Qed.

(** The steps of [main], with what has to be checked of a state. *)
Definition is_outside (s : demo_joining_of) : bool := bool_decide (pool (base s) !! TCaller 0 = None).

Lemma serving_stops io io' (s : demo_joining_of) :
  is_outside s = true -> io_running io = true -> Server.stop io = Some io' ->
  process_step (mkProcess Serving io s) (mkProcess Serving io' s).
Proof.
  intros Hs%bool_decide_eq_true Hr Hst. left. apply (run_handler (mkProcess Serving io s)); [done|done|by apply sys_stop].
Qed.

Lemma serving_returns io (s : demo_joining_of) :
  is_outside s = true -> io_running io = false ->
  process_step (mkProcess Serving io s) (mkProcess Stopping io (demo_enter stop_code ∅ s)).
Proof. intros Hs%bool_decide_eq_true Hr. left. by apply (run_returns (mkProcess Serving io s)). Qed.

Lemma stopping_leaves io (s : demo_joining_of) :
  is_outside s = true -> process_step (mkProcess Stopping io s) (mkProcess Leaving io (demo_enter stop_code ∅ s)).
Proof. intros Hs%bool_decide_eq_true. left. by apply (stop_done (mkProcess Stopping io s)). Qed.

Lemma leaving_exits io (s : demo_joining_of) :
  is_outside s = true -> process_step (mkProcess Leaving io s) (mkProcess (Exited 0) io s).
Proof. intros Hs%bool_decide_eq_true. left. by apply (main_returns (mkProcess Leaving io s)). Qed.

Lemma serving_submits io l (s : demo_joining_of) :
  is_outside s = true -> io_running io = true -> bool_decide (is_Some (heap (world (base s)) !! l)) = true ->
  process_step (mkProcess Serving io s) (mkProcess Serving io (demo_enter (submit_code l) {[l]} s)).
Proof.
  intros Hs%bool_decide_eq_true Hr Hl%bool_decide_eq_true. left. by apply (handler_submits (mkProcess Serving io s) l).
Qed.

Lemma demo_moved_process ph io mvs (s : demo_joining_of) :
  live (mkProcess ph io s) -> forallb own_move mvs = true -> bool_decide (is_Some (join_exec_all mvs s)) = true ->
  rtc process_step (mkProcess ph io s) (mkProcess ph io (demo_moved mvs s)).
Proof. apply run_process_default. Qed.

Lemma demo_created : process_step demo_process (mkProcess Serving (io demo_process) demo_rt1).
Proof.
  right. right. apply (new_request demo_process 1%positive (demo_request "a" "model-a")); [exact I|by vm_compute|reflexivity].
Qed.

Lemma demo_submitted : process_step (mkProcess Serving (io demo_process) demo_rt1)
  (mkProcess Serving (io demo_process) (demo_enter (submit_code 1%positive) {[1%positive]} demo_rt1)).
Proof. apply serving_submits; by vm_compute. Qed.

Lemma demo_accepted : rtc process_step
  (mkProcess Serving (io demo_process) (demo_enter (submit_code 1%positive) {[1%positive]} demo_rt1))
  (mkProcess Serving (io demo_process) demo_rt2).
Proof. apply demo_moved_process; [exact I|reflexivity|by vm_compute]. Qed.

Lemma demo_signalled : process_step (mkProcess Serving (io demo_process) demo_rt2) (mkProcess Serving demo_io demo_rt2).
Proof. apply serving_stops; by vm_compute. Qed.

Lemma demo_stops : process_step (mkProcess Serving demo_io demo_rt2) (mkProcess Stopping demo_io (demo_enter stop_code ∅ demo_rt2)).
Proof. apply serving_returns; by vm_compute. Qed.

Lemma demo_drains : rtc process_step (mkProcess Stopping demo_io (demo_enter stop_code ∅ demo_rt2)) (mkProcess Stopping demo_io demo_rt3).
Proof. apply demo_moved_process; [exact I|reflexivity|by vm_compute]. Qed.

Lemma demo_leaves : process_step (mkProcess Stopping demo_io demo_rt3) (mkProcess Leaving demo_io (demo_enter stop_code ∅ demo_rt3)).
Proof. apply stopping_leaves; by vm_compute. Qed.

Lemma demo_left : rtc process_step (mkProcess Leaving demo_io (demo_enter stop_code ∅ demo_rt3)) (mkProcess Leaving demo_io demo_rt4).
Proof. apply demo_moved_process; [exact I|reflexivity|by vm_compute]. Qed.

Lemma demo_ended : process_step (mkProcess Leaving demo_io demo_rt4) demo_exited.
Proof. apply leaving_exits; by vm_compute. Qed.

Lemma demo_exits : rtc process_step demo_process demo_exited.
Proof.
  apply (rtc_l _ _ _ _ demo_created), (rtc_l _ _ _ _ demo_submitted). etrans; [exact demo_accepted|].
  apply (rtc_l _ _ _ _ demo_signalled), (rtc_l _ _ _ _ demo_stops). etrans; [exact demo_drains|].
  apply (rtc_l _ _ _ _ demo_leaves). etrans; [exact demo_left|]. exact (rtc_once _ _ demo_ended).
Qed.

